(* ===== verification/_CoqProject ===== *)
-Q . S2P
Prelude.v
Packet.v
Errors.v
Limits.v
Stream.v
Events.v
EventsProps.v
Registry.v
RegistryInv.v
RegistryOps.v
RegistryRun.v
RegistryProps.v
RegistryLive.v
RegistryRace.v
Writes.v
Transport.v
TransportProps.v
Actor.v
ActorProps.v
Server.v
ServerLife.v
ServerInv.v
ServerProps.v
Adapters.v
TcpLoop.v
Quic.v
QuicLoop.v
WebSocket.v
Conversation.v
Exchange.v
ConversationProps.v
Links.v
Retry.v
Client.v
Callback.v
CallbackProps.v
Handles.v
ClientInv.v
ClientProps.v
Config.v
Tls.v
TlsProps.v
Accept.v
Connections.v
Endpoints.v
EndpointsProps.v
Dial.v
Builders.v
Bindings.v
BindingsProps.v
