(* ===== verification/Prelude.v ===== *)
(** * msgtrans: a verification library of its transport

    msgtrans (crates/msgtrans) carries packets between a client and a server
    over TCP, WebSocket or QUIC: one-way messages, and requests that are answered
    exactly once. crates/msgtrans-ffi binds its client to other languages. The
    paths below are relative to src/crates/msgtrans/src.

    ** The program and its model

    A connection is an adapter ([adapters/]): an event loop that reads frames,
    decodes them under limits and hands packets to a bounded event pipe, and
    writes the items of a bounded outbound queue, resolving each item's
    completion with what the socket did. A client's [Transport] installs one
    connection at a time, each a new generation, and consumes its pipe; a
    server's session has a transport, a pump and an actor that calls the
    application's handler. All of them share a [RequestRegistry], which owns the
    state of every request in flight in either direction. Above them are the
    lives of the client (retries, reconnects, shutdown) and of the server
    (accept loops, permits, shutdown), and below the configurations and TLS.

    Code between two await points is a function on explicit state; an awaiting
    call is a program counter, and its task, the timers and every other task are
    labels of a step function, so that the theorems quantify over every
    interleaving (lists of labels) and over dropping a future at any await. A
    [Result] that may also panic is [exec] of this file. Machine integers are
    [Z] with their wrap-around written out; [usize] has 32 or 64 bits ([Target]).
    Concurrent maps are finite maps, an [Arc] that is shared is a location of a
    heap in the record that models its owner (response channels, session
    runtimes), a channel is its queue and the flags of its ends.

    ** Files, from the code below to the code above

    - [Prelude]: [exec] and its tactics, integers, bytes, list lemmas.
    - [Packet] (packet.rs): header, flags, packet, encoder, decoders, codecs.
    - [Errors] (error.rs), [Limits] (transport/limits.rs, transport/mod.rs):
      errors and retryability; the limit builders and the options of a message.
    - [Stream] (adapters/tcp.rs, transport/memory_pool.rs): read buffer, parser,
      bounded resync, buffer pool.
    - [Events], [EventsProps] (event.rs, command.rs, adapters/budget.rs,
      adapters/events.rs): byte permits and the event pipe.
    - [Registry] (transport/request_registry.rs): entries, waiters, runtimes,
      counters, timeout wheel. [RegistryInv]: the invariant and the elementary
      changes; [RegistryOps]: the specification of each operation;
      [RegistryRun]: all of them as a transition system; [RegistryProps],
      [RegistryLive]: its promises along any run; [RegistryRace]: the same code
      cut into its atomic steps and interleaved.
    - [Writes] (connection.rs, adapters/outbound.rs, the write future of
      adapters/tcp.rs): completions, receipts, the queue.
    - [Transport], [TransportProps] (transport/transport.rs,
      connection_state.rs): generations, sends, requests, the pipe's consumer.
    - [Actor], [ActorProps] (transport/session_actor.rs): mailbox, batches,
      handler calls, commands, responders.
    - [Server], [ServerLife], [ServerInv], [ServerProps]
      (transport/transport_server.rs): sessions, broadcasts and pumps; then
      startup, accept loops, supervisors, fail-fast and shutdown.
    - [Adapters] (adapters/core.rs), [TcpLoop] (adapters/tcp.rs), [Quic],
      [QuicLoop] (adapters/quic.rs), [WebSocket] (adapters/websocket.rs): the
      event loops of the three adapters.
    - [Conversation], [ConversationProps]: a client and a server of one session
      side by side, composed of [Transport], [Actor] and [Server]; [Exchange]:
      what the end that answers guarantees, in either direction; [Links]: the
      three adapters as the link between the ends.
    - [Retry], [Client], [ClientInv], [ClientProps] (transport/client.rs,
      event.rs): the retry policy in 64-bit floats; connect, disconnect,
      shutdown, forwarding, each call with its cancellation.
    - [Callback], [CallbackProps]: the conversation in the other direction, the
      server's requests of transport_server.rs and the client's [ClientRequest].
    - [Handles] (transport/session_actor.rs, stream.rs, transport/concurrent.rs):
      the sender a handler holds, the client's event stream, the map.
    - [Config] (protocol/), [Tls], [TlsProps] (adapters/tls_common.rs and the
      set-up code of the adapters, protocol/adapter.rs), [Accept] (the accept
      pumps, adapters/factories.rs).
    - [Connections] (connection.rs, spi.rs, command.rs and the adapter structs):
      the [Connection] trait as the classes [Connection] and [ConnectionLaws],
      an instance for each adapter, the transport's side proved against the
      class.
    - [Endpoints], [EndpointsProps] (the builders and servers of the adapters,
      adapters/factories.rs, protocol/adapter.rs, and the [DynServerConfig] and
      [DynClientConfig] of protocol/): the traits as the classes [Server],
      [ServerConfig] and [ClientConfig] with an instance for each protocol;
      the WebSocket client's request and connection. [Dial]: the retry loop over
      these clients, on one clock.
    - [Builders] (transport/client.rs, transport/server.rs,
      ../msgtrans-ffi/src): the two builders, and what the bindings translate.
    - [Bindings], [BindingsProps] (../msgtrans-ffi/src/client.rs, stream.rs): the
      object the bindings export, a client behind a read-write lock (the classes
      [RwLock] and [RwLockLaws]) and its event stream behind a mutex.

    ** What the theorems show

    End to end, and within one session, a response a caller gets answers its own
    request: the handler was called with that request's packet exactly once, one
    answer was claimed for it and the caller holds that answer
    ([ConversationProps]), and so it is when the server asks and the client's
    application answers ([CallbackProps]);
    a link made of
    two event loops of TCP, WebSocket or QUIC delivers a selection of what was
    sent in order and never twice ([Links]), which is what the theorem asks.

    Packets round trip, the decoder is canonical, bounded and never panics
    ([Packet]); how the kernel cuts the stream does not matter ([Stream]); what
    one end reports written is what the other delivers ([TcpLoop], [Quic],
    [WebSocket], [Writes]), including writes that fail half way: on TCP nothing
    else arrives, on QUIC at most a part of the batch that failed, on WebSocket
    at most the message in hand, whose receipts do not say written; limits agree at
    every layer ([Limits], [Connections]); memory held for inbound packets stays
    within the budget and the consumer sees every event and then one close
    ([EventsProps]).

    The registry keeps its invariant under every operation, gives each request
    one winner, makes stale tokens inert, wakes each waiter once with its own
    response or the close, reaps overdue requests within one turn of its wheel,
    and a session close wins every race of registrations under keys of their own
    ([Registry*]). Stale generations are
    inert and bound sends stay on their generation ([TransportProps]); a handler
    sees one session in order ([ActorProps]); permits of the connection cap are
    conserved, a clean shutdown is final and ends within its budget, serve
    returns after everything it started ([ServerProps]); the client's shutdown
    ends it and returns, its events are in order and what they should be
    ([ClientProps]); pinned clients reach only their servers ([TlsProps]); silent
    peers stall nobody behind a pump, whose timeouts let time pass and free its
    permits ([Accept]); servers serve, and clients connect, as they were configured,
    over their whole life ([EndpointsProps]), and connecting ends in time
    ([Dial]); the bindings keep the protection they were asked for
    ([Builders]), make their client do only what its signatures allow and hand
    its events out in order ([BindingsProps]). Theorems that pin down behaviour the code's comments deny are
    stated beside the ones that hold ([WebSocket.blocked_consumer_times_out_a_live_peer],
    [ClientProps.dropped_connect_wedges_the_client],
    [EndpointsProps.taken_port_is_taken_for_a_peers_fault] and plain lemmas).

    ** Bounds and fuel

    Structural recursion is used wherever the code's loop consumes a list of
    labels. The parser's loops ([Stream.parse_loop], [drain]) take the buffer's
    length as fuel: each turn that goes on consumes a byte at least, and
    [Stream] proves that the loop returns. [Quic.quic_read] returns when its fuel
    exceeds the bytes left ([quic_read_total]); [RegistryRace.run_thread] and
    [run_close] have a bound per program counter. The parser alone may scan at
    most [MAX_RESYNC_SCAN_DISTANCE] bytes, as the code does. Runs of the registry
    are bounded by its 2^64 - 1 generations, one per operation ([run_ok]): no
    execution comes near it, and without it the counter's wrap-around would
    reuse a generation.

    ** The environment

    Code outside the repository is a parameter: flate2 and zstd ([Codecs], with
    [CodecLaws]: what was compressed decompresses to itself, within a capacity),
    rustls, webpki and the PEM parsers ([TlsLibrary], [TlsLaws]), quinn's
    parameter checks ([Quinn], [QuinnLaws]), sockets and handshakes
    ([tcp_network], [quic_network], [tcp_socket]; labels of the event loops),
    tungstenite's client and the header parsers of [http] ([ws_network]), the
    bindings' tokio lock ([RwLock], with [RwLockLaws]: who comes first is served
    first), the platform's [powi] and derived [Debug] texts. Each class of laws has a
    concrete instance in a witness. The application's handler, its calls and its
    dropped futures are labels.

    ** Not modelled

    Logging; wall-clock measurements that are only reported; the overflow of
    [Instant + Duration], a panic for timeouts of hundreds of years (times are
    unbounded [Z]); the pongs tungstenite queues by itself; [DashMap] and tokio
    themselves (their maps and channels are the finite maps and queues above; the
    fairness of locks and semaphores is used of the bindings' lock only); field
    accessors; serde derives; the runtime bridge and the UniFFI scaffolding of the
    bindings; re-exports, examples, benches and tests.

    ** What could come next

    The conversation over a reconnect (a second generation on the client's end,
    where the identifier read twice by [request_with_options] shows), and the
    server's side of a conversation with its life (permits, drains) around it. *)

From stdpp Require Export base gmap strings list fin_maps fin_sets pretty.
From Stdlib Require Export ZArith Lia.

#[global] Open Scope string_scope.
#[global] Open Scope list_scope.
#[global] Open Scope Z_scope.

(** ** Fallible code

    A Rust function returning [Result<A, E>] that may also panic (an index or
    a slice out of range, an arithmetic overflow the language traps) returns
    [exec E A]: [Done] is [Ok], [Throw] is [Err], [Panic] is the abort. *)

Inductive exec (E A : Type) : Type :=
  | Done (a : A)
  | Throw (e : E)
  | Panic.
Arguments Done {E A} a.
Arguments Throw {E A} e.
Arguments Panic {E A}.

#[export] Instance exec_ret {E} : MRet (exec E) := fun A a => Done a.
#[export] Instance exec_bind {E} : MBind (exec E) := fun A B k m =>
  match m with
  | Done a => k a
  | Throw e => Throw e
  | Panic => Panic
  end.
#[export] Instance exec_fmap {E} : FMap (exec E) := fun A B f m =>
  match m with
  | Done a => Done (f a)
  | Throw e => Throw e
  | Panic => Panic
  end.

#[export] Instance exec_eq_dec {E A} `{EqDecision E, EqDecision A} :
  EqDecision (exec E A).
Proof. solve_decision. Defined.

(** [m.map_err(f)]. *)
Definition map_err {E E' A} (f : E -> E') (m : exec E A) : exec E' A :=
  match m with
  | Done a => Done a
  | Throw e => Throw (f e)
  | Panic => Panic
  end.

(** [result.is_ok()]. *)
Definition is_ok {E A} (m : exec E A) : bool :=
  match m with Done _ => true | _ => false end.

Lemma exec_bind_done {E A B} (a : A) (k : A -> exec E B) :
  (Done a ≫= k) = k a.
Proof. reflexivity. Qed.

Lemma exec_bind_done_inv {E A B} (m : exec E A) (k : A -> exec E B) b :
  (m ≫= k) = Done b -> exists a, m = Done a /\ k a = Done b.
Proof. destruct m; simpl; intros; eauto; discriminate. Qed.

Lemma exec_bind_panic_inv {E A B} (m : exec E A) (k : A -> exec E B) :
  (m ≫= k) = Panic -> m = Panic \/ exists a, m = Done a /\ k a = Panic.
Proof. destruct m; simpl; intros; eauto; discriminate. Qed.

(** ** Machine integers

    A [w]-bit unsigned integer is a [Z] in [0, 2^w); casts and the wrapping
    atomic operations reduce modulo [2^w]. *)

Definition wrap (w z : Z) : Z := z mod 2 ^ w.
Definition in_width (w z : Z) : Prop := 0 <= z < 2 ^ w.
Definition saturating_add (w a b : Z) : Z := Z.min (a + b) (2 ^ w - 1).
Definition div_ceil (a b : Z) : Z := (a + b - 1) / b.
Definition clamp (lo hi z : Z) : Z := Z.max lo (Z.min hi z).

Definition U8_MAX : Z := 255.
Definition U16_MAX : Z := 65535.
Definition U32_MAX : Z := 4294967295.
Definition U64_MAX : Z := 18446744073709551615.

#[export] Instance in_width_dec w z : Decision (in_width w z).
Proof. unfold in_width. apply _. Defined.

Lemma wrap_small w z : in_width w z -> wrap w z = z.
Proof. apply Z.mod_small. Qed.

Lemma wrap_in_width w z : 0 <= w -> in_width w (wrap w z).
Proof. intros. unfold in_width, wrap. apply Z.mod_pos_bound. lia. Qed.

Lemma clamp_bounds lo hi z : lo <= hi -> lo <= clamp lo hi z <= hi.
Proof. unfold clamp. lia. Qed.

Lemma clamp_id lo hi z : lo <= z <= hi -> clamp lo hi z = z.
Proof. unfold clamp. lia. Qed.

Lemma clamp_idem lo hi z : lo <= hi -> clamp lo hi (clamp lo hi z) = clamp lo hi z.
Proof. unfold clamp. lia. Qed.

(** The pointer width of the compilation target: [usize] is 32 or 64 bits. *)
Class Target := {
  usize_bits : Z;
  usize_bits_spec : usize_bits = 32 \/ usize_bits = 64
}.
Definition Target64 : Target := {| usize_bits := 64; usize_bits_spec := or_intror eq_refl |}.
Definition Target32 : Target := {| usize_bits := 32; usize_bits_spec := or_introl eq_refl |}.

Definition as_usize `{Target} (z : Z) : Z := wrap usize_bits z.

Lemma as_usize_small `{Target} z : in_width usize_bits z -> as_usize z = z.
Proof. apply wrap_small. Qed.

Lemma u32_fits_usize `{Target} z : in_width 32 z -> in_width usize_bits z.
Proof. unfold in_width. destruct usize_bits_spec as [-> | ->]; lia. Qed.

(** ** Byte strings *)

Abbreviation bytes := (list Z).
Abbreviation is_byte := (in_width 8).
Abbreviation bytes_ok := (Forall (in_width 8)).

Definition len {A} (l : list A) : Z := Z.of_nat (length l).

Lemma len_nonneg {A} (l : list A) : 0 <= len l.
Proof. unfold len. lia. Qed.
Lemma len_app {A} (l k : list A) : len (l ++ k) = len l + len k.
Proof. unfold len. rewrite length_app. lia. Qed.
Lemma len_nil {A} : len (@nil A) = 0.
Proof. reflexivity. Qed.
Lemma len_cons {A} (x : A) l : len (x :: l) = 1 + len l.
Proof. unfold len. simpl. lia. Qed.

(** [bs[i]]: panics when the index is out of range. *)
Definition idx {E A} (bs : list A) (i : nat) : exec E A :=
  match bs !! i with Some b => Done b | None => Panic end.

(** [&bs[lo..hi]]: panics when the range is reversed or past the end. *)
Definition slice {E A} (bs : list A) (lo hi : Z) : exec E (list A) :=
  if (0 <=? lo) && (lo <=? hi) && (hi <=? len bs)
  then Done (take (Z.to_nat (hi - lo)) (drop (Z.to_nat lo) bs))
  else Panic.

(** [buf.split_to(at)]: the first [at] bytes are returned, the rest stays in
    the buffer; panics when [at] is past the end. *)
Definition split_to {E A} (bs : list A) (at_ : Z) : exec E (list A * list A) :=
  if (0 <=? at_) && (at_ <=? len bs)
  then Done (take (Z.to_nat at_) bs, drop (Z.to_nat at_) bs)
  else Panic.

Lemma slice_ok {E A} (bs : list A) lo hi :
  0 <= lo <= hi -> hi <= len bs ->
  slice (E := E) bs lo hi = Done (take (Z.to_nat (hi - lo)) (drop (Z.to_nat lo) bs)).
Proof.
  intros. unfold slice. rewrite !(proj2 (Z.leb_le _ _)) by lia. reflexivity.
Qed.

Lemma split_to_ok {E A} (bs : list A) n :
  0 <= n <= len bs ->
  split_to (E := E) bs n = Done (take (Z.to_nat n) bs, drop (Z.to_nat n) bs).
Proof.
  intros. unfold split_to. rewrite !(proj2 (Z.leb_le _ _)) by lia. reflexivity.
Qed.

Lemma take_len_app {A} (l k : list A) : take (Z.to_nat (len l)) (l ++ k) = l.
Proof. unfold len. rewrite Nat2Z.id. apply take_app_length. Qed.
Lemma drop_len_app {A} (l k : list A) : drop (Z.to_nat (len l)) (l ++ k) = k.
Proof. unfold len. rewrite Nat2Z.id. apply drop_app_length. Qed.

Lemma slice_app {E A} (a b c : list A) lo hi :
  lo = len a -> hi = len a + len b ->
  slice (E := E) (a ++ b ++ c) lo hi = Done b.
Proof.
  intros -> ->. pose proof (len_nonneg a). pose proof (len_nonneg b).
  pose proof (len_nonneg c).
  rewrite slice_ok by (rewrite ?len_app; lia).
  rewrite drop_len_app.
  replace (len a + len b - len a) with (len b) by lia.
  by rewrite take_len_app.
Qed.

(** Big-endian integers: [z.to_be_bytes()] and [from_be_bytes]. *)
Fixpoint be_bytes (n : nat) (z : Z) : bytes :=
  match n with
  | O => []
  | S n => (z / 2 ^ (8 * Z.of_nat n)) mod 256 :: be_bytes n z
  end.

Definition be_value (bs : bytes) : Z := fold_left (fun acc b => acc * 256 + b) bs 0.

Lemma be_bytes_length n z : length (be_bytes n z) = n.
Proof. induction n; simpl; congruence. Qed.

Lemma be_bytes_ok n z : bytes_ok (be_bytes n z).
Proof.
  induction n; simpl; constructor; [|done].
  unfold in_width. change (2 ^ 8) with 256. apply Z.mod_pos_bound. lia.
Qed.

Lemma be_value_acc bs acc :
  fold_left (fun acc b => acc * 256 + b) bs acc = acc * 2 ^ (8 * len bs) + be_value bs.
Proof.
  unfold be_value. revert acc. induction bs as [|b bs IH]; intros acc; cbn [fold_left].
  - change (len (@nil Z)) with 0. lia.
  - rewrite (IH (acc * 256 + b)), (IH (0 * 256 + b)), len_cons.
    pose proof (len_nonneg bs).
    replace (8 * (1 + len bs)) with (8 + 8 * len bs) by lia.
    rewrite Z.pow_add_r by lia. change (2 ^ 8) with 256. lia.
Qed.

Lemma be_value_cons b bs : be_value (b :: bs) = b * 2 ^ (8 * len bs) + be_value bs.
Proof.
  unfold be_value at 1. cbn [fold_left]. rewrite be_value_acc. lia.
Qed.

Lemma be_value_bound bs : bytes_ok bs -> in_width (8 * len bs) (be_value bs).
Proof.
  induction bs as [|b bs IH]; intros Hok.
  - change (len (@nil Z)) with 0. split; reflexivity.
  - inversion Hok as [|? ? Hb Hbs]; subst. specialize (IH Hbs).
    rewrite be_value_cons, len_cons. unfold in_width in *.
    pose proof (len_nonneg bs). change (2 ^ 8) with 256 in Hb.
    replace (8 * (1 + len bs)) with (8 + 8 * len bs) by lia.
    rewrite Z.pow_add_r by lia. change (2 ^ 8) with 256. nia.
Qed.

Lemma be_value_be_bytes n z : be_value (be_bytes n z) = z mod 2 ^ (8 * Z.of_nat n).
Proof.
  induction n as [|n IH].
  - simpl. rewrite Z.mod_1_r. reflexivity.
  - simpl be_bytes. rewrite be_value_cons. unfold len. rewrite be_bytes_length, IH.
    replace (8 * Z.of_nat (S n)) with (8 * Z.of_nat n + 8) by lia.
    rewrite Z.pow_add_r by lia. change (2 ^ 8) with 256.
    rewrite (Z.rem_mul_r z) by lia. lia.
Qed.

Lemma be_bytes_mod n z m :
  (8 * Z.of_nat n <= m) -> be_bytes n (z mod 2 ^ m) = be_bytes n z.
Proof.
  revert z. induction n as [|n IH]; intros z Hm; [done|]. simpl. f_equal; [|apply IH; lia].
  set (k := 8 * Z.of_nat n). assert (0 <= k) by lia.
  replace m with (k + (m - k)) by lia. rewrite Z.pow_add_r by lia.
  rewrite Z.rem_mul_r by lia.
  rewrite (Z.mul_comm (2 ^ k)), Z.div_add by lia.
  rewrite Z.div_small by (apply Z.mod_pos_bound; lia). rewrite Z.add_0_l.
  replace (m - k) with (8 + (m - k - 8)) by lia.
  rewrite (Z.pow_add_r 2 8) by lia. change (2 ^ 8) with 256.
  rewrite Z.rem_mul_r by lia. rewrite Z.mul_comm, Z.mod_add by lia.
  by rewrite Z.mod_mod by lia.
Qed.

Lemma be_bytes_be_value bs : bytes_ok bs -> be_bytes (length bs) (be_value bs) = bs.
Proof.
  induction bs as [|b bs IH]; intros Hok; [done|].
  inversion Hok as [|? ? Hb Hbs]; subst. simpl length. simpl be_bytes.
  pose proof (be_value_bound bs Hbs) as Hv. unfold in_width in Hb, Hv.
  change (2 ^ 8) with 256 in Hb. rewrite be_value_cons.
  f_equal.
  - fold (len bs). rewrite Z.div_add_l by lia. rewrite Z.div_small by lia.
    rewrite Z.add_0_r. by apply Z.mod_small.
  - rewrite <- (be_bytes_mod (length bs) _ (8 * len bs)) by (unfold len; lia).
    rewrite Z.add_comm, Z.mod_add by lia. rewrite Z.mod_small by lia. by apply IH.
Qed.

Lemma be_bytes_be_value_n n bs :
  length bs = n -> bytes_ok bs -> be_bytes n (be_value bs) = bs.
Proof. intros <-. apply be_bytes_be_value. Qed.

(** ** Automation *)

Create HintDb msgtrans.
#[export] Hint Resolve len_nonneg be_bytes_ok wrap_in_width : msgtrans.
Create Rewrite HintDb msgtrans_len.
#[export] Hint Rewrite @len_app @len_nil @len_cons be_bytes_length : msgtrans_len.

(** Decide every boolean comparison of the goal that arithmetic settles. *)
Ltac zbool :=
  repeat match goal with
  | |- context [Z.ltb ?a ?b] =>
      first [ rewrite (proj2 (Z.ltb_lt a b)) by lia
            | rewrite (proj2 (Z.ltb_ge a b)) by lia ]
  | |- context [Z.leb ?a ?b] =>
      first [ rewrite (proj2 (Z.leb_le a b)) by lia
            | rewrite (proj2 (Z.leb_gt a b)) by lia ]
  | |- context [Z.eqb ?a ?b] =>
      first [ rewrite (proj2 (Z.eqb_eq a b)) by lia
            | rewrite (proj2 (Z.eqb_neq a b)) by lia ]
  end.

(** Case analysis on a boolean comparison with its arithmetic meaning. *)
Ltac zcase :=
  match goal with
  | |- context [Z.ltb ?a ?b] => destruct (Z.ltb_spec a b)
  | |- context [Z.leb ?a ?b] => destruct (Z.leb_spec a b)
  | |- context [Z.eqb ?a ?b] => destruct (Z.eqb_spec a b)
  | H : context [Z.ltb ?a ?b] |- _ => destruct (Z.ltb_spec a b)
  | H : context [Z.leb ?a ?b] |- _ => destruct (Z.leb_spec a b)
  | H : context [Z.eqb ?a ?b] |- _ => destruct (Z.eqb_spec a b)
  end.

(** Take apart a monadic computation known to have succeeded. *)
Ltac exec_inv H :=
  let a := fresh "r" in let H1 := fresh "Hm" in
  apply exec_bind_done_inv in H as (a & H1 & H).
