(* ===== verification/Packet.v ===== *)
(** * The packet codec: [crates/msgtrans/src/packet.rs]

    The 16-byte fixed header, the packet record and its setters, the fallible
    encoder and the decoders, with the payload codecs (flate2, zstd) as the
    parameter [Codecs]. *)

From S2P Require Import Prelude.

(** ** Enumerations and errors *)

Inductive PacketType := OneWay | Request | Response.
Inductive CompressionType := CNone | Zstd | Zlib.
Inductive FramePolicy := Lenient | Strict.

#[export] Instance PacketType_eq_dec : EqDecision PacketType.
Proof. solve_decision. Defined.
#[export] Instance CompressionType_eq_dec : EqDecision CompressionType.
Proof. solve_decision. Defined.
#[export] Instance FramePolicy_eq_dec : EqDecision FramePolicy.
Proof. solve_decision. Defined.

Inductive PacketError :=
  | InvalidHeader (msg : string)
  | InvalidPacket (msg : string)
  | UnsupportedVersion (v : Z)
  | FrameTooLarge (declared limit : Z)
  | CompressionError (msg : string)
  | UnsupportedCompression (msg : string)
  | SerializationError (msg : string).

#[export] Instance PacketError_eq_dec : EqDecision PacketError.
Proof. solve_decision. Defined.

Definition PacketType_try_from (value : Z) : exec PacketError PacketType :=
  match value with
  | 0 => Done OneWay
  | 1 => Done Request
  | 2 => Done Response
  | other => Throw (InvalidHeader ("invalid packet_type: " +:+ pretty other))
  end.

Definition u8_from_PacketType (t : PacketType) : Z :=
  match t with OneWay => 0 | Request => 1 | Response => 2 end.

Definition CompressionType_try_from (value : Z) : exec PacketError CompressionType :=
  match value with
  | 0 => Done CNone
  | 1 => Done Zstd
  | 2 => Done Zlib
  | other => Throw (InvalidHeader ("invalid compression: " +:+ pretty other))
  end.

Definition u8_from_CompressionType (c : CompressionType) : Z :=
  match c with CNone => 0 | Zstd => 1 | Zlib => 2 end.

Definition FramePolicy_as_u8 (p : FramePolicy) : Z :=
  match p with Lenient => 0 | Strict => 1 end.

Definition FramePolicy_from_u8 (value : Z) : FramePolicy :=
  match value with 1 => Strict | _ => Lenient end.

Definition FramePolicy_default : FramePolicy := Strict.

(** ** Decode limits *)

Definition MAX_DECOMPRESSED_PAYLOAD_SIZE : Z := 16 * 1024 * 1024.
Definition DEFAULT_MAX_FRAME_SIZE : Z := 16 * 1024 * 1024.
Definition FIXED_HEADER_SIZE : Z := 16.

Record DecodeLimits := {
  max_frame_size : Z;
  max_payload_size : Z;
  max_ext_header_size : Z
}.

#[export] Instance DecodeLimits_eq_dec : EqDecision DecodeLimits.
Proof. solve_decision. Defined.

Definition DecodeLimits_default : DecodeLimits := {|
  max_frame_size := DEFAULT_MAX_FRAME_SIZE;
  max_payload_size := DEFAULT_MAX_FRAME_SIZE;
  max_ext_header_size := U16_MAX
|}.

(** The limits are [usize] values. *)
Definition limits_ok `{Target} (l : DecodeLimits) : Prop :=
  in_width usize_bits (max_frame_size l) /\
  in_width usize_bits (max_payload_size l) /\
  in_width usize_bits (max_ext_header_size l).

(** ** Reserved flags: a [u16] bit set *)

Abbreviation ReservedFlags := Z (only parsing).

Definition not16 (m : Z) : Z := Z.lxor m U16_MAX.

Definition ReservedFlags_new : ReservedFlags := 0.
Definition set_flag (mask : Z) (on : bool) (f : ReservedFlags) : ReservedFlags :=
  if on then Z.lor f mask else Z.land f (not16 mask).
Definition test_flag (mask : Z) (f : ReservedFlags) : bool :=
  negb (Z.land f mask =? 0).

Definition flags_fragmented (f : ReservedFlags) (b : bool) : ReservedFlags := set_flag 1 b f.
Definition flags_is_fragmented (f : ReservedFlags) : bool := test_flag 1 f.
Definition flags_priority (f : ReservedFlags) (b : bool) : ReservedFlags := set_flag 2 b f.
Definition flags_is_high_priority (f : ReservedFlags) : bool := test_flag 2 f.
Definition flags_route_tag (f : ReservedFlags) (b : bool) : ReservedFlags := set_flag 4 b f.
Definition flags_has_route_tag (f : ReservedFlags) : bool := test_flag 4 f.
Definition flags_raw (f : ReservedFlags) : Z := f.
Definition flags_from_raw (value : Z) : ReservedFlags := value.

(** ** The fixed header *)

Record FixedHeader := mkFixedHeader {
  version : Z;
  compression : CompressionType;
  packet_type : PacketType;
  biz_type : Z;
  message_id : Z;
  reserved : ReservedFlags
}.

#[export] Instance FixedHeader_eq_dec : EqDecision FixedHeader.
Proof. solve_decision. Defined.

Definition FixedHeader_new (t : PacketType) (id : Z) : FixedHeader := {|
  version := 1;
  compression := CNone;
  packet_type := t;
  biz_type := 0;
  message_id := id;
  reserved := ReservedFlags_new
|}.

Definition FixedHeader_to_bytes (h : FixedHeader) (ext_header_len payload_len : Z) : bytes :=
  [version h; u8_from_CompressionType (compression h);
   u8_from_PacketType (packet_type h); biz_type h]
  ++ be_bytes 4 (message_id h)
  ++ be_bytes 2 ext_header_len
  ++ be_bytes 4 payload_len
  ++ be_bytes 2 (flags_raw (reserved h)).

Definition FixedHeader_from_bytes (bs : bytes)
    : exec PacketError (FixedHeader * Z * Z) :=
  if len bs <? 16 then Throw (InvalidHeader "Header too short") else
  v ← idx bs 0;
  if negb (v =? 1) then Throw (UnsupportedVersion v) else
  b1 ← idx bs 1;
  c ← CompressionType_try_from b1;
  b2 ← idx bs 2;
  t ← PacketType_try_from b2;
  biz ← idx bs 3;
  m0 ← idx bs 4; m1 ← idx bs 5; m2 ← idx bs 6; m3 ← idx bs 7;
  e0 ← idx bs 8; e1 ← idx bs 9;
  p0 ← idx bs 10; p1 ← idx bs 11; p2 ← idx bs 12; p3 ← idx bs 13;
  r0 ← idx bs 14; r1 ← idx bs 15;
  Done ({| version := v; compression := c; packet_type := t; biz_type := biz;
           message_id := be_value [m0; m1; m2; m3];
           reserved := flags_from_raw (be_value [r0; r1]) |},
        be_value [e0; e1],
        be_value [p0; p1; p2; p3]).

(** ** Packets *)

Record Packet := mkPacket {
  header : FixedHeader;
  ext_header : bytes;
  payload : bytes
}.

#[export] Instance Packet_eq_dec : EqDecision Packet.
Proof. solve_decision. Defined.

Record FrameLayout := {
  fl_header : FixedHeader;
  fl_ext_header_len : Z;
  fl_payload_len : Z;
  fl_ext_end : Z;
  fl_total : Z
}.

Definition Packet_new (t : PacketType) (id : Z) : Packet := {|
  header := FixedHeader_new t id; ext_header := []; payload := []
|}.

Definition set_payload (p : Packet) (d : bytes) : Packet :=
  mkPacket (header p) (ext_header p) d.
Definition set_ext_header (p : Packet) (e : bytes) : Packet :=
  mkPacket (header p) e (payload p).
Definition upd_header (f : FixedHeader -> FixedHeader) (p : Packet) : Packet :=
  mkPacket (f (header p)) (ext_header p) (payload p).

Definition set_message_id (p : Packet) (id : Z) : Packet :=
  upd_header (fun h => mkFixedHeader (version h) (compression h) (packet_type h)
                         (biz_type h) id (reserved h)) p.
Definition set_packet_type (p : Packet) (t : PacketType) : Packet :=
  upd_header (fun h => mkFixedHeader (version h) (compression h) t
                         (biz_type h) (message_id h) (reserved h)) p.
Definition set_compression (p : Packet) (c : CompressionType) : Packet :=
  upd_header (fun h => mkFixedHeader (version h) c (packet_type h)
                         (biz_type h) (message_id h) (reserved h)) p.
Definition set_biz_type (p : Packet) (b : Z) : Packet :=
  upd_header (fun h => mkFixedHeader (version h) (compression h) (packet_type h)
                         b (message_id h) (reserved h)) p.
Definition set_reserved (p : Packet) (r : ReservedFlags) : Packet :=
  upd_header (fun h => mkFixedHeader (version h) (compression h) (packet_type h)
                         (biz_type h) (message_id h) r) p.
Definition set_fragmented (p : Packet) (b : bool) : Packet :=
  set_reserved p (flags_fragmented (reserved (header p)) b).
Definition set_priority (p : Packet) (b : bool) : Packet :=
  set_reserved p (flags_priority (reserved (header p)) b).
Definition set_route_tag (p : Packet) (b : bool) : Packet :=
  set_reserved p (flags_route_tag (reserved (header p)) b).

Definition one_way (id : Z) (d : bytes) : Packet := set_payload (Packet_new OneWay id) d.
Definition request (id : Z) (d : bytes) : Packet := set_payload (Packet_new Request id) d.
Definition response (id : Z) (d : bytes) : Packet := set_payload (Packet_new Response id) d.
Definition response_with_biz (id b : Z) (d : bytes) : Packet := set_biz_type (response id d) b.

Definition total_len (p : Packet) : Z := 16 + len (ext_header p) + len (payload p).

(** ** Encoding *)

Definition try_encode `{Target} (p : Packet) : exec PacketError bytes :=
  let ext_len := len (ext_header p) in
  if as_usize U16_MAX <? ext_len
  then Throw (FrameTooLarge (wrap 64 ext_len) (as_usize U16_MAX)) else
  let payload_len := len (payload p) in
  if as_usize U32_MAX <? payload_len
  then Throw (FrameTooLarge (wrap 64 payload_len) (as_usize U32_MAX)) else
  let buf := FixedHeader_to_bytes (header p) (wrap 16 ext_len) (wrap 32 payload_len) in
  let buf := match ext_header p with [] => buf | e => buf ++ e end in
  Done (buf ++ payload p).

(** ** Decoding *)

Definition frame_layout `{Target} (bs : bytes) (limits : DecodeLimits)
    : exec PacketError (option FrameLayout) :=
  if len bs <? 16 then Done None else
  hd ← slice bs 0 16;
  '(h, ext_header_len, payload_len) ← FixedHeader_from_bytes hd;
  let declared := wrap 64 (wrap 64 (16 + ext_header_len) + payload_len) in
  if max_payload_size limits <? payload_len
  then Throw (FrameTooLarge payload_len (max_payload_size limits)) else
  if max_ext_header_size limits <? as_usize ext_header_len
  then Throw (FrameTooLarge ext_header_len (max_ext_header_size limits)) else
  if max_frame_size limits <? declared
  then Throw (FrameTooLarge declared (max_frame_size limits)) else
  let total := as_usize declared in
  let ext_end := as_usize (16 + as_usize ext_header_len) in
  if len bs <? total then Done None else
  Done (Some {| fl_header := h; fl_ext_header_len := ext_header_len;
                fl_payload_len := payload_len; fl_ext_end := ext_end;
                fl_total := total |}).

(** The borrowed decoder copies [&bytes[a..b]]; the owned one takes
    [buf.slice(a..b)]. Both panic on a bad range. *)
Definition decode_one_with `{Target} (bs : bytes) (limits : DecodeLimits)
    : exec PacketError (option (Packet * Z)) :=
  layout ← frame_layout bs limits;
  match layout with
  | None => Done None
  | Some l =>
      ext ← (if 0 <? fl_ext_header_len l then slice bs 16 (fl_ext_end l) else Done []);
      body ← (if 0 <? fl_payload_len l then slice bs (fl_ext_end l) (fl_total l) else Done []);
      Done (Some (mkPacket (fl_header l) ext body, fl_total l))
  end.

Definition decode_one `{Target} (bs : bytes) : exec PacketError (option (Packet * Z)) :=
  decode_one_with bs DecodeLimits_default.

Definition exact_of (bs : bytes) (r : option (Packet * Z)) : exec PacketError Packet :=
  match r with
  | Some (p, consumed) =>
      if negb (consumed =? len bs)
      then Throw (InvalidPacket ("trailing bytes after packet: consumed "
                    +:+ pretty consumed +:+ " of " +:+ pretty (len bs)))
      else Done p
  | None => Throw (InvalidPacket ("packet incomplete: " +:+ pretty (len bs) +:+ " bytes"))
  end.

Definition decode_exact_with `{Target} (bs : bytes) (limits : DecodeLimits)
    : exec PacketError Packet :=
  decode_one_with bs limits ≫= exact_of bs.

Definition decode_exact `{Target} (bs : bytes) : exec PacketError Packet :=
  decode_exact_with bs DecodeLimits_default.

Definition Packet_from_bytes `{Target} (bs : bytes) : exec PacketError Packet :=
  decode_exact bs.

Definition frame_len `{Target} (bs : bytes) (limits : DecodeLimits)
    : exec PacketError (option Z) :=
  layout ← frame_layout bs limits;
  Done (fmap (M := option) fl_total layout).

(** The owned-buffer twins: [Bytes::slice] in place of the copy. *)
Definition decode_one_from `{Target} (buf : bytes) (limits : DecodeLimits)
    : exec PacketError (option (Packet * Z)) :=
  layout ← frame_layout buf limits;
  match layout with
  | None => Done None
  | Some l =>
      ext ← (if 0 <? fl_ext_header_len l then slice buf 16 (fl_ext_end l) else Done []);
      body ← (if 0 <? fl_payload_len l then slice buf (fl_ext_end l) (fl_total l) else Done []);
      Done (Some (mkPacket (fl_header l) ext body, fl_total l))
  end.

Definition decode_exact_from `{Target} (frame : bytes) (limits : DecodeLimits)
    : exec PacketError Packet :=
  decode_one_from frame limits ≫= exact_of frame.

(** ** Payload codecs

    flate2 and zstd are parameters. [zlib_read] is the [Read] side of
    [ZlibDecoder]: the bytes it yields, then the error it ends with, if any. *)

Class Codecs := {
  feature_flate2 : bool;
  feature_zstd : bool;
  zlib_write_all : bytes -> option string;
  zlib_finish : bytes -> string + bytes;
  zlib_read : bytes -> bytes * option string;
  zstd_compress : bytes -> Z -> string + bytes;
  zstd_decompress : bytes -> Z -> string + bytes
}.

(** What the code relies on: each codec inverts itself, and zstd's bulk
    decompression never returns more than the capacity it was given. *)
Class CodecLaws (C : Codecs) := {
  zlib_inverse : forall d c, zlib_finish d = inr c -> zlib_read c = (d, None);
  zstd_inverse : forall d level c cap,
    zstd_compress d level = inr c -> len d <= cap -> zstd_decompress c cap = inr d;
  zstd_capacity : forall c cap d, zstd_decompress c cap = inr d -> len d <= cap
}.

(** [reader.take(limit).read_to_end(&mut result)]: the underlying reader is
    not polled again once [limit] bytes came out of it. *)
Definition take_read_to_end (limit : Z) (r : bytes * option string) : string + bytes :=
  let '(out, err) := r in
  if limit <=? len out then inr (take (Z.to_nat limit) out)
  else match err with
       | Some e => inl e
       | None => inr out
       end.

Definition compression_result (r : string + bytes) : exec PacketError bytes :=
  match r with
  | inl e => Throw (CompressionError e)
  | inr d => Done d
  end.

Definition compress_data `{Codecs} (data : bytes) (c : CompressionType)
    : exec PacketError bytes :=
  match c with
  | CNone => Done data
  | Zlib =>
      if feature_flate2 then
        match zlib_write_all data with
        | Some e => Throw (CompressionError e)
        | None => compression_result (zlib_finish data)
        end
      else Throw (UnsupportedCompression "flate2 feature not enabled")
  | Zstd =>
      if feature_zstd then compression_result (zstd_compress data 3)
      else Throw (UnsupportedCompression "zstd feature not enabled")
  end.

Definition decompress_data_with_limit `{Codecs}
    (data : bytes) (c : CompressionType) (max_size : Z) : exec PacketError bytes :=
  match c with
  | CNone => Done data
  | Zlib =>
      if feature_flate2 then
        let limit := saturating_add 64 max_size 1 in
        result ← compression_result (take_read_to_end limit (zlib_read data));
        if max_size <? len result
        then Throw (CompressionError ("decompressed payload exceeds "
                      +:+ pretty max_size +:+ " bytes"))
        else Done result
      else Throw (UnsupportedCompression "flate2 feature not enabled")
  | Zstd =>
      if feature_zstd then compression_result (zstd_decompress data max_size)
      else Throw (UnsupportedCompression "zstd feature not enabled")
  end.

Definition compress_payload `{Codecs} (p : Packet) : exec PacketError Packet :=
  let c := compression (header p) in
  if decide (c = CNone) then Done p else
  d ← compress_data (payload p) c;
  Done (set_payload p d).

Definition decompress_payload_with_limit `{Codecs} (p : Packet) (max_size : Z)
    : exec PacketError Packet :=
  let c := compression (header p) in
  if decide (c = CNone) then Done p else
  d ← decompress_data_with_limit (payload p) c max_size;
  Done (set_payload p d).

Definition decompress_payload `{Codecs} (p : Packet) : exec PacketError Packet :=
  decompress_payload_with_limit p MAX_DECOMPRESSED_PAYLOAD_SIZE.

(** ** Well-formedness *)

Definition header_ok (h : FixedHeader) : Prop :=
  version h = 1 /\ is_byte (biz_type h) /\ in_width 32 (message_id h) /\
  in_width 16 (reserved h).

Definition packet_ok (p : Packet) : Prop :=
  header_ok (header p) /\ len (ext_header p) <= U16_MAX /\ len (payload p) <= U32_MAX.

(** The packet respects every cap of [limits]. *)
Definition fits (limits : DecodeLimits) (p : Packet) : Prop :=
  len (payload p) <= max_payload_size limits /\
  len (ext_header p) <= max_ext_header_size limits /\
  total_len p <= max_frame_size limits.

(** ** Lemmas on the header *)

Lemma CompressionType_roundtrip c :
  CompressionType_try_from (u8_from_CompressionType c) = Done c.
Proof. by destruct c. Qed.

Lemma PacketType_roundtrip t : PacketType_try_from (u8_from_PacketType t) = Done t.
Proof. by destruct t. Qed.

Lemma CompressionType_try_from_inv v c :
  CompressionType_try_from v = Done c -> v = u8_from_CompressionType c.
Proof.
  unfold CompressionType_try_from.
  destruct v as [|[[]|[]|]|]; simpl; intros; by simplify_eq.
Qed.

Lemma PacketType_try_from_inv v t :
  PacketType_try_from v = Done t -> v = u8_from_PacketType t.
Proof.
  unfold PacketType_try_from.
  destruct v as [|[[]|[]|]|]; simpl; intros; by simplify_eq.
Qed.

Lemma CompressionType_try_from_no_panic v : CompressionType_try_from v <> Panic.
Proof. unfold CompressionType_try_from. by destruct v as [|[[]|[]|]|]. Qed.

Lemma PacketType_try_from_no_panic v : PacketType_try_from v <> Panic.
Proof. unfold PacketType_try_from. by destruct v as [|[[]|[]|]|]. Qed.

Lemma FixedHeader_to_bytes_length h e p : length (FixedHeader_to_bytes h e p) = 16%nat.
Proof. reflexivity. Qed.

Lemma FixedHeader_to_bytes_len h e p : len (FixedHeader_to_bytes h e p) = 16.
Proof. reflexivity. Qed.

(** A list of at least sixteen elements, element by element. *)
Lemma list_16 {A} (l : list A) : (16 <= length l)%nat ->
  exists a0 a1 a2 a3 a4 a5 a6 a7 a8 a9 a10 a11 a12 a13 a14 a15 r,
    l = a0 :: a1 :: a2 :: a3 :: a4 :: a5 :: a6 :: a7 :: a8 :: a9 :: a10 :: a11 ::
        a12 :: a13 :: a14 :: a15 :: r.
Proof.
  intros H. do 16 (destruct l as [|? l]; [simpl in H; lia|]).
  by repeat eexists.
Qed.

Lemma be_value_4 z : in_width 32 z ->
  be_value [(z / 2 ^ 24) mod 256; (z / 2 ^ 16) mod 256; (z / 2 ^ 8) mod 256; (z / 2 ^ 0) mod 256] = z.
Proof.
  intros H. change (be_value (be_bytes 4 z) = z). rewrite be_value_be_bytes. by apply Z.mod_small.
Qed.

Lemma be_value_2 z : in_width 16 z ->
  be_value [(z / 2 ^ 8) mod 256; (z / 2 ^ 0) mod 256] = z.
Proof.
  intros H. change (be_value (be_bytes 2 z) = z). rewrite be_value_be_bytes. by apply Z.mod_small.
Qed.

Lemma FixedHeader_roundtrip h e p :
  header_ok h -> in_width 16 e -> in_width 32 p ->
  FixedHeader_from_bytes (FixedHeader_to_bytes h e p) = Done (h, e, p).
Proof.
  intros (Hv & Hb & Hm & Hr) He Hp. destruct h as [v c t b m r]; simpl in *. subst v.
  unfold FixedHeader_from_bytes. rewrite FixedHeader_to_bytes_len.
  unfold FixedHeader_to_bytes; simpl version; simpl message_id; simpl reserved.
  cbv [idx lookup list_lookup app be_bytes flags_raw flags_from_raw].
  cbn [mbind exec_bind]. zbool. cbn iota. zbool. simpl negb. cbn iota.
  rewrite CompressionType_roundtrip, exec_bind_done, PacketType_roundtrip, exec_bind_done.
  change (8 * Z.of_nat 3) with 24; change (8 * Z.of_nat 2) with 16;
    change (8 * Z.of_nat 1) with 8; change (8 * Z.of_nat 0) with 0.
  by rewrite !be_value_4, !be_value_2.
Qed.

Lemma FixedHeader_from_bytes_inv bs h e p :
  length bs = 16%nat -> bytes_ok bs ->
  FixedHeader_from_bytes bs = Done (h, e, p) ->
  header_ok h /\ in_width 16 e /\ in_width 32 p /\ FixedHeader_to_bytes h e p = bs.
Proof.
  intros Hl Hok. destruct (list_16 bs) as
    (a0&a1&a2&a3&a4&a5&a6&a7&a8&a9&a10&a11&a12&a13&a14&a15&r&->); [lia|].
  destruct r; [|simpl in Hl; lia]. clear Hl.
  repeat match goal with H : Forall _ (_ :: _) |- _ => inversion H; clear H; subst end.
  unfold FixedHeader_from_bytes. cbn [idx lookup list_lookup mbind exec_bind].
  cbv [idx lookup list_lookup mbind exec_bind len].
  simpl Z.of_nat. zbool. cbn iota. destruct (Z.eqb_spec a0 1) as [->|]; [|done].
  simpl negb. cbn iota.
  destruct (CompressionType_try_from a1) as [c| |] eqn:Ec; [|done..].
  destruct (PacketType_try_from a2) as [t| |] eqn:Et; [|done..].
  intros [= <- <- <-].
  apply CompressionType_try_from_inv in Ec as ->.
  apply PacketType_try_from_inv in Et as ->.
  assert (Hm : bytes_ok [a4; a5; a6; a7]) by eauto.
  assert (He : bytes_ok [a8; a9]) by eauto.
  assert (Hp : bytes_ok [a10; a11; a12; a13]) by eauto.
  assert (Hr : bytes_ok [a14; a15]) by eauto.
  pose proof (be_value_bound _ Hm). pose proof (be_value_bound _ He).
  pose proof (be_value_bound _ Hp). pose proof (be_value_bound _ Hr).
  unfold header_ok. split_and!; try done.
  unfold FixedHeader_to_bytes, flags_raw, flags_from_raw. cbn [version compression packet_type biz_type message_id reserved].
  by rewrite !be_bytes_be_value_n.
Qed.

Lemma FixedHeader_from_bytes_no_panic bs :
  (16 <= length bs)%nat -> FixedHeader_from_bytes bs <> Panic.
Proof.
  intros Hl. destruct (list_16 bs Hl) as
    (a0&a1&a2&a3&a4&a5&a6&a7&a8&a9&a10&a11&a12&a13&a14&a15&r&->).
  unfold FixedHeader_from_bytes. cbv [idx lookup list_lookup mbind exec_bind].
  zcase; [done|]. destruct (a0 =? 1); simpl; [|done].
  destruct (CompressionType_try_from a1) eqn:E; [|done|by apply CompressionType_try_from_no_panic in E].
  destruct (PacketType_try_from a2) eqn:E2; [|done|by apply PacketType_try_from_no_panic in E2].
  done.
Qed.

(** ** The layout of a frame *)

Section Layout.
Context `{Target}.

Lemma width_sum_usize limits e pl :
  limits_ok limits -> in_width 16 e -> in_width 32 pl ->
  16 + e + pl <= max_frame_size limits ->
  wrap 64 (wrap 64 (16 + e) + pl) = 16 + e + pl /\
  as_usize (16 + e + pl) = 16 + e + pl /\ as_usize e = e /\
  as_usize (16 + as_usize e) = 16 + e.
Proof.
  unfold in_width. intros (Hf & _ & _) He Hp Hle. unfold in_width in Hf.
  assert (as_usize e = e) as Hu.
  { apply as_usize_small, u32_fits_usize. unfold in_width. lia. }
  rewrite Hu. repeat split.
  - rewrite (wrap_small 64 (16 + e)) by (unfold in_width; lia).
    apply wrap_small. unfold in_width; lia.
  - apply as_usize_small. unfold in_width. lia.
  - apply as_usize_small, u32_fits_usize. unfold in_width. lia.
Qed.

(** What [frame_layout] answers on a buffer that starts with a valid header:
    three caps checked from the header alone, then completeness. *)
Lemma frame_layout_spec h e pl rest limits :
  limits_ok limits -> header_ok h -> in_width 16 e -> in_width 32 pl ->
  frame_layout (FixedHeader_to_bytes h e pl ++ rest) limits =
    if max_payload_size limits <? pl
    then Throw (FrameTooLarge pl (max_payload_size limits)) else
    if max_ext_header_size limits <? e
    then Throw (FrameTooLarge e (max_ext_header_size limits)) else
    if max_frame_size limits <? 16 + e + pl
    then Throw (FrameTooLarge (16 + e + pl) (max_frame_size limits)) else
    if len rest <? e + pl then Done None else
    Done (Some {| fl_header := h; fl_ext_header_len := e; fl_payload_len := pl;
                  fl_ext_end := 16 + e; fl_total := 16 + e + pl |}).
Proof.
  intros Hlim Hh He Hp. unfold frame_layout.
  rewrite len_app, FixedHeader_to_bytes_len. pose proof (len_nonneg rest). zbool.
  rewrite (slice_app [] (FixedHeader_to_bytes h e pl) rest) by done.
  rewrite exec_bind_done, (FixedHeader_roundtrip h e pl) by done. rewrite exec_bind_done.
  assert (Hw : wrap 64 (wrap 64 (16 + e) + pl) = 16 + e + pl).
  { unfold in_width in *. rewrite (wrap_small 64 (16 + e)) by (unfold in_width; lia).
    apply wrap_small. unfold in_width; lia. }
  assert (Hu : as_usize e = e).
  { apply as_usize_small, u32_fits_usize. unfold in_width in *. lia. }
  cbv zeta. rewrite Hw, Hu. repeat (zcase; [done|]).
  destruct (width_sum_usize limits e pl) as (_ & -> & _ & Hee); [done..|lia|].
  rewrite Hu in Hee. rewrite Hee. repeat zcase; try lia; done.
Qed.

Lemma frame_layout_short bs limits : len bs < 16 -> frame_layout bs limits = Done None.
Proof. intros. unfold frame_layout. by zbool. Qed.

(** Every buffer either is shorter than a header, starts with an invalid
    header, or starts with the encoding of a valid one. *)
Lemma header_cases bs : bytes_ok bs ->
  len bs < 16 \/
  (exists err, FixedHeader_from_bytes (take 16 bs) = Throw err /\
     16 <= len bs /\ forall limits, frame_layout bs limits = Throw err) \/
  (exists h e pl rest, bs = FixedHeader_to_bytes h e pl ++ rest /\
     header_ok h /\ in_width 16 e /\ in_width 32 pl).
Proof.
  intros Hok. destruct (Z.lt_ge_cases (len bs) 16) as [|Hge]; [by left|right].
  assert (length (take 16 bs) = 16%nat) as Ht.
  { rewrite length_take. unfold len in Hge. lia. }
  destruct (FixedHeader_from_bytes (take 16 bs)) as [[[h e] pl]|err|] eqn:E.
  - right. apply FixedHeader_from_bytes_inv in E as (? & ? & ? & Heq); [|done|by apply Forall_take].
    exists h, e, pl, (drop 16 bs). by rewrite Heq, take_drop.
  - left. exists err. split; [done|]. split; [done|]. intros limits. unfold frame_layout. zbool.
    rewrite slice_ok by lia. rewrite exec_bind_done.
    change (drop (Z.to_nat 0) bs) with bs. change (Z.to_nat (16 - 0)) with 16%nat.
    by rewrite E.
  - by apply FixedHeader_from_bytes_no_panic in E; [|rewrite Ht].
Qed.

(** An answer [Some] of the layout pins the shape of the buffer. *)
Lemma frame_layout_some bs limits l :
  limits_ok limits -> bytes_ok bs -> frame_layout bs limits = Done (Some l) ->
  exists h e pl rest, bs = FixedHeader_to_bytes h e pl ++ rest /\
    header_ok h /\ in_width 16 e /\ in_width 32 pl /\
    pl <= max_payload_size limits /\ e <= max_ext_header_size limits /\
    16 + e + pl <= max_frame_size limits /\ e + pl <= len rest /\
    l = {| fl_header := h; fl_ext_header_len := e; fl_payload_len := pl;
           fl_ext_end := 16 + e; fl_total := 16 + e + pl |}.
Proof.
  intros Hlim Hok Hf.
  destruct (header_cases bs Hok) as [Hs|[(err & _ & _ & Herr)|(h & e & pl & rest & -> & ? & ? & ?)]].
  - by rewrite frame_layout_short in Hf.
  - by rewrite Herr in Hf.
  - rewrite frame_layout_spec in Hf by done. repeat (zcase; [done|]).
    simplify_eq. exists h, e, pl, rest. split_and!; try done; lia.
Qed.

(** The body ranges of a complete frame. *)
Lemma decode_body h e pl ext body rest limits :
  limits_ok limits -> header_ok h ->
  e = len ext -> pl = len body -> in_width 16 e -> in_width 32 pl ->
  pl <= max_payload_size limits -> e <= max_ext_header_size limits ->
  16 + e + pl <= max_frame_size limits ->
  decode_one_with (FixedHeader_to_bytes h e pl ++ ext ++ body ++ rest) limits =
    Done (Some (mkPacket h ext body, 16 + e + pl)).
Proof.
  intros Hlim Hh -> -> He Hp H1 H2 H3. unfold decode_one_with.
  rewrite frame_layout_spec by done. rewrite !len_app.
  pose proof (len_nonneg rest). zbool. rewrite exec_bind_done.
  cbn [fl_header fl_ext_header_len fl_payload_len fl_ext_end fl_total].
  set (hd := FixedHeader_to_bytes h (len ext) (len body)).
  assert (len hd = 16) as Hhd by done.
  assert ((if 0 <? len ext then slice (hd ++ ext ++ body ++ rest) 16 (16 + len ext) else Done [])
          = Done (E := PacketError) ext) as ->.
  { zcase; [apply slice_app; lia|]. destruct ext; [done|rewrite len_cons in *; pose proof (len_nonneg ext); lia]. }
  rewrite exec_bind_done.
  assert ((if 0 <? len body then slice (hd ++ ext ++ body ++ rest) (16 + len ext) (16 + len ext + len body) else Done [])
          = Done (E := PacketError) body) as ->.
  { zcase; [rewrite app_assoc; apply slice_app; rewrite ?len_app; lia|].
    destruct body; [done|rewrite len_cons in *; pose proof (len_nonneg body); lia]. }
  reflexivity.
Qed.

Lemma try_encode_done p :
  len (ext_header p) <= U16_MAX -> len (payload p) <= U32_MAX ->
  try_encode p =
    Done (FixedHeader_to_bytes (header p) (len (ext_header p)) (len (payload p))
            ++ ext_header p ++ payload p).
Proof.
  intros He Hp. unfold try_encode, U16_MAX, U32_MAX in *.
  pose proof (len_nonneg (ext_header p)). pose proof (len_nonneg (payload p)).
  rewrite !(as_usize_small) by (apply u32_fits_usize; unfold in_width; lia).
  zbool. rewrite !wrap_small by (unfold in_width; lia).
  destruct (ext_header p); [done|]. by rewrite <- app_assoc.
Qed.
End Layout.

(** ** Properties of the codec *)

Section Codec.
Context `{Target}.

Lemma packet_ok_fields p : packet_ok p ->
  header_ok (header p) /\ in_width 16 (len (ext_header p)) /\ in_width 32 (len (payload p)).
Proof.
  unfold packet_ok, U16_MAX, U32_MAX, in_width. intros (? & ? & ?).
  pose proof (len_nonneg (ext_header p)). pose proof (len_nonneg (payload p)).
  split; [done|lia].
Qed.

Lemma decode_encoded p rest limits :
  limits_ok limits -> packet_ok p -> fits limits p ->
  exists w, try_encode p = Done w /\ len w = total_len p /\
    decode_one_with (w ++ rest) limits = Done (Some (p, total_len p)).
Proof.
  intros Hlim Hok (Hf1 & Hf2 & Hf3). destruct (packet_ok_fields p Hok) as (Hh & He & Hp).
  eexists. split; [apply try_encode_done; apply Hok|].
  unfold total_len in *. rewrite !len_app, FixedHeader_to_bytes_len. split; [lia|].
  rewrite <- !app_assoc. rewrite (decode_body _ _ _ (ext_header p) (payload p)) by done.
  by destruct p.
Qed.

(** The length caps of the encoder fail exactly on the oversized bodies. *)
Lemma try_encode_ext_too_long p :
  U16_MAX < len (ext_header p) < 2 ^ 64 ->
  try_encode p = Throw (FrameTooLarge (len (ext_header p)) U16_MAX).
Proof.
  unfold try_encode, U16_MAX. intros.
  rewrite as_usize_small by (apply u32_fits_usize; unfold in_width; lia).
  zbool. by rewrite wrap_small by (unfold in_width; lia).
Qed.

(** C3: the wire format round-trips inside a byte stream. Every well-formed
    packet within the decoder's limits encodes, to exactly [total_len]
    bytes, and decoding those bytes followed by anything gives the packet
    back together with the number of bytes to consume. *)
Theorem encode_decode_roundtrip p rest limits
    (Hlim : limits_ok limits) (Hok : packet_ok p) (Hfit : fits limits p) :
  exists w, try_encode p = Done w /\ len w = total_len p /\
    decode_one_with (w ++ rest) limits = Done (Some (p, total_len p)) /\
    decode_exact_with w limits = Done p /\
    decode_exact_from w limits = Done p.
Proof.
  destruct (decode_encoded p rest limits) as (w & Hw & Hl & Hd); [done..|].
  destruct (decode_encoded p [] limits) as (w' & Hw' & _ & Hd'); [done..|].
  rewrite app_nil_r in Hd'. assert (w' = w) as -> by congruence.
  exists w. unfold decode_exact_with, decode_exact_from.
  change (decode_one_from w limits) with (decode_one_with w limits).
  rewrite Hd', exec_bind_done. cbn [exact_of]. rewrite Hl. by zbool.
Qed.

(** C4: the wire format is canonical. Whatever byte string the decoder
    accepts, the packet it returns is well-formed, respects every limit, and
    re-encodes to exactly the bytes it consumed: no two frames decode to the
    same packet. *)
Theorem decode_is_canonical bs limits p n
    (Hlim : limits_ok limits) (Hbs : bytes_ok bs)
    (Hdec : decode_one_with bs limits = Done (Some (p, n))) :
  packet_ok p /\ fits limits p /\ n = total_len p /\ n <= len bs /\
  try_encode p = Done (take (Z.to_nat n) bs).
Proof.
  unfold decode_one_with in Hdec. apply exec_bind_done_inv in Hdec as (lay & Hlay & Hdec).
  destruct lay as [l|]; [|done].
  apply frame_layout_some in Hlay as
    (h & e & pl & rest & -> & Hh & He & Hp & Hl1 & Hl2 & Hl3 & Hr & Hl); [|done..].
  set (ext := take (Z.to_nat e) rest). set (body := take (Z.to_nat pl) (drop (Z.to_nat e) rest)).
  unfold in_width in He, Hp.
  assert (len ext = e) as He'.
  { unfold ext, len. rewrite length_take. unfold len in Hr. lia. }
  assert (len body = pl) as Hp'.
  { unfold body, len. rewrite length_take, length_drop. unfold len in Hr. lia. }
  assert (rest = ext ++ body ++ drop (Z.to_nat pl) (drop (Z.to_nat e) rest)) as Hrest.
  { unfold ext, body. by rewrite take_drop, take_drop. }
  pose proof (decode_body h e pl ext body (drop (Z.to_nat pl) (drop (Z.to_nat e) rest)) limits)
    as Hbody. rewrite <- Hrest in Hbody.
  unfold decode_one_with in Hbody. rewrite frame_layout_spec in Hbody by done.
  pose proof (len_nonneg rest).
  revert Hbody. zbool. rewrite exec_bind_done. rewrite <- Hl. intros Hbody.
  rewrite Hbody in Hdec by done. injection Hdec as <- <-.
  replace (16 + e + pl) with (total_len (mkPacket h ext body)) by (unfold total_len; simpl; lia).
  unfold packet_ok, fits, U16_MAX, U32_MAX, total_len; cbn [header ext_header payload].
  rewrite ?len_app, ?FixedHeader_to_bytes_len, He', Hp'. split_and!; try done; try lia.
  rewrite try_encode_done by (cbn [ext_header payload]; unfold U16_MAX, U32_MAX; lia).
  cbn [header ext_header payload]. rewrite He', Hp'. f_equal.
  rewrite Hrest, !app_assoc. symmetry.
  rewrite take_app_le by (rewrite !length_app, FixedHeader_to_bytes_length; unfold len in *; lia).
  apply take_ge. rewrite !length_app, FixedHeader_to_bytes_length. unfold len in *; lia.
Qed.

Lemma decode_one_no_panic bs limits : limits_ok limits -> bytes_ok bs -> decode_one_with bs limits <> Panic.
Proof.
  intros Hlim Hbs. destruct (header_cases bs Hbs) as [Hs|[(err & _ & _ & Herr)|(h & e & pl & rest & -> & Hh & He & Hp)]].
  - unfold decode_one_with. by rewrite frame_layout_short.
  - unfold decode_one_with. by rewrite Herr.
  - destruct (decide (pl <= max_payload_size limits /\ e <= max_ext_header_size limits /\
      16 + e + pl <= max_frame_size limits /\ e + pl <= len rest)) as [(H1 & H2 & H3 & H4)|Hn].
    + rewrite <- (take_drop (Z.to_nat e) rest).
      rewrite <- (take_drop (Z.to_nat pl) (drop (Z.to_nat e) rest)).
      unfold in_width, len in *.
      rewrite decode_body; unfold in_width, len; rewrite ?length_take, ?length_drop; try done; lia.
    + unfold decode_one_with. rewrite frame_layout_spec by done.
      repeat (zcase; [done|]). lia.
Qed.

Lemma decode_exact_no_panic bs limits : limits_ok limits -> bytes_ok bs -> decode_exact_with bs limits <> Panic.
Proof.
  intros Hlim Hbs. pose proof (decode_one_no_panic bs limits Hlim Hbs). unfold decode_exact_with.
  destruct (decode_one_with bs limits) as [[[p n]|]| |]; simpl; try done. by case_match.
Qed.

(** C5: the decoder never panics, on a 32-bit target as on a 64-bit one:
    every slice it takes is in range for every input and every limit. *)
Theorem decode_never_panics bs limits
    (Hlim : limits_ok limits) (Hbs : bytes_ok bs) :
  decode_one_with bs limits <> Panic /\ decode_exact_with bs limits <> Panic.
Proof. split; [by apply decode_one_no_panic|by apply decode_exact_no_panic]. Qed.

(** Incremental decoding. Every strict prefix of a valid frame is
    answered "need more bytes", never an error and never a packet, so a
    streaming reader can keep buffering. *)
Theorem strict_prefix_is_incomplete p limits w n
    (Hlim : limits_ok limits) (Hok : packet_ok p) (Hfit : fits limits p)
    (Henc : try_encode p = Done w) (Hn : 0 <= n < total_len p) :
  decode_one_with (take (Z.to_nat n) w) limits = Done None /\
  frame_len (take (Z.to_nat n) w) limits = Done None.
Proof.
  destruct (packet_ok_fields p Hok) as (Hh & He & Hp). destruct Hfit as (Hf1 & Hf2 & Hf3).
  rewrite try_encode_done in Henc by apply Hok. 
  set (hd := FixedHeader_to_bytes (header p) (len (ext_header p)) (len (payload p))) in Henc.
  assert (w = hd ++ ext_header p ++ payload p) as -> by congruence.
  assert (frame_layout (take (Z.to_nat n) (hd ++ ext_header p ++ payload p)) limits = Done None) as Hl.
  { destruct (Z.lt_ge_cases n 16) as [Hlt|Hge].
    - apply frame_layout_short. unfold len. rewrite length_take. lia.
    - rewrite take_app_ge by (unfold hd; rewrite FixedHeader_to_bytes_length; lia).
      unfold hd. rewrite frame_layout_spec by done.
      unfold total_len in *. pose proof (len_nonneg (ext_header p)). pose proof (len_nonneg (payload p)).
      rewrite FixedHeader_to_bytes_length.
      assert (len (take (Z.to_nat n - 16) (ext_header p ++ payload p)) < len (ext_header p) + len (payload p)).
      { unfold len in *. rewrite length_take, length_app. lia. }
      by zbool. }
  unfold decode_one_with, frame_len. by rewrite Hl.
Qed.

(** An oversized declaration is refused from the sixteen header bytes
    alone, with a hard error, whatever and however little follows them: the
    decoder never asks for more bytes of a frame it would not accept. *)
Theorem oversized_frame_refused_from_header h e pl rest limits
    (Hlim : limits_ok limits) (Hh : header_ok h)
    (He : in_width 16 e) (Hp : in_width 32 pl)
    (Hbig : max_payload_size limits < pl \/ max_ext_header_size limits < e \/
            max_frame_size limits < 16 + e + pl) :
  exists declared limit,
    decode_one_with (FixedHeader_to_bytes h e pl ++ rest) limits =
      Throw (FrameTooLarge declared limit) /\
    frame_len (FixedHeader_to_bytes h e pl ++ rest) limits =
      Throw (FrameTooLarge declared limit) /\
    limit < declared.
Proof.
  unfold decode_one_with, frame_len. rewrite frame_layout_spec by done.
  repeat (zcase; [do 2 eexists; split_and!; [reflexivity..|lia]|]). lia.
Qed.

(** The encoder's only failures are the two length caps of the wire
    fields, each reporting the true length; it never truncates a length. *)
Theorem try_encode_total p
    (Hrep : len (ext_header p) < 2 ^ usize_bits /\ len (payload p) < 2 ^ usize_bits) :
  if U16_MAX <? len (ext_header p)
  then try_encode p = Throw (FrameTooLarge (len (ext_header p)) U16_MAX)
  else if U32_MAX <? len (payload p)
  then try_encode p = Throw (FrameTooLarge (len (payload p)) U32_MAX)
  else exists w, try_encode p = Done w /\ len w = total_len p.
Proof.
  destruct Hrep as [Hr1 Hr2].
  assert (2 ^ usize_bits <= 2 ^ 64) by (destruct usize_bits_spec as [-> | ->]; lia).
  zcase; [apply try_encode_ext_too_long; lia|]. zcase.
  - unfold try_encode, U16_MAX, U32_MAX in *.
    rewrite !as_usize_small by (apply u32_fits_usize; unfold in_width; lia).
    pose proof (len_nonneg (payload p)).
    zbool. by rewrite wrap_small by (unfold in_width; lia).
  - eexists. split; [by apply try_encode_done|]. unfold total_len.
    rewrite !len_app, FixedHeader_to_bytes_len. lia.
Qed.
End Codec.

(** ** Properties of the payload codecs *)

Section Compression.
Context {C : Codecs} {L : CodecLaws C}.

Lemma compression_result_done r d : compression_result r = Done d -> r = inr d.
Proof. by destruct r; intros; simplify_eq/=. Qed.

Lemma compression_result_no_panic r : compression_result r <> Panic.
Proof. by destruct r. Qed.

Lemma decompress_bounded data c max d :
  0 <= max -> c <> CNone ->
  decompress_data_with_limit data c max = Done d -> len d <= max.
Proof using L.
  intros Hmax Hc. destruct c; simpl; [done| |]; case_match; try done.
  - intros Hd%compression_result_done. by eapply zstd_capacity.
  - intros Hd. exec_inv Hd. zcase; by simplify_eq.
Qed.

Lemma decompress_compress data c max z :
  len data <= max < 2 ^ 64 - 1 ->
  compress_data data c = Done z -> decompress_data_with_limit z c max = Done data.
Proof using L.
  intros Hlen. pose proof (len_nonneg data). destruct c; simpl; [by intros [= ->]| |].
  - case_match; [|done]. intros Hz%compression_result_done.
    by rewrite (zstd_inverse data 3 z max) by (done || lia).
  - case_match; [|done]. case_match; [done|]. intros Hz%compression_result_done.
    rewrite (zlib_inverse data z Hz). unfold take_read_to_end, saturating_add.
    rewrite Z.min_l by lia. zbool. simpl. by zbool.
Qed.

(** Decompression-bomb bound. A successful decompression of a compressed
    packet yields a payload of at most [max] bytes, whatever the codec
    produced, and touches nothing else of the packet; an uncompressed packet
    is returned unchanged. *)
Theorem decompress_payload_bounded p max p'
    (Hmax : 0 <= max)
    (Hd : decompress_payload_with_limit p max = Done p') :
  header p' = header p /\ ext_header p' = ext_header p /\
  (compression (header p) = CNone -> p' = p) /\
  (compression (header p) <> CNone -> len (payload p') <= max).
Proof using L.
  unfold decompress_payload_with_limit in Hd. case_decide as Hc.
  - by simplify_eq.
  - exec_inv Hd. simplify_eq. simpl. split_and!; try done.
    intros _. by eapply decompress_bounded.
Qed.

Lemma compress_restores p max p' :
  len (payload p) <= max < 2 ^ 64 - 1 -> compress_payload p = Done p' ->
  decompress_payload_with_limit p' max = Done p.
Proof using L.
  intros Hlen Hc. unfold compress_payload in Hc. case_decide as Hn.
  - simplify_eq. unfold decompress_payload_with_limit. by case_decide.
  - exec_inv Hc. simplify_eq. unfold decompress_payload_with_limit. simpl.
    rewrite decide_False by done.
    rewrite (decompress_compress (payload p) _ max) by done. by destruct p.
Qed.

Lemma compress_payload_no_panic p : compress_payload p <> Panic.
Proof using.
  unfold compress_payload, compress_data. case_decide; [done|].
  destruct (compression (header p)); [done| |]; repeat case_match; try done.
  - destruct (zstd_compress _ _); done.
  - destruct (zlib_finish _); done.
Qed.

(** Compression round-trips. A payload that [compress_payload] compressed
    is restored by [decompress_payload_with_limit] under any limit that the
    original respects, for every codec and whichever features are on. *)
Theorem compress_payload_roundtrip p max p'
    (Hlen : len (payload p) <= max < 2 ^ 64 - 1)
    (Hc : compress_payload p = Done p') :
  decompress_payload_with_limit p' max = Done p.
Proof using L. by apply compress_restores. Qed.
End Compression.

(** ** Reserved flags *)

Lemma test_set_flag_same mask b f :
  (exists i, 0 <= i < 16 /\ mask = 2 ^ i) -> in_width 16 f ->
  test_flag mask (set_flag mask b f) = b.
Proof.
  intros (i & Hi & ->) Hf. unfold test_flag, set_flag, not16. destruct b.
  - destruct (Z.eqb_spec (Z.land (Z.lor f (2 ^ i)) (2 ^ i)) 0) as [E|]; [exfalso|done].
    apply (f_equal (fun z => Z.testbit z i)) in E.
    rewrite Z.land_spec, Z.lor_spec, Z.pow2_bits_true, orb_true_r, Z.bits_0 in E by lia. done.
  - destruct (Z.eqb_spec (Z.land (Z.land f (Z.lxor (2 ^ i) U16_MAX)) (2 ^ i)) 0) as [|E]; [done|].
    exfalso. apply E. apply Z.bits_inj'. intros k Hk.
    rewrite !Z.land_spec, Z.lxor_spec, Z.bits_0.
    destruct (decide (k = i)) as [->|Hne].
    + rewrite Z.pow2_bits_true by lia.
      change U16_MAX with (Z.ones 16). rewrite Z.ones_spec_low by lia. simpl. by rewrite andb_false_r.
    + rewrite (Z.pow2_bits_false i k) by lia. by rewrite andb_false_r.
Qed.

Lemma test_set_flag_other i j b f :
  0 <= i < 16 -> 0 <= j < 16 -> i <> j -> in_width 16 f ->
  test_flag (2 ^ j) (set_flag (2 ^ i) b f) = test_flag (2 ^ j) f.
Proof.
  intros Hi Hj Hij Hf. unfold test_flag. do 2 f_equal. apply Z.bits_inj'. intros k Hk.
  rewrite !Z.land_spec. destruct (decide (k = j)) as [->|Hne].
  - f_equal. unfold set_flag, not16. destruct b.
    + by rewrite Z.lor_spec, (Z.pow2_bits_false i j), orb_false_r by lia.
    + rewrite Z.land_spec, Z.lxor_spec, (Z.pow2_bits_false i j) by lia.
      change U16_MAX with (Z.ones 16). rewrite Z.ones_spec_low by lia. by rewrite andb_true_r.
  - by rewrite (Z.pow2_bits_false j k), !andb_false_r by lia.
Qed.

Lemma set_flag_width i b f :
  0 <= i < 16 -> in_width 16 f -> in_width 16 (set_flag (2 ^ i) b f).
Proof.
  intros Hi Hf. assert (f = Z.land f (Z.ones 16)) as Heq.
  { rewrite Z.land_ones by lia. symmetry. by apply Z.mod_small. }
  assert (set_flag (2 ^ i) b f = Z.land (set_flag (2 ^ i) b f) (Z.ones 16)) as ->.
  { apply Z.bits_inj'. intros k Hk. rewrite Z.land_spec. unfold set_flag, not16.
    destruct (Z.lt_ge_cases k 16).
    - by rewrite Z.ones_spec_low, andb_true_r by lia.
    - rewrite Z.ones_spec_high, andb_false_r by lia. rewrite Heq.
      destruct b; rewrite ?Z.lor_spec, ?Z.land_spec, ?Z.ones_spec_high, ?andb_false_r by lia; [|done].
      by rewrite Z.pow2_bits_false by lia. }
  rewrite Z.land_ones by lia. apply Z.mod_pos_bound. lia.
Qed.

(** The three reserved flags are independent. Each setter makes its own
    query answer what was set, leaves the two other queries as they were, and
    keeps the field a [u16]. *)
Theorem reserved_flags_independent f b (Hf : in_width 16 f) :
  (flags_is_fragmented (flags_fragmented f b) = b /\
   flags_is_high_priority (flags_fragmented f b) = flags_is_high_priority f /\
   flags_has_route_tag (flags_fragmented f b) = flags_has_route_tag f /\
   in_width 16 (flags_fragmented f b)) /\
  (flags_is_high_priority (flags_priority f b) = b /\
   flags_is_fragmented (flags_priority f b) = flags_is_fragmented f /\
   flags_has_route_tag (flags_priority f b) = flags_has_route_tag f /\
   in_width 16 (flags_priority f b)) /\
  (flags_has_route_tag (flags_route_tag f b) = b /\
   flags_is_fragmented (flags_route_tag f b) = flags_is_fragmented f /\
   flags_is_high_priority (flags_route_tag f b) = flags_is_high_priority f /\
   in_width 16 (flags_route_tag f b)).
Proof.
  unfold flags_is_fragmented, flags_fragmented, flags_is_high_priority, flags_priority,
    flags_has_route_tag, flags_route_tag.
  split_and!;
    first [ apply test_set_flag_same; [|done];
            first [exists 0; by split|exists 1; by split|exists 2; by split]
          | apply (test_set_flag_other 0 1); (done || lia)
          | apply (test_set_flag_other 0 2); (done || lia)
          | apply (test_set_flag_other 1 0); (done || lia)
          | apply (test_set_flag_other 1 2); (done || lia)
          | apply (test_set_flag_other 2 0); (done || lia)
          | apply (test_set_flag_other 2 1); (done || lia)
          | apply (set_flag_width 0); (done || lia)
          | apply (set_flag_width 1); (done || lia)
          | apply (set_flag_width 2); (done || lia) ].
Qed.

(** ** Witnesses *)

(** A codec that stores its input behind a tag byte. *)
Definition tag_codec : Codecs := {|
  feature_flate2 := true;
  feature_zstd := true;
  zlib_write_all := fun _ => None;
  zlib_finish := fun d => inr (120 :: d);
  zlib_read := fun c => match c with
                        | 120 :: d => (d, None)
                        | _ => ([], Some "corrupt deflate stream")
                        end;
  zstd_compress := fun d _ => inr (40 :: d);
  zstd_decompress := fun c cap =>
    match c with
    | 40 :: d => if len d <=? cap then inr d else inl "Destination buffer is too small"
    | _ => inl "Unknown frame descriptor"
    end
|}.

Lemma tag_codec_laws : CodecLaws tag_codec.
Proof.
  split; simpl.
  - by intros d c [= <-].
  - intros d level c cap [= <-] Hl. by zbool.
  - intros c cap d Hd. destruct c as [|[|q|] c]; try done.
    do 6 (destruct q as [q|q|]; try done). zcase; by simplify_eq.
Qed.

Definition sample_packet : Packet :=
  set_priority (set_ext_header (request 7 [104; 105]) [9]) true.

Lemma encode_decode_roundtrip_witness :
  exists w, try_encode (H := Target32) sample_packet = Done w /\ len w = total_len sample_packet /\
    decode_one_with (H := Target32) (w ++ [1; 2]) DecodeLimits_default
      = Done (Some (sample_packet, total_len sample_packet)) /\
    decode_exact_with (H := Target32) w DecodeLimits_default = Done sample_packet /\
    decode_exact_from (H := Target32) w DecodeLimits_default = Done sample_packet.
Proof.
  apply (encode_decode_roundtrip (H := Target32)); vm_compute; intuition discriminate.
Defined.

Definition sample_wire : bytes := [1; 0; 1; 0; 0; 0; 0; 7; 0; 1; 0; 0; 0; 2; 0; 2; 9; 104; 105].

Lemma decode_is_canonical_witness :
  packet_ok sample_packet /\ fits DecodeLimits_default sample_packet /\
  19 = total_len sample_packet /\ 19 <= len (sample_wire ++ [5]) /\
  try_encode (H := Target64) sample_packet = Done (take (Z.to_nat 19) (sample_wire ++ [5])).
Proof.
  apply (decode_is_canonical (H := Target64) (sample_wire ++ [5]) DecodeLimits_default).
  - vm_compute; intuition discriminate.
  - repeat (constructor; [vm_compute; intuition discriminate|]). constructor.
  - reflexivity.
Defined.

Lemma decode_never_panics_witness :
  decode_one_with (H := Target32) (255 :: sample_wire) DecodeLimits_default <> Panic /\
  decode_exact_with (H := Target32) (255 :: sample_wire) DecodeLimits_default <> Panic.
Proof.
  apply (decode_never_panics (H := Target32)).
  - vm_compute; intuition discriminate.
  - repeat (constructor; [vm_compute; intuition discriminate|]). constructor.
Defined.

Lemma strict_prefix_is_incomplete_witness :
  decode_one_with (H := Target64) (take (Z.to_nat 18) sample_wire) DecodeLimits_default = Done None /\
  frame_len (H := Target64) (take (Z.to_nat 18) sample_wire) DecodeLimits_default = Done None.
Proof.
  apply (strict_prefix_is_incomplete (H := Target64) sample_packet).
  - vm_compute; intuition discriminate.
  - vm_compute; intuition discriminate.
  - vm_compute; intuition discriminate.
  - reflexivity.
  - vm_compute; intuition discriminate.
Defined.

Definition tight_limits : DecodeLimits := {|
  max_frame_size := 16 + 64; max_payload_size := 64; max_ext_header_size := 0
|}.

Lemma oversized_frame_refused_from_header_witness :
  exists declared limit,
    decode_one_with (H := Target32)
      (FixedHeader_to_bytes (FixedHeader_new OneWay 1) 0 U32_MAX ++ []) tight_limits =
      Throw (FrameTooLarge declared limit) /\
    frame_len (H := Target32)
      (FixedHeader_to_bytes (FixedHeader_new OneWay 1) 0 U32_MAX ++ []) tight_limits =
      Throw (FrameTooLarge declared limit) /\
    limit < declared.
Proof.
  apply (oversized_frame_refused_from_header (H := Target32)); vm_compute; intuition discriminate.
Defined.

Lemma try_encode_total_witness :
  if U16_MAX <? len (ext_header sample_packet)
  then try_encode (H := Target64) sample_packet
         = Throw (FrameTooLarge (len (ext_header sample_packet)) U16_MAX)
  else if U32_MAX <? len (payload sample_packet)
  then try_encode (H := Target64) sample_packet
         = Throw (FrameTooLarge (len (payload sample_packet)) U32_MAX)
  else exists w, try_encode (H := Target64) sample_packet = Done w /\ len w = total_len sample_packet.
Proof. apply (try_encode_total (H := Target64)). vm_compute; intuition discriminate. Defined.

Definition bomb_packet : Packet := set_compression (one_way 3 [40; 1; 2; 3]) Zstd.

Lemma decompress_payload_bounded_witness :
  decompress_payload_with_limit (H := tag_codec) bomb_packet 3
    = Done (set_payload bomb_packet [1; 2; 3]) /\
  (header (set_payload bomb_packet [1; 2; 3]) = header bomb_packet /\
   ext_header (set_payload bomb_packet [1; 2; 3]) = ext_header bomb_packet /\
   (compression (header bomb_packet) = CNone -> set_payload bomb_packet [1; 2; 3] = bomb_packet) /\
   (compression (header bomb_packet) <> CNone ->
      len (payload (set_payload bomb_packet [1; 2; 3])) <= 3)).
Proof.
  split; [reflexivity|].
  apply (decompress_payload_bounded (C := tag_codec) (L := tag_codec_laws) bomb_packet 3).
  - lia.
  - reflexivity.
Defined.

Definition plain_zlib_packet : Packet := set_compression (one_way 3 [1; 2; 3]) Zlib.

Lemma compress_payload_roundtrip_witness :
  decompress_payload_with_limit (H := tag_codec) (set_payload plain_zlib_packet [120; 1; 2; 3]) 3
    = Done plain_zlib_packet.
Proof.
  apply (compress_payload_roundtrip (C := tag_codec) (L := tag_codec_laws)).
  - vm_compute; intuition discriminate.
  - reflexivity.
Defined.

Lemma reserved_flags_independent_witness :
  in_width 16 5 /\ flags_is_high_priority (flags_priority 5 true) = true.
Proof.
  split; [vm_compute; intuition discriminate|].
  apply (reserved_flags_independent 5 true). vm_compute; intuition discriminate.
Defined.
