(* ===== verification/Errors.v ===== *)
(** * Errors: [crates/msgtrans/src/error.rs]

    The transport's error type, its retry policy, its context methods and its
    conversions from the packet layer, the TCP adapter and IO. Durations are
    milliseconds. *)

From S2P Require Import Prelude Packet.

(** [SessionId] of [lib.rs]: a 64-bit identifier. *)
Abbreviation SessionId := Z (only parsing).
Definition SessionId_next (s : SessionId) : SessionId := wrap 64 (s + 1).
Definition SessionId_display (s : SessionId) : string := "session-" +:+ pretty s.

Inductive CloseReason :=
  | Normal
  | CloseTimeout
  | CloseError (msg : string)
  | Forced.
#[export] Instance CloseReason_eq_dec : EqDecision CloseReason.
Proof. solve_decision. Defined.

Inductive TransportError :=
  | Connection (reason : string) (retryable : bool)
  | Protocol (protocol reason : string)
  | Configuration (field reason : string)
  | Resource (resource : string) (current limit : Z)
  | Timeout (operation : string) (duration : Z).
#[export] Instance TransportError_eq_dec : EqDecision TransportError.
Proof. solve_decision. Defined.

(** [{:?}] of a [Duration] of whole milliseconds: [5s], [1.5s], [20ms], [0ns]. *)
Definition Duration_debug (d : Z) : string :=
  if d =? 0 then "0ns"
  else if d <? 1000 then pretty d +:+ "ms"
  else
    let r := d mod 1000 in
    pretty (d / 1000) +:+
    (if r =? 0 then ""
     else if r mod 100 =? 0 then "." +:+ pretty (r / 100)
     else if r mod 10 =? 0 then "." +:+ pretty (r / 100) +:+ pretty (r / 10 mod 10)
     else "." +:+ pretty (r / 100) +:+ pretty (r / 10 mod 10) +:+ pretty (r mod 10)) +:+ "s".

Definition TransportError_display (e : TransportError) : string :=
  match e with
  | Connection reason retryable =>
      "Connection error: " +:+ reason +:+ " (retryable: "
        +:+ (if retryable then "true" else "false") +:+ ")"
  | Protocol protocol reason => "Protocol error (" +:+ protocol +:+ "): " +:+ reason
  | Configuration field reason => "Configuration error in field '" +:+ field +:+ "': " +:+ reason
  | Resource resource current limit =>
      "Resource '" +:+ resource +:+ "' exceeded: current " +:+ pretty current
        +:+ ", limit " +:+ pretty limit
  | Timeout operation duration =>
      "Operation '" +:+ operation +:+ "' timeout after " +:+ Duration_debug duration
  end.

Definition is_retryable (e : TransportError) : bool :=
  match e with
  | Connection _ retryable => retryable
  | Protocol _ _ => true
  | Configuration _ _ => false
  | Resource _ _ _ => true
  | Timeout _ _ => true
  end.

Definition retry_delay (e : TransportError) : option Z :=
  if negb (is_retryable e) then None else
  match e with
  | Connection _ _ => Some 1000
  | Protocol _ _ => Some 100
  | Resource _ _ _ => Some 500
  | Timeout _ _ => Some 200
  | Configuration _ _ => None
  end.

Definition error_code (e : TransportError) : string :=
  match e with
  | Connection _ _ => "CONNECTION_ERROR"
  | Protocol _ _ => "PROTOCOL_ERROR"
  | Configuration _ _ => "CONFIG_ERROR"
  | Resource _ _ _ => "RESOURCE_ERROR"
  | Timeout _ _ => "TIMEOUT_ERROR"
  end.

(** [str::contains]. *)
Definition contains (sub s : string) : bool :=
  match String.index 0 sub s with Some _ => true | None => false end.

Definition with_session (sid : SessionId) (e : TransportError) : TransportError :=
  match e with
  | Connection reason retryable =>
      if negb (contains "session:" reason)
      then Connection (reason +:+ " (session: " +:+ SessionId_display sid +:+ ")") retryable
      else e
  | Protocol protocol reason =>
      if negb (contains "session:" reason)
      then Protocol protocol (reason +:+ " (session: " +:+ SessionId_display sid +:+ ")")
      else e
  | _ => e
  end.

Definition with_operation (op : string) (e : TransportError) : TransportError :=
  match e with
  | Connection reason retryable =>
      if negb (contains "operation:" reason)
      then Connection (reason +:+ " (operation: " +:+ op +:+ ")") retryable
      else e
  | Protocol protocol reason =>
      if negb (contains "operation:" reason)
      then Protocol protocol (reason +:+ " (operation: " +:+ op +:+ ")")
      else e
  | Timeout operation duration =>
      if decide (operation = "") then Timeout op duration else e
  | _ => e
  end.

Definition connection_error (reason : string) (retryable : bool) : TransportError :=
  Connection reason retryable.
Definition protocol_error (protocol reason : string) : TransportError := Protocol protocol reason.
Definition config_error (field reason : string) : TransportError := Configuration field reason.
Definition resource_error (resource : string) (current limit : Z) : TransportError :=
  Resource resource current limit.
Definition timeout_error (operation : string) (duration : Z) : TransportError :=
  Timeout operation duration.

(** ** Conversions *)

Definition PacketError_display (e : PacketError) : string :=
  match e with
  | InvalidHeader m => "Invalid header: " +:+ m
  | InvalidPacket m => "Invalid packet: " +:+ m
  | UnsupportedVersion v => "Unsupported version: " +:+ pretty v
  | FrameTooLarge declared limit =>
      "Frame too large: declared " +:+ pretty declared +:+ " bytes exceeds limit " +:+ pretty limit
  | CompressionError m => "Compression error: " +:+ m
  | UnsupportedCompression m => "Unsupported compression: " +:+ m
  | SerializationError m => "Serialization error: " +:+ m
  end.

(** [std::io::ErrorKind], as far as the code distinguishes it, and the text of
    the error. *)
Inductive IoErrorKind :=
  | IoTimedOut | IoConnectionRefused | IoConnectionAborted | IoConnectionReset | IoInterrupted
  | IoOther.
#[export] Instance IoErrorKind_eq_dec : EqDecision IoErrorKind.
Proof. solve_decision. Defined.

Record IoError := mkIo { io_kind : IoErrorKind; io_text : string }.

Definition TransportError_from_io (e : IoError) : TransportError :=
  if decide (io_kind e = IoTimedOut) then timeout_error "io" 0 else
  let retryable := match io_kind e with
                   | IoConnectionRefused | IoConnectionAborted | IoConnectionReset
                   | IoInterrupted => true
                   | _ => false
                   end in
  Connection ("IO error: " +:+ io_text e) retryable.

Definition TransportError_from_string (s : string) : TransportError := connection_error s false.

(** [TcpError] of [adapters/tcp.rs]. *)
Inductive TcpError :=
  | TcpIo (e : IoError)
  | TcpTimeout
  | TcpConnectionClosed
  | TcpPacket (e : PacketError)
  | TcpBufferOverflow
  | TcpConfig (msg : string)
  | TcpTlsRejected (msg : string).

Definition TransportError_from_tcp (e : TcpError) : TransportError :=
  match e with
  | TcpIo io => connection_error ("TCP IO error: " +:+ io_text io) true
  | TcpTimeout => connection_error "TCP connection timeout" true
  | TcpConnectionClosed => connection_error "TCP connection closed" true
  | TcpPacket p => protocol_error "packet" ("TCP packet error: " +:+ PacketError_display p)
  | TcpBufferOverflow => protocol_error "generic" "TCP buffer overflow"
  | TcpConfig msg => config_error "tcp" msg
  | TcpTlsRejected msg => connection_error msg false
  end.

(** ** Properties *)

Lemma index_suffix sub s a :
  String.index 0 sub s <> None -> String.index 0 sub (a +:+ s) <> None.
Proof.
  intros Hs. induction a as [|c a IH]; [done|]. simpl.
  destruct sub as [|c' sub]; [done|]. repeat (case_match; try done).
Qed.

(** The text the context methods append is found again. *)
Lemma contains_appended sub s a : contains sub s = true -> contains sub (a +:+ s) = true.
Proof.
  unfold contains. intros Hs. pose proof (index_suffix sub s a) as Hi.
  destruct (String.index 0 sub s); [|done]. destruct (String.index 0 sub (a +:+ s)); [done|].
  by destruct Hi.
Qed.

(** [with_session] leaves its mark, so a second call changes nothing. *)
Lemma session_marked sid reason :
  contains "session:" (reason +:+ " (session: " +:+ SessionId_display sid +:+ ")") = true.
Proof. apply contains_appended. reflexivity. Qed.

Lemma operation_marked op reason :
  contains "operation:" (reason +:+ " (operation: " +:+ op +:+ ")") = true.
Proof. apply contains_appended. reflexivity. Qed.

(** The retry policy and the context are coherent: a delay is suggested
    exactly for retryable errors; adding a session or an operation never changes
    the code, the retryability or the delay of an error, and adding either a
    second time changes nothing (an operation is only overwritten by the empty
    one). *)
Theorem error_context_is_coherent e sid sid' op op' :
  (is_Some (retry_delay e) <-> is_retryable e = true) /\
  (forall f, f = with_session sid \/ f = with_operation op ->
     error_code (f e) = error_code e /\ is_retryable (f e) = is_retryable e /\
     retry_delay (f e) = retry_delay e) /\
  with_session sid' (with_session sid e) = with_session sid e /\
  (op <> "" -> with_operation op' (with_operation op e) = with_operation op e).
Proof.
  split_and!.
  - unfold retry_delay. destruct e as [? []| | | |]; simpl; split; try done; by eexists || by intros [].
  - intros f [-> | ->]; destruct e as [reason b|p reason| | |o d]; simpl; try done;
      try (destruct (negb _); done); case_decide; done.
  - destruct e as [reason b|p reason| | |]; simpl; try done;
      destruct (contains "session:" reason) eqn:Hc; simpl; rewrite ?Hc, ?session_marked; done.
  - intros Hop. destruct e as [reason b|p reason| | |o d]; simpl; try done;
      try (destruct (contains "operation:" reason) eqn:Hc; simpl; rewrite ?Hc, ?operation_marked; done).
    case_decide; simpl; [by rewrite decide_False|by rewrite decide_False].
Qed.

Lemma error_context_witness :
  with_operation "second" (with_operation "first" (Timeout "" 5)) = Timeout "first" 5.
Proof.
  rewrite (proj2 (proj2 (proj2 (error_context_is_coherent (Timeout "" 5) 1 2 "first" "second")))).
  - reflexivity.
  - discriminate.
Defined.
