(* ===== verification/Limits.v ===== *)
(** * Resource limits and message options:
      [crates/msgtrans/src/transport/limits.rs], [transport/mod.rs]

    The builders of the per-connection limits, with their clamps, and the
    options a caller may put on one outgoing message. Durations are
    milliseconds ([write_deadline] goes through whole milliseconds). *)

From S2P Require Import Prelude Packet Errors.

(** ** Limits *)

Definition DEFAULT_WRITE_DEADLINE : Z := 30 * 1000.
Definition DEFAULT_PIPE_CAPACITY : Z := 8192.
Definition DEFAULT_OUTBOUND_CAPACITY : Z := 2048.
Definition DEFAULT_MAILBOX_CAPACITY : Z := 512.
Definition DEFAULT_MAX_PAYLOAD_SIZE : Z := DEFAULT_MAX_FRAME_SIZE.
Definition DEFAULT_MAX_EXT_HEADER_SIZE : Z := U16_MAX.

Record ConnectionLimits := mkLimits {
  buffer_bytes : Z;
  write_deadline : Z;
  pipe_capacity : Z;
  outbound_capacity : Z;
  decode : DecodeLimits
}.

Record ServerLimits := mkServerLimits {
  sl_connection : ConnectionLimits;
  sl_mailbox_capacity : Z
}.

Record ClientLimits := mkClientLimits { cl_connection : ConnectionLimits }.

(** The frame cap is derived from the two others. *)
Definition decode_limits (max_payload max_ext : Z) : DecodeLimits := {|
  max_frame_size := FIXED_HEADER_SIZE + max_ext + max_payload;
  max_payload_size := max_payload;
  max_ext_header_size := max_ext
|}.

Definition clamp_payload (size : Z) : Z := clamp 64 DEFAULT_MAX_PAYLOAD_SIZE size.
Definition clamp_ext (size : Z) : Z := Z.min size DEFAULT_MAX_EXT_HEADER_SIZE.
Definition clamp_deadline (deadline : Z) : Z := clamp 10 600000 deadline.

Definition ConnectionLimits_default : ConnectionLimits := {|
  buffer_bytes := 64 * 1024 * 1024;
  write_deadline := DEFAULT_WRITE_DEADLINE;
  pipe_capacity := DEFAULT_PIPE_CAPACITY;
  outbound_capacity := DEFAULT_OUTBOUND_CAPACITY;
  decode := decode_limits DEFAULT_MAX_PAYLOAD_SIZE DEFAULT_MAX_EXT_HEADER_SIZE
|}.

Definition ServerLimits_default : ServerLimits :=
  mkServerLimits ConnectionLimits_default DEFAULT_MAILBOX_CAPACITY.

Definition ClientLimits_default : ClientLimits := mkClientLimits ConnectionLimits_default.

(** The setters the client's and the server's builder share. *)
Definition set_buffer_bytes (n : Z) (l : ConnectionLimits) : ConnectionLimits :=
  mkLimits (clamp (64 * 1024) (1024 * 1024 * 1024) n) (write_deadline l) (pipe_capacity l)
    (outbound_capacity l) (decode l).
Definition set_write_deadline (d : Z) (l : ConnectionLimits) : ConnectionLimits :=
  mkLimits (buffer_bytes l) (clamp_deadline d) (pipe_capacity l) (outbound_capacity l) (decode l).
Definition set_pipe_capacity (n : Z) (l : ConnectionLimits) : ConnectionLimits :=
  mkLimits (buffer_bytes l) (write_deadline l) (clamp 1 65536 n) (outbound_capacity l) (decode l).
Definition set_outbound_queue_capacity (n : Z) (l : ConnectionLimits) : ConnectionLimits :=
  mkLimits (buffer_bytes l) (write_deadline l) (pipe_capacity l) (clamp 1 65536 n) (decode l).
Definition set_max_payload_size (n : Z) (l : ConnectionLimits) : ConnectionLimits :=
  mkLimits (buffer_bytes l) (write_deadline l) (pipe_capacity l) (outbound_capacity l)
    (decode_limits (clamp_payload n) (max_ext_header_size (decode l))).
Definition set_max_ext_header_size (n : Z) (l : ConnectionLimits) : ConnectionLimits :=
  mkLimits (buffer_bytes l) (write_deadline l) (pipe_capacity l) (outbound_capacity l)
    (decode_limits (max_payload_size (decode l)) (clamp_ext n)).

Definition set_mailbox_capacity (n : Z) (l : ServerLimits) : ServerLimits :=
  mkServerLimits (sl_connection l) (Z.max n 1).

(** A builder call the client's and the server's builder share. *)
Inductive connection_call :=
  | BufferBytes (n : Z) | WriteDeadline (n : Z) | PipeCapacity (n : Z)
  | OutboundQueueCapacity (n : Z) | MaxPayloadSize (n : Z) | MaxExtHeaderSize (n : Z).

Definition set_limit (c : connection_call) : ConnectionLimits -> ConnectionLimits :=
  match c with
  | BufferBytes n => set_buffer_bytes n
  | WriteDeadline n => set_write_deadline n
  | PipeCapacity n => set_pipe_capacity n
  | OutboundQueueCapacity n => set_outbound_queue_capacity n
  | MaxPayloadSize n => set_max_payload_size n
  | MaxExtHeaderSize n => set_max_ext_header_size n
  end.

Definition client_call (c : connection_call) (l : ClientLimits) : ClientLimits :=
  mkClientLimits (set_limit c (cl_connection l)).

(** The server's builder also sets the capacity of the session mailbox. *)
Inductive limit_call := OnConnection (c : connection_call) | MailboxCapacity (n : Z).

Definition apply_call (c : limit_call) (l : ServerLimits) : ServerLimits :=
  match c with
  | OnConnection c => mkServerLimits (set_limit c (sl_connection l)) (sl_mailbox_capacity l)
  | MailboxCapacity n => set_mailbox_capacity n l
  end.

Definition build_limits (calls : list limit_call) : ServerLimits :=
  foldl (fun l c => apply_call c l) ServerLimits_default calls.

Definition build_client_limits (calls : list connection_call) : ClientLimits :=
  foldl (fun l c => client_call c l) ClientLimits_default calls.

(** ** Per-message options *)

Record SendOptions := mkSendOptions {
  so_biz_type : option Z;
  so_ext_header : option bytes;
  so_compression : option CompressionType
}.

Record RequestOptions := mkRequestOptions {
  ro_send : SendOptions;
  ro_timeout : option Z
}.

Definition SendOptions_new : SendOptions := mkSendOptions None None None.
Definition so_with_biz_type (b : Z) (o : SendOptions) : SendOptions :=
  mkSendOptions (Some b) (so_ext_header o) (so_compression o).
Definition so_with_ext_header (e : bytes) (o : SendOptions) : SendOptions :=
  mkSendOptions (so_biz_type o) (Some e) (so_compression o).
Definition so_with_compression (c : CompressionType) (o : SendOptions) : SendOptions :=
  mkSendOptions (so_biz_type o) (so_ext_header o) (Some c).

(** [RequestOptions] forwards to its [SendOptions] and adds the deadline. *)
Definition RequestOptions_new : RequestOptions := mkRequestOptions SendOptions_new None.
Definition ro_with_biz_type (b : Z) (o : RequestOptions) : RequestOptions :=
  mkRequestOptions (so_with_biz_type b (ro_send o)) (ro_timeout o).
Definition ro_with_ext_header (e : bytes) (o : RequestOptions) : RequestOptions :=
  mkRequestOptions (so_with_ext_header e (ro_send o)) (ro_timeout o).
Definition ro_with_compression (c : CompressionType) (o : RequestOptions) : RequestOptions :=
  mkRequestOptions (so_with_compression c (ro_send o)) (ro_timeout o).
Definition ro_with_timeout (t : Z) (o : RequestOptions) : RequestOptions :=
  mkRequestOptions (ro_send o) (Some t).

Definition CompressionType_debug (c : CompressionType) : string :=
  match c with CNone => "None" | Zstd => "Zstd" | Zlib => "Zlib" end.

Definition apply_over `{Codecs} (o : SendOptions) (p : Packet) (default_biz : Z)
    : exec TransportError Packet :=
  let p := set_biz_type p (default default_biz (so_biz_type o)) in
  let p := match so_ext_header o with Some e => set_ext_header p e | None => p end in
  match so_compression o with
  | None | Some CNone => Done p
  | Some c =>
      map_err (fun e => config_error "compression"
                 ("failed to compress payload with " +:+ CompressionType_debug c +:+ ": "
                    +:+ PacketError_display e))
        (compress_payload (set_compression p c))
  end.

Definition apply `{Codecs} (o : SendOptions) (p : Packet) : exec TransportError Packet :=
  apply_over o p 0.

(** ** Properties *)

(** What every set of limits promises. *)
Definition legal (c : ConnectionLimits) : Prop :=
  let d := decode c in
  64 * 1024 <= buffer_bytes c <= 1024 * 1024 * 1024 /\ 10 <= write_deadline c <= 600000 /\
  1 <= pipe_capacity c <= 65536 /\ 1 <= outbound_capacity c <= 65536 /\
  64 <= max_payload_size d <= MAX_DECOMPRESSED_PAYLOAD_SIZE /\
  0 <= max_ext_header_size d <= U16_MAX /\
  max_frame_size d = FIXED_HEADER_SIZE + max_ext_header_size d + max_payload_size d.

(** The argument of the call is an unsigned integer. *)
Definition call_ok (c : connection_call) : Prop :=
  match c with
  | BufferBytes n | WriteDeadline n | PipeCapacity n | OutboundQueueCapacity n
  | MaxPayloadSize n | MaxExtHeaderSize n => 0 <= n
  end.

(** The calls of a server builder that concern the connection. *)
Definition connection_part (calls : list limit_call) : list connection_call :=
  omap (fun c => match c with OnConnection c => Some c | _ => None end) calls.

Lemma legal_set c l : call_ok c -> legal l -> legal (set_limit c l).
Proof.
  unfold legal. intros Hc Hl.
  destruct c; simpl in *; unfold clamp_deadline, clamp_payload, clamp_ext, clamp,
    DEFAULT_MAX_PAYLOAD_SIZE, DEFAULT_MAX_FRAME_SIZE, DEFAULT_MAX_EXT_HEADER_SIZE,
    MAX_DECOMPRESSED_PAYLOAD_SIZE, U16_MAX in *; lia.
Qed.

Lemma legal_foldl calls : forall l, legal l -> Forall call_ok calls ->
  legal (foldl (fun l c => set_limit c l) l calls).
Proof.
  induction calls as [|c calls IH]; intros l Hl Hok; [done|].
  inversion Hok; subst. apply IH; [by apply legal_set|done].
Qed.

Lemma client_foldl calls : forall l,
  cl_connection (foldl (fun l c => client_call c l) l calls) =
  foldl (fun l c => set_limit c l) (cl_connection l) calls.
Proof. by induction calls as [|c calls IH]; intros l; [|apply IH]. Qed.

Lemma server_foldl calls : forall l,
  sl_connection (foldl (fun l c => apply_call c l) l calls) =
  foldl (fun l c => set_limit c l) (sl_connection l) (connection_part calls).
Proof. induction calls as [|[c|n] calls IH]; intros l; [done|apply IH|].
  exact (IH (set_mailbox_capacity n l)).
Qed.

Lemma build_client_legal calls : Forall call_ok calls -> legal (cl_connection (build_client_limits calls)).
Proof.
  intros Hok. unfold build_client_limits. rewrite client_foldl.
  apply legal_foldl; [repeat split; discriminate|done].
Qed.

Lemma legal_limits_ok `{Target} l : legal l -> limits_ok (decode l).
Proof.
  unfold legal, limits_ok, in_width, U16_MAX, MAX_DECOMPRESSED_PAYLOAD_SIZE, FIXED_HEADER_SIZE.
  cbv zeta. intros Hl. destruct usize_bits_spec as [-> | ->]; lia.
Qed.

(** Whatever sequence of builder calls produced them, the limits an adapter
    receives are within the documented ranges, the same on the client's and the
    server's builder, and their derived frame cap never refuses a frame whose
    parts are allowed: any encodable packet whose ext header and payload respect
    their own caps is decoded from the stream, and never has more payload than
    decompression accepts. *)
Theorem built_limits_accept_what_they_promise `{Target} calls p rest :
  Forall call_ok (connection_part calls) -> packet_ok p ->
  let l := sl_connection (build_limits calls) in let d := decode l in
  len (payload p) <= max_payload_size d -> len (ext_header p) <= max_ext_header_size d ->
  legal l /\ l = cl_connection (build_client_limits (connection_part calls)) /\
  1 <= sl_mailbox_capacity (build_limits calls) /\
  exists w, try_encode p = Done w /\ decode_one_with (w ++ rest) d = Done (Some (p, len w)) /\
    len (payload p) <= MAX_DECOMPRESSED_PAYLOAD_SIZE.
Proof.
  intros Hok Hp l d Hpl Hext.
  assert (Heq : l = cl_connection (build_client_limits (connection_part calls))).
  { unfold l, build_limits, build_client_limits. by rewrite client_foldl, server_foldl. }
  assert (Hl : legal l) by (rewrite Heq; by apply build_client_legal).
  assert (Hmail : forall l, 1 <= sl_mailbox_capacity l ->
    1 <= sl_mailbox_capacity (foldl (fun l c => apply_call c l) l calls)).
  { clear. induction calls as [|[c|n] calls IH]; intros l Hl; [done|by apply IH|apply IH; simpl; lia]. }
  split_and!; [apply Hl..|done|by apply Hmail|]. pose proof (legal_limits_ok l Hl) as Hlim.
  unfold legal in Hl. cbv zeta in Hl. fold d in Hl, Hlim.
  destruct (decode_encoded p rest d Hlim Hp) as (w & Hw & Hlen & Hd).
  - unfold fits, total_len, FIXED_HEADER_SIZE in *. lia.
  - exists w. rewrite Hlen. split_and!; [done|done|lia].
Qed.

(** A message's options and its body never disagree. Applying options either
    fails with a configuration error, exactly when a requested compression
    fails, or yields a packet with the requested (else default) business type
    and ext header, whose payload is the original when no compression was asked
    for and otherwise decompresses back to it under the flag it carries. *)
Theorem applied_options_match_the_body `{C : Codecs} `{L : !CodecLaws C} o p biz max :
  compression (header p) = CNone -> len (payload p) <= max < 2 ^ 64 - 1 ->
  match apply_over o p biz with
  | Done q =>
      biz_type (header q) = default biz (so_biz_type o) /\
      ext_header q = default (ext_header p) (so_ext_header o) /\
      compression (header q) = default CNone (so_compression o) /\
      exists q', decompress_payload_with_limit q max = Done q' /\ payload q' = payload p
  | Throw e => exists c m, so_compression o = Some c /\ c <> CNone /\ e = Configuration "compression" m
  | Panic => False
  end.
Proof.
  intros Hc Hlen. unfold apply_over. cbv zeta.
  set (p1 := match so_ext_header o with Some e => _ | None => _ end).
  assert (Hp1 : payload p1 = payload p /\ compression (header p1) = CNone /\
    biz_type (header p1) = default biz (so_biz_type o) /\
    ext_header p1 = default (ext_header p) (so_ext_header o)).
  { unfold p1. destruct (so_ext_header o); simpl; done. }
  clearbody p1. destruct Hp1 as (Hpl & Hcp & Hb & He).
  assert (Hplain : biz_type (header p1) = default biz (so_biz_type o) /\
    ext_header p1 = default (ext_header p) (so_ext_header o) /\
    compression (header p1) = CNone /\
    exists q', decompress_payload_with_limit p1 max = Done q' /\ payload q' = payload p).
  { split_and!; try done. exists p1. unfold decompress_payload_with_limit. by rewrite decide_True. }
  assert (Hcompressed : forall c, so_compression o = Some c -> c <> CNone ->
    match map_err (fun e => config_error "compression"
                 ("failed to compress payload with " +:+ CompressionType_debug c +:+ ": "
                    +:+ PacketError_display e)) (compress_payload (set_compression p1 c)) with
    | Done q =>
      biz_type (header q) = default biz (so_biz_type o) /\
      ext_header q = default (ext_header p) (so_ext_header o) /\
      compression (header q) = c /\
      exists q', decompress_payload_with_limit q max = Done q' /\ payload q' = payload p
    | Throw e => exists c' m, Some c = Some c' /\ c' <> CNone /\ e = Configuration "compression" m
    | Panic => False
    end).
  { intros c _ Hne. destruct (compress_payload (set_compression p1 c)) as [q|e|] eqn:Hq; simpl.
    - pose proof Hq as Hq'. unfold compress_payload in Hq'. simpl in Hq'.
      rewrite decide_False in Hq' by done. exec_inv Hq'. simplify_eq. simpl.
      split_and!; [done|done|done|]. exists (set_compression p1 c).
      split; [|done]. apply compress_restores; [by simpl; rewrite Hpl|done].
    - by eexists _, _.
    - exfalso. by eapply compress_payload_no_panic. }
  destruct (so_compression o) as [[]|] eqn:Ho; try done; by apply Hcompressed.
Qed.

(** ** Concrete inputs *)

Definition sample_calls : list limit_call :=
  [OnConnection (MaxPayloadSize 0); OnConnection (MaxExtHeaderSize 100000);
   OnConnection (BufferBytes 1); MailboxCapacity 0; OnConnection (WriteDeadline 1)].

Lemma built_limits_witness :
  legal (sl_connection (build_limits sample_calls)) /\
  build_limits sample_calls = mkServerLimits (mkLimits 65536 10 8192 2048 (decode_limits 64 65535)) 1.
Proof.
  split; [|reflexivity].
  refine (proj1 (built_limits_accept_what_they_promise (H := Target64) sample_calls (one_way 1 [1; 2; 3]) [] _ _ _ _)).
  - repeat constructor; discriminate.
  - vm_compute; intuition discriminate.
  - vm_compute; discriminate.
  - vm_compute; discriminate.
Defined.

Lemma applied_options_witness :
  match apply_over (H := tag_codec) (so_with_compression Zstd SendOptions_new) (response_with_biz 1 42 [7; 7]) 42 with
  | Done q => biz_type (header q) = 42 /\ compression (header q) = Zstd
  | _ => False
  end.
Proof.
  assert (Hlen : len (payload (response_with_biz 1 42 [7; 7])) <= 100 < 2 ^ 64 - 1)
    by (change (len (payload (response_with_biz 1 42 [7; 7]))) with 2; lia).
  pose proof (applied_options_match_the_body (C := tag_codec) (L := tag_codec_laws)
    (so_with_compression Zstd SendOptions_new) (response_with_biz 1 42 [7; 7]) 42 100 eq_refl Hlen) as H.
  destruct (apply_over _ _ _) as [q|e|] eqn:Hq; [| |exact H].
  - destruct H as (Hb & _ & Hc & _). split; [exact Hb|exact Hc].
  - vm_compute in Hq. discriminate Hq.
Defined.
