(* ===== verification/Stream.v ===== *)
(** * The TCP byte stream: [crates/msgtrans/src/adapters/tcp.rs],
      [transport/memory_pool.rs]

    The pooled read buffer, the frame parser with its bounded resync, and the
    read half of the connection's event loop. A read of the socket is an
    element of a list: the theorems quantify over how the bytes were cut. *)

From S2P Require Import Prelude Packet Errors.

(** ** The buffer pool *)

Inductive BufferSize := Small | Medium | Large.

Definition BufferSize_capacity (s : BufferSize) : Z :=
  match s with Small => 1024 | Medium => 8192 | Large => 65536 end.

Definition max_cached (s : BufferSize) : Z :=
  match s with Small => 500 | Medium => 200 | Large => 50 end.

(** A [BytesMut]: its contents and the capacity it reports. *)
Record BytesMut := mkBuf { bm_bytes : bytes; bm_capacity : Z }.

Record OptimizedMemoryPool := mkPool {
  pool_small : list BytesMut;
  pool_medium : list BytesMut;
  pool_large : list BytesMut
}.

Definition pool_new : OptimizedMemoryPool := mkPool [] [] [].

Definition tier (s : BufferSize) (p : OptimizedMemoryPool) : list BytesMut :=
  match s with Small => pool_small p | Medium => pool_medium p | Large => pool_large p end.

Definition set_tier (s : BufferSize) (l : list BytesMut) (p : OptimizedMemoryPool)
    : OptimizedMemoryPool :=
  match s with
  | Small => mkPool l (pool_medium p) (pool_large p)
  | Medium => mkPool (pool_small p) l (pool_large p)
  | Large => mkPool (pool_small p) (pool_medium p) l
  end.

Definition get_buffer (s : BufferSize) (p : OptimizedMemoryPool)
    : BytesMut * OptimizedMemoryPool :=
  match tier s p with
  | b :: rest => (mkBuf [] (bm_capacity b), set_tier s rest p)
  | [] => (mkBuf [] (BufferSize_capacity s), p)
  end.

Definition return_buffer (b : BytesMut) (s : BufferSize) (p : OptimizedMemoryPool)
    : OptimizedMemoryPool :=
  if (bm_capacity b =? 0) || (10 * 1024 * 1024 <? bm_capacity b) then p
  else if len (tier s p) <? max_cached s then set_tier s (tier s p ++ [b]) p
  else p.

(** ** The read buffer *)

Definition MAX_RESYNC_SCAN_DISTANCE : Z := 4096.

Record ReadBuffer := mkRead {
  rb_buffer : bytes;
  rb_target_capacity : Z;
  rb_parsed_any : bool;
  rb_tier : BufferSize;
  rb_decode : DecodeLimits
}.

Definition tier_for (initial_capacity : Z) : BufferSize :=
  if initial_capacity <=? 1024 then Small
  else if initial_capacity <=? 8192 then Medium else Large.

Definition new_with_pool (initial_capacity : Z) (decode : DecodeLimits) (p : OptimizedMemoryPool)
    : ReadBuffer * OptimizedMemoryPool :=
  let buffer_tier := tier_for initial_capacity in
  let '(buffer, p) := get_buffer buffer_tier p in
  (mkRead (bm_bytes buffer) initial_capacity false buffer_tier decode, p).

(** Dropping the read buffer gives its memory, cleared, back to the pool;
    [capacity] is what the buffer reports at that point. *)
Definition read_buffer_drop (b : ReadBuffer) (capacity : Z) (p : OptimizedMemoryPool)
    : OptimizedMemoryPool :=
  if 0 <? capacity then return_buffer (mkBuf [] capacity) (rb_tier b) p else p.

Definition set_buffer (bs : bytes) (b : ReadBuffer) : ReadBuffer :=
  mkRead bs (rb_target_capacity b) (rb_parsed_any b) (rb_tier b) (rb_decode b).
Definition set_parsed (b : ReadBuffer) : ReadBuffer :=
  mkRead (rb_buffer b) (rb_target_capacity b) true (rb_tier b) (rb_decode b).

Section Reader.
Context `{T : Target}.

Definition is_valid_header_at (b : ReadBuffer) (offset : Z) : bool :=
  if len (rb_buffer b) <? offset + FIXED_HEADER_SIZE then false else
  let hd := take 16 (drop (Z.to_nat offset) (rb_buffer b)) in
  let at_ i := default 0 (hd !! i) in
  if negb (at_ 0%nat =? 1) then false else
  if 2 <? at_ 1%nat then false else
  if 2 <? at_ 2%nat then false else
  let ext_header_len := as_usize (be_value [at_ 8%nat; at_ 9%nat]) in
  if max_ext_header_size (rb_decode b) <? ext_header_len then false else
  let payload_len := as_usize (be_value [at_ 10%nat; at_ 11%nat; at_ 12%nat; at_ 13%nat]) in
  if max_payload_size (rb_decode b) <? payload_len then false else
  true.

(** [for offset in from..] for [n] offsets. *)
Fixpoint find_header (b : ReadBuffer) (n : nat) (from : Z) : option Z :=
  match n with
  | O => None
  | S n => if is_valid_header_at b from then Some from else find_header b n (from + 1)
  end.

(** [split_to] stays within the buffer here: the panic of an out of range
    split is kept. *)
Definition try_resync_frame (b : ReadBuffer) : exec TcpError (bool * ReadBuffer) :=
  let scan_limit := Z.min (len (rb_buffer b)) MAX_RESYNC_SCAN_DISTANCE in
  match find_header b (Z.to_nat (scan_limit - 1)) 1 with
  | Some offset =>
      '(_, rest) ← split_to (rb_buffer b) offset;
      Done (true, set_buffer rest b)
  | None =>
      if MAX_RESYNC_SCAN_DISTANCE <? len (rb_buffer b) then
        '(_, rest) ← split_to (rb_buffer b) MAX_RESYNC_SCAN_DISTANCE;
        Done (true, set_buffer rest b)
      else Done (false, b)
  end.

(** One call of the parser: the result and the buffer it leaves. [None] is
    fuel exhaustion. *)
Fixpoint parse_loop (fuel : nat) (strict : bool) (b : ReadBuffer)
    : option (exec TcpError (option Packet) * ReadBuffer) :=
  match fuel with
  | O => None
  | S fuel =>
      let limits := rb_decode b in
      match frame_len (rb_buffer b) limits with
      | Panic => Some (Panic, b)
      | Done (Some total) =>
          match split_to (E := TcpError) (rb_buffer b) total with
          | Done (frame, rest) =>
              let b := set_buffer rest b in
              match decode_exact_from frame limits with
              | Done packet => Some (Done (Some packet), set_parsed b)
              | Throw e => Some (Throw (TcpPacket e), b)
              | Panic => Some (Panic, b)
              end
          | _ => Some (Panic, b)
          end
      | Done None => Some (Done None, b)
      | Throw (FrameTooLarge d l) => Some (Throw (TcpPacket (FrameTooLarge d l)), b)
      | Throw e =>
          if strict then Some (Throw (TcpPacket e), b)
          else if negb (rb_parsed_any b)
          then Some (Throw (TcpConfig "Invalid protocol header on first packet"), b)
          else match try_resync_frame b with
               | Done (true, b) => parse_loop fuel strict b
               | Done (false, b) => Some (Throw TcpBufferOverflow, b)
               | Throw e => Some (Throw e, b)
               | Panic => Some (Panic, b)
               end
      end
  end.

Definition try_parse_next_packet (strict : bool) (b : ReadBuffer)
    : option (exec TcpError (option Packet) * ReadBuffer) :=
  parse_loop (S (length (rb_buffer b))) strict b.

(** ** The read half of the event loop *)

(** One result of [fill_from_stream]: the bytes read and the policy in force
    afterwards, the end of the stream, or an error. *)
Inductive read_event := ReadBytes (bs : bytes) (policy : FramePolicy) | ReadEof | ReadError (e : IoError).

(** Why the read half ended; [StillOpen] when the events ran out. *)
Inductive read_end := StillOpen | EndNormal | EndIo (e : IoError) | EndParse (e : TcpError) | EndPanic.

(** The inner loop: every complete packet goes to [deliver], which refuses the
    packet by number to stop the loop. *)
Fixpoint drain (fuel : nat) (deliver : nat -> bool) (n : nat) (strict : bool) (b : ReadBuffer)
    : option (list Packet * read_end * ReadBuffer) :=
  match fuel with
  | O => None
  | S fuel =>
      match try_parse_next_packet strict b with
      | None => None
      | Some (Done (Some packet), b) =>
          if deliver n then
            '(ps, e, b) ← drain fuel deliver (S n) strict b;
            Some (packet :: ps, e, b)
          else Some ([packet], EndNormal, b)
      | Some (Done None, b) => Some ([], StillOpen, b)
      | Some (Throw e, b) => Some ([], EndParse e, b)
      | Some (Panic, b) => Some ([], EndPanic, b)
      end
  end.

Definition drain_all (deliver : nat -> bool) (n : nat) (strict : bool) (b : ReadBuffer)
    : option (list Packet * read_end * ReadBuffer) :=
  drain (S (length (rb_buffer b))) deliver n strict b.

(** The read future: the packets handed to [deliver], and why it ended. *)
Fixpoint read_loop (deliver : nat -> bool) (n : nat) (evs : list read_event) (b : ReadBuffer)
    : option (list Packet * read_end) :=
  match evs with
  | [] => Some ([], StillOpen)
  | ReadEof :: _ => Some ([], EndNormal)
  | ReadError e :: _ => Some ([], EndIo e)
  | ReadBytes [] _ :: _ => Some ([], EndNormal)
  | ReadBytes bs policy :: evs =>
      let strict := bool_decide (policy = Strict) in
      '(ps, e, b) ← drain_all deliver n strict (set_buffer (rb_buffer b ++ bs) b);
      match e with
      | StillOpen =>
          '(ps', e') ← read_loop deliver (n + length ps) evs b;
          Some (ps ++ ps', e')
      | _ => Some (ps, e)
      end
  end.

(** [write_packet_to_stream]: the bytes handed to [write_all]. *)
Definition write_packet_to_stream (p : Packet) : exec TcpError bytes :=
  map_err (fun e => TcpConfig ("encode failed: " +:+ PacketError_display e)) (try_encode p).
End Reader.

(** ** What the parser sees of a buffer *)

Section Facts.
Context `{T : Target}.

Lemma bytes_ok_app (a b : bytes) : bytes_ok (a ++ b) <-> bytes_ok a /\ bytes_ok b.
Proof. apply Forall_app. Qed.

Lemma frame_layout_error_app bs x limits e :
  16 <= len bs -> frame_layout bs limits = Throw e -> frame_layout (bs ++ x) limits = Throw e.
Proof.
  intros Hge. unfold frame_layout. rewrite len_app. pose proof (len_nonneg x). zbool.
  rewrite !slice_ok by (rewrite ?len_app; lia). rewrite !exec_bind_done.
  change (drop (Z.to_nat 0) (bs ++ x)) with (bs ++ x). change (drop (Z.to_nat 0) bs) with bs.
  rewrite take_app_le by (unfold len in Hge; lia).
  destruct (FixedHeader_from_bytes _) as [[[h el] pl]|err|]; simpl; try done.
  repeat (case_match; try done).
Qed.

(** The front of a buffer is incomplete, or a whole frame, or an error; the
    last two do not depend on the bytes that follow. *)
Inductive front (bs : bytes) (limits : DecodeLimits) : Prop :=
  | front_incomplete : frame_len bs limits = Done None -> front bs limits
  | front_frame (frame rest : bytes) (p : Packet) :
      bs = frame ++ rest -> 16 <= len frame ->
      decode_exact_from frame limits = Done p ->
      (forall x, frame_len (bs ++ x) limits = Done (Some (len frame))) -> front bs limits
  | front_error (e : PacketError) :
      (forall x, frame_len (bs ++ x) limits = Throw e) -> front bs limits.

Lemma frame_of_layout h e pl rest limits :
  limits_ok limits -> header_ok h -> in_width 16 e -> in_width 32 pl ->
  pl <= max_payload_size limits -> e <= max_ext_header_size limits ->
  16 + e + pl <= max_frame_size limits -> e + pl <= len rest ->
  exists frame tail p, FixedHeader_to_bytes h e pl ++ rest = frame ++ tail /\
    len frame = 16 + e + pl /\ decode_exact_from frame limits = Done p.
Proof.
  intros Hlim Hh He Hp H1 H2 H3 Hr. unfold in_width in He, Hp.
  set (ext := take (Z.to_nat e) rest). set (body := take (Z.to_nat pl) (drop (Z.to_nat e) rest)).
  assert (Hle : len ext = e) by (unfold ext, len in *; rewrite length_take; lia).
  assert (Hlb : len body = pl) by (unfold body, len in *; rewrite length_take, length_drop; lia).
  exists (FixedHeader_to_bytes h e pl ++ ext ++ body), (drop (Z.to_nat pl) (drop (Z.to_nat e) rest)),
    (mkPacket h ext body).
  assert (Hlen : len (FixedHeader_to_bytes h e pl ++ ext ++ body) = 16 + e + pl)
    by (rewrite !len_app, FixedHeader_to_bytes_len; lia).
  split_and!; [|done|].
  - rewrite <- !app_assoc. f_equal. unfold ext, body. by rewrite !take_drop.
  - unfold decode_exact_from. change (decode_one_from ?b limits) with (decode_one_with b limits).
    pose proof (decode_body h e pl ext body [] limits) as Hd. rewrite !app_nil_r in Hd.
    rewrite Hd by (done || unfold in_width; lia). rewrite exec_bind_done. cbn [exact_of].
    rewrite Hlen. by zbool.
Qed.

Lemma front_of bs limits : limits_ok limits -> bytes_ok bs -> front bs limits.
Proof.
  intros Hlim Hok.
  destruct (header_cases bs Hok) as [Hs|[(err & _ & Hge & Herr)|(h & e & pl & rest & -> & Hh & He & Hp)]].
  - apply front_incomplete. unfold frame_len. by rewrite frame_layout_short.
  - apply (front_error _ _ err). intros x. unfold frame_len.
    by rewrite (frame_layout_error_app bs x limits err Hge (Herr limits)).
  - assert (Hspec : forall x, frame_len ((FixedHeader_to_bytes h e pl ++ rest) ++ x) limits =
      if max_payload_size limits <? pl then Throw (FrameTooLarge pl (max_payload_size limits)) else
      if max_ext_header_size limits <? e then Throw (FrameTooLarge e (max_ext_header_size limits)) else
      if max_frame_size limits <? 16 + e + pl
      then Throw (FrameTooLarge (16 + e + pl) (max_frame_size limits)) else
      if len (rest ++ x) <? e + pl then Done None else Done (Some (16 + e + pl))).
    { intros x. unfold frame_len. rewrite <- app_assoc, frame_layout_spec by done.
      by repeat case_match. }
    destruct (Z.ltb_spec (max_payload_size limits) pl); [by eapply front_error|].
    destruct (Z.ltb_spec (max_ext_header_size limits) e); [by eapply front_error|].
    destruct (Z.ltb_spec (max_frame_size limits) (16 + e + pl)); [by eapply front_error|].
    destruct (Z.ltb_spec (len rest) (e + pl)).
    + apply front_incomplete. specialize (Hspec []). rewrite !app_nil_r in Hspec. rewrite Hspec. by zbool.
    + destruct (frame_of_layout h e pl rest limits) as (frame & tail & p & Heq & Hlen & Hd); [done..|].
      apply (front_frame _ _ frame tail p); [done|unfold in_width in *; lia|done|].
      intros x. rewrite Hspec, Hlen, len_app. pose proof (len_nonneg x). by zbool.
Qed.

Lemma split_front {E} (frame rest : bytes) :
  split_to (E := E) (frame ++ rest) (len frame) = Done (frame, rest).
Proof.
  rewrite split_to_ok by (rewrite len_app; pose proof (len_nonneg frame); pose proof (len_nonneg rest); lia).
  by rewrite take_len_app, drop_len_app.
Qed.

Definition read_ok (b : ReadBuffer) : Prop := bytes_ok (rb_buffer b) /\ limits_ok (rb_decode b).

(** One iteration of the parser on each kind of front. *)
Lemma parse_incomplete f strict b :
  frame_len (rb_buffer b) (rb_decode b) = Done None ->
  parse_loop (S f) strict b = Some (Done None, b).
Proof. intros Hf. cbn [parse_loop]. by rewrite Hf. Qed.

Lemma parse_frame f strict b frame rest p :
  rb_buffer b = frame ++ rest -> decode_exact_from frame (rb_decode b) = Done p ->
  frame_len (rb_buffer b) (rb_decode b) = Done (Some (len frame)) ->
  parse_loop (S f) strict b = Some (Done (Some p), set_parsed (set_buffer rest b)).
Proof.
  intros Hb Hd Hf. cbn [parse_loop]. rewrite Hf, Hb, split_front. simpl. by rewrite Hd.
Qed.

Lemma parse_error_strict f b e :
  frame_len (rb_buffer b) (rb_decode b) = Throw e ->
  parse_loop (S f) true b = Some (Throw (TcpPacket e), b).
Proof. intros Hf. cbn [parse_loop]. rewrite Hf. by destruct e. Qed.

Lemma front_frame_len b frame rest :
  (forall x, frame_len ((frame ++ rest) ++ x) (rb_decode b) = Done (Some (len frame))) ->
  rb_buffer b = frame ++ rest -> frame_len (rb_buffer b) (rb_decode b) = Done (Some (len frame)).
Proof. intros Hx ->. rewrite <- (app_nil_r (frame ++ rest)). apply Hx. Qed.

Lemma find_header_bounds b n : forall from off,
  find_header b n from = Some off -> from <= off < from + Z.of_nat n.
Proof.
  induction n as [|n IH]; intros from off; simpl; [done|].
  destruct (is_valid_header_at b from); [intros [= <-]; lia|]. intros Hf%IH. lia.
Qed.

(** A resync drops at least one byte and never panics. *)
Lemma try_resync_frame_spec b :
  try_resync_frame b = Done (false, b) \/
  exists skipped rest, rb_buffer b = skipped ++ rest /\ 1 <= len skipped /\
    try_resync_frame b = Done (true, set_buffer rest b).
Proof.
  unfold try_resync_frame. cbv zeta.
  assert (Hcut : forall k, 1 <= k <= len (rb_buffer b) ->
    ('(_, rest) ← split_to (E := TcpError) (rb_buffer b) k; Done (true, set_buffer rest b)) =
      Done (true, set_buffer (drop (Z.to_nat k) (rb_buffer b)) b) /\
    exists skipped rest, rb_buffer b = skipped ++ rest /\ 1 <= len skipped /\
      Done (E := TcpError) (true, set_buffer (drop (Z.to_nat k) (rb_buffer b)) b) =
      Done (true, set_buffer rest b)).
  { intros k Hk. rewrite split_to_ok by lia. split; [done|].
    exists (take (Z.to_nat k) (rb_buffer b)), (drop (Z.to_nat k) (rb_buffer b)).
    rewrite take_drop. split_and!; try done. unfold len in *. rewrite length_take. lia. }
  destruct (find_header b _ 1) as [off|] eqn:Hf.
  - apply find_header_bounds in Hf.
    destruct (Hcut off) as [-> ?]; [lia|by right].
  - zcase; [|by left]. destruct (Hcut MAX_RESYNC_SCAN_DISTANCE) as [-> ?]; [|by right].
    unfold MAX_RESYNC_SCAN_DISTANCE in *. lia.
Qed.

Lemma read_ok_suffix b skipped rest :
  read_ok b -> rb_buffer b = skipped ++ rest -> read_ok (set_buffer rest b).
Proof. intros [Hb Hl] Heq. rewrite Heq in Hb. apply bytes_ok_app in Hb as [_ Hb]. by split. Qed.

(** What one call of the parser returns, under either policy. *)
Inductive parsed (strict : bool) (b : ReadBuffer)
    : exec TcpError (option Packet) * ReadBuffer -> Prop :=
  | parsed_none skipped rest :
      rb_buffer b = skipped ++ rest -> (strict = true \/ rb_parsed_any b = false -> skipped = []) ->
      parsed strict b (Done None, set_buffer rest b)
  | parsed_some skipped frame rest p :
      rb_buffer b = skipped ++ frame ++ rest -> 16 <= len frame ->
      decode_exact_from frame (rb_decode b) = Done p ->
      (strict = true \/ rb_parsed_any b = false -> skipped = []) ->
      parsed strict b (Done (Some p), set_parsed (set_buffer rest b))
  | parsed_error skipped rest e :
      rb_buffer b = skipped ++ rest -> (strict = true \/ rb_parsed_any b = false -> skipped = []) ->
      parsed strict b (Throw e, set_buffer rest b).

Lemma set_buffer_id b : set_buffer (rb_buffer b) b = b.
Proof. by destruct b. Qed.

Lemma parsed_skip strict b skipped rest res :
  rb_buffer b = skipped ++ rest -> strict = false -> rb_parsed_any b = true ->
  parsed strict (set_buffer rest b) res -> parsed strict b res.
Proof.
  intros Hb -> Hp Hres.
  assert (Hno : false = true \/ rb_parsed_any b = false -> forall l : bytes, l = [])
    by (rewrite Hp; intros []; done).
  inversion Hres as [sk2 rest2 Heq Hs|sk2 frame rest2 p Heq Hge Hd Hs|sk2 rest2 e Heq Hs]; subst res;
    cbn in Heq; rewrite Heq, app_assoc in Hb.
  - apply (parsed_none false b (skipped ++ sk2) rest2); [done|]. intros H. by apply Hno.
  - apply (parsed_some false b (skipped ++ sk2) frame rest2 p); try done. intros H. by apply Hno.
  - apply (parsed_error false b (skipped ++ sk2) rest2 e); [done|]. intros H. by apply Hno.
Qed.

Lemma parse_loop_total fuel : forall strict b,
  read_ok b -> (length (rb_buffer b) < fuel)%nat ->
  exists res, parse_loop fuel strict b = Some res /\ parsed strict b res.
Proof.
  induction fuel as [|f IH]; intros strict b Hok Hlen; [lia|].
  assert (Hself : rb_buffer b = [] ++ rb_buffer b) by done.
  destruct (front_of (rb_buffer b) (rb_decode b)) as [Hf|frame rest p Hb Hge Hd Hf|e Hf]; [apply Hok..| | |].
  - rewrite (parse_incomplete f strict b Hf). eexists. split; [done|].
    rewrite <- (set_buffer_id b) at 2. by eapply parsed_none.
  - rewrite Hb in Hf. rewrite (parse_frame f strict b frame rest p Hb Hd (front_frame_len b frame rest Hf Hb)).
    eexists. split; [done|]. by apply (parsed_some _ _ [] frame).
  - specialize (Hf []). rewrite app_nil_r in Hf.
    assert (Herr : forall x, exists res, Some (Throw (E := TcpError) (A := option Packet) x, b) = Some res /\
      parsed strict b res).
    { intros x. eexists. split; [done|]. rewrite <- (set_buffer_id b) at 2. by eapply parsed_error. }
    assert (Hgen : exists res, (if strict then Some (Throw (TcpPacket e), b)
          else if negb (rb_parsed_any b)
          then Some (Throw (TcpConfig "Invalid protocol header on first packet"), b)
          else match try_resync_frame b with
               | Done (true, b) => parse_loop f strict b
               | Done (false, b) => Some (Throw TcpBufferOverflow, b)
               | Throw e => Some (Throw e, b)
               | Panic => Some (Panic, b)
               end) = Some res /\ parsed strict b res).
    { destruct strict eqn:Hstrict; [apply Herr|]. destruct (rb_parsed_any b) eqn:Hp; [|apply Herr]. cbn [negb].
      destruct (try_resync_frame_spec b) as [->|(sk & rest & Hb & Hge & ->)]; [apply Herr|].
      assert (Hlt : (length rest < length (rb_buffer b))%nat).
      { rewrite Hb, length_app. unfold len in Hge. lia. }
      destruct (IH false (set_buffer rest b)) as (res & Hres & Hpr).
      - by eapply read_ok_suffix.
      - simpl. lia.
      - exists res. split; [done|]. by eapply parsed_skip. }
    cbn [parse_loop]. rewrite Hf. destruct e; try exact Hgen. apply Herr.
Qed.

Lemma try_parse_total strict b :
  read_ok b -> exists res, try_parse_next_packet strict b = Some res /\ parsed strict b res.
Proof. intros Hok. apply parse_loop_total; [done|lia]. Qed.
(** ** Draining a buffer *)

Definition ext (b : ReadBuffer) (x : bytes) : ReadBuffer := set_buffer (rb_buffer b ++ x) b.

Lemma ext_nil b : ext b [] = b.
Proof. unfold ext. rewrite app_nil_r. apply set_buffer_id. Qed.

Lemma ext_ext b x y : ext (ext b x) y = ext b (x ++ y).
Proof. unfold ext. simpl. by rewrite <- app_assoc. Qed.

Lemma read_ok_ext b x : read_ok b -> bytes_ok x -> read_ok (ext b x).
Proof. intros [Hb Hl] Hx. split; [|done]. by apply bytes_ok_app. Qed.

(** A packet shrinks the buffer and keeps the state readable. *)
Lemma parsed_shrinks strict b p b' :
  read_ok b -> parsed strict b (Done (Some p), b') ->
  read_ok b' /\ (length (rb_buffer b') < length (rb_buffer b))%nat.
Proof.
  intros [Hb Hl] Hp. inversion Hp as [|sk frame rest q Heq Hge Hd Hs|]; subst.
  rewrite Heq in Hb |- *. apply bytes_ok_app in Hb as [_ Hb]. apply bytes_ok_app in Hb as [_ Hb].
  split; [by split|]. simpl. rewrite !length_app. unfold len in Hge. lia.
Qed.

(** Enough fuel is any more than the length of the buffer. *)
Lemma drain_fuel f1 : forall f2 deliver n strict b, read_ok b ->
  (length (rb_buffer b) < f1)%nat -> (length (rb_buffer b) < f2)%nat ->
  drain f1 deliver n strict b = drain f2 deliver n strict b /\ is_Some (drain f1 deliver n strict b).
Proof.
  induction f1 as [|f1 IH]; intros [|f2] deliver n strict b Hok H1 H2; try lia.
  cbn [drain]. destruct (try_parse_total strict b Hok) as ([[[p|]| |] b'] & -> & Hp); try by split.
  destruct (deliver n); [|by split].
  destruct (parsed_shrinks _ _ _ _ Hok Hp) as [Hok' Hlt].
  destruct (IH f2 deliver (S n) strict b' Hok') as [-> [res Hres]]; [lia..|].
  split; [done|]. rewrite Hres. by destruct res as [[??]?].
Qed.

Lemma drain_is_all f deliver n strict b : read_ok b -> (length (rb_buffer b) < f)%nat ->
  drain f deliver n strict b = drain_all deliver n strict b.
Proof. intros Hok Hf. apply (drain_fuel f _ _ _ _ _ Hok Hf). lia. Qed.

(** The drain of a buffer, one parse at a time. *)
Lemma drain_all_step deliver n strict b res b' : read_ok b ->
  try_parse_next_packet strict b = Some (res, b') ->
  drain_all deliver n strict b =
    match res with
    | Done (Some p) =>
        if deliver n then
          '(ps, e, b) ← drain_all deliver (S n) strict b'; Some (p :: ps, e, b)
        else Some ([p], EndNormal, b')
    | Done None => Some ([], StillOpen, b')
    | Throw e => Some ([], EndParse e, b')
    | Panic => Some ([], EndPanic, b')
    end.
Proof.
  intros Hok Hp. destruct (try_parse_total strict b Hok) as (r & Hr & Hpr).
  rewrite Hp in Hr. injection Hr as <-. unfold drain_all at 1. cbn [drain]. rewrite Hp.
  destruct res as [[p|]| |]; try done. destruct (deliver n); [|done].
  destruct (parsed_shrinks _ _ _ _ Hok Hpr). by rewrite drain_is_all.
Qed.

(** Under the strict policy one call of the parser looks at one front. *)
Inductive strict_parse (b : ReadBuffer) : Prop :=
  | strict_incomplete : try_parse_next_packet true b = Some (Done None, b) -> strict_parse b
  | strict_frame frame rest p :
      rb_buffer b = frame ++ rest -> 16 <= len frame ->
      (forall x, try_parse_next_packet true (ext b x) =
         Some (Done (Some p), set_parsed (set_buffer (rest ++ x) b))) -> strict_parse b
  | strict_error e :
      (forall x, try_parse_next_packet true (ext b x) = Some (Throw (TcpPacket e), ext b x)) ->
      strict_parse b.

Lemma strict_parse_of b : read_ok b -> strict_parse b.
Proof.
  intros [Hb Hl]. unfold try_parse_next_packet.
  destruct (front_of (rb_buffer b) (rb_decode b) Hl Hb) as [Hf|frame rest p Heq Hge Hd Hf|e Hf].
  - apply strict_incomplete. by apply parse_incomplete.
  - apply (strict_frame b frame rest p); [done..|]. intros x. unfold try_parse_next_packet.
    rewrite (parse_frame _ true (ext b x) frame (rest ++ x) p); [done| |done|].
    + simpl. by rewrite Heq, <- app_assoc.
    + simpl. rewrite Heq in Hf |- *. apply Hf.
  - apply (strict_error b e). intros x. apply parse_error_strict, Hf.
Qed.

(** Draining what arrived first changes nothing to what the whole gives. *)
Lemma drain_all_ext k : forall deliver n b x, (length (rb_buffer b) < k)%nat ->
  read_ok b -> bytes_ok x ->
  exists ps e b1, drain_all deliver n true b = Some (ps, e, b1) /\ read_ok b1 /\
    match e with
    | StillOpen => drain_all deliver n true (ext b x) =
        '(ps', e', b2) ← drain_all deliver (n + length ps) true (ext b1 x); Some (ps ++ ps', e', b2)
    | _ => exists b2, drain_all deliver n true (ext b x) = Some (ps, e, b2)
    end.
Proof.
  induction k as [|k IH]; intros deliver n b x Hlen Hok Hx; [lia|].
  pose proof (read_ok_ext b x Hok Hx) as Hokx.
  destruct (strict_parse_of b Hok) as [Hp|frame rest p Hb Hge Hp|e Hp].
  - rewrite (drain_all_step deliver n true b _ b Hok Hp). exists [], StillOpen, b. split_and!; [done..|].
    rewrite Nat.add_0_r. destruct (drain_all deliver n true (ext b x)) as [[[??]?]|]; done.
  - pose proof (Hp []) as Hp0. rewrite ext_nil, app_nil_r in Hp0.
    rewrite (drain_all_step deliver n true b _ _ Hok Hp0), (drain_all_step deliver n true _ _ _ Hokx (Hp x)).
    assert (Hokr : read_ok (set_parsed (set_buffer rest b))).
    { destruct Hok as [Hok ?]. rewrite Hb in Hok. apply bytes_ok_app in Hok as [_ ?]. by split. }
    destruct (deliver n); [|by exists [p], EndNormal, (set_parsed (set_buffer rest b)); eauto].
    destruct (IH deliver (S n) (set_parsed (set_buffer rest b)) x) as (ps & e & b1 & Hd & Hok1 & He);
      [|done..|].
    { rewrite Hb, length_app in Hlen. unfold len in Hge. simpl. lia. }
    change (set_parsed (set_buffer (rest ++ x) b)) with (ext (set_parsed (set_buffer rest b)) x).
    rewrite Hd. exists (p :: ps), e, b1. split_and!; [done..|].
    destruct e; try (destruct He as [b2 ->]; by exists b2).
    rewrite He. replace (n + length (p :: ps))%nat with (S n + length ps)%nat by (simpl; lia).
    by destruct (drain_all deliver (S n + length ps) true (ext b1 x)) as [[[??]?]|].
  - pose proof (Hp []) as Hp0. rewrite ext_nil in Hp0.
    rewrite (drain_all_step deliver n true b _ _ Hok Hp0), (drain_all_step deliver n true _ _ _ Hokx (Hp x)).
    exists [], (EndParse (TcpPacket e)), b. eauto.
Qed.

Lemma read_loop_bytes deliver n c evs b : c <> [] ->
  read_loop deliver n (ReadBytes c Strict :: evs) b =
    '(ps, e, b) ← drain_all deliver n true (ext b c);
    match e with
    | StillOpen => '(ps', e') ← read_loop deliver (n + length ps) evs b; Some (ps ++ ps', e')
    | _ => Some (ps, e)
    end.
Proof. by destruct c. Qed.

(** Two reads in a row are one read. *)
Lemma read_loop_merge deliver n c1 c2 evs b :
  read_ok b -> bytes_ok c1 -> bytes_ok c2 -> c1 <> [] -> c2 <> [] ->
  read_loop deliver n (ReadBytes c1 Strict :: ReadBytes c2 Strict :: evs) b =
  read_loop deliver n (ReadBytes (c1 ++ c2) Strict :: evs) b.
Proof.
  intros Hok H1 H2 Hn1 Hn2. rewrite (read_loop_bytes _ _ c1), (read_loop_bytes _ _ (c1 ++ c2))
    by (destruct c1; done). rewrite <- ext_ext.
  destruct (drain_all_ext (S (length (rb_buffer (ext b c1)))) deliver n (ext b c1) c2)
    as (ps & e & b1 & -> & Hok1 & He); [lia|by apply read_ok_ext|done|]. cbn [mbind option_bind].
  destruct e; try (destruct He as [b2 ->]; done). rewrite He, read_loop_bytes by done.
  destruct (drain_all deliver (n + length ps) true (ext b1 c2)) as [[[ps' e'] b2]|]; [|done]. simpl.
  destruct e'; try done. rewrite length_app, Nat.add_assoc.
  destruct (read_loop _ _ evs b2) as [[??]|]; [|done]. simpl. by rewrite app_assoc.
Qed.

(** The encoding of a valid packet at the front is one frame. *)
Lemma parse_encoded strict b p w rest :
  limits_ok (rb_decode b) -> packet_ok p -> fits (rb_decode b) p -> try_encode p = Done w ->
  rb_buffer b = w ++ rest ->
  try_parse_next_packet strict b = Some (Done (Some p), set_parsed (set_buffer rest b)).
Proof.
  intros Hl Hok Hfit Hw Hb. pose proof Hfit as (Hf1 & Hf2 & Hf3).
  destruct (packet_ok_fields p Hok) as (Hh & He & Hp).
  destruct (decode_encoded p [] (rb_decode b)) as (w' & Hw' & Hlen & Hd); [done..|].
  rewrite Hw in Hw'. injection Hw' as <-. rewrite app_nil_r in Hd.
  unfold try_parse_next_packet. apply parse_frame with (frame := w); [done|..].
  - unfold decode_exact_from. change (decode_one_from ?b ?l) with (decode_one_with b l).
    rewrite Hd, exec_bind_done. simpl. rewrite Hlen. by zbool.
  - rewrite Hb, Hlen. assert (Hwe : FixedHeader_to_bytes (header p) (len (ext_header p)) (len (payload p))
      ++ ext_header p ++ payload p = w) by (rewrite try_encode_done in Hw by apply Hok; congruence).
    rewrite <- Hwe. unfold frame_len. rewrite <- app_assoc, frame_layout_spec by done. unfold total_len, FIXED_HEADER_SIZE in *.
    rewrite !len_app. pose proof (len_nonneg rest). by zbool.
Qed.

Lemma drain_encoded deliver ps : forall n b, (forall i, deliver i = true) ->
  read_ok b -> Forall packet_ok ps -> Forall (fits (rb_decode b)) ps ->
  forall ws, Forall2 (fun p w => try_encode p = Done w) ps ws -> rb_buffer b = concat ws ->
  exists b', drain_all deliver n true b = Some (ps, StillOpen, b').
Proof.
  induction ps as [|p ps IH]; intros n b Hdel Hok Hps Hfit ws Hws Hb.
  - inversion Hws; subst. simpl in Hb. exists b. rewrite (drain_all_step deliver n true b (Done None) b Hok); [done|].
    apply parse_incomplete. rewrite Hb. unfold frame_len. by rewrite frame_layout_short.
  - inversion Hws as [|? w ? ws' Hw Hws']; subst. inversion Hps; inversion Hfit; subst. simpl in Hb.
    rewrite (drain_all_step deliver n true b _ _ Hok (parse_encoded true b p w (concat ws') (proj2 Hok) H1 H5 Hw Hb)).
    rewrite Hdel.
    destruct (IH (S n) (set_parsed (set_buffer (concat ws') b)) Hdel) with (ws := ws') as [b' Hb'];
      [|done..|by rewrite Hb'; exists b'].
    destruct Hok as [Hok ?]. rewrite Hb in Hok. apply bytes_ok_app in Hok as [_ ?]. by split.
Qed.
Definition event_ok (ev : read_event) : Prop :=
  match ev with ReadBytes bs _ => bytes_ok bs | _ => True end.

Lemma parsed_keeps_ok strict b res b' : read_ok b -> parsed strict b (res, b') -> read_ok b'.
Proof.
  intros [Hb Hl] Hp. inversion Hp as [sk rest Heq|sk frame rest p Heq|sk rest e Heq]; subst;
    rewrite Heq in Hb; repeat (apply bytes_ok_app in Hb as [? Hb]); by split.
Qed.

Lemma drain_keeps_ok f : forall deliver n strict b, read_ok b -> (length (rb_buffer b) < f)%nat ->
  exists ps e b', drain f deliver n strict b = Some (ps, e, b') /\ read_ok b' /\ e <> EndPanic.
Proof.
  induction f as [|f IH]; intros deliver n strict b Hok Hf; [lia|]. cbn [drain].
  destruct (try_parse_total strict b Hok) as ([r b'] & -> & Hp).
  pose proof (parsed_keeps_ok _ _ _ _ Hok Hp) as Hok'.
  destruct r as [[p|]|e|]; [|by eauto 10..|by inversion Hp].
  destruct (deliver n); [|by eauto 10]. destruct (parsed_shrinks _ _ _ _ Hok Hp) as [_ Hlt].
  destruct (IH deliver (S n) strict b') as (ps & e & b2 & -> & ? & ?); [done|lia|]. simpl. eauto 10.
Qed.

Lemma read_loop_total evs : forall deliver n b, read_ok b -> Forall event_ok evs ->
  exists ps e, read_loop deliver n evs b = Some (ps, e) /\ e <> EndPanic.
Proof.
  induction evs as [|ev evs IH]; intros deliver n b Hok Hevs; [by exists [], StillOpen|].
  inversion Hevs as [|? ? Hev Hevs']; subst.
  destruct ev as [bs policy| |e]; [|by exists [], EndNormal|by exists [], (EndIo e)].
  destruct bs as [|x bs]; [by exists [], EndNormal|]. cbn [read_loop].
  destruct (drain_keeps_ok (S (length (rb_buffer (ext b (x :: bs))))) deliver n
    (bool_decide (policy = Strict)) (ext b (x :: bs))) as (ps & e & b' & Hd & Hok' & He);
    [by apply read_ok_ext|lia|].
  unfold drain_all. unfold ext in Hd. rewrite Hd. cbn [mbind option_bind].
  destruct e; try by eauto. destruct (IH deliver (n + length ps)%nat b' Hok' Hevs') as (ps' & e' & -> & ?).
  simpl. by eauto.
Qed.

Definition strict_reads (chunks : list bytes) : list read_event :=
  map (fun c => ReadBytes c Strict) chunks.

Lemma read_loop_chunks deliver n b evs chunks : forall c, read_ok b -> c <> [] -> bytes_ok c ->
  Forall (fun c => c <> [] /\ bytes_ok c) chunks ->
  read_loop deliver n (strict_reads (c :: chunks) ++ evs) b =
  read_loop deliver n (ReadBytes (concat (c :: chunks)) Strict :: evs) b.
Proof.
  induction chunks as [|c2 chunks IH]; intros c Hok Hne Hc Hall; [by rewrite concat_cons, app_nil_r|].
  inversion Hall as [|? ? [Hne2 Hc2] Hall']; subst.
  change (strict_reads (c :: c2 :: chunks) ++ evs)
    with (ReadBytes c Strict :: ReadBytes c2 Strict :: strict_reads chunks ++ evs).
  rewrite read_loop_merge by done.
  change (ReadBytes (c ++ c2) Strict :: strict_reads chunks ++ evs)
    with (strict_reads ((c ++ c2) :: chunks) ++ evs).
  rewrite IH; [by rewrite !concat_cons, app_assoc|done| |by apply bytes_ok_app|done].
  by destruct c.
Qed.

Lemma write_packet_done p w : write_packet_to_stream p = Done w -> try_encode p = Done w.
Proof. unfold write_packet_to_stream. destruct (try_encode p); simpl; congruence. Qed.

Lemma encoded_bytes_ok p w : packet_ok p -> bytes_ok (ext_header p) -> bytes_ok (payload p) ->
  try_encode p = Done w -> bytes_ok w.
Proof.
  intros Hok He Hp Hw. rewrite try_encode_done in Hw by apply Hok.
  assert (Hwe : FixedHeader_to_bytes (header p) (len (ext_header p)) (len (payload p))
      ++ ext_header p ++ payload p = w) by congruence.
  rewrite <- Hwe. apply bytes_ok_app. split; [|by apply bytes_ok_app].
  destruct Hok as [(Hv & Hb & _) _]. unfold FixedHeader_to_bytes. rewrite Hv.
  repeat (apply bytes_ok_app; split); try apply be_bytes_ok.
  destruct (compression (header p)), (packet_type (header p)); repeat constructor; done || apply Hb.
Qed.
End Facts.

(** ** The parser, one packet at a time *)

(** Parsing a read buffer always returns (the resync loop terminates) and
    never panics. A returned packet is the exact decoding of a contiguous frame
    of the stream; the bytes before it were skipped, which the strict policy
    and the first packet of a connection never do; what follows it stays in the
    buffer. On an incomplete frame or an error, too, only leading bytes go. *)
Theorem parse_returns_a_frame_of_the_stream `{T : Target} strict b :
  bytes_ok (rb_buffer b) -> limits_ok (rb_decode b) ->
  exists r b', try_parse_next_packet strict b = Some (r, b') /\ r <> Panic /\
    exists skipped, (strict = true \/ rb_parsed_any b = false -> skipped = []) /\
    match r with
    | Done (Some p) => exists frame, rb_buffer b = skipped ++ frame ++ rb_buffer b' /\
        decode_exact_with frame (rb_decode b) = Done p /\ 16 <= len frame
    | _ => rb_buffer b = skipped ++ rb_buffer b'
    end.
Proof.
  intros Hb Hl. destruct (try_parse_total strict b (conj Hb Hl)) as ([r b'] & Hres & Hp).
  exists r, b'. split; [done|]. inversion Hp; subst; (split; [done|]); exists skipped;
    (split; [done|]); simpl; try done. by exists frame.
Qed.

(** C13: under the strict policy how the kernel cuts the byte stream into reads
    is invisible: from any state of the buffer, for arbitrary bytes (valid or
    not) and any consumer, non-empty reads deliver the same packets and end the
    same way as a single read of their concatenation, whatever comes after.
    The loop always returns and never panics. *)
Theorem chunking_is_invisible `{T : Target} deliver n b c chunks evs
    (Hb : bytes_ok (rb_buffer b)) (Hl : limits_ok (rb_decode b))
    (Hc : Forall (fun c => c <> [] /\ bytes_ok c) (c :: chunks)) (Hevs : Forall event_ok evs) :
  read_loop deliver n (strict_reads (c :: chunks) ++ evs) b =
    read_loop deliver n (ReadBytes (concat (c :: chunks)) Strict :: evs) b /\
  exists ps e, read_loop deliver n (strict_reads (c :: chunks) ++ evs) b = Some (ps, e) /\ e <> EndPanic.
Proof.
  inversion Hc as [|? ? [Hne Hok] Hc']; subst. split; [by apply read_loop_chunks|].
  apply read_loop_total; [done|]. apply Forall_app. split; [|done].
  apply Forall_map. by apply (Forall_impl _ _ _ Hc); intros ? [].
Qed.

(** What one peer writes is what the other delivers: the encodings of any
    sequence of valid packets within the reader's limits, cut in any way into
    non-empty reads and followed by the end of the stream, are delivered as
    exactly these packets in this order, and the read half ends normally. *)
Theorem stream_delivers_the_packets `{T : Target} b ps ws chunks
    (Hb : rb_buffer b = []) (Hl : limits_ok (rb_decode b))
    (Hps : Forall (fun p => packet_ok p /\ fits (rb_decode b) p /\
                     bytes_ok (ext_header p) /\ bytes_ok (payload p)) ps)
    (Hws : Forall2 (fun p w => write_packet_to_stream p = Done w) ps ws)
    (Hcut : concat chunks = concat ws) (Hne : Forall (fun c => c <> []) chunks) :
  read_loop (fun _ => true) 0 (strict_reads chunks ++ [ReadEof]) b = Some (ps, EndNormal).
Proof.
  assert (Hok : Forall bytes_ok ws).
  { clear Hcut. induction Hws as [|p w ps ws Hw]; [done|]. inversion Hps as [|? ? (? & ? & ? & ?)]; subst.
    constructor; [|by auto]. apply write_packet_done in Hw. by eapply encoded_bytes_ok. }
  assert (Hbytes : Forall bytes_ok chunks).
  { apply Forall_concat. rewrite Hcut. by apply Forall_concat. }
  assert (Hread : forall rest, rb_buffer rest = concat ws -> rb_decode rest = rb_decode b ->
    exists b', drain_all (fun _ => true) 0 true rest = Some (ps, StillOpen, b')).
  { intros rest Hr Hd. apply (drain_encoded _ ps 0 rest) with (ws := ws); [done| |..|done].
    - split; [rewrite Hr; by apply Forall_concat|by rewrite Hd].
    - by apply (Forall_impl _ _ _ Hps); intros ? (? & ? & ? & ?).
    - rewrite Hd. by apply (Forall_impl _ _ _ Hps); intros ? (? & ? & ? & ?).
    - apply (Forall2_impl _ _ _ _ Hws). intros. by apply write_packet_done. }
  destruct chunks as [|c chunks].
  - destruct (Hread b) as [b' Hd]; [by rewrite Hb, <- Hcut|done|].
    assert (Hinc : try_parse_next_packet true b = Some (Done None, b))
      by (apply parse_incomplete; rewrite Hb; unfold frame_len; by rewrite frame_layout_short).
    rewrite (drain_all_step _ _ _ _ _ _ ltac:(by split; [rewrite Hb; constructor|]) Hinc) in Hd.
    by injection Hd as <-.
  - inversion Hne; inversion Hbytes; subst.
    rewrite read_loop_chunks; [|by split; [rewrite Hb; constructor|]|done..|].
    + rewrite read_loop_bytes by (by destruct c). rewrite Hcut.
      destruct (Hread (ext b (concat ws))) as [b' Hd]; [simpl; by rewrite Hb|done|].
      rewrite Hd. simpl. by rewrite app_nil_r.
    + by apply Forall_and.
Qed.

(** ** Witnesses *)

Definition sample_read : ReadBuffer :=
  mkRead [1; 0; 0] 8192 true Medium DecodeLimits_default.
Definition fresh_read : ReadBuffer := mkRead [] 8192 false Medium DecodeLimits_default.

Lemma parse_returns_a_frame_witness :
  exists r b', try_parse_next_packet (T := Target64) true sample_read = Some (r, b') /\ r <> Panic /\
    exists skipped, (true = true \/ true = false -> skipped = []) /\
    match r with
    | Done (Some p) => exists frame, [1; 0; 0] = skipped ++ frame ++ rb_buffer b' /\
        decode_exact_with (H := Target64) frame (rb_decode sample_read) = Done p /\ 16 <= len frame
    | _ => [1; 0; 0] = skipped ++ rb_buffer b'
    end.
Proof.
  refine (parse_returns_a_frame_of_the_stream (T := Target64) true sample_read _ _).
  - repeat constructor; done.
  - split_and!; done.
Defined.

Lemma chunking_is_invisible_witness :
  read_loop (T := Target64) (fun _ => true) 0 (strict_reads [[0; 7]; [9]] ++ [ReadEof]) sample_read =
    read_loop (T := Target64) (fun _ => true) 0 [ReadBytes [0; 7; 9] Strict; ReadEof] sample_read.
Proof.
  refine (proj1 (chunking_is_invisible (T := Target64) (fun _ => true) 0 sample_read
    [0; 7] [[9]] [ReadEof] _ _ _ _)).
  - repeat constructor; done.
  - split_and!; done.
  - repeat constructor; done.
  - repeat constructor.
Defined.

Definition sample_wire : bytes :=
  match try_encode (H := Target64) sample_packet with Done w => w | _ => [] end.

Lemma stream_delivers_the_packets_witness :
  read_loop (T := Target64) (fun _ => true) 0
    (strict_reads [take 5 sample_wire; drop 5 sample_wire ++ take 1 sample_wire; drop 1 sample_wire]
       ++ [ReadEof]) fresh_read = Some ([sample_packet; sample_packet], EndNormal).
Proof.
  refine (stream_delivers_the_packets (T := Target64) fresh_read _ [sample_wire; sample_wire] _ _ _ _ _ _ _).
  - done.
  - split_and!; done.
  - repeat constructor; try done.
  - repeat constructor.
  - done.
  - repeat constructor; done.
Defined.
