(* ===== verification/Events.v ===== *)
(** * The event backbone: [crates/msgtrans/src/event.rs], [command.rs],
      [adapters/budget.rs], [adapters/events.rs]

    The byte budget whose permits follow the bytes of a packet, and the bounded
    pipe between a connection adapter and its single consumer. An awaiting call
    is a task whose steps interleave with every other one: [deliver_step] moves
    a call to its next await point, [next_poll] is one poll of the consumer. *)

From S2P Require Import Prelude Packet Errors.

(** ** Connections and events *)

(** [ConnectionState] of [command.rs]. *)
Inductive ConnectionState :=
  | CsConnecting | CsConnected | CsClosing | CsClosed | CsPaused | CsError.

(** Addresses are their text, instants are nanoseconds. *)
Record ConnectionInfo := mkInfo {
  ci_session_id : SessionId;
  ci_local_addr : string;
  ci_peer_addr : string;
  ci_protocol : string;
  ci_state : ConnectionState;
  ci_established_at : Z;
  ci_closed_at : option Z
}.

Inductive TransportEvent :=
  | ConnectionEstablished (info : ConnectionInfo)
  | ConnectionClosed (reason : CloseReason)
  | MessageReceived (packet : Packet)
  | MessageSent (packet_id : Z)
  | ErrorEvent (error : TransportError).

Definition is_connection_event (e : TransportEvent) : bool :=
  match e with ConnectionEstablished _ | ConnectionClosed _ => true | _ => false end.
Definition is_data_event (e : TransportEvent) : bool :=
  match e with MessageReceived _ => true | _ => false end.
Definition is_error_event (e : TransportEvent) : bool :=
  match e with ErrorEvent _ => true | _ => false end.

(** ** The byte budget *)

(** The permits of one packet and how many owners of its bytes still live. *)
Record permit := mkPermit { pm_size : Z; pm_owners : nat }.

Record ByteBudget := mkBudget {
  bb_capacity : Z;
  bb_available : Z;
  bb_held : gmap nat permit
}.

Definition budget_new (capacity : Z) : ByteBudget := mkBudget capacity capacity ∅.

Definition exhausted (b : ByteBudget) : TransportError :=
  resource_error "outbound byte budget" (bb_capacity b) (bb_capacity b).

Definition charge_size `{Target} (p : Packet) : Z :=
  Z.max (saturating_add usize_bits (len (payload p)) (len (ext_header p))) 1.

(** One poll: [Done None] waits for permits; the permits are one ticket, owned
    by the payload and, when there is one, the ext header. *)
Definition charge `{Target} (p : Packet) (b : ByteBudget)
    : exec TransportError (option (nat * ByteBudget)) :=
  let size := charge_size p in
  if bb_capacity b <? size
  then Throw (resource_error "connection byte budget" size (bb_capacity b))
  else
    let n := wrap 32 size in
    if bb_available b <? n then Done None
    else
      let ticket := fresh (dom (bb_held b)) in
      let owners := if decide (ext_header p = []) then 1%nat else 2%nat in
      Done (Some (ticket,
        mkBudget (bb_capacity b) (bb_available b - n) (<[ticket := mkPermit n owners]> (bb_held b)))).

(** The last owner gives the permits back. *)
Definition drop_owner (t : nat) (b : ByteBudget) : ByteBudget :=
  match bb_held b !! t with
  | Some (mkPermit n (S (S k))) =>
      mkBudget (bb_capacity b) (bb_available b) (<[t := mkPermit n (S k)]> (bb_held b))
  | Some (mkPermit n _) => mkBudget (bb_capacity b) (bb_available b + n) (delete t (bb_held b))
  | None => b
  end.

Definition clone_owner (t : nat) (b : ByteBudget) : ByteBudget :=
  mkBudget (bb_capacity b) (bb_available b) (alter (fun pm => mkPermit (pm_size pm) (S (pm_owners pm))) t (bb_held b)).

(** Dropping a whole packet drops every owner it holds. *)
Definition drop_packet (ot : option nat) (b : ByteBudget) : ByteBudget :=
  match ot with
  | Some t =>
      match bb_held b !! t with
      | Some pm => Nat.iter (pm_owners pm) (drop_owner t) b
      | None => b
      end
  | None => b
  end.

(** ** The pipe *)

(** The sender half, the receiver half and what they share: the bounded queue
    with the tickets of its packets, and the close cell. [ep_sender] and
    [ep_receiver]: the half is alive. [ep_intake]: the receiver has not refused
    new events. *)
Record EventPipe := mkPipe {
  ep_data : list (TransportEvent * option nat);
  ep_capacity : Z;
  ep_max_payload_size : Z;
  ep_budget : ByteBudget;
  ep_close : option CloseReason;
  ep_sender : bool;
  ep_receiver : bool;
  ep_intake : bool;
  ep_close_emitted : bool
}.

Definition event_pipe_with_limit (capacity max_payload_size buffer_bytes : Z) : EventPipe :=
  mkPipe [] capacity max_payload_size (budget_new buffer_bytes) None true true true false.

Definition event_pipe (capacity : Z) : EventPipe :=
  event_pipe_with_limit capacity DEFAULT_MAX_FRAME_SIZE (64 * 1024 * 1024).

Definition set_data (d : list (TransportEvent * option nat)) (p : EventPipe) : EventPipe :=
  mkPipe d (ep_capacity p) (ep_max_payload_size p) (ep_budget p) (ep_close p) (ep_sender p)
    (ep_receiver p) (ep_intake p) (ep_close_emitted p).
Definition set_budget (b : ByteBudget) (p : EventPipe) : EventPipe :=
  mkPipe (ep_data p) (ep_capacity p) (ep_max_payload_size p) b (ep_close p) (ep_sender p)
    (ep_receiver p) (ep_intake p) (ep_close_emitted p).
Definition set_close (c : option CloseReason) (p : EventPipe) : EventPipe :=
  mkPipe (ep_data p) (ep_capacity p) (ep_max_payload_size p) (ep_budget p) c (ep_sender p)
    (ep_receiver p) (ep_intake p) (ep_close_emitted p).
Definition set_close_emitted (p : EventPipe) : EventPipe :=
  mkPipe (ep_data p) (ep_capacity p) (ep_max_payload_size p) (ep_budget p) (ep_close p) (ep_sender p)
    (ep_receiver p) (ep_intake p) true.

(** [data_rx.close()]. *)
Definition stop_intake (p : EventPipe) : EventPipe :=
  mkPipe (ep_data p) (ep_capacity p) (ep_max_payload_size p) (ep_budget p) (ep_close p) (ep_sender p)
    (ep_receiver p) false (ep_close_emitted p).

Definition drop_sender (p : EventPipe) : EventPipe :=
  mkPipe (ep_data p) (ep_capacity p) (ep_max_payload_size p) (ep_budget p) (ep_close p) false
    (ep_receiver p) (ep_intake p) (ep_close_emitted p).

(** Dropping the receiver drops what is queued. *)
Definition drop_receiver (p : EventPipe) : EventPipe :=
  mkPipe [] (ep_capacity p) (ep_max_payload_size p)
    (foldr (fun it => drop_packet it.2) (ep_budget p) (ep_data p)) (ep_close p) (ep_sender p)
    false false (ep_close_emitted p).

(** [close]: the first reason wins. *)
Definition close (reason : CloseReason) (p : EventPipe) : EventPipe :=
  match ep_close p with
  | None => set_close (Some reason) p
  | Some _ => p
  end.

(** [mpsc] [try_send]: is there room for one more event. *)
Definition has_room (p : EventPipe) : bool := ep_intake p && (len (ep_data p) <? ep_capacity p).

Definition push (e : TransportEvent) (ot : option nat) (p : EventPipe) : EventPipe :=
  set_data (ep_data p ++ [(e, ot)]) p.

Definition diagnostic (e : TransportEvent) (p : EventPipe) : EventPipe :=
  if has_room p then push e None p else p.

Section Deliver.
Context `{C : Codecs} `{T : Target}.

Definition normalize_inbound (p : Packet) (max_payload_size : Z) : exec string Packet :=
  if decide (compression (header p) = CNone) then
    if max_payload_size <? len (payload p)
    then Throw ("payload exceeds " +:+ pretty max_payload_size +:+ " bytes")
    else Done p
  else
    p ← map_err (fun e => "failed to decompress packet: " +:+ PacketError_display e)
          (decompress_payload_with_limit p max_payload_size);
    Done (set_compression p CNone).

(** Where a call of [deliver] stands: before its first poll, waiting for
    permits, waiting for room, or returned. *)
Inductive deliver_at :=
  | Deliver (e : TransportEvent)
  | Charging (p : Packet)
  | Sending (e : TransportEvent) (ticket : option nat)
  | Delivered (ok : bool).

Definition is_closed (p : EventPipe) : bool := match ep_close p with Some _ => true | None => false end.

(** Giving up on an event drops it, with its permits. *)
Definition abandon (ot : option nat) (p : EventPipe) : EventPipe * deliver_at :=
  (set_budget (drop_packet ot (ep_budget p)) p, Delivered false).

(** One step to the next await point; [None] when the call must wait. When both
    arms of a [select!] are ready, [choice] takes the close arm. *)
Definition deliver_step (choice : bool) (p : EventPipe) (at_ : deliver_at)
    : option (EventPipe * deliver_at) :=
  match at_ with
  | Deliver (MessageReceived packet) =>
      match normalize_inbound packet (ep_max_payload_size p) with
      | Done packet => Some (p, if is_closed p then Delivered false else Charging packet)
      | Throw reason => Some (close (CloseError reason) p, Delivered false)
      | Panic => None
      end
  | Deliver other => Some (p, if is_closed p then Delivered false else Sending other None)
  | Charging packet =>
      if choice && is_closed p then Some (p, Delivered false) else
      match charge packet (ep_budget p) with
      | Done (Some (t, b)) =>
          let p := set_budget b p in
          Some (if is_closed p then abandon (Some t) p else (p, Sending (MessageReceived packet) (Some t)))
      | Done None => if is_closed p then Some (p, Delivered false) else None
      | Throw error => Some (close (CloseError (TransportError_display error)) p, Delivered false)
      | Panic => None
      end
  | Sending e ot =>
      if choice && is_closed p then Some (abandon ot p) else
      if has_room p then Some (push e ot p, Delivered true) else
      if negb (ep_intake p) || is_closed p then Some (abandon ot p) else None
  | Delivered _ => None
  end.
End Deliver.

(** One poll of [EventPipeRx::next]: [None] is pending. [start] is the first
    poll of a call, which looks at the close cell before the queue. *)
Definition recv_poll (p : EventPipe) : option (option (TransportEvent * option nat) * EventPipe) :=
  match ep_data p with
  | it :: rest => Some (Some it, set_data rest p)
  | [] =>
      if negb (ep_sender p) || negb (ep_intake p) then
        if ep_close_emitted p then Some (None, p)
        else
          let reason := default (CloseError "connection ended without close") (ep_close p) in
          Some (Some (ConnectionClosed reason, None), set_close_emitted p)
      else None
  end.

Definition next_poll (start : bool) (p : EventPipe)
    : option (option (TransportEvent * option nat) * EventPipe) :=
  let p := if start && negb (ep_close_emitted p) && is_closed p then stop_intake p else p in
  match recv_poll p with
  | Some r => Some r
  | None => if negb (ep_close_emitted p) && is_closed p then recv_poll (stop_intake p) else None
  end.
