(* ===== verification/EventsProps.v ===== *)
(** * Properties of the event backbone

    A world is a pipe with the calls of [deliver] in progress, the packets the
    consumer still holds, and the history: what was accepted, which reasons were
    published, what the polls of the consumer returned. [act] performs one
    action of the adapter or the consumer; an action that is not possible leaves
    the world as it is. *)

From S2P Require Import Prelude Packet Errors Events.

(** ** Worlds *)

Record world := mkWorld {
  w_pipe : EventPipe;
  w_tasks : list deliver_at;
  w_held : gset nat;
  w_accepted : list TransportEvent;
  w_published : list CloseReason;
  w_seen : list (option TransportEvent)
}.

Inductive action :=
  | Call (e : TransportEvent)
  | StepDeliver (i : nat) (choice : bool)
  | Cancel (i : nat)
  | Diagnose (packet_id : Z)
  | Publish (reason : CloseReason)
  | DropSender
  | Poll (start : bool)
  | DropReceiver
  | DropOwner (t : nat)
  | CloneOwner (t : nat).

Definition ticket_of (at_ : deliver_at) : option nat :=
  match at_ with Sending _ ot => ot | _ => None end.

Definition returned (at_ : deliver_at) : bool :=
  match at_ with Delivered _ => true | _ => false end.

(** The effect of a step that accepts nothing. *)
Ltac effect := split_and!; cbn; first [done|assumption|by intros []].

Section Worlds.
Context `{C : Codecs} `{T : Target}.

(** What one step of a call adds to the history. *)
Definition accepts (at_ at' : deliver_at) : list TransportEvent :=
  match at_, at' with Sending e _, Delivered true => [e] | _, _ => [] end.

Definition publishes (choice : bool) (p : EventPipe) (at_ : deliver_at) : list CloseReason :=
  match at_ with
  | Deliver (MessageReceived packet) =>
      match normalize_inbound packet (ep_max_payload_size p) with
      | Throw reason => [CloseError reason]
      | _ => []
      end
  | Charging packet =>
      if choice && is_closed p then [] else
      match charge packet (ep_budget p) with
      | Throw error => [CloseError (TransportError_display error)]
      | _ => []
      end
  | _ => []
  end.

Definition with_pipe (p : EventPipe) (w : world) : world :=
  mkWorld p (w_tasks w) (w_held w) (w_accepted w) (w_published w) (w_seen w).

Definition held_after (b : ByteBudget) (t : nat) (held : gset nat) : gset nat :=
  match bb_held b !! t with Some _ => held | None => held ∖ {[t]} end.

Definition act (a : action) (w : world) : world :=
  let p := w_pipe w in
  match a with
  | Call e =>
      if ep_sender p then
        mkWorld p (w_tasks w ++ [Deliver e]) (w_held w) (w_accepted w) (w_published w) (w_seen w)
      else w
  | StepDeliver i choice =>
      match w_tasks w !! i with
      | Some at_ =>
          match deliver_step choice p at_ with
          | Some (p', at') =>
              mkWorld p' (<[i := at']> (w_tasks w)) (w_held w) (w_accepted w ++ accepts at_ at')
                (w_published w ++ publishes choice p at_) (w_seen w)
          | None => w
          end
      | None => w
      end
  | Cancel i =>
      match w_tasks w !! i with
      | Some at_ =>
          mkWorld (set_budget (drop_packet (ticket_of at_) (ep_budget p)) p)
            (<[i := Delivered false]> (w_tasks w)) (w_held w) (w_accepted w) (w_published w) (w_seen w)
      | None => w
      end
  | Diagnose packet_id =>
      if ep_sender p then
        mkWorld (diagnostic (MessageSent packet_id) p) (w_tasks w) (w_held w)
          (w_accepted w ++ (if has_room p then [MessageSent packet_id] else []))
          (w_published w) (w_seen w)
      else w
  | Publish reason =>
      if ep_sender p then
        mkWorld (close reason p) (w_tasks w) (w_held w) (w_accepted w)
          (w_published w ++ [reason]) (w_seen w)
      else w
  | DropSender => if forallb returned (w_tasks w) then with_pipe (drop_sender p) w else w
  | Poll start =>
      if ep_receiver p then
        match next_poll start p with
        | Some (it, p') =>
            mkWorld p' (w_tasks w)
              (match it with Some (_, Some t) => {[t]} ∪ w_held w | _ => w_held w end)
              (w_accepted w) (w_published w) (w_seen w ++ [fst <$> it])
        | None => w
        end
      else w
  | DropReceiver => if ep_receiver p then with_pipe (drop_receiver p) w else w
  | DropOwner t =>
      if decide (t ∈ w_held w) then
        let b := drop_owner t (ep_budget p) in
        mkWorld (set_budget b p) (w_tasks w) (held_after b t (w_held w)) (w_accepted w)
          (w_published w) (w_seen w)
      else w
  | CloneOwner t =>
      if decide (t ∈ w_held w)
      then with_pipe (set_budget (clone_owner t (ep_budget p)) p) w else w
  end.

Definition run (actions : list action) (w : world) : world := foldl (fun w a => act a w) w actions.

Definition initial (capacity max_payload_size buffer_bytes : Z) : world :=
  mkWorld (event_pipe_with_limit capacity max_payload_size buffer_bytes) [] ∅ [] [] [].

(** ** Order: accepted events, then one close *)

Definition final_reason (published : list CloseReason) : CloseReason :=
  default (CloseError "connection ended without close") (head published).

(** The part of a world that decides what the consumer sees. *)
Record ordered (w : world) : Prop := mkOrdered {
  ord_cell : ep_close (w_pipe w) = head (w_published w);
  ord_calls : ep_sender (w_pipe w) = false -> forallb returned (w_tasks w) = true;
  ord_intake : ep_receiver (w_pipe w) = true -> ep_intake (w_pipe w) = false ->
    is_closed (w_pipe w) = true;
  ord_open : ep_receiver (w_pipe w) = true -> ep_close_emitted (w_pipe w) = false ->
    exists evs, w_seen w = map Some evs /\ evs ++ map fst (ep_data (w_pipe w)) = w_accepted w;
  ord_done : ep_receiver (w_pipe w) = true -> ep_close_emitted (w_pipe w) = true ->
    (ep_sender (w_pipe w) = false \/ ep_intake (w_pipe w) = false) /\ ep_data (w_pipe w) = [] /\
    exists n, w_seen w = map Some (w_accepted w) ++
      Some (ConnectionClosed (final_reason (w_published w))) :: repeat None n
}.

Lemma has_room_intake p : ep_intake p = false -> has_room p = false.
Proof. unfold has_room. by intros ->. Qed.

(** What a step of a call does to the pipe. *)
Lemma deliver_step_effect choice p at_ p' at' :
  deliver_step choice p at_ = Some (p', at') ->
  (at_ <> Delivered true /\ at_ <> Delivered false) /\
  ep_sender p' = ep_sender p /\ ep_receiver p' = ep_receiver p /\ ep_intake p' = ep_intake p /\
  ep_close_emitted p' = ep_close_emitted p /\ ep_max_payload_size p' = ep_max_payload_size p /\
  ep_capacity p' = ep_capacity p /\
  map fst (ep_data p') = map fst (ep_data p) ++ accepts at_ at' /\
  (accepts at_ at' <> [] -> ep_intake p = true) /\
  ep_close p' = head (option_list (ep_close p) ++ publishes choice p at_).
Proof.
  assert (Hcl : forall r, ep_close (close r p) = head (option_list (ep_close p) ++ [r]) /\
    ep_data (close r p) = ep_data p /\ ep_sender (close r p) = ep_sender p /\
    ep_receiver (close r p) = ep_receiver p /\ ep_intake (close r p) = ep_intake p /\
    ep_close_emitted (close r p) = ep_close_emitted p /\ ep_capacity (close r p) = ep_capacity p /\
    ep_max_payload_size (close r p) = ep_max_payload_size p)
    by (intros r; unfold close; destruct (ep_close p) eqn:Hc; cbn; rewrite ?Hc; by split_and!).
  assert (Hs : ep_close p = head (option_list (ep_close p) ++ []))
    by (rewrite app_nil_r; by destruct (ep_close p)).
  assert (Hd : map fst (ep_data p) = map fst (ep_data p) ++ []) by by rewrite app_nil_r.
  assert (He : forall at_, accepts at_ (Delivered false) = []) by by intros [].
  unfold deliver_step, publishes, abandon. destruct at_ as [[]|q|e ot|ok]; try done; intros H.
  all: try (injection H as <- <-; destruct (is_closed p); effect).
  - destruct (normalize_inbound _ _) as [q|r|]; [| |done]; injection H as <- <-;
      [destruct (is_closed p); effect|].
    destruct (Hcl (CloseError r)) as (-> & -> & -> & -> & -> & -> & -> & ->). effect.
  - destruct (choice && is_closed p); [injection H as <- <-; effect|].
    destruct (charge q (ep_budget p)) as [[[t b]|]|err|]; [| |injection H as <- <-|done].
    + destruct (is_closed _); injection H as <- <-; effect.
    + destruct (is_closed p); [|done]. injection H as <- <-. effect.
    + destruct (Hcl (CloseError (TransportError_display err))) as (-> & -> & -> & -> & -> & -> & -> & ->).
      effect.
  - destruct (choice && is_closed p); [injection H as <- <-; effect|].
    destruct (has_room p) eqn:Hr; [|destruct (negb (ep_intake p) || is_closed p); [|done]];
      injection H as <- <-; [|effect].
    simpl. rewrite map_app. split_and!; try done. intros _. unfold has_room in Hr.
    by destruct (ep_intake p).
Qed.

Lemma next_poll_effect start p it p' :
  next_poll start p = Some (it, p') ->
  ep_sender p' = ep_sender p /\ ep_receiver p' = ep_receiver p /\ ep_close p' = ep_close p /\
  (ep_intake p' = false -> ep_intake p = false \/ is_closed p = true) /\
  (ep_intake p = false -> ep_intake p' = false) /\
  match ep_data p with
  | x :: rest => it = Some x /\ ep_data p' = rest /\ ep_close_emitted p' = ep_close_emitted p
  | [] =>
      ep_data p' = [] /\ ep_close_emitted p' = true /\ (ep_sender p' = false \/ ep_intake p' = false) /\
      it = if ep_close_emitted p then None
           else Some (ConnectionClosed (default (CloseError "connection ended without close") (ep_close p)), None)
  end.
Proof.
  unfold next_poll, recv_poll. intros H.
  destruct p as [data cap maxp bud cl snd rcv intake emitted]; cbn in *.
  destruct start, emitted, cl as [r|], data as [|x rest], snd, intake; cbn in *;
    simplify_eq; cbn; split_and!; try done; tauto.
Qed.

(** With a close published, or the adapter gone, a poll never waits. *)
Lemma next_poll_ready start p :
  (ep_close p <> None /\ (ep_close_emitted p = true -> ep_sender p = false \/ ep_intake p = false)) \/
  ep_sender p = false ->
  next_poll start p <> None.
Proof.
  unfold next_poll, recv_poll.
  destruct p as [data cap maxp bud cl snd rcv intake emitted]; cbn in *.
  destruct start, emitted, cl as [r|], data as [|x rest], snd, intake; cbn in *;
    intros [[Hc He]|H]; try done; by destruct (He eq_refl).
Qed.

Lemma all_returned (l : list deliver_at) i a :
  forallb returned l = true -> l !! i = Some a -> returned a = true.
Proof.
  intros Hl Hi. apply Is_true_eq_left, forallb_True in Hl.
  eapply Forall_lookup_1 in Hl; [|done]. by destruct (returned a).
Qed.

Lemma insert_returned (l : list deliver_at) i ok :
  forallb returned l = true -> forallb returned (<[i := Delivered ok]> l) = true.
Proof.
  intros Hl. apply Is_true_eq_true, forallb_True. apply Is_true_eq_left, forallb_True in Hl.
  by apply Forall_insert.
Qed.

Lemma head_app_some {A} (l k : list A) : l <> [] -> head (l ++ k) = head l.
Proof. by destruct l. Qed.

Lemma ordered_step i choice w : ordered w -> ordered (act (StepDeliver i choice) w).
Proof.
  intros [Hcell Hcalls Hint Hopen Hdone]. unfold act.
  destruct (w_tasks w !! i) as [at_|] eqn:Hi; [|done].
  destruct (deliver_step choice (w_pipe w) at_) as [[p' at']|] eqn:Hs; [|done].
  destruct (deliver_step_effect _ _ _ _ _ Hs) as ([Hne1 Hne2] & Hsd & Hrc & Hik & Hem & _ & _ & Hda & Hac & Hcl).
  assert (Hlive : ep_sender (w_pipe w) = true).
  { destruct (ep_sender (w_pipe w)) eqn:Hsn; [done|].
    pose proof (all_returned _ _ _ (Hcalls eq_refl) Hi). by destruct at_ as [| | |[]]. }
  assert (Hmono : is_closed (w_pipe w) = true -> is_closed p' = true).
  { unfold is_closed. rewrite Hcl. by destruct (ep_close (w_pipe w)). }
  assert (Hpub : ep_close p' = head (w_published w ++ publishes choice (w_pipe w) at_)).
  { rewrite Hcl, Hcell. by destruct (w_published w). }
  split; cbn.
  - done.
  - rewrite Hsd, Hlive. done.
  - rewrite Hrc, Hik. intros H1 H2. by apply Hmono, Hint.
  - rewrite Hrc, Hem. intros H1 H2. destruct (Hopen H1 H2) as (evs & Hseen & Hacc).
    exists evs. split; [done|]. by rewrite Hda, app_assoc, Hacc.
  - rewrite Hrc, Hem. intros H1 H2. destruct (Hdone H1 H2) as ([Hd|Hd] & Hemp & n & Hseen); [congruence|].
    assert (accepts at_ at' = []) as Hnil.
    { destruct (accepts at_ at') eqn:Ha; [done|]. rewrite Hac in Hd; done. }
    rewrite Hsd, Hik, Hnil, app_nil_r. rewrite Hnil, app_nil_r, Hemp in Hda.
    split_and!; [by right|by destruct (ep_data p')|]. exists n. rewrite Hseen. unfold final_reason.
    rewrite head_app_some; [done|]. intros Hp. specialize (Hint H1 Hd). unfold is_closed in Hint.
    by rewrite Hcell, Hp in Hint.
Qed.

Lemma ordered_poll start w : ordered w -> ordered (act (Poll start) w).
Proof.
  intros Hw. pose proof Hw as [Hcell Hcalls Hint Hopen Hdone]. unfold act.
  destruct (ep_receiver (w_pipe w)) eqn:Hr; [|exact Hw].
  destruct (next_poll start (w_pipe w)) as [[it p']|] eqn:Hp; [|exact Hw].
  destruct (next_poll_effect _ _ _ _ Hp) as (Hsd & Hrc & Hcl & Hi1 & Hi2 & Hd).
  split; cbn; rewrite ?Hsd, ?Hrc, ?Hcl; [done|done|..].
  - intros _ Hni. unfold is_closed. rewrite Hcl. destruct (Hi1 Hni) as [?|?]; [by apply Hint|done].
  - intros _ Hem. destruct (ep_data (w_pipe w)) as [|x rest].
    { destruct Hd as (_ & Hem' & _). congruence. }
    destruct Hd as (-> & Hd & He). rewrite He in Hem. destruct (Hopen eq_refl Hem) as (evs & -> & Hacc).
    exists (evs ++ [fst x]). rewrite map_app. split; [done|]. by rewrite Hd, <- app_assoc.
  - intros _ Hem. destruct (ep_data (w_pipe w)) as [|x rest].
    + destruct Hd as (Hd & _ & Hend & ->). rewrite Hsd in Hend. split_and!; [done|done|].
      destruct (ep_close_emitted (w_pipe w)) eqn:He.
      * destruct (Hdone eq_refl eq_refl) as (_ & _ & n & ->). exists (S n).
        rewrite <- app_assoc. cbn. by rewrite <- repeat_cons.
      * destruct (Hopen eq_refl eq_refl) as (evs & -> & Hacc). cbn in Hacc. rewrite app_nil_r in Hacc.
        exists 0%nat. unfold final_reason. by rewrite <- Hcell, Hacc.
    + destruct Hd as (_ & _ & He). rewrite He in Hem. destruct (Hdone eq_refl Hem) as (_ & Hnil & _). done.
Qed.

Lemma ordered_act a w : ordered w -> ordered (act a w).
Proof.
  intros Hw. destruct a; [|by apply ordered_step| | | | |by apply ordered_poll| | |].
  all: pose proof Hw as [Hcell Hcalls Hint Hopen Hdone]; unfold act.
  - destruct (ep_sender (w_pipe w)) eqn:Hs; [|exact Hw]. split; cbn; rewrite ?Hs; try assumption. done.
  - destruct (w_tasks w !! i); [|exact Hw]. split; cbn; try assumption.
    intros Hs. by apply insert_returned, Hcalls.
  - destruct (ep_sender (w_pipe w)) eqn:Hs; [|exact Hw]. unfold diagnostic.
    destruct (has_room (w_pipe w)) eqn:Hr; split; cbn; rewrite ?Hs, ?app_nil_r; try assumption; try done.
    + intros H1 H2. destruct (Hopen H1 H2) as (evs & ? & Hacc). exists evs.
      by rewrite map_app, app_assoc, Hacc.
    + intros H1 H2. destruct (Hdone H1 H2) as ([?|Hi] & _); [congruence|]. by rewrite has_room_intake in Hr.
  - destruct (ep_sender (w_pipe w)) eqn:Hs; [|exact Hw].
    unfold close. destruct (ep_close (w_pipe w)) as [r|] eqn:Hc; destruct (w_published w) as [|r' rs] eqn:Hp;
      try done; split; cbn; rewrite ?Hs, ?Hc; try assumption; try done.
    + intros H1 H2. destruct (Hdone H1 H2) as ([?|Hi] & _); [congruence|].
      specialize (Hint H1 Hi). unfold is_closed in Hint. by rewrite Hc in Hint.
  - destruct (forallb returned (w_tasks w)) eqn:Hf; [|exact Hw]. split; cbn; try assumption; try done.
    intros H1 H2. destruct (Hdone H1 H2) as (_ & ? & ?). eauto.
  - destruct (ep_receiver (w_pipe w)) eqn:Hr; [|exact Hw]. by split.
  - case_decide; [|exact Hw]. by split.
  - case_decide; [|exact Hw]. by split.
Qed.

Lemma ordered_run ls : forall w, ordered w -> ordered (run ls w).
Proof. induction ls as [|a ls IH]; intros w Hw; [done|]. by apply IH, ordered_act. Qed.

Lemma ordered_initial c m b : ordered (initial c m b).
Proof. split; try done. intros _ _. by exists []. Qed.
(** ** Memory: the permits in circulation *)

Definition sumZ (l : list Z) : Z := foldr Z.add 0 l.

#[local] Instance sumZ_perm : Proper (Permutation ==> eq) sumZ.
Proof. intros l l' Hp. induction Hp; simpl in *; lia. Qed.

Lemma sumZ_app l k : sumZ (l ++ k) = sumZ l + sumZ k.
Proof. unfold sumZ. induction l; simpl; lia. Qed.

Lemma sumZ_cons z l : sumZ (z :: l) = z + sumZ l.
Proof. done. Qed.

Lemma sumZ_nil : sumZ [] = 0.
Proof. done. Qed.

#[local] Arguments sumZ : simpl never.

Lemma sumZ_nonneg l : Forall (fun z => 0 <= z) l -> 0 <= sumZ l.
Proof. induction 1; rewrite ?sumZ_cons, ?sumZ_nil; lia. Qed.

Definition size_of (b : ByteBudget) (t : nat) : Z := from_option pm_size 0 (bb_held b !! t).

(** [tickets] are exactly the live ones, and with what is available they make
    the capacity. *)
Record books (tickets : list nat) (b : ByteBudget) : Prop := mkBooks {
  bk_nodup : NoDup tickets;
  bk_live : forall t, t ∈ tickets <-> is_Some (bb_held b !! t);
  bk_permit : forall t pm, bb_held b !! t = Some pm -> 1 <= pm_size pm /\ (1 <= pm_owners pm)%nat;
  bk_sum : bb_available b + sumZ (map (size_of b) tickets) = bb_capacity b;
  bk_avail : 0 <= bb_available b
}.

#[local] Instance books_perm : Proper (Permutation ==> eq ==> iff) books.
Proof.
  assert (forall l l' b, Permutation l l' -> books l b -> books l' b) as Hone.
  { intros l l' b Hp [Hn Hl Hpm Hs Ha]. split; try done.
    - by rewrite <- Hp.
    - intros t. by rewrite <- Hp.
    - by rewrite <- Hp. }
  intros l l' Hp b ? <-. split; by apply Hone.
Qed.

Lemma books_new c : 0 <= c -> books [] (budget_new c).
Proof.
  intros Hc. split; cbn; [constructor| | |rewrite sumZ_nil; lia|done].
  - intros t. rewrite lookup_empty. split; [by intros ?%elem_of_nil|by intros []].
  - intros t pm. by rewrite lookup_empty.
Qed.

Lemma map_size_ext b b' l :
  (forall t, t ∈ l -> bb_held b' !! t = bb_held b !! t) -> map (size_of b') l = map (size_of b) l.
Proof.
  intros H. apply map_ext_in. intros t Ht. unfold size_of. rewrite H; [done|by apply list_elem_of_In].
Qed.

Lemma books_charge l b p t b' : books l b -> bb_capacity b < 2 ^ 32 -> charge p b = Done (Some (t, b')) ->
  books (t :: l) b' /\ t ∉ l /\ size_of b' t = charge_size p /\ charge_size p <= bb_capacity b /\
  bb_capacity b' = bb_capacity b /\ (forall u, u <> t -> bb_held b' !! u = bb_held b !! u).
Proof.
  intros [Hn Hl Hpm Hs Ha] Hcap Hc. unfold charge in Hc.
  destruct (Z.ltb_spec (bb_capacity b) (charge_size p)) as [|Hle]; [done|].
  assert (Hw : wrap 32 (charge_size p) = charge_size p).
  { apply wrap_small. unfold in_width, charge_size in *. lia. }
  rewrite Hw in Hc. destruct (Z.ltb_spec (bb_available b) (charge_size p)) as [|Hav]; [done|].
  remember (fresh (dom (bb_held b))) as u eqn:Hu. injection Hc as <- <-.
  assert (Hfresh : bb_held b !! u = None).
  { apply not_elem_of_dom. rewrite Hu. apply is_fresh. }
  assert (Hnot : u ∉ l) by (rewrite Hl, Hfresh; by intros []).
  assert (Hsz : charge_size p >= 1) by (unfold charge_size; lia).
  split_and!; try done.
  - split; cbn; [by constructor| | | |lia].
    + intros x. rewrite elem_of_cons. destruct (decide (x = u)) as [->|Hne].
      * rewrite lookup_insert_eq. split; [by eauto|by left].
      * rewrite lookup_insert_ne by done. rewrite <- Hl. naive_solver.
    + intros x pm. destruct (decide (x = u)) as [->|Hne].
      * rewrite lookup_insert_eq. intros [= <-]. cbn. split; [lia|case_decide; lia].
      * rewrite lookup_insert_ne by done. apply Hpm.
    + rewrite sumZ_cons, (map_size_ext b).
      * unfold size_of at 1. cbn. rewrite lookup_insert_eq. cbn. lia.
      * intros x Hx. cbn. rewrite lookup_insert_ne; [done|]. by intros ->.
  - unfold size_of. cbn. by rewrite lookup_insert_eq.
  - intros x Hx. cbn. by rewrite lookup_insert_ne.
Qed.

(** Dropping an owner either keeps the permit or returns it. *)
Lemma books_drop_owner t l b : books (t :: l) b ->
  let b' := drop_owner t b in
  bb_capacity b' = bb_capacity b /\ (forall u, u <> t -> bb_held b' !! u = bb_held b !! u) /\
  match bb_held b' !! t with Some _ => books (t :: l) b' | None => books l b' end /\
  (forall n, bb_held b !! t = Some (mkPermit n 1) -> bb_held b' !! t = None) /\
  (forall n k, bb_held b !! t = Some (mkPermit n (S (S k))) -> bb_held b' !! t = Some (mkPermit n (S k))).
Proof.
  intros [Hn Hl Hpm Hs Ha]. cbn zeta. destruct (proj1 (Hl t) ltac:(by left)) as [[n o] Ht].
  apply NoDup_cons in Hn as [Hnot Hn]. cbn in Hs. rewrite sumZ_cons in Hs.
  unfold size_of at 1 in Hs. rewrite Ht in Hs. cbn in Hs.
  destruct (Hpm _ _ Ht) as [H1 H2]. cbn in H1, H2.
  assert (Hother : forall x, x ∈ l -> x <> t) by by intros x Hx ->.
  unfold drop_owner. rewrite Ht. destruct o as [|[|k]]; [lia|..]; cbn.
  - split_and!; [done|by intros; rewrite lookup_delete_ne| |intros; apply lookup_delete_eq|by intros; simplify_eq].
    rewrite lookup_delete_eq. split; cbn; [done| | | |lia].
    + intros x. destruct (decide (x = t)) as [->|Hne].
      * rewrite lookup_delete_eq. split; [done|by intros []].
      * rewrite lookup_delete_ne by done. rewrite <- Hl, elem_of_cons. naive_solver.
    + intros x pm Hx. apply lookup_delete_Some in Hx as [_ Hx]. by eapply Hpm.
    + rewrite (map_size_ext b); [lia|]. intros x Hx. cbn. rewrite lookup_delete_ne; [done|].
      intros ->. by apply (Hother _ Hx).
  - split_and!; [done|by intros; rewrite lookup_insert_ne| |by intros; simplify_eq|
      intros ? ? [= <- <-]; apply lookup_insert_eq].
    rewrite lookup_insert_eq. split; cbn; [by constructor| | | |lia].
    + intros x. rewrite Hl. destruct (decide (x = t)) as [->|Hne].
      * rewrite lookup_insert_eq, Ht. split; eauto.
      * by rewrite lookup_insert_ne.
    + intros x pm. destruct (decide (x = t)) as [->|Hne].
      * rewrite lookup_insert_eq. intros [= <-]. cbn. lia.
      * rewrite lookup_insert_ne by done. apply Hpm.
    + rewrite sumZ_cons. unfold size_of at 1. cbn. rewrite lookup_insert_eq. cbn.
      rewrite (map_size_ext b); [lia|].
      intros x Hx. cbn. rewrite lookup_insert_ne; [done|]. intros ->. by apply (Hother _ Hx).
Qed.

Lemma books_drop_packet t l b : books (t :: l) b ->
  let b' := drop_packet (Some t) b in
  books l b' /\ bb_capacity b' = bb_capacity b /\ (forall u, u <> t -> bb_held b' !! u = bb_held b !! u).
Proof.
  intros Hb. cbn zeta. destruct (proj1 (bk_live _ _ Hb t) ltac:(by left)) as [[n o] Ht].
  destruct (bk_permit _ _ Hb _ _ Ht) as [_ Ho]. cbn in Ho. unfold drop_packet. rewrite Ht. cbn [pm_owners].
  revert b Hb Ht. induction o as [|o IH]; intros b Hb Ht; [lia|].
  rewrite Nat.iter_succ_r.
  destruct (books_drop_owner t l b Hb) as (Hcap & Hoth & Hbk & H1 & H2). destruct o as [|k].
  - cbn. rewrite (H1 n Ht) in Hbk. by split_and!.
  - rewrite (H2 n k Ht) in Hbk. destruct (IH ltac:(lia) (drop_owner t b)) as (Hbk' & Hcap' & Hoth').
    + done.
    + by apply H2.
    + split_and!; [done|congruence|]. intros u Hu. rewrite Hoth', Hoth; done.
Qed.

Lemma books_clone_owner t l b : books l b -> books l (clone_owner t b) /\
  forall u, size_of (clone_owner t b) u = size_of b u.
Proof.
  intros [Hn Hl Hpm Hs Ha].
  assert (Hsz : forall u, size_of (clone_owner t b) u = size_of b u).
  { intros u. unfold size_of, clone_owner. cbn. destruct (decide (u = t)) as [->|Hne].
    - rewrite lookup_alter_eq. by destruct (bb_held b !! t).
    - by rewrite lookup_alter_ne. }
  split; [|done]. split; cbn; try done.
  - intros u. rewrite Hl. destruct (decide (u = t)) as [->|Hne].
    + rewrite lookup_alter_eq. by destruct (bb_held b !! t).
    + by rewrite lookup_alter_ne.
  - intros u pm. destruct (decide (u = t)) as [->|Hne].
    + rewrite lookup_alter_eq. destruct (bb_held b !! t) as [pm'|] eqn:Ht; [|done].
      intros [= <-]. cbn. destruct (Hpm _ _ Ht). lia.
    + rewrite lookup_alter_ne by done. apply Hpm.
  - by rewrite (map_ext _ (size_of b) Hsz).
Qed.

(** A queued or travelling packet is charged for, at its size. *)
Definition item_ok (b : ByteBudget) (it : TransportEvent * option nat) : Prop :=
  match it.1 with
  | MessageReceived p => exists t, it.2 = Some t /\ size_of b t = charge_size p
  | _ => it.2 = None
  end.

Definition task_ok (b : ByteBudget) (at_ : deliver_at) : Prop :=
  match at_ with Sending e ot => item_ok b (e, ot) | _ => True end.

Definition tickets (w : world) : list nat :=
  omap snd (ep_data (w_pipe w)) ++ omap ticket_of (w_tasks w) ++ elements (w_held w).

Record accounted (capacity : Z) (w : world) : Prop := mkAccounted {
  ac_books : books (tickets w) (ep_budget (w_pipe w));
  ac_capacity : bb_capacity (ep_budget (w_pipe w)) = capacity;
  ac_items : Forall (item_ok (ep_budget (w_pipe w))) (ep_data (w_pipe w));
  ac_tasks : Forall (task_ok (ep_budget (w_pipe w))) (w_tasks w)
}.

Lemma item_ok_ext b b' it : (forall t, it.2 = Some t -> size_of b' t = size_of b t) ->
  item_ok b it -> item_ok b' it.
Proof.
  unfold item_ok. intros H. destruct it.1; try done. intros (t & Ht & Hs). exists t.
  by rewrite H.
Qed.

Lemma items_ext b b' l : (forall t, t ∈ omap snd l -> size_of b' t = size_of b t) ->
  Forall (item_ok b) l -> Forall (item_ok b') l.
Proof.
  intros H Hl. apply Forall_forall. intros it Hit. apply (item_ok_ext b).
  - intros t Ht. apply H, list_elem_of_omap. eauto.
  - rewrite Forall_forall in Hl. by apply Hl.
Qed.

Lemma tasks_ext b b' l : (forall t, t ∈ omap ticket_of l -> size_of b' t = size_of b t) ->
  Forall (task_ok b) l -> Forall (task_ok b') l.
Proof.
  intros H Hl. apply Forall_forall. intros at_ Hat. rewrite Forall_forall in Hl.
  specialize (Hl _ Hat). destruct at_ as [| |e ot|]; try done. apply (item_ok_ext b); [|done].
  intros t Ht. apply H, list_elem_of_omap. eauto.
Qed.

Lemma omap_insert (l : list deliver_at) i a a' : l !! i = Some a ->
  omap ticket_of l ≡ₚ option_list (ticket_of a) ++ omap ticket_of (delete i l) /\
  omap ticket_of (<[i := a']> l) ≡ₚ option_list (ticket_of a') ++ omap ticket_of (delete i l).
Proof.
  intros Hi. rewrite delete_take_drop, !omap_app.
  assert (Hlt : (i < length l)%nat) by by eapply lookup_lt_Some.
  rewrite insert_take_drop by done. rewrite <- (take_drop_middle l i a Hi) at 1.
  rewrite !omap_app. cbn. split; destruct (ticket_of _); cbn; solve_Permutation.
Qed.

Lemma tasks_insert_ok b b' (l : list deliver_at) i at' :
  Forall (task_ok b) l ->
  (forall t, t ∈ omap ticket_of (delete i l) -> size_of b' t = size_of b t) ->
  task_ok b' at' -> Forall (task_ok b') (<[i := at']> l).
Proof.
  intros Hl Hsz Hat. destruct (decide (i < length l)%nat) as [Hi|Hi].
  - assert (Hrest : Forall (task_ok b') (delete i l))
      by (apply (tasks_ext b); [done|by apply Forall_delete]).
    rewrite insert_take_drop by done. rewrite delete_take_drop in Hrest.
    apply Forall_app in Hrest as [? ?]. apply Forall_app. split; [done|]. by constructor.
  - rewrite list_insert_ge by lia. apply (tasks_ext b); [|done]. intros t Ht. apply Hsz.
    by rewrite delete_take_drop, take_ge, drop_ge, app_nil_r by lia.
Qed.

(** What one call's step does to the books, against the other tickets [R]: the
    event it queued and the ticket it still holds account for its share. *)
Definition booked (p : EventPipe) (R : list nat) (p' : EventPipe) (at' : deliver_at) : Prop :=
  exists added, ep_data p' = ep_data p ++ added /\
    books (omap snd added ++ option_list (ticket_of at') ++ R) (ep_budget p') /\
    bb_capacity (ep_budget p') = bb_capacity (ep_budget p) /\
    (forall t, t ∈ R -> size_of (ep_budget p') t = size_of (ep_budget p) t) /\
    Forall (item_ok (ep_budget p')) added /\ task_ok (ep_budget p') at'.

Lemma booked_same p R at_ p' at' : books (option_list (ticket_of at_) ++ R) (ep_budget p) ->
  ep_data p' = ep_data p -> ep_budget p' = ep_budget p -> ticket_of at' = ticket_of at_ ->
  task_ok (ep_budget p) at' -> booked p R p' at'.
Proof. intros Hb Hd Hbu Ht Hok. exists []. rewrite Hd, Hbu, Ht, app_nil_r. by split_and!. Qed.

Lemma booked_closed p R at_ r ok : books (option_list (ticket_of at_) ++ R) (ep_budget p) ->
  ticket_of at_ = None -> booked p R (close r p) (Delivered ok).
Proof. intros Hb Ht. apply (booked_same p R at_); [done|unfold close; by destruct (ep_close p)..|done|done]. Qed.

(** The call gives up; its reservation goes back with the packet. *)
Lemma booked_abandon p R ot b : books (option_list ot ++ R) b ->
  bb_capacity b = bb_capacity (ep_budget p) ->
  (forall u, u ∈ R -> size_of b u = size_of (ep_budget p) u) ->
  booked p R (abandon ot (set_budget b p)).1 (abandon ot (set_budget b p)).2.
Proof.
  intros Hbk Hc Hsz. exists []. rewrite app_nil_r. cbn. destruct ot as [t|]; [|by split_and!].
  destruct (books_drop_packet _ _ _ Hbk) as (H1 & H2 & H3). split_and!; try done; [congruence|].
  intros u Hu. rewrite <- Hsz by done. unfold size_of. rewrite H3; [done|].
  intros ->. pose proof (bk_nodup _ _ Hbk) as Hn. by apply NoDup_cons in Hn as [? _].
Qed.

(** The step of one call, against the other tickets. *)
Lemma deliver_step_books choice p at_ p' at' R :
  deliver_step choice p at_ = Some (p', at') ->
  books (option_list (ticket_of at_) ++ R) (ep_budget p) -> task_ok (ep_budget p) at_ ->
  bb_capacity (ep_budget p) < 2 ^ 32 -> booked p R p' at'.
Proof.
  intros Hs Hb Hok Hcap.
  assert (Hgive : forall e ot, at_ = Sending e ot -> abandon ot p = (p', at') -> booked p R p' at').
  { intros e ot -> Hg. pose proof (booked_abandon p R ot (ep_budget p) Hb eq_refl ltac:(done)) as H.
    replace (set_budget (ep_budget p) p) with p in H by (by destruct p). by rewrite Hg in H. }
  unfold deliver_step in Hs. destruct at_ as [[]|q|e ot|ok]; try done.
  1,2,4,5: injection Hs as <- <-; destruct (is_closed p); by eapply booked_same.
  - destruct (normalize_inbound _ _) as [q|r|]; [| |done]; injection Hs as <- <-.
    + destruct (is_closed p); by eapply booked_same.
    + by eapply booked_closed.
  - destruct (choice && is_closed p); [injection Hs as <- <-; by eapply booked_same|].
    destruct (charge q (ep_budget p)) as [[[t b]|]|err|] eqn:Hch; [| | |done].
    + destruct (books_charge _ _ _ _ _ Hb Hcap Hch) as (Hb' & Hnot & Hsz & _ & Hc' & Hoth).
      assert (Hrest : forall u, u ∈ R -> size_of b u = size_of (ep_budget p) u).
      { intros u Hu. unfold size_of. rewrite Hoth; [done|]. by intros ->. }
      destruct (is_closed _); injection Hs as <- <-; [by apply (booked_abandon p R (Some t) b)|].
      exists []. rewrite app_nil_r. split_and!; try done. by exists t.
    + destruct (is_closed p); [|done]. injection Hs as <- <-. by eapply booked_same.
    + injection Hs as <- <-. by eapply booked_closed.
  - destruct (choice && is_closed p); [apply (Hgive e ot); congruence|].
    destruct (has_room p); [|destruct (negb (ep_intake p) || is_closed p); [|done]; apply (Hgive e ot); congruence].
    injection Hs as <- <-. cbn. exists [(e, ot)]. cbn. split_and!; try done; try (by constructor).
Qed.

Lemma accounted_initial c m b : 0 <= b -> accounted b (initial c m b).
Proof.
  intros Hb. split; [|done|constructor..]. unfold tickets, initial. cbn.
  rewrite elements_empty. by apply books_new.
Qed.

Lemma size_of_books_drop t L b : books (t :: L) b ->
  books L (drop_packet (Some t) b) /\ bb_capacity (drop_packet (Some t) b) = bb_capacity b /\
  forall u, u ∈ L -> size_of (drop_packet (Some t) b) u = size_of b u.
Proof.
  intros Hb. destruct (books_drop_packet _ _ _ Hb) as (H1 & H2 & H3). split_and!; [done..|].
  intros u Hu. unfold size_of. rewrite H3; [done|]. intros ->.
  pose proof (bk_nodup _ _ Hb) as Hn. by apply NoDup_cons in Hn as [? _].
Qed.

Lemma accounted_deliver cap i choice w : cap < 2 ^ 32 ->
  accounted cap w -> accounted cap (act (StepDeliver i choice) w).
Proof.
  intros Hcap Hw. pose proof Hw as [Hb Hc Hit Hta]. unfold act.
  destruct (w_tasks w !! i) as [at_|] eqn:Hi; [|exact Hw].
  destruct (deliver_step choice (w_pipe w) at_) as [[p' at']|] eqn:Hs; [|exact Hw].
  set (b := ep_budget (w_pipe w)) in *. destruct (omap_insert (w_tasks w) i at_ at' Hi) as [Hp1 Hp2].
  set (R := omap snd (ep_data (w_pipe w)) ++ omap ticket_of (delete i (w_tasks w)) ++ elements (w_held w)).
  assert (Hperm : tickets w ≡ₚ option_list (ticket_of at_) ++ R).
  { unfold tickets, R. rewrite Hp1. solve_Permutation. }
  destruct (deliver_step_books choice (w_pipe w) at_ p' at' R Hs) as (added & Hd & Hb' & Hc' & Hsz & Hadd & Hat').
  - by rewrite <- Hperm.
  - eapply Forall_lookup_1 in Hta; done.
  - fold b. lia.
  - split; cbn.
    + unfold tickets. cbn. rewrite Hd, Hp2, omap_app.
      eapply books_perm; [|reflexivity|exact Hb']. unfold R. solve_Permutation.
    + by rewrite Hc'.
    + rewrite Hd. apply Forall_app. split; [|done]. apply (items_ext b); [|done].
      intros t Ht. apply Hsz. unfold R. set_solver.
    + apply (tasks_insert_ok b); [done| |done]. intros t Ht. apply Hsz. unfold R. set_solver.
Qed.

(** Same queue, calls, holders and budget. *)
Lemma accounted_same cap w w' : accounted cap w ->
  ep_data (w_pipe w') = ep_data (w_pipe w) -> ep_budget (w_pipe w') = ep_budget (w_pipe w) ->
  w_tasks w' = w_tasks w -> w_held w' = w_held w -> accounted cap w'.
Proof.
  intros [Hb Hc Hit Hta] Hd Hbu Ht Hh. split; unfold tickets; rewrite ?Hd, ?Hbu, ?Ht, ?Hh; done.
Qed.

Lemma accounted_cancel cap i w : accounted cap w -> accounted cap (act (Cancel i) w).
Proof.
  intros Hw. pose proof Hw as [Hb Hc Hit Hta]. unfold act.
  destruct (w_tasks w !! i) as [at_|] eqn:Hi; [|exact Hw].
  destruct (omap_insert (w_tasks w) i at_ (Delivered false) Hi) as [Hp1 Hp2].
  set (R := omap snd (ep_data (w_pipe w)) ++ omap ticket_of (delete i (w_tasks w)) ++ elements (w_held w)).
  assert (Hperm : tickets w ≡ₚ option_list (ticket_of at_) ++ R).
  { unfold tickets, R. rewrite Hp1. solve_Permutation. }
  assert (Hdrop : books R (drop_packet (ticket_of at_) (ep_budget (w_pipe w))) /\
    bb_capacity (drop_packet (ticket_of at_) (ep_budget (w_pipe w))) = cap /\
    forall u, u ∈ R -> size_of (drop_packet (ticket_of at_) (ep_budget (w_pipe w))) u =
      size_of (ep_budget (w_pipe w)) u).
  { rewrite Hperm in Hb. destruct (ticket_of at_) as [t|]; [|by split_and!].
    destruct (size_of_books_drop _ _ _ Hb) as (? & ? & ?). split_and!; [done|congruence|done]. }
  destruct Hdrop as (Hb' & Hc' & Hsz). split; cbn.
  - unfold tickets. cbn. rewrite Hp2. eapply books_perm; [|reflexivity|exact Hb'].
    unfold R. solve_Permutation.
  - done.
  - apply (items_ext (ep_budget (w_pipe w))); [|done]. intros t Ht. apply Hsz. unfold R. set_solver.
  - apply (tasks_insert_ok (ep_budget (w_pipe w))); [done| |done].
    intros t Ht. apply Hsz. unfold R. set_solver.
Qed.

Lemma next_poll_budget start p it p' : next_poll start p = Some (it, p') -> ep_budget p' = ep_budget p.
Proof.
  unfold next_poll, recv_poll. intros H. destruct p as [data cap maxp bud cl snd rcv intake emitted]; cbn in *.
  destruct start, emitted, cl as [r|], data as [|x rest], snd, intake; cbn in *; by simplify_eq.
Qed.

Lemma accounted_poll cap start w : accounted cap w -> accounted cap (act (Poll start) w).
Proof.
  intros Hw. pose proof Hw as [Hb Hc Hit Hta]. unfold act.
  destruct (ep_receiver (w_pipe w)); [|exact Hw].
  destruct (next_poll start (w_pipe w)) as [[it p']|] eqn:Hp; [|exact Hw].
  destruct (next_poll_effect _ _ _ _ Hp) as (_ & _ & _ & _ & _ & Hd).
  pose proof (next_poll_budget _ _ _ _ Hp) as Hbu.
  destruct (ep_data (w_pipe w)) as [|[e ot] rest] eqn:Hq.
  - destruct Hd as (Hd & _ & _ & Hitem). apply (accounted_same _ w); cbn; [done|congruence|done|done|].
    subst it. by destruct (ep_close_emitted (w_pipe w)).
  - destruct Hd as (-> & Hd & _). inversion Hit as [|? ? _ Hit']; subst. split; cbn; rewrite ?Hbu; try done.
    + unfold tickets in *. cbn in *. rewrite Hq in Hb. cbn in Hb.
      destruct ot as [t|]; [|done].
      assert (Hnot : t ∉ w_held w).
      { pose proof (bk_nodup _ _ Hb) as Hn. cbn in Hn. apply NoDup_cons in Hn as [Hn _]. set_solver. }
      rewrite elements_union_singleton by done.
      eapply books_perm; [|reflexivity|exact Hb]. solve_Permutation.
Qed.

Lemma drop_queue_books (l : list (TransportEvent * option nat)) : forall R b, books (omap snd l ++ R) b ->
  let b' := foldr (fun it => drop_packet it.2) b l in
  books R b' /\ bb_capacity b' = bb_capacity b /\ forall u, u ∈ R -> size_of b' u = size_of b u.
Proof.
  induction l as [|[e ot] l IH]; intros R b Hb; cbn; [by split_and!|]. cbn in Hb.
  destruct ot as [t|]; [|by apply IH].
  assert (Hb' : books (omap snd l ++ t :: R) b)
    by (eapply books_perm; [|reflexivity|exact Hb]; solve_Permutation).
  destruct (IH _ _ Hb') as (H1 & H2 & H3). destruct (size_of_books_drop _ _ _ H1) as (H4 & H5 & H6).
  split_and!; [done|congruence|]. intros u Hu. rewrite H6, H3; [done|by right|done].
Qed.

Lemma accounted_act cap a w : cap < 2 ^ 32 -> accounted cap w -> accounted cap (act a w).
Proof.
  intros Hcap Hw. pose proof Hw as [Hb Hc Hit Hta].
  destruct a as [e|i choice|i|id|r| |start| |t|t];
    [|by apply accounted_deliver|by apply accounted_cancel| | | |by apply accounted_poll| | |]; unfold act.
  - destruct (ep_sender (w_pipe w)); [|exact Hw]. split; cbn; try done.
    + unfold tickets in *. cbn. rewrite omap_app. cbn. by rewrite app_nil_r.
    + apply Forall_app. split; [done|]. by repeat constructor.
  - destruct (ep_sender (w_pipe w)); [|exact Hw]. unfold diagnostic.
    destruct (has_room (w_pipe w)); [|by apply (accounted_same _ w)]. split; cbn; try done.
    + unfold tickets in *. cbn. rewrite omap_app. cbn. by rewrite app_nil_r.
    + apply Forall_app. split; [done|]. by repeat constructor.
  - destruct (ep_sender (w_pipe w)); [|exact Hw].
    apply (accounted_same _ w); unfold close; cbn; try done; by destruct (ep_close (w_pipe w)).
  - destruct (forallb returned (w_tasks w)); [|exact Hw]. by apply (accounted_same _ w).
  - destruct (ep_receiver (w_pipe w)); [|exact Hw]. unfold tickets in Hb.
    destruct (drop_queue_books _ _ _ Hb) as (Hb' & Hc' & Hsz). split; cbn; [|by rewrite Hc'|constructor|].
    + done.
    + apply (tasks_ext (ep_budget (w_pipe w))); [|done]. intros u Hu. apply Hsz. set_solver.
  - case_decide as Ht; [|exact Hw].
    set (R := omap snd (ep_data (w_pipe w)) ++ omap ticket_of (w_tasks w) ++ elements (w_held w ∖ {[t]})).
    assert (Hperm : elements (w_held w) ≡ₚ t :: elements (w_held w ∖ {[t]})).
    { rewrite <- elements_union_singleton by set_solver. rewrite <- union_difference_singleton_L; done. }
    assert (HR : books (t :: R) (ep_budget (w_pipe w))).
    { eapply books_perm; [|reflexivity|exact Hb]. unfold tickets, R. rewrite Hperm. solve_Permutation. }
    destruct (books_drop_owner t R _ HR) as (Hc' & Hoth & Hbk & _).
    assert (Hsz : forall u, u ∈ R -> size_of (drop_owner t (ep_budget (w_pipe w))) u = size_of (ep_budget (w_pipe w)) u).
    { intros u Hu. unfold size_of. rewrite Hoth; [done|]. intros ->.
      pose proof (bk_nodup _ _ HR) as Hn. by apply NoDup_cons in Hn as [? _]. }
    split; cbn.
    + unfold tickets, held_after. cbn.
      destruct (bb_held (drop_owner t (ep_budget (w_pipe w))) !! t); [|done].
      eapply books_perm; [|reflexivity|exact Hbk]. unfold R. rewrite Hperm. solve_Permutation.
    + by rewrite Hc'.
    + apply (items_ext (ep_budget (w_pipe w))); [|done]. intros u Hu. apply Hsz. unfold R. set_solver.
    + apply (tasks_ext (ep_budget (w_pipe w))); [|done]. intros u Hu. apply Hsz. unfold R. set_solver.
  - case_decide as Ht; [|exact Hw]. destruct (books_clone_owner t _ _ Hb) as [Hb' Hsz]. split; cbn; try done.
    + apply (items_ext (ep_budget (w_pipe w))); [|done]. intros u _. apply Hsz.
    + apply (tasks_ext (ep_budget (w_pipe w))); [|done]. intros u _. apply Hsz.
Qed.

Lemma accounted_run cap ls : cap < 2 ^ 32 -> forall w, accounted cap w -> accounted cap (run ls w).
Proof. intros Hcap. induction ls as [|a ls IH]; intros w Hw; [done|]. by apply IH, accounted_act. Qed.

(** ** What the bytes in circulation amount to *)

Definition packet_bytes (p : Packet) : Z := len (payload p) + len (ext_header p).
Definition event_bytes (e : TransportEvent) : Z :=
  match e with MessageReceived p => packet_bytes p | _ => 0 end.

Definition sending (at_ : deliver_at) : option (TransportEvent * option nat) :=
  match at_ with Sending e ot => Some (e, ot) | _ => None end.

(** The events the pipe holds: queued, or charged and waiting for room. *)
Definition in_flight (w : world) : list (TransportEvent * option nat) :=
  ep_data (w_pipe w) ++ omap sending (w_tasks w).

(** The permits of the packets the consumer still holds. *)
Definition retained (w : world) : Z :=
  sumZ (map (size_of (ep_budget (w_pipe w))) (elements (w_held w))).

Lemma books_size_le L b t : books L b -> t ∈ L -> 1 <= size_of b t <= bb_capacity b.
Proof.
  intros Hb Ht. assert (Hone : forall u, u ∈ L -> 1 <= size_of b u).
  { intros u Hu. apply (bk_live _ _ Hb) in Hu as [pm Hpm]. unfold size_of. rewrite Hpm.
    by apply (bk_permit _ _ Hb u). }
  split; [by apply Hone|].
  apply list_elem_of_split in Ht as (l1 & l2 & ->). pose proof (bk_sum _ _ Hb) as Hs.
  rewrite map_app, map_cons, sumZ_app, sumZ_cons in Hs. pose proof (bk_avail _ _ Hb).
  assert (Hnn : forall l, (forall u, u ∈ l -> 1 <= size_of b u) -> 0 <= sumZ (map (size_of b) l)).
  { intros l Hl. apply sumZ_nonneg, Forall_map, Forall_forall. intros u Hu. specialize (Hl u Hu). simpl. lia. }
  pose proof (Hnn l1 ltac:(set_solver)). pose proof (Hnn l2 ltac:(set_solver)). lia.
Qed.

Lemma flight_bytes b (l : list (TransportEvent * option nat)) :
  Forall (item_ok b) l -> (forall t, t ∈ omap snd l -> size_of b t < 2 ^ 32 - 1) ->
  sumZ (map (fun it => event_bytes it.1) l) <= sumZ (map (size_of b) (omap snd l)).
Proof.
  induction 1 as [|[e ot] l Hit Hl IH]; intros Hsz; [done|]. cbn.
  unfold item_ok in Hit. cbn in Hit. rewrite sumZ_cons.
  destruct e as [| |p| |]; [subst ot; specialize (IH Hsz); cbn; lia..| | |];
    try (subst ot; specialize (IH Hsz); cbn; lia).
  destruct Hit as (t & -> & Ht). cbn in Hsz |- *. rewrite sumZ_cons.
  specialize (IH ltac:(intros; apply Hsz; by right)). specialize (Hsz t ltac:(by left)).
  rewrite Ht in Hsz |- *. unfold charge_size, saturating_add, packet_bytes in *.
  destruct usize_bits_spec as [Hu|Hu]; rewrite Hu in *; lia.
Qed.

Lemma omap_sending (l : list deliver_at) : omap snd (omap sending l) = omap ticket_of l.
Proof. induction l as [|[| |e [t|]|] l IH]; cbn; congruence. Qed.

Lemma sending_ok b l : Forall (task_ok b) l -> Forall (item_ok b) (omap sending l).
Proof. induction 1 as [|[| |e ot|] l Hat Hl IH]; cbn; try done. by constructor. Qed.

(** ** The theorems *)

(** C15: however the adapter's calls (deliveries parked on the budget or on the
    queue, diagnostics, closes, cancellations) and the consumer's polls
    interleave, the consumer sees exactly the accepted events, in order and
    none lost, then exactly one [ConnectionClosed], which carries the first
    published reason, and nothing after it. Once a close is published or the
    adapter is gone, no poll ever waits. *)
Theorem consumer_sees_every_event_then_one_close actions capacity max_payload buffer_bytes
    (w := run actions (initial capacity max_payload buffer_bytes))
    (Hr : ep_receiver (w_pipe w) = true) :
  (exists evs rest, w_seen w = map Some evs ++ rest /\
    evs ++ map fst (ep_data (w_pipe w)) = w_accepted w /\
    (rest = [] \/ exists n, ep_data (w_pipe w) = [] /\
      rest = Some (ConnectionClosed (final_reason (w_published w))) :: repeat None n)) /\
  (w_published w <> [] \/ ep_sender (w_pipe w) = false ->
    forall start, next_poll start (w_pipe w) <> None).
Proof.
  destruct (ordered_run actions _ (ordered_initial capacity max_payload buffer_bytes))
    as [Hcell _ _ Hopen Hdone]. fold w in Hcell, Hopen, Hdone. split.
  - destruct (ep_close_emitted (w_pipe w)) eqn:He.
    + destruct (Hdone Hr eq_refl) as (_ & Hd & n & Hs). exists (w_accepted w),
        (Some (ConnectionClosed (final_reason (w_published w))) :: repeat None n).
      split; [exact Hs|]. rewrite Hd, app_nil_r. split; [done|]. right. by exists n.
    + destruct (Hopen Hr eq_refl) as (evs & Hs & Ha). exists evs, []. rewrite (app_nil_r (map Some evs)). auto.
  - intros Hend start. apply next_poll_ready. destruct Hend as [Hp|?]; [left|by right].
    split; [rewrite Hcell; by destruct (w_published w)|]. intros He. by apply Hdone.
Qed.

(** C16: the inbound byte budget bounds memory under every interleaving: the
    bytes of the packets queued or travelling, plus the permits of those the
    application still holds, never exceed the configured budget, however often
    packets are cloned, dropped or their delivery cancelled; and when nothing is
    held any more, every permit is back. *)
Theorem inbound_memory_is_bounded actions capacity max_payload buffer_bytes
    (w := run actions (initial capacity max_payload buffer_bytes))
    (Hb : 0 <= buffer_bytes <= 1024 * 1024 * 1024) :
  sumZ (map (fun it => event_bytes it.1) (in_flight w)) + retained w <= buffer_bytes /\
  (in_flight w = [] -> w_held w = ∅ -> bb_available (ep_budget (w_pipe w)) = buffer_bytes).
Proof.
  destruct (accounted_run buffer_bytes actions ltac:(lia) (initial capacity max_payload buffer_bytes))
    as [Hbk Hc Hit Hta]; [apply accounted_initial; lia|]. fold w in Hbk, Hc, Hit, Hta.
  set (b := ep_budget (w_pipe w)) in *.
  assert (Htk : tickets w = omap snd (in_flight w) ++ elements (w_held w)).
  { unfold tickets, in_flight. by rewrite omap_app, omap_sending, app_assoc. }
  rewrite Htk in Hbk. pose proof (bk_sum _ _ Hbk) as Hs. pose proof (bk_avail _ _ Hbk) as Ha. split.
  - rewrite map_app, sumZ_app in Hs. unfold retained. fold b.
    pose proof (flight_bytes b (in_flight w)) as Hf. rewrite Hc in Hs.
    assert (sumZ (map (fun it => event_bytes it.1) (in_flight w)) <=
      sumZ (map (size_of b) (omap snd (in_flight w)))); [|lia].
    apply Hf.
    + apply Forall_app. split; [done|]. by apply sending_ok.
    + intros t Ht. destruct (books_size_le _ _ t Hbk); [set_solver|]. lia.
  - intros Hn Hh. rewrite Hn, Hh, elements_empty in Hs. cbn in Hs. rewrite sumZ_nil in Hs. lia.
Qed.
End Worlds.

(** ** Witnesses *)

(** Two packets through a queue of one and a budget of four bytes: the second
    waits for the permits of the first, then for its slot; a close arrives while
    the first is queued. *)
Definition sample_actions : list action :=
  [Call (MessageReceived (one_way 1 [1; 2; 3])); StepDeliver 0 false; StepDeliver 0 false;
   StepDeliver 0 false; Call (MessageReceived (one_way 2 [4; 5; 6])); StepDeliver 1 false;
   StepDeliver 1 false; Poll true; StepDeliver 1 false; DropOwner 0; StepDeliver 1 false;
   StepDeliver 1 false; Diagnose 9; Publish CloseTimeout; Publish Normal; Poll false; Poll false;
   Poll true; Poll true].

Definition sample_world : world := run (C := tag_codec) (T := Target64) sample_actions (initial 1 100 4).

Lemma consumer_sees_witness :
  w_seen sample_world =
    [Some (MessageReceived (one_way 1 [1; 2; 3])); Some (MessageReceived (one_way 2 [4; 5; 6]));
     Some (ConnectionClosed CloseTimeout); None; None] /\
  exists evs rest, w_seen sample_world = map Some evs ++ rest /\
    evs ++ map fst (ep_data (w_pipe sample_world)) = w_accepted sample_world.
Proof.
  split; [by vm_compute|].
  destruct (proj1 (consumer_sees_every_event_then_one_close (C := tag_codec) (T := Target64)
    sample_actions 1 100 4 ltac:(vm_compute; reflexivity))) as (evs & rest & H1 & H2 & _).
  exists evs, rest. exact (conj H1 H2).
Defined.

Lemma inbound_memory_witness :
  sumZ (map (fun it => event_bytes it.1) (in_flight sample_world)) + retained sample_world <= 4.
Proof.
  refine (proj1 (inbound_memory_is_bounded (C := tag_codec) (T := Target64) sample_actions 1 100 4 _)).
  split; discriminate.
Defined.
