(* ===== verification/Registry.v ===== *)
(** * The request registry: [crates/msgtrans/src/transport/request_registry.rs]

    The request lifecycle state machine: keyed entries with a generation, the
    response waiters, the per-session runtimes, the counters and the timeout
    wheel. Every operation is one function on the registry record; concurrent
    maps are finite maps, atomics are integers of their width. The [Arc]s the
    code shares live in two heaps of the record: session runtimes (the session
    map holds locations) and one-shot response channels. *)

From S2P Require Import Prelude Packet.

(** ** Data *)

Inductive RequestDirection := Inbound | Outbound.
#[export] Instance RequestDirection_eq_dec : EqDecision RequestDirection.
Proof. solve_decision. Defined.
#[export] Instance RequestDirection_countable : Countable RequestDirection.
Proof.
  refine (inj_countable' (fun d => match d with Inbound => true | Outbound => false end)
            (fun b : bool => if b then Inbound else Outbound) _).
  by intros [].
Defined.

Record RequestKey := mkKey {
  k_session_id : option Z;
  k_request_id : Z;
  k_direction : RequestDirection
}.
#[export] Instance RequestKey_eq_dec : EqDecision RequestKey.
Proof. solve_decision. Defined.
#[export] Instance RequestKey_countable : Countable RequestKey.
Proof.
  refine (inj_countable' (fun k => (k_session_id k, k_request_id k, k_direction k))
            (fun t => mkKey (t.1.1) (t.1.2) (t.2)) _).
  by intros [].
Defined.

Definition inbound (sid : option Z) (rid : Z) : RequestKey := mkKey sid rid Inbound.
Definition outbound (sid : option Z) (rid : Z) : RequestKey := mkKey sid rid Outbound.

Inductive RequestState :=
  | Pending | Responded | TimedOut | SessionClosed | Dropped | Responding | SendFailed.
#[export] Instance RequestState_eq_dec : EqDecision RequestState.
Proof. solve_decision. Defined.

Definition RequestState_as_u8 (s : RequestState) : Z :=
  match s with
  | Pending => 0 | Responded => 1 | TimedOut => 2 | SessionClosed => 3
  | Dropped => 4 | Responding => 5 | SendFailed => 6
  end.

Definition RequestState_from_u8 (v : Z) : option RequestState :=
  match v with
  | 0 => Some Pending | 1 => Some Responded | 2 => Some TimedOut
  | 3 => Some SessionClosed | 4 => Some Dropped | 5 => Some Responding
  | 6 => Some SendFailed
  | _ => None
  end.

(** Instants and durations are nanoseconds. *)
Record RequestEntry := mkEntry {
  e_key : RequestKey;
  e_biz_type : Z;
  e_created_at : Z;
  e_deadline_at : Z;
  e_generation : Z;
  e_state : Z
}.

Definition entry_state (e : RequestEntry) : RequestState :=
  default Dropped (RequestState_from_u8 (e_state e)).

(** [compare_exchange]: the entry afterwards, and [None] on success or the
    state observed. *)
Definition try_transition (e : RequestEntry) (from to : RequestState)
    : RequestEntry * option RequestState :=
  if e_state e =? RequestState_as_u8 from
  then (mkEntry (e_key e) (e_biz_type e) (e_created_at e) (e_deadline_at e)
          (e_generation e) (RequestState_as_u8 to), None)
  else (e, Some (default Dropped (RequestState_from_u8 (e_state e)))).

Inductive MarkResult := Updated | Already (s : RequestState) | NotFound.
#[export] Instance MarkResult_eq_dec : EqDecision MarkResult.
Proof. solve_decision. Defined.

Record RequestToken := mkToken {
  t_session_id : option Z;
  t_request_id : Z;
  t_direction : RequestDirection;
  t_generation : Z
}.
#[export] Instance RequestToken_eq_dec : EqDecision RequestToken.
Proof. solve_decision. Defined.

Definition token_key (t : RequestToken) : RequestKey :=
  match t_direction t with
  | Inbound => inbound (t_session_id t) (t_request_id t)
  | Outbound => outbound (t_session_id t) (t_request_id t)
  end.

Record RequestCounters := mkCounters {
  pending_requests : Z;
  request_timeout_total : Z;
  duplicate_response_total : Z;
  session_closed_pending_total : Z;
  response_send_failed_total : Z
}.

Definition OPEN : Z := 0.
Definition CLOSING : Z := 1.

Record SessionRuntime := mkRuntime {
  rt_state : Z;
  rt_requests : gset RequestKey;
  rt_next_request_id : Z
}.

Definition SessionRuntime_new : SessionRuntime := mkRuntime OPEN ∅ 1.
Definition is_open (rt : SessionRuntime) : bool := rt_state rt =? OPEN.
Definition begin_close (rt : SessionRuntime) : SessionRuntime :=
  mkRuntime CLOSING (rt_requests rt) (rt_next_request_id rt).

(** A one-shot response channel, seen by the receiver: still waiting, holding
    the response, or abandoned by its sender. *)
Inductive Chan := ChanWaiting | ChanSent (p : Packet) | ChanClosed.

Record RequestRegistry := mkRegistry {
  entries : gmap RequestKey RequestEntry;
  waiters : gmap RequestKey nat;
  sessions : gmap Z nat;
  counters : RequestCounters;
  buckets : list (list RequestKey);
  bucket_count : Z;
  tick_duration : Z;
  current_tick : Z;
  next_id : Z;
  next_generation : Z;
  (* heaps *)
  runtimes : gmap nat SessionRuntime;
  next_runtime : nat;
  chans : gmap nat Chan;
  next_chan : nat
}.

(** ** Field updates *)

Definition upd_entries (f : gmap RequestKey RequestEntry -> gmap RequestKey RequestEntry)
    (r : RequestRegistry) : RequestRegistry :=
  mkRegistry (f (entries r)) (waiters r) (sessions r) (counters r) (buckets r)
    (bucket_count r) (tick_duration r) (current_tick r) (next_id r) (next_generation r)
    (runtimes r) (next_runtime r) (chans r) (next_chan r).
Definition upd_sessions (f : gmap Z nat -> gmap Z nat) (r : RequestRegistry) : RequestRegistry :=
  mkRegistry (entries r) (waiters r) (f (sessions r)) (counters r) (buckets r)
    (bucket_count r) (tick_duration r) (current_tick r) (next_id r) (next_generation r)
    (runtimes r) (next_runtime r) (chans r) (next_chan r).
Definition upd_counters (f : RequestCounters -> RequestCounters) (r : RequestRegistry)
    : RequestRegistry :=
  mkRegistry (entries r) (waiters r) (sessions r) (f (counters r)) (buckets r)
    (bucket_count r) (tick_duration r) (current_tick r) (next_id r) (next_generation r)
    (runtimes r) (next_runtime r) (chans r) (next_chan r).
Definition upd_buckets (f : list (list RequestKey) -> list (list RequestKey))
    (r : RequestRegistry) : RequestRegistry :=
  mkRegistry (entries r) (waiters r) (sessions r) (counters r) (f (buckets r))
    (bucket_count r) (tick_duration r) (current_tick r) (next_id r) (next_generation r)
    (runtimes r) (next_runtime r) (chans r) (next_chan r).
Definition set_current_tick (t : Z) (r : RequestRegistry) : RequestRegistry :=
  mkRegistry (entries r) (waiters r) (sessions r) (counters r) (buckets r)
    (bucket_count r) (tick_duration r) t (next_id r) (next_generation r)
    (runtimes r) (next_runtime r) (chans r) (next_chan r).
Definition set_next_id (i : Z) (r : RequestRegistry) : RequestRegistry :=
  mkRegistry (entries r) (waiters r) (sessions r) (counters r) (buckets r)
    (bucket_count r) (tick_duration r) (current_tick r) i (next_generation r)
    (runtimes r) (next_runtime r) (chans r) (next_chan r).
Definition set_next_generation (g : Z) (r : RequestRegistry) : RequestRegistry :=
  mkRegistry (entries r) (waiters r) (sessions r) (counters r) (buckets r)
    (bucket_count r) (tick_duration r) (current_tick r) (next_id r) g
    (runtimes r) (next_runtime r) (chans r) (next_chan r).
Definition upd_runtimes (f : gmap nat SessionRuntime -> gmap nat SessionRuntime)
    (r : RequestRegistry) : RequestRegistry :=
  mkRegistry (entries r) (waiters r) (sessions r) (counters r) (buckets r)
    (bucket_count r) (tick_duration r) (current_tick r) (next_id r) (next_generation r)
    (f (runtimes r)) (next_runtime r) (chans r) (next_chan r).
Definition set_waiters (w : gmap RequestKey nat) (c : gmap nat Chan) (n : nat)
    (r : RequestRegistry) : RequestRegistry :=
  mkRegistry (entries r) w (sessions r) (counters r) (buckets r)
    (bucket_count r) (tick_duration r) (current_tick r) (next_id r) (next_generation r)
    (runtimes r) (next_runtime r) c n.
Definition alloc_runtime (rt : SessionRuntime) (r : RequestRegistry)
    : nat * RequestRegistry :=
  (next_runtime r,
   mkRegistry (entries r) (waiters r) (sessions r) (counters r) (buckets r)
     (bucket_count r) (tick_duration r) (current_tick r) (next_id r) (next_generation r)
     (<[next_runtime r := rt]> (runtimes r)) (S (next_runtime r)) (chans r) (next_chan r)).

(** Relaxed [fetch_add]/[fetch_sub] on the 64-bit counters wrap. *)
Definition pending_add : RequestRegistry -> RequestRegistry :=
  upd_counters (fun c => mkCounters (wrap 64 (pending_requests c + 1)) (request_timeout_total c)
    (duplicate_response_total c) (session_closed_pending_total c) (response_send_failed_total c)).
Definition pending_sub : RequestRegistry -> RequestRegistry :=
  upd_counters (fun c => mkCounters (wrap 64 (pending_requests c - 1)) (request_timeout_total c)
    (duplicate_response_total c) (session_closed_pending_total c) (response_send_failed_total c)).
Definition timeout_inc : RequestRegistry -> RequestRegistry :=
  upd_counters (fun c => mkCounters (pending_requests c) (wrap 64 (request_timeout_total c + 1))
    (duplicate_response_total c) (session_closed_pending_total c) (response_send_failed_total c)).
Definition duplicate_inc : RequestRegistry -> RequestRegistry :=
  upd_counters (fun c => mkCounters (pending_requests c) (request_timeout_total c)
    (wrap 64 (duplicate_response_total c + 1)) (session_closed_pending_total c)
    (response_send_failed_total c)).
Definition session_closed_add (n : Z) : RequestRegistry -> RequestRegistry :=
  upd_counters (fun c => mkCounters (pending_requests c) (request_timeout_total c)
    (duplicate_response_total c) (wrap 64 (session_closed_pending_total c + n))
    (response_send_failed_total c)).
Definition send_failed_inc : RequestRegistry -> RequestRegistry :=
  upd_counters (fun c => mkCounters (pending_requests c) (request_timeout_total c)
    (duplicate_response_total c) (session_closed_pending_total c)
    (wrap 64 (response_send_failed_total c + 1))).

(** ** The waiter map and its channels *)

(** Dropping the sender of [key], if there is one: the receiver of a channel
    still waiting observes the closure. *)
Definition close_chan (c : nat) (m : gmap nat Chan) : gmap nat Chan :=
  match m !! c with
  | Some ChanWaiting => <[c := ChanClosed]> m
  | _ => m
  end.

Definition waiters_remove_drop (key : RequestKey) (r : RequestRegistry) : RequestRegistry :=
  match waiters r !! key with
  | Some c => set_waiters (delete key (waiters r)) (close_chan c (chans r)) (next_chan r) r
  | None => r
  end.

(** [waiters.insert(key, tx)] with a fresh channel: a sender it replaces is
    dropped. *)
Definition waiters_insert_new (key : RequestKey) (r : RequestRegistry)
    : nat * RequestRegistry :=
  let c := next_chan r in
  let m := match waiters r !! key with
           | Some old => close_chan old (chans r)
           | None => chans r
           end in
  (c, set_waiters (<[key := c]> (waiters r)) (<[c := ChanWaiting]> m) (S c) r).

(** [waiters.remove(&key)] followed by [tx.send(packet)]. *)
Definition waiters_take_send (key : RequestKey) (p : Packet) (r : RequestRegistry)
    : RequestRegistry :=
  match waiters r !! key with
  | Some c =>
      set_waiters (delete key (waiters r))
        (match chans r !! c with
         | Some ChanWaiting => <[c := ChanSent p]> (chans r)
         | _ => chans r
         end) (next_chan r) r
  | None => r
  end.

(** ** Construction and sessions *)

Definition DEFAULT_TIMEOUT_BUCKET_COUNT : Z := 256.
Definition DEFAULT_TIMEOUT_TICK : Z := 100 * 1000000.
Definition REQUEST_LIFECYCLE_TIMEOUT : Z := 30 * 1000000000.

Definition new_with_timing (n tick : Z) : RequestRegistry :=
  let safe_bucket_count := Z.max n 8 in
  let safe_tick := if tick =? 0 then DEFAULT_TIMEOUT_TICK else tick in
  mkRegistry ∅ ∅ ∅ (mkCounters 0 0 0 0 0)
    (replicate (Z.to_nat safe_bucket_count) []) safe_bucket_count safe_tick
    0 1 1 ∅ 0 ∅ 0.

Definition registry_new : RequestRegistry :=
  new_with_timing DEFAULT_TIMEOUT_BUCKET_COUNT DEFAULT_TIMEOUT_TICK.

Definition new_with_start_id (start_id : Z) : RequestRegistry :=
  set_next_id start_id registry_new.

Definition runtime_of (r : RequestRegistry) (sid : Z) : option (nat * SessionRuntime) :=
  l ← sessions r !! sid; rt ← runtimes r !! l; Some (l, rt).

Definition open_session (sid : Z) (r : RequestRegistry) : RequestRegistry :=
  match sessions r !! sid with
  | Some _ => r
  | None =>
      let '(l, r) := alloc_runtime SessionRuntime_new r in
      upd_sessions (insert sid l) r
  end.

Definition next_oneway_id (r : RequestRegistry) : Z * RequestRegistry :=
  (next_id r, set_next_id (wrap 32 (next_id r + 1)) r).

Definition next_request_id (sid : option Z) (r : RequestRegistry)
    : option Z * RequestRegistry :=
  match sid with
  | None => let '(i, r) := next_oneway_id r in (Some i, r)
  | Some sid =>
      match runtime_of r sid with
      | None => (None, r)
      | Some (l, rt) =>
          if negb (is_open rt) then (None, r) else
          let cur := rt_next_request_id rt in
          if cur =? U32_MAX then (None, r)
          else (Some cur, upd_runtimes
                  (insert l (mkRuntime (rt_state rt) (rt_requests rt) (cur + 1))) r)
      end
  end.

(** ** Removal and scheduling *)

(** [rt.requests.remove(&key)], when the session still has a runtime. *)
Definition runtime_unlink (key : RequestKey) (r : RequestRegistry) : RequestRegistry :=
  match k_session_id key with
  | None => r
  | Some sid =>
      match runtime_of r sid with
      | None => r
      | Some (l, rt) =>
          upd_runtimes (insert l
            (mkRuntime (rt_state rt) (rt_requests rt ∖ {[key]}) (rt_next_request_id rt))) r
      end
  end.

Definition remove_terminal_entry (key : RequestKey) (r : RequestRegistry) : RequestRegistry :=
  runtime_unlink key (upd_entries (delete key) r).

Definition set_entry (key : RequestKey) (e : RequestEntry) : RequestRegistry -> RequestRegistry :=
  upd_entries (insert key e).

Definition bucket_index `{Target} (r : RequestRegistry) (tick : Z) : nat :=
  Z.to_nat (as_usize tick mod bucket_count r).

(** [now] is the reading of the clock taken inside the function. *)
Definition schedule_for_deadline `{Target} (key : RequestKey) (deadline_at now : Z)
    (r : RequestRegistry) : RequestRegistry :=
  let ticks_from_now :=
    if deadline_at <=? now then 1
    else Z.max (wrap 64 (div_ceil (deadline_at - now) (tick_duration r))) 1 in
  let target_tick := saturating_add 64 (current_tick r) ticks_from_now in
  upd_buckets (alter (fun b => b ++ [key]) (bucket_index r target_tick)) r.

(** ** Registration

    [register_impl] is the composition of its atomic steps, in the order the
    code performs them; [RegistryRace] interleaves the same steps with a
    close. *)

(** The session runtime is resolved first: [None] refuses, [Some None] is a
    request without a session. *)
Definition reg_resolve (key : RequestKey) (r : RequestRegistry) : option (option nat) :=
  match k_session_id key with
  | Some sid =>
      match runtime_of r sid with
      | Some (l, rt) => if is_open rt then Some (Some l) else None
      | None => None
      end
  | None => Some None
  end.

Definition reg_generation (r : RequestRegistry) : Z * RequestRegistry :=
  (next_generation r, set_next_generation (wrap 64 (next_generation r + 1)) r).

Definition new_entry (key : RequestKey) (biz timeout now generation : Z) : RequestEntry :=
  mkEntry key biz now (now + timeout) generation (RequestState_as_u8 Pending).

(** The occupied/vacant decision on the entry map; [false] is a duplicate. *)
Definition reg_publish (e : RequestEntry) (r : RequestRegistry) : bool * RequestRegistry :=
  match entries r !! e_key e with
  | Some _ => (false, pending_sub r)
  | None => (true, set_entry (e_key e) e r)
  end.

Definition reg_link (key : RequestKey) (l : nat) : RequestRegistry -> RequestRegistry :=
  upd_runtimes (alter (fun rt =>
    mkRuntime (rt_state rt) ({[key]} ∪ rt_requests rt) (rt_next_request_id rt)) l).

Definition runtime_is_open (l : nat) (r : RequestRegistry) : bool :=
  match runtimes r !! l with Some rt => is_open rt | None => false end.

(** The re-check failed: the close may have drained without this key. *)
Definition reg_undo (key : RequestKey) (r : RequestRegistry) : RequestRegistry :=
  let r :=
    match entries r !! key with
    | Some entry =>
        match try_transition entry Pending SessionClosed with
        | (entry', None) =>
            remove_terminal_entry key (pending_sub (set_entry key entry' r))
        | (_, Some _) => r
        end
    | None => r
    end in
  waiters_remove_drop key r.

(** Times are unbounded: [now + timeout], which panics beyond what an [Instant]
    holds (a timeout of hundreds of years), is a plain sum. *)
Definition register_impl `{Target} (key : RequestKey) (biz timeout : Z) (schedule : bool)
    (now now' : Z) (r : RequestRegistry) : option RequestToken * RequestRegistry :=
  match reg_resolve key r with
  | None => (None, r)
  | Some runtime =>
      let '(generation, r) := reg_generation r in
      let e := new_entry key biz timeout now generation in
      let r := pending_add r in
      let '(inserted, r) := reg_publish e r in
      if negb inserted then (None, r) else
      let '(closing, r) :=
        match runtime with
        | Some l => let r := reg_link key l r in (negb (runtime_is_open l r), r)
        | None => (false, r)
        end in
      if closing then (None, reg_undo key r) else
      let r := if schedule then schedule_for_deadline key (now + timeout) now' r else r in
      (Some (mkToken (k_session_id key) (k_request_id key) (k_direction key) generation), r)
  end.

Definition register `{Target} (request_id : Z) (sid : option Z) (biz timeout now now' : Z)
    (r : RequestRegistry) : option RequestToken * RequestRegistry :=
  register_impl (inbound sid request_id) biz timeout true now now' r.

(** [Err(DuplicateRequest)] is [None]; the receiver is the channel's index. *)
Definition try_register_waiter `{Target} (request_id : Z) (sid : option Z)
    (biz timeout now : Z) (r : RequestRegistry)
    : option (nat * RequestToken) * RequestRegistry :=
  let key := outbound sid request_id in
  match register_impl key biz timeout false now now r with
  | (None, r) => (None, r)
  | (Some token, r) =>
      let '(rx, r) := waiters_insert_new key r in
      match entries r !! key with
      | None => (None, waiters_remove_drop key r)
      | Some _ => (Some (rx, token), r)
      end
  end.

(** ** Completing and abandoning requests *)

Definition mark_responded_key (key : RequestKey) (r : RequestRegistry)
    : MarkResult * RequestRegistry :=
  match entries r !! key with
  | None => (NotFound, duplicate_inc r)
  | Some entry =>
      match try_transition entry Pending Responded with
      | (entry', None) =>
          (Updated, remove_terminal_entry key (pending_sub (set_entry key entry' r)))
      | (_, Some st) =>
          (Already st, if decide (st = Responded) then duplicate_inc r else r)
      end
  end.

Definition complete_waiter (sid : option Z) (request_id : Z) (p : Packet)
    (r : RequestRegistry) : bool * RequestRegistry :=
  let key := outbound sid request_id in
  match mark_responded_key key r with
  | (Updated, r) => (true, waiters_take_send key p r)
  | (_, r) => (false, r)
  end.

Definition mark_dropped_key (key : RequestKey) (r : RequestRegistry)
    : MarkResult * RequestRegistry :=
  match entries r !! key with
  | None => (NotFound, r)
  | Some entry =>
      match try_transition entry Pending Dropped with
      | (entry', None) =>
          (Updated, remove_terminal_entry key (pending_sub (set_entry key entry' r)))
      | (_, Some st) => (Already st, r)
      end
  end.

Definition abort_waiter (sid : option Z) (request_id : Z) (r : RequestRegistry)
    : bool * RequestRegistry :=
  let key := outbound sid request_id in
  let '(res, r) := mark_dropped_key key r in
  (bool_decide (res = Updated), waiters_remove_drop key r).

Definition abort_one (acc : nat * RequestRegistry) (key : RequestKey)
    : nat * RequestRegistry :=
  let '(aborted, r) := acc in
  let '(res, r) := mark_dropped_key key r in
  ((if decide (res = Updated) then S aborted else aborted), waiters_remove_drop key r).

Definition close_runtime (l : nat) : RequestRegistry -> RequestRegistry :=
  upd_runtimes (alter begin_close l).

Definition abort_all (r : RequestRegistry) : nat * RequestRegistry :=
  let r := foldl (fun r sid =>
             match sessions r !! sid with
             | Some l => close_runtime l (upd_sessions (delete sid) r)
             | None => r
             end) r (elements (dom (sessions r))) in
  foldl abort_one (0%nat, r) (elements (dom (entries r))).

Definition get_state (sid : option Z) (request_id : Z) (d : RequestDirection)
    (r : RequestRegistry) : option RequestState :=
  entry_state <$> entries r !! mkKey sid request_id d.

Definition active_len (r : RequestRegistry) : nat := size (entries r).

(** ** Responding *)

Definition begin_respond (token : RequestToken) (r : RequestRegistry)
    : MarkResult * RequestRegistry :=
  let key := token_key token in
  match entries r !! key with
  | None => (NotFound, duplicate_inc r)
  | Some entry =>
      if negb (e_generation entry =? t_generation token) then (NotFound, duplicate_inc r) else
      match try_transition entry Pending Responding with
      | (entry', None) => (Updated, set_entry key entry' r)
      | (_, Some st) =>
          (Already st,
           if decide (st = Responded \/ st = Responding) then duplicate_inc r else r)
      end
  end.

Definition finish_respond (token : RequestToken) (write_confirmed : bool)
    (r : RequestRegistry) : MarkResult * RequestRegistry :=
  let key := token_key token in
  match entries r !! key with
  | None => (NotFound, r)
  | Some entry =>
      if negb (e_generation entry =? t_generation token) then (NotFound, r) else
      let target := if write_confirmed then Responded else SendFailed in
      match try_transition entry Responding target with
      | (entry', None) =>
          let r := pending_sub (set_entry key entry' r) in
          let r := if write_confirmed then r else send_failed_inc r in
          (Updated, remove_terminal_entry key r)
      | (_, Some st) => (Already st, r)
      end
  end.

Definition mark_timed_out (key : RequestKey) (r : RequestRegistry)
    : MarkResult * RequestRegistry :=
  match entries r !! key with
  | None => (NotFound, r)
  | Some entry =>
      match try_transition entry Pending TimedOut with
      | (entry', None) =>
          let r := timeout_inc (pending_sub (set_entry key entry' r)) in
          (Updated, waiters_remove_drop key (remove_terminal_entry key r))
      | (_, Some st) => (Already st, r)
      end
  end.

Definition abort_request_token (token : RequestToken) (r : RequestRegistry)
    : bool * RequestRegistry :=
  let key := token_key token in
  match entries r !! key with
  | None => (false, r)
  | Some entry =>
      if negb (e_generation entry =? t_generation token) then (false, r) else
      match try_transition entry Pending Dropped with
      | (entry', None) =>
          (true, waiters_remove_drop key
                   (remove_terminal_entry key (pending_sub (set_entry key entry' r))))
      | (_, Some _) => (false, r)
      end
  end.

(** ** Closing a session *)

(** One key of the drain: a [Pending] or a [Responding] entry dies with its
    session. *)
Definition drain_key (acc : nat * RequestRegistry) (key : RequestKey)
    : nat * RequestRegistry :=
  let '(closed, r) := acc in
  match entries r !! key with
  | None => (closed, r)
  | Some entry =>
      let die (entry' : RequestEntry) :=
        (S closed, waiters_remove_drop key
                     (upd_entries (delete key) (pending_sub (set_entry key entry' r)))) in
      match try_transition entry Pending SessionClosed with
      | (entry', None) => die entry'
      | (_, Some _) =>
          match try_transition entry Responding SessionClosed with
          | (entry', None) => die entry'
          | (_, Some _) => (closed, r)
          end
      end
  end.

(** The keys [runtime.requests.iter()] starts from. *)
Definition requests_of (l : nat) (r : RequestRegistry) : list RequestKey :=
  match runtimes r !! l with Some rt => elements (rt_requests rt) | None => [] end.

(** [runtime.requests.clear()]. *)
Definition clear_requests (l : nat) : RequestRegistry -> RequestRegistry :=
  upd_runtimes (alter (fun rt => mkRuntime (rt_state rt) ∅ (rt_next_request_id rt)) l).

Definition close_session_pending (sid : Z) (r : RequestRegistry) : nat * RequestRegistry :=
  match sessions r !! sid with
  | None => (0%nat, r)
  | Some l =>
      let r := close_runtime l (upd_sessions (delete sid) r) in
      let '(closed, r) := foldl drain_key (0%nat, r) (requests_of l r) in
      let r := clear_requests l r in
      (closed, if (0 <? Z.of_nat closed) then session_closed_add (Z.of_nat closed) r else r)
  end.

Definition record_response_send_failed : RequestRegistry -> RequestRegistry := send_failed_inc.
Definition pending_count (r : RequestRegistry) : Z := pending_requests (counters r).

(** ** The timeout wheel *)

Definition scan_key `{Target} (now : Z) (clock : RequestKey -> Z) (acc : nat * RequestRegistry) (key : RequestKey)
    : nat * RequestRegistry :=
  let '(timed_out, r) := acc in
  match entries r !! key with
  | None => (timed_out, r)
  | Some entry =>
      if negb (bool_decide (entry_state entry = Pending)) then (timed_out, r) else
      if e_deadline_at entry <=? now then
        let '(res, r) := mark_timed_out key r in
        ((if decide (res = Updated) then S timed_out else timed_out), r)
      else (timed_out, schedule_for_deadline key (e_deadline_at entry) (clock key) r)
  end.

(** [now] is read once per scan, [clock key] when [key] is rescheduled. *)
Definition scan_timeout_bucket `{Target} (now : Z) (clock : RequestKey -> Z) (r : RequestRegistry)
    : nat * RequestRegistry :=
  let next_tick := wrap 64 (current_tick r + 1) in
  let r := set_current_tick next_tick r in
  let i := bucket_index r next_tick in
  let drained := default [] (buckets r !! i) in
  let r := upd_buckets (insert i []) r in
  foldl (scan_key now clock) (0%nat, r) drained.

(** ** The two guards *)

(** [RespondClaim]: [resolve] consumes it; dropping it unresolved is a send
    failure. *)
Record RespondClaim := mkClaim { claim_token : RequestToken; claim_resolved : bool }.

Definition RespondClaim_new (t : RequestToken) : RespondClaim := mkClaim t false.

Definition claim_drop (c : RespondClaim) (r : RequestRegistry) : RequestRegistry :=
  if claim_resolved c then r else (finish_respond (claim_token c) false r).2.

Definition claim_resolve (c : RespondClaim) (write_confirmed : bool) (r : RequestRegistry)
    : RequestRegistry :=
  let c := mkClaim (claim_token c) true in
  claim_drop c (finish_respond (claim_token c) write_confirmed r).2.

Record OutboundRequestGuard := mkGuard { guard_token : RequestToken; guard_disarmed : bool }.

Definition OutboundRequestGuard_new (t : RequestToken) : OutboundRequestGuard := mkGuard t true.
Definition guard_armed (g : OutboundRequestGuard) : OutboundRequestGuard :=
  mkGuard (guard_token g) false.
Definition guard_disarm (g : OutboundRequestGuard) : OutboundRequestGuard :=
  mkGuard (guard_token g) true.
Definition guard_drop (g : OutboundRequestGuard) (r : RequestRegistry) : RequestRegistry :=
  if guard_disarmed g then r else (abort_request_token (guard_token g) r).2.
