(* ===== verification/RegistryInv.v ===== *)
(** * The registry invariant

    Well-formedness of the request registry, the effect of each primitive
    change on it, and its preservation by every operation of
    [request_registry.rs]. *)

From S2P Require Import Prelude Packet Registry.

(** [wf X r]: the registry is consistent; [X] are the keys whose link to a
    session runtime is suspended while their session is being torn down. *)
Record wf (X : gset RequestKey) (r : RequestRegistry) : Prop := {
  wf_key : forall k e, entries r !! k = Some e -> e_key e = k;
  wf_live : forall k e, entries r !! k = Some e ->
    e_state e = RequestState_as_u8 Pending \/ e_state e = RequestState_as_u8 Responding;
  wf_gen_bound : forall k e, entries r !! k = Some e -> 1 <= e_generation e < next_generation r;
  wf_gen_inj : forall k1 k2 e1 e2, entries r !! k1 = Some e1 -> entries r !! k2 = Some e2 ->
    e_generation e1 = e_generation e2 -> k1 = k2;
  wf_next_gen : 1 <= next_generation r;
  wf_pending : pending_requests (counters r) = wrap 64 (Z.of_nat (size (entries r)));
  wf_waiter_entry : forall k c, waiters r !! k = Some c ->
    k_direction k = Outbound /\ is_Some (entries r !! k);
  wf_outbound : forall k e, entries r !! k = Some e -> k_direction k = Outbound ->
    e_state e = RequestState_as_u8 Pending;
  wf_waiter_chan : forall k c, waiters r !! k = Some c -> chans r !! c = Some ChanWaiting;
  wf_waiter_inj : forall k1 k2 c, waiters r !! k1 = Some c -> waiters r !! k2 = Some c -> k1 = k2;
  wf_chan_bound : forall c x, chans r !! c = Some x -> (c < next_chan r)%nat;
  wf_session_rt : forall sid l, sessions r !! sid = Some l ->
    exists rt, runtimes r !! l = Some rt /\ rt_state rt = OPEN;
  wf_session_inj : forall s1 s2 l, sessions r !! s1 = Some l -> sessions r !! s2 = Some l -> s1 = s2;
  wf_rt_bound : forall l rt, runtimes r !! l = Some rt -> (l < next_runtime r)%nat;
  wf_linked : forall k e sid, entries r !! k = Some e ->
    k_session_id k = Some sid -> k ∉ X ->
    exists l rt, sessions r !! sid = Some l /\ runtimes r !! l = Some rt /\ k ∈ rt_requests rt;
  wf_rt_sound : forall sid l rt k, sessions r !! sid = Some l -> runtimes r !! l = Some rt ->
    k ∈ rt_requests rt -> k_session_id k = Some sid /\ is_Some (entries r !! k);
  wf_bucket_count : 8 <= bucket_count r;
  wf_buckets : length (buckets r) = Z.to_nat (bucket_count r)
}.

(** Take the invariant apart into named facts. *)
Ltac wf_destruct H :=
  let n0 := fresh "wf_key0" in
  let n1 := fresh "wf_live0" in
  let n2 := fresh "wf_gen_bound0" in
  let n3 := fresh "wf_gen_inj0" in
  let n4 := fresh "wf_next_gen0" in
  let n5 := fresh "wf_pending0" in
  let n6 := fresh "wf_waiter_entry0" in
  let n7 := fresh "wf_outbound0" in
  let n8 := fresh "wf_waiter_chan0" in
  let n9 := fresh "wf_waiter_inj0" in
  let n10 := fresh "wf_chan_bound0" in
  let n11 := fresh "wf_session_rt0" in
  let n12 := fresh "wf_session_inj0" in
  let n13 := fresh "wf_rt_bound0" in
  let n14 := fresh "wf_linked0" in
  let n15 := fresh "wf_rt_sound0" in
  let n16 := fresh "wf_bucket_count0" in
  let n17 := fresh "wf_buckets0" in
  destruct H as [n0 n1 n2 n3 n4 n5 n6 n7 n8 n9 n10 n11 n12 n13 n14 n15 n16 n17].

(** Every inbound request still pending sits in some bucket of the timeout
    wheel, the keys of [W] excepted. *)
Definition wheeled (W : gset RequestKey) (r : RequestRegistry) : Prop :=
  forall k e, entries r !! k = Some e ->
    e_state e = RequestState_as_u8 Pending -> k_direction k = Inbound -> k ∉ W ->
    exists i b, buckets r !! i = Some b /\ k ∈ b.

Lemma as_u8_inj s1 s2 : RequestState_as_u8 s1 = RequestState_as_u8 s2 -> s1 = s2.
Proof. by destruct s1, s2. Qed.

Lemma from_as_u8 s : RequestState_from_u8 (RequestState_as_u8 s) = Some s.
Proof. by destruct s. Qed.

Definition with_state (e : RequestEntry) (s : RequestState) : RequestEntry :=
  mkEntry (e_key e) (e_biz_type e) (e_created_at e) (e_deadline_at e) (e_generation e)
    (RequestState_as_u8 s).

Lemma try_transition_at e s from to :
  e_state e = RequestState_as_u8 s ->
  try_transition e from to =
    if decide (s = from) then (with_state e to, None) else (e, Some s).
Proof.
  intros Hs. unfold try_transition. rewrite Hs, from_as_u8. case_decide as Hd.
  - subst. by rewrite Z.eqb_refl.
  - destruct (Z.eqb_spec (RequestState_as_u8 s) (RequestState_as_u8 from)) as [E|]; [|done].
    by apply as_u8_inj in E.
Qed.

Lemma entry_state_at e s : e_state e = RequestState_as_u8 s -> entry_state e = s.
Proof. intros Hs. unfold entry_state. by rewrite Hs, from_as_u8. Qed.

Lemma wf_live_state X r k e :
  wf X r -> entries r !! k = Some e ->
  exists s, e_state e = RequestState_as_u8 s /\ (s = Pending \/ s = Responding).
Proof. intros Hwf He. destruct (wf_live X r Hwf k e He); eauto. Qed.

Lemma wf_drop_except X r k : wf X r -> entries r !! k = None -> wf (X ∖ {[k]}) r.
Proof.
  intros Hwf Hk. wf_destruct Hwf. split; try done.
  intros k' e sid He Hsid Hni. destruct (decide (k' = k)) as [->|Hne]; [congruence|].
  eapply wf_linked0; [done..|set_solver].
Qed.

Lemma wf_weaken X Y r : X ⊆ Y -> wf X r -> wf Y r.
Proof.
  intros HXY Hwf. wf_destruct Hwf. split; try done.
  intros k e sid He Hsid Hni. eapply wf_linked0; [done..|set_solver].
Qed.

(** ** Effects *)

Definition unlink (key : RequestKey) (rt : SessionRuntime) : SessionRuntime :=
  mkRuntime (rt_state rt) (rt_requests rt ∖ {[key]}) (rt_next_request_id rt).

Definition unlinked (key : RequestKey) (r : RequestRegistry) : gmap nat SessionRuntime :=
  match k_session_id key with
  | None => runtimes r
  | Some sid =>
      match sessions r !! sid with
      | None => runtimes r
      | Some l => alter (unlink key) l (runtimes r)
      end
  end.

(** The entry of [key] is gone, its waiter too (its channel now holds [fin]),
    the gauge went down by one, and nothing else changed (the other counters
    apart). *)
Record retired (key : RequestKey) (fin : Chan) (r r' : RequestRegistry) : Prop := {
  ret_was : is_Some (entries r !! key);
  ret_entries : entries r' = delete key (entries r);
  ret_pending : pending_requests (counters r') = wrap 64 (pending_requests (counters r) - 1);
  ret_waiters : waiters r' = delete key (waiters r);
  ret_chans : forall c, waiters r !! key <> Some c -> chans r' !! c = chans r !! c;
  ret_final : forall c, waiters r !! key = Some c -> chans r !! c = Some ChanWaiting ->
    chans r' !! c = Some fin;
  ret_chan_bound : forall c x, chans r' !! c = Some x -> is_Some (chans r !! c);
  ret_sessions : sessions r' = sessions r;
  ret_runtimes : runtimes r' = unlinked key r;
  ret_rest : buckets r' = buckets r /\ bucket_count r' = bucket_count r /\
    tick_duration r' = tick_duration r /\ current_tick r' = current_tick r /\
    next_id r' = next_id r /\ next_generation r' = next_generation r /\
    next_runtime r' = next_runtime r /\ next_chan r' = next_chan r
}.

Lemma unlinked_lookup key r l rt' :
  unlinked key r !! l = Some rt' ->
  exists rt, runtimes r !! l = Some rt /\ rt_state rt' = rt_state rt /\
    rt_requests rt' ⊆ rt_requests rt /\ rt_next_request_id rt' = rt_next_request_id rt /\
    forall k, k <> key -> k ∈ rt_requests rt -> k ∈ rt_requests rt'.
Proof.
  unfold unlinked. intros Hl.
  assert (runtimes r !! l = Some rt' \/ exists rt, runtimes r !! l = Some rt /\ rt' = unlink key rt)
    as [H|(rt & H & ->)].
  { repeat case_match; eauto. destruct (decide (l = n)) as [->|].
    - rewrite lookup_alter_eq in Hl. apply fmap_Some in Hl as (rt & ? & ->). eauto.
    - rewrite lookup_alter_ne in Hl by done. eauto. }
  - exists rt'. by split_and!.
  - exists rt. simpl. split_and!; [done..|set_solver|done|]. intros. set_solver.
Qed.

Lemma unlinked_fwd key r l rt :
  runtimes r !! l = Some rt -> exists rt', unlinked key r !! l = Some rt' /\
    rt_state rt' = rt_state rt /\
    (forall k, k <> key -> k ∈ rt_requests rt -> k ∈ rt_requests rt').
Proof.
  intros Hl. destruct (unlinked key r !! l) as [rt'|] eqn:E.
  - destruct (unlinked_lookup _ _ _ _ E) as (rt0 & H0 & Hs & _ & _ & Hk). simplify_eq. eauto.
  - exfalso. unfold unlinked in E. repeat case_match; simplify_eq.
    destruct (decide (l = n)) as [->|].
    + rewrite lookup_alter_eq, Hl in E. done.
    + rewrite lookup_alter_ne in E by done. congruence.
Qed.

Lemma wrap64_pred n : (0 < n)%nat -> wrap 64 (wrap 64 (Z.of_nat n) - 1) = wrap 64 (Z.of_nat (pred n)).
Proof.
  intros. unfold wrap. rewrite Zminus_mod_idemp_l. f_equal. lia.
Qed.

Lemma wrap64_succ n : wrap 64 (wrap 64 (Z.of_nat n) + 1) = wrap 64 (Z.of_nat (S n)).
Proof. unfold wrap. rewrite Zplus_mod_idemp_l. f_equal. lia. Qed.

Lemma wf_retired X key fin r r' : wf X r -> retired key fin r r' -> wf X r'.
Proof.
  intros Hwf Hr. destruct Hr as [Hwas He Hp Hw Hc _ Hcb Hs Hrt (Hb & Hbc & Htd & Hct & Hni & Hng & Hnr & Hnc)].
  assert (Hsub : forall k e, entries r' !! k = Some e -> k <> key /\ entries r !! k = Some e).
  { intros k e. rewrite He. intros Hk. by apply lookup_delete_Some in Hk as [? ?]. }
  assert (Hwsub : forall k c, waiters r' !! k = Some c -> k <> key /\ waiters r !! k = Some c).
  { intros k c. rewrite Hw. intros Hk. by apply lookup_delete_Some in Hk as [? ?]. }
  wf_destruct Hwf. split; rewrite ?Hb, ?Hbc, ?Hng, ?Hnr, ?Hnc, ?Hs, ?Hrt; try done.
  - intros k e [_ ?]%Hsub. eauto.
  - intros k e [_ ?]%Hsub. eauto.
  - intros k e [_ ?]%Hsub. eauto.
  - intros k1 k2 e1 e2 [_ ?]%Hsub [_ ?]%Hsub. eauto.
  - rewrite Hp, wf_pending0, He. destruct Hwas as [e Hwas].
    rewrite map_size_delete_Some by eauto. apply wrap64_pred.
    assert (size (entries r) <> 0%nat); [|lia]. intros Hz.
    apply map_size_empty_iff in Hz. rewrite Hz in Hwas. done.
  - intros k c [Hne Hk]%Hwsub. destruct (wf_waiter_entry0 k c Hk) as [? ?].
    split; [done|]. by rewrite He, lookup_delete_ne.
  - intros k e [_ ?]%Hsub. eauto.
  - intros k c [Hne Hk]%Hwsub. rewrite Hc; [eauto|]. intros Hkey.
    apply Hne. by eapply wf_waiter_inj0.
  - intros k1 k2 c [_ ?]%Hwsub [_ ?]%Hwsub. eauto.
  - intros c x Hx. destruct (Hcb c x Hx) as [y Hy]. eauto.
  - intros sid l Hl. destruct (wf_session_rt0 sid l Hl) as (rt & Hrt' & Ho).
    destruct (unlinked_fwd key r l rt Hrt') as (rt2 & ? & Hst & _). exists rt2. split; [done|]. congruence.
  - intros l rt2 Hl. destruct (unlinked_lookup _ _ _ _ Hl) as (rt & ? & _). eauto.
  - intros k e sid [Hne Hk]%Hsub Hsid HX.
    destruct (wf_linked0 k e sid Hk Hsid HX) as (l & rt & ? & Hl & Hin).
    destruct (unlinked_fwd key r l rt Hl) as (rt2 & ? & _ & Hkeep). eauto 8.
  - intros sid l rt2 k Hl Hl2 Hin.
    destruct (unlinked_lookup _ _ _ _ Hl2) as (rt & Hrt0 & _ & Hsubs & _ & _).
    destruct (wf_rt_sound0 sid l rt k Hl Hrt0) as [Hsid Hsome]; [set_solver|].
    split; [done|]. rewrite He. rewrite lookup_delete_ne; [done|]. intros <-.
    unfold unlinked in Hl2. rewrite Hsid, Hl, lookup_alter_eq, Hrt0 in Hl2.
    simplify_eq/=. set_solver.
Qed.

Lemma wheeled_retired W key fin r r' : wheeled W r -> retired key fin r r' -> wheeled W r'.
Proof.
  intros Hw [_ He _ _ _ _ _ _ _ (Hb & _)] k e. rewrite He, Hb.
  intros [_ Hk]%lookup_delete_Some. by apply Hw.
Qed.

(** The part of [retired] that does not touch the waiters. *)
Record settled (key : RequestKey) (r r' : RequestRegistry) : Prop := {
  set_was : is_Some (entries r !! key);
  set_entries : entries r' = delete key (entries r);
  set_pending : pending_requests (counters r') = wrap 64 (pending_requests (counters r) - 1);
  set_waiters' : waiters r' = waiters r /\ chans r' = chans r;
  set_sessions : sessions r' = sessions r;
  set_runtimes : runtimes r' = unlinked key r;
  set_rest : buckets r' = buckets r /\ bucket_count r' = bucket_count r /\
    tick_duration r' = tick_duration r /\ current_tick r' = current_tick r /\
    next_id r' = next_id r /\ next_generation r' = next_generation r /\
    next_runtime r' = next_runtime r /\ next_chan r' = next_chan r
}.

Lemma remove_terminal_runtimes key r : runtimes (remove_terminal_entry key r) = unlinked key r.
Proof.
  unfold remove_terminal_entry, runtime_unlink, unlinked, runtime_of. destruct (k_session_id key) as [sid|]; [|done].
  simpl. destruct (sessions r !! sid) as [l|]; [|done]. simpl.
  destruct (runtimes r !! l) as [rt|] eqn:E; simpl.
  - apply map_eq. intros i. destruct (decide (i = l)) as [->|].
    + by rewrite lookup_insert_eq, lookup_alter_eq, E.
    + by rewrite lookup_insert_ne, lookup_alter_ne by done.
  - apply map_eq. intros i. destruct (decide (i = l)) as [->|].
    + by rewrite lookup_alter_eq, E.
    + by rewrite lookup_alter_ne by done.
Qed.

Lemma remove_terminal_rest key r : let r' := remove_terminal_entry key r in
  entries r' = delete key (entries r) /\ counters r' = counters r /\ waiters r' = waiters r /\
  chans r' = chans r /\ sessions r' = sessions r /\ buckets r' = buckets r /\
  bucket_count r' = bucket_count r /\ tick_duration r' = tick_duration r /\
  current_tick r' = current_tick r /\ next_id r' = next_id r /\
  next_generation r' = next_generation r /\ next_runtime r' = next_runtime r /\
  next_chan r' = next_chan r.
Proof.
  unfold remove_terminal_entry, runtime_unlink. destruct (k_session_id key); [|done]; cbn zeta.
  destruct runtime_of as [[]|]; done.
Qed.

(** Every terminal transition has this shape. *)
Lemma settled_remove key r e e' g :
  entries r !! key = Some e ->
  pending_requests (g (counters r)) = wrap 64 (pending_requests (counters r) - 1) ->
  settled key r (remove_terminal_entry key (upd_counters g (set_entry key e' r))).
Proof.
  intros He Hg. pose proof (remove_terminal_rest key (upd_counters g (set_entry key e' r))) as Hr.
  cbv zeta in Hr. destruct Hr as (H1 & H2 & H3 & H4 & H5 & H6 & H7 & H8 & H9 & H10 & H11 & H12 & H13).
  split; rewrite ?H1, ?H2, ?H3, ?H4, ?H5, ?H6, ?H7, ?H8, ?H9, ?H10, ?H11, ?H12, ?H13; simpl; try done.
  - apply delete_insert_eq.
  - rewrite remove_terminal_runtimes. unfold unlinked. simpl. done.
Qed.

Lemma waiters_remove_drop_rest key r : let r' := waiters_remove_drop key r in
  entries r' = entries r /\ counters r' = counters r /\ sessions r' = sessions r /\
  runtimes r' = runtimes r /\ buckets r' = buckets r /\
  bucket_count r' = bucket_count r /\ tick_duration r' = tick_duration r /\
  current_tick r' = current_tick r /\ next_id r' = next_id r /\
  next_generation r' = next_generation r /\ next_runtime r' = next_runtime r /\
  next_chan r' = next_chan r /\ waiters r' = delete key (waiters r).
Proof.
  unfold waiters_remove_drop. destruct (waiters r !! key) eqn:E; cbn; split_and!; try done.
  symmetry. by apply delete_id.
Qed.

Lemma waiters_take_send_rest key p r : let r' := waiters_take_send key p r in
  entries r' = entries r /\ counters r' = counters r /\ sessions r' = sessions r /\
  runtimes r' = runtimes r /\ buckets r' = buckets r /\
  bucket_count r' = bucket_count r /\ tick_duration r' = tick_duration r /\
  current_tick r' = current_tick r /\ next_id r' = next_id r /\
  next_generation r' = next_generation r /\ next_runtime r' = next_runtime r /\
  next_chan r' = next_chan r /\ waiters r' = delete key (waiters r).
Proof.
  unfold waiters_take_send. destruct (waiters r !! key) eqn:E; cbn; split_and!; try done.
  symmetry. by apply delete_id.
Qed.

Lemma close_chan_spec c m c' :
  close_chan c m !! c' =
    if decide (c' = c) then match m !! c with Some ChanWaiting => Some ChanClosed | x => x end
    else m !! c'.
Proof.
  unfold close_chan. destruct (m !! c) as [[]|] eqn:E; case_decide as Hd; subst;
    rewrite ?lookup_insert_eq, ?lookup_insert_ne by done; done.
Qed.

Lemma chans_remove_drop key r c :
  chans (waiters_remove_drop key r) !! c =
    match waiters r !! key, chans r !! c with
    | Some c', Some ChanWaiting => if decide (c = c') then Some ChanClosed else Some ChanWaiting
    | _, x => x
    end.
Proof.
  unfold waiters_remove_drop. destruct (waiters r !! key) as [c'|] eqn:E; simpl; [|done].
  rewrite close_chan_spec. case_decide as Hd; subst.
  - by destruct (chans r !! c') as [[]|].
  - by destruct (chans r !! c) as [[]|].
Qed.

Lemma chans_take_send key p r c :
  chans (waiters_take_send key p r) !! c =
    match waiters r !! key, chans r !! c with
    | Some c', Some ChanWaiting => if decide (c = c') then Some (ChanSent p) else Some ChanWaiting
    | _, x => x
    end.
Proof.
  unfold waiters_take_send. destruct (waiters r !! key) as [c'|] eqn:E; simpl; [|done].
  destruct (decide (c = c')) as [->|].
  - destruct (chans r !! c') as [[]|] eqn:E2; rewrite ?lookup_insert_eq, ?E2; done.
  - destruct (chans r !! c') as [[]|] eqn:E2; rewrite ?lookup_insert_ne by done;
      by destruct (chans r !! c) as [[]|].
Qed.

Lemma retired_drop key r r1 : settled key r r1 -> retired key ChanClosed r (waiters_remove_drop key r1).
Proof.
  intros [Hwas He Hp [Hw Hc] Hs Hrt Hrest]. pose proof (waiters_remove_drop_rest key r1) as Hr.
  cbv zeta in Hr. destruct Hr as (H1 & H2 & H3 & H4 & H5 & H6 & H7 & H8 & H9 & H10 & H11 & H12 & H13).
  split; rewrite ?H1, ?H2, ?H3, ?H4, ?H5, ?H6, ?H7, ?H8, ?H9, ?H10, ?H11, ?H12, ?H13; try done.
  - by rewrite Hw.
  - intros c Hne. rewrite chans_remove_drop, Hw, Hc.
    destruct (waiters r !! key); [|done]. destruct (chans r !! c) as [[]|]; try done.
    rewrite decide_False; congruence.
  - intros c Hcw Hcc. rewrite chans_remove_drop, Hw, Hc, Hcw, Hcc. by rewrite decide_True.
  - intros c x. rewrite chans_remove_drop, Hw, Hc. repeat case_match; eauto.
Qed.

Lemma retired_send key p r r1 : settled key r r1 -> retired key (ChanSent p) r (waiters_take_send key p r1).
Proof.
  intros [Hwas He Hp [Hw Hc] Hs Hrt Hrest]. pose proof (waiters_take_send_rest key p r1) as Hr.
  cbv zeta in Hr. destruct Hr as (H1 & H2 & H3 & H4 & H5 & H6 & H7 & H8 & H9 & H10 & H11 & H12 & H13).
  split; rewrite ?H1, ?H2, ?H3, ?H4, ?H5, ?H6, ?H7, ?H8, ?H9, ?H10, ?H11, ?H12, ?H13; try done.
  - by rewrite Hw.
  - intros c Hne. rewrite chans_take_send, Hw, Hc.
    destruct (waiters r !! key); [|done]. destruct (chans r !! c) as [[]|]; try done.
    rewrite decide_False; congruence.
  - intros c Hcw Hcc. rewrite chans_take_send, Hw, Hc, Hcw, Hcc. by rewrite decide_True.
  - intros c x. rewrite chans_take_send, Hw, Hc. repeat case_match; eauto.
Qed.

Lemma retired_unwaited key fin r r1 : waiters r !! key = None -> settled key r r1 -> retired key fin r r1.
Proof.
  intros Hnone [Hwas He Hp [Hw Hc] Hs Hrt Hrest]. split; try done.
  - by rewrite Hw, delete_id.
  - by rewrite Hc.
  - congruence.
  - intros c x. rewrite Hc. eauto.
Qed.

(** ** Evolution

    What any amount of activity can do to the requests already known: an entry
    keeps its identity and may only be claimed or disappear, a new entry has a
    new generation, and a channel that left the waiting state never changes. *)

Definition same_request (e e' : RequestEntry) : Prop :=
  e' = e \/ (e_state e = RequestState_as_u8 Pending /\ e' = with_state e Responding).

(** A session's identifier counter only grows, and stops at the maximum. *)
Definition next_le (a b : Z) : Prop := a <= b /\ (a <= U32_MAX -> b <= U32_MAX).

Lemma next_le_refl a : next_le a a.
Proof. unfold next_le. lia. Qed.
#[export] Hint Resolve next_le_refl : core.

Record evolves (r r' : RequestRegistry) : Prop := {
  ev_next : next_generation r <= next_generation r';
  ev_entries : forall k e', entries r' !! k = Some e' ->
    (exists e, entries r !! k = Some e /\ same_request e e') \/
    next_generation r <= e_generation e' < next_generation r';
  ev_chans : forall c x, chans r !! c = Some x -> x <> ChanWaiting -> chans r' !! c = Some x;
  ev_next_chan : (next_chan r <= next_chan r')%nat;
  ev_new_chan : forall c, chans r !! c = None -> (c < next_chan r)%nat -> chans r' !! c = None;
  ev_runtimes : forall l rt, runtimes r !! l = Some rt ->
    exists rt', runtimes r' !! l = Some rt' /\ next_le (rt_next_request_id rt) (rt_next_request_id rt')
}.

(** The timeout wheel did not turn and lost no key. *)
Record steady (r r' : RequestRegistry) : Prop := {
  st_tick : current_tick r' = current_tick r;
  st_bucket_count : bucket_count r' = bucket_count r;
  st_buckets : forall i b, buckets r !! i = Some b ->
    exists b', buckets r' !! i = Some b' /\ forall k, k ∈ b -> k ∈ b'
}.

#[export] Instance steady_preorder : PreOrder steady.
Proof.
  split.
  - intros r. split; eauto.
  - intros r1 r2 r3 [T1 C1 B1] [T2 C2 B2]. split; [congruence..|].
    intros i b Hb. destruct (B1 i b Hb) as (b' & Hb' & ?). destruct (B2 i b' Hb') as (b3 & ? & ?). eauto.
Qed.

Lemma steady_same r r' :
  current_tick r' = current_tick r -> bucket_count r' = bucket_count r -> buckets r' = buckets r ->
  steady r r'.
Proof. intros Ht Hc Hb. split; [done..|]. rewrite Hb. eauto. Qed.

Lemma same_request_trans e1 e2 e3 : same_request e1 e2 -> same_request e2 e3 -> same_request e1 e3.
Proof.
  unfold same_request. intros Ha Hb. destruct Ha as [->|[H1 ->]]; [done|].
  destruct Hb as [->|[H2 _]]; [by right|]. discriminate H2.
Qed.

#[export] Instance evolves_preorder : PreOrder evolves.
Proof.
  split.
  - intros r. split; try done; [|eauto with lia]. intros k e ?. left. exists e. split; [done|by left].
  - intros r1 r2 r3 [N1 E1 C1 K1 F1 L1] [N2 E2 C2 K2 F2 L2]. split; try lia.
    + intros k e3 H3. destruct (E2 k e3 H3) as [(e2 & H2 & S2)|?]; [|right; lia].
      destruct (E1 k e2 H2) as [(e1 & H1 & S1)|?].
      * left. eauto using same_request_trans.
      * right. destruct S2 as [->|[_ ->]]; simpl; lia.
    + eauto.
    + intros c Hc Hlt. apply F2; [auto|lia].
    + intros l rt Hl. destruct (L1 l rt Hl) as (rt1 & Hl1 & ?). destruct (L2 l rt1 Hl1) as (rt2 & ? & ?).
      exists rt2. split; [done|unfold next_le in *; lia].
Qed.

Lemma evolves_retired key fin r r' X : wf X r -> retired key fin r r' -> evolves r r'.
Proof.
  intros Hwf [Hwas He Hp Hw Hc _ Hcb Hs Hrt (_ & _ & _ & _ & _ & Hng & _ & Hnc)].
  split; rewrite ?Hng, ?Hnc; try lia.
  - intros k e'. rewrite He. intros [_ Hk]%lookup_delete_Some. left. exists e'. split; [done|by left].
  - intros c x Hx Hnw. rewrite Hc; [done|]. intros Hk.
    apply (wf_waiter_chan X r Hwf) in Hk. congruence.
  - intros c Hn _. destruct (chans r' !! c) eqn:E; [|done]. apply Hcb in E as [? ?]. congruence.
  - intros l rt Hl. rewrite Hrt. destruct (unlinked_fwd key r l rt Hl) as (rt' & Hl' & _).
    destruct (unlinked_lookup _ _ _ _ Hl') as (rt0 & ? & _ & _ & Hn & _). simplify_eq.
    exists rt'. split; [done|rewrite Hn; done].
Qed.

Lemma steady_retired key fin r r' : retired key fin r r' -> steady r r'.
Proof.
  intros [_ _ _ _ _ _ _ _ _ (Hb & Hbc & _ & Hct & _)]. by apply steady_same.
Qed.

(** Only counters, ticks and identifiers moved. *)
Record quiet (r r' : RequestRegistry) : Prop := {
  q_entries : entries r' = entries r;
  q_waiters : waiters r' = waiters r;
  q_sessions : sessions r' = sessions r;
  q_runtimes : runtimes r' = runtimes r;
  q_next_runtime : next_runtime r' = next_runtime r;
  q_chans : chans r' = chans r;
  q_next_chan : next_chan r' = next_chan r;
  q_buckets : buckets r' = buckets r;
  q_bucket_count : bucket_count r' = bucket_count r;
  q_pending : pending_requests (counters r') = pending_requests (counters r);
  q_tick : current_tick r' = current_tick r;
  q_gen : next_generation r <= next_generation r' <= next_generation r + 1
}.

Lemma steady_quiet r r' : quiet r r' -> steady r r'.
Proof. intros [_ _ _ _ _ _ _ Hb Hbc _ Hct _]. by apply steady_same. Qed.

Lemma quiet_refl r : quiet r r.
Proof. split; try done; lia. Qed.

Lemma wf_quiet X r r' : wf X r -> quiet r r' -> wf X r'.
Proof.
  intros Hwf [He Hw Hs Hr Hnr Hc Hnc Hb Hbc Hp _ Hg]. wf_destruct Hwf.
  split; rewrite ?He, ?Hw, ?Hs, ?Hr, ?Hnr, ?Hc, ?Hnc, ?Hb, ?Hbc, ?Hp; try done; try lia.
  intros k e Hk. destruct (wf_gen_bound0 k e Hk). lia.
Qed.

Lemma wheeled_quiet W r r' : wheeled W r -> quiet r r' -> wheeled W r'.
Proof. intros Hw [He _ _ _ _ _ _ Hb _ _ _ _] k e. rewrite He, Hb. apply Hw. Qed.

Lemma evolves_quiet r r' : quiet r r' -> evolves r r'.
Proof.
  intros [He Hw Hs Hr Hnr Hc Hnc Hb Hbc Hp _ Hg]. split; rewrite ?He, ?Hc, ?Hnc, ?Hr; try done;
    [lia| |eauto with lia].
  intros k e Hk. left. exists e. split; [done|by left].
Qed.

(** A response is claimed. *)
Record claimed (key : RequestKey) (e : RequestEntry) (r r' : RequestRegistry) : Prop := {
  cl_entry : entries r !! key = Some e;
  cl_pending : e_state e = RequestState_as_u8 Pending;
  cl_inbound : k_direction key = Inbound;
  cl_set : r' = set_entry key (with_state e Responding) r
}.

Lemma wf_claimed X key e r r' : wf X r -> claimed key e r r' -> wf X r'.
Proof.
  intros Hwf [He Hs Hd ->]. wf_destruct Hwf.
  assert (Hl : forall k e', <[key:=with_state e Responding]> (entries r) !! k = Some e' ->
    exists e0, entries r !! k = Some e0 /\ (e' = e0 \/ k = key /\ e' = with_state e0 Responding)).
  { intros k e'. rewrite lookup_insert_Some. intros [[<- <-]|[_ H]]; eauto. }
  split; simpl; try done.
  - intros k e' (e0 & H & [->|[-> ->]])%Hl; simpl; eauto.
  - intros k e' (e0 & H & [->|[-> ->]])%Hl; simpl; eauto.
  - intros k e' (e0 & H & [->|[-> ->]])%Hl; simpl; eauto.
  - intros k1 k2 e1 e2 (e3 & H3 & C3)%Hl (e4 & H4 & C4)%Hl Hg. apply (wf_gen_inj0 k1 k2 e3 e4 H3 H4).
    destruct C3 as [->|[-> ->]], C4 as [->|[-> ->]]; done.
  - rewrite map_size_insert_Some by eauto. done.
  - intros k c Hk. destruct (wf_waiter_entry0 k c Hk) as [? [x Hx]]. split; [done|].
    rewrite lookup_insert. case_decide; eauto.
  - intros k e' (e0 & H & [->|[-> ->]])%Hl; simpl; [eauto|]. congruence.
  - intros k e' sid (e0 & H & _)%Hl. eauto.
  - intros sid l rt k ? ? ?. destruct (wf_rt_sound0 sid l rt k) as [? [x Hx]]; [done..|].
    split; [done|]. rewrite lookup_insert. case_decide; eauto.
Qed.

Lemma wheeled_claimed W key e r r' : wheeled W r -> claimed key e r r' -> wheeled W r'.
Proof.
  intros Hw [He Hs Hd ->] k e'. simpl. rewrite lookup_insert_Some.
  intros [[<- <-]|[_ H]]; [done|]. exact (Hw k e' H).
Qed.

Lemma evolves_claimed key e r r' : claimed key e r r' -> evolves r r'.
Proof.
  intros [He Hs Hd ->]. split; simpl; try done; [|eauto with lia].
  intros k e'. rewrite lookup_insert_Some. intros [[<- <-]|[_ H]]; left.
  - exists e. split; [done|]. by right.
  - exists e'. split; [done|by left].
Qed.

(** A request is registered. *)
Definition link (key : RequestKey) (rt : SessionRuntime) : SessionRuntime :=
  mkRuntime (rt_state rt) ({[key]} ∪ rt_requests rt) (rt_next_request_id rt).

Record registered (key : RequestKey) (e : RequestEntry) (r r' : RequestRegistry) : Prop := {
  rg_vacant : entries r !! key = None;
  rg_entries : entries r' = <[key := e]> (entries r);
  rg_entry : e_key e = key /\ e_state e = RequestState_as_u8 Pending /\
    e_generation e = next_generation r;
  rg_gen : next_generation r' = next_generation r + 1;
  rg_pending : pending_requests (counters r') = wrap 64 (pending_requests (counters r) + 1);
  rg_waiters : waiters r' = waiters r /\ chans r' = chans r /\ next_chan r' = next_chan r;
  rg_sessions : sessions r' = sessions r /\ next_runtime r' = next_runtime r;
  rg_runtimes : match k_session_id key with
    | None => runtimes r' = runtimes r
    | Some sid => exists l rt, sessions r !! sid = Some l /\ runtimes r !! l = Some rt /\
        runtimes r' = <[l := link key rt]> (runtimes r)
    end;
  rg_bucket_count : bucket_count r' = bucket_count r /\ length (buckets r') = length (buckets r);
  rg_tick : current_tick r' = current_tick r;
  rg_buckets : forall i b, buckets r !! i = Some b ->
    exists b', buckets r' !! i = Some b' /\ forall k, k ∈ b -> k ∈ b';
  rg_wheel : k_direction key = Inbound -> exists i b, buckets r' !! i = Some b /\ key ∈ b
}.

Lemma registered_linked key e r r' l rt :
  registered key e r r' -> runtimes r' !! l = Some rt ->
  exists rt0, runtimes r !! l = Some rt0 /\ rt_state rt = rt_state rt0 /\
    rt_requests rt0 ⊆ rt_requests rt /\ rt_requests rt ⊆ {[key]} ∪ rt_requests rt0 /\
    (key ∈ rt_requests rt -> key ∈ rt_requests rt0 \/
       exists sid, k_session_id key = Some sid /\ sessions r !! sid = Some l).
Proof.
  intros H. pose proof (rg_runtimes _ _ _ _ H) as Hrt.
  destruct (k_session_id key) as [sid|] eqn:Hk.
  - destruct Hrt as (l0 & rt0 & Hs & Hl & ->). rewrite lookup_insert_Some.
    intros [[<- <-]|[_ Hl']].
    + exists rt0. split_and!; simpl; [done|done|set_solver|done|]. eauto.
    + exists rt. split_and!; [done|done|set_solver|set_solver|tauto].
  - rewrite Hrt. intros Hl'. exists rt. split_and!; [done|done|set_solver|set_solver|tauto].
Qed.

Lemma registered_fwd key e r r' l rt :
  registered key e r r' -> runtimes r !! l = Some rt ->
  exists rt', runtimes r' !! l = Some rt' /\ rt_state rt' = rt_state rt /\
    rt_requests rt ⊆ rt_requests rt'.
Proof.
  intros H Hl. pose proof (rg_runtimes _ _ _ _ H) as Hrt.
  destruct (k_session_id key) as [sid|].
  - destruct Hrt as (l0 & rt0 & Hs & Hl0 & ->). destruct (decide (l = l0)) as [->|].
    + simplify_eq. exists (link key rt). rewrite lookup_insert_eq. simpl. split_and!; [done..|set_solver].
    + exists rt. rewrite lookup_insert_ne by done. split_and!; [done..|set_solver].
  - exists rt. rewrite Hrt. split_and!; [done..|set_solver].
Qed.

Lemma wf_registered X key e r r' : wf X r -> registered key e r r' -> wf X r'.
Proof.
  intros Hwf Hr. pose proof Hr as [Hv He (Hek & Hes & Heg) Hg Hp (Hw & Hc & Hnc) (Hs & Hnr) Hrt (Hbc & Hbl) _ _ _].
  wf_destruct Hwf.
  assert (Hl : forall k e', entries r' !! k = Some e' -> (k = key /\ e' = e) \/ (k <> key /\ entries r !! k = Some e')).
  { intros k e'. rewrite He, lookup_insert_Some. intros [[<- <-]|[Hne H]]; [by left|right].
    split; [|done]. by intros <-. }
  assert (Hsome : forall k, is_Some (entries r !! k) -> is_Some (entries r' !! k)).
  { intros k [x Hx]. rewrite He, lookup_insert. case_decide; eauto. }
  split; rewrite ?Hw, ?Hc, ?Hnc, ?Hs, ?Hnr, ?Hbc, ?Hbl; try done.
  - intros k e' [[-> ->]|[_ H]]%Hl; eauto.
  - intros k e' [[-> ->]|[_ H]]%Hl; eauto.
  - intros k e' [[-> ->]|[_ H]]%Hl; [lia|]. destruct (wf_gen_bound0 k e' H). lia.
  - intros k1 k2 e1 e2 [[-> ->]|[_ H1]]%Hl [[-> ->]|[_ H2]]%Hl Hgg; [done| | |by eauto].
    + destruct (wf_gen_bound0 k2 e2 H2). lia.
    + destruct (wf_gen_bound0 k1 e1 H1). lia.
  - lia.
  - rewrite Hp, wf_pending0, He, map_size_insert_None by done. apply wrap64_succ.
  - intros k c Hk. destruct (wf_waiter_entry0 k c Hk). auto.
  - intros k e' [[-> ->]|[_ H]]%Hl; eauto.
  - intros sid l Hsl. destruct (wf_session_rt0 sid l Hsl) as (rt & Hl' & Ho).
    destruct (registered_fwd _ _ _ _ _ _ Hr Hl') as (rt' & ? & ? & _). exists rt'. split; [done|congruence].
  - intros l rt Hl'. destruct (registered_linked _ _ _ _ _ _ Hr Hl') as (rt0 & ? & _). eauto.
  - intros k e' sid [[-> ->]|[_ H]]%Hl Hsid HX.
    + rewrite Hsid in Hrt. destruct Hrt as (l & rt & ? & ? & ->).
      exists l, (link key rt). rewrite lookup_insert_eq. simpl. split_and!; [done..|set_solver].
    + destruct (wf_linked0 k e' sid H Hsid HX) as (l & rt & ? & Hl' & ?).
      destruct (registered_fwd _ _ _ _ _ _ Hr Hl') as (rt' & ? & _ & ?).
      exists l, rt'. split_and!; [done..|set_solver].
  - intros sid l rt k Hsl Hl' Hin.
    destruct (registered_linked _ _ _ _ _ _ Hr Hl') as (rt0 & H0 & _ & _ & Hsub & Hkey).
    destruct (decide (k = key)) as [->|Hne].
    + destruct (Hkey Hin) as [Hin0|(sid' & Hk & Hsl')].
      * destruct (wf_rt_sound0 sid l rt0 key) as [? Hx]; [done..|]. split; auto.
      * rewrite (wf_session_inj0 sid sid' l) by done. split; [done|].
        rewrite He, lookup_insert_eq. eauto.
    + destruct (wf_rt_sound0 sid l rt0 k) as [? Hx]; [done|done|set_solver|]. auto.
Qed.

Lemma wheeled_registered W key e r r' : wheeled W r -> registered key e r r' -> wheeled W r'.
Proof.
  intros Hw [_ He _ _ _ _ _ _ _ _ Hb Hk] k e'. rewrite He, lookup_insert_Some.
  intros [[<- <-]|[_ H]] Hst Hd HW; [by apply Hk|].
  destruct (Hw k e' H Hst Hd HW) as (i & b & Hi & Hin).
  destruct (Hb i b Hi) as (b' & ? & Hsub). eauto.
Qed.

Lemma evolves_registered key e r r' : registered key e r r' -> evolves r r'.
Proof.
  intros Hr. pose proof Hr as [_ He (_ & _ & Heg) Hg _ (_ & Hc & Hnc) _ _ _ _ _ _].
  split; rewrite ?Hc, ?Hnc; try done; try lia.
  - intros k e'. rewrite He, lookup_insert_Some. intros [[<- <-]|[_ H]]; [right; lia|left].
    exists e'. split; [done|by left].
  - intros l rt Hl. pose proof (rg_runtimes _ _ _ _ Hr) as Hrt. destruct (k_session_id key).
    + destruct Hrt as (l0 & rt0 & _ & Hl0 & ->). rewrite lookup_insert. case_decide; subst.
      * simplify_eq. exists (link key rt). split; [done|apply next_le_refl].
      * eauto with lia.
    + rewrite Hrt. eauto with lia.
Qed.

Lemma steady_registered key e r r' : registered key e r r' -> steady r r'.
Proof. intros [_ _ _ _ _ _ _ _ [? _] ? ? _]. by split. Qed.
