(* ===== verification/RegistryOps.v ===== *)
(** * The operations of the request registry, one by one

    What each operation of [request_registry.rs] does to a consistent
    registry, as one of the changes of [RegistryInv], and the labelled
    transition system of all of them. *)

From S2P Require Import Prelude Packet Registry RegistryInv.

Lemma quiet_counters g r :
  pending_requests (g (counters r)) = pending_requests (counters r) ->
  quiet r (upd_counters g r).
Proof. split; simpl; try done; lia. Qed.

Lemma upd_counters_compose f g r :
  upd_counters f (upd_counters g r) = upd_counters (fun c => f (g c)) r.
Proof. reflexivity. Qed.

Lemma bucket_index_lt `{Target} X r tick : wf X r -> (bucket_index r tick < length (buckets r))%nat.
Proof.
  intros Hwf. unfold bucket_index. rewrite (wf_buckets X r Hwf).
  pose proof (wf_bucket_count X r Hwf). pose proof (Z.mod_pos_bound (as_usize tick) (bucket_count r)).
  lia.
Qed.

(** ** Registration *)

Lemma reg_resolve_spec X key r :
  wf X r ->
  reg_resolve key r =
    match k_session_id key with
    | None => Some None
    | Some sid => match sessions r !! sid with Some l => Some (Some l) | None => None end
    end.
Proof.
  intros Hwf. unfold reg_resolve, runtime_of. destruct (k_session_id key) as [sid|]; [|done].
  simpl. destruct (sessions r !! sid) as [l|] eqn:Hs; [|done]. simpl.
  destruct (wf_session_rt X r Hwf sid l Hs) as (rt & -> & Ho). simpl.
  unfold is_open. by rewrite Ho.
Qed.

Definition accepts (key : RequestKey) (r : RequestRegistry) : bool :=
  bool_decide (entries r !! key = None) &&
  match k_session_id key with
  | None => true
  | Some sid => bool_decide (is_Some (sessions r !! sid))
  end.

(** What the first check of a registration finds. *)
Lemma reg_resolve_accepts X key r : wf X r ->
  match reg_resolve key r with
  | None => accepts key r = false
  | Some l => accepts key r = bool_decide (entries r !! key = None) /\
      match k_session_id key with
      | None => l = None
      | Some sid => exists l0 rt, l = Some l0 /\ sessions r !! sid = Some l0 /\
          runtimes r !! l0 = Some rt /\ is_open rt = true
      end
  end.
Proof.
  intros Hwf. rewrite (reg_resolve_spec X) by done. unfold accepts.
  destruct (k_session_id key) as [sid|]; [|by rewrite andb_true_r].
  destruct (sessions r !! sid) as [l|] eqn:Hs.
  - rewrite (bool_decide_true (is_Some _)) by eauto. rewrite andb_true_r. split; [done|].
    destruct (wf_session_rt X r Hwf sid l Hs) as (rt & ? & Ho). exists l, rt.
    unfold is_open. by rewrite Ho.
  - by rewrite (bool_decide_false (is_Some _)), andb_false_r by (intros [? ?]; congruence).
Qed.

Lemma schedule_buckets `{Target} key d now X r :
  wf X r -> exists i b, buckets r !! i = Some b /\
    buckets (schedule_for_deadline key d now r) = <[i := b ++ [key]]> (buckets r) /\
    schedule_for_deadline key d now r =
      upd_buckets (fun _ => <[i := b ++ [key]]> (buckets r)) r.
Proof.
  intros Hwf. unfold schedule_for_deadline. cbv zeta.
  set (t := saturating_add _ _ _). pose proof (bucket_index_lt X r t Hwf) as Hlt.
  destruct (lookup_lt_is_Some_2 _ _ Hlt) as [b Hb]. exists (bucket_index r t), b.
  assert (alter (fun b0 => b0 ++ [key]) (bucket_index r t) (buckets r) =
          <[bucket_index r t := b ++ [key]]> (buckets r)) as Heq.
  { apply list_eq. intros j. destruct (decide (j = bucket_index r t)) as [->|].
    - by rewrite list_lookup_alter_eq, Hb, list_lookup_insert_eq.
    - by rewrite list_lookup_alter_ne, list_lookup_insert_ne by done. }
  split_and!; [done|done|]. unfold upd_buckets. by rewrite Heq.
Qed.

(** Scheduling in a registry with the same wheel adds the key to one bucket. *)
Lemma schedule_adds `{Target} X key d now r r2 :
  wf X r -> buckets r2 = buckets r -> bucket_count r2 = bucket_count r ->
  tick_duration r2 = tick_duration r -> current_tick r2 = current_tick r ->
  exists f, schedule_for_deadline key d now r2 = upd_buckets f r2 /\
    length (f (buckets r)) = length (buckets r) /\
    (forall i b, buckets r !! i = Some b ->
      exists b', f (buckets r) !! i = Some b' /\ forall k, k ∈ b -> k ∈ b') /\
    exists i b, f (buckets r) !! i = Some b /\ key ∈ b.
Proof.
  intros Hwf Hb2 Hbc2 Htd2 Hct2.
  destruct (schedule_buckets key d now X r Hwf) as (i & b & Hib & Hbb & _).
  pose proof (lookup_lt_Some _ _ _ Hib) as Hlt.
  exists (fun _ => <[i := b ++ [key]]> (buckets r)). split_and!.
  - rewrite <- Hbb. unfold schedule_for_deadline, bucket_index, upd_buckets. simpl.
    by rewrite Hb2, Hbc2, Htd2, Hct2.
  - apply length_insert.
  - intros j b' Hj. destruct (decide (i = j)) as [->|].
    + simplify_eq. exists (b ++ [key]). rewrite list_lookup_insert_eq by done. split; [done|]. set_solver.
    + exists b'. by rewrite list_lookup_insert_ne.
  - exists i, (b ++ [key]). rewrite list_lookup_insert_eq by done. split; [done|]. set_solver.
Qed.

(** Publishing, linking and a change of the wheel make a registration. *)
Lemma registered_core key e g l f r :
  entries r !! key = None -> e_key e = key -> e_state e = RequestState_as_u8 Pending ->
  e_generation e = next_generation r -> g = next_generation r + 1 ->
  match k_session_id key with
  | None => l = None
  | Some sid => exists l0 rt, l = Some l0 /\ sessions r !! sid = Some l0 /\ runtimes r !! l0 = Some rt
  end ->
  length (f (buckets r)) = length (buckets r) ->
  (forall i b, buckets r !! i = Some b ->
    exists b', f (buckets r) !! i = Some b' /\ forall k, k ∈ b -> k ∈ b') ->
  (k_direction key = Inbound -> exists i b, f (buckets r) !! i = Some b /\ key ∈ b) ->
  let r1 := set_entry key e (pending_add (set_next_generation g r)) in
  let r2 := match l with Some l => reg_link key l r1 | None => r1 end in
  registered key e r (upd_buckets f r2).
Proof.
  intros Hv Hk Hs Hg -> Hl Hlen Hsub Hin r1 r2.
  assert (Hr2 : r2 = upd_runtimes (fun m => match l with
     | Some l => alter (link key) l m | None => m end) r1) by (by destruct l).
  rewrite Hr2. split; simpl; try done.
  destruct (k_session_id key); subst; [|done]. destruct Hl as (l0 & rt & -> & ? & Hrt).
  exists l0, rt. split_and!; [done..|]. apply map_eq. intros i. destruct (decide (i = l0)) as [->|].
  - by rewrite lookup_alter_eq, lookup_insert_eq, Hrt.
  - by rewrite lookup_alter_ne, lookup_insert_ne by done.
Qed.

Lemma upd_buckets_id r : upd_buckets (fun b => b) r = r.
Proof. by destruct r. Qed.

Lemma pending_add_sub X r : wf X r ->
  wrap 64 (wrap 64 (pending_requests (counters r) + 1) - 1) = pending_requests (counters r).
Proof.
  intros Hwf. rewrite (wf_pending X r Hwf). unfold wrap.
  rewrite Zminus_mod_idemp_l, Z.add_simpl_r. apply Z.mod_mod. lia.
Qed.

Lemma register_impl_spec `{Target} X key biz timeout (schedule : bool) now now' r :
  wf X r -> next_generation r < U64_MAX -> (k_direction key = Inbound -> schedule = true) ->
  let '(o, r') := register_impl key biz timeout schedule now now' r in
  if accepts key r then
    o = Some (mkToken (k_session_id key) (k_request_id key) (k_direction key) (next_generation r)) /\
    registered key (new_entry key biz timeout now (next_generation r)) r r'
  else o = None /\ quiet r r'.
Proof.
  intros Hwf Hng Hsch. unfold register_impl.
  pose proof (wf_next_gen X r Hwf) as Hg1. pose proof (reg_resolve_accepts X key r Hwf) as Hol.
  assert (Hw : wrap 64 (next_generation r + 1) = next_generation r + 1)
    by (apply wrap_small; unfold in_width, U64_MAX in *; lia).
  destruct (reg_resolve key r) as [l|]; [|rewrite Hol; split; [done|apply quiet_refl]].
  destruct Hol as [-> Hl]. unfold reg_generation. rewrite Hw. cbv zeta.
  unfold reg_publish. simpl (e_key _). simpl (entries (pending_add _)).
  case_bool_decide as Hv.
  - rewrite Hv. cbn [negb].
    set (e := new_entry key biz timeout now (next_generation r)).
    set (r1 := set_entry key e (pending_add (set_next_generation (next_generation r + 1) r))).
    set (r2 := match l with Some l => reg_link key l r1 | None => r1 end).
    assert (match l with Some l0 => (negb (runtime_is_open l0 (reg_link key l0 r1)), reg_link key l0 r1)
            | None => (false, r1) end = (false, r2)) as ->.
    { destruct l as [l|]; [|done]. unfold runtime_is_open, reg_link. simpl.
      destruct (k_session_id key); [|done]. destruct Hl as (l0 & rt & Hll & _ & Hrt & Ho).
      simplify_eq. rewrite lookup_alter_eq, Hrt. simpl. unfold is_open in *. simpl. by rewrite Ho. }
    assert (Hl' : match k_session_id key with
      | None => l = None
      | Some sid => exists l0 rt, l = Some l0 /\ sessions r !! sid = Some l0 /\ runtimes r !! l0 = Some rt
      end) by (destruct (k_session_id key); naive_solver).
    cbn [fst snd]. split; [done|]. destruct schedule.
    + destruct (schedule_adds X key (now + timeout) now' r r2 Hwf) as (f & -> & Hlen & Hsub & Hin);
        [by subst r2; destruct l..|].
      by apply registered_core.
    + rewrite <- (upd_buckets_id r2). apply registered_core; try done; [eauto|].
      intros Hd. by specialize (Hsch Hd).
  - destruct (entries r !! key) eqn:He; [|done]. cbn [negb]. split; [done|].
    split; simpl; try done; [|lia]. by apply (pending_add_sub X).
Qed.

(** ** Consistency and evolution together *)

Definition good (X W : gset RequestKey) (r : RequestRegistry) : Prop := wf X r /\ wheeled W r.

(** [r'] is reached from the consistent [r] by registry activity. *)
Definition advances (X W : gset RequestKey) (r r' : RequestRegistry) : Prop :=
  good X W r' /\ evolves r r'.

Lemma advances_trans X W r1 r2 r3 :
  advances X W r1 r2 -> (good X W r2 -> advances X W r2 r3) -> advances X W r1 r3.
Proof.
  intros [H1 H2] H. destruct (H H1) as [H3 H4]. split; [done|]. by transitivity r2.
Qed.

Lemma advances_refl X W r : good X W r -> advances X W r r.
Proof. intros H. split; [done|reflexivity]. Qed.

Lemma advances_quiet X W r r' : good X W r -> quiet r r' -> advances X W r r'.
Proof.
  intros [H1 H2] Hq. split; [split|]; eauto using wf_quiet, wheeled_quiet, evolves_quiet.
Qed.

Lemma advances_retired X W key fin r r' : good X W r -> retired key fin r r' -> advances X W r r'.
Proof.
  intros [H1 H2] Hq. split; [split|]; eauto using wf_retired, wheeled_retired, evolves_retired.
Qed.

Lemma advances_claimed X W key e r r' : good X W r -> claimed key e r r' -> advances X W r r'.
Proof.
  intros [H1 H2] Hq. split; [split|]; eauto using wf_claimed, wheeled_claimed, evolves_claimed.
Qed.

Lemma advances_registered X W key e r r' : good X W r -> registered key e r r' -> advances X W r r'.
Proof.
  intros [H1 H2] Hq.
  split; [split|]; eauto using wf_registered, wheeled_registered, evolves_registered.
Qed.

#[export] Hint Resolve quiet_refl advances_refl advances_quiet advances_retired advances_claimed
  advances_registered : msgtrans.

(** ** Claiming, completing and abandoning a request *)

Lemma begin_respond_spec X tok r : wf X r -> t_direction tok = Inbound ->
  let '(res, r') := begin_respond tok r in
  match entries r !! token_key tok with
  | Some e =>
      if bool_decide (e_generation e = t_generation tok) then
        if bool_decide (entry_state e = Pending)
        then res = Updated /\ claimed (token_key tok) e r r'
        else res = Already Responding /\ quiet r r'
      else res = NotFound /\ quiet r r'
  | None => res = NotFound /\ quiet r r'
  end.
Proof.
  intros Hwf Hd. unfold begin_respond. destruct (entries r !! token_key tok) as [e|] eqn:He;
    [|by split; [|apply quiet_counters]].
  case_bool_decide as Hg; [rewrite Hg, Z.eqb_refl|zbool; by split; [|apply quiet_counters]].
  cbn [negb]. destruct (wf_live_state X r _ e Hwf He) as (s & Hs & [-> | ->]);
    rewrite (try_transition_at e _ _ _ Hs), (entry_state_at e _ Hs).
  - rewrite bool_decide_true, decide_True by done. split; [done|].
    split; try done. unfold token_key. by rewrite Hd.
  - rewrite bool_decide_false, decide_False by done. rewrite decide_True by auto.
    by split; [|apply quiet_counters].
Qed.

Lemma unwaited_inbound X key e r :
  wf X r -> entries r !! key = Some e -> k_direction key = Inbound -> waiters r !! key = None.
Proof.
  intros Hwf He Hd. destruct (waiters r !! key) eqn:E; [|done].
  destruct (wf_waiter_entry X r Hwf key _ E). congruence.
Qed.

Lemma responding_inbound X key e r :
  wf X r -> entries r !! key = Some e -> entry_state e = Responding -> k_direction key = Inbound.
Proof.
  intros Hwf He Hs. destruct (k_direction key) eqn:Hd; [done|].
  rewrite (entry_state_at e Pending) in Hs by (by eapply wf_outbound). done.
Qed.

Lemma finish_respond_spec X tok ok r : wf X r ->
  let '(res, r') := finish_respond tok ok r in
  match entries r !! token_key tok with
  | Some e =>
      if bool_decide (e_generation e = t_generation tok) then
        if bool_decide (entry_state e = Responding)
        then res = Updated /\ retired (token_key tok) ChanClosed r r'
        else res = Already Pending /\ r' = r
      else res = NotFound /\ r' = r
  | None => res = NotFound /\ r' = r
  end.
Proof.
  intros Hwf. unfold finish_respond. destruct (entries r !! token_key tok) as [e|] eqn:He; [|done].
  case_bool_decide as Hg; [rewrite Hg, Z.eqb_refl|by zbool]. cbn [negb].
  destruct (wf_live_state X r _ e Hwf He) as (s & Hs & [-> | ->]);
    rewrite (try_transition_at e _ _ _ Hs), (entry_state_at e _ Hs).
  - by rewrite bool_decide_false, decide_False by done.
  - rewrite bool_decide_true, decide_True by done. split; [done|].
    apply retired_unwaited.
    + eapply unwaited_inbound; eauto using responding_inbound, entry_state_at.
    + unfold pending_sub, send_failed_inc. destruct ok; rewrite ?upd_counters_compose;
        by apply (settled_remove (token_key tok) r e _ _ He).
Qed.

(** An operation that retires a pending entry. *)
Lemma abort_request_token_spec X tok r : wf X r ->
  let '(res, r') := abort_request_token tok r in
  match entries r !! token_key tok with
  | Some e =>
      if bool_decide (e_generation e = t_generation tok) && bool_decide (entry_state e = Pending)
      then res = true /\ retired (token_key tok) ChanClosed r r'
      else res = false /\ r' = r
  | None => res = false /\ r' = r
  end.
Proof.
  intros Hwf. unfold abort_request_token. destruct (entries r !! token_key tok) as [e|] eqn:He; [|done].
  case_bool_decide as Hg; [rewrite Hg, Z.eqb_refl|by zbool]. cbn [negb].
  destruct (wf_live_state X r _ e Hwf He) as (s & Hs & [-> | ->]);
    rewrite (try_transition_at e _ _ _ Hs), (entry_state_at e _ Hs).
  - rewrite bool_decide_true, decide_True by done. split; [done|].
    apply retired_drop, (settled_remove (token_key tok) r e _ _ He). done.
  - by rewrite bool_decide_false, decide_False by done.
Qed.

Lemma mark_timed_out_spec X key r : wf X r ->
  let '(res, r') := mark_timed_out key r in
  match entries r !! key with
  | Some e =>
      if bool_decide (entry_state e = Pending) then res = Updated /\ retired key ChanClosed r r'
      else res = Already Responding /\ r' = r
  | None => res = NotFound /\ r' = r
  end.
Proof.
  intros Hwf. unfold mark_timed_out. destruct (entries r !! key) as [e|] eqn:He; [|done].
  destruct (wf_live_state X r _ e Hwf He) as (s & Hs & [-> | ->]);
    rewrite (try_transition_at e _ _ _ Hs), (entry_state_at e _ Hs).
  - rewrite bool_decide_true, decide_True by done. split; [done|].
    apply retired_drop. unfold timeout_inc, pending_sub. rewrite upd_counters_compose.
    by apply (settled_remove key r e _ _ He).
  - by rewrite bool_decide_false, decide_False by done.
Qed.

Lemma complete_waiter_spec X sid rid p r : wf X r ->
  let key := outbound sid rid in
  let '(res, r') := complete_waiter sid rid p r in
  match entries r !! key with
  | Some e => res = true /\ retired key (ChanSent p) r r'
  | None => res = false /\ quiet r r'
  end.
Proof.
  intros Hwf key. unfold complete_waiter. fold key. unfold mark_responded_key.
  destruct (entries r !! key) as [e|] eqn:He; [|split; [done|by apply quiet_counters]].
  pose proof (wf_outbound X r Hwf key e He eq_refl) as Hs.
  rewrite (try_transition_at e _ _ _ Hs), decide_True by done.
  assert (settled key r (remove_terminal_entry key (pending_sub (set_entry key (with_state e Responded) r))))
    as Hset by (by apply (settled_remove key r e)).
  split; [done|by apply retired_send].
Qed.

Lemma abort_waiter_spec X sid rid r : wf X r ->
  let key := outbound sid rid in
  let '(res, r') := abort_waiter sid rid r in
  match entries r !! key with
  | Some e => res = true /\ retired key ChanClosed r r'
  | None => res = false /\ r' = r
  end.
Proof.
  intros Hwf key. unfold abort_waiter. fold key. unfold mark_dropped_key.
  destruct (entries r !! key) as [e|] eqn:He.
  - pose proof (wf_outbound X r Hwf key e He eq_refl) as Hs.
    rewrite (try_transition_at e _ _ _ Hs), decide_True by done.
    rewrite bool_decide_true by done. split; [done|].
    by apply retired_drop, (settled_remove key r e).
  - rewrite bool_decide_false by done. split; [done|]. unfold waiters_remove_drop.
    destruct (waiters r !! key) eqn:E; [|done].
    destruct (wf_waiter_entry X r Hwf key _ E) as [_ [? ?]]. congruence.
Qed.

(** Nothing the requests depend on changed. *)
Lemma evolves_same r r' :
  entries r' = entries r -> chans r' = chans r -> next_chan r' = next_chan r ->
  next_generation r' = next_generation r ->
  (forall l rt, runtimes r !! l = Some rt ->
    exists rt', runtimes r' !! l = Some rt' /\ next_le (rt_next_request_id rt) (rt_next_request_id rt')) ->
  evolves r r'.
Proof.
  intros He Hc Hn Hg Hr. split; rewrite ?He, ?Hc, ?Hn, ?Hg; try done.
  intros k e ?. left. exists e. split; [done|by left].
Qed.

Lemma runtimes_alter_next f (l : nat) (m : gmap nat SessionRuntime) :
  (forall rt, next_le (rt_next_request_id rt) (rt_next_request_id (f rt))) ->
  forall i rt, m !! i = Some rt ->
    exists rt', alter f l m !! i = Some rt' /\ next_le (rt_next_request_id rt) (rt_next_request_id rt').
Proof.
  intros Hf i rt Hi. rewrite lookup_alter. case_decide; subst; [|eauto with lia].
  rewrite Hi. simpl. eauto.
Qed.

(** ** Sessions and identifiers *)

Lemma open_session_advances X W sid r : good X W r -> advances X W r (open_session sid r).
Proof.
  intros [Hwf Hwh]. unfold open_session. destruct (sessions r !! sid) as [l|] eqn:Hs;
    [by apply advances_refl|].
  cbn. split; [split|].
  2: { exact Hwh. }
  2: { apply evolves_same; try done. intros l rt Hl. simpl. rewrite lookup_insert.
       case_decide; subst; [|eauto with lia]. pose proof (wf_rt_bound X r Hwf _ rt Hl). lia. }
  assert (Hfresh : forall l rt, runtimes r !! l = Some rt -> l <> next_runtime r).
  { intros l rt Hl. pose proof (wf_rt_bound X r Hwf l rt Hl). lia. }
  assert (Hsl : forall s l, sessions r !! s = Some l -> l <> next_runtime r).
  { intros s l Hl. destruct (wf_session_rt X r Hwf s l Hl) as (rt & ? & _). eauto. }
  wf_destruct Hwf. split; simpl; try done.
  - intros s l. rewrite lookup_insert_Some. intros [[<- <-]|[_ Hl]].
    + exists SessionRuntime_new. by rewrite lookup_insert_eq.
    + destruct (wf_session_rt0 s l Hl) as (rt & ? & ?). exists rt.
      rewrite lookup_insert_ne by (symmetry; eauto). done.
  - intros s1 s2 l. rewrite !lookup_insert_Some. intros [[<- <-]|[Hn1 H1]] [[<- E]|[Hn2 H2]]; try done.
    + by apply Hsl in H2.
    + subst. by apply Hsl in H1.
    + eauto.
  - intros l rt. rewrite lookup_insert_Some. intros [[<- <-]|[_ Hl]]; [lia|].
    apply wf_rt_bound0 in Hl. lia.
  - intros k e s He Hk HX. destruct (wf_linked0 k e s He Hk HX) as (l & rt & Hl & Hrt & Hin).
    exists l, rt. rewrite lookup_insert_ne by congruence.
    rewrite lookup_insert_ne by (symmetry; eauto). done.
  - intros s l rt k. rewrite !lookup_insert_Some. intros [[<- <-]|[_ Hl]] [[E <-]|[Hne Hrt]] Hin.
    + done.
    + by destruct Hne.
    + subst. by apply Hsl in Hl.
    + eauto.
Qed.

Lemma next_oneway_id_quiet r : quiet r (next_oneway_id r).2.
Proof. split; simpl; try done; lia. Qed.

(** Overwriting a runtime without touching its state or its requests. *)
Lemma wf_runtime_id X l rt n r :
  wf X r -> runtimes r !! l = Some rt ->
  wf X (upd_runtimes (insert l (mkRuntime (rt_state rt) (rt_requests rt) n)) r).
Proof.
  intros Hwf Hl. wf_destruct Hwf. split; simpl; try done.
  - intros s l' Hs. destruct (wf_session_rt0 s l' Hs) as (rt' & Hrt' & ?).
    destruct (decide (l = l')) as [->|]; [|exists rt'; by rewrite lookup_insert_ne].
    rewrite lookup_insert_eq. simplify_eq. eauto.
  - intros l' rt'. rewrite lookup_insert_Some. intros [[<- <-]|[_ ?]]; eauto.
  - intros k e s He Hk HX. destruct (wf_linked0 k e s He Hk HX) as (l' & rt' & Hs & Hrt' & Hin).
    exists l'. destruct (decide (l = l')) as [->|]; [|exists rt'; by rewrite lookup_insert_ne].
    rewrite lookup_insert_eq. simplify_eq. eauto.
  - intros s l' rt' k Hs. rewrite lookup_insert_Some. intros [[<- <-]|[_ ?]] Hin; [|eauto].
    simpl in Hin. eauto.
Qed.

Lemma next_request_id_advances X W sid r : good X W r -> advances X W r (next_request_id sid r).2.
Proof.
  intros Hg. destruct Hg as [Hwf Hwh]. unfold next_request_id, runtime_of.
  destruct sid as [sid|]; simpl.
  - destruct (sessions r !! sid) as [l|] eqn:Hs; simpl; [|by apply advances_refl].
    destruct (runtimes r !! l) as [rt|] eqn:Hrt; simpl; [|by apply advances_refl].
    destruct (is_open rt); simpl; [|by apply advances_refl].
    zcase; [by apply advances_refl|]. simpl.
    split; [split|].
    + by apply wf_runtime_id.
    + exact Hwh.
    + apply evolves_same; try done. intros l' rt' Hl'. simpl. rewrite lookup_insert.
      case_decide; subst; simplify_eq; [eexists; split; [done|unfold next_le; simpl; lia]|eauto with lia].
  - apply advances_quiet; [done|]. apply next_oneway_id_quiet.
Qed.

(** ** Waiters *)

Lemma waiters_insert_advances X W key e r :
  good X W r -> entries r !! key = Some e -> k_direction key = Outbound ->
  waiters r !! key = None -> advances X W r (waiters_insert_new key r).2.
Proof.
  intros [Hwf Hwh] He Hd Hn. unfold waiters_insert_new. rewrite Hn. cbn [snd].
  assert (Hfr : forall c x, chans r !! c = Some x -> c <> next_chan r).
  { intros c x Hc. pose proof (wf_chan_bound X r Hwf c x Hc). lia. }
  assert (Hwc : forall k c, waiters r !! k = Some c -> c <> next_chan r).
  { intros k c Hk. pose proof (wf_waiter_chan X r Hwf k c Hk). eauto. }
  split; [split|].
  - wf_destruct Hwf. split; simpl; try done.
    + intros k c. rewrite lookup_insert_Some. intros [[<- <-]|[_ Hk]]; eauto.
    + intros k c. rewrite lookup_insert_Some. intros [[<- <-]|[_ Hk]]; [apply lookup_insert_eq|].
      rewrite lookup_insert_ne by (symmetry; eauto). eauto.
    + intros k1 k2 c. rewrite !lookup_insert_Some. intros [[<- <-]|[_ H1]] [[<- E]|[_ H2]]; try done.
      * by apply Hwc in H2.
      * subst. by apply Hwc in H1.
      * eauto.
    + intros c x. rewrite lookup_insert_Some. intros [[<- <-]|[_ Hc]]; [lia|].
      apply wf_chan_bound0 in Hc. lia.
  - exact Hwh.
  - split; simpl; try done; try lia.
    + intros k e' ?. left. exists e'. split; [done|by left].
    + intros c x Hc _. rewrite lookup_insert_ne by (symmetry; eauto). done.
    + intros c Hc Hlt. rewrite lookup_insert_ne by lia. done.
    + eauto with lia.
Qed.

Lemma try_register_waiter_spec `{Target} W sid rid biz timeout now r :
  good ∅ W r -> next_generation r < U64_MAX ->
  let key := outbound sid rid in
  let '(o, r') := try_register_waiter rid sid biz timeout now r in
  advances ∅ W r r' /\ next_generation r' <= next_generation r + 1 /\
  steady r r' /\ sessions r' = sessions r /\
  if accepts key r then
    o = Some (next_chan r, mkToken sid rid Outbound (next_generation r)) /\
    entries r' = <[key := new_entry key biz timeout now (next_generation r)]> (entries r) /\
    waiters r' = <[key := next_chan r]> (waiters r) /\ chans r' !! next_chan r = Some ChanWaiting
  else o = None /\ entries r' = entries r /\ waiters r' = waiters r.
Proof.
  intros Hg Hng key. pose proof Hg as [Hwf Hwh]. unfold try_register_waiter. fold key.
  pose proof (register_impl_spec ∅ key biz timeout false now now r Hwf Hng) as Hspec.
  destruct (register_impl key biz timeout false now now r) as [o r1] eqn:Himpl.
  specialize (Hspec ltac:(discriminate)). destruct (accepts key r).
  - destruct Hspec as [-> Hr].
    assert (Hadv : advances ∅ W r r1) by eauto with msgtrans.
    destruct (rg_waiters _ _ _ _ Hr) as (Hw & Hc & Hnc).
    assert (Hn : waiters r1 !! key = None).
    { rewrite Hw. destruct (waiters r !! key) eqn:E; [|done].
      destruct (wf_waiter_entry _ _ Hwf _ _ E) as [_ [? ?]].
      pose proof (rg_vacant _ _ _ _ Hr). congruence. }
    destruct (waiters_insert_new key r1) as [rx r2] eqn:Hins.
    assert (He : entries r1 = <[key := new_entry key biz timeout now (next_generation r)]> (entries r))
      by apply Hr.
    assert (Hadv2 : advances ∅ W r1 r2).
    { replace r2 with (waiters_insert_new key r1).2 by (by rewrite Hins).
      eapply waiters_insert_advances; [apply Hadv|rewrite He; apply lookup_insert_eq|done|done]. }
    assert (Hadv3 : advances ∅ W r r2) by (eapply advances_trans; [exact Hadv|done]).
    unfold waiters_insert_new in Hins. rewrite Hn in Hins. simplify_eq/=.
    rewrite He, lookup_insert_eq. simpl. rewrite He, Hw, Hnc.
    split_and!; try done.
    + by rewrite Hw, Hnc in Hadv3.
    + rewrite (rg_gen _ _ _ _ Hr). lia.
    + transitivity r1; [by eapply steady_registered|by apply steady_same].
    + apply (rg_sessions _ _ _ _ Hr).
    + by rewrite lookup_insert_eq.
  - destruct Hspec as [-> Hq]. split_and!; try apply Hq; try done.
    + by apply advances_quiet.
    + by apply steady_quiet.
Qed.

(** ** Closing a session *)

(** Of the keys [ks], [r'] keeps neither entry nor waiter, and the waiters'
    receivers observe the closure; every other request is untouched. *)
Record drained (P : RequestKey -> Prop) `{forall k, Decision (P k)} (n : nat)
    (r r' : RequestRegistry) : Prop := {
  dr_entries : forall k, entries r' !! k = if decide (P k) then None else entries r !! k;
  dr_waiters : forall k, waiters r' !! k = if decide (P k) then None else waiters r !! k;
  dr_chans : forall k c, waiters r !! k = Some c ->
    chans r' !! c = Some (if decide (P k) then ChanClosed else ChanWaiting);
  dr_count : (n + size (entries r'))%nat = size (entries r);
  dr_gen : next_generation r' = next_generation r
}.

Lemma drain_key_spec X n sid key r :
  wf X r -> k_session_id key = Some sid -> sessions r !! sid = None ->
  let '(n', r') := drain_key (n, r) key in
  match entries r !! key with
  | Some e => n' = S n /\ retired key ChanClosed r r' /\
      session_closed_pending_total (counters r') = session_closed_pending_total (counters r)
  | None => n' = n /\ r' = r
  end.
Proof.
  intros Hwf Hk Hs. unfold drain_key. destruct (entries r !! key) as [e|] eqn:He; [|done].
  assert (Hset : forall s, settled key r
    (upd_entries (delete key) (pending_sub (set_entry key (with_state e s) r)))).
  { intros s. split; simpl; try done; [apply delete_insert_eq|]. unfold unlinked. by rewrite Hk, Hs. }
  assert (Hcc : forall s, session_closed_pending_total (counters (waiters_remove_drop key
    (upd_entries (delete key) (pending_sub (set_entry key (with_state e s) r))))) =
    session_closed_pending_total (counters r)).
  { intros s. pose proof (waiters_remove_drop_rest key
      (upd_entries (delete key) (pending_sub (set_entry key (with_state e s) r)))) as Hr.
    cbv zeta in Hr. by rewrite (proj1 (proj2 Hr)). }
  destruct (wf_live_state X r _ e Hwf He) as (s & Hst & [-> | ->]).
  - rewrite (try_transition_at e _ _ _ Hst), decide_True by done.
    split_and!; eauto using retired_drop.
  - rewrite !(try_transition_at e _ _ _ Hst), decide_False, decide_True by done.
    split_and!; eauto using retired_drop.
Qed.

Lemma retired_size key fin r r' : retired key fin r r' -> size (entries r) = S (size (entries r')).
Proof.
  intros [[e Hwas] -> _ _ _ _ _ _ _ _]. rewrite map_size_delete_Some by eauto.
  assert (size (entries r) <> 0%nat); [|lia]. intros Hz.
  apply map_size_empty_iff in Hz. by rewrite Hz in Hwas.
Qed.

(** Draining one more key before the others: one that was retired, or one
    that had no entry. *)
Lemma drained_cons_retired X W k ks n r r1 r' :
  good X W r -> retired k ChanClosed r r1 -> evolves r1 r' ->
  drained (.∈ ks) n r1 r' -> drained (.∈ k :: ks) (S n) r r'.
Proof.
  intros Hg Hret Hev [De Dw Dc Dn Dg].
  pose proof (ret_entries _ _ _ _ Hret) as He1. pose proof (ret_waiters _ _ _ _ Hret) as Hw1. split.
  - intros k'. rewrite De, He1. destruct (decide (k' = k)) as [->|Hne].
    + rewrite (decide_True (P := k ∈ k :: ks)) by set_solver. rewrite lookup_delete_eq. by case_decide.
    + rewrite lookup_delete_ne by done. repeat case_decide; set_solver.
  - intros k'. rewrite Dw, Hw1. destruct (decide (k' = k)) as [->|Hne].
    + rewrite (decide_True (P := k ∈ k :: ks)) by set_solver. rewrite lookup_delete_eq. by case_decide.
    + rewrite lookup_delete_ne by done. repeat case_decide; set_solver.
  - intros k' c Hc. destruct (decide (k' = k)) as [->|Hne].
    + rewrite decide_True by set_solver. apply (ev_chans _ _ Hev); [|done].
      apply (ret_final _ _ _ _ Hret); [done|]. by eapply wf_waiter_chan; [apply Hg|].
    + rewrite (Dc k' c) by (by rewrite Hw1, lookup_delete_ne). repeat case_decide; set_solver.
  - rewrite (retired_size k _ r r1 Hret). lia.
  - rewrite Dg. apply Hret.
Qed.

Lemma drained_cons_absent X k ks n r r' :
  wf X r -> entries r !! k = None -> drained (.∈ ks) n r r' -> drained (.∈ k :: ks) n r r'.
Proof.
  intros Hwf He [De Dw Dc Dn Dg].
  assert (Hnw : waiters r !! k = None).
  { destruct (waiters r !! k) eqn:E; [|done].
    destruct (wf_waiter_entry _ _ Hwf _ _ E) as [_ [? ?]]. congruence. }
  split; try done.
  - intros k'. rewrite De. destruct (decide (k' = k)) as [->|Hne].
    + rewrite He. by repeat case_decide.
    + repeat case_decide; set_solver.
  - intros k'. rewrite Dw. destruct (decide (k' = k)) as [->|Hne].
    + rewrite Hnw. by repeat case_decide.
    + repeat case_decide; set_solver.
  - intros k' c Hc. destruct (decide (k' = k)) as [->|Hne]; [congruence|].
    rewrite (Dc k' c Hc). repeat case_decide; set_solver.
Qed.

Lemma drain_keys_spec sid ks : forall X W n r,
  good X W r -> sessions r !! sid = None -> Forall (fun k => k_session_id k = Some sid) ks ->
  let '(n', r') := foldl drain_key (n, r) ks in
  good (X ∖ list_to_set ks) W r' /\ evolves r r' /\ sessions r' = sessions r /\
  runtimes r' = runtimes r /\ (n <= n')%nat /\ steady r r' /\
  session_closed_pending_total (counters r') = session_closed_pending_total (counters r) /\
  drained (.∈ ks) (n' - n) r r'.
Proof.
  induction ks as [|k ks IH]; intros X W n r Hg Hs Hks; cbn [foldl list_to_set].
  - split_and!; try done.
    + destruct Hg. split; [|done]. eapply wf_weaken; [|done]. set_solver.
    + split; intros; rewrite ?decide_False by set_solver; try done.
      * by eapply wf_waiter_chan; [apply Hg|].
      * lia.
  - inversion Hks as [|? ? Hk Hks']; subst.
    pose proof (drain_key_spec X n sid k r (proj1 Hg) Hk Hs) as Hd.
    destruct (drain_key (n, r) k) as [n1 r1]. destruct (entries r !! k) as [e|] eqn:He.
    + destruct Hd as (-> & Hret & Hcc).
      destruct (advances_retired X W k _ r r1 Hg Hret) as [[Hwf1 Hwh1] Hev1].
      assert (Hnone : entries r1 !! k = None) by (rewrite (ret_entries _ _ _ _ Hret); apply lookup_delete_eq).
      pose proof (wf_drop_except X r1 k Hwf1 Hnone) as Hwf1'.
      pose proof (ret_sessions _ _ _ _ Hret) as Hs1.
      assert (Hrt1 : runtimes r1 = runtimes r).
      { rewrite (ret_runtimes _ _ _ _ Hret). unfold unlinked. by rewrite Hk, Hs. }
      specialize (IH (X ∖ {[k]}) W (S n) r1 (conj Hwf1' Hwh1)).
      rewrite Hs1 in IH. specialize (IH Hs Hks').
      destruct (foldl drain_key (S n, r1) ks) as [n' r'].
      destruct IH as ([Hwf' Hwh'] & Hev & Hs' & Hrt' & Hn' & Hst' & Hcc' & Hdr).
      cbn beta iota.
      split_and!; [split; [|done]| | | | | | |]; try congruence; try lia.
      * eapply wf_weaken; [|exact Hwf']. set_solver.
      * by transitivity r1.
      * transitivity r1; [by eapply steady_retired|done].
      * replace (n' - n)%nat with (S (n' - S n)) by lia. by eapply drained_cons_retired.
    + destruct Hd as [-> ->]. pose proof (wf_drop_except X r k (proj1 Hg) He) as Hwf1.
      specialize (IH (X ∖ {[k]}) W n r (conj Hwf1 (proj2 Hg)) Hs Hks').
      destruct (foldl drain_key (n, r) ks) as [n' r'].
      destruct IH as ([Hwf' Hwh'] & Hev & Hs' & Hrt' & Hn' & Hst' & Hcc' & Hdr).
      cbn beta iota. split_and!; try done; [split; [|done]|].
      * eapply wf_weaken; [|exact Hwf']. set_solver.
      * eapply drained_cons_absent; [apply Hg|done..].
Qed.

(** Taking the session out of the map suspends the links of its requests. *)
Lemma wf_detach W sid l rt r :
  good ∅ W r -> sessions r !! sid = Some l -> runtimes r !! l = Some rt ->
  good (rt_requests rt) W (close_runtime l (upd_sessions (delete sid) r)).
Proof.
  intros [Hwf Hwh] Hs Hrt. split; [|exact Hwh].
  assert (Hne : forall s l', delete sid (sessions r) !! s = Some l' -> s <> sid /\ l' <> l /\ sessions r !! s = Some l').
  { intros s l' [Hne Hl]%lookup_delete_Some. split_and!; [done| |done].
    intros ->. apply Hne. by apply (wf_session_inj _ _ Hwf sid s l). }
  wf_destruct Hwf. split; simpl; try done.
  - intros s l' (_ & Hll & Hl)%Hne. destruct (wf_session_rt0 s l' Hl) as (rt' & ? & ?).
    exists rt'. by rewrite lookup_alter_ne.
  - intros s1 s2 l' (_ & _ & H1)%Hne (_ & _ & H2)%Hne. eauto.
  - intros l' rt'. rewrite lookup_alter. case_decide as Hd; subst.
    + rewrite Hrt. eauto.
    + eauto.
  - intros k e s He Hk Hni. destruct (wf_linked0 k e s He Hk) as (l' & rt' & Hl & Hr & Hin);
      [set_solver|].
    destruct (decide (s = sid)) as [->|]; [simplify_eq; done|].
    exists l', rt'. rewrite lookup_delete_ne by done. split_and!; [done| |done].
    rewrite lookup_alter_ne; [done|]. intros ->. by assert (s = sid) by eauto.
  - intros s l' rt' k (_ & Hll & Hl)%Hne. rewrite lookup_alter_ne by done. eauto.
Qed.

(** A runtime no session points to may change freely. *)
Lemma good_dead_runtime X W l f r :
  good X W r -> (forall s, sessions r !! s <> Some l) ->
  good X W (upd_runtimes (alter f l) r).
Proof.
  intros [Hwf Hwh] Hd. split; [|exact Hwh]. wf_destruct Hwf. split; simpl; try done.
  - intros s l' Hl. destruct (wf_session_rt0 s l' Hl) as (rt & ? & ?). exists rt.
    rewrite lookup_alter_ne; [done|]. intros ->. by eapply Hd.
  - intros l' rt'. rewrite lookup_alter. case_decide; subst; [|eauto].
    intros (rt & Hr & _)%fmap_Some. eauto.
  - intros k e s He Hk HX. destruct (wf_linked0 k e s He Hk HX) as (l' & rt & Hl & ? & ?).
    exists l', rt. rewrite lookup_alter_ne; [done|]. intros ->. by eapply Hd.
  - intros s l' rt k Hl. rewrite lookup_alter_ne; [eauto|]. intros ->. by eapply Hd.
Qed.

Definition of_session (sid : Z) (k : RequestKey) : Prop := k_session_id k = Some sid.
#[export] Instance of_session_dec sid k : Decision (of_session sid k).
Proof. unfold of_session. apply _. Defined.

(** A session that is not there has no request, and nothing is drained. *)
Lemma drained_no_session sid r : wf ∅ r -> sessions r !! sid = None -> drained (of_session sid) 0 r r.
Proof.
  intros Hwf Hs.
  assert (Hno : forall k, of_session sid k -> entries r !! k = None).
  { intros k Hk. destruct (entries r !! k) eqn:E; [|done].
    destruct (wf_linked _ _ Hwf k _ sid E Hk) as (l & rt & ? & _); [set_solver|congruence]. }
  assert (Hnw : forall k, of_session sid k -> waiters r !! k = None).
  { intros k Hk. destruct (waiters r !! k) eqn:E; [|done].
    destruct (wf_waiter_entry _ _ Hwf _ _ E) as [_ [? ?]]. rewrite Hno in *; done. }
  split; try done.
  - intros k. case_decide; auto.
  - intros k. case_decide; auto.
  - intros k c Hc. case_decide; [rewrite Hnw in Hc; done|]. by eapply wf_waiter_chan.
Qed.

(** A draining that took the same live requests, seen from an equal start and
    an equal end. *)
Lemma drained_ext P `{forall k, Decision (P k)} Q `{forall k, Decision (Q k)} n r r0 r1 r' :
  wf ∅ r -> entries r0 = entries r -> waiters r0 = waiters r -> next_generation r0 = next_generation r ->
  entries r' = entries r1 -> waiters r' = waiters r1 -> chans r' = chans r1 ->
  next_generation r' = next_generation r1 ->
  (forall k, is_Some (entries r !! k) -> P k <-> Q k) ->
  drained P n r0 r1 -> drained Q n r r'.
Proof.
  intros Hwf E0 W0 G0 E1 W1 C1 G1 Hiff [De Dw Dc Dn Dg].
  assert (Hw : forall k c, waiters r !! k = Some c -> P k <-> Q k).
  { intros k c Hc. apply Hiff. by destruct (wf_waiter_entry _ _ Hwf _ _ Hc). }
  rewrite E0 in De, Dn. rewrite W0 in Dw, Dc. split.
  - intros k. rewrite E1, De. destruct (entries r !! k) eqn:E; [|by repeat case_decide].
    assert (Hk := Hiff k ltac:(eauto)). repeat case_decide; tauto.
  - intros k. rewrite W1, Dw. destruct (waiters r !! k) eqn:E; [|by repeat case_decide].
    assert (Hk := Hw k _ E). repeat case_decide; tauto.
  - intros k c Hc. rewrite C1, (Dc k c Hc). assert (Hk := Hw k _ Hc). repeat case_decide; tauto.
  - by rewrite E1.
  - by rewrite G1, Dg.
Qed.

Lemma close_session_spec W sid r :
  good ∅ W r ->
  let '(n, r') := close_session_pending sid r in
  advances ∅ W r r' /\ drained (of_session sid) n r r' /\
  sessions r' = delete sid (sessions r) /\ steady r r' /\
  session_closed_pending_total (counters r') =
    (if decide (n = 0%nat) then session_closed_pending_total (counters r)
     else wrap 64 (session_closed_pending_total (counters r) + Z.of_nat n)).
Proof.
  intros Hg. pose proof Hg as [Hwf Hwh]. unfold close_session_pending.
  destruct (sessions r !! sid) as [l|] eqn:Hs.
  2: { split_and!; [by apply advances_refl|by apply drained_no_session|by rewrite delete_id|done|done]. }
  destruct (wf_session_rt _ _ Hwf sid l Hs) as (rt & Hrt & _).
  set (r0 := close_runtime l (upd_sessions (delete sid) r)).
  pose proof (wf_detach W sid l rt r Hg Hs Hrt) as Hg0. fold r0 in Hg0.
  assert (Hrt0 : runtimes r0 !! l = Some (begin_close rt)).
  { simpl. by rewrite lookup_alter_eq, Hrt. }
  unfold requests_of. rewrite Hrt0. simpl (rt_requests _).
  assert (Hks : Forall (fun k => k_session_id k = Some sid) (elements (rt_requests rt))).
  { apply Forall_forall. intros k Hk. apply (wf_rt_sound _ _ Hwf sid l rt k); [done..|set_solver]. }
  pose proof (drain_keys_spec sid (elements (rt_requests rt)) _ W 0 r0 Hg0) as Hd.
  specialize (Hd ltac:(apply lookup_delete_eq) Hks).
  destruct (foldl drain_key (0%nat, r0) (elements (rt_requests rt))) as [n r1].
  destruct Hd as ([Hwf1 Hwh1] & Hev & Hs1 & Hrt1 & _ & Hst & Hcc & Hdr).
  rewrite list_to_set_elements_L, difference_diag_L in Hwf1. rewrite Nat.sub_0_r in *.
  cbv zeta. unfold clear_requests. set (r2 := upd_runtimes _ r1).
  assert (Hg2 : good ∅ W r2).
  { apply good_dead_runtime; [done|]. intros s. rewrite Hs1. simpl.
    intros [Hne Hsl]%lookup_delete_Some. apply Hne. by apply (wf_session_inj _ _ Hwf sid s l). }
  assert (Hev2 : evolves r r2).
  { transitivity r0; [|transitivity r1; [done|]]; apply evolves_same; try done;
      intros ? ? ?; by eapply runtimes_alter_next. }
  set (r3 := if 0 <? Z.of_nat n then session_closed_add (Z.of_nat n) r2 else r2).
  assert (Hq : quiet r2 r3) by (unfold r3; destruct (0 <? Z.of_nat n); [by apply quiet_counters|apply quiet_refl]).
  destruct (advances_quiet ∅ W r2 r3 Hg2 Hq) as [Hg3 Hev3].
  assert (Hiff : forall k, is_Some (entries r !! k) -> k ∈ elements (rt_requests rt) <-> of_session sid k).
  { intros k [e He]. rewrite elem_of_elements. split.
    - intros Hin. by apply (wf_rt_sound _ _ Hwf sid l rt k).
    - intros Hk. destruct (wf_linked _ _ Hwf k e sid He Hk) as (l' & rt' & ? & ? & ?); [set_solver|].
      by simplify_eq. }
  split_and!.
  - split; [done|]. by transitivity r2.
  - assert (next_generation r3 = next_generation r1) by (unfold r3; by destruct (0 <? Z.of_nat n)).
    destruct Hq. by apply (drained_ext (.∈ elements (rt_requests rt)) _ n r r0 r1 r3).
  - destruct Hq. by rewrite q_sessions.
  - transitivity r0; [by apply steady_same|]. transitivity r1; [done|].
    transitivity r2; [by apply steady_same|by apply steady_quiet].
  - unfold r3. case_decide; subst; [done|]. rewrite (proj2 (Z.ltb_lt _ _)) by lia.
    simpl. by rewrite Hcc.
Qed.

(** ** The timeout scan *)

Definition due (now : Z) (e : RequestEntry) : Prop :=
  entry_state e = Pending /\ e_deadline_at e <= now.
#[export] Instance due_dec now e : Decision (due now e).
Proof. unfold due. apply _. Defined.

(** The entries [r'] keeps when the due ones among the keys [ks] are reaped. *)
Record reaped (now : Z) (ks : list RequestKey) (n : nat) (r r' : RequestRegistry) : Prop := {
  re_entries : forall k, entries r' !! k =
    match entries r !! k with
    | Some e => if decide (k ∈ ks /\ due now e) then None else Some e
    | None => None
    end;
  re_count : (n + size (entries r'))%nat = size (entries r);
  re_gen : next_generation r' = next_generation r;
  re_tick : current_tick r' = current_tick r /\ bucket_count r' = bucket_count r;
  re_buckets : forall i b, buckets r !! i = Some b ->
    exists b', buckets r' !! i = Some b' /\ forall k, k ∈ b -> k ∈ b';
  re_total : request_timeout_total (counters r') =
    if decide (n = 0%nat) then request_timeout_total (counters r)
    else wrap 64 (request_timeout_total (counters r) + Z.of_nat n)
}.

Lemma wheeled_weaken W W' r : W ⊆ W' -> wheeled W r -> wheeled W' r.
Proof. intros HW H k e He Hs Hd Hk. eapply H; [done..|set_solver]. Qed.

Lemma advances_schedule `{Target} X W key d now r :
  good X W r -> advances X (W ∖ {[key]}) r (schedule_for_deadline key d now r) /\
  forall i b, buckets r !! i = Some b ->
    exists b', buckets (schedule_for_deadline key d now r) !! i = Some b' /\ forall k, k ∈ b -> k ∈ b'.
Proof.
  intros [Hwf Hwh]. destruct (schedule_buckets key d now X r Hwf) as (i & b & Hib & Hb & ->).
  assert (Hlt : (i < length (buckets r))%nat) by (by eapply lookup_lt_Some).
  assert (Hsub : forall j bj, buckets r !! j = Some bj ->
    exists b', <[i:=b ++ [key]]> (buckets r) !! j = Some b' /\ forall k, k ∈ bj -> k ∈ b').
  { intros j bj Hj. destruct (decide (i = j)) as [->|].
    - simplify_eq. exists (b ++ [key]). rewrite list_lookup_insert_eq by done. set_solver.
    - exists bj. by rewrite list_lookup_insert_ne. }
  split; [|exact Hsub]. split; [split|apply evolves_same; eauto with lia].
  - wf_destruct Hwf. split; simpl; try done. by rewrite length_insert.
  - intros k e He Hs Hd HW. simpl. destruct (decide (k = key)) as [->|Hne].
    + exists i, (b ++ [key]). rewrite list_lookup_insert_eq by done. set_solver.
    + destruct (Hwh k e He Hs Hd) as (j & bj & Hj & Hin); [set_solver|].
      destruct (Hsub j bj Hj) as (b' & ? & ?). eauto.
Qed.

Lemma wheeled_done W key r :
  wheeled W r ->
  (forall e, entries r !! key = Some e -> entry_state e = Pending -> False) ->
  wheeled (W ∖ {[key]}) r.
Proof.
  intros Hw Hk k e He Hs Hd HW. destruct (decide (k = key)) as [->|].
  - exfalso. eapply Hk; [done|by apply entry_state_at].
  - eapply Hw; [done..|set_solver].
Qed.

(** [mark_timed_out] on a pending entry moves exactly the timeout counter. *)
Lemma mark_timed_out_total key r e :
  entries r !! key = Some e -> entry_state e = Pending -> e_state e = RequestState_as_u8 Pending ->
  request_timeout_total (counters (mark_timed_out key r).2) =
    wrap 64 (request_timeout_total (counters r) + 1).
Proof.
  intros He _ Hs. unfold mark_timed_out. rewrite He, (try_transition_at e _ _ _ Hs), decide_True by done.
  cbn zeta. cbn [snd].
  set (r1 := timeout_inc _).
  pose proof (waiters_remove_drop_rest key (remove_terminal_entry key r1)) as H1.
  pose proof (remove_terminal_rest key r1) as H2. cbv zeta in H1, H2.
  rewrite (proj1 (proj2 H1)), (proj1 (proj2 H2)). done.
Qed.

Lemma scan_key_spec `{Target} X W now clock n key r :
  good X W r ->
  let '(n', r') := scan_key now clock (n, r) key in
  (n <= n')%nat /\ advances X (W ∖ {[key]}) r r' /\ reaped now [key] (n' - n) r r'.
Proof.
  intros Hg. pose proof Hg as [Hwf Hwh]. unfold scan_key.
  assert (Hid : forall e, entries r !! key = Some e -> ~ due now e -> reaped now [key] (n - n) r r).
  { intros e He Hdue. rewrite Nat.sub_diag. split; try done.
    - intros k. destruct (entries r !! k) eqn:E; [|done]. rewrite decide_False; [done|].
      intros [->%list_elem_of_singleton ?]. simplify_eq. done.
    - eauto. }
  destruct (entries r !! key) as [e|] eqn:He.
  2: { split_and!; [done| |].
       - split; [split|reflexivity]; [done|]. apply wheeled_done; [done|congruence].
       - rewrite Nat.sub_diag. split; try done; [|eauto].
         intros k. destruct (entries r !! k) eqn:E; [|done]. rewrite decide_False; [done|].
         intros [->%list_elem_of_singleton ?]. congruence. }
  case_bool_decide as Hst; cbn [negb].
  2: { split_and!; [done| |].
       - split; [split|reflexivity]; [done|]. apply wheeled_done; [done|naive_solver].
       - apply (Hid e); [done|]. by intros [? _]. }
  assert (Hst' : e_state e = RequestState_as_u8 Pending).
  { destruct (wf_live_state X r _ e Hwf He) as (s & Hs & [-> | ->]); [done|].
    rewrite (entry_state_at e _ Hs) in Hst. done. }
  zcase.
  - pose proof (mark_timed_out_spec X key r Hwf) as Hm.
    pose proof (mark_timed_out_total key r e He Hst Hst') as Htot.
    destruct (mark_timed_out key r) as [res r'].
    rewrite He, bool_decide_true in Hm by done. destruct Hm as [-> Hret].
    rewrite decide_True by done. destruct (advances_retired X W key _ r r' Hg Hret) as [[? Hwh'] Hev].
    split_and!; [lia| |].
    + split; [split; [done|]|done]. apply wheeled_done; [done|]. intros e'.
      rewrite (ret_entries _ _ _ _ Hret), lookup_delete_eq. done.
    + replace (S n - n)%nat with 1%nat by lia. pose proof (retired_size key _ r r' Hret).
      destruct Hret as [_ Hen _ _ _ _ _ _ _ (Hb & Hbc & _ & Hct & _ & Hng & _)].
      split; rewrite ?Hb, ?Hbc, ?Hct, ?Hng; eauto; try lia.
      intros k. rewrite Hen. destruct (decide (k = key)) as [->|].
      * rewrite lookup_delete_eq, He, decide_True; [done|]. split; [set_solver|done].
      * rewrite lookup_delete_ne by done. destruct (entries r !! k); [|done].
        rewrite decide_False; [done|]. set_solver.
  - destruct (advances_schedule X W key (e_deadline_at e) (clock key) r Hg) as [Hadv Hsub].
    split_and!; [done|done|]. rewrite Nat.sub_diag. split; try done.
    intros k. simpl. destruct (entries r !! k) eqn:E; [|done].
    rewrite decide_False; [done|]. intros [->%list_elem_of_singleton [_ ?]]. simplify_eq. lia.
Qed.

Lemma reaped_trans now ks1 ks2 n1 n2 r r1 r2 :
  reaped now ks1 n1 r r1 -> reaped now ks2 n2 r1 r2 -> reaped now (ks1 ++ ks2) (n1 + n2) r r2.
Proof.
  intros [E1 C1 G1 [T1 B1] K1 O1] [E2 C2 G2 [T2 B2] K2 O2].
  split; rewrite ?G2, ?G1, ?T2, ?T1, ?B2, ?B1; try done; try lia.
  - intros k. rewrite E2, E1. destruct (entries r !! k); [|done].
    repeat case_decide; try done; set_solver.
  - intros i b Hi. destruct (K1 i b Hi) as (b1 & H1 & ?). destruct (K2 i b1 H1) as (b2 & ? & ?). eauto.
  - rewrite O2, O1. destruct n1 as [|n1], n2 as [|n2]; simpl;
      rewrite ?Nat.add_0_r; try done.
    unfold wrap. rewrite Zplus_mod_idemp_l. f_equal. lia.
Qed.

Lemma scan_keys_spec `{Target} now clock ks : forall X W n r,
  good X W r ->
  let '(n', r') := foldl (scan_key now clock) (n, r) ks in
  (n <= n')%nat /\ advances X (W ∖ list_to_set ks) r r' /\ reaped now ks (n' - n) r r'.
Proof.
  induction ks as [|k ks IH]; intros X W n r Hg; cbn [foldl list_to_set].
  - split_and!; [done| |].
    + apply advances_refl. destruct Hg. split; [done|]. eapply wheeled_weaken; [|done]. set_solver.
    + rewrite Nat.sub_diag. split; try done; [|eauto]. intros k. destruct (entries r !! k); [|done].
      rewrite decide_False; [done|]. set_solver.
  - pose proof (scan_key_spec X W now clock n k r Hg) as H1.
    destruct (scan_key now clock (n, r) k) as [n1 r1]. destruct H1 as (Hle & Hadv & Hre).
    specialize (IH X (W ∖ {[k]}) n1 r1 (proj1 Hadv)).
    destruct (foldl (scan_key now clock) (n1, r1) ks) as [n2 r2]. destruct IH as (Hle2 & Hadv2 & Hre2).
    cbn beta iota. split_and!; [lia| |].
    + destruct Hadv2 as [[? Hw2] ?], Hadv. split; [split; [done|]|by transitivity r1].
      eapply wheeled_weaken; [|exact Hw2]. set_solver.
    + replace (n2 - n)%nat with ((n1 - n) + (n2 - n1))%nat by lia.
      exact (reaped_trans now [k] ks _ _ r r1 r2 Hre Hre2).
Qed.

(** The keys of the bucket the next scan visits. *)
Definition next_bucket `{Target} (r : RequestRegistry) : list RequestKey :=
  default [] (buckets r !! bucket_index r (wrap 64 (current_tick r + 1))).

(** The wheel has turned and the bucket it reached is taken out. *)
Definition scan_opened `{Target} (r : RequestRegistry) : RequestRegistry :=
  let t := wrap 64 (current_tick r + 1) in
  upd_buckets (insert (bucket_index r t) []) (set_current_tick t r).

Lemma scan_start `{Target} r :
  good ∅ ∅ r -> good ∅ (list_to_set (next_bucket r)) (scan_opened r).
Proof.
  intros [Hwf Hwh]. unfold scan_opened, next_bucket. cbv zeta.
  set (i := bucket_index r (wrap 64 (current_tick r + 1))).
  split.
  - wf_destruct Hwf. split; simpl; try done. by rewrite length_insert.
  - intros k e He Hs Hd HW. destruct (Hwh k e He Hs Hd) as (j & b & Hj & Hin); [set_solver|].
    destruct (decide (i = j)) as [<-|].
    + exfalso. apply HW. rewrite Hj. simpl. set_solver.
    + exists j, b. simpl. by rewrite list_lookup_insert_ne.
Qed.

Lemma scan_unfold `{Target} now clock r :
  scan_timeout_bucket now clock r = foldl (scan_key now clock) (0%nat, scan_opened r) (next_bucket r).
Proof. reflexivity. Qed.

Lemma scan_spec `{Target} now clock r :
  good ∅ ∅ r ->
  let '(n, r') := scan_timeout_bucket now clock r in
  let t := wrap 64 (current_tick r + 1) in
  let i := bucket_index r t in
  advances ∅ ∅ r r' /\
  (forall k, entries r' !! k =
    match entries r !! k with
    | Some e => if decide (k ∈ next_bucket r /\ due now e) then None else Some e
    | None => None
    end) /\
  (n + size (entries r'))%nat = size (entries r) /\
  next_generation r' = next_generation r /\
  current_tick r' = t /\ bucket_count r' = bucket_count r /\
  (forall j b, j <> i -> buckets r !! j = Some b ->
    exists b', buckets r' !! j = Some b' /\ forall k, k ∈ b -> k ∈ b') /\
  request_timeout_total (counters r') =
    (if decide (n = 0%nat) then request_timeout_total (counters r)
     else wrap 64 (request_timeout_total (counters r) + Z.of_nat n)).
Proof.
  intros [Hwf Hwh]. unfold scan_timeout_bucket. cbv zeta.
  set (t := wrap 64 (current_tick r + 1)).
  change (bucket_index (set_current_tick t r) t) with (bucket_index r t).
  change (buckets (set_current_tick t r)) with (buckets r).
  set (i := bucket_index r t). set (ks := default [] (buckets r !! i)).
  set (r1 := upd_buckets (insert i []) (set_current_tick t r)).
  pose proof (scan_start r (conj Hwf Hwh)) as Hg1.
  change (good ∅ (list_to_set ks) r1) in Hg1.
  pose proof (scan_keys_spec now clock ks ∅ (list_to_set ks) 0 r1 Hg1) as Hsk.
  destruct (foldl (scan_key now clock) (0%nat, r1) ks) as [n r'].
  destruct Hsk as (_ & [[Hwf' Hwh'] Hev] & [En Cn Gn [Tn Bn] Kn On]).
  rewrite difference_diag_L in Hwh'. rewrite Nat.sub_0_r in *. cbn beta iota.
  change (next_bucket r) with ks.
  split_and!; try done.
  - split; [done|]. transitivity r1; [apply evolves_same; eauto with lia|done].
  - intros j b Hne Hj. apply Kn. simpl. by rewrite list_lookup_insert_ne by (intros ->; done).
Qed.

Lemma scan_key_sessions `{Target} now clock n key r :
  sessions (scan_key now clock (n, r) key).2 = sessions r.
Proof.
  unfold scan_key, mark_timed_out. destruct (entries r !! key) as [e|]; [|done].
  destruct (negb _); [done|]. zcase; [|done].
  destruct (try_transition e Pending TimedOut) as [e' [st|]]; [done|]. cbn [fst snd].
  set (r1 := timeout_inc _).
  pose proof (waiters_remove_drop_rest key (remove_terminal_entry key r1)) as H1.
  pose proof (remove_terminal_rest key r1) as H2. cbv zeta in H1, H2.
  destruct H1 as (_ & _ & -> & _), H2 as (_ & _ & _ & _ & -> & _). done.
Qed.

Lemma scan_sessions `{Target} now clock r : sessions (scan_timeout_bucket now clock r).2 = sessions r.
Proof.
  unfold scan_timeout_bucket. cbv zeta.
  set (r1 := upd_buckets _ _). set (ks := default [] _).
  change (sessions r) with (sessions r1). clearbody r1 ks. generalize 0%nat as n.
  revert r1. induction ks as [|k ks IH]; intros r1 n; cbn [foldl]; [done|].
  pose proof (scan_key_sessions now clock n k r1) as Hk.
  destruct (scan_key now clock (n, r1) k) as [n' r']. by rewrite IH.
Qed.
