(* ===== verification/RegistryRun.v ===== *)
(** * Runs of the request registry

    The registry as a labelled transition system: every operation the library
    performs on it is a label with an observable outcome, and the theorems
    speak of arbitrary sequences of operations. *)

From S2P Require Import Prelude Packet Registry RegistryInv RegistryOps.

Inductive op :=
  | OpenSession (sid : Z)
  | OnewayId
  | NextRequestId (sid : option Z)
  | Register (rid : Z) (sid : option Z) (biz timeout now now' : Z)
  | RegisterWaiter (rid : Z) (sid : option Z) (biz timeout now : Z)
  | CompleteWaiter (sid : option Z) (rid : Z) (p : Packet)
  | AbortWaiter (sid : option Z) (rid : Z)
  | BeginRespond (tok : RequestToken)
  | FinishRespond (tok : RequestToken) (confirmed : bool)
  | AbortToken (tok : RequestToken)
  | TimeOut (key : RequestKey)
  | CloseSession (sid : Z)
  | Scan (now : Z) (clock : RequestKey -> Z)
  | SendFailure.

Inductive outcome :=
  | OUnit
  | OId (i : option Z)
  | OToken (t : option RequestToken)
  | OWaiter (w : option (nat * RequestToken))
  | OMark (m : MarkResult)
  | OBool (b : bool)
  | OCount (n : nat).

(** Case analysis on the outcome of an operation, by its specification. *)
Ltac by_spec H :=
  match type of H with
  | context [entries ?r !! ?k] =>
      let E := fresh "He" in destruct (entries r !! k) eqn:E
  end;
  repeat match type of H with
  | context [bool_decide _] => case_bool_decide; simpl in H
  end.

Section run.
Context `{T : Target}.

Definition step (o : op) (r : RequestRegistry) : outcome * RequestRegistry :=
  match o with
  | OpenSession sid => (OUnit, open_session sid r)
  | OnewayId => let '(i, r) := next_oneway_id r in (OId (Some i), r)
  | NextRequestId sid => let '(i, r) := next_request_id sid r in (OId i, r)
  | Register rid sid biz timeout now now' =>
      let '(t, r) := register rid sid biz timeout now now' r in (OToken t, r)
  | RegisterWaiter rid sid biz timeout now =>
      let '(w, r) := try_register_waiter rid sid biz timeout now r in (OWaiter w, r)
  | CompleteWaiter sid rid p => let '(b, r) := complete_waiter sid rid p r in (OBool b, r)
  | AbortWaiter sid rid => let '(b, r) := abort_waiter sid rid r in (OBool b, r)
  | BeginRespond tok => let '(m, r) := begin_respond tok r in (OMark m, r)
  | FinishRespond tok ok => let '(m, r) := finish_respond tok ok r in (OMark m, r)
  | AbortToken tok => let '(b, r) := abort_request_token tok r in (OBool b, r)
  | TimeOut key => let '(m, r) := mark_timed_out key r in (OMark m, r)
  | CloseSession sid => let '(n, r) := close_session_pending sid r in (OCount n, r)
  | Scan now clock => let '(n, r) := scan_timeout_bucket now clock r in (OCount n, r)
  | SendFailure => (OUnit, record_response_send_failed r)
  end.

Fixpoint run (ops : list op) (r : RequestRegistry) : list outcome * RequestRegistry :=
  match ops with
  | [] => ([], r)
  | o :: ops =>
      let '(x, r) := step o r in
      let '(xs, r) := run ops r in
      (x :: xs, r)
  end.

(** Only the holder of an inbound request responds: the tokens given to
    [begin_respond] come from [register]. *)
Definition op_ok (o : op) : Prop :=
  match o with BeginRespond tok => t_direction tok = Inbound | _ => True end.

Definition is_scan (o : op) : bool := match o with Scan _ _ => true | _ => false end.

(** What one operation may do to a consistent registry. *)
Definition moved (o : op) (r r' : RequestRegistry) : Prop :=
  advances ∅ ∅ r r' /\ next_generation r' <= next_generation r + 1 /\
  (forall s l, o <> CloseSession s -> sessions r !! s = Some l -> sessions r' !! s = Some l) /\
  (is_scan o = false -> steady r r').

Lemma moved_quiet o r r' : good ∅ ∅ r -> quiet r r' -> moved o r r'.
Proof.
  intros Hg Hq. split_and!; eauto using advances_quiet, steady_quiet.
  - apply Hq.
  - intros s l _. by rewrite (q_sessions _ _ Hq).
Qed.

Lemma moved_refl o r : good ∅ ∅ r -> moved o r r.
Proof. eauto using moved_quiet, quiet_refl. Qed.

Lemma moved_retired o k fin r r' : good ∅ ∅ r -> retired k fin r r' -> moved o r r'.
Proof.
  intros Hg Hq. split_and!; eauto using advances_retired, steady_retired.
  - destruct (ret_rest _ _ _ _ Hq) as (_ & _ & _ & _ & _ & -> & _). lia.
  - intros s l _. by rewrite (ret_sessions _ _ _ _ Hq).
Qed.

Lemma moved_claimed o k e r r' : good ∅ ∅ r -> claimed k e r r' -> moved o r r'.
Proof.
  intros Hg Hq. pose proof (cl_set _ _ _ _ Hq) as Heq.
  split_and!; eauto using advances_claimed; rewrite Heq; simpl; [lia|done|].
  intros _. by apply steady_same.
Qed.

Lemma moved_registered o k e r r' : good ∅ ∅ r -> registered k e r r' -> moved o r r'.
Proof.
  intros Hg Hr. split_and!; eauto using advances_registered, steady_registered.
  - rewrite (rg_gen _ _ _ _ Hr). lia.
  - intros s l _. by rewrite (proj1 (rg_sessions _ _ _ _ Hr)).
Qed.

Lemma moved_open o sid r : good ∅ ∅ r -> moved o r (open_session sid r).
Proof.
  intros Hg. pose proof (open_session_advances ∅ ∅ sid r Hg) as Hadv.
  unfold open_session in *. destruct (sessions r !! sid) as [l|] eqn:E; [by apply moved_refl|].
  split_and!; simpl; [done|lia| |intros _; by apply steady_same].
  intros s l _ Hs. rewrite lookup_insert_ne; [done|]. intros ->. congruence.
Qed.

Lemma moved_next_id o sid r : good ∅ ∅ r -> moved o r (next_request_id sid r).2.
Proof.
  intros Hg. pose proof (next_request_id_advances ∅ ∅ sid r Hg) as Hadv.
  unfold next_request_id in *. destruct sid as [sid|].
  2: { apply moved_quiet; [done|]. exact (next_oneway_id_quiet r). }
  destruct (runtime_of r sid) as [[l rt]|]; [|by apply moved_refl].
  destruct (negb (is_open rt)); [by apply moved_refl|].
  zcase; [by apply moved_refl|].
  split_and!; [done|simpl; lia|done|]. intros _. by apply steady_same.
Qed.

Lemma moved_scan o now clock r :
  good ∅ ∅ r -> is_scan o = true -> moved o r (scan_timeout_bucket now clock r).2.
Proof.
  intros Hg Ho. pose proof (scan_spec now clock r Hg) as Hs.
  pose proof (scan_sessions now clock r) as Hss.
  destruct (scan_timeout_bucket now clock r) as [n r']. cbv zeta in Hs. cbn [snd] in *.
  destruct Hs as (Hadv & _ & _ & Hn & _).
  split_and!; [done|lia| |congruence]. intros s l _. by rewrite Hss.
Qed.

Lemma step_sound o r :
  good ∅ ∅ r -> op_ok o -> next_generation r < U64_MAX -> moved o r (step o r).2.
Proof.
  intros Hg Hok Hng. pose proof (proj1 Hg) as Hwf.
  pose proof (moved_refl o r Hg). pose proof (moved_quiet o r). pose proof (moved_retired o).
  destruct o; cbn [step].
  - by apply moved_open.
  - apply moved_quiet; [done|]. exact (next_oneway_id_quiet r).
  - pose proof (moved_next_id (NextRequestId sid) sid r Hg). by destruct (next_request_id sid r).
  - unfold register.
    pose proof (register_impl_spec ∅ (inbound sid rid) biz timeout true now now' r Hwf Hng) as Hs.
    destruct (register_impl _ _ _ _ _ _ _) as [t r']. specialize (Hs ltac:(done)).
    destruct (accepts _ r), Hs as [_ Hs]; eauto using moved_registered.
  - pose proof (try_register_waiter_spec ∅ sid rid biz timeout now r Hg Hng) as Hs. cbv zeta in Hs.
    destruct (try_register_waiter _ _ _ _ _ _) as [w r'].
    destruct Hs as (Hadv & Hn & Hst & Hss & _). split_and!; simpl; [done..| |done].
    intros s l _. by rewrite Hss.
  - pose proof (complete_waiter_spec ∅ sid rid p r Hwf) as Hs. cbv zeta in Hs.
    destruct (complete_waiter sid rid p r) as [b r']. by_spec Hs; naive_solver.
  - pose proof (abort_waiter_spec ∅ sid rid r Hwf) as Hs. cbv zeta in Hs.
    destruct (abort_waiter sid rid r) as [b r']. by_spec Hs; naive_solver.
  - pose proof (begin_respond_spec ∅ tok r Hwf Hok) as Hs.
    destruct (begin_respond tok r) as [b r'].
    by_spec Hs; destruct Hs as [_ Hs]; eauto using moved_claimed.
  - pose proof (finish_respond_spec ∅ tok confirmed r Hwf) as Hs.
    destruct (finish_respond tok confirmed r) as [b r']. by_spec Hs; naive_solver.
  - pose proof (abort_request_token_spec ∅ tok r Hwf) as Hs.
    destruct (abort_request_token tok r) as [b r']. by_spec Hs; naive_solver.
  - pose proof (mark_timed_out_spec ∅ key r Hwf) as Hs.
    destruct (mark_timed_out key r) as [b r']. by_spec Hs; naive_solver.
  - pose proof (close_session_spec ∅ sid r Hg) as Hs.
    destruct (close_session_pending sid r) as [n r'].
    destruct Hs as (Hadv & Hd & Hss & Hst & _).
    split_and!; simpl; [done|rewrite (dr_gen _ _ _ _ Hd); lia| |done].
    intros s l Hne. rewrite Hss, lookup_delete_ne; [done|]. congruence.
  - pose proof (moved_scan (Scan now clock) now clock r Hg eq_refl).
    by destruct (scan_timeout_bucket now clock r).
  - apply moved_quiet; [done|]. by apply quiet_counters.
Qed.

Lemma run_cons o ops r :
  run (o :: ops) r = ((step o r).1 :: (run ops (step o r).2).1, (run ops (step o r).2).2).
Proof. simpl. destruct (step o r) as [x r1]. simpl. by destruct (run ops r1). Qed.

(** A run starts consistent, and is short enough for its generations: every
    operation consumes at most one of the 2^64 - 1. *)
Definition run_ok (ops : list op) (r : RequestRegistry) : Prop :=
  good ∅ ∅ r /\ Forall op_ok ops /\ next_generation r + len ops <= U64_MAX.

Lemma run_ok_cons o ops r :
  run_ok (o :: ops) r ->
  good ∅ ∅ r /\ op_ok o /\ next_generation r < U64_MAX /\ moved o r (step o r).2 /\
  run_ok ops (step o r).2.
Proof.
  intros (Hg & Hok & Hn). inversion Hok; subst. rewrite len_cons in Hn. pose proof (len_nonneg ops).
  assert (Hm : moved o r (step o r).2) by (apply step_sound; [done|done|lia]).
  split_and!; try done; [lia|]. destruct Hm as ([Hg' _] & Hn' & _). split_and!; [done|done|lia].
Qed.

(** Induction along a run: a preorder-like fact of every step holds of the
    whole. *)
Lemma run_ind (P : RequestRegistry -> Prop) ops r :
  run_ok ops r -> P r ->
  (forall o r, good ∅ ∅ r -> op_ok o -> next_generation r < U64_MAX -> o ∈ ops -> P r ->
     P (step o r).2) ->
  P (run ops r).2.
Proof.
  revert r. induction ops as [|o ops IH]; intros r Hrun HP Hstep; [done|].
  rewrite run_cons. simpl. apply run_ok_cons in Hrun as (? & ? & ? & _ & Hrun).
  apply IH; [done|apply Hstep; set_solver|]. intros. apply Hstep; set_solver.
Qed.

Lemma run_advances ops r :
  run_ok ops r ->
  advances ∅ ∅ r (run ops r).2 /\ next_generation (run ops r).2 <= next_generation r + len ops.
Proof.
  revert r. induction ops as [|o ops IH]; intros r Hrun.
  - simpl. split; [apply advances_refl, Hrun|]. rewrite len_nil. lia.
  - rewrite run_cons, len_cons. simpl.
    apply run_ok_cons in Hrun as (? & ? & ? & (Hadv & Hn & _) & Hrun). destruct (IH _ Hrun). split.
    + by eapply advances_trans.
    + lia.
Qed.

Lemma good_initial n tick : n <= U32_MAX -> good ∅ ∅ (new_with_timing n tick).
Proof.
  intros. unfold new_with_timing. split; [split|]; cbn; try done; try lia.
  - by rewrite length_replicate.
Qed.

Lemma generations_bound r : wf ∅ r -> Z.of_nat (size (entries r)) < next_generation r.
Proof.
  intros Hwf. pose proof (wf_next_gen _ _ Hwf).
  set (gs := (fun p : RequestKey * RequestEntry => e_generation p.2) <$> map_to_list (entries r)).
  assert (HN : NoDup gs).
  { apply NoDup_fmap_2_strong; [|apply NoDup_map_to_list].
    intros [k1 e1] [k2 e2] H1%elem_of_map_to_list H2%elem_of_map_to_list Hgg. simpl in Hgg.
    assert (k1 = k2) by (by eapply wf_gen_inj). congruence. }
  assert (Hsub : gs ⊆ seqZ 1 (next_generation r - 1)).
  { intros g. unfold gs. rewrite list_elem_of_fmap. intros ([k e] & -> & Hk%elem_of_map_to_list).
    apply elem_of_seqZ. simpl. pose proof (wf_gen_bound _ _ Hwf k e Hk). lia. }
  assert (Hle : (length gs <= length (seqZ 1 (next_generation r - 1)))%nat)
    by (by apply submseteq_length, NoDup_submseteq).
  unfold gs in Hle. rewrite length_fmap, length_seqZ, length_map_to_list in Hle. lia.
Qed.
End run.
