(* ===== verification/RegistryProps.v ===== *)
(** * Correctness of the request registry

    The promises of [request_registry.rs] about arbitrary sequences of
    operations: its gauge, its single winner per request, its stale tokens, its
    waiters, its session teardown, its identifiers and its timeout wheel. *)

From S2P Require Import Prelude Packet Registry RegistryInv RegistryOps RegistryRun.

(** ** The phase of a request

    2 while it waits for a responder, 1 while a response is being written, 0
    once it is over (or its key belongs to another generation). *)

Definition phase (tok : RequestToken) (r : RequestRegistry) : nat :=
  match entries r !! token_key tok with
  | Some e =>
      if decide (e_generation e = t_generation tok) then
        if decide (entry_state e = Pending) then 2
        else if decide (entry_state e = Responding) then 1 else 0
      else 0
  | None => 0
  end.

Lemma phase_evolves tok r r' :
  evolves r r' -> t_generation tok < next_generation r -> (phase tok r' <= phase tok r)%nat.
Proof.
  intros Hev Hlt. unfold phase. destruct (entries r' !! token_key tok) as [e'|] eqn:E; [|lia].
  destruct (decide (e_generation e' = t_generation tok)) as [Hg|]; [|lia].
  destruct (ev_entries _ _ Hev _ _ E) as [(e & -> & [->|[Hs ->]])|?]; [|simpl in *|lia].
  - rewrite (decide_True (P := e_generation e = _)) by done. reflexivity.
  - rewrite decide_True by done. rewrite (entry_state_at e Pending Hs). repeat case_decide; try lia; done.
Qed.

Lemma phase_retired tok fin r r' : retired (token_key tok) fin r r' -> phase tok r' = 0%nat.
Proof. intros Hr. unfold phase. by rewrite (ret_entries _ _ _ _ Hr), lookup_delete_eq. Qed.

(** ** Claims and completions of a token *)

Definition claims (tok : RequestToken) (o : op) (x : outcome) : nat :=
  match o, x with
  | BeginRespond t, OMark Updated => if decide (t = tok) then 1 else 0
  | AbortToken t, OBool true => if decide (t = tok) then 1 else 0
  | _, _ => 0
  end.

Definition finishes (tok : RequestToken) (o : op) (x : outcome) : nat :=
  match o, x with
  | FinishRespond t _, OMark Updated => if decide (t = tok) then 1 else 0
  | _, _ => 0
  end.

Fixpoint count (f : op -> outcome -> nat) (ops : list op) (xs : list outcome) : nat :=
  match ops, xs with
  | o :: ops, x :: xs => f o x + count f ops xs
  | _, _ => 0
  end.

Definition waiting (n : nat) : nat := if decide (n = 2%nat) then 1 else 0.
Definition live (n : nat) : nat := if decide (n = 0%nat) then 0 else 1.

Lemma waiting_mono n m : (n <= m)%nat -> (m <= 2)%nat -> (waiting n <= waiting m)%nat.
Proof. unfold waiting. repeat case_decide; lia. Qed.
Lemma live_mono n m : (n <= m)%nat -> (live n <= live m)%nat.
Proof. unfold live. repeat case_decide; lia. Qed.
Lemma phase_le tok r : (phase tok r <= 2)%nat.
Proof. unfold phase. repeat case_match; lia. Qed.

Section registry.
Context `{T : Target}.

Lemma step_claims tok o r :
  good ∅ ∅ r -> op_ok o -> t_generation tok < next_generation r ->
  moved o r (step o r).2 ->
  (claims tok o (step o r).1 + waiting (phase tok (step o r).2) <= waiting (phase tok r))%nat /\
  (finishes tok o (step o r).1 + live (phase tok (step o r).2) <= live (phase tok r))%nat.
Proof.
  intros Hg Hok Hlt ([_ Hev] & _). pose proof (proj1 Hg) as Hwf.
  pose proof (phase_evolves tok _ _ Hev Hlt) as Hp.
  pose proof (waiting_mono _ _ Hp (phase_le tok r)) as Hw. pose proof (live_mono _ _ Hp) as Hl.
  assert (Hz : claims tok o (step o r).1 = 0%nat /\ finishes tok o (step o r).1 = 0%nat ->
    (claims tok o (step o r).1 + waiting (phase tok (step o r).2) <= waiting (phase tok r))%nat /\
    (finishes tok o (step o r).1 + live (phase tok (step o r).2) <= live (phase tok r))%nat)
    by (intros [-> ->]; lia).
  destruct o; try (apply Hz; done).
  - pose proof (begin_respond_spec ∅ tok0 r Hwf Hok) as Hs. cbn [step] in *.
    destruct (begin_respond tok0 r) as [b r']. simpl in *.
    destruct (decide (tok0 = tok)) as [->|]; [|destruct b; lia].
    by_spec Hs; destruct Hs as [-> Hs]; try lia.
    assert (phase tok r = 2%nat /\ phase tok r' = 1%nat) as [-> ->]; [|done].
    rewrite (cl_set _ _ _ _ Hs). unfold phase. simpl. rewrite He, lookup_insert_eq, !decide_True by done.
    done.
  - pose proof (finish_respond_spec ∅ tok0 confirmed r Hwf) as Hs. cbn [step] in *.
    destruct (finish_respond tok0 confirmed r) as [b r']. simpl in *.
    destruct (decide (tok0 = tok)) as [->|]; [|destruct b; lia].
    by_spec Hs; destruct Hs as [-> Hs]; try lia.
    rewrite (phase_retired _ _ _ _ Hs) in *. split; [lia|]. unfold phase. rewrite He, decide_True by done.
    rewrite decide_False by congruence. rewrite decide_True by done. apply le_n.
  - pose proof (abort_request_token_spec ∅ tok0 r Hwf) as Hs. cbn [step] in *.
    destruct (abort_request_token tok0 r) as [b r']. simpl in *.
    destruct (decide (tok0 = tok)) as [->|]; [|destruct b; lia].
    by_spec Hs; destruct Hs as [-> Hs]; try lia.
    rewrite (phase_retired _ _ _ _ Hs) in *. split; [|lia]. unfold phase. rewrite He, !decide_True by done.
    apply le_n.
Qed.

(** C7: whatever happens to a request once its token is issued (duplicated
    responders, drops, timeouts, session teardown, in any order), at most one
    claim on it succeeds (a response begun or an abort), and at most one
    response of it is recorded as finished; none is when it is over already. *)
Theorem single_winner tok ops r :
  run_ok ops r -> t_generation tok < next_generation r ->
  let xs := (run ops r).1 in
  (count (claims tok) ops xs <= waiting (phase tok r) <= 1)%nat /\
  (count (finishes tok) ops xs <= live (phase tok r) <= 1)%nat.
Proof.
  intros Hrun Hlt. assert (forall n, (waiting n <= 1)%nat /\ (live n <= 1)%nat) as Hle.
  { intros n. unfold waiting, live. repeat case_decide; lia. }
  split; (split; [|apply Hle]).
  all: revert r Hrun Hlt; induction ops as [|o ops IH]; intros r Hrun Hlt; [simpl; lia|];
    rewrite run_cons; cbn [fst count];
    apply run_ok_cons in Hrun as (Hg & Hok & _ & Hm & Hrun);
    pose proof (step_claims tok o r Hg Hok Hlt Hm) as [H1 H2];
    destruct Hm as ([_ Hev] & _); pose proof (ev_next _ _ Hev);
    specialize (IH _ Hrun ltac:(lia)); cbn [fst] in *; lia.
Qed.

(** ** Stale tokens *)

Lemma phase_run tok ops r :
  run_ok ops r -> t_generation tok < next_generation r ->
  (phase tok (run ops r).2 <= phase tok r)%nat.
Proof. intros Hrun Hlt. by apply phase_evolves, Hlt; apply run_advances. Qed.

Lemma phase_0_inv tok r e :
  wf ∅ r -> phase tok r = 0%nat -> entries r !! token_key tok = Some e ->
  e_generation e <> t_generation tok.
Proof.
  intros Hwf Hp He Hg. unfold phase in Hp. rewrite He, decide_True in Hp by done.
  destruct (wf_live_state _ _ _ _ Hwf He) as (s & Hs & [-> | ->]);
    rewrite (entry_state_at e _ Hs) in Hp; done.
Qed.

(** C10: a token whose request is over never acts again, however often its
    identifier is reused: begin and finish report [NotFound], abort reports
    failure, and none of them changes anything but the duplicate counter. *)
Theorem stale_token_is_inert tok ops r ok :
  run_ok ops r -> t_generation tok < next_generation r -> phase tok r = 0%nat ->
  let r' := (run ops r).2 in
  begin_respond tok r' = (NotFound, duplicate_inc r') /\
  finish_respond tok ok r' = (NotFound, r') /\
  abort_request_token tok r' = (false, r').
Proof.
  intros Hrun Hlt Hp r'. pose proof (phase_run tok ops r Hrun Hlt) as Hle. fold r' in Hle.
  assert (Hp' : phase tok r' = 0%nat) by lia.
  destruct (proj1 (proj1 (run_advances ops r Hrun))) as [Hwf' _]. fold r' in Hwf'.
  unfold begin_respond, finish_respond, abort_request_token.
  destruct (entries r' !! token_key tok) as [e|] eqn:He; [|done].
  pose proof (phase_0_inv tok r' e Hwf' Hp' He). by zbool.
Qed.

(** ** Response waiters *)

Definition rx_waiting (tok : RequestToken) (rx : nat) (r : RequestRegistry) : Prop :=
  phase tok r = 2%nat /\ waiters r !! token_key tok = Some rx /\ chans r !! rx = Some ChanWaiting.

Definition rx_over (tok : RequestToken) (rx : nat) (c : Chan) (r : RequestRegistry) : Prop :=
  phase tok r = 0%nat /\ chans r !! rx = Some c.

Lemma rx_waiting_frame tok rx r r' :
  rx_waiting tok rx r -> entries r' !! token_key tok = entries r !! token_key tok ->
  waiters r' !! token_key tok = waiters r !! token_key tok -> chans r' !! rx = chans r !! rx ->
  rx_waiting tok rx r'.
Proof.
  intros (Hp & Hw & Hc) He Hw' Hc'. unfold rx_waiting, phase in *. rewrite He, Hw', Hc'. done.
Qed.

Lemma rx_waiting_retired tok rx k fin r r' :
  good ∅ ∅ r -> rx_waiting tok rx r -> retired k fin r r' ->
  (k <> token_key tok /\ rx_waiting tok rx r') \/ (k = token_key tok /\ rx_over tok rx fin r').
Proof.
  intros [Hwf _] Hrx Hr. pose proof Hrx as (Hp & Hw & Hc). destruct (decide (k = token_key tok)) as [->|Hne].
  - right. split; [done|]. split; [by eapply phase_retired|]. by apply (ret_final _ _ _ _ Hr).
  - left. split; [done|]. apply (rx_waiting_frame tok rx r); [done|..].
    + by rewrite (ret_entries _ _ _ _ Hr), lookup_delete_ne.
    + by rewrite (ret_waiters _ _ _ _ Hr), lookup_delete_ne.
    + apply (ret_chans _ _ _ _ Hr). intros Hk. apply Hne. by eapply wf_waiter_inj.
Qed.

Lemma rx_over_evolves tok rx c r r' :
  c <> ChanWaiting -> evolves r r' -> t_generation tok < next_generation r ->
  rx_over tok rx c r -> rx_over tok rx c r'.
Proof.
  intros Hc Hev Hlt [Hp Hx]. split; [|by apply (ev_chans _ _ Hev)].
  pose proof (phase_evolves tok r r' Hev Hlt). lia.
Qed.

Definition rx_kept (tok : RequestToken) (rx : nat) (r : RequestRegistry) : Prop :=
  rx_waiting tok rx r \/ rx_over tok rx ChanClosed r.

Lemma rx_kept_retired tok rx k r r' :
  good ∅ ∅ r -> rx_waiting tok rx r -> retired k ChanClosed r r' -> rx_kept tok rx r'.
Proof. intros Hg Hrx Hr. destruct (rx_waiting_retired _ _ _ _ _ _ Hg Hrx Hr) as [[_ ?]|[_ ?]]; [by left|by right]. Qed.

(** A scan visits its keys one by one. *)
Lemma scan_rx_kept tok rx now clock ks : forall W n r,
  good ∅ W r -> t_generation tok < next_generation r -> rx_kept tok rx r ->
  rx_kept tok rx (foldl (scan_key now clock) (n, r) ks).2.
Proof.
  induction ks as [|k ks IH]; intros W n r Hg Hlt Hk; cbn [foldl]; [done|].
  pose proof (scan_key_spec ∅ W now clock n k r Hg) as Hs.
  assert (Hk1 : rx_kept tok rx (scan_key now clock (n, r) k).2).
  { destruct Hk as [Hrx|Hov].
    2: { right. destruct (scan_key now clock (n, r) k) as [n1 r1]. destruct Hs as (_ & [_ Hev] & _).
         by eapply rx_over_evolves. }
    unfold scan_key. destruct (entries r !! k) as [e|] eqn:He; [|by left].
    case_bool_decide as Hst; cbn [negb]; [|by left]. zcase; [|by left].
    pose proof (mark_timed_out_spec ∅ k r (proj1 Hg)) as Hm. destruct (mark_timed_out k r) as [res r'].
    rewrite He, bool_decide_true in Hm by done. destruct Hm as [_ Hm].
    destruct Hrx as (? & ? & ?). simpl.
    destruct (decide (k = token_key tok)) as [->|Hne].
    - right. split; [by eapply phase_retired|]. by apply (ret_final _ _ _ _ Hm).
    - left. apply (rx_waiting_frame tok rx r); [done|..].
      + by rewrite (ret_entries _ _ _ _ Hm), lookup_delete_ne.
      + by rewrite (ret_waiters _ _ _ _ Hm), lookup_delete_ne.
      + apply (ret_chans _ _ _ _ Hm). intros Hk. apply Hne. by eapply wf_waiter_inj; [apply Hg|..]. }
  destruct (scan_key now clock (n, r) k) as [n1 r1]. destruct Hs as (_ & [Hg1 Hev] & _).
  apply (IH (W ∖ {[k]})); [done| |done]. pose proof (ev_next _ _ Hev). lia.
Qed.

(** What a waiting receiver sees of the operations that change an entry. *)
Section Kept.
Context (tok : RequestToken) (rx : nat) (r : RequestRegistry).
Hypothesis Hg : good ∅ ∅ r.
Hypothesis Hd : t_direction tok = Outbound.
Hypothesis Hrx : rx_waiting tok rx r.

Lemma outbound_key : token_key tok = outbound (t_session_id tok) (t_request_id tok).
Proof. unfold token_key. by rewrite Hd. Qed.

Lemma quiet_keeps r1 : quiet r r1 -> rx_kept tok rx r1.
Proof.
  intros Hq. left. apply (rx_waiting_frame tok rx r); [done|..];
    by rewrite ?(q_entries _ _ Hq), ?(q_waiters _ _ Hq), ?(q_chans _ _ Hq).
Qed.

Lemma register_keeps rid sid biz timeout now now' : next_generation r < U64_MAX ->
  rx_kept tok rx (register rid sid biz timeout now now' r).2.
Proof.
  intros Hng. unfold register.
  pose proof (register_impl_spec ∅ (inbound sid rid) biz timeout true now now' r (proj1 Hg) Hng) as Hs.
  destruct (register_impl _ _ _ _ _ _ _) as [t r1]. specialize (Hs ltac:(done)).
  destruct (accepts _ r); destruct Hs as [_ Hs]; [|by apply quiet_keeps]. left.
  apply (rx_waiting_frame tok rx r); [done|..]; simpl.
  - rewrite (rg_entries _ _ _ _ Hs). rewrite lookup_insert_ne; [done|]. by rewrite outbound_key.
  - by rewrite (proj1 (rg_waiters _ _ _ _ Hs)).
  - by rewrite (proj1 (proj2 (rg_waiters _ _ _ _ Hs))).
Qed.

Lemma register_waiter_keeps sid rid biz timeout now : next_generation r < U64_MAX ->
  rx_waiting tok rx (try_register_waiter rid sid biz timeout now r).2.
Proof.
  intros Hng. pose proof (try_register_waiter_spec ∅ sid rid biz timeout now r Hg Hng) as Hs.
  cbv zeta in Hs. destruct (try_register_waiter _ _ _ _ _ _) as [w r1]. simpl.
  destruct Hs as ([Hg1 Hev] & _ & _ & _ & Hs). destruct Hrx as (Hp & Hw & Hc).
  assert (Hchan : waiters r1 !! token_key tok = waiters r !! token_key tok -> chans r1 !! rx = chans r !! rx).
  { rewrite Hw, Hc. by intros Hw1%(wf_waiter_chan _ _ (proj1 Hg1)). }
  destruct (accepts _ r) eqn:Hacc.
  - destruct Hs as (_ & He & Hw1 & _). apply andb_prop in Hacc as [Hv%bool_decide_eq_true _].
    assert (Hne : outbound sid rid <> token_key tok).
    { intros Heq. unfold phase in Hp. rewrite <- Heq, Hv in Hp. done. }
    rewrite <- (lookup_insert_ne (waiters r) _ (token_key tok) (next_chan r) Hne), <- Hw1 in Hchan.
    apply (rx_waiting_frame tok rx r); [done|by rewrite He, lookup_insert_ne|
      by rewrite Hw1, lookup_insert_ne|auto].
  - destruct Hs as (_ & He & Hw1). rewrite Hw1 in Hchan.
    apply (rx_waiting_frame tok rx r); [done|by rewrite He|by rewrite Hw1|auto].
Qed.

Lemma claim_keeps tok0 : op_ok (BeginRespond tok0) -> rx_kept tok rx (begin_respond tok0 r).2.
Proof.
  intros Hok. pose proof (begin_respond_spec ∅ tok0 r (proj1 Hg) Hok) as Hs.
  pose proof (quiet_keeps r (quiet_refl r)) as Hsame. pose proof quiet_keeps as Hq.
  destruct (begin_respond tok0 r) as [b r1]. by_spec Hs; destruct Hs as [_ Hs]; eauto.
  left. rewrite (cl_set _ _ _ _ Hs). apply (rx_waiting_frame tok rx r); [done| |done|done].
  simpl. rewrite lookup_insert_ne; [done|]. intros Hk. pose proof (cl_inbound _ _ _ _ Hs) as Hin.
  by rewrite Hk, outbound_key in Hin.
Qed.

Lemma close_keeps sid : rx_kept tok rx (close_session_pending sid r).2.
Proof.
  pose proof (close_session_spec ∅ sid r Hg) as Hs.
  destruct (close_session_pending sid r) as [n r1]. destruct Hs as (_ & [De Dw Dc _ _] & _).
  pose proof Hrx as (Hp & Hw & Hc). specialize (Dc _ _ Hw). specialize (De (token_key tok)).
  specialize (Dw (token_key tok)). simpl. case_decide.
  - right. split; [|done]. unfold phase. by rewrite De.
  - left. apply (rx_waiting_frame tok rx r); [done|done|done|congruence].
Qed.
End Kept.

Lemma step_waiter tok rx o r :
  good ∅ ∅ r -> op_ok o -> next_generation r < U64_MAX -> t_direction tok = Outbound ->
  t_generation tok < next_generation r -> rx_waiting tok rx r ->
  let r' := (step o r).2 in
  rx_kept tok rx r' \/
  exists p, o = CompleteWaiter (t_session_id tok) (t_request_id tok) p /\
    rx_over tok rx (ChanSent p) r'.
Proof.
  intros Hg Hok Hng Hd Hlt Hrx r'. pose proof Hg as [Hwf Hwh].
  assert (Hsame : rx_kept tok rx r) by (by left).
  pose proof (quiet_keeps tok rx r Hrx) as Hq. pose proof (rx_kept_retired tok rx) as Hret.
  subst r'. destruct o; cbn [step].
  - left. left. apply (rx_waiting_frame tok rx r); [done|..];
      unfold open_session; by destruct (sessions r !! sid).
  - left. apply Hq. exact (next_oneway_id_quiet r).
  - left. left. apply (rx_waiting_frame tok rx r); [done|..]; unfold next_request_id, next_oneway_id;
      repeat (case_match; simplify_eq/=; try done).
  - left. pose proof (register_keeps tok rx r Hg Hd Hrx rid sid biz timeout now now' Hng) as Hk.
    by destruct (register _ _ _ _ _ _ _).
  - left. left. pose proof (register_waiter_keeps tok rx r Hg Hrx sid rid biz timeout now Hng) as Hk.
    by destruct (try_register_waiter _ _ _ _ _ _).
  - pose proof (complete_waiter_spec ∅ sid rid p r Hwf) as Hs. cbv zeta in Hs.
    destruct (complete_waiter sid rid p r) as [b r1]. by_spec Hs; destruct Hs as [-> Hs]; simpl.
    + destruct (rx_waiting_retired _ _ _ _ _ _ Hg Hrx Hs) as [[_ ?]|[Hk ?]]; [left; by left|].
      right. exists p. rewrite (outbound_key tok Hd) in Hk. unfold outbound in Hk. by simplify_eq/=.
    + left. by apply Hq.
  - pose proof (abort_waiter_spec ∅ sid rid r Hwf) as Hs. cbv zeta in Hs. left.
    destruct (abort_waiter sid rid r) as [b r1]. by_spec Hs; destruct Hs; simplify_eq/=; eauto.
  - left. pose proof (claim_keeps tok rx r Hg Hd Hrx tok0 Hok) as Hk. by destruct (begin_respond tok0 r).
  - pose proof (finish_respond_spec ∅ tok0 confirmed r Hwf) as Hs. left.
    destruct (finish_respond tok0 confirmed r) as [b r1]. by_spec Hs; destruct Hs; simplify_eq/=; eauto.
  - pose proof (abort_request_token_spec ∅ tok0 r Hwf) as Hs. left.
    destruct (abort_request_token tok0 r) as [b r1]. by_spec Hs; destruct Hs; simplify_eq/=; eauto.
  - pose proof (mark_timed_out_spec ∅ key r Hwf) as Hs. left.
    destruct (mark_timed_out key r) as [b r1]. by_spec Hs; destruct Hs; simplify_eq/=; eauto.
  - left. pose proof (close_keeps tok rx r Hg Hrx sid) as Hk. by destruct (close_session_pending sid r).
  - left. pose proof (scan_start r Hg) as Hg1.
    pose proof (scan_rx_kept tok rx now clock (next_bucket r) _ 0 _ Hg1 Hlt) as Hk.
    rewrite <- scan_unfold in Hk. specialize (Hk ltac:(by left)).
    by destruct (scan_timeout_bucket now clock r).
  - left. apply Hq. by apply quiet_counters.
Qed.

(** A fresh waiter. *)
Lemma registered_waiter sid rid biz timeout now r rx tok r1 :
  good ∅ ∅ r -> next_generation r < U64_MAX ->
  try_register_waiter rid sid biz timeout now r = (Some (rx, tok), r1) ->
  rx_waiting tok rx r1 /\ tok = mkToken sid rid Outbound (next_generation r) /\
  t_generation tok < next_generation r1 /\ good ∅ ∅ r1 /\ next_generation r1 <= next_generation r + 1.
Proof.
  intros Hg Hng Heq. pose proof (try_register_waiter_spec ∅ sid rid biz timeout now r Hg Hng) as Hs.
  cbv zeta in Hs. rewrite Heq in Hs. destruct Hs as ([Hg1 Hev] & Hn & _ & _ & Hs).
  destruct (accepts _ r); [|by destruct Hs]. destruct Hs as (Ho & He & Hw & Hc).
  simplify_eq/=.
  assert (Hin : entries r1 !! outbound sid rid =
    Some (new_entry (outbound sid rid) biz timeout now (next_generation r)))
    by (by rewrite He, lookup_insert_eq).
  destruct (wf_gen_bound _ _ (proj1 Hg1) _ _ Hin) as [_ Hlt].
  split_and!; try done. split_and!; [|by rewrite Hw, lookup_insert_eq|done].
  unfold phase, token_key. simpl. by rewrite Hin, decide_True.
Qed.

Lemma waiter_run tok rx ops : forall r,
  run_ok ops r -> t_direction tok = Outbound -> t_generation tok < next_generation r ->
  rx_waiting tok rx r ->
  let r' := (run ops r).2 in
  rx_kept tok rx r' \/
  exists ops1 p ops2,
    ops = ops1 ++ CompleteWaiter (t_session_id tok) (t_request_id tok) p :: ops2 /\
    rx_waiting tok rx (run ops1 r).2 /\ rx_over tok rx (ChanSent p) r'.
Proof.
  induction ops as [|o ops IH]; intros r Hrun Hd Hlt Hrx; [by left; left|].
  rewrite run_cons. cbn [snd]. pose proof Hrun as Hrun0.
  apply run_ok_cons in Hrun as (Hg & Hok & Hng & ([Hg1 Hev] & _) & Hrun).
  assert (Hlt1 : t_generation tok < next_generation (step o r).2).
  { pose proof (ev_next _ _ Hev). lia. }
  pose proof (proj2 (proj1 (run_advances ops _ Hrun))) as Hev2.
  destruct (step_waiter tok rx o r Hg Hok Hng Hd Hlt Hrx) as [[Hk|Hov]|(p & -> & Hov)].
  - destruct (IH _ Hrun Hd Hlt1 Hk) as [?|(ops1 & p & ops2 & -> & Hw & Hov)]; [by left|].
    right. exists (o :: ops1), p, ops2. split_and!; [done| |done].
    by rewrite run_cons.
  - left. right. by eapply rx_over_evolves.
  - right. exists [], p, ops. split_and!; [done|done|]. by eapply rx_over_evolves.
Qed.

(** The receiver handed out by [try_register_waiter] is resolved at most
    once and by its own request only: whatever follows, either the request is
    still pending and the receiver still waits, or the request is over and the
    receiver saw its sender dropped, or it holds the packet of a
    [complete_waiter] for this session and identifier performed while this very
    request was the pending one. *)
Theorem waiter_gets_its_own_response sid rid biz timeout now r rx tok r1 ops :
  run_ok (RegisterWaiter rid sid biz timeout now :: ops) r ->
  try_register_waiter rid sid biz timeout now r = (Some (rx, tok), r1) ->
  let r' := (run ops r1).2 in
  rx_waiting tok rx r' \/ rx_over tok rx ChanClosed r' \/
  exists ops1 p ops2, ops = ops1 ++ CompleteWaiter sid rid p :: ops2 /\
    rx_waiting tok rx (run ops1 r1).2 /\ rx_over tok rx (ChanSent p) r'.
Proof.
  intros Hrun Heq r'. apply run_ok_cons in Hrun as (Hg & _ & Hng & _ & Hrun).
  cbn [step] in Hrun. rewrite Heq in Hrun. cbn [snd] in Hrun.
  destruct (registered_waiter _ _ _ _ _ _ _ _ _ Hg Hng Heq) as (Hrx & -> & Hlt & _ & _).
  destruct (waiter_run (mkToken sid rid Outbound (next_generation r)) rx ops r1 Hrun eq_refl Hlt Hrx) as [[?|?]|?]; auto.
Qed.

Lemma abandoned_request sid rid biz timeout now r rx tok r1 ops :
  run_ok (RegisterWaiter rid sid biz timeout now :: ops) r ->
  try_register_waiter rid sid biz timeout now r = (Some (rx, tok), r1) ->
  let r2 := (run ops r1).2 in
  let r3 := guard_drop (guard_armed (OutboundRequestGuard_new tok)) r2 in
  phase tok r3 = 0%nat /\ chans r3 !! rx <> Some ChanWaiting /\
  (forall k, waiters r3 !! k <> Some rx) /\
  (forall k, k <> token_key tok -> entries r3 !! k = entries r2 !! k) /\
  pending_count r3 = wrap 64 (Z.of_nat (active_len r3)) /\
  guard_drop (guard_disarm (guard_armed (OutboundRequestGuard_new tok))) r2 = r2.
Proof.
  intros Hrun Heq r2 r3. apply run_ok_cons in Hrun as (Hg & _ & Hng & _ & Hrun).
  cbn [step] in Hrun. rewrite Heq in Hrun. cbn [snd] in Hrun.
  destruct (registered_waiter _ _ _ _ _ _ _ _ _ Hg Hng Heq) as (Hrx & Htok & Hlt & _ & _).
  pose proof (waiter_run tok rx ops r1 Hrun ltac:(by subst) Hlt Hrx) as Hw. fold r2 in Hw.
  pose proof (proj1 (proj1 (run_advances ops r1 Hrun))) as Hg2. fold r2 in Hg2.
  pose proof (abort_request_token_spec ∅ tok r2 (proj1 Hg2)) as Hs.
  assert (Hr3 : r3 = (abort_request_token tok r2).2) by done.
  destruct (abort_request_token tok r2) as [b r3']. cbn [snd] in Hr3. subst r3'.
  assert (Hend : good ∅ ∅ r3 /\ phase tok r3 = 0%nat /\ chans r3 !! rx <> Some ChanWaiting /\
    forall k, k <> token_key tok -> entries r3 !! k = entries r2 !! k).
  { assert (Hw' : rx_waiting tok rx r2 \/ exists c, c <> ChanWaiting /\ rx_over tok rx c r2)
      by (destruct Hw as [[?|?]|(? & p & ? & _ & _ & ?)]; [by left|right; by exists ChanClosed|right; by exists (ChanSent p)]).
    destruct Hw' as [Hw'|(c & Hc & Hp & Hx)].
    - pose proof Hw' as (Hp & _). unfold phase in Hp.
      destruct (entries r2 !! token_key tok) as [e|] eqn:He; [|done].
      repeat case_decide; try done. rewrite !bool_decide_true in Hs by done. destruct Hs as [_ Hs].
      destruct (rx_waiting_retired _ _ _ _ _ _ Hg2 Hw' Hs) as [[? _]|[_ [? Hcl]]]; [done|].
      split_and!; [by eapply advances_retired|done|congruence|].
      intros k Hk. by rewrite (ret_entries _ _ _ _ Hs), lookup_delete_ne.
    - assert (r3 = r2) as ->.
      { unfold phase in Hp. destruct (entries r2 !! token_key tok) as [e|] eqn:He; [|apply Hs].
        pose proof (phase_0_inv tok r2 e (proj1 Hg2)) as Hne. unfold phase in Hne.
        rewrite He in Hne. specialize (Hne Hp eq_refl). by rewrite bool_decide_false in Hs by done; destruct Hs. }
      split_and!; [done|done|congruence|done]. }
  destruct Hend as ([Hwf3 Hwh3] & Hp3 & Hc3 & He3). split_and!; try done.
  - intros k Hk. apply Hc3. by eapply wf_waiter_chan.
  - apply (wf_pending _ _ Hwf3).
Qed.

(** An abandoned request leaves nothing behind. Whatever happened since the
    registration, dropping the armed guard ends the request: its token is over,
    its receiver no longer waits, no waiter sends to it, every other entry is
    as it was, and the gauge still counts the live entries. *)
Theorem dropped_guard_ends_its_request sid rid biz timeout now r rx tok r1 ops :
  run_ok (RegisterWaiter rid sid biz timeout now :: ops) r ->
  try_register_waiter rid sid biz timeout now r = (Some (rx, tok), r1) ->
  let r2 := (run ops r1).2 in
  let r3 := guard_drop (guard_armed (OutboundRequestGuard_new tok)) r2 in
  phase tok r3 = 0%nat /\ chans r3 !! rx <> Some ChanWaiting /\
  (forall k, waiters r3 !! k <> Some rx) /\
  (forall k, k <> token_key tok -> entries r3 !! k = entries r2 !! k) /\
  pending_count r3 = wrap 64 (Z.of_nat (active_len r3)) /\
  guard_drop (guard_disarm (guard_armed (OutboundRequestGuard_new tok))) r2 = r2.
Proof. apply abandoned_request. Qed.

(** ** Session teardown *)

(** C11: closing a session ends exactly its requests, pending or responding: no
    entry and no waiter of it is left, their receivers observe the closure,
    those of other sessions are untouched, the session refuses registrations
    until it is opened again, the reported number is the number of requests
    ended, and it is added to the closed-pending total. *)
Theorem close_session_drains_exactly_its_requests sid r biz timeout now now' rid :
  good ∅ ∅ r ->
  let n := (close_session_pending sid r).1 in
  let r' := (close_session_pending sid r).2 in
  (forall k, entries r' !! k = if decide (k_session_id k = Some sid) then None else entries r !! k) /\
  (forall k, waiters r' !! k = if decide (k_session_id k = Some sid) then None else waiters r !! k) /\
  (forall k c, waiters r !! k = Some c ->
     chans r' !! c = Some (if decide (k_session_id k = Some sid) then ChanClosed else ChanWaiting)) /\
  (n + active_len r' = active_len r)%nat /\
  pending_count r' = wrap 64 (Z.of_nat (active_len r')) /\
  sessions r' = delete sid (sessions r) /\
  register rid (Some sid) biz timeout now now' r' = (None, r') /\
  next_request_id (Some sid) r' = (None, r').
Proof.
  intros Hg. pose proof (close_session_spec ∅ sid r Hg) as Hs.
  destruct (close_session_pending sid r) as [n r']. cbn [fst snd].
  destruct Hs as ([[Hwf' _] _] & [De Dw Dc Dn _] & Hss & _ & _).
  assert (Hno : sessions r' !! sid = None) by (by rewrite Hss, lookup_delete_eq).
  split_and!; try done.
  - apply (wf_pending _ _ Hwf').
  - unfold register, register_impl, reg_resolve, runtime_of. simpl. by rewrite Hno.
  - unfold next_request_id, runtime_of. by rewrite Hno.
Qed.

(** ** The gauge *)

(** C9: in every state reached from a fresh registry the pending gauge is
    exactly the number of live entries, every entry is pending or (if inbound)
    being responded to and its session is open, and every waiter belongs to a
    pending outbound request and still waits. *)
Theorem gauge_counts_live_requests n tick ops :
  n <= U32_MAX -> Forall op_ok ops -> len ops < U64_MAX ->
  let r := (run ops (new_with_timing n tick)).2 in
  pending_count r = Z.of_nat (active_len r) /\
  (forall k e, entries r !! k = Some e ->
     (entry_state e = Pending \/ (entry_state e = Responding /\ k_direction k = Inbound)) /\
     forall sid, k_session_id k = Some sid -> is_Some (sessions r !! sid)) /\
  (forall k c, waiters r !! k = Some c ->
     k_direction k = Outbound /\ is_Some (entries r !! k) /\ chans r !! c = Some ChanWaiting).
Proof.
  intros Hn Hok Hlen r.
  assert (Hrun : run_ok ops (new_with_timing n tick)).
  { split_and!; [by apply good_initial|done|]. cbn. lia. }
  destruct (run_advances _ _ Hrun) as [[[Hwf _] _] Hb]. fold r in Hwf, Hb.
  change (next_generation (new_with_timing n tick)) with 1 in Hb.
  pose proof (generations_bound r Hwf). split_and!.
  - unfold pending_count, active_len. rewrite (wf_pending _ _ Hwf). apply wrap_small.
    unfold in_width, U64_MAX in *. lia.
  - intros k e He. split.
    + destruct (wf_live_state _ _ _ _ Hwf He) as (s & Hs & [-> | ->]);
        rewrite (entry_state_at e _ Hs); [by left|right]. split; [done|].
      eapply responding_inbound; eauto using entry_state_at.
    + intros sid Hk. destruct (wf_linked _ _ Hwf k e sid He Hk) as (l & rt & -> & _); [set_solver|eauto].
  - intros k c Hc. destruct (wf_waiter_entry _ _ Hwf k c Hc). split_and!; [done..|].
    by eapply wf_waiter_chan.
Qed.

(** ** Responding *)

(** A won response claim is settled exactly once, whichever way it is given
    up: resolving it (and the drop that follows) or just dropping it ends the
    request, takes one off the gauge and counts a send failure exactly when the
    write was not confirmed; when the session's teardown ended the request
    first, neither does anything. *)
Theorem respond_claim_settles_once tok ok r :
  good ∅ ∅ r ->
  let c := RespondClaim_new tok in
  claim_drop c r = claim_resolve c false r /\
  (phase tok r = 1%nat ->
     let r' := claim_resolve c ok r in
     good ∅ ∅ r' /\ phase tok r' = 0%nat /\ (S (active_len r') = active_len r)%nat /\
     entries r' = delete (token_key tok) (entries r) /\ waiters r' = waiters r /\
     response_send_failed_total (counters r') =
       if ok then response_send_failed_total (counters r)
       else wrap 64 (response_send_failed_total (counters r) + 1)) /\
  (phase tok r = 0%nat -> claim_resolve c ok r = r).
Proof.
  intros Hg c. pose proof Hg as [Hwf _]. split; [done|].
  change (claim_resolve c ok r) with (finish_respond tok ok r).2.
  pose proof (finish_respond_spec ∅ tok ok r Hwf) as Hs.
  split; intros Hp.
  - assert (Hfail : response_send_failed_total (counters (finish_respond tok ok r).2) =
      if ok then response_send_failed_total (counters r)
      else wrap 64 (response_send_failed_total (counters r) + 1)).
    { unfold phase in Hp. unfold finish_respond.
      destruct (entries r !! token_key tok) as [e|] eqn:He; [|done].
      repeat case_decide; try done. subst.
      destruct (wf_live_state _ _ _ _ Hwf He) as (s & Hst & [-> | ->]);
        rewrite (entry_state_at e _ Hst) in *; [done|].
      zbool. rewrite (try_transition_at e _ _ _ Hst), decide_True by done. cbn [negb fst snd].
      match goal with |- context [remove_terminal_entry ?k ?x] =>
        pose proof (remove_terminal_rest k x) as Hr end.
      cbv zeta in Hr. rewrite (proj1 (proj2 Hr)). by destruct ok. }
    cbv zeta. destruct (finish_respond tok ok r) as [res r'].
    unfold phase in Hp. destruct (entries r !! token_key tok) as [e|] eqn:He; [|done].
    repeat case_decide; try done. rewrite !bool_decide_true in Hs by done. destruct Hs as [_ Hs].
    assert (Hin : k_direction (token_key tok) = Inbound) by (by eapply responding_inbound).
    split_and!.
    + by eapply advances_retired.
    + by eapply phase_retired.
    + symmetry. by eapply retired_size.
    + apply Hs.
    + simpl. rewrite (ret_waiters _ _ _ _ Hs). apply delete_id. by eapply unwaited_inbound.
    + done.
  - destruct (finish_respond tok ok r) as [res r']. destruct (entries r !! token_key tok) as [e|] eqn:He.
    + pose proof (phase_0_inv _ _ _ Hwf Hp He). by rewrite bool_decide_false in Hs by done; destruct Hs.
    + by destruct Hs.
Qed.

(** ** Registration and scanning *)

(** Registration succeeds exactly when no live request has the key and the
    session, if there is one, is open. On success the entry is pending under a
    generation never used before, due [timeout] later, and nothing else changes
    but the gauge; on refusal no entry, waiter, session or gauge changes. *)
Theorem register_succeeds_iff rid sid biz timeout now now' r :
  good ∅ ∅ r -> next_generation r < U64_MAX ->
  let key := inbound sid rid in
  let '(o, r') := register rid sid biz timeout now now' r in
  good ∅ ∅ r' /\
  (is_Some o <-> entries r !! key = None /\ forall s, sid = Some s -> is_Some (sessions r !! s)) /\
  match o with
  | Some tok =>
      tok = mkToken sid rid Inbound (next_generation r) /\ phase tok r' = 2%nat /\
      entries r' = <[key := mkEntry key biz now (now + timeout) (next_generation r) 0]> (entries r) /\
      pending_count r' = wrap 64 (pending_count r + 1) /\ waiters r' = waiters r
  | None => entries r' = entries r /\ waiters r' = waiters r /\ sessions r' = sessions r /\
      pending_count r' = pending_count r
  end.
Proof.
  intros Hg Hng key. unfold register. fold key.
  pose proof (register_impl_spec ∅ key biz timeout true now now' r (proj1 Hg) Hng) as Hs.
  destruct (register_impl key biz timeout true now now' r) as [o r']. specialize (Hs ltac:(done)).
  assert (Hacc : accepts key r = true <->
    entries r !! key = None /\ forall s, sid = Some s -> is_Some (sessions r !! s)).
  { unfold accepts. rewrite andb_true_iff, bool_decide_eq_true. simpl.
    destruct sid; [rewrite bool_decide_eq_true|]; naive_solver. }
  destruct (accepts key r) eqn:E; destruct Hs as [-> Hs].
  - split_and!; [by eapply advances_registered|naive_solver|done| |apply Hs|apply Hs|apply Hs].
    unfold phase. change (token_key _) with key. rewrite (rg_entries _ _ _ _ Hs), lookup_insert_eq.
    by rewrite !decide_True.
  - split_and!; [by eapply advances_quiet| |apply Hs..].
    split; [by intros []|]. intros Hx. apply Hacc in Hx. congruence.
Qed.

(** One scan of the timeout wheel removes exactly the pending requests of
    the visited bucket whose deadline has passed: a request being responded to
    is never timed out, the reported number is the number removed, both
    counters move by it, and the registry stays consistent. *)
Theorem scan_reaps_exactly_the_overdue now clock r :
  good ∅ ∅ r ->
  let '(n, r') := scan_timeout_bucket now clock r in
  good ∅ ∅ r' /\
  (forall k e, entries r' !! k = Some e <->
     entries r !! k = Some e /\
     ~ (k ∈ next_bucket r /\ entry_state e = Pending /\ e_deadline_at e <= now)) /\
  (n + active_len r' = active_len r)%nat /\
  pending_count r' = wrap 64 (Z.of_nat (active_len r')) /\
  request_timeout_total (counters r') =
    (if decide (n = 0%nat) then request_timeout_total (counters r)
     else wrap 64 (request_timeout_total (counters r) + Z.of_nat n)).
Proof.
  intros Hg. pose proof (scan_spec now clock r Hg) as Hs.
  destruct (scan_timeout_bucket now clock r) as [n r']. cbv zeta in Hs.
  destruct Hs as ([Hg' _] & Hen & Hn & _ & _ & _ & _ & Ht). split_and!; try done.
  - intros k e. rewrite Hen. destruct (entries r !! k) as [e0|].
    2: { split; [done|by intros [? _]]. }
    clear Ht. unfold due. case_decide as Hd.
    + split; [intros [=]|]. intros [[= ->] Hnd]. tauto.
    + split; [intros [= ->]; tauto|by intros [? _]].
  - apply (wf_pending _ _ (proj1 Hg')).
Qed.
End registry.

(** ** Concrete runs *)

Definition sample_start : list op :=
  [OpenSession 7; OpenSession 8; Register 1 (Some 7) 0 100 0 0;
   RegisterWaiter 5 (Some 7) 0 50 0; Register 2 (Some 8) 0 500 0 0].

Definition sample_registry : RequestRegistry :=
  (run (T := Target64) sample_start (new_with_timing 8 10)).2.

Definition sample_token : RequestToken := mkToken (Some 7) 1 Inbound 1.

Definition sample_ops : list op :=
  [BeginRespond sample_token; BeginRespond sample_token; AbortToken sample_token;
   CompleteWaiter (Some 7) 5 sample_packet; FinishRespond sample_token true;
   FinishRespond sample_token false; CloseSession 8].

Lemma run_ok_app {T : Target} ops1 ops2 r : run_ok (ops1 ++ ops2) r -> run_ok ops2 (run ops1 r).2.
Proof.
  revert r. induction ops1 as [|o ops1 IH]; intros r Hrun; [done|].
  rewrite run_cons. apply run_ok_cons in Hrun as (_ & _ & _ & _ & Hrun). by apply IH.
Qed.

Lemma sample_run_ok ops : Forall op_ok ops -> len ops <= 1000 -> run_ok ops sample_registry.
Proof.
  intros Hok Hlen. apply run_ok_app. split_and!.
  - by apply good_initial.
  - apply Forall_app. split; [repeat constructor|done].
  - rewrite len_app. change (len sample_start) with 5. simpl (next_generation _).
    unfold U64_MAX. lia.
Qed.

Lemma sample_good : good ∅ ∅ sample_registry.
Proof. apply (sample_run_ok []); [constructor|done]. Qed.

Lemma single_winner_witness :
  (count (claims sample_token) sample_ops (run (T := Target64) sample_ops sample_registry).1 = 1)%nat /\
  (count (claims sample_token) sample_ops (run (T := Target64) sample_ops sample_registry).1 <=
     waiting (phase sample_token sample_registry) <= 1)%nat.
Proof.
  split; [vm_compute; reflexivity|].
  apply (single_winner (T := Target64) sample_token sample_ops sample_registry).
  - apply sample_run_ok; [repeat constructor|vm_compute; discriminate].
  - vm_compute; reflexivity.
Defined.

Lemma stale_token_is_inert_witness :
  let r := (run (T := Target64) sample_ops sample_registry).2 in
  begin_respond sample_token (run (T := Target64) [Register 1 (Some 7) 0 100 0 0] r).2 =
    (NotFound, duplicate_inc (run (T := Target64) [Register 1 (Some 7) 0 100 0 0] r).2).
Proof.
  refine (proj1 (stale_token_is_inert (T := Target64) sample_token [Register 1 (Some 7) 0 100 0 0]
           (run (T := Target64) sample_ops sample_registry).2 true _ _ _)).
  - apply run_ok_app, sample_run_ok; [repeat constructor|vm_compute; discriminate].
  - vm_compute; reflexivity.
  - vm_compute; reflexivity.
Defined.

Definition waiter_ops : list op := [CloseSession 8; CompleteWaiter (Some 7) 6 sample_packet].

Definition waiter_registered : nat * RequestToken * RequestRegistry :=
  match try_register_waiter (H := Target64) 6 (Some 7) 0 50 0 sample_registry with
  | (Some (rx, tok), r) => (rx, tok, r)
  | (None, r) => (0%nat, sample_token, r)
  end.

Abbreviation sample_rx := (waiter_registered.1.1).
Abbreviation sample_waiter := (waiter_registered.1.2).
Abbreviation sample_waited := (waiter_registered.2).

Lemma waiter_gets_its_own_response_witness :
  rx_waiting sample_waiter sample_rx (run (T := Target64) waiter_ops sample_waited).2 \/
  rx_over sample_waiter sample_rx ChanClosed (run (T := Target64) waiter_ops sample_waited).2 \/
  exists ops1 p ops2, waiter_ops = ops1 ++ CompleteWaiter (Some 7) 6 p :: ops2 /\
    rx_waiting sample_waiter sample_rx (run (T := Target64) ops1 sample_waited).2 /\
    rx_over sample_waiter sample_rx (ChanSent p) (run (T := Target64) waiter_ops sample_waited).2.
Proof.
  refine (waiter_gets_its_own_response (T := Target64) (Some 7) 6 0 50 0 sample_registry
           sample_rx sample_waiter sample_waited waiter_ops _ _).
  - apply sample_run_ok; [repeat constructor|vm_compute; discriminate].
  - vm_compute; reflexivity.
Defined.

Lemma dropped_guard_ends_its_request_witness :
  phase sample_waiter (guard_drop (guard_armed (OutboundRequestGuard_new sample_waiter))
    (run (T := Target64) [CloseSession 8] sample_waited).2) = 0%nat.
Proof.
  refine (proj1 (dropped_guard_ends_its_request (T := Target64) (Some 7) 6 0 50 0 sample_registry
           sample_rx sample_waiter sample_waited [CloseSession 8] _ _)).
  - apply sample_run_ok; [repeat constructor|vm_compute; discriminate].
  - vm_compute; reflexivity.
Defined.

Lemma close_session_drains_witness :
  ((close_session_pending 7 sample_registry).1 +
     active_len (close_session_pending 7 sample_registry).2 = active_len sample_registry)%nat /\
  (close_session_pending 7 sample_registry).1 = 2%nat.
Proof.
  split; [|vm_compute; reflexivity].
  exact (proj1 (proj2 (proj2 (proj2
    (close_session_drains_exactly_its_requests (T := Target64) 7 sample_registry 0 0 0 0 0 sample_good))))).
Defined.

Lemma gauge_counts_live_requests_witness :
  pending_count (run (T := Target64) sample_start (new_with_timing 8 10)).2 = 3 /\
  pending_count (run (T := Target64) sample_start (new_with_timing 8 10)).2 =
    Z.of_nat (active_len (run (T := Target64) sample_start (new_with_timing 8 10)).2).
Proof.
  split; [vm_compute; reflexivity|].
  refine (proj1 (gauge_counts_live_requests (T := Target64) 8 10 sample_start _ _ _));
    [vm_compute; discriminate|repeat constructor|vm_compute; reflexivity].
Defined.

Lemma respond_claim_settles_once_witness :
  let r := (run (T := Target64) [BeginRespond sample_token] sample_registry).2 in
  phase sample_token r = 1%nat /\
  claim_drop (RespondClaim_new sample_token) r = claim_resolve (RespondClaim_new sample_token) false r.
Proof.
  split; [vm_compute; reflexivity|].
  refine (proj1 (respond_claim_settles_once sample_token false _ _)).
  apply (run_ok_app (T := Target64) [BeginRespond sample_token] []), sample_run_ok;
    [repeat constructor|vm_compute; discriminate].
Defined.

Lemma register_succeeds_iff_witness :
  let '(o, r') := register (H := Target64) 9 (Some 8) 3 100 0 0 sample_registry in
  good ∅ ∅ r' /\ is_Some o.
Proof.
  pose proof (register_succeeds_iff (T := Target64) 9 (Some 8) 3 100 0 0 sample_registry
    sample_good ltac:(vm_compute; reflexivity)) as H.
  destruct (register 9 (Some 8) 3 100 0 0 sample_registry) as [o r'].
  destruct H as (Hg & Hiff & _). split; [exact Hg|]. apply Hiff.
  split; [vm_compute; reflexivity|]. intros s Hs. injection Hs as <-. vm_compute. by eexists.
Defined.

Lemma scan_reaps_exactly_the_overdue_witness :
  let '(n, r') := scan_timeout_bucket (H := Target64) 200 (fun _ => 0) sample_registry in
  good ∅ ∅ r' /\ (n + active_len r' = active_len sample_registry)%nat.
Proof.
  pose proof (scan_reaps_exactly_the_overdue (T := Target64) 200 (fun _ => 0) sample_registry
    sample_good) as H.
  destruct (scan_timeout_bucket 200 (fun _ => 0) sample_registry) as [n r'].
  destruct H as (Hg & _ & Hn & _). split; [exact Hg|exact Hn].
Defined.
