(* ===== verification/RegistryLive.v ===== *)
(** * Identifiers and timeouts over time

    Along any run of the request registry: the identifiers a session hands out
    never repeat, and the timeout wheel reaps every overdue request within one
    turn. *)

From S2P Require Import Prelude Packet Registry RegistryInv RegistryOps RegistryRun RegistryProps.
From Stdlib Require Import Sorted.

(** ** Request identifiers *)

(** The identifiers a run allocates for session [sid]. *)
Fixpoint issued (sid : Z) (ops : list op) (xs : list outcome) : list Z :=
  match ops, xs with
  | NextRequestId (Some s) :: ops, OId (Some i) :: xs =>
      if decide (s = sid) then i :: issued sid ops xs else issued sid ops xs
  | _ :: ops, _ :: xs => issued sid ops xs
  | _, _ => []
  end.

(** The next identifier of an open session. *)
Definition next_of (sid : Z) (r : RequestRegistry) : option Z :=
  match runtime_of r sid with Some (_, rt) => Some (rt_next_request_id rt) | None => None end.

Section live.
Context `{T : Target}.

Lemma next_of_moved sid o r n :
  o <> CloseSession sid -> moved o r (step o r).2 -> next_of sid r = Some n ->
  exists n', next_of sid (step o r).2 = Some n' /\ next_le n n'.
Proof.
  intros Hne ([_ Hev] & _ & Hss & _) Hn. unfold next_of, runtime_of in *.
  destruct (sessions r !! sid) as [l|] eqn:Hs; [|done]. simpl in Hn.
  destruct (runtimes r !! l) as [rt|] eqn:Hrt; [|done]. simplify_eq/=.
  rewrite (Hss sid l Hne Hs). simpl. destruct (ev_runtimes _ _ Hev l rt Hrt) as (rt' & -> & ?).
  simpl. eauto.
Qed.

(** An allocation returns the counter, below the maximum, and advances it. *)
Lemma step_next_id sid r i n :
  next_of sid r = Some n -> (step (NextRequestId (Some sid)) r).1 = OId (Some i) ->
  i = n /\ i <> U32_MAX /\ next_of sid (step (NextRequestId (Some sid)) r).2 = Some (n + 1).
Proof.
  unfold next_of. cbn [step]. unfold next_request_id, runtime_of.
  destruct (sessions r !! sid) as [l|] eqn:Hs; [|done]. simpl.
  destruct (runtimes r !! l) as [rt|] eqn:Hrt; [|done]. simpl.
  destruct (negb (is_open rt)); [done|]. zcase; [done|]. intros ? ?. simplify_eq/=.
  rewrite Hs. simpl. by rewrite lookup_insert_eq.
Qed.

Lemma issued_cons sid o ops x xs :
  issued sid (o :: ops) (x :: xs) =
    match o, x with
    | NextRequestId (Some s), OId (Some i) => if decide (s = sid) then [i] else []
    | _, _ => []
    end ++ issued sid ops xs.
Proof. simpl. by repeat case_match. Qed.

(** The request identifiers a session hands out while it is open are
    strictly increasing, start at its counter and stay below 2^32 - 1: within a
    session no identifier is handed out twice, whatever else the registry does
    in between. *)
Theorem session_ids_never_repeat sid n ops r :
  run_ok ops r -> next_of sid r = Some n -> n <= U32_MAX -> CloseSession sid ∉ ops ->
  let ids := issued sid ops (run ops r).1 in
  StronglySorted Z.lt ids /\ Forall (fun i => n <= i < U32_MAX) ids.
Proof.
  revert n r. induction ops as [|o ops IH]; intros n r Hrun Hn Hmax Hni; [repeat constructor|].
  cbv zeta. rewrite run_cons. cbn [fst]. rewrite issued_cons.
  apply run_ok_cons in Hrun as (_ & _ & _ & Hm & Hrun).
  destruct (next_of_moved sid o r n) as (n' & Hn' & Hle & Hcap); [set_solver|done|done|].
  destruct (IH n' _ Hrun Hn' (Hcap Hmax)) as [IHs IHb]; [set_solver|].
  assert (Hweak : forall m, n <= m -> forall ids, Forall (fun i => m <= i < U32_MAX) ids ->
    Forall (fun i => n <= i < U32_MAX) ids).
  { intros m ? ids HF. eapply Forall_impl; [exact HF|]. simpl. lia. }
  assert (Hskip : forall l, l = [] -> StronglySorted Z.lt (l ++ issued sid ops (run ops (step o r).2).1) /\
    Forall (fun i => n <= i < U32_MAX) (l ++ issued sid ops (run ops (step o r).2).1)).
  { intros l ->. split; [done|]. by eapply Hweak. }
  destruct o as [| |[s|]| | | | | | | | | | |]; try (by apply Hskip).
  destruct (step (NextRequestId (Some s)) r).1 as [|[i|]| | | | |] eqn:Hout; try (by apply Hskip).
  case_decide as Hd; [subst s|by apply Hskip].
  destruct (step_next_id sid r i n Hn Hout) as (-> & Hne & Hn2).
  rewrite Hn2 in Hn'. simplify_eq. simpl. split; constructor; try done; [|lia|].
  - eapply Forall_impl; [exact IHb|]. simpl. lia.
  - apply (Hweak (n + 1)); [lia|done].
Qed.

(** ** The timeout wheel *)

Lemma as_usize_mod c x : (c | 2 ^ usize_bits) -> 0 < c -> as_usize (wrap 64 x) mod c = x mod c.
Proof.
  intros Hq Hc. unfold as_usize, wrap. rewrite Z.mod_mod_divide by done.
  apply Z.mod_mod_divide. transitivity (2 ^ usize_bits); [done|].
  destruct usize_bits_spec as [-> | ->]; [|done]. by exists (2 ^ 32).
Qed.

(** [k] sits in the bucket the wheel reaches after [d] more turns. *)
Definition ahead (k : RequestKey) (d : Z) (r : RequestRegistry) : Prop :=
  exists b, buckets r !! Z.to_nat ((current_tick r + 1 + d) mod bucket_count r) = Some b /\ k ∈ b.

Lemma ahead_steady k d r r' : steady r r' -> ahead k d r -> ahead k d r'.
Proof.
  intros [Ht Hc Hb] (b & Hi & Hin). destruct (Hb _ _ Hi) as (b' & Hi' & ?).
  exists b'. rewrite Ht, Hc. auto.
Qed.

(** The request of generation [g] under [k] is pending, due at [d]. *)
Definition pending_at (k : RequestKey) (g d : Z) (r : RequestRegistry) : Prop :=
  exists e, entries r !! k = Some e /\ e_generation e = g /\ entry_state e = Pending /\
    e_deadline_at e = d.

Lemma pending_at_back k g d r r' :
  evolves r r' -> g < next_generation r -> wf ∅ r ->
  (exists e, entries r !! k = Some e /\ e_generation e = g /\ e_deadline_at e = d) ->
  (exists e, entries r' !! k = Some e /\ e_generation e = g /\ entry_state e = Pending) ->
  pending_at k g d r /\ pending_at k g d r'.
Proof.
  intros Hev Hlt Hwf (e & He & Hg & Hd) (e' & He' & Hg' & Hs').
  destruct (ev_entries _ _ Hev _ _ He') as [(e0 & He0 & [->|[Hs ->]])|?]; [| |lia].
  - simplify_eq. split; exists e; done.
  - by simplify_eq.
Qed.

Lemma scan_index r : (bucket_count r | 2 ^ usize_bits) -> 0 < bucket_count r ->
  bucket_index r (wrap 64 (current_tick r + 1)) = Z.to_nat ((current_tick r + 1) mod bucket_count r).
Proof. intros. unfold bucket_index. by rewrite as_usize_mod. Qed.

(** One turn brings every other bucket one step closer. *)
Lemma ahead_scan k d now clock r :
  good ∅ ∅ r -> (bucket_count r | 2 ^ usize_bits) -> 0 < d < bucket_count r -> ahead k d r ->
  ahead k (d - 1) (scan_timeout_bucket now clock r).2.
Proof.
  intros Hg Hdiv Hd (b & Hi & Hin). pose proof (wf_bucket_count _ _ (proj1 Hg)) as Hc.
  pose proof (scan_spec now clock r Hg) as Hs.
  destruct (scan_timeout_bucket now clock r) as [n r']. cbv zeta in Hs. simpl.
  destruct Hs as (_ & _ & _ & _ & Ht & Hbc & Hb & _). rewrite scan_index in Hb by (done || lia).
  assert (Heq : (current_tick r' + 1 + (d - 1)) mod bucket_count r =
                (current_tick r + 1 + d) mod bucket_count r).
  { rewrite Ht. unfold wrap. replace (_ mod 2 ^ 64 + 1 + (d - 1)) with ((current_tick r + 1) mod 2 ^ 64 + d) by lia.
    rewrite <- Z.add_mod_idemp_l by lia. rewrite Z.mod_mod_divide, Z.add_mod_idemp_l; [f_equal; lia|lia|].
    transitivity (2 ^ usize_bits); [done|]. destruct usize_bits_spec as [-> | ->]; [|done]. by exists (2 ^ 32). }
  assert (Hne : Z.to_nat ((current_tick r + 1 + d) mod bucket_count r) <> Z.to_nat ((current_tick r + 1) mod bucket_count r)).
  2: { destruct (Hb _ b Hne Hi) as (b' & Hi' & ?). exists b'. rewrite Hbc, Heq. auto. }
  intros Hbad. apply Z2Nat.inj in Hbad; [|apply Z.mod_pos_bound; lia..].
  rewrite (Z.add_mod (_ + 1) d) in Hbad by lia. rewrite (Z.mod_small d) in Hbad by lia.
  pose proof (Z.mod_pos_bound (current_tick r + 1) (bucket_count r) ltac:(lia)).
  set (x := (current_tick r + 1) mod bucket_count r) in *.
  destruct (decide (x + d < bucket_count r)).
  - rewrite Z.mod_small in Hbad by lia. lia.
  - replace (x + d) with (x + d - bucket_count r + 1 * bucket_count r) in Hbad by lia.
    rewrite Z.mod_add, Z.mod_small in Hbad by lia. lia.
Qed.

(** The bucket being visited loses its overdue pending requests. *)
Lemma ahead_now k g d now clock r :
  good ∅ ∅ r -> (bucket_count r | 2 ^ usize_bits) -> ahead k 0 r -> d <= now ->
  pending_at k g d r -> entries (scan_timeout_bucket now clock r).2 !! k = None.
Proof.
  intros Hg Hdiv (b & Hi & Hin) Hle (e & He & _ & Hs & Hd). pose proof (wf_bucket_count _ _ (proj1 Hg)).
  pose proof (scan_spec now clock r Hg) as Hsc.
  destruct (scan_timeout_bucket now clock r) as [n r']. cbv zeta in Hsc. simpl.
  destruct Hsc as (_ & Hen & _). rewrite Hen, He, decide_True; [done|].
  split; [|split; [done|lia]]. unfold next_bucket. rewrite scan_index by (done || lia).
  rewrite Z.add_0_r in Hi. by rewrite Hi.
Qed.

Definition scans (ops : list op) : Z := len (filter (fun o => is_scan o = true) ops).

Lemma step_bucket_count o r : good ∅ ∅ r -> moved o r (step o r).2 ->
  bucket_count (step o r).2 = bucket_count r.
Proof.
  intros Hg (_ & _ & _ & Hst). destruct (is_scan o) eqn:Ho; [|by apply st_bucket_count, Hst].
  destruct o; try done. cbn [step]. pose proof (scan_spec now clock r Hg) as Hs.
  destruct (scan_timeout_bucket now clock r) as [n r']. cbv zeta in Hs. by apply Hs.
Qed.

Lemma wheel_run k g d ops : forall t r,
  run_ok ops r -> (bucket_count r | 2 ^ usize_bits) -> g < next_generation r ->
  (forall now clock, Scan now clock ∈ ops -> d <= now) ->
  0 <= t < bucket_count r -> t < scans ops -> ahead k t r -> pending_at k g d r ->
  ~ exists e, entries (run ops r).2 !! k = Some e /\ e_generation e = g /\ entry_state e = Pending.
Proof.
  induction ops as [|o ops IH]; intros t r Hrun Hdiv Hlt Hnow Ht Hts Hah Hp.
  { change (scans []) with 0 in Hts. lia. }
  rewrite run_cons. cbn [snd]. intros Hend.
  apply run_ok_cons in Hrun as (Hg & Hok & _ & Hm & Hrun).
  pose proof Hm as ([Hg1 Hev1] & _ & _ & Hst).
  pose proof (step_bucket_count o r Hg Hm) as Hbc. pose proof (ev_next _ _ Hev1) as Hn1.
  pose proof (proj2 (proj1 (run_advances _ _ Hrun))) as Hev2.
  assert (Hp1 : pending_at k g d (step o r).2).
  { destruct Hp as (e & He & Hge & Hse & Hde). destruct Hend as (e2 & He2 & Hg2 & Hs2).
    destruct (ev_entries _ _ Hev2 _ _ He2) as [(e1 & He1 & Hs1)|?]; [|lia].
    assert (e1 = e2) as -> by (destruct Hs1 as [->|[_ ->]]; done).
    eapply (pending_at_back k g d r); [done|lia|apply Hg|by exists e|by exists e2]. }
  assert (Hscan : forall now clock, Scan now clock ∈ ops -> d <= now) by (intros now clock ?; apply (Hnow now clock); set_solver).
  assert (Hnext : forall t', 0 <= t' < bucket_count r -> t' < scans ops ->
    ahead k t' (step o r).2 -> False).
  { intros t' ? ? Hah'. eapply (IH t' (step o r).2); rewrite ?Hbc; try done. lia. }
  unfold scans in Hts. rewrite filter_cons in Hts. destruct (is_scan o) eqn:Ho.
  - rewrite decide_True, len_cons in Hts by done. destruct o; try done. cbn [step] in *.
    pose proof (ahead_now k g d now clock r Hg Hdiv) as Hnw.
    pose proof (ahead_scan k t now clock r Hg Hdiv) as Hsc.
    destruct (scan_timeout_bucket now clock r) as [n r']. simpl in *.
    destruct (decide (t = 0)) as [->|].
    + destruct Hp1 as (e & He & _). rewrite Hnw in He; [done|done|apply (Hnow now clock); set_solver|done].
    + apply (Hnext (t - 1)); [lia|unfold scans; lia|]. apply Hsc; [lia|done].
  - rewrite decide_False in Hts by congruence. apply (Hnext t); [done|done|].
    eapply ahead_steady; eauto.
Qed.

(** C12: a registered inbound request whose deadline has passed does not stay
    pending: once every later scan reads a clock past the deadline, one turn of
    the wheel ([bucket_count] scans, other operations in between) leaves it
    gone, or claimed by a responder; this holds across the wrap-around of the
    tick counter, for any bucket count that divides the pointer range (the
    library uses 256). *)
Theorem overdue_request_is_reaped k e ops r :
  run_ok ops r -> (bucket_count r | 2 ^ usize_bits) ->
  entries r !! k = Some e -> entry_state e = Pending -> k_direction k = Inbound ->
  (forall now clock, Scan now clock ∈ ops -> e_deadline_at e <= now) ->
  bucket_count r <= scans ops ->
  forall e', entries (run ops r).2 !! k = Some e' -> e_generation e' = e_generation e ->
    entry_state e' = Responding.
Proof.
  intros Hrun Hdiv He Hs Hd Hnow Hsc e' He' Hg'. pose proof Hrun as ([Hwf Hwh] & _).
  pose proof (wf_bucket_count _ _ Hwf) as Hc.
  assert (Hs' : e_state e = RequestState_as_u8 Pending).
  { destruct (wf_live_state _ _ _ _ Hwf He) as (s & Hst & [-> | ->]); [done|].
    rewrite (entry_state_at e _ Hst) in Hs. done. }
  destruct (Hwh k e He Hs' Hd) as (i & b & Hi & Hin); [set_solver|].
  pose proof (lookup_lt_Some _ _ _ Hi) as Hlt. rewrite (wf_buckets _ _ Hwf) in Hlt.
  set (t := (Z.of_nat i - (current_tick r + 1)) mod bucket_count r).
  pose proof (Z.mod_pos_bound (Z.of_nat i - (current_tick r + 1)) (bucket_count r) ltac:(lia)) as Ht.
  fold t in Ht.
  assert (Hah : ahead k t r).
  { exists b. unfold t. rewrite Z.add_mod_idemp_r by lia.
    replace (_ + (_ - _)) with (Z.of_nat i) by lia. rewrite Z.mod_small by lia. by rewrite Nat2Z.id. }
  destruct (wf_live_state _ _ _ _ (proj1 (proj1 (proj1 (run_advances _ _ Hrun)))) He') as (s & Hst & [-> | ->]);
    [|by apply entry_state_at].
  exfalso. eapply (wheel_run k (e_generation e) (e_deadline_at e) ops t r); try done; [|lia| |].
  - apply (wf_gen_bound _ _ Hwf k e He).
  - exists e. done.
  - exists e'. split_and!; [done|done|by apply entry_state_at].
Qed.
End live.

(** ** Concrete runs *)

Definition id_ops : list op :=
  [NextRequestId (Some 7); RegisterWaiter 1 (Some 7) 0 50 0; NextRequestId (Some 8);
   NextRequestId (Some 7); CloseSession 8; NextRequestId (Some 7)].

Lemma session_ids_never_repeat_witness :
  issued 7 id_ops (run (T := Target64) id_ops sample_registry).1 = [1; 2; 3] /\
  StronglySorted Z.lt (issued 7 id_ops (run (T := Target64) id_ops sample_registry).1).
Proof.
  split; [vm_compute; reflexivity|].
  refine (proj1 (session_ids_never_repeat (T := Target64) 7 1 id_ops sample_registry _ _ _ _)).
  - apply sample_run_ok; [repeat constructor|vm_compute; discriminate].
  - vm_compute; reflexivity.
  - vm_compute; discriminate.
  - intros Hin%list_elem_of_In. simpl in Hin. intuition discriminate.
Defined.

Definition turn : list op := replicate 8 (Scan 100 (fun _ => 0)).

Lemma overdue_request_is_reaped_witness :
  let r' := (run (T := Target64) turn sample_registry).2 in
  (forall e', entries r' !! inbound (Some 7) 1 = Some e' -> e_generation e' = 1 ->
     entry_state e' = Responding) /\
  entries r' !! inbound (Some 7) 1 = None /\
  entry_state <$> entries r' !! inbound (Some 8) 2 = Some Pending.
Proof.
  split; [|vm_compute; split; reflexivity].
  refine (overdue_request_is_reaped (T := Target64) (inbound (Some 7) 1)
    (mkEntry (inbound (Some 7) 1) 0 0 100 1 0) turn sample_registry _ _ _ _ _ _ _).
  - apply sample_run_ok; [repeat constructor|vm_compute; discriminate].
  - exists (2 ^ 61). vm_compute. reflexivity.
  - vm_compute; reflexivity.
  - reflexivity.
  - reflexivity.
  - intros now clock Hin. apply elem_of_replicate in Hin as [Heq _]. injection Heq as -> _. simpl. lia.
  - vm_compute; discriminate.
Defined.
