(* ===== verification/RegistryRace.v ===== *)
(** * Registrations racing a session close

    The registry is shared by many tasks without a global lock. Here the
    registration, the close of one session and the removal of finished
    requests are cut into the atomic steps of [register_impl],
    [try_register_waiter], [close_session_pending] and
    [remove_terminal_entry], and interleaved freely. *)

From S2P Require Import Prelude Packet Registry RegistryInv RegistryOps RegistryRun.

(** ** A registering task

    Its program counter, with the locals it holds. *)
Inductive rstate :=
  | RIdle (key : RequestKey) (biz timeout : Z)
  | RResolved (key : RequestKey) (biz timeout : Z) (rt : option nat)
  | RGenerated (e : RequestEntry) (rt : option nat)
  | RCounted (e : RequestEntry) (rt : option nat)
  | RPublished (e : RequestEntry) (rt : option nat)
  | RLinked (e : RequestEntry) (l : nat)
  | RAccepted (e : RequestEntry)
  | RWaiting (e : RequestEntry) (rx : nat)
  | RFinished (e : RequestEntry) (rx : option nat)
  | RRefused (key : RequestKey).

(** Inbound requests go through [register], outbound ones through
    [try_register_waiter]: the former are scheduled, the latter get a waiter. *)
Definition thread_step `{Target} (now : Z) (st : rstate) (r : RequestRegistry)
    : option (rstate * RequestRegistry) :=
  match st with
  | RIdle key biz timeout =>
      match reg_resolve key r with
      | None => Some (RRefused key, r)
      | Some rt => Some (RResolved key biz timeout rt, r)
      end
  | RResolved key biz timeout rt =>
      let '(g, r) := reg_generation r in
      Some (RGenerated (new_entry key biz timeout now g) rt, r)
  | RGenerated e rt => Some (RCounted e rt, pending_add r)
  | RCounted e rt =>
      let '(inserted, r) := reg_publish e r in
      Some (if inserted : bool then RPublished e rt else RRefused (e_key e), r)
  | RPublished e (Some l) => Some (RLinked e l, reg_link (e_key e) l r)
  | RPublished e None => Some (RAccepted e, r)
  | RLinked e l =>
      if runtime_is_open l r then Some (RAccepted e, r)
      else Some (RRefused (e_key e), reg_undo (e_key e) r)
  | RAccepted e =>
      match k_direction (e_key e) with
      | Inbound => Some (RFinished e None, schedule_for_deadline (e_key e) (e_deadline_at e) now r)
      | Outbound => let '(rx, r) := waiters_insert_new (e_key e) r in Some (RWaiting e rx, r)
      end
  | RWaiting e rx =>
      match entries r !! e_key e with
      | None => Some (RRefused (e_key e), waiters_remove_drop (e_key e) r)
      | Some _ => Some (RFinished e (Some rx), r)
      end
  | RFinished _ _ | RRefused _ => None
  end.

(** ** The closing task *)
Inductive cstate :=
  | CIdle
  | CRemoved (l : nat)
  | CClosing (l : nat)
  | CDrain (l : nat) (closed : nat) (todo : list RequestKey)
  | CCleared (closed : nat)
  | CDone (closed : nat).

Definition close_step (sid : Z) (c : cstate) (r : RequestRegistry)
    : option (cstate * RequestRegistry) :=
  match c with
  | CIdle =>
      match sessions r !! sid with
      | None => Some (CDone 0, r)
      | Some l => Some (CRemoved l, upd_sessions (delete sid) r)
      end
  | CRemoved l => Some (CClosing l, close_runtime l r)
  | CClosing l => Some (CDrain l 0 (requests_of l r), r)
  | CDrain l closed (key :: todo) =>
      let '(closed, r) := drain_key (closed, r) key in Some (CDrain l closed todo, r)
  | CDrain l closed [] => Some (CCleared closed, clear_requests l r)
  | CCleared closed =>
      Some (CDone closed,
            if 0 <? Z.of_nat closed then session_closed_add (Z.of_nat closed) r else r)
  | CDone _ => None
  end.

(** Run alone, a task is the operation of [Registry]. *)
Fixpoint run_thread `{Target} (fuel : nat) (now : Z) (st : rstate) (r : RequestRegistry)
    : rstate * RequestRegistry :=
  match fuel with
  | O => (st, r)
  | S fuel =>
      match thread_step now st r with
      | Some (st, r) => run_thread fuel now st r
      | None => (st, r)
      end
  end.

Fixpoint run_close (fuel : nat) (sid : Z) (c : cstate) (r : RequestRegistry)
    : cstate * RequestRegistry :=
  match fuel with
  | O => (c, r)
  | S fuel =>
      match close_step sid c r with
      | Some (c, r) => run_close fuel sid c r
      | None => (c, r)
      end
  end.

(** ** The system *)

(** [unlinking] and [unwaiting] are the requests being removed by some task:
    their entry is gone, the link to the session, respectively the waiter, is
    about to be. *)
Record sys := mkSys {
  s_reg : RequestRegistry;
  s_threads : list rstate;
  s_close : cstate;
  s_unlinking : gset RequestKey;
  s_unwaiting : gset RequestKey
}.

(** The request a task is registering, between the publication of its entry
    and the return of its token. *)
Definition in_flight (st : rstate) : option RequestKey :=
  match st with
  | RPublished e _ | RLinked e _ => Some (e_key e)
  | _ => None
  end.

Section race.
Context `{T : Target} (sid : Z).

Inductive race : sys -> sys -> Prop :=
  (* a registering task moves *)
  | race_thread i now st st' r r' ts c ul uw :
      ts !! i = Some st -> thread_step now st r = Some (st', r') ->
      race (mkSys r ts c ul uw) (mkSys r' (<[i := st']> ts) c ul uw)
  (* the closing task moves *)
  | race_close r r' ts c c' ul uw :
      close_step sid c r = Some (c', r') ->
      race (mkSys r ts c ul uw) (mkSys r' ts c' ul uw)
  (* the iteration may also yield keys inserted meanwhile *)
  | race_visit r ts l closed todo key ul uw :
      key ∈ requests_of l r ->
      race (mkSys r ts (CDrain l closed todo) ul uw)
           (mkSys r ts (CDrain l closed (key :: todo)) ul uw)
  (* a response is begun with a token that was returned to somebody *)
  | race_begin r ts c ul uw tok :
      t_direction tok = Inbound ->
      Forall (fun st => in_flight st <> Some (token_key tok)) ts ->
      race (mkSys r ts c ul uw) (mkSys (begin_respond tok r).2 ts c ul uw)
  (* a request is over (completed, timed out, aborted or finished): its entry
     goes first, then its link, then its waiter *)
  | race_retire r ts c ul uw key :
      is_Some (entries r !! key) ->
      race (mkSys r ts c ul uw)
           (mkSys (upd_entries (delete key) (pending_sub r)) ts c ({[key]} ∪ ul) uw)
  | race_unlink r ts c ul uw key :
      key ∈ ul ->
      race (mkSys r ts c ul uw)
           (mkSys (runtime_unlink key r) ts c (ul ∖ {[key]}) ({[key]} ∪ uw))
  | race_unwait r ts c ul uw key :
      key ∈ uw ->
      race (mkSys r ts c ul uw)
           (mkSys (waiters_remove_drop key r) ts c ul (uw ∖ {[key]})).

End race.

(** ** Alone, the steps compose to the operations *)

Definition thread_result (st : rstate) : option (option nat * RequestToken) :=
  match st with
  | RFinished e rx =>
      let k := e_key e in
      Some (rx, mkToken (k_session_id k) (k_request_id k) (k_direction k) (e_generation e))
  | _ => None
  end.

Lemma drain_steps sid l todo : forall closed r n,
  run_close (length todo + n) sid (CDrain l closed todo) r =
    let '(closed', r') := foldl drain_key (closed, r) todo in
    run_close n sid (CDrain l closed' []) r'.
Proof.
  induction todo as [|k todo IH]; intros closed r n; [done|].
  cbn [length Nat.add run_close close_step foldl].
  destruct (drain_key (closed, r) k) as [closed1 r1]. apply IH.
Qed.

(** The interleaved steps are the operations: a task that registers an
    inbound request alone computes [register], one that registers an outbound
    request computes [try_register_waiter], and the closing task computes
    [close_session_pending], all within the given number of steps. *)
Theorem solo_tasks_are_the_operations `{Target} sid rid session biz timeout now r :
  (let '(st, r') := run_thread 8 now (RIdle (inbound session rid) biz timeout) r in
   register rid session biz timeout now now r = (snd <$> thread_result st, r')) /\
  (let '(st, r') := run_thread 8 now (RIdle (outbound session rid) biz timeout) r in
   try_register_waiter rid session biz timeout now r =
     (match thread_result st with Some (Some rx, tok) => Some (rx, tok) | _ => None end, r')) /\
  (forall l, sessions r !! sid = Some l ->
     let r0 := close_runtime l (upd_sessions (delete sid) r) in
     run_close (6 + length (requests_of l r0)) sid CIdle r =
       (CDone (close_session_pending sid r).1, (close_session_pending sid r).2)).
Proof.
  split_and!.
  - unfold register, register_impl. cbn [run_thread thread_step].
    destruct (reg_resolve (inbound session rid) r) as [rt|]; [|done].
    cbn [run_thread thread_step]. destruct (reg_generation r) as [g r1].
    cbn [run_thread thread_step].
    destruct (reg_publish _ _) as [[] r2]; cbn [negb run_thread thread_step]; [|done].
    destruct rt as [l|]; [|done]. cbn [run_thread thread_step e_key new_entry].
    by destruct (runtime_is_open l _).
  - unfold try_register_waiter, register_impl. cbn [run_thread thread_step].
    destruct (reg_resolve (outbound session rid) r) as [rt|]; [|done].
    cbn [run_thread thread_step]. destruct (reg_generation r) as [g r1].
    cbn [run_thread thread_step].
    destruct (reg_publish _ _) as [[] r2]; cbn [negb run_thread thread_step]; [|done].
    destruct rt as [l|].
    + cbn [run_thread thread_step e_key new_entry]. destruct (runtime_is_open l _); [|done].
      cbn [negb run_thread thread_step e_key new_entry k_direction outbound].
      destruct (waiters_insert_new _ _) as [rx r4]. cbn [run_thread thread_step e_key new_entry].
      by destruct (entries r4 !! _).
    + cbn [run_thread thread_step e_key new_entry k_direction outbound].
      destruct (waiters_insert_new _ _) as [rx r4]. cbn [run_thread thread_step e_key new_entry].
      by destruct (entries r4 !! _).
  - intros l Hl r0. unfold close_session_pending. rewrite Hl. fold r0.
    replace (6 + length (requests_of l r0))%nat
      with (S (S (S (length (requests_of l r0) + 3)))) by lia.
    cbn [run_close close_step]. rewrite Hl. cbn [run_close close_step]. fold r0.
    rewrite drain_steps.
    by destruct (foldl drain_key (0%nat, r0) (requests_of l r0)) as [n r'].
Qed.

(** ** The invariant, key by key *)

Definition tkey (st : rstate) : RequestKey :=
  match st with
  | RIdle k _ _ | RResolved k _ _ _ | RRefused k => k
  | RGenerated e _ | RCounted e _ | RPublished e _ | RLinked e _ | RAccepted e
  | RWaiting e _ | RFinished e _ => e_key e
  end.

Definition req (l : nat) (r : RequestRegistry) (k : RequestKey) : Prop :=
  exists rt, runtimes r !! l = Some rt /\ k ∈ rt_requests rt.

(** [r'] says of [k] what [r] does. *)
Record agree (k : RequestKey) (r r' : RequestRegistry) : Prop := {
  ag_entry : entries r' !! k = entries r !! k;
  ag_waiter : waiters r' !! k = waiters r !! k;
  ag_sessions : sessions r' = sessions r;
  ag_open : forall l, runtime_is_open l r' = runtime_is_open l r;
  ag_req : forall l, req l r k -> req l r' k
}.

#[export] Instance agree_preorder k : PreOrder (agree k).
Proof.
  split; [by split|]. intros r1 r2 r3 [E1 W1 S1 O1 Q1] [E2 W2 S2 O2 Q2].
  split; try congruence; auto.
Qed.

Lemma agree_fields k r r' :
  entries r' = entries r -> waiters r' = waiters r -> sessions r' = sessions r ->
  runtimes r' = runtimes r -> agree k r r'.
Proof.
  intros He Hw Hs Hr. split; unfold req, runtime_is_open; rewrite ?He, ?Hw, ?Hr; auto.
Qed.

Lemma agree_entries k key f r :
  f (entries r) !! k = entries r !! k -> k <> key -> agree k r (upd_entries f r).
Proof. intros Hf _. by split. Qed.

Lemma agree_alter k l f r :
  (forall rt, rt_state (f rt) = rt_state rt /\ (k ∈ rt_requests rt -> k ∈ rt_requests (f rt))) ->
  agree k r (upd_runtimes (alter f l) r).
Proof.
  intros Hf. split; try done.
  - intros l'. unfold runtime_is_open. simpl. rewrite lookup_alter. case_decide; subst; [|done].
    destruct (runtimes r !! l') as [rt|]; [|done]. simpl. unfold is_open. by rewrite (proj1 (Hf rt)).
  - intros l' (rt & Hl & Hin). unfold req. simpl. rewrite lookup_alter. case_decide; subst; [|by exists rt].
    rewrite Hl. exists (f rt). split; [done|]. by apply Hf.
Qed.

Lemma agree_unlink k key r : k <> key -> agree k r (runtime_unlink key r).
Proof.
  intros Hne. unfold runtime_unlink, runtime_of. destruct (k_session_id key) as [s|]; [|reflexivity].
  destruct (sessions r !! s) as [l|]; [|reflexivity]. simpl.
  destruct (runtimes r !! l) as [rt|] eqn:Hl; [|reflexivity]. simpl. split; try done.
  - intros l'. unfold runtime_is_open. simpl. rewrite lookup_insert. case_decide; subst; [|done].
    by rewrite Hl.
  - intros l' (rt' & Hl' & Hin). unfold req. simpl. rewrite lookup_insert. case_decide; subst; [|by exists rt'].
    simplify_eq. eexists. split; [done|]. simpl. set_solver.
Qed.

Lemma unlink_same key r : let r' := runtime_unlink key r in
  entries r' = entries r /\ waiters r' = waiters r /\ sessions r' = sessions r /\
  forall l, runtime_is_open l r' = runtime_is_open l r.
Proof.
  unfold runtime_unlink, runtime_of. destruct (k_session_id key) as [s|]; [|done].
  destruct (sessions r !! s) as [l|]; [|done]. simpl.
  destruct (runtimes r !! l) as [rt|] eqn:Hl; [|done]. split_and!; try done.
  intros l'. unfold runtime_is_open. simpl. rewrite lookup_insert. case_decide; subst; [|done].
  by rewrite Hl.
Qed.

Lemma agree_drop k key r : k <> key -> agree k r (waiters_remove_drop key r).
Proof.
  intros Hne. unfold waiters_remove_drop. destruct (waiters r !! key); [|reflexivity].
  split; try done. simpl. by rewrite lookup_delete_ne.
Qed.

Lemma drop_same key r : let r' := waiters_remove_drop key r in
  entries r' = entries r /\ waiters r' !! key = None /\ sessions r' = sessions r /\
  runtimes r' = runtimes r.
Proof.
  unfold waiters_remove_drop. destruct (waiters r !! key) eqn:E; [|done].
  split_and!; try done. simpl. apply lookup_delete_eq.
Qed.

Lemma agree_delete_entry k key r : k <> key -> agree k r (upd_entries (delete key) r).
Proof. intros Hne. split; try done. simpl. by rewrite lookup_delete_ne. Qed.

Lemma agree_set_entry k key e r : k <> key -> agree k r (set_entry key e r).
Proof. intros Hne. split; try done. simpl. by rewrite lookup_insert_ne. Qed.

Lemma agree_undo k key r : k <> key -> agree k r (reg_undo key r).
Proof.
  intros Hne. unfold reg_undo. etransitivity; [|by apply agree_drop].
  destruct (entries r !! key) as [e|]; [|reflexivity].
  destruct (try_transition e Pending SessionClosed) as [e' [st|]]; [reflexivity|].
  unfold remove_terminal_entry. etransitivity; [|by apply agree_unlink].
  etransitivity; [|by apply agree_delete_entry]. etransitivity; [by apply agree_set_entry|].
  by apply agree_fields.
Qed.

Lemma agree_drain k key n r : k <> key -> agree k r (drain_key (n, r) key).2.
Proof.
  intros Hne. unfold drain_key. destruct (entries r !! key) as [e|]; [|reflexivity].
  assert (Hdie : forall e', agree k r (waiters_remove_drop key
    (upd_entries (delete key) (pending_sub (set_entry key e' r))))).
  { intros e'. etransitivity; [|by apply agree_drop]. etransitivity; [|by apply agree_delete_entry].
    etransitivity; [by apply (agree_set_entry k key e')|]. by apply agree_fields. }
  destruct (try_transition e Pending SessionClosed) as [e' [st|]]; [|apply Hdie].
  destruct (try_transition e Responding SessionClosed) as [e2 [st2|]]; [reflexivity|apply Hdie].
Qed.

Lemma drain_runtimes key n r : runtimes (drain_key (n, r) key).2 = runtimes r.
Proof.
  unfold drain_key. destruct (entries r !! key) as [e|]; [|done].
  assert (Hdie : forall e', runtimes (waiters_remove_drop key
    (upd_entries (delete key) (pending_sub (set_entry key e' r)))) = runtimes r).
  { intros e'. by rewrite (proj2 (proj2 (proj2 (drop_same key _)))). }
  destruct (try_transition e Pending SessionClosed) as [e' [st|]]; [|apply Hdie].
  destruct (try_transition e Responding SessionClosed) as [e2 [st2|]]; [done|apply Hdie].
Qed.

Lemma drain_sessions key n r : sessions (drain_key (n, r) key).2 = sessions r.
Proof.
  unfold drain_key. destruct (entries r !! key) as [e|]; [|done].
  assert (Hdie : forall e', sessions (waiters_remove_drop key
    (upd_entries (delete key) (pending_sub (set_entry key e' r)))) = sessions r).
  { intros e'. by rewrite (proj1 (proj2 (proj2 (drop_same key _)))). }
  destruct (try_transition e Pending SessionClosed) as [e' [st|]]; [|apply Hdie].
  destruct (try_transition e Responding SessionClosed) as [e2 [st2|]]; [done|apply Hdie].
Qed.

Lemma agree_begin k tok r : k <> token_key tok -> agree k r (begin_respond tok r).2.
Proof.
  intros Hne. unfold begin_respond. destruct (entries r !! token_key tok) as [e|]; [|by apply agree_fields].
  destruct (negb _); [by apply agree_fields|].
  destruct (try_transition e Pending Responding) as [e' [st|]]; [|by apply agree_set_entry].
  simpl. case_decide; [by apply agree_fields|reflexivity].
Qed.

Lemma agree_link k key l r : agree k r (reg_link key l r).
Proof. apply agree_alter. intros rt. split; [done|]. simpl. set_solver. Qed.

Lemma agree_thread `{Target} k now st st' r r' :
  thread_step now st r = Some (st', r') -> k <> tkey st -> agree k r r'.
Proof.
  intros Hst Hne. destruct st as [key biz tm|key biz tm rt|e rt|e rt|e [l|]|e l|e|e rx|e rx|key];
    cbn [thread_step tkey] in *; unfold reg_generation in *; simplify_eq; try by apply agree_fields.
  - destruct (reg_resolve key r); simplify_eq; reflexivity.
  - unfold reg_publish in Hst. destruct (entries r !! e_key e); simplify_eq;
      [by apply agree_fields|by apply agree_set_entry].
  - apply agree_link.
  - destruct (runtime_is_open l r); simplify_eq; [reflexivity|by apply agree_undo].
  - destruct (k_direction (e_key e)); [simplify_eq; by apply agree_fields|].
    unfold waiters_insert_new in Hst. simplify_eq. split; try done. simpl. by rewrite lookup_insert_ne.
  - destruct (entries r !! e_key e); simplify_eq; [reflexivity|by apply agree_drop].
Qed.

Lemma tkey_step `{Target} now st st' r r' :
  thread_step now st r = Some (st', r') -> tkey st' = tkey st.
Proof.
  intros Hst. destruct st as [key biz tm|key biz tm rt|e rt|e rt|e [l|]|e l|e|e rx|e rx|key];
    cbn [thread_step] in Hst; unfold waiters_insert_new, reg_generation, reg_publish in *;
    simplify_eq/=; repeat (case_match; simplify_eq/=); done.
Qed.

Definition with_responding (e : RequestEntry) : RequestEntry :=
  mkEntry (e_key e) (e_biz_type e) (e_created_at e) (e_deadline_at e) (e_generation e)
    (RequestState_as_u8 Responding).

Section invariant.
Variable sid : Z.

(** The closing task will still visit [k]. *)
Definition covered (c : cstate) (r : RequestRegistry) (k : RequestKey) : Prop :=
  match c with
  | CIdle => exists l, sessions r !! sid = Some l /\ req l r k
  | CRemoved l | CClosing l => req l r k
  | CDrain _ _ todo => k ∈ todo
  | CCleared _ | CDone _ => False
  end.

(** [l] is the runtime the registering task resolved for [sid]. *)
Definition located (c : cstate) (r : RequestRegistry) (l : nat) : Prop :=
  match c with
  | CIdle => sessions r !! sid = Some l
  | CRemoved l0 => l = l0
  | _ => runtime_is_open l r = false
  end.

Definition located_opt (c : cstate) (r : RequestRegistry) (rt : option nat) : Prop :=
  match rt with Some l => located c r l | None => False end.

Definition live_entry (e : RequestEntry) : Prop :=
  e_state e = RequestState_as_u8 Pending \/ e_state e = RequestState_as_u8 Responding.

Definition over_or (P : RequestEntry -> Prop) (r : RequestRegistry) (k : RequestKey) : Prop :=
  match entries r !! k with Some e => P e | None => True end.

(** What the registry knows of the request [k] of session [sid], by the state
    of the task registering it ([None] when there is none). *)
Definition request_inv (c : cstate) (r : RequestRegistry) (ul uw : gset RequestKey)
    (st : option rstate) (k : RequestKey) : Prop :=
  (k ∈ ul -> entries r !! k = None) /\
  match st with
  | Some (RIdle _ _ _) => entries r !! k = None /\ (k ∉ ul) /\ (k ∉ uw) /\ waiters r !! k = None
  | Some (RResolved _ _ _ rt) =>
      entries r !! k = None /\ (k ∉ ul) /\ (k ∉ uw) /\ waiters r !! k = None /\ located_opt c r rt
  | Some (RGenerated e rt | RCounted e rt) =>
      e_state e = RequestState_as_u8 Pending /\
      entries r !! k = None /\ (k ∉ ul) /\ (k ∉ uw) /\ waiters r !! k = None /\ located_opt c r rt
  | Some (RPublished _ rt) =>
      over_or (fun e => e_state e = RequestState_as_u8 Pending) r k /\ located_opt c r rt
  | Some (RLinked _ l) =>
      over_or (fun e => e_state e = RequestState_as_u8 Pending /\
                        (runtime_is_open l r = true -> req l r k)) r k /\ located c r l
  | _ => over_or (fun e => live_entry e /\ covered c r k) r k
  end /\
  (is_Some (waiters r !! k) ->
     is_Some (entries r !! k) \/ (k ∈ ul) \/ (k ∈ uw) \/ exists e rx, st = Some (RWaiting e rx)).

Lemma covered_agree c r r' k : agree k r r' -> covered c r k -> covered c r' k.
Proof.
  intros Ha. destruct c; simpl; try done; try by apply ag_req.
  intros (l & Hl & Hq). exists l. rewrite (ag_sessions _ _ _ Ha). split; [done|].
  by apply (ag_req _ _ _ Ha).
Qed.

Lemma located_agree c r r' k l : agree k r r' -> located c r l -> located c r' l.
Proof.
  intros Ha. destruct c; simpl; rewrite ?(ag_sessions _ _ _ Ha), ?(ag_open _ _ _ Ha); done.
Qed.

Lemma request_inv_agree c r r' ul ul' uw uw' st k :
  agree k r r' -> (k ∈ ul' <-> k ∈ ul) -> (k ∈ uw' <-> k ∈ uw) ->
  request_inv c r ul uw st k -> request_inv c r' ul' uw' st k.
Proof.
  intros Ha Hul Huw (Hu & Hst & Hw). pose proof (covered_agree c r r' k Ha) as Hc.
  assert (Hlo : forall rt, located_opt c r rt -> located_opt c r' rt).
  { intros [l|]; simpl; [by eapply located_agree|done]. }
  unfold request_inv, over_or. rewrite (ag_entry _ _ _ Ha), (ag_waiter _ _ _ Ha).
  split_and!; [tauto| |tauto]. clear Hw Hu. unfold over_or in Hst.
  destruct st as [[|key biz tm rt|e rt|e rt|e rt|e l| | | | ]|];
    try (pose proof (Hlo rt); tauto); try (destruct (entries r !! k); tauto).
  destruct Hst as [He Hl]. split; [|by eapply located_agree].
  destruct (entries r !! k); [|done]. destruct He as [? He]. split; [done|].
  rewrite (ag_open _ _ _ Ha). intros Ho. by apply (ag_req _ _ _ Ha), He.
Qed.

Lemma undo_result k r :
  over_or (fun e => e_state e = RequestState_as_u8 Pending) r k ->
  entries (reg_undo k r) !! k = None /\ waiters (reg_undo k r) !! k = None.
Proof.
  unfold over_or, reg_undo. intros Hp.
  match goal with |- context [waiters_remove_drop k ?x] =>
    pose proof (drop_same k x) as (-> & -> & _) end.
  split; [|done]. destruct (entries r !! k) as [e|] eqn:He; [|done].
  unfold try_transition. rewrite Hp, Z.eqb_refl. unfold remove_terminal_entry.
  rewrite (proj1 (unlink_same k _)). simpl. apply lookup_delete_eq.
Qed.

Lemma drain_result k n r :
  over_or live_entry r k ->
  entries (drain_key (n, r) k).2 !! k = None /\
  (is_Some (waiters (drain_key (n, r) k).2 !! k) ->
     entries r !! k = None /\ waiters (drain_key (n, r) k).2 = waiters r).
Proof.
  unfold over_or, drain_key. destruct (entries r !! k) as [e|] eqn:He; [|done]. intros Hl.
  assert (Hdie : forall e', let r' := waiters_remove_drop k
      (upd_entries (delete k) (pending_sub (set_entry k e' r))) in
    entries r' !! k = None /\ waiters r' !! k = None).
  { intros e'. cbv zeta. pose proof (drop_same k (upd_entries (delete k) (pending_sub (set_entry k e' r))))
      as (-> & -> & _). split; [apply lookup_delete_eq|done]. }
  unfold try_transition. destruct Hl as [-> | ->]; cbn [Z.eqb RequestState_as_u8];
    (split; [apply Hdie|]); intros [x Hx]; simpl in Hx; rewrite (proj2 (Hdie _)) in Hx; done.
Qed.

Lemma refused_inv c r ul uw key k :
  entries r !! k = None -> waiters r !! k = None -> request_inv c r ul uw (Some (RRefused key)) k.
Proof.
  intros He Hw. split_and!; unfold over_or; rewrite ?He, ?Hw; [done|done|by intros []].
Qed.

Lemma thread_inv `{Target} c r r' ul uw now st st' :
  thread_step now st r = Some (st', r') -> k_session_id (tkey st) = Some sid ->
  (c <> CIdle -> sessions r !! sid = None) ->
  request_inv c r ul uw (Some st) (tkey st) -> request_inv c r' ul uw (Some st') (tkey st).
Proof.
  intros Hst Hsid Hrm (Hu & Hinv & Hw).
  assert (Hsame : forall r1, agree (tkey st) r r1 -> forall st1,
    request_inv c r ul uw (Some st1) (tkey st) -> request_inv c r1 ul uw (Some st1) (tkey st)).
  { intros r1 Ha st1. by apply request_inv_agree. }
  destruct st as [key biz tm|key biz tm rt|e rt|e rt|e [l|]|e l|e|e rx|e rx|key];
    cbn [thread_step tkey] in *; unfold reg_generation in *; simplify_eq.
  - unfold reg_resolve, runtime_of in Hst. rewrite Hsid in Hst.
    destruct (sessions r !! sid) as [l|] eqn:Hs; simplify_eq/=.
    2: { apply refused_inv; tauto. }
    destruct (runtimes r !! l) as [rt|]; simplify_eq/=.
    2: { apply refused_inv; tauto. }
    destruct (is_open rt); simplify_eq/=.
    2: { apply refused_inv; tauto. }
    destruct c; try (by specialize (Hrm ltac:(done))).
    split_and!; try done; simpl; try tauto.
    intros [x Hx]. destruct_and?. congruence.
  - apply Hsame; [by apply agree_fields|]. split_and!; try done; simpl; try tauto.
    intros [x Hx]. destruct_and?. congruence.
  - apply Hsame; [by apply agree_fields|]. split_and!; try done; simpl; try tauto.
    intros [x Hx]. destruct_and?. congruence.
  - destruct Hinv as (Hp & He & Hul & Huw & Hwn & Hl). unfold reg_publish in Hst.
    rewrite He in Hst. simplify_eq. split; [done|split].
    + split; [|destruct rt; [|done]; by destruct c].
      unfold over_or. simpl. by rewrite lookup_insert_eq.
    + simpl. rewrite Hwn. by intros [].
  - destruct Hinv as [Hp Hl]. split; [done|split; [|simpl; naive_solver]].
    pose proof (agree_link (e_key e) (e_key e) l r) as Ha.
    split; [|by eapply located_agree]. unfold over_or in *. simpl.
    destruct (entries r !! e_key e); [|done]. split; [done|].
    rewrite (ag_open _ _ _ Ha). unfold runtime_is_open, req, reg_link. simpl. intros Ho.
    destruct (runtimes r !! l) as [rt|] eqn:Hrt; [|done]. rewrite lookup_alter_eq, Hrt.
    eexists. split; [done|]. simpl. set_solver.
  - by destruct Hinv.
  - destruct Hinv as [Hp Hl]. destruct (runtime_is_open l r) eqn:Ho; simplify_eq.
    + split; [done|split; [|naive_solver]]. unfold over_or in *.
      destruct (entries r' !! e_key e); [|done]. destruct Hp as [Hp Hreq]. specialize (Hreq eq_refl).
      split; [by left|]. destruct c; simpl in *; try congruence. by exists l.
    + destruct (undo_result (e_key e) r) as [He Hwn].
      { unfold over_or in *. destruct (entries r !! e_key e); naive_solver. }
      by apply refused_inv.
  - destruct (k_direction (e_key e)).
    + simplify_eq. apply Hsame; [by apply agree_fields|]. split_and!; try done. naive_solver.
    + unfold waiters_insert_new in Hst. simplify_eq. split; [done|split].
      * unfold over_or in *. simpl. destruct (entries r !! e_key e); [|done].
        destruct Hinv as [? Hc]. split; [done|]. by destruct c.
      * intros _. eauto 10.
  - destruct (entries r !! e_key e) as [e0|] eqn:He; simplify_eq.
    + split; [by rewrite He|split; [done|]]. eauto.
    + pose proof (drop_same (e_key e) r) as (He' & Hwn & _).
      apply refused_inv; [by rewrite He'|done].
Qed.

(** A change of the closing task's state that keeps the registry's view. *)
Lemma request_inv_close c c' r r' ul uw st k :
  agree k r r' \/ (entries r' = entries r /\ waiters r' = waiters r /\
    forall l, runtime_is_open l r' = true -> runtime_is_open l r = true /\ (req l r k -> req l r' k)) ->
  (covered c r k -> covered c' r' k) -> (forall l, located c r l -> located c' r' l) ->
  request_inv c r ul uw st k -> request_inv c' r' ul uw st k.
Proof.
  intros Hr Hc Hl (Hu & Hst & Hw).
  assert (He : entries r' !! k = entries r !! k /\ waiters r' !! k = waiters r !! k /\
    forall l, runtime_is_open l r' = true -> runtime_is_open l r = true /\ (req l r k -> req l r' k)).
  { destruct Hr as [[]|(-> & -> & ?)]; [|done]. split_and!; [done..|]. intros l. rewrite ag_open0. auto. }
  destruct He as (He & Hwt & Ho).
  assert (Hlo : forall rt, located_opt c r rt -> located_opt c' r' rt) by (intros []; simpl; auto).
  unfold request_inv, over_or in *. rewrite He, Hwt. split; [done|split; [|done]]. clear Hu Hw.
  destruct st as [[|key biz tm rt|e rt|e rt|e rt|e l| | | | ]|];
    try (pose proof (Hlo rt); tauto); try (destruct (entries r !! k); tauto).
  destruct Hst as [Hp ?]. split; [|auto]. destruct (entries r !! k); [|done].
  destruct Hp as [? Hp]. split; [done|]. intros Hop. destruct (Ho l Hop). auto.
Qed.

Lemma inv_live c r ul uw st k : request_inv c r ul uw st k -> over_or live_entry r k.
Proof.
  intros (_ & Hst & _). unfold over_or, live_entry in *. destruct (entries r !! k); [|done].
  destruct st as [[]|]; destruct_and?; try done; auto.
Qed.

(** The request is gone: its owner's state no longer matters. *)
Lemma request_inv_gone c c' r r' ul uw st k :
  entries r' !! k = None -> (is_Some (waiters r' !! k) ->
    entries r !! k = None /\ waiters r' !! k = waiters r !! k) ->
  (forall l, located c r l -> located c' r' l) ->
  request_inv c r ul uw st k -> request_inv c' r' ul uw st k.
Proof.
  intros He Hw Hl (Hu & Hst & Hww).
  assert (Hlo : forall rt, located_opt c r rt -> located_opt c' r' rt) by (intros []; simpl; auto).
  assert (Hwn : waiters r !! k = None -> waiters r' !! k = None).
  { intros Hn. destruct (waiters r' !! k) eqn:E; [|done]. destruct Hw as [_ Hw]; [eauto|]. congruence. }
  unfold request_inv, over_or in *. rewrite He. split; [done|split].
  - destruct st as [[|key biz tm rt|e rt|e rt|e rt|e l| | | | ]|]; try done;
      try (pose proof (Hlo rt); tauto); try tauto.
    destruct Hst. auto.
  - intros Hx. destruct (Hw Hx) as [He0 Hw0]. rewrite Hw0 in Hx. specialize (Hww Hx).
    rewrite He0 in Hww. tauto.
Qed.

(** The session is out of the map once the close began, and its runtime is
    closing before the drain starts. *)
Definition closer_ok (c : cstate) (r : RequestRegistry) : Prop :=
  (c <> CIdle -> sessions r !! sid = None) /\
  match c with CClosing l | CDrain l _ _ => runtime_is_open l r = false | _ => True end.

Lemma closer_ok_agree c r r' k : agree k r r' -> closer_ok c r -> closer_ok c r'.
Proof.
  intros Ha [H1 H2]. unfold closer_ok. rewrite (ag_sessions _ _ _ Ha). split; [done|].
  destruct c; rewrite ?(ag_open _ _ _ Ha); done.
Qed.

Lemma clear_open l l' r : runtime_is_open l' (clear_requests l r) = runtime_is_open l' r.
Proof.
  unfold clear_requests, runtime_is_open. simpl. rewrite lookup_alter. case_decide; subst; [|done].
  by destruct (runtimes r !! l').
Qed.

Lemma close_runtime_closed l r : runtime_is_open l (close_runtime l r) = false.
Proof.
  unfold runtime_is_open, close_runtime. simpl. rewrite lookup_alter_eq. by destruct (runtimes r !! l).
Qed.

Lemma close_inv c c' r r' ul uw st k :
  close_step sid c r = Some (c', r') -> k_session_id k = Some sid -> closer_ok c r ->
  request_inv c r ul uw st k -> request_inv c' r' ul uw st k.
Proof.
  intros Hc Hk [Hrm Hcl] Hinv. destruct c as [|l|l|l n [|key todo]|n|n]; cbn [close_step] in Hc; simplify_eq.
  - destruct (sessions r !! sid) as [l|] eqn:Hs; simplify_eq; revert Hinv; apply request_inv_close; simpl.
    + right. split_and!; try done.
    + intros (l' & ? & ?). by simplify_eq.
    + intros l'. congruence.
    + left. reflexivity.
    + intros (l' & ? & ?). by simplify_eq.
    + intros l'. congruence.
  - revert Hinv. unfold close_runtime. apply request_inv_close; simpl.
    + right. split_and!; try done. intros l'. unfold runtime_is_open, req. simpl. rewrite lookup_alter.
      case_decide; subst; [|done]. by destruct (runtimes r !! l').
    + intros (rt & Hl & Hin). unfold req. simpl. rewrite lookup_alter_eq, Hl. by exists (begin_close rt).
    + intros l' ->. apply close_runtime_closed.
  - revert Hinv. apply request_inv_close; simpl; [left; reflexivity| |done].
    intros (rt & Hl & Hin). unfold requests_of. rewrite Hl. set_solver.
  - revert Hinv. apply request_inv_close; simpl; [|set_solver|].
    + right. split_and!; try done. intros l'. rewrite clear_open. intros Ho. split; [done|].
      intros (rt & Hl & Hin). unfold req, clear_requests. simpl. rewrite lookup_alter_ne; [by exists rt|].
      congruence.
    + intros l'. by rewrite clear_open.
  - pose proof (drain_result key n r) as Hd. pose proof (agree_drain k key n r) as Ha.
    pose proof (drain_runtimes key n r) as Hrt.
    destruct (drain_key (n, r) key) as [n' r1]. simplify_eq. simpl in *.
    destruct (decide (k = key)) as [->|Hne].
    + destruct (Hd (inv_live _ _ _ _ _ _ Hinv)) as [He Hw]. revert Hinv. apply request_inv_gone; simpl.
      * done.
      * intros Hx. destruct (Hw Hx) as [? ->]. done.
      * intros l'. unfold runtime_is_open.
        by rewrite Hrt.
    + revert Hinv. apply request_inv_close; simpl; [left; auto|set_solver|].
      intros l'. by rewrite (ag_open _ _ _ (Ha Hne)).
  - revert Hinv. apply request_inv_close; simpl; [|done|].
    + left. destruct (0 <? Z.of_nat n); [by apply agree_fields|reflexivity].
    + intros l. by destruct (0 <? Z.of_nat n).
Qed.

Lemma closer_ok_close c c' r r' :
  close_step sid c r = Some (c', r') -> closer_ok c r -> closer_ok c' r'.
Proof.
  intros Hc [Hrm Hcl]. destruct c as [|l|l|l n [|key todo]|n|n]; cbn [close_step] in Hc; simplify_eq.
  - destruct (sessions r !! sid) as [l|] eqn:Hs; simplify_eq; split; try done.
    intros _. apply lookup_delete_eq.
  - split; [|apply close_runtime_closed]. intros _. by apply Hrm.
  - split; [|done]. intros _. by apply Hrm.
  - split; [|done]. intros _. by apply Hrm.
  - pose proof (drain_runtimes key n r) as Hrt. pose proof (drain_sessions key n r) as Hss.
    destruct (drain_key (n, r) key) as [n' r1]. simplify_eq. split.
    + intros _. simpl in Hss. rewrite Hss. by apply Hrm.
    + unfold runtime_is_open in *. simpl in Hrt. by rewrite Hrt.
  - split; [|done]. intros _. specialize (Hrm ltac:(done)). by destruct (0 <? Z.of_nat n).
Qed.

Record sys_inv (s : sys) : Prop := {
  si_closer : closer_ok (s_close s) (s_reg s);
  si_keys : NoDup (tkey <$> s_threads s);
  si_threads : forall i st, s_threads s !! i = Some st -> k_session_id (tkey st) = Some sid ->
    request_inv (s_close s) (s_reg s) (s_unlinking s) (s_unwaiting s) (Some st) (tkey st);
  si_others : forall k, k_session_id k = Some sid -> (k ∉ (tkey <$> s_threads s)) ->
    request_inv (s_close s) (s_reg s) (s_unlinking s) (s_unwaiting s) None k
}.

(** A step that leaves the tasks alone and preserves each request's view. *)
Lemma sys_inv_step r r' ts c c' ul ul' uw uw' :
  (closer_ok c r -> closer_ok c' r') ->
  (forall st k, k_session_id k = Some sid -> closer_ok c r ->
     (forall st', st = Some st' -> st' ∈ ts /\ tkey st' = k) ->
     request_inv c r ul uw st k -> request_inv c' r' ul' uw' st k) ->
  sys_inv (mkSys r ts c ul uw) -> sys_inv (mkSys r' ts c' ul' uw').
Proof.
  intros Hc Hk [Hok Hnd Hth Hot]. simpl in *. split; simpl; [auto|done| |].
  - intros i st Hi Hs. apply Hk; [done|done| |by eapply Hth].
    intros st' [= <-]. split; [by eapply list_elem_of_lookup_2|done].
  - intros k Hs Hni. apply Hk; [done|done|done|by apply Hot].
Qed.

Lemma thread_agree_ok `{Target} now st st' r r' c :
  thread_step now st r = Some (st', r') -> closer_ok c r -> closer_ok c r'.
Proof.
  intros Hst. set (k := mkKey (k_session_id (tkey st)) (k_request_id (tkey st) + 1) Inbound).
  apply (closer_ok_agree c r r' k). eapply agree_thread; [done|]. unfold k.
  intros Heq. apply (f_equal k_request_id) in Heq. simpl in Heq. lia.
Qed.

Lemma begin_inv tok c r ul uw st k :
  (forall st', st = Some st' -> in_flight st' <> Some (token_key tok) /\ tkey st' = k) ->
  k_session_id k = Some sid ->
  request_inv c r ul uw st k -> request_inv c (begin_respond tok r).2 ul uw st k.
Proof.
  intros Hfl Hk Hinv. destruct (decide (k = token_key tok)) as [->|Hne].
  2: { revert Hinv. apply request_inv_agree; [by apply agree_begin|done|done]. }
  assert (Hsame : forall r1, agree (token_key tok) r r1 -> request_inv c r1 ul uw st (token_key tok)).
  { intros r1 Ha. revert Hinv. by apply request_inv_agree. }
  unfold begin_respond. destruct (entries r !! token_key tok) as [e|] eqn:He;
    [|apply Hsame; by apply agree_fields].
  destruct (negb _); [apply Hsame; by apply agree_fields|].
  unfold try_transition. destruct (e_state e =? _) eqn:Hes.
  2: { simpl. case_decide; apply Hsame; [by apply agree_fields|reflexivity]. }
  simpl. destruct Hinv as (Hu & Hst & Hw). split; [|split].
  - intros Hin. by rewrite (Hu Hin) in He.
  - unfold over_or in *. simpl. rewrite lookup_insert_eq. rewrite He in Hst.
    assert (Hlive : forall e0, live_entry e0 /\ covered c r (token_key tok) ->
      live_entry (with_responding e) /\ covered c (set_entry (token_key tok) (with_responding e) r) (token_key tok)).
    { intros e0 [_ Hc]. split; [by right|]. by destruct c. }
    destruct st as [st|]; [|by eapply Hlive]. destruct (Hfl st eq_refl) as [Hnf Htk].
    destruct st as [| | | |e1 rt|e1 l| | | | ]; destruct_and?; try done; try by (eapply Hlive; eauto).
    + simpl in *. congruence.
    + simpl in *. congruence.
  - intros _. left. simpl. rewrite lookup_insert_eq. eauto.
Qed.

Lemma retire_inv c r ul uw st k key :
  is_Some (entries r !! key) -> k_session_id k = Some sid ->
  request_inv c r ul uw st k ->
  request_inv c (upd_entries (delete key) (pending_sub r)) ({[key]} ∪ ul) uw st k.
Proof.
  intros He Hk Hinv. destruct (decide (k = key)) as [->|Hne].
  - destruct Hinv as (Hu & Hst & Hw). unfold request_inv, over_or in *. simpl.
    rewrite lookup_delete_eq. split; [done|split].
    + destruct He as [e He]. rewrite He in Hst.
      destruct st as [[]|]; destruct_and?; try done.
    + intros _. right. left. set_solver.
  - revert Hinv. apply request_inv_agree; [|set_solver|done].
    etransitivity; [|by apply agree_delete_entry]. by apply agree_fields.
Qed.

Lemma unlink_inv c r ul uw st k key :
  key ∈ ul -> k_session_id k = Some sid ->
  request_inv c r ul uw st k ->
  request_inv c (runtime_unlink key r) (ul ∖ {[key]}) ({[key]} ∪ uw) st k.
Proof.
  intros Hin Hk Hinv. pose proof (unlink_same key r) as (He & Hw & Hs & Ho).
  destruct (decide (k = key)) as [->|Hne].
  - destruct Hinv as (Hu & Hst & Hww). specialize (Hu Hin).
    assert (Hl : forall l, located c r l -> located c (runtime_unlink key r) l).
    { intros l. destruct c; simpl; rewrite ?Hs, ?Ho; done. }
    assert (Hlo : forall rt, located_opt c r rt -> located_opt c (runtime_unlink key r) rt)
      by (intros []; simpl; auto).
    unfold request_inv, over_or in *. rewrite He, Hw, Hu in *. split; [done|split].
    + destruct st as [[]|]; destruct_and?; try done; split_and!; auto; set_solver.
    + intros _. right. right. left. set_solver.
  - revert Hinv. apply request_inv_agree; [by apply agree_unlink|set_solver..].
Qed.

Lemma unwait_inv c r ul uw st k key :
  key ∈ uw -> k_session_id k = Some sid ->
  request_inv c r ul uw st k ->
  request_inv c (waiters_remove_drop key r) ul (uw ∖ {[key]}) st k.
Proof.
  intros Hin Hk Hinv. pose proof (drop_same key r) as (He & Hw & Hs & Ho).
  destruct (decide (k = key)) as [->|Hne].
  - destruct Hinv as (Hu & Hst & Hww).
    set (r1 := waiters_remove_drop key r) in *.
    assert (Ha : agree key (set_waiters (waiters r1) (chans r1) (next_chan r1) r) r1).
    { apply agree_fields; simpl; done. }
    assert (Hpre : request_inv c (set_waiters (waiters r1) (chans r1) (next_chan r1) r) ul (uw ∖ {[key]}) st key).
    { unfold request_inv, over_or in *. simpl. rewrite Hw. split; [done|split; [|by intros []]].
      destruct st as [[]|]; destruct_and?; try done; split_and!; auto; set_solver. }
    revert Hpre. by apply request_inv_agree.
  - revert Hinv. apply request_inv_agree; [by apply agree_drop|set_solver..].
Qed.
End invariant.

Section race_safe.
Context `{T : Target} (sid : Z).

Lemma race_thread_inv i now st st' r r' ts c ul uw :
  ts !! i = Some st -> thread_step now st r = Some (st', r') ->
  sys_inv sid (mkSys r ts c ul uw) -> sys_inv sid (mkSys r' (<[i := st']> ts) c ul uw).
Proof.
  intros Hi Hst [Hok Hnd Hth Hot]. simpl in *. pose proof (tkey_step _ _ _ _ _ Hst) as Hkey.
  assert (Hfm : tkey <$> <[i := st']> ts = tkey <$> ts).
  { rewrite list_fmap_insert, Hkey. apply list_insert_id. by rewrite list_lookup_fmap, Hi. }
  assert (Hne : forall k, k <> tkey st -> forall o,
    request_inv sid c r ul uw o k -> request_inv sid c r' ul uw o k).
  { intros k Hk o. apply request_inv_agree; [by eapply agree_thread|done|done]. }
  split; simpl; rewrite ?Hfm; [by eapply thread_agree_ok|done| |].
  - intros j st1 Hj Hs. destruct (decide (i = j)) as [<-|Hij].
    + rewrite list_lookup_insert_eq in Hj by (by eapply lookup_lt_Some). simplify_eq.
      rewrite Hkey in *. eapply thread_inv; [done|done|apply Hok|]. by eapply Hth.
    + rewrite list_lookup_insert_ne in Hj by done. apply Hne; [|by eapply Hth].
      intros Heq. apply Hij. eapply (NoDup_lookup (tkey <$> ts)); [done|..];
        rewrite list_lookup_fmap, ?Hi, ?Hj; simpl; by rewrite ?Heq.
  - intros k Hs Hni. apply Hne; [|by apply Hot]. intros ->. apply Hni.
    apply list_elem_of_fmap. exists st. split; [done|by eapply list_elem_of_lookup_2].
Qed.

Lemma race_inv s s' : race sid s s' -> sys_inv sid s -> sys_inv sid s'.
Proof.
  destruct 1.
  - by eapply race_thread_inv.
  - apply sys_inv_step; [by eapply closer_ok_close|]. intros st k Hk Hok _. by eapply close_inv.
  - apply sys_inv_step; [intros [Hrm ?]; split; [intros _; by apply Hrm|done]|]. intros st k Hk _ _. apply request_inv_close; [left; reflexivity| |done].
    simpl. set_solver.
  - apply sys_inv_step.
    + set (k := mkKey (k_session_id (token_key tok)) (k_request_id (token_key tok) + 1) Inbound).
      apply (closer_ok_agree sid c r _ k), agree_begin. intros Heq.
      apply (f_equal k_request_id) in Heq. unfold k in Heq. simpl in Heq. lia.
    + intros st k Hk _ Hfl. apply begin_inv; [|done]. intros st' Hst'. destruct (Hfl st' Hst').
      split; [|done]. by eapply Forall_forall in H0.
  - apply sys_inv_step; [done|]. intros st k Hk _ _. by apply retire_inv.
  - apply sys_inv_step.
    + pose proof (unlink_same key r) as (_ & _ & Hs & Ho). intros [H1 H2].
      split; rewrite ?Hs; [done|]. destruct c; rewrite ?Ho; done.
    + intros st k Hk _ _. by apply unlink_inv.
  - apply sys_inv_step.
    + pose proof (drop_same key r) as (_ & _ & Hs & Ho). intros [H1 H2].
      split; rewrite ?Hs; [done|]. unfold runtime_is_open. destruct c; rewrite ?Ho; done.
    + intros st k Hk _ _. by apply unwait_inv.
Qed.

(** The tasks are about to register requests under keys of their own. *)
Definition race_start (r : RequestRegistry) (ts : list rstate) : Prop :=
  wf ∅ r /\ NoDup (tkey <$> ts) /\
  Forall (fun st => match st with RIdle k _ _ => entries r !! k = None | _ => False end) ts.

(** Nothing is in progress: every task returned, every removal is complete. *)
Definition at_rest (s : sys) : Prop :=
  Forall (fun st => match st with RFinished _ _ | RRefused _ => True | _ => False end) (s_threads s) /\
  (exists n, s_close s = CDone n) /\ s_unlinking s = ∅ /\ s_unwaiting s = ∅.

Lemma race_start_inv r ts : race_start r ts -> sys_inv sid (mkSys r ts CIdle ∅ ∅).
Proof.
  intros (Hwf & Hnd & Hts).
  assert (Hw : forall k, is_Some (waiters r !! k) -> is_Some (entries r !! k)).
  { intros k [c Hc]. by apply (wf_waiter_entry _ _ Hwf) in Hc as [_ ?]. }
  split; simpl; [by split|done| |].
  - intros i st Hi Hs. rewrite Forall_forall in Hts. specialize (Hts st ltac:(by eapply list_elem_of_lookup_2)).
    destruct st; try done. simpl in *. assert (Hn : waiters r !! key = None).
    { destruct (waiters r !! key) eqn:E; [|done]. destruct (Hw key); [eauto|congruence]. }
    split; [set_solver|split]; [split_and!; done || set_solver|]. rewrite Hn. by intros [].
  - intros k Hk Hni. split; [set_solver|split]; [|eauto].
    unfold over_or. destruct (entries r !! k) as [e|] eqn:He; [|done].
    split; [by apply (wf_live _ _ Hwf k)|]. simpl.
    destruct (wf_linked _ _ Hwf k e sid He Hk) as (l & rt & ? & ? & ?); [set_solver|].
    exists l. split; [done|]. by exists rt.
Qed.

(** C8: no request outlives its session, as long as no key is registered again
    before its last request is wholly removed. However the registrations of any
    number of tasks, each under a key of its own that the registry does not hold
    when they begin, the responses and removals of requests and the close of the
    session are interleaved, once everything
    has returned the registry holds neither an entry nor a waiter of the closed
    session: a registration that raced the close was drained by it or undid
    itself. *)
Theorem close_wins_every_race r ts s :
  race_start r ts -> rtc (race sid) (mkSys r ts CIdle ∅ ∅) s -> at_rest s ->
  forall k, k_session_id k = Some sid ->
    entries (s_reg s) !! k = None /\ waiters (s_reg s) !! k = None.
Proof.
  intros Hst Hrtc (Hts & [n Hc] & Hul & Huw) k Hk.
  assert (Hinv : sys_inv sid s).
  { clear -Hst Hrtc. apply race_start_inv in Hst. induction Hrtc; eauto using race_inv. }
  destruct Hinv as [_ _ Hth Hot]. rewrite Hc, Hul, Huw in *.
  assert (Hk' : exists st, request_inv sid (CDone n) (s_reg s) ∅ ∅ st k /\
    match st with Some (RFinished _ _ | RRefused _) | None => True | _ => False end).
  { destruct (decide (k ∈ (tkey <$> s_threads s))) as [Hin|Hni]; [|by exists None; auto].
    apply list_elem_of_fmap in Hin as (st & -> & Hin). pose proof Hin as Hin'.
    apply list_elem_of_lookup in Hin as [i Hi]. exists (Some st). split; [by eapply Hth|].
    rewrite Forall_forall in Hts. specialize (Hts st Hin'). by destruct st. }
  destruct Hk' as (st & (_ & Hinv & Hw) & Hstx).
  assert (Hnone : entries (s_reg s) !! k = None).
  { unfold over_or in Hinv. destruct (entries (s_reg s) !! k); [|done].
    destruct st as [[]|]; simpl in *; tauto. }
  split; [done|]. destruct (waiters (s_reg s) !! k) eqn:E; [|done]. exfalso.
  destruct Hw as [[? ?]|[?|[?|(e & rx & ->)]]]; [eauto|congruence|set_solver|set_solver|done].
Qed.
End race_safe.

(** ** Concrete schedules *)

Section schedules.
Context `{T : Target} (sid : Z).

Lemma race_run_thread n now i st r ts c ul uw :
  ts !! i = Some st ->
  rtc (race sid) (mkSys r ts c ul uw)
    (mkSys (run_thread n now st r).2 (<[i := (run_thread n now st r).1]> ts) c ul uw).
Proof.
  revert st r ts. induction n as [|n IH]; intros st r ts Hi; simpl.
  - rewrite list_insert_id by done. constructor.
  - destruct (thread_step now st r) as [[st' r']|] eqn:Hst; simpl.
    + eapply rtc_l; [by eapply race_thread|]. specialize (IH st' r' (<[i:=st']> ts)).
      rewrite list_insert_insert_eq in IH. apply IH.
      apply list_lookup_insert_eq. by eapply lookup_lt_Some.
    + rewrite list_insert_id by done. constructor.
Qed.

Lemma race_run_close n r ts c ul uw :
  rtc (race sid) (mkSys r ts c ul uw)
    (mkSys (run_close n sid c r).2 ts (run_close n sid c r).1 ul uw).
Proof.
  revert c r. induction n as [|n IH]; intros c r; simpl; [constructor|].
  destruct (close_step sid c r) as [[c' r']|] eqn:Hst; simpl; [|constructor].
  eapply rtc_l; [by apply race_close|]. apply IH.
Qed.
End schedules.

(** The registration is published, the whole close runs, then the task links
    and re-checks; a second task starts after the close. *)
Definition race_registry : RequestRegistry := open_session 7 (new_with_timing 8 10).
Definition race_key1 : RequestKey := outbound (Some 7) 3.
Definition race_key2 : RequestKey := inbound (Some 7) 4.

Definition race_mid : rstate * RequestRegistry :=
  run_thread (H := Target64) 4 0 (RIdle race_key1 0 50) race_registry.
Definition race_closed : cstate * RequestRegistry := run_close 6 7 CIdle race_mid.2.
Definition race_end1 : rstate * RequestRegistry :=
  run_thread (H := Target64) 8 0 race_mid.1 race_closed.2.
Definition race_end2 : rstate * RequestRegistry :=
  run_thread (H := Target64) 8 0 (RIdle race_key2 0 50) race_end1.2.

Lemma close_wins_every_race_witness :
  is_Some (entries race_mid.2 !! race_key1) /\ entries race_end2.2 !! race_key1 = None.
Proof.
  split; [vm_compute; by eexists|].
  refine (proj1 (close_wins_every_race (T := Target64) 7 race_registry
    [RIdle race_key1 0 50; RIdle race_key2 0 50]
    (mkSys race_end2.2 [race_end1.1; race_end2.1] race_closed.1 ∅ ∅) _ _ _ race_key1 eq_refl)).
  - split; [|split].
    + refine (proj1 (proj1 (open_session_advances ∅ ∅ 7 (new_with_timing 8 10) (good_initial 8 10 _)))). done.
    + apply (bool_decide_unpack _). vm_compute. exact I.
    + repeat constructor.
  - etransitivity; [apply (race_run_thread (T := Target64) 7 4 0 0); reflexivity|].
    etransitivity; [apply (race_run_close (T := Target64) 7 6)|].
    etransitivity; [apply (race_run_thread (T := Target64) 7 8 0 0); reflexivity|].
    apply (race_run_thread (T := Target64) 7 8 0 1 (RIdle race_key2 0 50)). reflexivity.
  - split; [repeat constructor|split; [|done]]. by eexists.
Defined.

(** The entry of a finished request goes, the peer reuses its identifier at
    once, and only then the old removal drops the session's link to the key. *)
Definition reuse_ops : list op := [OpenSession 7; Register 4 (Some 7) 0 50 0 0].
Definition reuse_start : RequestRegistry :=
  (run (T := Target64) reuse_ops (new_with_timing 8 10)).2.
Definition reuse_retired : RequestRegistry := upd_entries (delete race_key2) (pending_sub reuse_start).
Definition reuse_again : rstate * RequestRegistry :=
  run_thread (H := Target64) 8 0 (RIdle race_key2 0 50) reuse_retired.
Definition reuse_unlinked : RequestRegistry := runtime_unlink race_key2 reuse_again.2.
Definition reuse_closed : cstate * RequestRegistry := run_close 6 7 CIdle reuse_unlinked.

(** That each task registers under a key of its own is needed. Removing a
    finished request takes its entry and its link to the session in two steps;
    when the peer reuses the identifier between them, the second step unlinks
    the new request, and closing the session then leaves that request pending
    under the closed session. *)
Theorem reused_key_outlives_its_session :
  exists r ts s,
    good ∅ ∅ r /\ rtc (race (T := Target64) 7) (mkSys r ts CIdle ∅ ∅) s /\ at_rest s /\
    sessions (s_reg s) !! 7 = None /\
    entry_state <$> entries (s_reg s) !! inbound (Some 7) 4 = Some Pending /\
    pending_count (s_reg s) = 1.
Proof.
  exists reuse_start, [RIdle race_key2 0 50],
    (mkSys (waiters_remove_drop race_key2 reuse_closed.2) [reuse_again.1] reuse_closed.1 ∅ ∅).
  split; [|split; [|split; [|vm_compute; auto]]].
  - assert (Hrun : run_ok reuse_ops (new_with_timing 8 10)).
    { split; [by apply good_initial|]. split; [repeat constructor|]. vm_compute. discriminate. }
    exact (proj1 (proj1 (run_advances (T := Target64) reuse_ops (new_with_timing 8 10) Hrun))).
  - eapply rtc_l; [apply (race_retire (T := Target64) 7 _ _ _ _ _ race_key2); vm_compute; by eexists|].
    etransitivity; [apply (race_run_thread (T := Target64) 7 8 0 0 (RIdle race_key2 0 50)); reflexivity|].
    eapply rtc_l; [apply (race_unlink (T := Target64) 7 _ _ _ _ _ race_key2); set_solver|].
    etransitivity; [apply (race_run_close (T := Target64) 7 6)|].
    apply rtc_once.
    replace (∅ : gset RequestKey) with (({[race_key2]} ∪ ∅ : gset RequestKey) ∖ {[race_key2]}) at 2 by set_solver.
    replace (({[race_key2]} ∪ ∅ : gset RequestKey) ∖ {[race_key2]}) with (∅ : gset RequestKey) at 1 by set_solver.
    apply race_unwait. set_solver.
  - split; [repeat constructor|split; [|done]]. by eexists.
Qed.

Lemma solo_witness :
  run_close 6 7 CIdle race_registry =
    (CDone (close_session_pending 7 race_registry).1, (close_session_pending 7 race_registry).2).
Proof.
  refine (proj2 (proj2 (solo_tasks_are_the_operations (H := Target64) 7 0 None 0 0 0 race_registry)) 0%nat _).
  reflexivity.
Defined.
