(* ===== verification/Writes.v ===== *)
(** * The write path: [crates/msgtrans/src/connection.rs],
      [adapters/outbound.rs], the write half of [adapters/tcp.rs]

    A write travels as a queue item with its completion: the receipt its caller
    awaits and the registry's claim on the request it answers. The state is what
    resolving a completion can change: the registry, the receipts (one-shot
    channels) and the byte budget. *)

From S2P Require Import Prelude Packet Errors Stream Events Registry RegistryInv RegistryOps.
From S2P Require Import RegistryRun RegistryProps.

(** ** Completions *)

(** The awaiting side of a receipt: the writer's answer, or its end dropped. *)
Inductive receipt := Awaiting | Reported (r : exec TransportError unit) | SenderGone.

Record WriteCompletion := mkCompletion {
  wc_observer : option nat;
  wc_claim : option RespondClaim
}.

Record io_state := mkIoState {
  io_registry : RequestRegistry;
  io_receipts : gmap nat receipt;
  io_budget : ByteBudget
}.

Definition set_registry (r : RequestRegistry) (st : io_state) : io_state :=
  mkIoState r (io_receipts st) (io_budget st).
Definition set_receipts (m : gmap nat receipt) (st : io_state) : io_state :=
  mkIoState (io_registry st) m (io_budget st).
Definition set_io_budget (b : ByteBudget) (st : io_state) : io_state :=
  mkIoState (io_registry st) (io_receipts st) b.

Definition detached : WriteCompletion := mkCompletion None None.

Definition is_detached (c : WriteCompletion) : bool :=
  match wc_observer c, wc_claim c with None, None => true | _, _ => false end.

(** The sender half of a receipt: used once, or dropped. *)
Definition receipt_end (o : option nat) (out : receipt) (st : io_state) : io_state :=
  match o with
  | Some n =>
      match io_receipts st !! n with
      | Some Awaiting => set_receipts (<[n := out]> (io_receipts st)) st
      | _ => st
      end
  | None => st
  end.

Definition on_claim (f : RespondClaim -> RequestRegistry -> RequestRegistry)
    (c : option RespondClaim) (st : io_state) : io_state :=
  match c with
  | Some claim => set_registry (f claim (io_registry st)) st
  | None => st
  end.

Definition complete (c : WriteCompletion) (result : exec TransportError unit) (st : io_state)
    : io_state :=
  let st := on_claim (fun claim => claim_resolve claim (is_ok result)) (wc_claim c) st in
  receipt_end (wc_observer c) (Reported result) st.

(** A completion dropped unresolved reports failure by construction. *)
Definition drop_completion (c : WriteCompletion) (st : io_state) : io_state :=
  let st := receipt_end (wc_observer c) SenderGone st in
  on_claim claim_drop (wc_claim c) st.

Definition await_receipt (n : nat) (closed_msg : string) (st : io_state)
    : option (exec TransportError unit) :=
  match io_receipts st !! n with
  | Some (Reported r) => Some r
  | Some SenderGone => Some (Throw (connection_error closed_msg false))
  | _ => None
  end.

(** ** The outbound queue *)

(** [ob_permit]: the budget ticket the packet's bytes own. *)
Record OutboundItem := mkItem {
  ob_packet : Packet;
  ob_permit : option nat;
  ob_completion : option WriteCompletion
}.

Record queue := mkQueue { q_items : list OutboundItem; q_capacity : Z; q_open : bool }.

Definition SEND_QUEUE_WAIT : Z := 100.

Definition drop_item (it : OutboundItem) (st : io_state) : io_state :=
  let st := set_io_budget (drop_packet (ob_permit it) (io_budget st)) st in
  match ob_completion it with Some c => drop_completion c st | None => st end.

Definition drop_items (its : list OutboundItem) (st : io_state) : io_state :=
  foldl (fun st it => drop_item it st) st its.

Definition has_slot (q : queue) : bool := len (q_items q) <? q_capacity q.

Definition enqueue (it : OutboundItem) (q : queue) : queue :=
  mkQueue (q_items q ++ [it]) (q_capacity q) (q_open q).

(** [later] is the queue when the bounded wait ends: a slot came free, the
    receiver closed, or the deadline passed with the queue still full. *)
Definition send_item (q later : queue) (it : OutboundItem) (queue_name closed_msg : string)
    (st : io_state) : queue * io_state * exec TransportError unit :=
  let closed q := (q, drop_item it st, Throw (connection_error closed_msg false)) in
  if negb (q_open q) then closed q
  else if has_slot q then (enqueue it q, st, Done tt)
  else if negb (q_open later) then closed later
  else if has_slot later then (enqueue it later, st, Done tt)
  else (later, drop_item it st,
        Throw (resource_error queue_name (len (q_items later)) (q_capacity later))).

Definition send_with_completion_bounded (q later : queue) (p : Packet) (permit : option nat)
    (c : WriteCompletion) (queue_name closed_msg : string) (st : io_state)
    : queue * io_state * exec TransportError unit :=
  let completion := if is_detached c then None else Some c in
  send_item q later (mkItem p permit completion) queue_name closed_msg st.

Record QueueWriter := mkWriter { qw_queue_name : string; qw_closed_msg : string }.

(** The writer's entry point: charge the bytes (the budget is looked at when the
    bounded wait ends), then enqueue. *)
Definition send_with_completion `{Target} (w : QueueWriter) (q later : queue) (p : Packet)
    (c : WriteCompletion) (st : io_state) : queue * io_state * exec TransportError unit :=
  match charge p (io_budget st) with
  | Done (Some (t, b)) =>
      send_with_completion_bounded q later p (Some t) c (qw_queue_name w) (qw_closed_msg w)
        (set_io_budget b st)
  | Done None => (q, drop_completion c st, Throw (exhausted (io_budget st)))
  | Throw e => (q, drop_completion c st, Throw e)
  | Panic => (q, drop_completion c st, Panic)
  end.

(** ** The write loop of the TCP adapter *)

(** What the socket did with one [write_all]. *)
Inductive write_io := WriteDone | WriteError (e : IoError) | WriteDeadline.

Inductive write_end :=
  | Stopped                      (* another arm of the connection's [select!] ended first *)
  | QueueClosed                  (* every sender is gone *)
  | WriteFailed (reason : string).

Section Write.
Context `{T : Target}.
(** [format!("{e:?}")] of the adapter's error, a derived [Debug]. *)
Context (debug : TcpError -> string).

Definition write_result (p : Packet) (io : write_io) : exec TransportError bytes :=
  let failed e := Throw (connection_error ("TCP write failed: " +:+ debug e) false) in
  match write_packet_to_stream p with
  | Done bs =>
      match io with
      | WriteDone => Done bs
      | WriteError e => failed (TcpIo e)
      | WriteDeadline => Throw (connection_error "TCP write deadline exceeded" false)
      end
  | Throw e => failed e
  | Panic => Panic
  end.

(** The written item is gone: its bytes return their permits. *)
Definition retire_item (it : OutboundItem) (st : io_state) : io_state :=
  set_io_budget (drop_packet (ob_permit it) (io_budget st)) st.

Definition complete_item (it : OutboundItem) (r : exec TransportError unit) (st : io_state)
    : io_state :=
  match ob_completion it with Some c => complete c r st | None => st end.

(** The loop over the items it receives and what the socket does with each. When
    [ios] runs out the loop is stopped there: it was dropped by another arm, or
    waits for good; [closing] tells which when the items run out first. The
    result: the bytes on the wire, the packets confirmed, and why it ended. *)
Fixpoint write_loop (items : list OutboundItem) (ios : list write_io) (closing : bool) (st : io_state)
    : list bytes * list Z * write_end * io_state :=
  match items, ios with
  | [], _ => ([], [], if closing then QueueClosed else Stopped, st)
  | _, [] => ([], [], Stopped, drop_items items st)
  | it :: items, io :: ios =>
      match write_result (ob_packet it) io with
      | Done bs =>
          let st := retire_item it (complete_item it (Done tt) st) in
          let '(wire, sent, e, st) := write_loop items ios closing st in
          (bs :: wire, message_id (header (ob_packet it)) :: sent, e, st)
      | Throw err =>
          let st := retire_item it (complete_item it (Throw err) st) in
          ([], [], WriteFailed (TransportError_display err), drop_items items st)
      | Panic => ([], [], Stopped, drop_items (it :: items) st)
      end
  end.
End Write.

(** ** Properties *)

Definition observer_of (it : OutboundItem) : option nat := ob_completion it ≫= wc_observer.
Definition claim_of (it : OutboundItem) : option RespondClaim := ob_completion it ≫= wc_claim.

(** The claims of the items settled in order, the first [written] as written. *)
Fixpoint settle (written : nat) (items : list OutboundItem) (r : RequestRegistry) : RequestRegistry :=
  match items with
  | [] => r
  | it :: items =>
      settle (pred written) items
        (match claim_of it with
         | Some c => (finish_respond (claim_token c) (0 <? written)%nat r).2
         | None => r
         end)
  end.

(** Completions nobody has resolved yet. *)
Record unresolved (items : list OutboundItem) (m : gmap nat receipt) : Prop := mkUnresolved {
  un_distinct : NoDup (omap observer_of items);
  un_awaiting : forall n, n ∈ omap observer_of items -> m !! n = Some Awaiting;
  un_claims : forall it c, it ∈ items -> claim_of it = Some c -> claim_resolved c = false
}.

Lemma unresolved_tail it items m m' : unresolved (it :: items) m ->
  (forall n, observer_of it <> Some n -> m' !! n = m !! n) -> unresolved items m'.
Proof.
  intros [Hd Ha Hc] Hm. cbn in Hd, Ha. split.
  - destruct (observer_of it); [by apply NoDup_cons in Hd as [_ Hd]|done].
  - intros n Hn. rewrite Hm.
    + apply Ha. destruct (observer_of it); [by right|done].
    + intros Ho. rewrite Ho in Hd. by apply NoDup_cons in Hd as [Hd _].
  - intros it' c Hit. apply Hc. by right.
Qed.

(** What resolving the completion of one item does. *)
Lemma complete_item_effect it r st :
  (forall c, claim_of it = Some c -> claim_resolved c = false) ->
  (forall n, observer_of it = Some n -> io_receipts st !! n = Some Awaiting) ->
  let st' := complete_item it r st in
  io_registry st' = match claim_of it with
    | Some c => (finish_respond (claim_token c) (is_ok r) (io_registry st)).2
    | None => io_registry st end /\
  io_receipts st' = match observer_of it with
    | Some n => <[n := Reported r]> (io_receipts st) | None => io_receipts st end.
Proof.
  intros Hc Ho. cbn zeta. unfold complete_item, claim_of, observer_of in *.
  destruct (ob_completion it) as [[o [c|]]|]; cbn in *; try done;
    unfold complete, receipt_end, on_claim; cbn.
  - destruct o as [n|]; [|done]. rewrite (Ho n eq_refl). done.
  - destruct o as [n|]; [|done]. rewrite (Ho n eq_refl). done.
Qed.

Lemma drop_item_effect it st :
  (forall c, claim_of it = Some c -> claim_resolved c = false) ->
  (forall n, observer_of it = Some n -> io_receipts st !! n = Some Awaiting) ->
  let st' := drop_item it st in
  io_registry st' = match claim_of it with
    | Some c => (finish_respond (claim_token c) false (io_registry st)).2
    | None => io_registry st end /\
  io_receipts st' = match observer_of it with
    | Some n => <[n := SenderGone]> (io_receipts st) | None => io_receipts st end.
Proof.
  intros Hc Ho. cbn zeta. unfold drop_item, claim_of, observer_of in *.
  destruct (ob_completion it) as [[o c]|]; cbn in *; [|done].
  unfold drop_completion, receipt_end, on_claim, claim_drop; cbn.
  destruct o as [n|], c as [c|]; cbn; rewrite ?(Ho n eq_refl), ?(Hc c eq_refl); done.
Qed.

(** The receipts of dropped items, and nothing else. *)
Lemma drop_items_effect items : forall st, unresolved items (io_receipts st) ->
  let st' := drop_items items st in
  io_registry st' = settle 0 items (io_registry st) /\
  (forall n, n ∈ omap observer_of items -> io_receipts st' !! n = Some SenderGone) /\
  (forall n, n ∉ omap observer_of items -> io_receipts st' !! n = io_receipts st !! n).
Proof.
  induction items as [|it items IH]; intros st Hun; cbn zeta.
  - split_and!; [done|by intros n ?%elem_of_nil|done].
  - destruct (drop_item_effect it st) as [Hr Hm].
    { intros c. apply (un_claims _ _ Hun). by left. }
    { intros n Hn. apply (un_awaiting _ _ Hun). cbn. rewrite Hn. by left. }
    assert (Hun' : unresolved items (io_receipts (drop_item it st))).
    { apply (unresolved_tail it _ _ _ Hun). intros n Hn. rewrite Hm.
      destruct (observer_of it) as [o|]; [|done]. apply lookup_insert_ne. congruence. }
    destruct (IH (drop_item it st) Hun') as (Hr' & Hin & Hout).
    unfold drop_items in *. cbn [foldl omap list_omap settle]. cbn zeta in *.
    pose proof (un_distinct _ _ Hun) as Hd. cbn in Hd.
    rewrite Hr', Hr. split_and!; [done|..]; intros n Hn.
    + destruct (observer_of it) as [o|] eqn:Ho; [|by apply Hin].
      apply elem_of_cons in Hn as [->|Hn]; [|by apply Hin].
      apply NoDup_cons in Hd as [Hd _]. rewrite Hout, Hm by done. apply lookup_insert_eq.
    + destruct (observer_of it) as [o|] eqn:Ho.
      * apply not_elem_of_cons in Hn as [Hne Hn]. rewrite Hout, Hm by done. by apply lookup_insert_ne.
      * by rewrite Hout, Hm.
Qed.

(** ** The registry while completions are resolved *)

(** The request of the token is claimed and its response under way. *)
Definition responding (tok : RequestToken) (r : RequestRegistry) : Prop :=
  exists e, entries r !! token_key tok = Some e /\ e_generation e = t_generation tok /\
    entry_state e = Responding.

Lemma finish_respond_wf `{Target} X tok ok r : wf X r -> wf X (finish_respond tok ok r).2.
Proof.
  intros Hwf. pose proof (finish_respond_spec X tok ok r Hwf) as Hs.
  destruct (finish_respond tok ok r) as [res r']. cbn.
  destruct (entries r !! token_key tok) as [e|]; [|by destruct Hs as [_ ->]].
  repeat case_bool_decide; try (by destruct Hs as [_ ->]).
  destruct Hs as [_ Hs]. by eapply wf_retired.
Qed.

Lemma finish_respond_settles `{Target} X tok ok r : wf X r ->
  ~ responding tok (finish_respond tok ok r).2 /\
  forall tok', responding tok' (finish_respond tok ok r).2 -> responding tok' r.
Proof.
  intros Hwf. pose proof (finish_respond_spec X tok ok r Hwf) as Hs.
  destruct (finish_respond tok ok r) as [res r']. cbn. unfold responding.
  destruct (entries r !! token_key tok) as [e|] eqn:He;
    [|destruct Hs as [_ ->]; split; [by intros (e' & He' & _); congruence|done]].
  case_bool_decide as Hg; [|destruct Hs as [_ ->]; split; [|done];
    by intros (e' & He' & Hg' & _); congruence].
  case_bool_decide as Hst; [|destruct Hs as [_ ->]; split; [|done];
    by intros (e' & He' & _ & Hs'); congruence].
  destruct Hs as [_ Hr]. split.
  - intros (e' & He' & _). rewrite (ret_entries _ _ _ _ Hr), lookup_delete_eq in He'. done.
  - intros tok' (e' & He' & Hrest). rewrite (ret_entries _ _ _ _ Hr) in He'.
    apply lookup_delete_Some in He' as [_ He']. by exists e'.
Qed.

Lemma settle_settles `{Target} X items : forall k r, wf X r ->
  wf X (settle k items r) /\
  (forall tok, responding tok (settle k items r) -> responding tok r) /\
  (forall it c, it ∈ items -> claim_of it = Some c -> ~ responding (claim_token c) (settle k items r)).
Proof.
  induction items as [|it items IH]; intros k r Hwf; cbn.
  { split_and!; [done|done|]. by intros ? ? ?%elem_of_nil. }
  destruct (claim_of it) as [c0|] eqn:Hc0.
  - destruct (finish_respond_settles X (claim_token c0) (0 <? k)%nat r Hwf) as [Hno Hback].
    destruct (IH (pred k) _ (finish_respond_wf X (claim_token c0) (0 <? k)%nat r Hwf)) as (H1 & H2 & H3).
    split_and!; [done|by intros tok Ht; apply Hback, H2|].
    intros it' c [->|Hin]%elem_of_cons Hc Hresp; [|by eapply H3].
    rewrite Hc0 in Hc. injection Hc as ->. by apply Hno, H2.
  - destruct (IH (pred k) r Hwf) as (H1 & H2 & H3). split_and!; [done|done|].
    intros it' c [->|Hin]%elem_of_cons Hc; [congruence|by eapply H3].
Qed.

(** Of the receipts [m] of [items], the first [k] report a write in [m'], the
    others something else than waiting, and nobody else's receipt moved. *)
Definition reported (k : nat) (items : list OutboundItem) (m m' : gmap nat receipt) : Prop :=
  (forall i it n, items !! i = Some it -> observer_of it = Some n ->
    exists out, m' !! n = Some out /\ out <> Awaiting /\ (out = Reported (Done tt) <-> (i < k)%nat)) /\
  (forall n, n ∉ omap observer_of items -> m' !! n = m !! n).

Lemma reported_dropped items st : unresolved items (io_receipts st) ->
  reported 0 items (io_receipts st) (io_receipts (drop_items items st)).
Proof.
  intros Hun. destruct (drop_items_effect items st Hun) as (_ & Hin & Hout). split; [|done].
  intros i it n Hi Hn. exists SenderGone. split; [|split; [done|split; [done|lia]]].
  apply Hin, list_elem_of_omap. exists it. split; [by eapply list_elem_of_lookup_2|done].
Qed.

(** The receipt of the first item is written once, by its own outcome. *)
Lemma reported_cons it items k k' r m m1 m' :
  NoDup (omap observer_of (it :: items)) ->
  m1 = match observer_of it with Some n => <[n := Reported r]> m | None => m end ->
  (r = Done tt /\ k' = S k \/ r <> Done tt /\ k = 0%nat /\ k' = 0%nat) ->
  reported k items m1 m' -> reported k' (it :: items) m m'.
Proof.
  intros Hd -> Hk [Hin Hout]. cbn in Hd. split.
  - intros [|i] it' n Hi Hn; cbn in Hi.
    + injection Hi as ->. rewrite Hn in Hd, Hout. apply NoDup_cons in Hd as [Hd _].
      exists (Reported r). rewrite Hout, lookup_insert_eq by done. split_and!; [done|done|].
      destruct Hk as [[-> ->]|(Hr & -> & ->)]; split; [lia|done|congruence|lia].
    + destruct (Hin i it' n Hi Hn) as (out & ? & ? & Hiff). exists out.
      split_and!; [done|done|]. rewrite Hiff. lia.
  - intros n Hn. cbn in Hn. destruct (observer_of it) as [o|]; [|by apply Hout].
    apply not_elem_of_cons in Hn as [Hne Hn]. rewrite Hout by done. by apply lookup_insert_ne.
Qed.

Section Loop.
Context `{T : Target} (debug : TcpError -> string).

(** Resolving the first item leaves the completions of the others alone. *)
Lemma retire_first it items r st : unresolved (it :: items) (io_receipts st) ->
  let st' := retire_item it (complete_item it r st) in
  io_registry st' = match claim_of it with
    | Some c => (finish_respond (claim_token c) (is_ok r) (io_registry st)).2
    | None => io_registry st end /\
  io_receipts st' = match observer_of it with
    | Some n => <[n := Reported r]> (io_receipts st) | None => io_receipts st end /\
  unresolved items (io_receipts st').
Proof.
  intros Hun st'. destruct (complete_item_effect it r st) as [H1 H2].
  { intros c. apply (un_claims _ _ Hun). by left. }
  { intros n Hn. apply (un_awaiting _ _ Hun). cbn. rewrite Hn. by left. }
  split_and!; [done|done|]. apply (unresolved_tail it _ _ _ Hun). intros n Hn.
  unfold st'. cbn. rewrite H2. destruct (observer_of it); [|done]. apply lookup_insert_ne. congruence.
Qed.

Lemma write_result_packet pkt io bs : write_result debug pkt io = Done bs ->
  write_packet_to_stream pkt = Done bs.
Proof. unfold write_result. destruct (write_packet_to_stream pkt), io; congruence. Qed.

Lemma write_loop_effect items : forall ios closing st, unresolved items (io_receipts st) ->
  let '(wire, sent, e, st') := write_loop debug items ios closing st in
  exists k, (k <= length items)%nat /\
    Forall2 (fun it bs => write_packet_to_stream (ob_packet it) = Done bs) (take k items) wire /\
    sent = map (fun it => message_id (header (ob_packet it))) (take k items) /\
    io_registry st' = settle k items (io_registry st) /\
    reported k items (io_receipts st) (io_receipts st').
Proof.
  induction items as [|it items IH]; intros ios closing st Hun.
  { cbn. exists 0%nat. by split_and!. }
  pose proof (reported_dropped _ _ Hun) as Hall.
  destruct (drop_items_effect _ _ Hun) as (Hreg & _).
  destruct ios as [|io ios].
  { exists 0%nat. split_and!; [lia|constructor|done..]. }
  pose proof (un_distinct _ _ Hun) as Hd. cbn [write_loop].
  destruct (write_result debug (ob_packet it) io) as [bs|err|] eqn:Hw.
  - destruct (retire_first it items (Done tt) st Hun) as (Hr & Hm & Hun').
    set (st1 := retire_item it _) in *. specialize (IH ios closing st1 Hun').
    destruct (write_loop debug items ios closing st1) as [[[wire sent] e] st'].
    destruct IH as (k & Hk & Hwire & Hsent & Hreg' & Hrep). exists (S k).
    split_and!; cbn; [lia| |by rewrite Hsent|by rewrite Hreg', Hr|by eapply reported_cons; eauto].
    constructor; [by eapply write_result_packet|done].
  - destruct (retire_first it items (Throw err) st Hun) as (Hr & Hm & Hun').
    set (st1 := retire_item it _) in *. exists 0%nat.
    destruct (drop_items_effect items st1 Hun') as (Hr' & _).
    split_and!; cbn; [lia|constructor|done|by rewrite Hr', Hr|].
    eapply reported_cons; [done|exact Hm|by right|by apply reported_dropped].
  - exists 0%nat. split_and!; [lia|constructor|done..].
Qed.
End Loop.

(** What a send leaves, on every path. *)
Definition send_outcome (w : QueueWriter) (q later : queue) (p : Packet) (o : option nat)
    (c : option RespondClaim) (st : io_state) (out : queue * io_state * exec TransportError unit)
    : Prop :=
  let '(q', st', res) := out in
  match res with
  | Done _ =>
      (exists base permit, (base = q \/ base = later) /\ q_open base = true /\ has_slot base = true /\
         q' = enqueue (mkItem p permit (if is_detached (mkCompletion o c) then None
                                        else Some (mkCompletion o c))) base) /\
      io_registry st' = io_registry st /\ io_receipts st' = io_receipts st
  | Throw e =>
      (q' = q \/ q' = later) /\
      (forall n, o = Some n -> io_receipts st' !! n = Some SenderGone) /\
      (forall cl, c = Some cl -> ~ responding (claim_token cl) (io_registry st')) /\
      match e with
      | Connection reason retryable => reason = qw_closed_msg w /\ retryable = false
      | Resource name current limit =>
          (name = qw_queue_name w /\ current = len (q_items later) /\ limit <= current) \/
          (name = "connection byte budget" /\ limit = bb_capacity (io_budget st) /\ limit < current) \/
          (name = "outbound byte budget" /\ current = limit)
      | _ => False
      end
  | Panic => False
  end.

(** What a send may do to the registry and to the queue. *)
Lemma send_frame `{Target} w q p o c st :
  let '(q', st', res) := send_with_completion w q q p (mkCompletion o c) st in
  (io_registry st' = io_registry st \/
   exists cl, c = Some cl /\ io_registry st' = claim_drop cl (io_registry st)) /\
  (forall it, it ∈ q_items q' -> it ∈ q_items q \/ claim_of it = c).
Proof.
  assert (Hdrop : forall st2, io_registry st2 = io_registry st ->
    (io_registry (drop_completion (mkCompletion o c) st2) = io_registry st \/
     exists cl, c = Some cl /\ io_registry (drop_completion (mkCompletion o c) st2) =
       claim_drop cl (io_registry st))).
  { intros st2 <-. unfold drop_completion, receipt_end, on_claim.
    destruct o as [n|], c as [cl|]; cbn; repeat case_match; cbn; eauto. }
  assert (Hitem : forall permit st2, io_registry st2 = io_registry st ->
    let it := mkItem p permit (if is_detached (mkCompletion o c) then None else Some (mkCompletion o c)) in
    claim_of it = c /\
    (io_registry (drop_item it st2) = io_registry st \/
     exists cl, c = Some cl /\ io_registry (drop_item it st2) = claim_drop cl (io_registry st))).
  { intros permit st2 Hst. destruct (is_detached (mkCompletion o c)) eqn:Hd.
    - unfold is_detached in Hd. cbn in Hd. destruct o, c; try done. split; [done|by left].
    - split; [done|]. exact (Hdrop (set_io_budget (drop_packet permit (io_budget st2)) st2) Hst). }
  unfold send_with_completion. destruct (charge p (io_budget st)) as [[[t b]|]|e|]; try (by split; [apply Hdrop|auto]).
  unfold send_with_completion_bounded, send_item. cbv zeta.
  destruct (Hitem (Some t) (set_io_budget b st) eq_refl) as [Hcl Hreg]. cbv zeta in Hcl, Hreg.
  destruct (negb (q_open q)); [by split; [|auto]|].
  destruct (has_slot q); [|by split; [|auto]]. split; [by left|]. cbn.
  intros it [?|Hit]%elem_of_app; [by left|]. apply list_elem_of_singleton in Hit as ->. by right.
Qed.

Lemma send_effect `{T : Target} X w q later p o c st :
  wf X (io_registry st) ->
  (forall n, o = Some n -> io_receipts st !! n = Some Awaiting) ->
  (forall cl, c = Some cl -> claim_resolved cl = false) ->
  send_outcome w q later p o c st (send_with_completion w q later p (mkCompletion o c) st).
Proof.
  intros Hwf Ho Hc.
  assert (Hcomp : forall st2, io_registry st2 = io_registry st -> io_receipts st2 = io_receipts st ->
    (forall n, o = Some n -> io_receipts (drop_completion (mkCompletion o c) st2) !! n = Some SenderGone) /\
    (forall cl, c = Some cl -> ~ responding (claim_token cl)
      (io_registry (drop_completion (mkCompletion o c) st2)))).
  { intros st2 H1 H2.
    destruct (drop_item_effect (mkItem p None (Some (mkCompletion o c))) st2) as [Hr Hm].
    { intros cl Hcl. by apply Hc. }
    { intros n Hn. rewrite H2. by apply Ho. }
    assert (Hsame : drop_completion (mkCompletion o c) st2 =
      drop_item (mkItem p None (Some (mkCompletion o c))) st2) by by destruct st2.
    rewrite Hsame, Hr, Hm. cbn. split.
    - intros n ->. apply lookup_insert_eq.
    - intros cl ->. rewrite H1. by apply (finish_respond_settles X). }
  assert (Hitem : forall permit st2, io_registry st2 = io_registry st -> io_receipts st2 = io_receipts st ->
    let it := mkItem p permit (if is_detached (mkCompletion o c) then None else Some (mkCompletion o c)) in
    (forall n, o = Some n -> io_receipts (drop_item it st2) !! n = Some SenderGone) /\
    (forall cl, c = Some cl -> ~ responding (claim_token cl) (io_registry (drop_item it st2)))).
  { intros permit st2 H1 H2. destruct (is_detached (mkCompletion o c)) eqn:Hd.
    - unfold is_detached in Hd. cbn in Hd. destruct o, c; try done.
    - exact (Hcomp (set_io_budget (drop_packet permit (io_budget st2)) st2) H1 H2). }
  unfold send_outcome, send_with_completion. destruct (charge p (io_budget st)) as [[[t b]|]|e|] eqn:Hch.
  - unfold send_with_completion_bounded, send_item. cbv zeta.
    set (st2 := set_io_budget b st). destruct (Hitem (Some t) st2 eq_refl eq_refl) as [Hi1 Hi2].
    destruct (q_open q) eqn:Hq; cbn [negb]; [|by split_and!; [left|..]].
    destruct (has_slot q) eqn:Hs.
    { split_and!; [|done|done]. exists q, (Some t). split_and!; [by left|done..]. }
    destruct (q_open later) eqn:Hl; cbn [negb]; [|by split_and!; [right|..]].
    destruct (has_slot later) eqn:Hs'.
    { split_and!; [|done|done]. exists later, (Some t). split_and!; [by right|done..]. }
    split_and!; [by right|done|done|]. left. split_and!; [done|done|].
    unfold has_slot in Hs'. apply Z.ltb_ge in Hs'. done.
  - destruct (Hcomp st eq_refl eq_refl). split_and!; [by left|done|done|]. right. by right.
  - destruct (Hcomp st eq_refl eq_refl). split_and!; [by left|done|done|].
    unfold charge in Hch. destruct (Z.ltb_spec (bb_capacity (io_budget st)) (charge_size p)).
    + injection Hch as <-. right. left. by split_and!.
    + by destruct (_ <? _).
  - unfold charge in Hch. destruct (_ <? _); [done|]. by destruct (_ <? _).
Qed.

(** What a send does, on every path. Accepted, its item is at the end of the
    queue, which was open and had room, with the completion still unresolved.
    Refused, because the packet exceeds the budget, the budget or the queue
    stayed full, or the connection is gone, nothing is queued, the caller's
    receipt says that the sender is gone, the claim is settled as a failed send,
    and the error is the documented one. *)
Theorem send_is_queued_or_refused `{T : Target} X w q later p o c st
    (Hwf : wf X (io_registry st))
    (Ho : forall n, o = Some n -> io_receipts st !! n = Some Awaiting)
    (Hc : forall cl, c = Some cl -> claim_resolved cl = false) :
  let '(q', st', res) := send_with_completion w q later p (mkCompletion o c) st in
  match res with
  | Done _ =>
      (exists base permit, (base = q \/ base = later) /\ q_open base = true /\ has_slot base = true /\
         q' = enqueue (mkItem p permit (if is_detached (mkCompletion o c) then None
                                        else Some (mkCompletion o c))) base) /\
      io_registry st' = io_registry st /\ io_receipts st' = io_receipts st
  | Throw e =>
      (q' = q \/ q' = later) /\
      (forall n, o = Some n -> io_receipts st' !! n = Some SenderGone) /\
      (forall cl, c = Some cl -> ~ responding (claim_token cl) (io_registry st')) /\
      match e with
      | Connection reason retryable => reason = qw_closed_msg w /\ retryable = false
      | Resource name current limit =>
          (name = qw_queue_name w /\ current = len (q_items later) /\ limit <= current) \/
          (name = "connection byte budget" /\ limit = bb_capacity (io_budget st) /\ limit < current) \/
          (name = "outbound byte budget" /\ current = limit)
      | _ => False
      end
  | Panic => False
  end.
Proof. by apply (send_effect X). Qed.

(** C17: the write loop never lies about a write. For the items it receives, in
    whatever way each socket write ends and wherever the loop is stopped, some
    first [k] are written: exactly their encodings are on the wire, in order,
    exactly their receipts say so, and every other receipt reports an error;
    none is left waiting. Every claim that rode an item is settled in the same
    pass, and no request it claimed is still under way. *)
Theorem every_write_is_reported_once_and_truthfully `{T : Target} X debug items ios closing st msg
    (Hwf : wf X (io_registry st)) (Hun : unresolved items (io_receipts st)) :
  let '(wire, sent, e, st') := write_loop debug items ios closing st in
  exists k, (k <= length items)%nat /\
    Forall2 (fun it bs => write_packet_to_stream (ob_packet it) = Done bs) (take k items) wire /\
    sent = map (fun it => message_id (header (ob_packet it))) (take k items) /\
    (forall i it n, items !! i = Some it -> observer_of it = Some n ->
      exists r, await_receipt n msg st' = Some r /\ (is_ok r = true <-> (i < k)%nat)) /\
    io_registry st' = settle k items (io_registry st) /\
    (forall it c, it ∈ items -> claim_of it = Some c -> ~ responding (claim_token c) (io_registry st')).
Proof.
  pose proof (write_loop_effect debug items ios closing st Hun) as H.
  destruct (write_loop debug items ios closing st) as [[[wire sent] e] st'].
  destruct H as (k & Hk & Hwire & Hsent & Hreg & Hin & _). exists k.
  split_and!; [done..| |done|rewrite Hreg; by apply (settle_settles X)].
  intros i it n Hi Hn. destruct (Hin i it n Hi Hn) as (out & Hout & Hne & Hiff).
  unfold await_receipt. rewrite Hout. destruct out as [|r|]; [done| |].
  - exists r. split; [done|]. rewrite <- Hiff. destruct r as [[]|err|]; cbn; split; congruence.
  - eexists. split; [done|]. rewrite <- Hiff. cbn. split; congruence.
Qed.

(** ** Witnesses *)

(** A registry where the sample request is claimed, two awaited receipts, and a
    budget of a hundred bytes. *)
Definition claimed_registry : RequestRegistry :=
  (run (T := Target64) [BeginRespond sample_token] sample_registry).2.

Definition sample_io : io_state :=
  mkIoState claimed_registry {[0%nat := Awaiting; 1%nat := Awaiting]} (budget_new 100).

Lemma claimed_registry_wf : wf ∅ claimed_registry.
Proof.
  pose proof (run_advances (T := Target64) [BeginRespond sample_token] sample_registry) as H.
  apply H, sample_run_ok; [repeat constructor|discriminate].
Qed.

Definition sample_items : list OutboundItem :=
  [mkItem (response_with_biz 1 3 [7; 7]) None
     (Some (mkCompletion (Some 0%nat) (Some (RespondClaim_new sample_token))));
   mkItem (one_way 2 [8]) None (Some (mkCompletion (Some 1%nat) None))].

Lemma sample_unresolved : unresolved sample_items (io_receipts sample_io).
Proof.
  split.
  - repeat constructor; set_solver.
  - intros n Hn. cbn in Hn. repeat (apply elem_of_cons in Hn as [->|Hn]; [by vm_compute|]). set_solver.
  - intros it c Hit. unfold sample_items in Hit.
    repeat (apply elem_of_cons in Hit as [->|Hit]; [cbn; intros; by simplify_eq|]). set_solver.
Qed.

Lemma every_write_witness :
  responding sample_token claimed_registry /\
  let '(wire, sent, e, st') := write_loop (T := Target64) (fun _ => "") sample_items
    [WriteDone; WriteDeadline] false sample_io in
  sent = [1] /\ e = WriteFailed "Connection error: TCP write deadline exceeded (retryable: false)" /\
  await_receipt 0 "closed" st' = Some (Done tt) /\
  await_receipt 1 "closed" st' = Some (Throw (connection_error "TCP write deadline exceeded" false)) /\
  ~ responding sample_token (io_registry st').
Proof.
  split; [vm_compute; eexists; repeat split|].
  pose proof (every_write_is_reported_once_and_truthfully (T := Target64) ∅ (fun _ => "") sample_items
    [WriteDone; WriteDeadline] false sample_io "closed" claimed_registry_wf sample_unresolved) as H.
  destruct (write_loop _ _ _ _ _) as [[[wire sent] e] st'] eqn:Hrun.
  destruct H as (k & _ & _ & _ & _ & _ & Hresp).
  assert (Hno : ~ responding sample_token (io_registry st')).
  { refine (Hresp (mkItem (response_with_biz 1 3 [7; 7]) None
     (Some (mkCompletion (Some 0%nat) (Some (RespondClaim_new sample_token))))) _ _ eq_refl). by left. }
  revert Hrun Hno. vm_compute. intros [= <- <- <- <-] Hno. repeat split; try exact Hno.
Defined.

Lemma send_is_queued_or_refused_witness :
  let q := mkQueue [] 1 true in
  let '(q', st', res) := send_with_completion (H := Target64) (mkWriter "q" "closed") q q
    (one_way 2 (replicate 200 0)) (mkCompletion (Some 0%nat) None) sample_io in
  res = Throw (resource_error "connection byte budget" 200 100) /\
  io_receipts st' !! 0%nat = Some SenderGone.
Proof.
  cbv zeta.
  pose proof (send_is_queued_or_refused (T := Target64) ∅ (mkWriter "q" "closed") (mkQueue [] 1 true)
    (mkQueue [] 1 true) (one_way 2 (replicate 200 0)) (Some 0%nat) None sample_io claimed_registry_wf) as H.
  assert (Hres : (send_with_completion (H := Target64) (mkWriter "q" "closed") (mkQueue [] 1 true)
    (mkQueue [] 1 true) (one_way 2 (replicate 200 0)) (mkCompletion (Some 0%nat) None) sample_io).2 =
    Throw (resource_error "connection byte budget" 200 100)) by (vm_compute; reflexivity).
  destruct (send_with_completion _ _ _ _ _ _) as [[q' st'] res]. cbn in Hres. subst res.
  split; [done|]. apply H; [by intros n [= <-]|done|done].
Defined.
