(* ===== verification/Transport.v ===== *)
(** * One transport and its generations:
      [crates/msgtrans/src/transport/transport.rs], [transport/connection_state.rs],
      [transport/concurrent.rs]

    A transport holds at most one installed connection; every installation is a
    new generation, whose session identifier keys all of its effects. Each
    function is what its code does between two await points that other tasks can
    run in; a handler that awaits is a sequence of them. *)

From S2P Require Import Prelude Packet Errors Limits Stream Events Registry Writes.

(** ** Data *)

(** [ConnectionState] of [connection_state.rs]. *)
Inductive ConnState := Connected | Closing | Closed.
#[export] Instance ConnState_eq_dec : EqDecision ConnState.
Proof. solve_decision. Defined.

(** What a generation's connection object owns: its outbound queue and budget,
    the labels of its writer, its frame policy and its description. *)
Record conn := mkConn {
  cn_queue : queue;
  cn_budget : ByteBudget;
  cn_writer : QueueWriter;
  cn_policy : FramePolicy;
  cn_info : ConnectionInfo
}.

Record TaggedClientEvent := mkTagged {
  te_session_id : SessionId;
  te_token : option RequestToken;
  te_event : TransportEvent
}.

(** [tp_slot]: the generation installed in the slot. [tp_conns]: the connection
    of every generation, installed or not, for its writers outlive the slot.
    [tp_listening]: the client's end of the event queue is alive; [tp_events] is
    what was put in it. *)
Record Transport := mkTransport {
  tp_slot : option SessionId;
  tp_conns : gmap SessionId conn;
  tp_states : gmap SessionId ConnState;
  tp_registry : RequestRegistry;
  tp_receipts : gmap nat receipt;
  tp_epoch : Z;
  tp_listening : bool;
  tp_events : list TaggedClientEvent
}.

Definition DEFAULT_WAITER_DEADLINE : Z := 30 * 1000000000.

Definition with_context : Transport :=
  mkTransport None ∅ ∅ registry_new ∅ 0 true [].

Definition set_slot (s : option SessionId) (t : Transport) : Transport :=
  mkTransport s (tp_conns t) (tp_states t) (tp_registry t) (tp_receipts t) (tp_epoch t)
    (tp_listening t) (tp_events t).
Definition set_states (m : gmap SessionId ConnState) (t : Transport) : Transport :=
  mkTransport (tp_slot t) (tp_conns t) m (tp_registry t) (tp_receipts t) (tp_epoch t)
    (tp_listening t) (tp_events t).
Definition set_tp_registry (r : RequestRegistry) (t : Transport) : Transport :=
  mkTransport (tp_slot t) (tp_conns t) (tp_states t) r (tp_receipts t) (tp_epoch t)
    (tp_listening t) (tp_events t).
Definition set_tp_receipts (m : gmap nat receipt) (t : Transport) : Transport :=
  mkTransport (tp_slot t) (tp_conns t) (tp_states t) (tp_registry t) m (tp_epoch t)
    (tp_listening t) (tp_events t).

(** ** The connection state manager *)

Definition csm_add_connection (s : SessionId) (m : gmap SessionId ConnState) : gmap SessionId ConnState :=
  <[s := Connected]> m.

Definition csm_try_start_closing (s : SessionId) (m : gmap SessionId ConnState)
    : bool * gmap SessionId ConnState :=
  match m !! s with
  | Some Connected => (true, <[s := Closing]> m)
  | Some (Closing | Closed) => (false, m)
  | None => (false, m)
  end.

Definition csm_mark_closed (s : SessionId) (m : gmap SessionId ConnState) : gmap SessionId ConnState :=
  match m !! s with Some _ => <[s := Closed]> m | None => m end.

Definition csm_should_ignore_messages (s : SessionId) (m : gmap SessionId ConnState) : bool :=
  match m !! s with
  | Some (Closing | Closed) => true
  | Some Connected => false
  | None => true
  end.

Definition csm_get_state (s : SessionId) (m : gmap SessionId ConnState) : option ConnState := m !! s.

Definition csm_remove_connection (s : SessionId) (m : gmap SessionId ConnState) : gmap SessionId ConnState :=
  delete s m.

(** The transport's own manager. *)
Definition add_connection (s : SessionId) (t : Transport) : Transport :=
  set_states (csm_add_connection s (tp_states t)) t.
Definition try_start_closing (s : SessionId) (t : Transport) : bool * Transport :=
  let '(b, m) := csm_try_start_closing s (tp_states t) in (b, set_states m t).
Definition mark_closed (s : SessionId) (t : Transport) : Transport :=
  set_states (csm_mark_closed s (tp_states t)) t.
Definition remove_connection (s : SessionId) (t : Transport) : Transport :=
  set_states (csm_remove_connection s (tp_states t)) t.

(** ** Connections *)

(** The state the completions of a generation's queue act on. *)
Definition io_of (cn : conn) (t : Transport) : io_state :=
  mkIoState (tp_registry t) (tp_receipts t) (cn_budget cn).

Definition put_io (s : SessionId) (cn : conn) (q : queue) (st : io_state) (t : Transport) : Transport :=
  mkTransport (tp_slot t)
    (<[s := mkConn q (io_budget st) (cn_writer cn) (cn_policy cn) (cn_info cn)]> (tp_conns t))
    (tp_states t) (io_registry st) (io_receipts st) (tp_epoch t) (tp_listening t) (tp_events t).

(** A connection closed, or dropped: its event loop ends and what its queue
    holds is dropped with it. *)
Definition close_connection (s : SessionId) (t : Transport) : Transport :=
  match tp_conns t !! s with
  | Some cn =>
      let st := drop_items (q_items (cn_queue cn)) (io_of cn t) in
      put_io s cn (mkQueue [] (q_capacity (cn_queue cn)) false) st t
  | None => t
  end.

(** Take the slot only if it still belongs to [s]. *)
Definition take_slot (s : SessionId) (t : Transport) : bool * Transport :=
  if decide (tp_slot t = Some s) then (true, set_slot None t) else (false, t).

Definition is_connected (t : Transport) : bool := bool_decide (is_Some (tp_slot t)).
Definition current_session_id (t : Transport) : option SessionId := tp_slot t.

Definition set_frame_policy (policy : FramePolicy) (t : Transport) : Transport :=
  match tp_slot t with
  | Some s =>
      mkTransport (tp_slot t)
        (alter (fun cn => mkConn (cn_queue cn) (cn_budget cn) (cn_writer cn) policy (cn_info cn)) s (tp_conns t))
        (tp_states t) (tp_registry t) (tp_receipts t) (tp_epoch t) (tp_listening t) (tp_events t)
  | None => t
  end.

Definition close_pending (s : SessionId) (t : Transport) : Transport :=
  set_tp_registry (close_session_pending s (tp_registry t)).2 t.

Definition forward_client_event_with_token (s : SessionId) (token : option RequestToken)
    (e : TransportEvent) (t : Transport) : Transport :=
  if tp_listening t then
    mkTransport (tp_slot t) (tp_conns t) (tp_states t) (tp_registry t) (tp_receipts t) (tp_epoch t)
      (tp_listening t) (tp_events t ++ [mkTagged s token e])
  else t.

Definition forward_client_event (s : SessionId) (e : TransportEvent) (t : Transport) : Transport :=
  forward_client_event_with_token s None e t.

(** ** Closing *)

Definition retire_generation (s : SessionId) (t : Transport) : Transport :=
  let '(taken, t) := take_slot s t in
  let t := remove_connection s (mark_closed s t) in
  if taken then close_connection s t else t.

(** [graceful]: the protocol's close succeeded in time; otherwise it is forced. *)
Definition close_taken (graceful : bool) (s : SessionId) (t : Transport) : Transport :=
  let t := close_connection s t in
  if graceful then t else close_connection s t.

Definition close_session (graceful : bool) (s : SessionId) (t : Transport) : Transport :=
  match try_start_closing s t with
  | (false, t) => t
  | (true, t) =>
      let '(taken, t) := take_slot s (close_pending s t) in
      let t := if taken then close_taken graceful s t else t in
      remove_connection s (mark_closed s t)
  end.

Definition force_close_session (s : SessionId) (t : Transport) : Transport :=
  match try_start_closing s t with
  | (false, t) => t
  | (true, t) =>
      let '(taken, t) := take_slot s (close_pending s t) in
      let t := if taken then close_connection s t else t in
      remove_connection s (mark_closed s t)
  end.

Definition disconnect (graceful : bool) (t : Transport) : Transport * exec TransportError unit :=
  match current_session_id t with
  | Some s => (close_session graceful s t, Done tt)
  | None => (t, Throw (connection_error "Not connected" false))
  end.

(** ** Installing a connection *)

(** Under the slot lock: the next epoch is the new generation's identifier; the
    connection that was in the slot is dropped. *)
Definition install (cn : conn) (t : Transport) : SessionId * Transport :=
  let epoch := wrap 64 (tp_epoch t + 1) in
  let info := mkInfo epoch (ci_local_addr (cn_info cn)) (ci_peer_addr (cn_info cn))
    (ci_protocol (cn_info cn)) (ci_state (cn_info cn)) (ci_established_at (cn_info cn))
    (ci_closed_at (cn_info cn)) in
  let cn := mkConn (cn_queue cn) (cn_budget cn) (cn_writer cn) (cn_policy cn) info in
  let old := tp_slot t in
  let t := mkTransport (Some epoch) (<[epoch := cn]> (tp_conns t)) (tp_states t) (tp_registry t)
    (tp_receipts t) epoch (tp_listening t) (tp_events t) in
  (epoch, match old with Some s => close_connection s t | None => t end).

Definition announce (s : SessionId) (t : Transport) : Transport :=
  let t := add_connection s t in
  let t := set_tp_registry (open_session s (tp_registry t)) t in
  match tp_conns t !! s with
  | Some cn => forward_client_event s (ConnectionEstablished (cn_info cn)) t
  | None => t
  end.

Definition set_connection (cn : conn) (t : Transport) : SessionId * Transport :=
  let '(s, t) := install cn t in (s, announce s t).

(** The server installs a connection under an identifier of its own. *)
Definition set_connection_no_consumer (cn : conn) (s : SessionId) (t : Transport) : Transport :=
  let old := tp_slot t in
  let t := mkTransport (Some s) (<[s := cn]> (tp_conns t)) (tp_states t) (tp_registry t)
    (tp_receipts t) (tp_epoch t) (tp_listening t) (tp_events t) in
  let t := match old with
    | Some o => if decide (o = s) then t else close_connection o t
    | None => t end in
  add_connection s t.

(** ** Sending *)

Section Send.
Context `{T : Target}.

(** Under the slot lock: check the generation and take its writer. *)
Definition capture_writer (expected : option SessionId) (t : Transport) : exec TransportError SessionId :=
  match tp_slot t with
  | Some s =>
      match expected with
      | Some e =>
          if decide (s = e) then Done s
          else Throw (connection_error "connection replaced since the request was received" false)
      | None => Done s
      end
  | None => Throw (connection_error "Not connected" false)
  end.

(** The enqueue on the captured writer, at the moment its bounded wait ends. *)
Definition enqueue_on (s : SessionId) (p : Packet) (c : WriteCompletion) (t : Transport)
    : Transport * exec TransportError unit :=
  match tp_conns t !! s with
  | Some cn =>
      let '(q, st, res) :=
        send_with_completion (cn_writer cn) (cn_queue cn) (cn_queue cn) p c (io_of cn t) in
      (put_io s cn q st t, res)
  | None => (t, Throw (connection_error "Not connected" false))
  end.

(** Fire and forget: only the enqueue reports. [t'] is the transport when the
    enqueue happens. *)
Definition send (p : Packet) (t t' : Transport) : Transport * exec TransportError unit :=
  match capture_writer None t with
  | Done s => enqueue_on s p detached t'
  | Throw e => (t', Throw e)
  | Panic => (t', Panic)
  end.

(** A completion that drops before it reached any queue. *)
Definition drop_unsent (c : WriteCompletion) (t : Transport) : Transport :=
  let st := drop_completion c (mkIoState (tp_registry t) (tp_receipts t) (budget_new 0)) in
  set_tp_registry (io_registry st) (set_tp_receipts (io_receipts st) t).

(** The first step of [send_confirmed_with]: the completion is created, then the
    writer captured; on refusal the completion is dropped. *)
Definition send_start (expected : option SessionId) (claim : option RespondClaim) (t : Transport)
    : Transport * WriteCompletion * exec TransportError SessionId :=
  let n := fresh (dom (tp_receipts t)) in
  let c := mkCompletion (Some n) claim in
  let t := set_tp_receipts (<[n := Awaiting]> (tp_receipts t)) t in
  match capture_writer expected t with
  | Done s => (t, c, Done s)
  | failed => (drop_unsent c t, c, failed)
  end.

(** The last step: the receipt. [None] still waits. *)
Definition send_result (c : WriteCompletion) (t : Transport) : option (exec TransportError unit) :=
  match wc_observer c with
  | Some n => await_receipt n "connection closed before write"
      (mkIoState (tp_registry t) (tp_receipts t) (budget_new 0))
  | None => None
  end.

(** ** Outbound requests *)

(** What the caller of a request holds while it waits. *)
Record request_call := mkCall {
  rc_receiver : nat;
  rc_guard : OutboundRequestGuard;
  rc_session : option SessionId;
  rc_packet : Packet
}.

(** Up to the armed guard. *)
Definition request_start (now : Z) (deadline : Z) (p : Packet) (t : Transport)
    : Transport * exec TransportError request_call :=
  let session_id := current_session_id t in
  match try_register_waiter (message_id (header p)) session_id (biz_type (header p)) deadline now
          (tp_registry t) with
  | (Some (rx, token), r) =>
      (set_tp_registry r t, Done (mkCall rx (guard_armed (OutboundRequestGuard_new token)) session_id p))
  | (None, r) =>
      (set_tp_registry r t, Throw (connection_error "Duplicate in-flight request id" false))
  end.

Definition request (now : Z) (p : Packet) (t : Transport) : Transport * exec TransportError request_call :=
  match packet_type (header p) with
  | Request => request_start now DEFAULT_WAITER_DEADLINE p t
  | _ => (t, Throw (connection_error "Not a Request packet" false))
  end.

(** How the wait ends: the write failed, the response deadline passed, the
    caller's future was dropped, or the receiver is polled. *)
Inductive request_wait := WriteRefused (e : TransportError) | DeadlinePassed (timeout : Z) | Cancelled | Polled.

(** The outcome of the call, [None] while it still waits; [Done None] is a
    cancelled call. Every exit but a response drops the armed guard. *)
Definition request_finish (call : request_call) (w : request_wait) (t : Transport)
    : option (Transport * exec TransportError (option Packet)) :=
  let abandoned r := Some (set_tp_registry (guard_drop (rc_guard call) (tp_registry t)) t, r) in
  match w with
  | WriteRefused e => abandoned (Throw e)
  | DeadlinePassed d => abandoned (Throw (timeout_error "request" d))
  | Cancelled => abandoned (Done None)
  | Polled =>
      match chans (tp_registry t) !! rc_receiver call with
      | Some (ChanSent p) =>
          Some (set_tp_registry (guard_drop (guard_disarm (rc_guard call)) (tp_registry t)) t, Done (Some p))
      | Some ChanClosed => abandoned (Throw (connection_error "Connection closed" true))
      | _ => None
      end
  end.

(** [request_with_options] reads the current session twice: to allocate the
    identifier, and, after the packet is built, to register the waiter. *)
Definition allocate_request_id (t : Transport) : Transport * exec TransportError Z :=
  match next_request_id (current_session_id t) (tp_registry t) with
  | (Some i, r) => (set_tp_registry r t, Done i)
  | (None, r) => (set_tp_registry r t, Throw (resource_error "request_id_space" U32_MAX U32_MAX))
  end.

Definition request_with_options `{Codecs} (now : Z) (data : bytes) (options : RequestOptions)
    (i : Z) (t : Transport) : Transport * exec TransportError request_call :=
  match apply (ro_send options) (Packet.request i data) with
  | Done p => request_start now (from_option (fun ms => ms * 1000000) DEFAULT_WAITER_DEADLINE (ro_timeout options)) p t
  | Throw e => (t, Throw e)
  | Panic => (t, Panic)
  end.

(** A one-way message: its identifier and its packet; [current_session_id] and
    [send_start] follow. *)
Definition send_with_options `{Codecs} (data : bytes) (options : SendOptions) (t : Transport)
    : Transport * exec TransportError Packet :=
  let '(i, r) := next_oneway_id (tp_registry t) in
  (set_tp_registry r t, apply options (one_way i data)).

(** ** Inbound events *)

Definition on_event (now now' : Z) (s : SessionId) (e : TransportEvent) (t : Transport) : Transport :=
  match e with
  | MessageReceived p =>
      match packet_type (header p) with
      | Response =>
          let '(completed, r) := complete_waiter (Some s) (message_id (header p)) p (tp_registry t) in
          let t := set_tp_registry r t in
          if completed then t else forward_client_event s (MessageReceived p) t
      | Request =>
          let '(token, r) := register (message_id (header p)) (Some s) (biz_type (header p))
            REQUEST_LIFECYCLE_TIMEOUT now now' (tp_registry t) in
          let t := set_tp_registry r t in
          match token with
          | Some token => forward_client_event_with_token s (Some token) (MessageReceived p) t
          | None => t
          end
      | OneWay => forward_client_event s (MessageReceived p) t
      end
  | ConnectionClosed reason =>
      let t := retire_generation s (close_pending s t) in
      forward_client_event s (ConnectionClosed reason) t
  | other => forward_client_event s other t
  end.

(** The end of the pipe's consumer. *)
Definition teardown (s : SessionId) (t : Transport) : Transport :=
  close_pending s (retire_generation s t).

(** The consumer of a generation's pipe over the events it yields; a newer
    generation ends it. *)
Fixpoint consume (now now' : Z) (s : SessionId) (events : list TransportEvent) (t : Transport) : Transport :=
  match events with
  | [] => teardown s t
  | e :: events =>
      if tp_epoch t =? s then consume now now' s events (on_event now now' s e t) else teardown s t
  end.
End Send.
