(* ===== verification/TransportProps.v ===== *)
(** * Properties of the transport and its generations

    Other tasks run between the steps of a handler, so the theorems quantify
    over arbitrary sequences of steps: a stale generation's steps against the
    installed one, registry activity between the steps of a request, any
    transport between the capture of a writer and its use. *)

From S2P Require Import Prelude Packet Errors Limits Stream Events.
From S2P Require Import Registry RegistryInv RegistryOps RegistryRun RegistryProps Writes Transport.

(** ** The part of a registry that belongs to one session *)

Record untouched (g : SessionId) (r r' : RequestRegistry) : Prop := mkUntouched {
  ut_entries : forall k, k_session_id k = Some g -> entries r' !! k = entries r !! k;
  ut_waiters : forall k, k_session_id k = Some g -> waiters r' !! k = waiters r !! k;
  ut_session : sessions r' !! g = sessions r !! g
}.

Lemma untouched_refl g r : untouched g r r.
Proof. by split. Qed.

Lemma untouched_trans g r1 r2 r3 : untouched g r1 r2 -> untouched g r2 r3 -> untouched g r1 r3.
Proof. intros [H1 H2 H3] [H4 H5 H6]. split; intros; by rewrite ?H4, ?H5, ?H6, ?H1, ?H2, ?H3. Qed.

(** [r'] is reached from the consistent [r] by at most [n] registrations,
    without touching the session [g]. *)
Definition shift (g : SessionId) (n : Z) (r r' : RequestRegistry) : Prop :=
  good ∅ ∅ r' /\ next_generation r' <= next_generation r + n /\ untouched g r r'.

Lemma shift_refl g r : good ∅ ∅ r -> shift g 0 r r.
Proof. intros. split_and!; [done|lia|apply untouched_refl]. Qed.

Lemma shift_trans g n m r1 r2 r3 : shift g n r1 r2 -> shift g m r2 r3 -> shift g (n + m) r1 r3.
Proof.
  intros (_ & H1 & H2) (H3 & H4 & H5). split_and!; [done|lia|by eapply untouched_trans].
Qed.

Lemma shift_weaken g n m r r' : n <= m -> shift g n r r' -> shift g m r r'.
Proof. intros ? (? & ? & ?). split_and!; [done|lia|done]. Qed.

Section Shift.
Context `{T : Target}.

Lemma shift_quiet g r r' : good ∅ ∅ r -> quiet r r' -> shift g 1 r r'.
Proof.
  intros Hg Hq. split_and!; [apply (advances_quiet ∅ ∅ r r' Hg Hq)|apply Hq|].
  split; intros; by rewrite ?(q_entries _ _ Hq), ?(q_waiters _ _ Hq), ?(q_sessions _ _ Hq).
Qed.

Lemma shift_retired g s k fin r r' : good ∅ ∅ r -> k_session_id k = Some s -> s <> g ->
  retired k fin r r' -> shift g 0 r r'.
Proof.
  intros Hg Hk Hs Hr. split_and!.
  - apply (advances_retired ∅ ∅ k fin r r' Hg Hr).
  - destruct (ret_rest _ _ _ _ Hr) as (_ & _ & _ & _ & _ & -> & _). lia.
  - split.
    + intros k' Hk'. rewrite (ret_entries _ _ _ _ Hr), lookup_delete_ne; [done|congruence].
    + intros k' Hk'. rewrite (ret_waiters _ _ _ _ Hr), lookup_delete_ne; [done|congruence].
    + by rewrite (ret_sessions _ _ _ _ Hr).
Qed.

Lemma shift_finish g s tok ok r : good ∅ ∅ r -> t_session_id tok = Some s -> s <> g ->
  shift g 0 r (finish_respond tok ok r).2.
Proof.
  intros Hg Ht Hs. pose proof (finish_respond_spec ∅ tok ok r (proj1 Hg)) as H.
  destruct (finish_respond tok ok r) as [res r']. cbn.
  assert (Hk : k_session_id (token_key tok) = Some s) by (unfold token_key; by destruct (t_direction tok)).
  destruct (entries r !! token_key tok); [|destruct H as [_ ->]; by apply shift_refl].
  repeat case_bool_decide; try (destruct H as [_ ->]; by apply shift_refl).
  destruct H as [_ H]. by eapply shift_retired.
Qed.

Lemma shift_complete g s rid p r : good ∅ ∅ r -> s <> g ->
  shift g 1 r (complete_waiter (Some s) rid p r).2.
Proof.
  intros Hg Hs. pose proof (complete_waiter_spec ∅ (Some s) rid p r (proj1 Hg)) as H. cbv zeta in H.
  destruct (complete_waiter (Some s) rid p r) as [res r']. cbn.
  destruct (entries r !! outbound (Some s) rid).
  - destruct H as [_ H]. apply (shift_weaken g 0); [lia|].
    by apply (shift_retired g s _ _ _ _ Hg (eq_refl : k_session_id (outbound (Some s) rid) = Some s) Hs H).
  - destruct H as [_ H]. by apply shift_quiet.
Qed.

Lemma shift_register g s rid biz timeout now now' r :
  good ∅ ∅ r -> next_generation r < U64_MAX -> s <> g ->
  shift g 1 r (register rid (Some s) biz timeout now now' r).2.
Proof.
  intros Hg Hn Hs. unfold register.
  pose proof (register_impl_spec ∅ (inbound (Some s) rid) biz timeout true now now' r (proj1 Hg) Hn
    (fun _ => eq_refl)) as H.
  destruct (register_impl _ _ _ _ _ _ _) as [o r']. cbn. destruct (accepts _ r).
  - destruct H as [_ H]. split_and!.
    + apply (advances_registered ∅ ∅ _ _ _ _ Hg H).
    + rewrite (rg_gen _ _ _ _ H). lia.
    + split.
      * intros k Hk. rewrite (rg_entries _ _ _ _ H), lookup_insert_ne; [done|]. intros <-. cbn in Hk. congruence.
      * intros k Hk. by rewrite (proj1 (rg_waiters _ _ _ _ H)).
      * by rewrite (proj1 (rg_sessions _ _ _ _ H)).
  - destruct H as [_ H]. by apply shift_quiet.
Qed.

Lemma shift_close g s r : good ∅ ∅ r -> s <> g -> shift g 0 r (close_session_pending s r).2.
Proof.
  intros Hg Hs. pose proof (close_session_spec ∅ s r Hg) as H.
  destruct (close_session_pending s r) as [n r']. cbn. destruct H as ([Hg' _] & Hd & Hss & _).
  split_and!; [done|rewrite (dr_gen _ _ _ _ Hd); lia|]. split.
  - intros k Hk. rewrite (dr_entries _ _ _ _ Hd), decide_False; [done|]. unfold of_session. congruence.
  - intros k Hk. rewrite (dr_waiters _ _ _ _ Hd), decide_False; [done|]. unfold of_session. congruence.
  - by rewrite Hss, lookup_delete_ne.
Qed.

Lemma shift_open g s r : good ∅ ∅ r -> s <> g -> shift g 0 r (open_session s r).
Proof.
  intros Hg Hs. destruct (open_session_advances ∅ ∅ s r Hg) as [Hg' _]. split; [done|].
  unfold open_session in *. destruct (sessions r !! s); [split; [lia|apply untouched_refl]|]. cbn.
  split; [lia|]. split; cbn; try done. by rewrite lookup_insert_ne.
Qed.

(** Dropped items settle the claims they carry. *)
Lemma shift_drop_items g s its : forall st, good ∅ ∅ (io_registry st) -> s <> g ->
  (forall it c, it ∈ its -> claim_of it = Some c -> t_session_id (claim_token c) = Some s) ->
  shift g 0 (io_registry st) (io_registry (drop_items its st)).
Proof.
  induction its as [|it its IH]; intros st Hg Hs Hc; [by apply shift_refl|].
  assert (H1 : shift g 0 (io_registry st) (io_registry (drop_item it st))).
  { assert (Hreg : io_registry (drop_item it st) =
      match claim_of it with Some c => claim_drop c (io_registry st) | None => io_registry st end).
    { unfold drop_item, claim_of, drop_completion, receipt_end, on_claim.
      destruct (ob_completion it) as [[[n|] [c|]]|]; cbn; repeat case_match; done. }
    rewrite Hreg. destruct (claim_of it) as [c|] eqn:Hcl; [|by apply shift_refl].
    unfold claim_drop. destruct (claim_resolved c); [by apply shift_refl|].
    apply (shift_finish g s); [done| |done]. apply (Hc it); [by left|done]. }
  change (drop_items (it :: its) st) with (drop_items its (drop_item it st)).
  replace 0 with (0 + 0) by lia. eapply shift_trans; [exact H1|].
  apply IH; [apply H1|done|]. intros it' c Hit. apply Hc. by right.
Qed.
End Shift.

(** ** What belongs to one generation *)

Record same_generation (g : SessionId) (t t' : Transport) : Prop := mkSame {
  sg_slot : tp_slot t' = Some g <-> tp_slot t = Some g;
  sg_state : tp_states t' !! g = tp_states t !! g;
  sg_conn : tp_conns t' !! g = tp_conns t !! g;
  sg_registry : untouched g (tp_registry t) (tp_registry t');
  sg_epoch : tp_epoch t' = tp_epoch t
}.

(** Claims ride on the queue of their own generation. *)
Definition claims_at_home (t : Transport) : Prop :=
  forall s cn it c, tp_conns t !! s = Some cn -> it ∈ q_items (cn_queue cn) -> claim_of it = Some c ->
    t_session_id (claim_token c) = Some s.

(** The steps a generation takes on the transport: those its closes, its
    retirement and its teardown are made of, its events, its queued sends. *)
Inductive gen_step :=
  | TryStartClosing
  | ClosePending
  | TakeSlot
  | CloseConnection
  | MarkClosed
  | RemoveConnection
  | Announce
  | Event (now now' : Z) (e : TransportEvent)
  | Retire
  | Teardown
  | CloseSession (graceful : bool)
  | ForceClose
  | Enqueue (p : Packet) (observer : option nat) (claim : option RespondClaim).

Section Generations.
Context `{T : Target}.

Definition gen_act (s : SessionId) (a : gen_step) (t : Transport) : Transport :=
  match a with
  | TryStartClosing => (try_start_closing s t).2
  | ClosePending => close_pending s t
  | TakeSlot => (take_slot s t).2
  | CloseConnection => close_connection s t
  | MarkClosed => mark_closed s t
  | RemoveConnection => remove_connection s t
  | Announce => announce s t
  | Event now now' e => on_event now now' s e t
  | Retire => retire_generation s t
  | Teardown => teardown s t
  | CloseSession graceful => close_session graceful s t
  | ForceClose => force_close_session s t
  | Enqueue p o c => (enqueue_on s p (mkCompletion o c) t).1
  end.

Definition gen_run (steps : list (SessionId * gen_step)) (t : Transport) : Transport :=
  foldl (fun t a => gen_act a.1 a.2 t) t steps.

(** A queued response carries a claim on a request of its own session. *)
Definition step_ok (a : SessionId * gen_step) : Prop :=
  match a.2 with
  | Enqueue _ _ (Some c) => t_session_id (claim_token c) = Some a.1
  | _ => True
  end.

(** One step: consistent, and [g] as before. *)
Definition leaves (g : SessionId) (n : Z) (t t' : Transport) : Prop :=
  shift g n (tp_registry t) (tp_registry t') /\ claims_at_home t' /\ same_generation g t t'.

Lemma leaves_refl g t : good ∅ ∅ (tp_registry t) -> claims_at_home t -> leaves g 0 t t.
Proof. intros Hg Hh. split_and!; [by apply shift_refl|done|]. split; try done. Qed.

Lemma leaves_trans g n m t1 t2 t3 : leaves g n t1 t2 -> leaves g m t2 t3 -> leaves g (n + m) t1 t3.
Proof.
  intros (H1 & _ & [S1 S2 S3 S4 S5]) (H2 & Hh & [S6 S7 S8 S9 S10]).
  split_and!; [by eapply shift_trans|done|]. split; [by rewrite S6|congruence..| |congruence].
  by eapply untouched_trans.
Qed.

Lemma leaves_weaken g n m t t' : n <= m -> leaves g n t t' -> leaves g m t t'.
Proof. intros ? (? & ? & ?). split_and!; [by eapply shift_weaken|done|done]. Qed.

(** A change of the registry, of the states, of the slot or of the events. *)
Lemma leaves_registry g n t r : claims_at_home t -> shift g n (tp_registry t) r ->
  leaves g n t (set_tp_registry r t).
Proof. intros Hh Hs. split_and!; [done|done|]. split; cbn; try done. apply Hs. Qed.

Lemma leaves_same g t t' : good ∅ ∅ (tp_registry t) -> claims_at_home t ->
  tp_registry t' = tp_registry t -> tp_conns t' = tp_conns t -> tp_epoch t' = tp_epoch t ->
  tp_states t' !! g = tp_states t !! g -> (tp_slot t' = Some g <-> tp_slot t = Some g) ->
  leaves g 0 t t'.
Proof.
  intros Hg Hh Hr Hc He Hs Hsl. split_and!.
  - rewrite Hr. by apply shift_refl.
  - intros s cn. rewrite Hc. apply Hh.
  - split; rewrite ?Hr, ?Hc; try done.
Qed.

Ltac same := apply leaves_same; cbn; try done.

Lemma leaves_try_start g s t : good ∅ ∅ (tp_registry t) -> claims_at_home t -> s <> g ->
  leaves g 0 t (try_start_closing s t).2.
Proof.
  intros Hg Hh Hs. unfold try_start_closing, csm_try_start_closing.
  destruct (tp_states t !! s) as [[]|]; same. by rewrite lookup_insert_ne.
Qed.

Lemma leaves_mark g s t : good ∅ ∅ (tp_registry t) -> claims_at_home t -> s <> g ->
  leaves g 0 t (mark_closed s t).
Proof.
  intros Hg Hh Hs. unfold mark_closed, csm_mark_closed.
  destruct (tp_states t !! s); same. by rewrite lookup_insert_ne.
Qed.

Lemma leaves_remove g s t : good ∅ ∅ (tp_registry t) -> claims_at_home t -> s <> g ->
  leaves g 0 t (remove_connection s t).
Proof. intros Hg Hh Hs. unfold remove_connection, csm_remove_connection. same. by rewrite lookup_delete_ne. Qed.

Lemma leaves_add g s t : good ∅ ∅ (tp_registry t) -> claims_at_home t -> s <> g ->
  leaves g 0 t (add_connection s t).
Proof. intros Hg Hh Hs. unfold add_connection, csm_add_connection. same. by rewrite lookup_insert_ne. Qed.

Lemma leaves_take g s t : good ∅ ∅ (tp_registry t) -> claims_at_home t -> s <> g ->
  leaves g 0 t (take_slot s t).2.
Proof.
  intros Hg Hh Hs. unfold take_slot. case_decide as Hd; cbn; [|by apply leaves_refl].
  same. rewrite Hd. split; congruence.
Qed.

Lemma leaves_pending g s t : good ∅ ∅ (tp_registry t) -> claims_at_home t -> s <> g ->
  leaves g 0 t (close_pending s t).
Proof. intros Hg Hh Hs. apply leaves_registry; [done|by apply shift_close]. Qed.

Lemma leaves_forward g s tok e t : good ∅ ∅ (tp_registry t) -> claims_at_home t ->
  leaves g 0 t (forward_client_event_with_token s tok e t).
Proof.
  intros Hg Hh. unfold forward_client_event_with_token.
  destruct (tp_listening t); [by same|by apply leaves_refl].
Qed.

Lemma leaves_put_io g n s cn q st t : claims_at_home t -> s <> g ->
  shift g n (tp_registry t) (io_registry st) ->
  (forall it c, it ∈ q_items q -> claim_of it = Some c -> t_session_id (claim_token c) = Some s) ->
  leaves g n t (put_io s cn q st t).
Proof.
  intros Hh Hs Hr Hq. split_and!; [done| |].
  - intros s' cn' it c. cbn. rewrite lookup_insert. case_decide as Hd; [subst s'|apply Hh].
    intros [= <-]. apply Hq.
  - split; cbn; try done; [by rewrite lookup_insert_ne|apply Hr].
Qed.

Lemma leaves_close_connection g s t : good ∅ ∅ (tp_registry t) -> claims_at_home t -> s <> g ->
  leaves g 0 t (close_connection s t).
Proof.
  intros Hg Hh Hs. unfold close_connection. destruct (tp_conns t !! s) as [cn|] eqn:Hc; [|by apply leaves_refl].
  apply leaves_put_io; [done|done| |by intros it c ?%elem_of_nil].
  apply (shift_drop_items g s); [done|done|]. intros it c Hit Hcl. by eapply Hh.
Qed.

(** Sequencing steps that leave [g] alone. *)
Definition leaving (g : SessionId) (n : Z) (f : Transport -> Transport) : Prop :=
  forall t, good ∅ ∅ (tp_registry t) -> claims_at_home t ->
    next_generation (tp_registry t) + n <= U64_MAX -> leaves g n t (f t).

Lemma leaving_comp g n m f h : 0 <= n -> 0 <= m ->
  leaving g n f -> leaving g m h -> leaving g (n + m) (fun t => h (f t)).
Proof.
  intros Hn Hm Hf Hh t Hg Hc Hb. pose proof (Hf t Hg Hc ltac:(lia)) as H1.
  eapply leaves_trans; [exact H1|]. apply Hh; [apply H1|apply H1|].
  destruct H1 as ((_ & Hle & _) & _). lia.
Qed.

Lemma leaving_seq g f h : leaving g 0 f -> leaving g 0 h -> leaving g 0 (fun t => h (f t)).
Proof. intros Hf Hh. by apply (leaving_comp g 0 0). Qed.

Lemma leaving_0 g f : (forall t, good ∅ ∅ (tp_registry t) -> claims_at_home t -> leaves g 0 t (f t)) ->
  leaving g 0 f.
Proof. intros H t Hg Hc _. by apply H. Qed.

Lemma leaving_then g f h t : leaving g 0 h -> leaves g 0 t (f t) ->
  next_generation (tp_registry t) <= U64_MAX -> leaves g 0 t (h (f t)).
Proof.
  intros Hh Hf Hb. replace 0 with (0 + 0) by lia. eapply leaves_trans; [exact Hf|].
  apply Hh; [apply Hf|apply Hf|]. destruct Hf as ((_ & Hle & _) & _). lia.
Qed.

Lemma leaving_finish g s : s <> g -> leaving g 0 (fun t => remove_connection s (mark_closed s t)).
Proof.
  intros Hs. apply (leaving_seq g); [apply leaving_0; intros; by apply leaves_mark|].
  apply leaving_0. intros. by apply leaves_remove.
Qed.

Lemma leaving_if g (b : bool) f h : leaving g 0 f -> leaving g 0 h ->
  leaving g 0 (fun t => if b then f t else h t).
Proof. by destruct b. Qed.

Lemma leaving_id g : leaving g 0 (fun t => t).
Proof. intros t Hg Hc _. by apply leaves_refl. Qed.

Lemma leaving_close_connection g s : s <> g -> leaving g 0 (close_connection s).
Proof. intros Hs. apply leaving_0. intros. by apply leaves_close_connection. Qed.

Lemma leaving_pending g s : s <> g -> leaving g 0 (close_pending s).
Proof. intros Hs. apply leaving_0. intros. by apply leaves_pending. Qed.

(** After the slot was taken or not. *)
Lemma leaving_taken g s (h : bool -> Transport -> Transport) : s <> g ->
  (forall b, leaving g 0 (h b)) ->
  leaving g 0 (fun t => let '(taken, t) := take_slot s t in h taken t).
Proof.
  intros Hs Hh t Hg Hc Hb. pose proof (leaves_take g s t Hg Hc Hs) as Ht.
  destruct (take_slot s t) as [taken t1] eqn:Hk. cbn in Ht.
  pose proof (leaving_then g (fun t => (take_slot s t).2) (h taken) t (Hh taken)) as H.
  cbn in H. rewrite Hk in H. apply H; [done|lia].
Qed.

Lemma leaving_retire g s : s <> g -> leaving g 0 (retire_generation s).
Proof.
  intros Hs. apply (leaving_taken g s (fun taken t =>
    let t := remove_connection s (mark_closed s t) in if taken then close_connection s t else t) Hs).
  intros b. cbv zeta. apply (leaving_seq g (fun t => remove_connection s (mark_closed s t))
    (fun t => if b then close_connection s t else t)); [by apply leaving_finish|].
  apply leaving_if; [by apply leaving_close_connection|apply leaving_id].
Qed.

(** Both closes: stop here, or drain, take the slot, close, and forget. *)
Lemma leaving_closing g s (f : Transport -> Transport) : s <> g -> leaving g 0 f ->
  leaving g 0 (fun t =>
    match try_start_closing s t with
    | (false, t) => t
    | (true, t) =>
        let '(taken, t) := take_slot s (close_pending s t) in
        let t := if taken then f t else t in
        remove_connection s (mark_closed s t)
    end).
Proof.
  intros Hs Hf t Hg Hc Hb. pose proof (leaves_try_start g s t Hg Hc Hs) as Ht.
  destruct (try_start_closing s t) as [b t1] eqn:Hk. cbn in Ht. destruct b; [|done].
  assert (Hrest : leaving g 0 (fun t => let '(taken, t) := take_slot s (close_pending s t) in
        let t := if taken then f t else t in remove_connection s (mark_closed s t))).
  { apply (leaving_seq g (close_pending s) (fun t => let '(taken, t) := take_slot s t in
      remove_connection s (mark_closed s (if taken then f t else t)))); [by apply leaving_pending|].
    apply (leaving_taken g s (fun (taken : bool) t =>
      remove_connection s (mark_closed s (if taken then f t else t))) Hs).
    intros b. apply (leaving_seq g (fun t => if b then f t else t)
      (fun t => remove_connection s (mark_closed s t))); [|by apply leaving_finish].
    by apply leaving_if; [|apply leaving_id]. }
  pose proof (leaving_then g (fun t => (try_start_closing s t).2) _ t Hrest) as H.
  cbn in H. rewrite Hk in H. apply H; [done|lia].
Qed.

Lemma leaving_close_session g s graceful : s <> g -> leaving g 0 (close_session graceful s).
Proof.
  intros Hs. apply (leaving_closing g s (close_taken graceful s) Hs). unfold close_taken. cbv zeta.
  apply (leaving_seq g (close_connection s) (fun t => if graceful then t else close_connection s t));
    [by apply leaving_close_connection|].
  by apply leaving_if; [apply leaving_id|apply leaving_close_connection].
Qed.

Lemma leaving_force g s : s <> g -> leaving g 0 (force_close_session s).
Proof. intros Hs. apply (leaving_closing g s (close_connection s) Hs). by apply leaving_close_connection. Qed.

Lemma leaving_event g s now now' e : s <> g -> leaving g 1 (on_event now now' s e).
Proof.
  intros Hs t Hg Hc Hb.
  assert (Hfwd : forall tok e n r, shift g n (tp_registry t) r -> 0 <= n ->
    leaves g n t (forward_client_event_with_token s tok e (set_tp_registry r t))).
  { intros tok e0 n r Hr Hn. replace n with (n + 0) by lia.
    pose proof (leaves_registry g n t r Hc Hr) as H1.
    eapply leaves_trans; [exact H1|]. apply leaves_forward; apply H1. }
  assert (Hplain : forall tok e, leaves g 1 t (forward_client_event_with_token s tok e t)).
  { intros tok e0. apply (leaves_weaken g 0); [lia|]. by apply leaves_forward. }
  destruct e as [info|reason|p|id|err]; cbn; try apply Hplain.
  - apply (leaves_weaken g 0); [lia|].
    apply (leaving_then g (fun t => retire_generation s (close_pending s t))
      (fun t => forward_client_event s (ConnectionClosed reason) t)); [|
      apply (leaving_seq g (close_pending s) (retire_generation s));
        [by apply leaving_pending|by apply leaving_retire|done|done|lia]|lia].
    apply leaving_0. intros. by apply leaves_forward.
  - destruct (packet_type (header p)); [apply Hplain| |].
    + pose proof (shift_register g s (message_id (header p)) (biz_type (header p)) REQUEST_LIFECYCLE_TIMEOUT
        now now' _ Hg ltac:(lia) Hs) as Hr.
      destruct (register _ _ _ _ _ _ _) as [[tok|] r]; cbn in Hr; [by apply Hfwd|].
      by apply leaves_registry.
    + pose proof (shift_complete g s (message_id (header p)) p _ Hg Hs) as Hr.
      destruct (complete_waiter _ _ _ _) as [[] r]; cbn in Hr; [by apply leaves_registry|by apply Hfwd].
Qed.

Lemma leaving_announce g s : s <> g -> leaving g 0 (announce s).
Proof.
  intros Hs. unfold announce. cbv zeta.
  apply (leaving_seq g (add_connection s)
    (fun t => let t := set_tp_registry (open_session s (tp_registry t)) t in
      match tp_conns t !! s with
      | Some cn => forward_client_event s (ConnectionEstablished (cn_info cn)) t
      | None => t end)); [apply leaving_0; intros; by apply leaves_add|].
  apply (leaving_seq g (fun t => set_tp_registry (open_session s (tp_registry t)) t)
    (fun t => match tp_conns t !! s with
      | Some cn => forward_client_event s (ConnectionEstablished (cn_info cn)) t
      | None => t end)).
  - apply leaving_0. intros t Hg Hc. apply leaves_registry; [done|by apply shift_open].
  - apply leaving_0. intros t Hg Hc. destruct (tp_conns t !! s); [by apply leaves_forward|by apply leaves_refl].
Qed.

Lemma leaving_enqueue g s p o c : s <> g -> step_ok (s, Enqueue p o c) ->
  leaving g 0 (fun t => (enqueue_on s p (mkCompletion o c) t).1).
Proof.
  intros Hs Hok. apply leaving_0. intros t Hg Hc. unfold enqueue_on.
  destruct (tp_conns t !! s) as [cn|] eqn:Hcn; [|by apply leaves_refl].
  pose proof (send_frame (cn_writer cn) (cn_queue cn) p o c (io_of cn t)) as H.
  destruct (send_with_completion _ _ _ _ _ _) as [[q st] res]. destruct H as [Hreg Hq]. cbn.
  assert (Hcl : forall cl, c = Some cl -> t_session_id (claim_token cl) = Some s)
    by (by intros cl ->).
  apply leaves_put_io; [done|done| |].
  - cbn in Hreg. destruct Hreg as [->|(cl & -> & ->)]; [by apply shift_refl|].
    unfold claim_drop. destruct (claim_resolved cl); [by apply shift_refl|].
    apply (shift_finish g s); [done|by apply Hcl|done].
  - intros it c' Hit Hc'. destruct (Hq it Hit) as [Hold|Hnew]; [by eapply Hc|].
    apply Hcl. congruence.
Qed.

Lemma leaving_act g s a : s <> g -> step_ok (s, a) -> leaving g 1 (gen_act s a).
Proof.
  intros Hs Hok.
  assert (H0 : forall f, leaving g 0 f -> leaving g 1 f).
  { intros f Hf t Hg Hc Hb. apply (leaves_weaken g 0); [lia|]. apply Hf; [done|done|lia]. }
  destruct a; cbn [gen_act].
  - apply H0, leaving_0. intros. by apply leaves_try_start.
  - by apply H0, leaving_pending.
  - apply H0, leaving_0. intros. by apply leaves_take.
  - by apply H0, leaving_close_connection.
  - apply H0, leaving_0. intros. by apply leaves_mark.
  - apply H0, leaving_0. intros. by apply leaves_remove.
  - by apply H0, leaving_announce.
  - by apply leaving_event.
  - by apply H0, leaving_retire.
  - apply H0. apply (leaving_seq g (retire_generation s) (close_pending s));
      [by apply leaving_retire|by apply leaving_pending].
  - by apply H0, leaving_close_session.
  - by apply H0, leaving_force.
  - by apply H0, leaving_enqueue.
Qed.

Lemma leaving_run g steps : Forall (fun a => a.1 <> g /\ step_ok a) steps -> forall t,
  good ∅ ∅ (tp_registry t) -> claims_at_home t ->
  next_generation (tp_registry t) + len steps <= U64_MAX ->
  leaves g (len steps) t (gen_run steps t).
Proof.
  induction 1 as [|[s a] steps [Hs Hok] _ IH]; intros t Hg Hc Hb; [by apply leaves_refl|].
  rewrite len_cons in *. pose proof (len_nonneg steps).
  pose proof (leaving_act g s a Hs Hok t Hg Hc ltac:(lia)) as H1.
  replace (len steps + 1) with (1 + len steps) by lia.
  eapply leaves_trans; [exact H1|]. apply IH; [apply H1|apply H1|].
  destruct H1 as ((_ & Hle & _) & _). lia.
Qed.

(** ** Sends bound to a generation *)

Lemma drop_unsent_spec n claim t : tp_receipts t !! n = Some Awaiting ->
  let t' := drop_unsent (mkCompletion (Some n) claim) t in
  tp_conns t' = tp_conns t /\
  send_result (mkCompletion (Some n) claim) t' =
    Some (Throw (connection_error "connection closed before write" false)) /\
  tp_registry t' = match claim with Some cl => claim_drop cl (tp_registry t) | None => tp_registry t end.
Proof.
  intros Hn. cbv zeta. unfold drop_unsent, drop_completion, receipt_end, on_claim, send_result, await_receipt.
  cbn. rewrite Hn. destruct claim; cbn; by rewrite lookup_insert_eq.
Qed.

Lemma send_start_spec expected claim t : 
  let '(t1, c, res) := send_start expected claim t in
  c = mkCompletion (Some (fresh (dom (tp_receipts t)))) claim /\ tp_conns t1 = tp_conns t /\
  match res with
  | Done s => tp_slot t = Some s /\ (forall e, expected = Some e -> s = e) /\
      tp_registry t1 = tp_registry t /\ tp_receipts t1 !! fresh (dom (tp_receipts t)) = Some Awaiting
  | Throw e => (forall x, expected = Some x -> tp_slot t <> Some x) /\
      send_result c t1 = Some (Throw (connection_error "connection closed before write" false)) /\
      tp_registry t1 = match claim with Some cl => claim_drop cl (tp_registry t) | None => tp_registry t end
  | Panic => False
  end.
Proof.
  unfold send_start, capture_writer.
  set (n := fresh (dom (tp_receipts t))). set (t0 := set_tp_receipts _ t).
  destruct (drop_unsent_spec n claim t0) as (Hc & Hr & Hreg); [apply lookup_insert_eq|].
  change (tp_slot t0) with (tp_slot t).
  destruct (tp_slot t) as [s|] eqn:Hs; [destruct expected as [e|]; [destruct (decide (s = e)) as [->|Hne]|]|];
    split_and!; try done; try (by apply lookup_insert_eq); congruence.
Qed.

(** ** Requests *)

(** The registry operation a started request performs. *)
Lemma request_start_spec now d p t t1 call : request_start now d p t = (t1, Done call) ->
  exists tok, try_register_waiter (message_id (header p)) (tp_slot t) (biz_type (header p)) d now (tp_registry t) =
    (Some (rc_receiver call, tok), tp_registry t1) /\
  rc_guard call = guard_armed (OutboundRequestGuard_new tok) /\ rc_session call = tp_slot t /\
  rc_packet call = p.
Proof.
  unfold request_start, current_session_id. intros H.
  destruct (try_register_waiter _ _ _ _ _ _) as [[[rx tok]|] r]; [|done].
  injection H as <- <-. cbn. by exists tok.
Qed.
End Generations.

(** ** The theorems *)

(** C18: a stale generation is inert. Whatever steps other generations still
    take, in any order and number (closes and forced closes cut at any point,
    retirements, teardowns, events and responses arriving late, queued sends,
    their connections dying), the installed generation keeps its slot, its
    connection with everything queued on it, its state, its requests, pending
    or responding, and their waiters. *)
Theorem stale_generation_is_inert `{T : Target} g steps t
    (Hg : good ∅ ∅ (tp_registry t)) (Hhome : claims_at_home t)
    (Hsteps : Forall (fun a => a.1 <> g /\ step_ok a) steps)
    (Hbound : next_generation (tp_registry t) + len steps <= U64_MAX) :
  let t' := gen_run steps t in
  (tp_slot t' = Some g <-> tp_slot t = Some g) /\
  tp_states t' !! g = tp_states t !! g /\ tp_conns t' !! g = tp_conns t !! g /\
  (forall k, k_session_id k = Some g ->
     entries (tp_registry t') !! k = entries (tp_registry t) !! k /\
     waiters (tp_registry t') !! k = waiters (tp_registry t) !! k) /\
  sessions (tp_registry t') !! g = sessions (tp_registry t) !! g.
Proof.
  intros t'. destruct (leaving_run g steps Hsteps t Hg Hhome Hbound) as (_ & _ & [H1 H2 H3 [H4 H5 H6] _]).
  split; [exact H1|]. split_and!; try done. intros k Hk. split; [by apply H4|by apply H5].
Qed.

(** A send bound to a generation is written to that generation or not at
    all. Its writer is captured only if the expected generation is installed at
    that moment; whatever the transport has become when the enqueue happens,
    every other generation's queue is as it was, and the send either is the last
    item of the expected generation's queue, its completion unresolved, or it
    fails, its claim is settled and its receipt reports the failure. *)
Theorem bound_send_stays_on_its_generation `{T : Target} g claim p t t'
    (Hg : wf ∅ (tp_registry t)) (Hg' : wf ∅ (tp_registry t'))
    (Hclaim : forall cl, claim = Some cl -> claim_resolved cl = false)
    (Hreceipt : tp_receipts t' !! fresh (dom (tp_receipts t)) = Some Awaiting) :
  let '(t1, c, res) := send_start (Some g) claim t in
  match res with
  | Throw e => tp_slot t <> Some g /\ tp_conns t1 = tp_conns t /\
      (exists err, send_result c t1 = Some (Throw err)) /\
      (forall cl, claim = Some cl -> ~ responding (claim_token cl) (tp_registry t1))
  | Panic => False
  | Done s => s = g /\ tp_slot t = Some g /\
      let '(t2, out) := enqueue_on s p c t' in
      (forall s', s' <> g -> tp_conns t2 !! s' = tp_conns t' !! s') /\ tp_slot t2 = tp_slot t' /\
      match out with
      | Done _ => exists cn cn' permit, tp_conns t' !! g = Some cn /\ tp_conns t2 !! g = Some cn' /\
          q_open (cn_queue cn) = true /\
          cn_queue cn' = enqueue (mkItem p permit (Some c)) (cn_queue cn) /\ send_result c t2 = None
      | Throw e => tp_conns t' !! g <> None ->
          (exists err, send_result c t2 = Some (Throw err)) /\
          (forall cl, claim = Some cl -> ~ responding (claim_token cl) (tp_registry t2))
      | Panic => False
      end
  end.
Proof.
  pose proof (send_start_spec (Some g) claim t) as H.
  destruct (send_start (Some g) claim t) as [[t1 c] [s|e|]]; [| |by destruct H as (_ & _ & [])].
  - destruct H as (-> & _ & Hs & He & _ & _). specialize (He g eq_refl) as ->.
    split_and!; [done|done|]. unfold enqueue_on. destruct (tp_conns t' !! g) as [cn|] eqn:Hcn; [|by split_and!].
    pose proof (send_effect ∅ (cn_writer cn) (cn_queue cn) (cn_queue cn) p
      (Some (fresh (dom (tp_receipts t)))) claim (io_of cn t') Hg' (fun n Hn => ltac:(by injection Hn as <-)) Hclaim) as Hout.
    destruct (send_with_completion _ _ _ _ _ _) as [[q st] out]. cbn [send_outcome] in Hout.
    split_and!; [intros s' Hs'; cbn; by rewrite lookup_insert_ne|done|].
    destruct out as [[]|e|]; [| |done].
    + destruct Hout as ((base & permit & Hb & Ho & _ & ->) & _ & Hrec). cbn in Hrec.
      destruct Hb as [->| ->]; exists cn; eexists; exists permit; cbn; rewrite lookup_insert_eq;
        split_and!; try done; unfold send_result, await_receipt; cbn; by rewrite Hrec, Hreceipt.
    + intros _. destruct Hout as (_ & Hrec & Hcl & _). split; [|exact Hcl].
      unfold send_result, await_receipt. cbn. rewrite Hrec by done. by eexists.
  - destruct H as (-> & Hconns & Hslot & Hres & Hreg). split_and!; [by apply Hslot|done|by eexists|].
    intros cl ->. rewrite Hreg. unfold claim_drop. rewrite (Hclaim cl eq_refl).
    by apply (finish_respond_settles ∅).
Qed.

(** C19: a request leaves nothing behind. However its wait ends (a refused write,
    the deadline, a closed channel, cancellation, or a response) and whatever
    the registry did in between, the request is over, no waiter sends to its
    receiver any more and every other request is as it was. A response returned
    is one that was completed for this very request while it was pending; and
    any wait but a poll ends at once, while a poll waits only as long as the
    request is pending. *)
Theorem request_leaves_nothing_behind `{T : Target} now d p t t1 call ops t2 w
    (Hrun : run_ok (RegisterWaiter (message_id (header p)) (tp_slot t) (biz_type (header p)) d now :: ops)
       (tp_registry t))
    (Hstart : request_start now d p t = (t1, Done call))
    (Hops : tp_registry t2 = (run ops (tp_registry t1)).2) :
  match request_finish call w t2 with
  | None => w = Polled /\ rx_waiting (guard_token (rc_guard call)) (rc_receiver call) (tp_registry t2)
  | Some (t3, out) =>
      phase (guard_token (rc_guard call)) (tp_registry t3) = 0%nat /\
      (forall k, waiters (tp_registry t3) !! k <> Some (rc_receiver call)) /\
      (forall k, k <> token_key (guard_token (rc_guard call)) ->
         entries (tp_registry t3) !! k = entries (tp_registry t2) !! k) /\
      forall resp, out = Done (Some resp) -> exists ops1 ops2,
        ops = ops1 ++ CompleteWaiter (rc_session call) (message_id (header p)) resp :: ops2 /\
        rx_waiting (guard_token (rc_guard call)) (rc_receiver call) (run ops1 (tp_registry t1)).2
  end.
Proof.
  destruct (request_start_spec _ _ _ _ _ _ Hstart) as (tok & Hreg & Hguard & Hsess & _).
  rewrite Hguard, Hsess. cbn [guard_token guard_armed OutboundRequestGuard_new].
  pose proof (abandoned_request _ _ _ _ _ _ _ _ _ ops Hrun Hreg) as Hab. cbv zeta in Hab.
  rewrite <- Hops in Hab. destruct Hab as (Hp & _ & Hw & He & _ & Hdis).
  apply run_ok_cons in Hrun as (Hg & _ & Hng & _ & Hrun). cbn [step] in Hrun. rewrite Hreg in Hrun.
  cbn [snd] in Hrun. destruct (registered_waiter _ _ _ _ _ _ _ _ _ Hg Hng Hreg) as (Hrx & Htok & Hlt & _).
  pose proof (waiter_run tok (rc_receiver call) ops _ Hrun ltac:(by subst) Hlt Hrx) as Hwr.
  rewrite <- Hops in Hwr.
  assert (Hgone : forall r : exec TransportError (option Packet), (forall resp, r <> Done (Some resp)) ->
    phase tok (tp_registry (set_tp_registry (guard_drop (rc_guard call) (tp_registry t2)) t2)) = 0%nat /\
    (forall k, waiters (tp_registry (set_tp_registry (guard_drop (rc_guard call) (tp_registry t2)) t2)) !! k
       <> Some (rc_receiver call)) /\
    (forall k, k <> token_key tok ->
       entries (tp_registry (set_tp_registry (guard_drop (rc_guard call) (tp_registry t2)) t2)) !! k =
       entries (tp_registry t2) !! k) /\
    forall resp, r = Done (Some resp) -> exists ops1 ops2,
        ops = ops1 ++ CompleteWaiter (tp_slot t) (message_id (header p)) resp :: ops2 /\
        rx_waiting tok (rc_receiver call) (run ops1 (tp_registry t1)).2).
  { intros r Hr. rewrite Hguard. cbn [tp_registry set_tp_registry]. split_and!; try done.
    intros resp Hresp. by destruct (Hr resp). }
  unfold request_finish. destruct w as [e|dl| |]; try (by apply Hgone).
  destruct Hwr as [[Hwait|[Hph Hch]]|(ops1 & resp & ops2 & Hsplit & Hw1 & Hph & Hch)].
  - destruct Hwait as (? & ? & Hch). rewrite Hch. done.
  - rewrite Hch. by apply Hgone.
  - rewrite Hch. cbn [tp_registry set_tp_registry]. rewrite Hguard, Hdis.
    assert (Hnw : forall k, waiters (tp_registry t2) !! k <> Some (rc_receiver call)).
    { intros k Hk. pose proof (proj1 (proj1 (run_advances ops _ Hrun))) as [Hwf _].
      rewrite <- Hops in Hwf. pose proof (wf_waiter_chan _ _ Hwf _ _ Hk). congruence. }
    split_and!; try done. intros resp' [= <-]. exists ops1, ops2.
    split; [|done]. rewrite Hsplit. by rewrite Htok.
Qed.

(** ** A request identifier that outlives its session *)

Definition sample_conn : conn :=
  mkConn (mkQueue [] 4 true) (budget_new 1000) (mkWriter "tcp_outbound_queue" "TCP connection closed")
    Strict (mkInfo 0 "0.0.0.0:0" "0.0.0.0:0" "tcp" CsConnected 0 None).

(** The steps of the scenario below: the transport and what the caller got. *)
Definition value_or {A} (d : A) (r : exec TransportError A) : A :=
  match r with Done a => a | _ => d end.

Definition no_call : request_call := mkCall 0 (OutboundRequestGuard_new sample_token) None (one_way 0 []).

Section Reuse.
Let t1 := (set_connection sample_conn with_context).2.
Let a1 := allocate_request_id t1.
Let t2 := (set_connection sample_conn a1.1).2.
Let c1 := request_with_options (T := Target64) (H := tag_codec) 0 [1] RequestOptions_new (value_or 0 a1.2) t2.
Let call1 := value_or no_call c1.2.
Let t3 := match request_finish call1 (DeadlinePassed 10000) c1.1 with Some (t, _) => t | None => c1.1 end.
Let a2 := allocate_request_id t3.
Let c2 := request_with_options (T := Target64) (H := tag_codec) 0 [2] RequestOptions_new (value_or 0 a2.2) a2.1.
Let call2 := value_or no_call c2.2.
Let late := response (message_id (header (rc_packet call1))) [9].
Let t4 := on_event (T := Target64) 0 0 2 (MessageReceived late) c2.1.

(** Two reads of the current session. The identifier is allocated from one session and registered under the one
    that replaced it: the new session then hands the same identifier out again,
    and the late response of the first, timed-out request is delivered to the
    second one. *)
Theorem split_session_read_reuses_an_identifier :
  c1.2 = Done call1 /\ c2.2 = Done call2 /\
  rc_session call1 = Some 2 /\ rc_session call2 = Some 2 /\
  message_id (header (rc_packet call1)) = message_id (header (rc_packet call2)) /\
  payload (rc_packet call1) = [1] /\ payload (rc_packet call2) = [2] /\
  match request_finish call2 Polled t4 with
  | Some (_, Done (Some p)) => p = late
  | _ => False
  end.
Proof using. vm_compute. repeat split. Qed.
End Reuse.

(** ** Witnesses *)

Definition two_sessions : RequestRegistry :=
  (run (T := Target64) [OpenSession 1; OpenSession 2] registry_new).2.

(** The second generation is installed; the first one's connection still holds
    a queued packet. *)
Definition sample_transport : Transport :=
  mkTransport (Some 2)
    (<[2 := sample_conn]> (<[1 := mkConn (mkQueue [mkItem (one_way 1 [5]) None (Some (mkCompletion (Some 0%nat) None))] 4 true)
       (budget_new 1000) (mkWriter "q" "closed") Strict (cn_info sample_conn)]> ∅))
    {[1 := Connected; 2 := Connected]} two_sessions {[0%nat := Awaiting]} 2 true [].

Lemma two_sessions_good : good ∅ ∅ two_sessions.
Proof.
  assert (Hrun : run_ok [OpenSession 1; OpenSession 2] registry_new).
  { split_and!; [by apply good_initial|by repeat constructor|by vm_compute]. }
  exact (proj1 (proj1 (run_advances (T := Target64) _ _ Hrun))).
Qed.

Lemma sample_home : claims_at_home sample_transport.
Proof.
  intros s cn it c Hs Hit Hc. cbn in Hs. rewrite !lookup_insert_Some in Hs.
  destruct Hs as [[<- <-]|[_ [[<- <-]|[_ Hs]]]]; cbn in Hit; [set_solver| |by rewrite lookup_empty in Hs].
  apply list_elem_of_singleton in Hit as ->. done.
Qed.

Lemma stale_generation_witness :
  let t' := gen_run (T := Target64) [(1, TryStartClosing); (1, ClosePending); (1, Event 0 0 (ConnectionClosed Normal));
    (1, TakeSlot); (1, Teardown); (3, CloseSession true)] sample_transport in
  tp_slot t' = Some 2 /\ (tp_slot t' = Some 2 <-> tp_slot sample_transport = Some 2) /\
  tp_receipts t' !! 0%nat = Some Awaiting.
Proof.
  cbv zeta. split; [by vm_compute|split; [|by vm_compute]].
  refine (proj1 (stale_generation_is_inert (T := Target64) 2 _ sample_transport two_sessions_good sample_home _ _)).
  - repeat constructor; discriminate.
  - vm_compute. discriminate.
Defined.

Lemma bound_send_witness :
  let '(t1, c, res) := send_start (Some 1) None sample_transport in
  res = Throw (connection_error "connection replaced since the request was received" false) /\
  exists err, send_result c t1 = Some (Throw err).
Proof.
  pose proof (bound_send_stays_on_its_generation (T := Target64) 1 None (one_way 1 []) sample_transport
    (mkTransport (Some 2) ∅ ∅ two_sessions {[1%nat := Awaiting]} 2 true [])
    (proj1 two_sessions_good) (proj1 two_sessions_good)) as H.
  destruct (send_start (Some 1) None sample_transport) as [[t1 c] res] eqn:Hs.
  assert (Hres : res = Throw (connection_error "connection replaced since the request was received" false))
    by (revert Hs; vm_compute; congruence).
  subst res. split; [done|]. apply H; [done|by vm_compute].
Defined.

Lemma request_leaves_nothing_witness :
  let c := request_start (T := Target64) 0 100 (Packet.request 7 [1]) sample_transport in
  let call := value_or no_call c.2 in
  c.2 = Done call /\
  match request_finish call Cancelled c.1 with
  | Some (t3, out) => phase (guard_token (rc_guard call)) (tp_registry t3) = 0%nat
  | None => False
  end.
Proof.
  cbv zeta. split; [by vm_compute|].
  pose proof (request_leaves_nothing_behind (T := Target64) 0 100 (Packet.request 7 [1]) sample_transport
    (request_start (T := Target64) 0 100 (Packet.request 7 [1]) sample_transport).1
    (value_or no_call (request_start (T := Target64) 0 100 (Packet.request 7 [1]) sample_transport).2) []
    (request_start (T := Target64) 0 100 (Packet.request 7 [1]) sample_transport).1 Cancelled) as H.
  cbv beta iota delta [request_finish] in H |- *. apply H.
  - split_and!; [exact two_sessions_good|by repeat constructor|by vm_compute].
  - by vm_compute.
  - reflexivity.
Defined.
