(* ===== verification/Actor.v ===== *)
(** * Session actors: [crates/msgtrans/src/transport/session_actor.rs], with
      [RespondOutcome] of [event.rs]

    One actor per server session: it takes inbound events and outbound commands
    from a bounded mailbox, calls the application's handler and writes on the
    session's transport. An actor is stepped from one await point to the next; in
    between, the other tasks (the handler included) change the transport and the
    mailbox. The transport's registry stands for the one the actor was given:
    the claims of its responses and its requests live there. *)

From S2P Require Import Prelude Packet Errors Limits Stream Events Registry Writes Transport.

(** ** Responding *)

Inductive RespondOutcome := Written | AlreadyHandled.

Record Responder := mkResponder {
  rp_token : RequestToken;
  rp_biz_type : Z;
  rp_session_id : SessionId
}.

(** What is left of a respond after its first poll: its result, or a packet to
    send under a claim. *)
Inductive respond_step :=
  | Responded (r : exec TransportError RespondOutcome)
  | ToSend (p : Packet) (c : RespondClaim).

(** The first poll of [respond_with_options]. *)
Definition respond_claim `{Codecs} (data : bytes) (options : SendOptions) (rp : Responder) (t : Transport)
    : Transport * respond_step :=
  match begin_respond (rp_token rp) (tp_registry t) with
  | (Updated, r) =>
      let claim := RespondClaim_new (rp_token rp) in
      let packet := response_with_biz (t_request_id (rp_token rp)) (rp_biz_type rp) data in
      match apply_over options packet (rp_biz_type rp) with
      | Done p => (set_tp_registry r t, ToSend p claim)
      | Throw e => (set_tp_registry (claim_drop claim r) t, Responded (Throw e))
      | Panic => (set_tp_registry (claim_drop claim r) t, Responded Panic)
      end
  | (_, r) => (set_tp_registry r t, Responded (Done AlreadyHandled))
  end.

(** The send that follows, bound to the request's session. *)
Definition respond_send (rp : Responder) (claim : RespondClaim) (t : Transport)
    : Transport * WriteCompletion * exec TransportError SessionId :=
  send_start (Some (rp_session_id rp)) (Some claim) t.

Definition respond_result (r : exec TransportError unit) : exec TransportError RespondOutcome :=
  match r with Done _ => Done Written | Throw e => Throw e | Panic => Panic end.

(** Every respond consumes its responder, and a responder may be dropped
    without any. *)
Definition responder_drop (rp : Responder) (t : Transport) : Transport :=
  set_tp_registry (abort_request_token (rp_token rp) (tp_registry t)).2 t.

(** A respond whose future is dropped before its send. *)
Definition respond_cancelled (rp : Responder) (claim : RespondClaim) (t : Transport) : Transport :=
  responder_drop rp (set_tp_registry (claim_drop claim (tp_registry t)) t).

(** ** The sender handed to the handler *)

(** [own]: the transport's own registry, whose counter numbers one-way
    messages. *)
Definition build_one_way `{Codecs} (data : bytes) (options : SendOptions) (own : RequestRegistry)
    : RequestRegistry * exec TransportError Packet :=
  let '(i, own) := next_oneway_id own in (own, apply options (one_way i data)).

(** ** Messages and mailbox *)

(** [reply]: the identity of the caller's one-shot reply. *)
Inductive ActorMessage :=
  | InboundEvent (e : TransportEvent)
  | Send (p : Packet)
  | SendWithReply (p : Packet) (reply : nat).

(** A bounded channel: [mb_receiver] until the actor's run ends, [mb_senders]
    while a handle is left. *)
Record mailbox := mkMailbox {
  mb_items : list ActorMessage;
  mb_capacity : nat;
  mb_receiver : bool;
  mb_senders : bool
}.

Definition mb_try_send (m : ActorMessage) (mb : mailbox) : option mailbox :=
  if mb_receiver mb && bool_decide (length (mb_items mb) < mb_capacity mb)%nat
  then Some (mkMailbox (mb_items mb ++ [m]) (mb_capacity mb) (mb_receiver mb) (mb_senders mb)) else None.

(** [try_send_event]: offered, never waited for. *)
Definition try_send_event (e : TransportEvent) (mb : mailbox) : mailbox * bool :=
  match mb_try_send (InboundEvent e) mb with Some mb => (mb, true) | None => (mb, false) end.

(** [SessionHandle::enqueue]; [mb']: the mailbox when the bounded wait ends. *)
Definition enqueue_message (m : ActorMessage) (mb mb' : mailbox) : mailbox * exec TransportError unit :=
  if mb_receiver mb then
    match mb_try_send m mb with
    | Some mb => (mb, Done tt)
    | None =>
        if mb_receiver mb' then
          match mb_try_send m mb' with
          | Some mb' => (mb', Done tt)
          | None => (mb', Throw (resource_error "session_actor_outbound_queue"
                       (Z.of_nat (length (mb_items mb'))) (Z.of_nat (mb_capacity mb'))))
          end
        else (mb', Throw (connection_error "Actor channel closed" false))
    end
  else (mb, Throw (connection_error "Actor channel closed" false)).

Definition send_packet (p : Packet) := enqueue_message (Send p).
Definition send_packet_with_reply (p : Packet) (reply : nat) := enqueue_message (SendWithReply p reply).

(** What the caller of [send_packet_with_reply] gets: [None] is a reply dropped
    unanswered. *)
Definition reply_result (r : option (exec TransportError unit)) : exec TransportError unit :=
  match r with Some r => r | None => Throw (connection_error "Actor dropped before reply" false) end.

Definition BATCH_SIZE : nat := 64.

(** ** The actor *)

(** The calls of the session handler. *)
Inductive callback :=
  | OnConnected (info : ConnectionInfo)
  | OnMessage (p : Packet)
  | OnRequest (p : Packet) (rp : Responder)
  | OnMessageSent (message_id : Z)
  | OnError (e : TransportError)
  | OnDisconnected (reason : CloseReason).

(** Where the actor's task is: before [on_connected]; in its mailbox wait; with
    the rest of a batch, [should_break] once a terminal event was met; waiting
    for the outbound queue, then for the receipt, of a command ([reply] [None]
    for a plain send); out of its loop with a reason; done. *)
Inductive actor_phase :=
  | Starting
  | Waiting
  | Working (batch : list ActorMessage) (should_break : bool)
  | Enqueueing (s : SessionId) (p : Packet) (c : WriteCompletion) (reply : option nat) (batch : list ActorMessage)
  | Confirming (c : WriteCompletion) (reply : nat) (batch : list ActorMessage)
  | Finalizing (reason : CloseReason)
  | Stopped.

(** [sa_calls] and [sa_replies]: what the handler and the callers have seen. *)
Record SessionActor := mkActor {
  sa_session_id : SessionId;
  sa_connection_info : ConnectionInfo;
  sa_inbound_registry : bool;
  sa_cancelled : bool;
  sa_mailbox : mailbox;
  sa_close_reason : CloseReason;
  sa_phase : actor_phase;
  sa_calls : list callback;
  sa_replies : list (nat * option (exec TransportError unit))
}.

Definition create_session_actor (s : SessionId) (info : ConnectionInfo) (with_registry : bool)
    (buffer_size : nat) : SessionActor :=
  mkActor s info with_registry false (mkMailbox [] buffer_size true true) Normal Starting [] [].

Definition goto (ph : actor_phase) (a : SessionActor) : SessionActor :=
  mkActor (sa_session_id a) (sa_connection_info a) (sa_inbound_registry a) (sa_cancelled a)
    (sa_mailbox a) (sa_close_reason a) ph (sa_calls a) (sa_replies a).
Definition set_mailbox (mb : mailbox) (a : SessionActor) : SessionActor :=
  mkActor (sa_session_id a) (sa_connection_info a) (sa_inbound_registry a) (sa_cancelled a)
    mb (sa_close_reason a) (sa_phase a) (sa_calls a) (sa_replies a).
Definition close_with (reason : CloseReason) (a : SessionActor) : SessionActor :=
  mkActor (sa_session_id a) (sa_connection_info a) (sa_inbound_registry a) (sa_cancelled a)
    (sa_mailbox a) reason (sa_phase a) (sa_calls a) (sa_replies a).
Definition log_call (c : callback) (a : SessionActor) : SessionActor :=
  mkActor (sa_session_id a) (sa_connection_info a) (sa_inbound_registry a) (sa_cancelled a)
    (sa_mailbox a) (sa_close_reason a) (sa_phase a) (sa_calls a ++ [c]) (sa_replies a).
Definition log_reply (n : nat) (r : option (exec TransportError unit)) (a : SessionActor) : SessionActor :=
  mkActor (sa_session_id a) (sa_connection_info a) (sa_inbound_registry a) (sa_cancelled a)
    (sa_mailbox a) (sa_close_reason a) (sa_phase a) (sa_calls a) (sa_replies a ++ [(n, r)]).
Definition cancel (a : SessionActor) : SessionActor :=
  mkActor (sa_session_id a) (sa_connection_info a) (sa_inbound_registry a) true
    (sa_mailbox a) (sa_close_reason a) (sa_phase a) (sa_calls a) (sa_replies a).

(** The loop is left: the receiver goes with it. *)
Definition leave (reason : CloseReason) (a : SessionActor) : SessionActor :=
  let mb := sa_mailbox a in
  goto (Finalizing reason)
    (set_mailbox (mkMailbox (mb_items mb) (mb_capacity mb) false (mb_senders mb)) a).

(** A batch that is dropped: its replies are dropped with it. *)
Definition drop_message (a : SessionActor) (m : ActorMessage) : SessionActor :=
  match m with SendWithReply _ n => log_reply n None a | _ => a end.

(** The handler is called; [panics] when the call unwinds the loop. *)
Definition call_handler (panics : bool) (c : callback) (batch : list ActorMessage) (next : actor_phase)
    (a : SessionActor) : SessionActor :=
  let a := log_call c a in
  if panics then leave (CloseError "session handler panicked") (foldl drop_message a batch)
  else goto next a.

(** One message of a batch, before a terminal event. *)
Definition process `{Target} (now now' : Z) (panics : bool) (m : ActorMessage) (batch : list ActorMessage)
    (a : SessionActor) (t : Transport) : SessionActor * Transport :=
  let s := sa_session_id a in
  let next := Working batch false in
  match m with
  | InboundEvent (MessageReceived p) =>
      match packet_type (header p) with
      | Request =>
          if sa_inbound_registry a then
            let '(token, r) := register (message_id (header p)) (Some s) (biz_type (header p))
              REQUEST_LIFECYCLE_TIMEOUT now now' (tp_registry t) in
            let t := set_tp_registry r t in
            match token with
            | Some token =>
                (call_handler panics (OnRequest p (mkResponder token (biz_type (header p)) s)) batch next a, t)
            | None => (goto next a, t)
            end
          else (goto next a, t)
      | _ => (call_handler panics (OnMessage p) batch next a, t)
      end
  | InboundEvent (MessageSent i) => (call_handler panics (OnMessageSent i) batch next a, t)
  | InboundEvent (ConnectionClosed reason) => (goto (Working batch true) (close_with reason a), t)
  | InboundEvent (ErrorEvent e) => (call_handler panics (OnError e) batch next a, t)
  | InboundEvent (ConnectionEstablished _) => (goto next a, t)
  | Send p =>
      match capture_writer None t with
      | Done s => (goto (Enqueueing s p detached None batch) a, t)
      | _ => (goto next a, t)
      end
  | SendWithReply p n =>
      let '(t, c, res) := send_start (Some s) None t in
      match res with
      | Done s => (goto (Enqueueing s p c (Some n) batch) a, t)
      | Throw e => (goto next (log_reply n (Some (Throw e)) a), t)
      | Panic => (goto next (log_reply n (Some Panic) a), t)
      end
  end.

(** A message after a terminal event of its batch. *)
Definition skip (m : ActorMessage) (a : SessionActor) : SessionActor :=
  match m with
  | SendWithReply _ n => log_reply n (Some (Throw (connection_error "session closed" true))) a
  | _ => a
  end.

(** One step of the task; [None] while it waits. [take_cancel]: the choice of
    the mailbox [select!] when both arms are ready. *)
Definition actor_step `{Target} (now now' : Z) (panics take_cancel : bool) (a : SessionActor) (t : Transport)
    : option (SessionActor * Transport) :=
  match sa_phase a with
  | Starting => Some (call_handler panics (OnConnected (sa_connection_info a)) [] Waiting a, t)
  | Waiting =>
      let mb := sa_mailbox a in
      if sa_cancelled a && (take_cancel || bool_decide (mb_items mb = [] /\ mb_senders mb = true))
      then Some (leave (sa_close_reason a) a, t)
      else match mb_items mb with
      | [] => if mb_senders mb then None else Some (leave (sa_close_reason a) a, t)
      | items =>
          Some (goto (Working (take BATCH_SIZE items) false)
            (set_mailbox (mkMailbox (drop BATCH_SIZE items) (mb_capacity mb) (mb_receiver mb) (mb_senders mb)) a), t)
      end
  | Working [] true => Some (leave (sa_close_reason a) a, t)
  | Working [] false => Some (goto Waiting a, t)
  | Working (m :: batch) true => Some (goto (Working batch true) (skip m a), t)
  | Working (m :: batch) false => Some (process now now' panics m batch a t)
  | Enqueueing s p c reply batch =>
      let '(t, res) := enqueue_on s p c t in
      match reply, res with
      | None, _ => Some (goto (Working batch false) a, t)
      | Some n, Done _ => Some (goto (Confirming c n batch) a, t)
      | Some n, res => Some (goto (Working batch false) (log_reply n (Some res) a), t)
      end
  | Confirming c n batch =>
      match send_result c t with
      | Some res => Some (goto (Working batch false) (log_reply n (Some res) a), t)
      | None => None
      end
  | Finalizing reason => Some (goto Stopped (log_call (OnDisconnected reason) a), t)
  | Stopped => None
  end.
