(* ===== verification/ActorProps.v ===== *)
(** * What a session's handler and its callers see

    The actor of [session_actor.rs] interleaved with every other task: posts to
    its mailbox, cancellation, dropped handles, and any change of the
    transport. *)

From S2P Require Import Prelude Packet Errors Limits Stream Events Registry RegistryInv RegistryOps RegistryRun RegistryProps Writes Transport TransportProps Actor.

(** ** Schedules *)

Inductive actor_event :=
  | ActorStep (now now' : Z) (panics take_cancel : bool)
  | Post (m : ActorMessage)
  | CancelActor
  | HandlesDropped
  | OtherTasks (t : Transport).

(** The actor, its transport and what was posted so far. *)
Definition actor_act `{Target} (e : actor_event) (w : SessionActor * Transport * list ActorMessage)
    : SessionActor * Transport * list ActorMessage :=
  let '(a, t, posted) := w in
  match e with
  | ActorStep now now' panics take_cancel =>
      match actor_step now now' panics take_cancel a t with
      | Some (a, t) => (a, t, posted)
      | None => w
      end
  | Post m =>
      if mb_senders (sa_mailbox a) then
        match mb_try_send m (sa_mailbox a) with
        | Some mb => (set_mailbox mb a, t, posted ++ [m])
        | None => w
        end
      else w
  | CancelActor => (cancel a, t, posted)
  | HandlesDropped =>
      let mb := sa_mailbox a in
      (set_mailbox (mkMailbox (mb_items mb) (mb_capacity mb) (mb_receiver mb) false) a, t, posted)
  | OtherTasks t => (a, t, posted)
  end.

Definition actor_run `{Target} (es : list actor_event) (w : SessionActor * Transport * list ActorMessage) :=
  foldl (fun w e => actor_act e w) w es.

(** ** The story of a session *)

Definition terminal (m : ActorMessage) : option CloseReason :=
  match m with InboundEvent (ConnectionClosed r) => Some r | _ => None end.

Definition reply_id (m : ActorMessage) : option nat :=
  match m with SendWithReply _ n => Some n | _ => None end.
Definition reply_ids (ms : list ActorMessage) : list nat := omap reply_id ms.

(** The calls one message makes. A request reaches the handler only with a
    responder whose token was registered for it; an unregistrable one is
    dropped. *)
Definition callbacks_of (a : SessionActor) (m : ActorMessage) (cs : list callback) : Prop :=
  match m with
  | InboundEvent (MessageReceived p) =>
      match packet_type (header p) with
      | Request => cs = [] \/ sa_inbound_registry a = true /\ exists tok,
          cs = [OnRequest p (mkResponder tok (biz_type (header p)) (sa_session_id a))] /\
          token_key tok = inbound (Some (sa_session_id a)) (message_id (header p))
      | _ => cs = [OnMessage p]
      end
  | InboundEvent (MessageSent i) => cs = [OnMessageSent i]
  | InboundEvent (ErrorEvent e) => cs = [OnError e]
  | _ => cs = []
  end.

(** How the handling of messages ended, with the messages it cost. *)
Inductive ending :=
  | Running
  | ClosedBy (r : CloseReason) (skipped : list ActorMessage)
  | Panicked (dropped : list ActorMessage).

Definition consumed (en : ending) : list ActorMessage :=
  match en with
  | Running => []
  | ClosedBy r skipped => InboundEvent (ConnectionClosed r) :: skipped
  | Panicked dropped => dropped
  end.

Definition refused (en : ending) : list (nat * option (exec TransportError unit)) :=
  match en with
  | Running => []
  | ClosedBy _ skipped =>
      (fun n => (n, Some (Throw (connection_error "session closed" true)))) <$> reply_ids skipped
  | Panicked dropped => (fun n => (n, None)) <$> reply_ids dropped
  end.

Definition reason_of (en : ending) : CloseReason :=
  match en with
  | Running => Normal
  | ClosedBy r _ => r
  | Panicked _ => CloseError "session handler panicked"
  end.

Definition batch_of (ph : actor_phase) : list ActorMessage :=
  match ph with Working b _ | Enqueueing _ _ _ _ b | Confirming _ _ b => b | _ => [] end.
Definition in_progress (ph : actor_phase) : list nat :=
  match ph with Enqueueing _ _ _ (Some n) _ | Confirming _ n _ => [n] | _ => [] end.
Definition farewell (ph : actor_phase) (en : ending) : list callback :=
  match ph with Stopped => [OnDisconnected (reason_of en)] | _ => [] end.

Definition phase_ok (a : SessionActor) (en : ending) : Prop :=
  match sa_phase a with
  | Starting => False
  | Working _ true => (exists sk, en = ClosedBy (sa_close_reason a) sk)
  | Finalizing reason => reason = reason_of en
  | Stopped => True
  | _ => en = Running /\ sa_close_reason a = Normal
  end.

Record story (posted : list ActorMessage) (a : SessionActor) (before : list ActorMessage)
    (css : list (list callback)) (en : ending)
    (answered : list (nat * option (exec TransportError unit))) : Prop := {
  st_posted : posted = before ++ consumed en ++ batch_of (sa_phase a) ++ mb_items (sa_mailbox a);
  st_css : Forall2 (callbacks_of a) before css;
  st_open : Forall (fun m => terminal m = None) before;
  st_calls : sa_calls a = OnConnected (sa_connection_info a) :: concat css ++ farewell (sa_phase a) en;
  st_replies : sa_replies a = answered ++ refused en;
  st_answered : answered.*1 ++ in_progress (sa_phase a) = reply_ids before;
  st_some : Forall (fun x => is_Some x.2) answered;
  st_phase : phase_ok a en
}.

Definition fresh_actor (posted : list ActorMessage) (a : SessionActor) : Prop :=
  sa_phase a = Starting /\ sa_calls a = [] /\ sa_replies a = [] /\ sa_close_reason a = Normal /\
  posted = mb_items (sa_mailbox a).

Definition told (posted : list ActorMessage) (a : SessionActor) : Prop :=
  fresh_actor posted a \/ exists before css en answered, story posted a before css en answered.

(** ** Every step keeps the story *)

Lemma register_token `{Target} rid sid biz timeout now now' r tok r' :
  register rid sid biz timeout now now' r = (Some tok, r') -> token_key tok = inbound sid rid.
Proof.
  unfold register, register_impl. intros H0. destruct (reg_resolve _ _) as [rt|]; [|done].
  destruct (reg_generation r) as [g r1]. destruct (reg_publish _ _) as [ins r2]. cbn [negb] in H0.
  destruct ins; [|done]. cbn [negb] in H0. destruct rt as [l|].
  - destruct (negb _); [done|]. by injection H0 as <- _.
  - by injection H0 as <- _.
Qed.

Lemma reply_ids_app l k : reply_ids (l ++ k) = reply_ids l ++ reply_ids k.
Proof. apply omap_app. Qed.

(** The actor seen through its constant fields. *)
Lemma story_ext posted a a' before css en answered :
  story posted a before css en answered ->
  sa_session_id a' = sa_session_id a -> sa_connection_info a' = sa_connection_info a ->
  sa_inbound_registry a' = sa_inbound_registry a -> sa_phase a' = sa_phase a ->
  sa_close_reason a' = sa_close_reason a -> sa_calls a' = sa_calls a -> sa_replies a' = sa_replies a ->
  mb_items (sa_mailbox a') = mb_items (sa_mailbox a) -> story posted a' before css en answered.
Proof.
  intros [] Hs Hi Hr Hp Hc Hcs Hrs Hm. split; rewrite ?Hp, ?Hm, ?Hcs, ?Hrs, ?Hi; try done.
  - eapply Forall2_impl; [done|]. intros m cs. unfold callbacks_of. by rewrite Hr, Hs.
  - unfold phase_ok in *. by rewrite Hp, Hc.
Qed.

(** The next message of the batch is handled: its calls and its replies. *)
Lemma story_handles posted a a' before css answered m batch cs rs :
  story posted a before css Running answered -> sa_phase a = Working (m :: batch) false ->
  terminal m = None -> callbacks_of a m cs ->
  sa_session_id a' = sa_session_id a -> sa_connection_info a' = sa_connection_info a ->
  sa_inbound_registry a' = sa_inbound_registry a -> sa_mailbox a' = sa_mailbox a ->
  sa_close_reason a' = sa_close_reason a -> sa_calls a' = sa_calls a ++ cs ->
  sa_replies a' = sa_replies a ++ rs -> batch_of (sa_phase a') = batch ->
  rs.*1 ++ in_progress (sa_phase a') = reply_ids [m] -> Forall (fun x => is_Some x.2) rs ->
  phase_ok a' Running -> sa_phase a' <> Stopped ->
  story posted a' (before ++ [m]) (css ++ [cs]) Running (answered ++ rs).
Proof.
  intros [] Hph Hterm Hcs Hs Hi Hr Hm Hc Hcalls Hreps Hb Hip Hsome Hok Hst.
  unfold phase_ok in st_phase0. rewrite Hph in *. cbn in *.
  split.
  - rewrite Hb, Hm. rewrite st_posted0. cbn. by rewrite <- app_assoc.
  - apply Forall2_app; [|constructor; [|constructor]].
    + eapply Forall2_impl; [done|]. intros x y. unfold callbacks_of. by rewrite Hr, Hs.
    + revert Hcs. unfold callbacks_of. by rewrite Hr, Hs.
  - apply Forall_app_2; [done|by repeat constructor].
  - rewrite Hcalls, st_calls0, Hi. cbn. rewrite app_nil_r. rewrite concat_app. cbn. rewrite app_nil_r.
    replace (farewell (sa_phase a') Running) with (@nil callback) by (by destruct (sa_phase a')).
    by rewrite app_nil_r.
  - rewrite Hreps, st_replies0. cbn. by rewrite !app_nil_r.
  - rewrite fmap_app, <- app_assoc, Hip, reply_ids_app. rewrite app_nil_r in st_answered0. by rewrite st_answered0.
  - by apply Forall_app_2.
  - done.
Qed.

Lemma drop_messages batch a : let a' := foldl drop_message a batch in
  sa_session_id a' = sa_session_id a /\ sa_connection_info a' = sa_connection_info a /\
  sa_inbound_registry a' = sa_inbound_registry a /\ sa_mailbox a' = sa_mailbox a /\
  sa_calls a' = sa_calls a /\ sa_replies a' = sa_replies a ++ ((fun n => (n, None)) <$> reply_ids batch).
Proof.
  cbv zeta. revert a. induction batch as [|m batch IH]; intros a; [cbn; by rewrite app_nil_r|].
  cbn [foldl]. destruct (IH (drop_message a m)) as (-> & -> & -> & -> & -> & ->).
  destruct m; cbn; rewrite <- ?app_assoc; done.
Qed.

(** A call of the handler for the next message, whether it returns or unwinds. *)
Lemma story_calls posted a before css answered m batch c panics :
  story posted a before css Running answered -> sa_phase a = Working (m :: batch) false ->
  terminal m = None -> reply_id m = None -> callbacks_of a m [c] ->
  told posted (call_handler panics c batch (Working batch false) a).
Proof.
  intros Hst Hph Hterm Hrid Hcs. right.
  assert (Hnext : story posted (goto (Working batch false) (log_call c a))
    (before ++ [m]) (css ++ [[c]]) Running (answered ++ [])).
  { eapply story_handles; try done; cbn; rewrite ?app_nil_r, ?Hrid; try done.
    destruct Hst. unfold phase_ok in *. cbn. by rewrite Hph in *. }
  unfold call_handler. destruct panics; [|eauto].
  exists (before ++ [m]), (css ++ [[c]]), (Panicked batch), (answered ++ []).
  destruct (drop_messages batch (log_call c a)) as (Hs & Hi & Hr & Hm & Hcl & Hrs). cbv zeta in *.
  destruct Hnext. cbn in *. split; cbn; rewrite ?Hm, ?Hcl, ?Hrs, ?Hi; cbn; try done.
  - eapply Forall2_impl; [done|]. intros x y. unfold callbacks_of. cbn. by rewrite Hr, Hs.
  - by rewrite st_replies0, app_nil_r.
Qed.

(** A message that reaches neither the handler nor, yet, a caller. *)
Lemma story_passes posted a before css answered m batch ph rs :
  story posted a before css Running answered -> sa_phase a = Working (m :: batch) false ->
  terminal m = None -> callbacks_of a m [] -> batch_of ph = batch ->
  rs.*1 ++ in_progress ph = reply_ids [m] -> Forall (fun x => is_Some x.2) rs ->
  match ph with Working _ false | Enqueueing _ _ _ _ _ | Confirming _ _ _ => True | _ => False end ->
  told posted (goto ph (foldl (fun a x => log_reply x.1 x.2 a) a rs)).
Proof.
  intros Hst Hph Hterm Hcs Hb Hip Hsome Hshape. right.
  exists (before ++ [m]), (css ++ [[]]), Running, (answered ++ rs).
  assert (Hlog : forall rs a, let a' := foldl (fun a x => log_reply x.1 x.2 a) a rs in
    sa_session_id a' = sa_session_id a /\ sa_connection_info a' = sa_connection_info a /\
    sa_inbound_registry a' = sa_inbound_registry a /\ sa_mailbox a' = sa_mailbox a /\
    sa_close_reason a' = sa_close_reason a /\ sa_calls a' = sa_calls a /\ sa_replies a' = sa_replies a ++ rs).
  { clear. induction rs as [|[n r] rs IH]; intros a; [cbn; by rewrite app_nil_r|].
    cbv zeta in *. cbn [foldl fst snd]. destruct (IH (log_reply n r a)) as (-> & -> & -> & -> & -> & -> & ->).
    cbn. by rewrite <- app_assoc. }
  destruct (Hlog rs a) as (Hs & Hi & Hr & Hm & Hc & Hcl & Hrs). cbv zeta in *.
  assert (Hnormal : sa_close_reason a = Normal).
  { destruct Hst. unfold phase_ok in *. rewrite Hph in *. by destruct st_phase0. }
  eapply story_handles; try done; cbn; rewrite ?app_nil_r; try done.
  - unfold phase_ok. cbn. rewrite Hc. destruct ph as [| |b []| | | |]; done.
  - by destruct ph as [| |b []| | | |].
Qed.

Section Steps.
Context `{T : Target}.

Lemma process_told now now' panics m batch posted a t before css answered :
  story posted a before css Running answered -> sa_phase a = Working (m :: batch) false ->
  told posted (process now now' panics m batch a t).1.
Proof.
  intros Hst Hph. pose proof (fun rs => story_passes posted a before css answered m batch (Working batch false) rs Hst Hph) as Hnext.
  destruct m as [[info|reason|p|i|e]|p|p n]; cbn [process].
  - by apply (Hnext []).
  - right. exists before, css, (ClosedBy reason []), answered. destruct Hst. unfold phase_ok in *.
    rewrite Hph in *. cbn in *. split; cbn; rewrite ?app_nil_r in *; try done. unfold phase_ok. cbn. eauto.
  - destruct (packet_type (header p)) eqn:Hpt; cbn [fst];
      try (eapply story_calls; [done|done|done|done|cbn; by rewrite Hpt]).
    destruct (sa_inbound_registry a) eqn:Hreg; [|apply (Hnext []); cbn; rewrite ?Hpt; auto].
    destruct (register _ _ _ _ _ _ _) as [[tok|] r] eqn:Hr; cbn [fst]; [|apply (Hnext []); cbn; rewrite ?Hpt; auto].
    eapply story_calls; try done. cbn. rewrite Hpt. right. split; [done|]. exists tok.
    split; [done|]. by eapply register_token.
  - by eapply story_calls.
  - by eapply story_calls.
  - destruct (capture_writer None t) as [s|e|]; cbn [fst].
    + by apply (story_passes _ _ _ _ _ _ _ (Enqueueing s p detached None batch) [] Hst Hph).
    + by apply (Hnext []).
    + by apply (Hnext []).
  - destruct (send_start _ _ _) as [[t1 c] [s|e|]]; cbn [fst].
    + by apply (story_passes _ _ _ _ _ _ _ (Enqueueing s p c (Some n) batch) [] Hst Hph).
    + by apply (Hnext [(n, Some (Throw e))]); repeat constructor.
    + by apply (Hnext [(n, Some Panic)]); repeat constructor.
Qed.

(** Steps that only move the actor on: nothing is called, nothing answered. *)
Lemma story_moves posted a a' before css en answered :
  story posted a before css en answered ->
  sa_session_id a' = sa_session_id a -> sa_connection_info a' = sa_connection_info a ->
  sa_inbound_registry a' = sa_inbound_registry a -> sa_calls a' = sa_calls a ->
  sa_replies a' = sa_replies a -> in_progress (sa_phase a') = in_progress (sa_phase a) ->
  batch_of (sa_phase a') ++ mb_items (sa_mailbox a') = batch_of (sa_phase a) ++ mb_items (sa_mailbox a) ->
  farewell (sa_phase a') en = farewell (sa_phase a) en -> phase_ok a' en ->
  story posted a' before css en answered.
Proof.
  intros [] Hs Hi Hr Hcs Hrs Hip Hb Hf Hok. split; rewrite ?Hcs, ?Hrs, ?Hi, ?Hip, ?Hb, ?Hf; try done.
  eapply Forall2_impl; [done|]. intros m cs. unfold callbacks_of. by rewrite Hr, Hs.
Qed.

(** The caller of the command in progress is answered. *)
Lemma story_replies posted a before css answered n r batch :
  story posted a before css Running answered -> in_progress (sa_phase a) = [n] ->
  batch_of (sa_phase a) = batch -> sa_close_reason a = Normal -> farewell (sa_phase a) Running = [] ->
  told posted (goto (Working batch false) (log_reply n (Some r) a)).
Proof.
  intros [] Hip Hb Hn Hf. right. exists before, css, Running, (answered ++ [(n, Some r)]).
  rewrite Hip, Hb, Hf in *. split; cbn; rewrite ?app_nil_r in *; try done.
  - by rewrite st_replies0.
  - by rewrite fmap_app.
  - apply Forall_app_2; [done|by repeat constructor].
Qed.

Lemma step_told now now' panics take_cancel a t posted a' t' :
  told posted a -> actor_step now now' panics take_cancel a t = Some (a', t') -> told posted a'.
Proof.
  intros [(Hph & Hcs & Hrs & Hn & Hp)|(before & css & en & answered & Hst)] Hstep.
  { unfold actor_step in Hstep. rewrite Hph in Hstep. injection Hstep as <- _. right.
    unfold call_handler. destruct panics.
    - exists [], [], (Panicked []), []. split; cbn; rewrite ?Hcs, ?Hrs; done.
    - exists [], [], Running, []. split; cbn; rewrite ?Hcs, ?Hrs; done. }
  pose proof (st_phase _ _ _ _ _ _ Hst) as Hok. unfold actor_step, phase_ok in *.
  assert (Hmoves : forall b, story posted b before css en answered -> told posted b) by (right; eauto 6).
  destruct (sa_phase a) as [| |[|m batch] []|s p c reply batch|c n batch|reason|] eqn:Hph; try done.
  - destruct Hok as [-> Hn].
    assert (Hleave : told posted (leave (sa_close_reason a) a)).
    { apply Hmoves. eapply story_moves; rewrite ?Hph; cbn; try done. }
    destruct (sa_cancelled a && _); [by injection Hstep as <- _|].
    destruct (mb_items (sa_mailbox a)) as [|m items] eqn:Hitems.
    + destruct (mb_senders (sa_mailbox a)); [done|by injection Hstep as <- _].
    + injection Hstep as <- _. apply Hmoves. eapply story_moves; rewrite ?Hph; cbn [sa_phase goto]; try done.
      change (take BATCH_SIZE (m :: items) ++ drop BATCH_SIZE (m :: items) = [] ++ mb_items (sa_mailbox a)). by rewrite take_drop, Hitems.
  - injection Hstep as <- _. apply Hmoves. destruct Hok as [sk ->].
    eapply story_moves; rewrite ?Hph; cbn; try done.
  - injection Hstep as <- _. apply Hmoves. destruct Hok as [-> Hn].
    eapply story_moves; rewrite ?Hph; cbn; try done.
  - injection Hstep as <- _. destruct Hok as [sk ->]. right.
    exists before, css, (ClosedBy (sa_close_reason a) (sk ++ [m])), answered.
    destruct Hst. unfold phase_ok in *. rewrite Hph in *. cbn in *. rewrite app_nil_r in st_calls0, st_answered0.
    destruct m as [e|p|p n]; split; cbn; rewrite ?reply_ids_app, ?fmap_app; cbn; rewrite ?app_nil_r, <- ?app_assoc;
      try done; try (unfold phase_ok; cbn; by eauto).
    by rewrite st_replies0, <- app_assoc.
  - destruct Hok as [-> _]. pose proof (process_told now now' panics m batch posted a t before css answered Hst Hph).
    destruct (process _ _ _ _ _ _ _) as [a1 t1]. by injection Hstep as <- _.
  - destruct Hok as [-> Hn]. destruct (enqueue_on s p c t) as [t1 res].
    destruct reply as [n|]; [destruct res as [u|e|]|]; injection Hstep as <- _.
    + apply Hmoves. eapply story_moves; rewrite ?Hph; cbn; try done.
    + eapply (story_replies _ _ _ _ _ _ (Throw e)); [done|by rewrite Hph|by rewrite Hph|done|by rewrite Hph].
    + eapply (story_replies _ _ _ _ _ _ Panic); [done|by rewrite Hph|by rewrite Hph|done|by rewrite Hph].
    + apply Hmoves. eapply story_moves; rewrite ?Hph; cbn; try done.
  - destruct Hok as [-> Hn]. destruct (send_result c t) as [res|]; [|done]. injection Hstep as <- _.
    eapply story_replies; [done|by rewrite Hph|by rewrite Hph|done|by rewrite Hph].
  - injection Hstep as <- _. subst reason. right. exists before, css, en, answered.
    destruct Hst. unfold phase_ok in *. rewrite Hph in *. split; cbn in *; rewrite ?app_nil_r in *; try done.
    by rewrite st_calls0.
Qed.

Lemma act_told e a t posted : told posted a ->
  told (actor_act e (a, t, posted)).2 (actor_act e (a, t, posted)).1.1.
Proof.
  intros Ht. destruct e as [now now' panics tc|m| | |t']; cbn [actor_act].
  - destruct (actor_step now now' panics tc a t) as [[a' t']|] eqn:Hs; [|done]. by eapply step_told.
  - destruct (mb_senders (sa_mailbox a)); [|done]. unfold mb_try_send.
    destruct (mb_receiver (sa_mailbox a) && _); [|done]. cbn [fst snd].
    destruct Ht as [(? & ? & ? & ? & ->)|(before & css & en & answered & [])]; [by left|].
    right. exists before, css, en, answered. split; cbn; try done. by rewrite st_posted0, <- !app_assoc.
  - destruct Ht as [?|(before & css & en & answered & Hst)]; [by left|right].
    exists before, css, en, answered. by eapply story_ext.
  - destruct Ht as [?|(before & css & en & answered & Hst)]; [by left|right].
    exists before, css, en, answered. by eapply story_ext.
  - done.
Qed.

Lemma run_told es a t posted : told posted a ->
  told (actor_run es (a, t, posted)).2 (actor_run es (a, t, posted)).1.1.
Proof.
  revert a t posted. induction es as [|e es IH]; intros a t posted Ht; [done|]. cbn [actor_run foldl].
  pose proof (act_told e a t posted Ht) as H. destruct (actor_act e (a, t, posted)) as [[a1 t1] p1]. by apply IH.
Qed.
End Steps.

(** ** What an actor is never changes *)

Section Identity.
Context `{T : Target}.

Definition identity (a : SessionActor) : SessionId * ConnectionInfo * bool :=
  (sa_session_id a, sa_connection_info a, sa_inbound_registry a).

Lemma call_handler_identity panics c batch next a :
  identity (call_handler panics c batch next a) = identity a.
Proof.
  unfold call_handler. destruct panics; [|done].
  destruct (drop_messages batch (log_call c a)) as (Hs & Hi & Hr & _). cbv zeta in *.
  unfold identity. cbn in *. by rewrite Hs, Hi, Hr.
Qed.

Lemma process_identity now now' panics m batch a t :
  identity (process now now' panics m batch a t).1 = identity a.
Proof.
  destruct m as [[info|reason|p|i|e]|p|p n]; cbn [process]; try done; try apply call_handler_identity.
  - destruct (packet_type (header p)); cbn [fst]; try apply call_handler_identity.
    destruct (sa_inbound_registry a); [|done].
    destruct (register _ _ _ _ _ _ _) as [[tok|] r]; [|done]. apply call_handler_identity.
  - by destruct (capture_writer None t).
  - by destruct (send_start _ _ _) as [[t1 c] [s|e|]].
Qed.

Lemma step_identity now now' panics take_cancel a t a' t' :
  actor_step now now' panics take_cancel a t = Some (a', t') -> identity a' = identity a.
Proof.
  unfold actor_step. intros H.
  destruct (sa_phase a) as [| |[|m batch] []|s p c reply batch|c n batch|reason|] eqn:Hph; try done; try by injection H as <- _.
  - injection H as <- _. apply call_handler_identity.
  - destruct (sa_cancelled a && _); [by injection H as <- _|].
    destruct (mb_items (sa_mailbox a)); [destruct (mb_senders (sa_mailbox a)); [done|]|]; by injection H as <- _.
  - injection H as <- _. by destruct m.
  - pose proof (process_identity now now' panics m batch a t) as Hp.
    destruct (process _ _ _ _ _ _ _) as [a1 t1]. by injection H as <- _.
  - destruct (enqueue_on s p c t) as [t1 res]. destruct reply as [n|]; [destruct res|]; by injection H as <- _.
  - destruct (send_result c t); [by injection H as <- _|done].
Qed.

Lemma act_identity e a t posted : identity (actor_act e (a, t, posted)).1.1 = identity a.
Proof.
  destruct e as [now now' panics tc|m| | |t']; cbn [actor_act]; try done.
  - destruct (actor_step now now' panics tc a t) as [[a' t']|] eqn:Hs; [|done]. by eapply step_identity.
  - destruct (mb_senders (sa_mailbox a)); [|done]. by destruct (mb_try_send m (sa_mailbox a)).
Qed.

Lemma run_identity es a t posted : identity (actor_run es (a, t, posted)).1.1 = identity a.
Proof.
  revert a t posted. induction es as [|e es IH]; intros a t posted; [done|]. cbn [actor_run foldl].
  pose proof (act_identity e a t posted) as H. destruct (actor_act e (a, t, posted)) as [[a1 t1] p1].
  rewrite <- H. apply IH.
Qed.

(** The only waits of an actor. *)
Lemma actor_waits now now' panics take_cancel a t : actor_step now now' panics take_cancel a t = None ->
  sa_phase a = Stopped \/
  (sa_phase a = Waiting /\ mb_items (sa_mailbox a) = [] /\ mb_senders (sa_mailbox a) = true /\ sa_cancelled a = false) \/
  exists c n batch, sa_phase a = Confirming c n batch /\ send_result c t = None.
Proof.
  unfold actor_step. intros H.
  destruct (sa_phase a) as [| |[|m batch] []|s p c reply batch|c n batch|reason|] eqn:Hph; try done; auto.
  - right; left. destruct (mb_items (sa_mailbox a)) as [|m items]; [|by destruct (sa_cancelled a && _)].
    destruct (mb_senders (sa_mailbox a)); [|by destruct (sa_cancelled a && _)].
    rewrite bool_decide_true, orb_true_r, andb_true_r in H by done. by destruct (sa_cancelled a).
  - destruct (enqueue_on s p c t) as [t1 res]. destruct reply; [by destruct res|done].
  - right; right. destruct (send_result c t) eqn:Hr; [done|by exists c, n, batch].
Qed.
End Identity.

(** C20: a handler sees one session, in order, with one end. However the actor
    is interleaved with posts, cancellation, dropped handles, panics of the
    handler and changes of the transport: [on_connected] comes first; then the
    calls of the handled messages, in the order they were posted and each once,
    none after a close; [on_disconnected] comes exactly once, last, with the
    reason of the close, of a panic, or [Normal]. Every message posted is
    handled, given up with the end, in the current batch, or still in the
    mailbox. Every command taken from the mailbox is answered once and in order:
    those before the end by their write, those behind a close in its batch by
    ["session closed"], those behind a panic by a dropped reply. The actor waits
    only for its mailbox and for the receipt of a write. *)
Theorem handler_sees_one_session `{T : Target} es s info reg capacity t :
  let '(a, t', posted) := actor_run es (create_session_actor s info reg capacity, t, []) in
  (sa_phase a = Starting /\ sa_calls a = [] /\ sa_replies a = [] \/
   exists before css en answered,
     posted = before ++ consumed en ++ batch_of (sa_phase a) ++ mb_items (sa_mailbox a) /\
     Forall2 (callbacks_of a) before css /\ Forall (fun m => terminal m = None) before /\
     sa_calls a = OnConnected info :: concat css ++ farewell (sa_phase a) en /\
     sa_replies a = answered ++ refused en /\
     answered.*1 ++ in_progress (sa_phase a) = reply_ids before /\
     Forall (fun x => is_Some x.2) answered /\ phase_ok a en) /\
  sa_session_id a = s /\ sa_inbound_registry a = reg /\
  forall now now' panics take_cancel, actor_step now now' panics take_cancel a t' = None ->
    sa_phase a = Stopped \/
    (sa_phase a = Waiting /\ mb_items (sa_mailbox a) = [] /\ mb_senders (sa_mailbox a) = true /\
     sa_cancelled a = false) \/
    exists c n batch, sa_phase a = Confirming c n batch /\ send_result c t' = None.
Proof.
  pose proof (run_told es (create_session_actor s info reg capacity) t [] ltac:(by left)) as Ht.
  pose proof (run_identity es (create_session_actor s info reg capacity) t []) as Hid.
  destruct (actor_run es _) as [[a t'] posted]. cbn [fst snd] in *. injection Hid as Hs Hi Hr.
  split; [|split; [done|split; [done|intros *; apply actor_waits]]].
  destruct Ht as [(? & ? & ? & _)|(before & css & en & answered & Hst)]; [by left|right].
  exists before, css, en, answered. destruct Hst. cbn in Hi. rewrite <- Hi. by split_and!.
Qed.

(** A session that is closed between two commands of one batch. *)
Example closed_session :
  let w := actor_run (H := Target64)
    ([Post (InboundEvent (MessageReceived (one_way 4 [1]))); Post (InboundEvent (ConnectionClosed Forced));
      Post (SendWithReply (one_way 5 []) 8); CancelActor] ++ replicate 8 (ActorStep 0 0 false false))
    (create_session_actor 7 (mkInfo 7 "a" "b" "tcp" CsConnected 0 None) true 4, with_context, []) in
  sa_calls w.1.1 = [OnConnected (mkInfo 7 "a" "b" "tcp" CsConnected 0 None); OnMessage (one_way 4 [1]);
    OnDisconnected Forced] /\
  sa_replies w.1.1 = [(8%nat, Some (Throw (Connection "session closed" true)))] /\ sa_phase w.1.1 = Stopped.
Proof. vm_compute. repeat split. Qed.

(** ** Responding *)

Lemma compress_data_total `{C : Codecs} d c : compress_data d c <> Panic.
Proof. unfold compress_data, compression_result. by repeat case_match. Qed.

Lemma apply_over_shape `{C : Codecs} o p d :
  match apply_over o p d with
  | Done q => packet_type (header q) = packet_type (header p) /\
      message_id (header q) = message_id (header p) /\ biz_type (header q) = default d (so_biz_type o)
  | Throw _ => exists c, so_compression o = Some c /\ c <> CNone
  | Panic => False
  end.
Proof.
  unfold apply_over. cbv zeta. set (p1 := match so_ext_header o with Some e => _ | None => _ end).
  assert (Hp1 : packet_type (header p1) = packet_type (header p) /\
    message_id (header p1) = message_id (header p) /\ biz_type (header p1) = default d (so_biz_type o))
    by (unfold p1; by destruct (so_ext_header o)).
  clearbody p1.
  destruct (so_compression o) as [[]|]; try done; unfold compress_payload; cbn -[compress_data];
    (case_decide; [done|]); pose proof (compress_data_total (payload p1)) as Ht;
    (destruct (compress_data _ _) eqn:Hc; cbn; [done|eexists; split; [reflexivity|discriminate]|by eapply Ht]).
Qed.

Lemma phase_other tok r r' : entries r' = entries r -> phase tok r' = phase tok r.
Proof. unfold phase. by intros ->. Qed.

Lemma phase_is tok r e n : entries r !! token_key tok = Some e -> e_generation e = t_generation tok ->
  (if decide (entry_state e = Pending) then 2%nat else if decide (entry_state e = Responding) then 1%nat else 0%nat) = n ->
  phase tok r = n.
Proof. intros He Hg <-. unfold phase. by rewrite He, decide_True. Qed.

Lemma phase_gone tok r : (forall e, entries r !! token_key tok = Some e -> e_generation e <> t_generation tok) ->
  phase tok r = 0%nat.
Proof. intros H. unfold phase. destruct (entries r !! token_key tok) as [e|]; [|done]. by rewrite decide_False by eauto. Qed.

(** A request abandoned by its token. *)
Lemma phase_abort `{T : Target} tok r : wf ∅ r ->
  let r' := (abort_request_token tok r).2 in
  (phase tok r = 2%nat -> phase tok r' = 0%nat) /\ (phase tok r <> 2%nat -> r' = r) /\
  forall k, k <> token_key tok -> entries r' !! k = entries r !! k.
Proof.
  intros Hwf. pose proof (abort_request_token_spec ∅ tok r Hwf) as Hs. cbv zeta.
  destruct (abort_request_token tok r) as [b r']. cbn [snd].
  destruct (entries r !! token_key tok) as [e|] eqn:He; [|by destruct Hs as [_ ->]; rewrite phase_gone by congruence].
  case_bool_decide as Hg; [case_bool_decide as Hp|]; cbn in Hs; destruct Hs as [_ Hs]; [|subst r'..].
  - rewrite (phase_is tok r e 2 He Hg) by (by rewrite decide_True). split_and!; [|done|].
    + intros _. by eapply phase_retired.
    + intros k Hk. rewrite (ret_entries _ _ _ _ Hs). by apply lookup_delete_ne.
  - split_and!; [|done|done]. intros H2. exfalso. revert H2. unfold phase. rewrite He. by repeat case_decide.
  - rewrite phase_gone by congruence. done.
Qed.

(** A respond settled by its claim. *)
Lemma phase_finish `{T : Target} tok ok r : wf ∅ r ->
  let r' := (finish_respond tok ok r).2 in
  (phase tok r = 1%nat -> phase tok r' = 0%nat) /\ (phase tok r <> 1%nat -> r' = r) /\
  forall k, k <> token_key tok -> entries r' !! k = entries r !! k.
Proof.
  intros Hwf. pose proof (finish_respond_spec ∅ tok ok r Hwf) as Hs. cbv zeta.
  destruct (finish_respond tok ok r) as [b r']. cbn [snd].
  destruct (entries r !! token_key tok) as [e|] eqn:He; [|by destruct Hs as [_ ->]; rewrite phase_gone by congruence].
  case_bool_decide as Hg; [case_bool_decide as Hp|]; cbn in Hs; destruct Hs as [_ Hs]; [|subst r'..].
  - rewrite (phase_is tok r e 1 He Hg) by (by rewrite Hp). split_and!; [|done|].
    + intros _. by eapply phase_retired.
    + intros k Hk. rewrite (ret_entries _ _ _ _ Hs). by apply lookup_delete_ne.
  - split_and!; [|done|done]. intros H2. exfalso. revert H2. unfold phase. rewrite He. by repeat case_decide.
  - rewrite phase_gone by congruence. done.
Qed.

Lemma phase_begin `{T : Target} tok r : wf ∅ r -> t_direction tok = Inbound ->
  let '(res, r') := begin_respond tok r in
  match res with
  | Updated => phase tok r = 2%nat /\ phase tok r' = 1%nat /\
      (forall k, k <> token_key tok -> entries r' !! k = entries r !! k) /\ wf ∅ r'
  | _ => phase tok r <> 2%nat /\ entries r' = entries r
  end.
Proof.
  intros Hwf Hd. pose proof (begin_respond_spec ∅ tok r Hwf Hd) as Hs.
  destruct (begin_respond tok r) as [res r'].
  destruct (entries r !! token_key tok) as [e|] eqn:He;
    [|destruct Hs as [-> Hq]; rewrite phase_gone by congruence; split; [done|apply Hq]].
  case_bool_decide as Hg; [case_bool_decide as Hp|]; destruct Hs as [-> Hs].
  - rewrite (phase_is tok r e 2 He Hg) by (by rewrite decide_True).
    split_and!; [done| | |by eapply wf_claimed]; destruct Hs as [_ _ _ ->].
    + eapply phase_is; [apply lookup_insert_eq|done|done].
    + intros k Hk. by apply lookup_insert_ne.
  - split; [|apply Hs]. unfold phase. rewrite He. by repeat case_decide.
  - rewrite phase_gone by congruence. split; [done|apply Hs].
Qed.

(** What can become of a claimed respond. *)
Lemma respond_settles `{T : Target} rp t : wf ∅ (tp_registry t) ->
  let tok := rp_token rp in let claim := RespondClaim_new tok in
  phase tok (tp_registry (respond_cancelled rp claim t)) = 0%nat /\
  let '(t3, c, res) := respond_send rp claim t in
  match res with
  | Done s => s = rp_session_id rp /\ tp_slot t = Some s /\ wc_claim c = Some claim
  | Throw _ => tp_slot t <> Some (rp_session_id rp) /\ phase tok (tp_registry t3) <> 1%nat
  | Panic => False
  end.
Proof.
  intros Hwf. cbv zeta. set (tok := rp_token rp).
  destruct (phase_finish tok false _ Hwf) as (H1 & Hn & _). cbv zeta in *. split.
  - unfold respond_cancelled, responder_drop, claim_drop. cbn. fold tok.
    pose proof (finish_respond_wf ∅ tok false _ Hwf) as Hwf'.
    destruct (phase_abort tok _ Hwf') as (H2 & Hn' & _). cbv zeta in *.
    assert (H3 : phase tok (finish_respond tok false (tp_registry t)).2 <> 1%nat).
    { destruct (decide (phase tok (tp_registry t) = 1%nat)) as [E|E]; [by rewrite H1|by rewrite Hn]. }
    destruct (decide (phase tok (finish_respond tok false (tp_registry t)).2 = 2%nat)) as [E|E]; [by apply H2|].
    rewrite Hn' by done. revert H3 E. unfold phase. by repeat case_match.
  - unfold respond_send. pose proof (send_start_spec (Some (rp_session_id rp)) (Some (RespondClaim_new tok)) t) as H.
    destruct (send_start _ _ t) as [[t3 c] [s|e|]]; [| |by destruct H as (_ & _ & [])].
    + destruct H as (-> & _ & Hs & He & _). split_and!; [by apply He|done|done].
    + destruct H as (_ & _ & Hs & _ & ->). split; [by apply Hs|]. unfold claim_drop. cbn.
      destruct (decide (phase tok (tp_registry t) = 1%nat)) as [E|E]; [by rewrite H1|by rewrite Hn].
Qed.

(** C21: a responder answers at most once and never strands its request. A
    respond goes to a packet, the one response of the request, under its claim,
    exactly when the request was still waiting; a failed compression ends the
    request at once; otherwise it reports [AlreadyHandled] and changes no
    request. Wherever the respond is dropped before its send, the request is
    over; a send refused because the session was replaced ends it too, and one
    that is not refused writes on the request's own session. A dropped responder
    leaves no waiting request. No other request is ever touched. *)
Theorem responder_never_strands_its_request `{T : Target} `{C : Codecs} data options rp t
    (Hwf : wf ∅ (tp_registry t)) (Hdir : t_direction (rp_token rp) = Inbound) :
  let tok := rp_token rp in
  let '(t1, st) := respond_claim data options rp t in
  (forall k, k <> token_key tok -> entries (tp_registry t1) !! k = entries (tp_registry t) !! k) /\
  phase tok (tp_registry (responder_drop rp t)) <> 2%nat /\
  match st with
  | Responded (Done o) => o = AlreadyHandled /\ phase tok (tp_registry t) <> 2%nat /\
      entries (tp_registry t1) = entries (tp_registry t)
  | Responded (Throw _) => phase tok (tp_registry t) = 2%nat /\ phase tok (tp_registry t1) = 0%nat /\
      exists c, so_compression options = Some c /\ c <> CNone
  | Responded Panic => False
  | ToSend p claim =>
      phase tok (tp_registry t) = 2%nat /\ phase tok (tp_registry t1) = 1%nat /\
      packet_type (header p) = Response /\ message_id (header p) = t_request_id tok /\
      biz_type (header p) = default (rp_biz_type rp) (so_biz_type options) /\ claim = RespondClaim_new tok /\
      forall t2, wf ∅ (tp_registry t2) ->
        phase tok (tp_registry (respond_cancelled rp claim t2)) = 0%nat /\
        let '(t3, c, res) := respond_send rp claim t2 in
        match res with
        | Done s => s = rp_session_id rp /\ tp_slot t2 = Some s /\ wc_claim c = Some claim
        | Throw _ => tp_slot t2 <> Some (rp_session_id rp) /\ phase tok (tp_registry t3) <> 1%nat
        | Panic => False
        end
  end.
Proof.
  cbv zeta. set (tok := rp_token rp). unfold respond_claim. fold tok.
  pose proof (phase_begin tok (tp_registry t) Hwf Hdir) as Hb.
  pose proof (apply_over_shape options (response_with_biz (t_request_id tok) (rp_biz_type rp) data) (rp_biz_type rp)) as Ha.
  assert (Hdrop : phase tok (tp_registry (responder_drop rp t)) <> 2%nat).
  { unfold responder_drop. fold tok. cbn. destruct (phase_abort tok _ Hwf) as (H2 & Hn & _). cbv zeta in *.
    destruct (decide (phase tok (tp_registry t) = 2%nat)) as [E|E]; [by rewrite H2|by rewrite Hn]. }
  destruct (begin_respond tok (tp_registry t)) as [[] r]; [|by destruct Hb as [? He]; split_and!; cbn; rewrite ?He..].
  destruct Hb as (H2 & H1 & Hk & Hwr). destruct (phase_finish tok false r Hwr) as (Hf & _ & Hkf). cbv zeta in *.
  destruct (apply_over _ _ _) as [p|e|]; [| |done]; cbn.
  - destruct Ha as (? & ? & ?). split_and!; try done. intros t2 Hw2. apply respond_settles; done.
  - split_and!; try done; [|by apply Hf]. intros k Hne. by rewrite Hkf, Hk.
Qed.

(** ** A request and its responder *)

Definition waiting_registry : RequestRegistry :=
  (run (T := Target64) [OpenSession 2; Register 9 (Some 2) 3 100 0 0] registry_new).2.

Definition serving : Transport :=
  mkTransport (Some 2) ∅ {[2 := Connected]} waiting_registry ∅ 2 true [].

Definition sample_responder : Responder := mkResponder (mkToken (Some 2) 9 Inbound 1) 3 2.

Lemma waiting_registry_wf : wf ∅ waiting_registry.
Proof.
  assert (Hrun : run_ok [OpenSession 2; Register 9 (Some 2) 3 100 0 0] registry_new).
  { split_and!; [by apply good_initial|by repeat constructor|by vm_compute]. }
  exact (proj1 (proj1 (proj1 (run_advances (T := Target64) _ _ Hrun)))).
Qed.

Lemma responder_witness :
  let '(t1, st) := respond_claim (H := tag_codec) [5] SendOptions_new sample_responder serving in
  exists p, st = ToSend p (RespondClaim_new (rp_token sample_responder)) /\
    packet_type (header p) = Response /\ message_id (header p) = 9 /\ biz_type (header p) = 3 /\
    phase (rp_token sample_responder) (tp_registry t1) = 1%nat.
Proof.
  pose proof (responder_never_strands_its_request (T := Target64) (C := tag_codec) [5] SendOptions_new
    sample_responder serving waiting_registry_wf eq_refl) as H.
  destruct (respond_claim _ _ _ _) as [t1 [r|p c]] eqn:Hr; [vm_compute in Hr; discriminate Hr|].
  cbv zeta in H. destruct H as (_ & _ & _ & H1 & Hp & Hm & Hb & -> & _). by exists p.
Defined.
