(* ===== verification/Server.v ===== *)
(** * The server's sessions: [crates/msgtrans/src/transport/transport_server.rs]

    The state every task of the server shares, and the operations of its public
    interface: sends and requests to one session, broadcasts, the pump that
    feeds a session's actor, and the closing of sessions. The life of the server
    itself is in [ServerLife]. *)

From S2P Require Import Prelude Packet Errors Limits Stream Events Registry Transport Actor.

(** ** Shared state *)

(** [PHASE_IDLE] to [PHASE_STOPPED]. *)
Inductive server_phase := PhaseIdle | PhaseStarting | PhaseRunning | PhaseShuttingDown | PhaseStopped.
#[export] Instance server_phase_eq_dec : EqDecision server_phase.
Proof. solve_decision. Defined.

Definition phase_as_u8 (p : server_phase) : Z :=
  match p with
  | PhaseIdle => 0 | PhaseStarting => 1 | PhaseRunning => 2 | PhaseShuttingDown => 3 | PhaseStopped => 4
  end.

(** The session tables. The values of [transports] and [session_handles] are
    the transports and mailboxes of the session actors; what the server itself
    decides depends only on which sessions have one. *)
Record sessions_table := mkTable {
  sv_transports : gset SessionId;
  sv_handles : gset SessionId;
  sv_states : gmap SessionId ConnState;
  sv_cancels : gset SessionId;
  sv_registry : RequestRegistry
}.

Definition set_transports (x : gset SessionId) (t : sessions_table) : sessions_table :=
  mkTable x (sv_handles t) (sv_states t) (sv_cancels t) (sv_registry t).
Definition set_handles (x : gset SessionId) (t : sessions_table) : sessions_table :=
  mkTable (sv_transports t) x (sv_states t) (sv_cancels t) (sv_registry t).
Definition set_sv_states (x : gmap SessionId ConnState) (t : sessions_table) : sessions_table :=
  mkTable (sv_transports t) (sv_handles t) x (sv_cancels t) (sv_registry t).
Definition set_cancels (x : gset SessionId) (t : sessions_table) : sessions_table :=
  mkTable (sv_transports t) (sv_handles t) (sv_states t) x (sv_registry t).
Definition set_sv_registry (x : RequestRegistry) (t : sessions_table) : sessions_table :=
  mkTable (sv_transports t) (sv_handles t) (sv_states t) (sv_cancels t) x.

Definition empty_table : sessions_table :=
  mkTable ∅ ∅ ∅ ∅ (new_with_start_id 10000).

(** The steps of [remove_session], each of which other tasks can come between. *)
Definition drain_pending (s : SessionId) (t : sessions_table) : sessions_table :=
  set_sv_registry (close_session_pending s (sv_registry t)).2 t.
Definition remove_transport (s : SessionId) (t : sessions_table) : sessions_table :=
  set_transports (sv_transports t ∖ {[s]}) t.
Definition remove_handle (s : SessionId) (t : sessions_table) : sessions_table :=
  set_handles (sv_handles t ∖ {[s]}) t.
Definition remove_state (s : SessionId) (t : sessions_table) : sessions_table :=
  set_sv_states (csm_remove_connection s (sv_states t)) t.

Definition remove_session (s : SessionId) (t : sessions_table) : sessions_table :=
  remove_state s (remove_handle s (remove_transport s (drain_pending s t))).

(** ** Sending to a session *)

Definition is_connection_dead (e : TransportError) : bool :=
  match e with Connection _ _ => true | _ => false end.

(** The verdict on a finished send: [reply] is what the actor (or, without one,
    the transport) answered. *)
Definition send_verdict (s : SessionId) (reply : exec TransportError unit) (t : sessions_table)
    : sessions_table * exec TransportError unit :=
  match reply with
  | Done u => (t, Done u)
  | Throw e =>
      if is_connection_dead e
      then (remove_session s t, Throw (connection_error "Connection closed during send" false))
      else (t, Throw e)
  | Panic => (t, Panic)
  end.

(** Which path a send takes, at the moment it looks the session up. *)
Inductive send_path := ViaActor | ViaTransport | NoSession.

Definition choose_path (s : SessionId) (t : sessions_table) : send_path :=
  if decide (s ∈ sv_handles t) then ViaActor
  else if decide (s ∈ sv_transports t) then ViaTransport else NoSession.

(** [connected]: the transport's answer on the fallback path; [t'], the tables
    when [reply] arrives. *)
Definition send_to_session (s : SessionId) (connected : bool) (reply : exec TransportError unit)
    (t t' : sessions_table) : sessions_table * exec TransportError unit :=
  match choose_path s t with
  | ViaActor => send_verdict s reply t'
  | ViaTransport =>
      if connected then send_verdict s reply t'
      else (remove_session s t', Throw (connection_error "Connection closed" false))
  | NoSession => (t', Throw (connection_error "Session not found" false))
  end.

(** What [send] and [send_with_options] put on the wire, and under which
    identifier. *)
Definition oneway_to_send `{Codecs} (data : bytes) (options : SendOptions) (t : sessions_table)
    : sessions_table * exec TransportError Packet :=
  let '(i, r) := next_oneway_id (sv_registry t) in
  (set_sv_registry r t, apply options (one_way i data)).

(** [SendReceipt]: the session and the identifier the transport assigned. *)
Record SendReceipt := mkReceipt { sr_peer : option SessionId; sr_message_id : Z }.

(** The plain [send]: the packet it hands to [send_to_session], and the receipt
    of a confirmed write. *)
Definition server_send (s : SessionId) (data : bytes) (t : sessions_table)
    : sessions_table * Packet * SendReceipt :=
  let '(message_id, r) := next_oneway_id (sv_registry t) in
  (set_sv_registry r t, one_way message_id data, mkReceipt (Some s) message_id).

Lemma apply_nothing `{Codecs} p : biz_type (header p) = 0 -> apply SendOptions_new p = Done p.
Proof. intros Hb. unfold apply, apply_over, set_biz_type. cbn. destruct p as [[] ?]. cbn in *. by subst. Qed.

Lemma server_send_without_options `{Codecs} s data t :
  oneway_to_send data SendOptions_new t = ((server_send s data t).1.1, Done (server_send s data t).1.2) /\
  sr_message_id (server_send s data t).2 = message_id (header (server_send s data t).1.2).
Proof.
  unfold oneway_to_send, server_send. destruct (next_oneway_id _). split; [|done]. by rewrite apply_nothing.
Qed.

(** ** Requests to a session *)

Definition DEFAULT_REQUEST_RESPONSE_TIMEOUT : Z := 10 * 1000000000.

Section Requests.
Context `{T : Target}.

(** Up to the armed guard; the send and the wait follow. *)
Definition request_to_session (now : Z) (s : SessionId) (p : Packet) (t : sessions_table)
    : sessions_table * exec TransportError request_call :=
  if decide (s ∈ sv_transports t) then
    match packet_type (header p) with
    | Request =>
        match try_register_waiter (message_id (header p)) (Some s) (biz_type (header p))
                REQUEST_LIFECYCLE_TIMEOUT now (sv_registry t) with
        | (Some (rx, token), r) =>
            (set_sv_registry r t, Done (mkCall rx (guard_armed (OutboundRequestGuard_new token)) (Some s) p))
        | (None, r) =>
            (set_sv_registry r t,
             Throw (connection_error "Duplicate in-flight request id for this session" false))
        end
    | _ => (t, Throw (connection_error "Not a Request packet" false))
    end
  else (t, Throw (connection_error "Session not found" false)).

(** How a started request ends: see [request_wait]; the guard is dropped on
    every exit, armed unless a response came. *)
Definition request_outcome (call : request_call) (w : request_wait) (t : sessions_table)
    : option (sessions_table * exec TransportError (option Packet)) :=
  let abandoned r := Some (set_sv_registry (guard_drop (rc_guard call) (sv_registry t)) t, r) in
  match w with
  | WriteRefused e => abandoned (Throw e)
  | DeadlinePassed d => abandoned (Throw (timeout_error "server request" d))
  | Cancelled => abandoned (Done None)
  | Polled =>
      match chans (sv_registry t) !! rc_receiver call with
      | Some (ChanSent p) =>
          Some (set_sv_registry (guard_drop (guard_disarm (rc_guard call)) (sv_registry t)) t, Done (Some p))
      | Some ChanClosed => abandoned (Throw (connection_error "Connection closed" true))
      | _ => None
      end
  end.

(** [request_with_options]: the identifier, the packet, the response deadline. *)
Definition server_request `{Codecs} (now : Z) (s : SessionId) (data : bytes) (options : RequestOptions)
    (t : sessions_table) : sessions_table * exec TransportError (request_call * Z) :=
  match next_request_id (Some s) (sv_registry t) with
  | (None, r) => (set_sv_registry r t, Throw (resource_error "request_id_space" U32_MAX U32_MAX))
  | (Some i, r) =>
      let t := set_sv_registry r t in
      match apply (ro_send options) (Packet.request i data) with
      | Done p =>
          let '(t, call) := request_to_session now s p t in
          (t, fmap (fun c => (c, from_option (fun ms => ms * 1000000) DEFAULT_REQUEST_RESPONSE_TIMEOUT
                                  (ro_timeout options))) call)
      | Throw e => (t, Throw e)
      | Panic => (t, Panic)
      end
  end.

(** The plain [request]: no options and the default deadline. *)
Definition server_request_plain (now : Z) (s : SessionId) (data : bytes) (t : sessions_table)
    : sessions_table * exec TransportError (request_call * Z) :=
  match next_request_id (Some s) (sv_registry t) with
  | (None, r) => (set_sv_registry r t, Throw (resource_error "request_id_space" U32_MAX U32_MAX))
  | (Some message_id, r) =>
      let '(t, call) := request_to_session now s (Packet.request message_id data) (set_sv_registry r t) in
      (t, fmap (fun c => (c, DEFAULT_REQUEST_RESPONSE_TIMEOUT)) call)
  end.

Lemma plain_request_is_a_request_without_options `{Codecs} now s data t :
  server_request_plain now s data t = server_request now s data RequestOptions_new t.
Proof.
  unfold server_request_plain, server_request. destruct (next_request_id _ _) as [[i|] r]; [|done].
  by rewrite apply_nothing.
Qed.
End Requests.

(** ** Broadcast *)

Record BroadcastReport := mkReport {
  br_delivered : Z;
  br_failed : list (SessionId * TransportError)
}.

Definition is_complete (r : BroadcastReport) : bool := bool_decide (br_failed r = []).
Definition failed_count (r : BroadcastReport) : nat := length (br_failed r).

(** [ids]: the keys read at the start; [enqueue]: what the mailbox of a session
    answers, [None] when the session has gone by the time it is looked up. *)
Definition broadcast_to (ids : list SessionId) (enqueue : SessionId -> option (exec TransportError unit))
    : BroadcastReport :=
  foldl (fun report s =>
    match enqueue s with
    | Some (Done _) => mkReport (br_delivered report + 1) (br_failed report)
    | Some (Throw e) => mkReport (br_delivered report) (br_failed report ++ [(s, e)])
    | Some Panic | None => report
    end) (mkReport 0 []) ids.

Definition broadcast `{Codecs} (data : bytes) (options : SendOptions)
    (ids : list SessionId) (enqueue : Packet -> SessionId -> option (exec TransportError unit))
    (t : sessions_table) : sessions_table * exec TransportError BroadcastReport :=
  let '(t, p) := oneway_to_send data options t in
  (t, fmap (fun p => broadcast_to ids (enqueue p)) p).

(** ** The pump of a session *)

(** One event: [forward] is what the mailbox answers; the result tells whether
    the pump goes on. *)
Definition pump_one_event (s : SessionId) (e : TransportEvent) (forward : bool) (t : sessions_table)
    : sessions_table * option TransportEvent * bool :=
  let is_close := match e with ConnectionClosed _ => true | _ => false end in
  let through t :=
    if forward then (t, Some e, negb is_close) else (t, None, false) in
  match e with
  | MessageReceived p =>
      match packet_type (header p) with
      | Response =>
          let '(completed, r) := complete_waiter (Some s) (message_id (header p)) p (sv_registry t) in
          let t := set_sv_registry r t in
          if completed then (t, None, true) else through t
      | _ => through t
      end
  | _ => through t
  end.

Definition pump_teardown (s : SessionId) (t : sessions_table) : sessions_table :=
  let t := drain_pending s t in
  if decide (s ∈ sv_transports t) then remove_session s t else t.

(** The pump over the events its pipe yields and the mailbox's answers; the
    result is what the actor was sent. Ending events leave the pump waiting. *)
Fixpoint pump (s : SessionId) (events : list (TransportEvent * bool)) (t : sessions_table)
    : sessions_table * list TransportEvent * bool :=
  match events with
  | [] => (t, [], true)
  | (e, forward) :: events =>
      let '(t, sent, go_on) := pump_one_event s e forward t in
      let sent := match sent with Some e => [e] | None => [] end in
      if go_on : bool then
        let '(t, more, running) := pump s events t in (t, sent ++ more, running)
      else (pump_teardown s t, sent, false)
  end.

(** ** Closing sessions *)

(** The atomic gate of [close_session] and [force_close_session]. *)
Definition start_closing (s : SessionId) (t : sessions_table) : bool * sessions_table :=
  let '(b, m) := csm_try_start_closing s (sv_states t) in (b, set_sv_states m t).

(** [close_session] and [force_close_session] as the tables see them: the event
    offered to the actor, then the session's removal; the transport is
    disconnected in between. *)
Definition close_server_session (reason : CloseReason) (s : SessionId) (t : sessions_table)
    : sessions_table * option TransportEvent :=
  match start_closing s t with
  | (false, t) => (t, None)
  | (true, t) =>
      let notified := if decide (s ∈ sv_handles t) then Some (ConnectionClosed reason) else None in
      (remove_session s (set_sv_states (csm_mark_closed s (sv_states t)) t), notified)
  end.

(** [late s]: the batch's time is up when [s] is reached. *)
Definition close_all_sessions (late : SessionId -> bool) (t : sessions_table) : sessions_table :=
  foldl (fun t s => (close_server_session (if late s then Forced else Normal) s t).1) t
    (elements (sv_transports t)).
