(* ===== verification/ServerLife.v ===== *)
(** * The life of the server: [crates/msgtrans/src/transport/transport_server.rs]

    Startup, the accept loops, the session supervisors, fail-fast and shutdown,
    as tasks that step one shared effect at a time. A task's program counter says
    what it does next; awaiting, or losing a race, is a step of another task. *)

From S2P Require Import Prelude Packet Errors Limits Stream Events Registry Transport Server.

(** ** Tasks *)

(** The owned startup task: [Spawning] between [serve]'s transition and the
    spawn, then [run_startup] and the tail of [startup_and_supervise]. *)
Inductive startup_pc :=
  | NotServed
  | Spawning
  | Building (built : nat)
  | Listening (started : nat)
  | StartingScanner
  | ClosingInfra
  | Publishing
  | Ended (outcome : exec TransportError unit)
  | PanicGate
  | PanicCancel
  | Recorded
  | Draining
  | Finished.

(** What a protocol's build, or its wait, came to. *)
Inductive build_result := BuildOk | BuildErr (e : TransportError) | BuildCancelled | BuildPanics.

(** An accept loop: waiting; holding a connection; holding a permit too; then
    the steps of [add_session_with_permit] for the session it numbered. *)
Inductive listener_pc :=
  | LWait
  | LAccepted
  | LNumber
  | LGate (s : SessionId)
  | LRefusing (s : SessionId)
  | LInstalling (s : SessionId)
  | LState (s : SessionId)
  | LOpen (s : SessionId)
  | LHandle (s : SessionId)
  | LTrack (s : SessionId)
  | LCancelToken (s : SessionId)
  | LStart (s : SessionId)
  | LRecheck (s : SessionId)
  | LExit.

(** What an accept loop's wait came to, or that one of the calls it makes on
    foreign code panicked. *)
Inductive accept_event := AcceptOk | AcceptErr | AcceptCancelled | ListenerPanics.

(** A session's supervisor, the only owner of its permit. [su_actor] and
    [su_pump]: [None] while the task runs, then whether it panicked. *)
Inductive supervisor_pc :=
  | SuSelect
  | SuJoin
  | SuDrain
  | SuTransport
  | SuHandle
  | SuState
  | SuCancel
  | SuDone.
#[export] Instance supervisor_pc_eq_dec : EqDecision supervisor_pc.
Proof. solve_decision. Defined.
Record supervisor := mkSupervisor {
  su_started : bool;
  su_cancelled : bool;
  su_actor : option bool;
  su_pump : option bool;
  su_pc : supervisor_pc
}.

(** A call of [shutdown]: after the lock, one step per shared effect. [never]:
    [never_served]; [n]: the sessions at the start; [infra]: [infra_stopped];
    [rem]: the sessions remaining, as first and then finally counted. *)
Inductive shutdown_pc :=
  | SdPhase
  | SdGate (never : bool)
  | SdOffer (never : bool)
  | SdCancel (never : bool)
  | SdClose (never : bool)
  | SdCount (never : bool)
  | SdWait (never : bool) (n : nat)
  | SdClosed (never : bool) (n : nat)
  | SdFinalize (never : bool) (closed : nat)
  | SdInfra (closed : nat)
  | SdStragglers (closed : nat) (infra : bool)
  | SdRemaining (closed : nat) (infra : bool)
  | SdTransports (closed : nat) (infra : bool) (rem : nat)
  | SdPermits (closed : nat) (infra : bool) (rem : nat).

Record ShutdownReport := mkShutdownReport {
  sd_sessions_closed : nat;
  sd_sessions_remaining : nat;
  sd_infra_stopped : bool;
  sd_permits_restored : bool;
  sd_clean : bool
}.

(** ** The server *)

Record life := mkLife {
  lf_phase : server_phase;
  lf_admission : bool;
  lf_root : bool;
  lf_infra : bool;
  lf_failed : bool;
  lf_serve_error : option TransportError;
  lf_startup : startup_pc;
  lf_infra_closed : bool;
  lf_scanner : bool
}.

(** [sr_tracker] is the session tracker, whose entries are the supervisors;
    the infra tracker holds the accept loops and the scanner. *)
Record server := mkServer {
  sr_life : life;
  sr_permits : Z;
  sr_next_id : Z;
  sr_table : sessions_table;
  sr_tracker : gmap SessionId supervisor;
  sr_tracker_closed : bool;
  sr_listeners : gmap nat listener_pc;
  sr_shutdowns : gmap nat shutdown_pc;
  sr_reports : list ShutdownReport
}.

Definition set_phase (x : server_phase) (l : life) : life :=
  mkLife x (lf_admission l) (lf_root l) (lf_infra l) (lf_failed l) (lf_serve_error l) (lf_startup l) (lf_infra_closed l) (lf_scanner l).
Definition set_admission (x : bool) (l : life) : life :=
  mkLife (lf_phase l) x (lf_root l) (lf_infra l) (lf_failed l) (lf_serve_error l) (lf_startup l) (lf_infra_closed l) (lf_scanner l).
Definition set_root (x : bool) (l : life) : life :=
  mkLife (lf_phase l) (lf_admission l) x (lf_infra l) (lf_failed l) (lf_serve_error l) (lf_startup l) (lf_infra_closed l) (lf_scanner l).
Definition set_infra (x : bool) (l : life) : life :=
  mkLife (lf_phase l) (lf_admission l) (lf_root l) x (lf_failed l) (lf_serve_error l) (lf_startup l) (lf_infra_closed l) (lf_scanner l).
Definition set_failed (x : bool) (l : life) : life :=
  mkLife (lf_phase l) (lf_admission l) (lf_root l) (lf_infra l) x (lf_serve_error l) (lf_startup l) (lf_infra_closed l) (lf_scanner l).
Definition set_serve_error (x : option TransportError) (l : life) : life :=
  mkLife (lf_phase l) (lf_admission l) (lf_root l) (lf_infra l) (lf_failed l) x (lf_startup l) (lf_infra_closed l) (lf_scanner l).
Definition set_startup (x : startup_pc) (l : life) : life :=
  mkLife (lf_phase l) (lf_admission l) (lf_root l) (lf_infra l) (lf_failed l) (lf_serve_error l) x (lf_infra_closed l) (lf_scanner l).
Definition set_infra_closed (x : bool) (l : life) : life :=
  mkLife (lf_phase l) (lf_admission l) (lf_root l) (lf_infra l) (lf_failed l) (lf_serve_error l) (lf_startup l) x (lf_scanner l).
Definition set_scanner (x : bool) (l : life) : life :=
  mkLife (lf_phase l) (lf_admission l) (lf_root l) (lf_infra l) (lf_failed l) (lf_serve_error l) (lf_startup l) (lf_infra_closed l) x.

Definition set_life (x : life) (v : server) : server :=
  mkServer x (sr_permits v) (sr_next_id v) (sr_table v) (sr_tracker v) (sr_tracker_closed v) (sr_listeners v) (sr_shutdowns v) (sr_reports v).
Definition set_permits (x : Z) (v : server) : server :=
  mkServer (sr_life v) x (sr_next_id v) (sr_table v) (sr_tracker v) (sr_tracker_closed v) (sr_listeners v) (sr_shutdowns v) (sr_reports v).
Definition set_next_id (x : Z) (v : server) : server :=
  mkServer (sr_life v) (sr_permits v) x (sr_table v) (sr_tracker v) (sr_tracker_closed v) (sr_listeners v) (sr_shutdowns v) (sr_reports v).
Definition set_table (x : sessions_table) (v : server) : server :=
  mkServer (sr_life v) (sr_permits v) (sr_next_id v) x (sr_tracker v) (sr_tracker_closed v) (sr_listeners v) (sr_shutdowns v) (sr_reports v).
Definition set_tracker (x : gmap SessionId supervisor) (v : server) : server :=
  mkServer (sr_life v) (sr_permits v) (sr_next_id v) (sr_table v) x (sr_tracker_closed v) (sr_listeners v) (sr_shutdowns v) (sr_reports v).
Definition set_tracker_closed (x : bool) (v : server) : server :=
  mkServer (sr_life v) (sr_permits v) (sr_next_id v) (sr_table v) (sr_tracker v) x (sr_listeners v) (sr_shutdowns v) (sr_reports v).
Definition set_listeners (x : gmap nat listener_pc) (v : server) : server :=
  mkServer (sr_life v) (sr_permits v) (sr_next_id v) (sr_table v) (sr_tracker v) (sr_tracker_closed v) x (sr_shutdowns v) (sr_reports v).
Definition set_shutdowns (x : gmap nat shutdown_pc) (v : server) : server :=
  mkServer (sr_life v) (sr_permits v) (sr_next_id v) (sr_table v) (sr_tracker v) (sr_tracker_closed v) (sr_listeners v) x (sr_reports v).
Definition set_reports (x : list ShutdownReport) (v : server) : server :=
  mkServer (sr_life v) (sr_permits v) (sr_next_id v) (sr_table v) (sr_tracker v) (sr_tracker_closed v) (sr_listeners v) (sr_shutdowns v) x.

Definition upd_life (f : life -> life) (v : server) : server := set_life (f (sr_life v)) v.
Definition upd_table (f : sessions_table -> sessions_table) (v : server) : server :=
  set_table (f (sr_table v)) v.

Section Life.
(** The connection cap ([None]: uncapped), the semaphore's size, the number of
    configured protocols. *)
Context (cap : option Z) (permits : Z) (protocols : nat).

Definition server_new : server :=
  mkServer (mkLife PhaseIdle true false false false None NotServed false false)
    permits 1 empty_table ∅ false ∅ ∅ [].

(** The infra token is a child of the root token. *)
Definition infra_cancelled (v : server) : bool := lf_infra (sr_life v) || lf_root (sr_life v).
Definition session_cancelled (v : server) (u : supervisor) : bool := su_cancelled u || lf_root (sr_life v).

(** The guard every infra task carries. *)
Definition infra_fail_fast (v : server) : server :=
  if infra_cancelled v then v else upd_life (fun l => set_infra true (set_failed true l)) v.

(** ** Serving *)

Definition serve (v : server) : server * option TransportError :=
  match lf_phase (sr_life v) with
  | PhaseIdle => (upd_life (fun l => set_startup Spawning (set_phase PhaseStarting l)) v, None)
  | _ => (v, Some (config_error "server"
             "serve() may run once: server is already starting, running, or stopped"))
  end.

(** What [serve] returns once it observes [PhaseStopped]. *)
Definition serve_result (v : server) : exec TransportError unit :=
  match lf_serve_error (sr_life v) with
  | Some e => Throw e
  | None =>
      if lf_failed (sr_life v)
      then Throw (config_error "server" "an infrastructure task failed; all siblings were stopped and joined")
      else Done tt
  end.

Definition stop : server -> server := upd_life (set_infra true).

Definition startup_step (b : build_result) (v : server) : option server :=
  let at_ pc := upd_life (set_startup pc) in
  match lf_startup (sr_life v) with
  | NotServed => None
  | Spawning =>
      Some (match protocols with
            | O => at_ (Ended (Throw (config_error "protocols" "No protocols configured"))) v
            | _ => at_ (Building 0) v
            end)
  | Building k =>
      if decide (k = protocols) then Some (at_ (Listening 0) v)
      else match b with
      | BuildOk => Some (at_ (Building (S k)) v)
      | BuildErr e => Some (at_ (Ended (Throw e)) v)
      | BuildCancelled =>
          if lf_root (sr_life v)
          then Some (at_ (Ended (Throw (config_error "server" "startup cancelled by shutdown"))) v)
          else None
      | BuildPanics => Some (at_ (Ended Panic) v)
      end
  | Listening k =>
      if decide (k = protocols) then Some (at_ StartingScanner v)
      else Some (at_ (Listening (S k)) (set_listeners (<[k := LWait]> (sr_listeners v)) v))
  | StartingScanner => Some (at_ ClosingInfra (upd_life (set_scanner true) v))
  | ClosingInfra => Some (at_ Publishing (upd_life (set_infra_closed true) v))
  | Publishing =>
      Some (at_ (Ended (Done tt))
        (match lf_phase (sr_life v) with
         | PhaseStarting => upd_life (set_phase PhaseRunning) v
         | _ => v
         end))
  | Ended (Done _) => Some (at_ Recorded v)
  | Ended (Throw e) => Some (at_ Recorded (upd_life (set_serve_error (Some e)) v))
  | Ended Panic => Some (at_ PanicGate (upd_life (set_admission false) v))
  | PanicGate => Some (at_ PanicCancel (upd_life (set_root true) v))
  | PanicCancel =>
      Some (at_ Recorded (upd_life (set_serve_error (Some (config_error "server" "startup panicked"))) v))
  | Recorded => Some (at_ Draining (upd_life (set_infra_closed true) v))
  | Draining =>
      if lf_infra_closed (sr_life v) && bool_decide (sr_listeners v = ∅) && negb (lf_scanner (sr_life v))
      then Some (at_ Finished (upd_life (set_phase PhaseStopped) v)) else None
  | Finished => None
  end.

(** The scanner ends by cancellation, or fails. *)
Definition scanner_ends (panics : bool) (v : server) : option server :=
  if lf_scanner (sr_life v) && (panics || infra_cancelled v)
  then Some (infra_fail_fast (upd_life (set_scanner false) v)) else None.

(** ** Accepting *)

Definition fresh_supervisor : supervisor := mkSupervisor false false None None SuSelect.

Definition upd_tracker (s : SessionId) (f : supervisor -> supervisor) (v : server) : server :=
  set_tracker (alter f s (sr_tracker v)) v.

(** A listener's permit goes back when it unwinds between acquiring it and
    handing it to the supervisor. *)
Definition holds_permit (pc : listener_pc) : bool :=
  match pc with
  | LNumber | LGate _ | LRefusing _ | LInstalling _ | LState _ | LOpen _ | LHandle _ | LTrack _ => true
  | _ => false
  end.

(** The foreign calls of an accept loop, where it may panic. *)
Definition may_panic (pc : listener_pc) : bool :=
  match pc with LWait | LAccepted | LNumber | LGate _ | LRefusing _ | LInstalling _ | LExit => true | _ => false end.

Definition listener_dies (i : nat) (pc : listener_pc) (v : server) : server :=
  let v := set_listeners (delete i (sr_listeners v)) v in
  infra_fail_fast (if holds_permit pc then set_permits (sr_permits v + 1) v else v).

(** The steps of [add_session_with_permit], for the session the loop numbered. *)
Definition add_session_step (i : nat) (pc : listener_pc) (v : server) : option server :=
  let goto pc v := Some (set_listeners (<[i := pc]> (sr_listeners v)) v) in
  match pc with
  | LGate s => goto (if lf_admission (sr_life v) then LInstalling s else LRefusing s) v
  | LRefusing s => goto LWait (set_permits (sr_permits v + 1) v)
  | LInstalling s => goto (LState s) (upd_table (fun t => set_transports (sv_transports t ∪ {[s]}) t) v)
  | LState s => goto (LOpen s) (upd_table (fun t => set_sv_states (csm_add_connection s (sv_states t)) t) v)
  | LOpen s => goto (LHandle s) (upd_table (fun t => set_sv_registry (open_session s (sv_registry t)) t) v)
  | LHandle s => goto (LTrack s) (upd_table (fun t => set_handles (sv_handles t ∪ {[s]}) t) v)
  | LTrack s => goto (LCancelToken s) (set_tracker (<[s := fresh_supervisor]> (sr_tracker v)) v)
  | LCancelToken s => goto (LStart s) (upd_table (fun t => set_cancels (sv_cancels t ∪ {[s]}) t) v)
  | LStart s =>
      goto (LRecheck s) (upd_tracker s (fun u =>
        mkSupervisor true (su_cancelled u) (su_actor u) (su_pump u) (su_pc u)) v)
  | LRecheck s =>
      goto LWait (if lf_admission (sr_life v) then v else
        upd_tracker s (fun u => mkSupervisor (su_started u) true (su_actor u) (su_pump u) (su_pc u)) v)
  | _ => None
  end.

(** [generate_session_id]. *)
Definition generate_session_id (v : server) : SessionId * server :=
  (sr_next_id v, set_next_id (wrap 64 (sr_next_id v + 1)) v).

Definition listener_step (i : nat) (ev : accept_event) (v : server) : option server :=
  match sr_listeners v !! i with
  | None => None
  | Some pc =>
      let goto pc v := Some (set_listeners (<[i := pc]> (sr_listeners v)) v) in
      match ev with
      | ListenerPanics => if may_panic pc then Some (listener_dies i pc v) else None
      | _ =>
      match pc with
      | LWait =>
          match ev with
          | AcceptOk => goto LAccepted v
          | AcceptErr => goto (if infra_cancelled v then LExit else LWait) v
          | _ => if infra_cancelled v then goto LExit v else None
          end
      | LAccepted =>
          if 0 <? sr_permits v then goto LNumber (set_permits (sr_permits v - 1) v) else goto LWait v
      | LNumber => let '(s, v) := generate_session_id v in goto (LGate s) v
      | LExit => Some (listener_dies i pc v)
      | _ => add_session_step i pc v
      end
      end
  end.

(** ** Supervising a session *)

Inductive session_event := ActorEnds (panicked : bool) | PumpEnds (panicked : bool) | Supervise (actor_first : bool).

(** The supervisor's next step, its children having done what they have;
    [actor_first]: the child the [select!] reports when both have ended. *)
Definition supervise (s : SessionId) (actor_first : bool) (u : supervisor) (v : server) : option server :=
  let goto pc v := Some (upd_tracker s (fun u =>
    mkSupervisor (su_started u) (su_cancelled u) (su_actor u) (su_pump u) pc) v) in
  match su_pc u with
  | SuSelect =>
      if su_started u then
        match (if actor_first then su_actor u else su_pump u) with
        | Some panicked =>
            goto SuJoin (upd_tracker s (fun u =>
              mkSupervisor (su_started u) (su_cancelled u || panicked) (su_actor u) (su_pump u) (su_pc u)) v)
        | None => None
        end
      else None
  | SuJoin =>
      match su_actor u, su_pump u with Some _, Some _ => goto SuDrain v | _, _ => None end
  | SuDrain => goto SuTransport (upd_table (drain_pending s) v)
  | SuTransport => goto SuHandle (upd_table (remove_transport s) v)
  | SuHandle => goto SuState (upd_table (remove_handle s) v)
  | SuState => goto SuCancel (upd_table (remove_state s) v)
  | SuCancel => goto SuDone (upd_table (fun t => set_cancels (sv_cancels t ∖ {[s]}) t) v)
  | SuDone => Some (set_permits (sr_permits v + 1) (set_tracker (delete s (sr_tracker v)) v))
  end.

Definition session_step (s : SessionId) (ev : session_event) (v : server) : option server :=
  match sr_tracker v !! s with
  | None => None
  | Some u =>
      match ev with
      | ActorEnds panicked =>
          match su_actor u with
          | None => Some (upd_tracker s (fun u =>
              mkSupervisor (su_started u) (su_cancelled u) (Some panicked) (su_pump u) (su_pc u)) v)
          | Some _ => None
          end
      | PumpEnds panicked =>
          match su_pump u with
          | None => Some (upd_tracker s (fun u =>
              mkSupervisor (su_started u) (su_cancelled u) (su_actor u) (Some panicked) (su_pc u)) v)
          | Some _ => None
          end
      | Supervise actor_first => supervise s actor_first u v
      end
  end.

(** ** Shutting down *)

(** A new call takes the lock only when no other call holds it; a call whose
    budget ends first reports a snapshot. *)
Definition permits_restored (v : server) : bool :=
  match cap with None => true | Some m => sr_permits v =? m end.

Definition report_snapshot (v : server) : ShutdownReport :=
  mkShutdownReport 0 (Nat.max (size (sr_tracker v)) (size (sv_transports (sr_table v))))
    (bool_decide (lf_phase (sr_life v) = PhaseStopped)) (permits_restored v) false.

Definition shutdown_call (i : nat) (expired : bool) (v : server) : option server :=
  if expired then Some (set_reports (sr_reports v ++ [report_snapshot v]) v)
  else if decide (sr_shutdowns v = ∅) then Some (set_shutdowns {[i := SdPhase]} v) else None.

Definition shutdown_step (i : nat) (expired : bool) (v : server) : option server :=
  match sr_shutdowns v !! i with
  | None => None
  | Some pc =>
      let goto pc v := Some (set_shutdowns (<[i := pc]> (sr_shutdowns v)) v) in
      match pc with
      | SdPhase =>
          match lf_phase (sr_life v) with
          | PhaseIdle => goto (SdGate true) (upd_life (set_phase PhaseShuttingDown) v)
          | PhaseStarting | PhaseRunning => goto (SdGate false) (upd_life (set_phase PhaseShuttingDown) v)
          | PhaseShuttingDown | PhaseStopped => goto (SdGate false) v
          end
      | SdGate never => goto (SdOffer never) (upd_life (set_admission false) v)
      | SdOffer never => goto (SdCancel never) v
      | SdCancel never => goto (SdClose never) (upd_life (set_root true) v)
      | SdClose never => goto (SdCount never) (set_tracker_closed true v)
      | SdCount never => goto (SdWait never (size (sr_tracker v))) v
      | SdWait never n =>
          if expired || bool_decide (sr_tracker v = ∅) then goto (SdClosed never n) v else None
      | SdClosed never n => goto (SdFinalize never (n - size (sr_tracker v))) v
      | SdFinalize never closed =>
          goto (SdInfra closed) (if never then upd_life (set_phase PhaseStopped) v else v)
      | SdInfra closed =>
          if decide (lf_phase (sr_life v) = PhaseStopped) then goto (SdStragglers closed true) v
          else if expired then goto (SdStragglers closed false) v else None
      | SdStragglers closed infra =>
          if expired || bool_decide (sr_tracker v = ∅) then goto (SdRemaining closed infra) v else None
      | SdRemaining closed infra => goto (SdTransports closed infra (size (sr_tracker v))) v
      | SdTransports closed infra rem =>
          goto (SdPermits closed infra (Nat.max rem (size (sv_transports (sr_table v))))) v
      | SdPermits closed infra rem =>
          let restored := permits_restored v in
          let report := mkShutdownReport closed rem infra restored
            (bool_decide (rem = 0%nat) && infra && restored) in
          Some (set_reports (sr_reports v ++ [report]) (set_shutdowns (delete i (sr_shutdowns v)) v))
      end
  end.

(** ** The whole server *)

(** [Touch]: what the other tasks (pumps, sends, closes, removals, requests, the
    scanner) do to the session tables, one effect at a time. They remove, close
    and register requests; only an accept loop adds a session. *)
Inductive touch :=
  | TouchTransport (s : SessionId)
  | TouchHandle (s : SessionId)
  | TouchState (s : SessionId)
  | TouchClosing (s : SessionId)
  | TouchClosed (s : SessionId)
  | TouchRegistry (r : RequestRegistry).

Definition touch_table (x : touch) (t : sessions_table) : sessions_table :=
  match x with
  | TouchTransport s => remove_transport s t
  | TouchHandle s => remove_handle s t
  | TouchState s => remove_state s t
  | TouchClosing s => (start_closing s t).2
  | TouchClosed s => set_sv_states (csm_mark_closed s (sv_states t)) t
  | TouchRegistry r => set_sv_registry r t
  end.

Inductive label :=
  | Serve
  | Stop
  | Startup (b : build_result)
  | ScannerEnds (panics : bool)
  | Listener (i : nat) (ev : accept_event)
  | Session (s : SessionId) (ev : session_event)
  | ShutdownCall (i : nat) (expired : bool)
  | Shutdown (i : nat) (expired : bool)
  | Touch (x : touch).

(** A step that its task cannot take changes nothing. *)
Definition server_step (l : label) (v : server) : server :=
  default v
    match l with
    | Serve => Some (serve v).1
    | Stop => Some (stop v)
    | Startup b => startup_step b v
    | ScannerEnds panics => scanner_ends panics v
    | Listener i ev => listener_step i ev v
    | Session s ev => session_step s ev v
    | ShutdownCall i expired => shutdown_call i expired v
    | Shutdown i expired => shutdown_step i expired v
    | Touch x => Some (upd_table (touch_table x) v)
    end.

Definition server_run (ls : list label) (v : server) : server := foldl (fun v l => server_step l v) v ls.
End Life.
