(* ===== verification/ServerInv.v ===== *)
(** * Invariants of the server's life: what every step of every task keeps *)

From S2P Require Import Prelude Packet Errors Limits Stream Events Registry Transport Server ServerLife.

(** ** Invariants *)

(** The session an accept loop is adding. *)
Definition carries (pc : listener_pc) : option SessionId :=
  match pc with
  | LGate s | LRefusing s | LInstalling s | LState s | LOpen s | LHandle s | LTrack s
  | LCancelToken s | LStart s => Some s
  | _ => None
  end.

(** How far the adding of a session is, and how far its supervisor. *)
Definition stage (pc : listener_pc) : nat :=
  match pc with
  | LState _ => 1 | LOpen _ => 2 | LHandle _ => 3 | LTrack _ => 4 | LCancelToken _ => 5 | LStart _ => 6
  | _ => 0
  end.
Definition rank (pc : supervisor_pc) : nat :=
  match pc with
  | SuSelect => 0 | SuJoin => 1 | SuDrain => 2 | SuTransport => 3 | SuHandle => 4 | SuState => 5
  | SuCancel => 6 | SuDone => 7
  end.

Definition permits_of (pc : listener_pc) : Z := if holds_permit pc then 1 else 0.
Definition holders (L : gmap nat listener_pc) : Z := map_fold (fun _ pc n => permits_of pc + n) 0 L.

(** Before the accept loops exist, while they are started, once they are gone. *)
Definition loops_ok (st : startup_pc) (L : gmap nat listener_pc) (scanner : bool) : Prop :=
  match st with
  | NotServed | Spawning | Building _ | Finished => L = ∅ /\ scanner = false
  | Listening k => (forall i pc, L !! i = Some pc -> (i < k)%nat) /\ scanner = false
  | _ => True
  end.

Definition phase_fits (st : startup_pc) (p : server_phase) : Prop :=
  match st with
  | NotServed => p = PhaseIdle \/ p = PhaseShuttingDown \/ p = PhaseStopped
  | Finished => p = PhaseStopped
  | _ => p <> PhaseIdle /\ p <> PhaseStopped
  end.

Definition never_of (pc : shutdown_pc) : bool :=
  match pc with
  | SdGate n | SdOffer n | SdCancel n | SdClose n | SdCount n | SdWait n _ | SdClosed n _ | SdFinalize n _ => n
  | _ => false
  end.

(** The startup task owns every accept loop; no phase change lies about it. *)
Record phases_ok (v : server) : Prop := {
  ph_fits : phase_fits (lf_startup (sr_life v)) (lf_phase (sr_life v));
  ph_loops : loops_ok (lf_startup (sr_life v)) (sr_listeners v) (lf_scanner (sr_life v));
  ph_never : forall i pc, sr_shutdowns v !! i = Some pc -> never_of pc = true ->
    lf_startup (sr_life v) = NotServed /\ lf_phase (sr_life v) <> PhaseIdle
}.

(** ** What one step leaves alone *)

(** The course of the server's life: what only startup and shutdown change. *)
Definition course (l : life) : server_phase * startup_pc * bool * bool * bool :=
  (lf_phase l, lf_startup l, lf_scanner l, lf_admission l, lf_root l).

Lemma fail_fast_frame v : let v' := infra_fail_fast v in
  course (sr_life v') = course (sr_life v) /\ sr_permits v' = sr_permits v /\ sr_next_id v' = sr_next_id v /\
  sr_table v' = sr_table v /\ sr_tracker v' = sr_tracker v /\ sr_listeners v' = sr_listeners v /\
  sr_shutdowns v' = sr_shutdowns v /\ sr_reports v' = sr_reports v.
Proof. cbv zeta. unfold infra_fail_fast. by destruct (infra_cancelled v). Qed.

Lemma listener_frame i ev v v' : listener_step i ev v = Some v' ->
  course (sr_life v') = course (sr_life v) /\ sr_shutdowns v' = sr_shutdowns v /\
  sr_reports v' = sr_reports v /\
  exists pc, sr_listeners v !! i = Some pc /\
    (sr_listeners v' = delete i (sr_listeners v) \/
     exists pc', sr_listeners v' = <[i := pc']> (sr_listeners v)).
Proof.
  unfold listener_step, add_session_step, generate_session_id. intros H. destruct (sr_listeners v !! i) as [pc|] eqn:Hpc; [|done].
  assert (Hdie : let v' := listener_dies i pc v in
    course (sr_life v') = course (sr_life v) /\ sr_shutdowns v' = sr_shutdowns v /\
    sr_reports v' = sr_reports v /\ sr_listeners v' = delete i (sr_listeners v)).
  { unfold listener_dies. set (v0 := if holds_permit pc then _ else _).
    destruct (fail_fast_frame v0) as (Hc & _ & _ & _ & _ & Hl & Hs & Hr). cbv zeta in *.
    rewrite Hc, Hl, Hs, Hr. unfold v0. by destruct (holds_permit pc). }
  cbv zeta in Hdie. destruct Hdie as (H1 & H2 & H3 & H4).
  destruct ev; [..|destruct (may_panic pc); [|done]; injection H as <-; rewrite H1, H2, H3; eauto 8];
    destruct pc; repeat case_match; try done; injection H as <-;
    first [rewrite H1, H2, H3; by eauto 8|cbn; by eauto 8].
Qed.

(** The steps of an accept loop. *)
Inductive listener_effect (i : nat) (v : server) : listener_pc -> server -> Prop :=
  | LeDies pc : may_panic pc = true -> listener_effect i v pc (listener_dies i pc v)
  | LeIdle pc pc' : carries pc = None -> carries pc' = None -> holds_permit pc = false ->
      holds_permit pc' = false -> listener_effect i v pc (set_listeners (<[i := pc']> (sr_listeners v)) v)
  | LeAcquire : 0 < sr_permits v ->
      listener_effect i v LAccepted (set_listeners (<[i := LNumber]> (sr_listeners v))
        (set_permits (sr_permits v - 1) v))
  | LeNumber : listener_effect i v LNumber (set_listeners (<[i := LGate (sr_next_id v)]> (sr_listeners v))
        (set_next_id (wrap 64 (sr_next_id v + 1)) v))
  | LeGate s : listener_effect i v (LGate s) (set_listeners
        (<[i := if lf_admission (sr_life v) then LInstalling s else LRefusing s]> (sr_listeners v)) v)
  | LeRefuse s : listener_effect i v (LRefusing s) (set_listeners (<[i := LWait]> (sr_listeners v))
        (set_permits (sr_permits v + 1) v))
  | LeInstall s : listener_effect i v (LInstalling s) (set_listeners (<[i := LState s]> (sr_listeners v))
        (upd_table (fun t => set_transports (sv_transports t ∪ {[s]}) t) v))
  | LeState s : listener_effect i v (LState s) (set_listeners (<[i := LOpen s]> (sr_listeners v))
        (upd_table (fun t => set_sv_states (csm_add_connection s (sv_states t)) t) v))
  | LeOpen s : listener_effect i v (LOpen s) (set_listeners (<[i := LHandle s]> (sr_listeners v))
        (upd_table (fun t => set_sv_registry (open_session s (sv_registry t)) t) v))
  | LeHandle s : listener_effect i v (LHandle s) (set_listeners (<[i := LTrack s]> (sr_listeners v))
        (upd_table (fun t => set_handles (sv_handles t ∪ {[s]}) t) v))
  | LeTrack s : listener_effect i v (LTrack s) (set_listeners (<[i := LCancelToken s]> (sr_listeners v))
        (set_tracker (<[s := fresh_supervisor]> (sr_tracker v)) v))
  | LeCancel s : listener_effect i v (LCancelToken s) (set_listeners (<[i := LStart s]> (sr_listeners v))
        (upd_table (fun t => set_cancels (sv_cancels t ∪ {[s]}) t) v))
  | LeStart s : listener_effect i v (LStart s) (set_listeners (<[i := LRecheck s]> (sr_listeners v))
        (upd_tracker s (fun u =>
           mkSupervisor true (su_cancelled u) (su_actor u) (su_pump u) (su_pc u)) v))
  | LeCancelSelf s : lf_admission (sr_life v) = false ->
      listener_effect i v (LRecheck s) (set_listeners (<[i := LWait]> (sr_listeners v))
        (upd_tracker s (fun u => mkSupervisor (su_started u) true (su_actor u) (su_pump u) (su_pc u)) v)).

Lemma listener_cases i ev v v' : listener_step i ev v = Some v' ->
  exists pc, sr_listeners v !! i = Some pc /\ listener_effect i v pc v'.
Proof.
  unfold listener_step, add_session_step, generate_session_id. intros H. destruct (sr_listeners v !! i) as [pc|]; [|done].
  exists pc. split; [done|].
  destruct ev; [..|destruct (may_panic pc) eqn:?; [|done]; injection H as <-; by apply LeDies].
  all: destruct pc; try (injection H as <-; by constructor).
  all: repeat case_match; try done; injection H as <-; first [by apply LeIdle|apply LeAcquire; lia|by apply LeCancelSelf].
Qed.

Lemma session_frame s ev v v' : session_step s ev v = Some v' ->
  sr_life v' = sr_life v /\ sr_next_id v' = sr_next_id v /\ sr_listeners v' = sr_listeners v /\
  sr_shutdowns v' = sr_shutdowns v /\ sr_reports v' = sr_reports v /\
  exists u, sr_tracker v !! s = Some u /\
    (sr_tracker v' = delete s (sr_tracker v) /\ sr_table v' = sr_table v /\ su_pc u = SuDone \/
     exists u', sr_tracker v' = <[s := u']> (sr_tracker v)).
Proof.
  unfold session_step, supervise, upd_tracker. intros H. destruct (sr_tracker v !! s) as [u|] eqn:Hu; [|done].
  assert (Halt : forall f, alter f s (sr_tracker v) = <[s := f u]> (sr_tracker v)).
  { intros f. by rewrite alter_alt, Hu. }
  destruct ev; repeat case_match; try done; injection H as <-; cbn; split_and!; try done;
    exists u; (split; [done|]);
    first [by left|right; rewrite ?Halt, ?alter_insert_eq; by eexists].
Qed.

Lemma loops_ok_insert st L sc i pc pc' : L !! i = Some pc -> loops_ok st L sc -> loops_ok st (<[i := pc']> L) sc.
Proof.
  intros Hi. destruct st; cbn; try done; try (by intros [-> _]).
  intros [H ?]. split; [|done]. intros j pc0 [[-> _]|[_ Hj]]%lookup_insert_Some; eauto.
Qed.

Lemma loops_ok_delete st L sc i : loops_ok st L sc -> loops_ok st (delete i L) sc.
Proof.
  destruct st; cbn; try done; try (intros [-> ?]; by rewrite delete_empty).
  intros [H ?]. split; [|done]. intros j pc [_ Hj]%lookup_delete_Some. eauto.
Qed.

Lemma holders_delete L i pc : L !! i = Some pc -> holders L = permits_of pc + holders (delete i L).
Proof. intros Hi. unfold holders. rewrite (map_fold_delete_L _ _ i pc L); [done|lia|done]. Qed.

Lemma holders_insert_new L i pc : L !! i = None -> holders (<[i := pc]> L) = permits_of pc + holders L.
Proof. intros Hi. unfold holders. rewrite map_fold_insert_L; [done|lia|done]. Qed.

Lemma holders_insert L i pc pc' : L !! i = Some pc ->
  holders (<[i := pc']> L) = holders L - permits_of pc + permits_of pc'.
Proof.
  intros Hi. rewrite <- insert_delete_eq, holders_insert_new by apply lookup_delete_eq.
  rewrite (holders_delete _ _ _ Hi). lia.
Qed.

Lemma holders_nonneg L : 0 <= holders L.
Proof.
  unfold holders. apply (map_fold_weak_ind (fun n _ => 0 <= n)); [lia|].
  intros i pc m n _ Hn. unfold permits_of. case_match; lia.
Qed.

Lemma holders_none L : (forall i pc, L !! i = Some pc -> permits_of pc = 0) -> holders L = 0.
Proof.
  unfold holders. induction L as [|i pc L Hi IH] using map_ind; intros HL.
  - apply map_fold_empty.
  - rewrite map_fold_insert_L; [|lia|done]. rewrite (HL i pc) by apply lookup_insert_eq.
    rewrite IH; [lia|]. intros j pj Hj. apply (HL j). rewrite lookup_insert_ne; [done|]. congruence.
Qed.

Lemma tracker_insert_size (T : gmap SessionId supervisor) s u u' : T !! s = Some u -> size (<[s := u']> T) = size T.
Proof. intros Hs. rewrite map_size_insert, Hs. done. Qed.

Section Invariants.
Context (cap : option Z) (permits : Z) (protocols : nat).
Notation step := (server_step cap protocols).

(** [phases_ok] sees the course, the accept loops and the shutdowns. *)
Lemma phases_frame v v' : phases_ok v -> course (sr_life v') = course (sr_life v) ->
  loops_ok (lf_startup (sr_life v)) (sr_listeners v') (lf_scanner (sr_life v)) ->
  (forall i pc, sr_shutdowns v' !! i = Some pc -> never_of pc = true ->
     exists i pc, sr_shutdowns v !! i = Some pc /\ never_of pc = true) ->
  phases_ok v'.
Proof.
  intros [Hf Hl Hn] Hc Hl' Hn'. injection Hc as Hp Hs Hsc _ _. split.
  - by rewrite Hp, Hs.
  - by rewrite Hs, Hsc.
  - intros i pc Hi Ht. destruct (Hn' i pc Hi Ht) as (j & pc' & Hj & Ht'). rewrite Hs, Hp. by eapply Hn.
Qed.

Lemma phases_startup b v v' : phases_ok v -> startup_step protocols b v = Some v' -> phases_ok v'.
Proof.
  intros [Hf Hl Hn] H. unfold startup_step in H.
  assert (Hserved : lf_startup (sr_life v) <> NotServed -> forall i pc, sr_shutdowns v !! i = Some pc ->
    never_of pc = true -> False) by (intros Hne i pc Hi Ht; by destruct (Hn i pc Hi Ht)).
  destruct (lf_startup (sr_life v)) as [| |k|k| | | |[[]|e|]| | | | |] eqn:Hst; try done;
    specialize (Hserved ltac:(done)); repeat case_match; try done; injection H as <-;
    (split; cbn in *; [try done|try done|intros i pc Hi Ht; exfalso; eauto]); try (destruct Hf; split; congruence).
  - destruct Hl as [-> ->]. split; [|done]. intros i pc Hi. by rewrite lookup_empty in Hi.
  - destruct Hl as [Hl ->]. split; [|done]. intros i pc [[<- _]|[_ Hi]]%lookup_insert_Some; [lia|].
    apply Hl in Hi. lia.
  - match goal with H : _ && _ = true |- _ =>
      apply andb_prop in H as [[_ ?%bool_decide_eq_true]%andb_prop ?%negb_true_iff] end. done.
Qed.

Lemma phases_shutdown i expired v v' : phases_ok v -> shutdown_step cap i expired v = Some v' -> phases_ok v'.
Proof.
  intros Hok H. pose proof Hok as [Hf Hl Hn]. unfold shutdown_step in H.
  destruct (sr_shutdowns v !! i) as [pc|] eqn:Hi; [|done].
  assert (Hkeep : forall pc' v', sr_shutdowns v' = <[i := pc']> (sr_shutdowns v) ->
    (never_of pc' = true -> never_of pc = true) ->
    course (sr_life v') = (lf_phase (sr_life v), lf_startup (sr_life v), lf_scanner (sr_life v),
       lf_admission (sr_life v'), lf_root (sr_life v')) ->
    sr_listeners v' = sr_listeners v -> phases_ok v').
  { intros pc' v0 Hs Hnv Hc HL. injection Hc as Hp Hst Hsc. split.
    - by rewrite Hp, Hst.
    - by rewrite Hst, HL, Hsc.
    - intros j pc0. rewrite Hs, Hst, Hp. intros [[<- <-]|[_ Hj]]%lookup_insert_Some Ht; eapply Hn; eauto. }
  assert (Hphase : forall p pc' v', sr_shutdowns v' = <[i := pc']> (sr_shutdowns v) ->
    (never_of pc' = true -> lf_startup (sr_life v) = NotServed) -> p <> PhaseIdle ->
    phase_fits (lf_startup (sr_life v)) p ->
    course (sr_life v') = (p, lf_startup (sr_life v), lf_scanner (sr_life v),
       lf_admission (sr_life v'), lf_root (sr_life v')) ->
    sr_listeners v' = sr_listeners v -> phases_ok v').
  { intros p pc' v0 Hs Hnv Hne Hfit Hc HL. injection Hc as Hp Hst Hsc. split.
    - by rewrite Hp, Hst.
    - by rewrite Hst, HL, Hsc.
    - intros j pc0. rewrite Hs, Hst, Hp. intros [[<- <-]|[_ Hj]]%lookup_insert_Some Ht; split; auto. by eapply Hn. }
  assert (Hsd : lf_phase (sr_life v) <> PhaseStopped -> phase_fits (lf_startup (sr_life v)) PhaseShuttingDown).
  { intros Hne. destruct (lf_startup (sr_life v)); cbn in *; auto. congruence. }
  destruct pc; repeat case_match; try done; injection H as <-;
    try (eapply Hkeep; cbn; try done; unfold course; cbn; congruence).
  - eapply (Hphase PhaseShuttingDown); try done; [|by apply Hsd; congruence]. intros _.
    destruct (lf_startup (sr_life v)); try done; cbn in Hf; destruct Hf; congruence.
  - eapply (Hphase PhaseShuttingDown); try done. apply Hsd; congruence.
  - eapply (Hphase PhaseShuttingDown); try done. apply Hsd; congruence.
  - destruct (Hn i _ Hi eq_refl) as [Hst _].
    eapply (Hphase PhaseStopped); try done. rewrite Hst. cbn. auto.
  - apply (phases_frame v); try done. cbn. intros j pc0 [_ Hj]%lookup_delete_Some Ht. eauto.
Qed.

Lemma phases_step l v : phases_ok v -> phases_ok (step l v).
Proof.
  intros Hok. unfold server_step. destruct l as [| |b|pn|i ev|s ev|i ex|i ex|x]; cbn [from_option].
  - unfold serve. destruct (lf_phase (sr_life v)) eqn:Hp; try done. pose proof Hok as [Hf Hl Hn].
    assert (Hst : lf_startup (sr_life v) = NotServed).
    { rewrite Hp in Hf. destruct (lf_startup (sr_life v)); try done; by destruct Hf. }
    rewrite Hst in *. split; cbn; try done. intros i pc Hi Ht. by destruct (Hn i pc Hi Ht).
  - apply (phases_frame v); try done; [apply Hok|eauto].
  - destruct (startup_step protocols b v) eqn:H; [by eapply phases_startup|done].
  - destruct (scanner_ends pn v) eqn:H; [|done]. unfold scanner_ends in H.
    destruct (lf_scanner (sr_life v) && _) eqn:Hs; [|done]. injection H as <-.
    apply andb_prop in Hs as [Hs _]. set (v0 := upd_life (set_scanner false) v).
    destruct (fail_fast_frame v0) as (Hc & _ & _ & _ & _ & HL & Hsd & _). cbv zeta in *.
    assert (H0 : phases_ok v0).
    { pose proof Hok as [Hf Hl Hn]. split; cbn; try done.
      destruct (lf_startup (sr_life v)); cbn in *; naive_solver congruence. }
    unfold from_option, id. apply (phases_frame v0); try done; rewrite ?HL, ?Hsd; [apply (ph_loops _ H0)|eauto].
  - destruct (listener_step i ev v) as [v'|] eqn:H; [|done].
    destruct (listener_frame _ _ _ _ H) as (Hc & Hsd & _ & pc & Hpc & HL).
    unfold from_option, id. apply (phases_frame v); try done; rewrite ?Hsd; [|eauto]. pose proof (ph_loops _ Hok).
    destruct HL as [->|[pc' ->]]; [by apply loops_ok_delete|by eapply loops_ok_insert].
  - destruct (session_step s ev v) as [v'|] eqn:H; [|done].
    destruct (session_frame _ _ _ _ H) as (Hc & _ & HL & Hsd & _).
    unfold from_option, id. apply (phases_frame v); rewrite ?Hc, ?HL, ?Hsd; try done; [apply Hok|eauto].
  - destruct (shutdown_call cap i ex v) as [v'|] eqn:H; [|done]. unfold shutdown_call in H.
    repeat case_match; try done; injection H as <-; (apply (phases_frame v); try done; [apply Hok|eauto]).
    cbn. intros j pc [<- <-]%lookup_singleton_Some Ht. done.
  - destruct (shutdown_step cap i ex v) as [v'|] eqn:H; [|done]. by eapply phases_shutdown.
  - apply (phases_frame v); try done; [apply Hok|eauto].
Qed.

Lemma listening_fresh k v : phases_ok v -> lf_startup (sr_life v) = Listening k -> sr_listeners v !! k = None.
Proof.
  intros [_ Hl _] Hk. rewrite Hk in Hl. destruct Hl as [Hl _].
  destruct (sr_listeners v !! k) eqn:E; [apply Hl in E; lia|done].
Qed.

(** ** Identifiers *)

Record ids_ok (v : server) : Prop := {
  id_pos : 1 <= sr_next_id v;
  id_carried : forall i pc s, sr_listeners v !! i = Some pc -> carries pc = Some s -> s < sr_next_id v;
  id_unique : forall i j pc pc' s, sr_listeners v !! i = Some pc -> sr_listeners v !! j = Some pc' ->
    carries pc = Some s -> carries pc' = Some s -> i = j;
  id_new : forall i pc s, sr_listeners v !! i = Some pc -> carries pc = Some s -> holds_permit pc = true ->
    sr_tracker v !! s = None;
  id_tracked : forall s u, sr_tracker v !! s = Some u -> s < sr_next_id v;
  id_unstarted : forall i pc s, sr_listeners v !! i = Some pc -> (pc = LCancelToken s \/ pc = LStart s) ->
    exists u, sr_tracker v !! s = Some u /\ su_started u = false /\ su_pc u = SuSelect
}.

(** Steps that leave the accept loops' sessions and the tracker alone. *)
Lemma ids_frame v v' : ids_ok v -> sr_next_id v' = sr_next_id v -> sr_tracker v' = sr_tracker v ->
  (forall i pc s, sr_listeners v' !! i = Some pc -> carries pc = Some s -> sr_listeners v !! i = Some pc) ->
  ids_ok v'.
Proof.
  intros [] Hn Ht HL. split; rewrite ?Hn, ?Ht; try done.
  - intros i pc s Hi Hc. eauto.
  - intros i j pc pc' s Hi Hj Hc Hc'. eauto.
  - intros i pc s Hi Hc Hh. eauto.
  - intros i pc s Hi Hpc. eapply id_unstarted0; [|done]. eapply HL; [done|].
    by destruct Hpc as [->| ->].
Qed.

(** Supervisors change without starting and without leaving their first step. *)
Lemma ids_supervise v v' s f : ids_ok v -> sr_next_id v' = sr_next_id v ->
  sr_tracker v' = alter f s (sr_tracker v) ->
  (forall u, sr_tracker v !! s = Some u -> su_started u = false -> su_pc u = SuSelect ->
     su_started (f u) = false /\ su_pc (f u) = SuSelect) ->
  (forall i pc s, sr_listeners v' !! i = Some pc -> carries pc = Some s -> sr_listeners v !! i = Some pc) ->
  ids_ok v'.
Proof.
  intros [] Hn Ht Hf HL.
  assert (Hnone : forall k, sr_tracker v !! k = None -> sr_tracker v' !! k = None).
  { intros k Hk. rewrite Ht. destruct (decide (k = s)) as [->|]; [by rewrite lookup_alter_eq, Hk|].
    by rewrite lookup_alter_ne. }
  split; rewrite ?Hn; try done.
  - intros i pc k Hi Hc. eauto.
  - intros i j pc pc' k Hi Hj Hc Hc'. eauto.
  - intros i pc k Hi Hc Hh. eauto.
  - intros k u Hu. destruct (sr_tracker v !! k) eqn:E; [eauto|]. apply Hnone in E. congruence.
  - intros i pc k Hi Hpc. assert (Hold : sr_listeners v !! i = Some pc)
      by (eapply (HL _ _ k); [done|by destruct Hpc as [->| ->]]).
    destruct (id_unstarted0 _ _ _ Hold Hpc) as (u & Hu & H1 & H2). rewrite Ht.
    destruct (decide (k = s)) as [->|]; [|rewrite lookup_alter_ne by done; eauto].
    rewrite lookup_alter_eq, Hu. exists (f u). split; [done|]. by apply Hf.
Qed.

(** An accept loop moves on with its session, which keeps its place. *)
Lemma ids_move v v' i pc pc' s : ids_ok v -> sr_listeners v !! i = Some pc ->
  carries pc = Some s -> carries pc' = None \/ carries pc' = Some s /\
    (holds_permit pc' = true -> holds_permit pc = true) /\
    (pc' = LCancelToken s \/ pc' = LStart s ->
       exists u, sr_tracker v' !! s = Some u /\ su_started u = false /\ su_pc u = SuSelect) ->
  sr_listeners v' = <[i := pc']> (sr_listeners v) -> sr_next_id v' = sr_next_id v ->
  (forall k, k <> s -> sr_tracker v' !! k = sr_tracker v !! k) ->
  (holds_permit pc' = true -> sr_tracker v' !! s = sr_tracker v !! s) ->
  ids_ok v'.
Proof.
  intros [] Hi Hc Hpc' HL Hn Ht Hts. split; rewrite ?HL, ?Hn; try done.
  - intros j pj sj [[<- <-]|[_ Hj]]%lookup_insert_Some Hcj; [|eauto].
    destruct Hpc' as [?|(Hc' & _)]; [congruence|]. simplify_eq. eauto.
  - intros j k pj pk sj Hj Hk Hcj Hck.
    assert (Hold : forall j pj, <[i := pc']> (sr_listeners v) !! j = Some pj -> carries pj = Some sj ->
      exists p0, sr_listeners v !! j = Some p0 /\ carries p0 = Some sj).
    { intros j0 pj0 [[<- <-]|[_ H]]%lookup_insert_Some H'; [|eauto].
      destruct Hpc' as [?|(Hc' & _)]; [congruence|]. simplify_eq. eauto. }
    destruct (Hold _ _ Hj Hcj) as (? & ? & ?), (Hold _ _ Hk Hck) as (? & ? & ?). eauto.
  - intros j pj sj [[<- <-]|[Hne Hj]]%lookup_insert_Some Hcj Hh.
    + destruct Hpc' as [?|(Hc' & Hh' & _)]; [congruence|]. simplify_eq. rewrite Hts by done. eauto.
    + rewrite Ht; [eauto|]. intros ->. by assert (j = i) by eauto.
  - intros k u Hk. destruct (decide (k = s)) as [->|Hne]; [eauto|]. rewrite Ht in Hk by done. eauto.
  - intros j pj sj [[<- <-]|[Hne Hj]]%lookup_insert_Some Hpj.
    + destruct Hpc' as [?|(Hc' & _ & Hu)]; [by destruct Hpj as [->| ->]|].
      assert (sj = s) as -> by (by destruct Hpj as [->| ->]; simplify_eq/=). by apply Hu.
    + rewrite Ht; [eauto|]. intros ->.
      assert (carries pj = Some s) by (by destruct Hpj as [->| ->]). by assert (j = i) by eauto.
Qed.

Lemma ids_listener i ev v v' : ids_ok v -> sr_next_id v < U64_MAX -> listener_step i ev v = Some v' -> ids_ok v'.
Proof.
  intros Hok Hb H. destruct (listener_cases _ _ _ _ H) as (pc & Hi & He). clear H.
  assert (Hwait : forall pc' v0, sr_listeners v0 = <[i := pc']> (sr_listeners v) -> carries pc' = None ->
    sr_next_id v0 = sr_next_id v -> sr_tracker v0 = sr_tracker v -> ids_ok v0).
  { intros pc' v0 HL Hc Hn Ht. apply (ids_frame v); try done. rewrite HL.
    intros j pj s [[<- <-]|[_ Hj]]%lookup_insert_Some ?; [congruence|done]. }
  assert (Hmove : forall s pc' v0, sr_listeners v0 = <[i := pc']> (sr_listeners v) ->
    carries pc = Some s -> carries pc' = Some s -> (holds_permit pc' = true -> holds_permit pc = true) ->
    (pc' = LCancelToken s \/ pc' = LStart s -> pc = LCancelToken s) ->
    sr_next_id v0 = sr_next_id v -> sr_tracker v0 = sr_tracker v -> ids_ok v0).
  { intros s pc' v0 HL Hc Hc' Hh Hu Hn Ht.
    apply (ids_move v v0 i pc pc' s); try done; rewrite ?Ht; try done. right. split_and!; try done.
    intros Hx%Hu. eapply (id_unstarted _ Hok); eauto. }
  destruct He as [pc|pc pc'| | |s|s|s|s|s|s|s|s|s|s]; try (by eapply Hwait);
    try (eapply (Hmove s); try done; by intros [|]).
  - unfold listener_dies. set (v0 := if holds_permit pc then _ else _).
    destruct (fail_fast_frame v0) as (_ & _ & Hn & _ & Ht & HL & _). cbv zeta in *.
    apply (ids_frame v); rewrite ?Hn, ?Ht, ?HL; unfold v0; destruct (holds_permit pc); try done;
      cbn; by intros j pj s [_ Hj]%lookup_delete_Some.
  - assert (Hw : wrap 64 (sr_next_id v + 1) = sr_next_id v + 1).
    { pose proof (id_pos _ Hok). apply wrap_small. unfold in_width, U64_MAX in *. lia. }
    destruct Hok. split; cbn; rewrite ?Hw; [lia|..].
    + intros j pj s [[<- <-]|[_ Hj]]%lookup_insert_Some Hc; [cbn in Hc; simplify_eq; lia|].
      pose proof (id_carried0 _ _ _ Hj Hc). lia.
    + intros j k pj pk s [[<- <-]|[_ Hj]]%lookup_insert_Some [[<- <-]|[_ Hk]]%lookup_insert_Some Hcj Hck; try done.
      * cbn in Hcj. simplify_eq. pose proof (id_carried0 _ _ _ Hk Hck). lia.
      * cbn in Hck. simplify_eq. pose proof (id_carried0 _ _ _ Hj Hcj). lia.
      * eauto.
    + intros j pj s [[<- <-]|[_ Hj]]%lookup_insert_Some Hc Hh; [|eauto]. cbn in Hc. simplify_eq.
      destruct (sr_tracker v !! sr_next_id v) eqn:E; [|done]. apply id_tracked0 in E. lia.
    + intros s u Hu%id_tracked0. lia.
    + intros j pj s [[<- <-]|[_ Hj]]%lookup_insert_Some Hpj; [by destruct Hpj|eauto].
  - apply (Hmove s (if lf_admission (sr_life v) then LInstalling s else LRefusing s)); try done;
      destruct (lf_admission (sr_life v)); try done; by intros [|].
  - eapply (ids_move v); try done; cbn.
    + right. split_and!; try done. intros _. exists fresh_supervisor. by rewrite lookup_insert_eq.
    + intros k Hk. by rewrite lookup_insert_ne.
  - eapply (ids_move v); try done; cbn; [by left|]. intros k Hk. by rewrite lookup_alter_ne.
  - eapply (ids_supervise v _ s); try done; cbn.
    intros j pj k [[<- <-]|[_ Hj]]%lookup_insert_Some Hc; done.
Qed.

Lemma ids_session s ev v v' : ids_ok v -> session_step s ev v = Some v' -> ids_ok v'.
Proof.
  intros Hok H. pose proof (session_frame _ _ _ _ H) as (_ & Hn & HL & _ & _ & u & Hu & Htr).
  destruct (decide (su_started u = false /\ su_pc u = SuSelect)) as [[Hst Hpc]|Hns].
  - unfold session_step, supervise in H. rewrite Hu, Hst, Hpc in H.
    destruct ev; repeat case_match; try done; injection H as <-;
      (eapply ids_supervise; [done|done|done|done|done]).
  - assert (Hpre : forall i pc, sr_listeners v !! i = Some pc -> pc = LCancelToken s \/ pc = LStart s -> False).
    { intros i pc Hi Hpc. destruct (id_unstarted _ Hok _ _ _ Hi Hpc) as (u' & Hu' & ? & ?). simplify_eq. auto. }
    destruct Hok. destruct Htr as [(Ht & _ & _)|[u' Ht]]; split; rewrite ?Hn, ?HL, ?Ht; try done.
    + intros i pc k Hi Hc Hh. rewrite lookup_delete_None. eauto.
    + intros k x [_ Hk]%lookup_delete_Some. eauto.
    + intros i pc k Hi Hpc. rewrite lookup_delete_ne; [eauto|]. intros ->. eauto.
    + intros i pc k Hi Hc Hh. rewrite lookup_insert_ne; [eauto|]. intros ->.
      rewrite (id_new0 _ _ _ Hi Hc Hh) in Hu. done.
    + intros k x [[<- <-]|[_ Hk]]%lookup_insert_Some; eauto.
    + intros i pc k Hi Hpc. rewrite lookup_insert_ne; [eauto|]. intros ->. eauto.
Qed.

(** What the steps of no accept loop and no session leave alone. *)
Lemma other_frame l v : (forall i ev, l <> Listener i ev) -> (forall s ev, l <> Session s ev) ->
  let v' := step l v in
  sr_permits v' = sr_permits v /\ sr_next_id v' = sr_next_id v /\ sr_tracker v' = sr_tracker v /\
  (sr_listeners v' = sr_listeners v \/ exists k, lf_startup (sr_life v) = Listening k /\
     sr_listeners v' = <[k := LWait]> (sr_listeners v)) /\
  (sr_table v' = sr_table v \/ exists x, l = Touch x /\ sr_table v' = touch_table x (sr_table v)).
Proof.
  intros Hl Hs. cbv zeta. unfold server_step.
  destruct l as [| |b|pn|i ev|s ev|i ex|i ex|x]; try (by destruct (Hl i ev)); try (by destruct (Hs s ev)).
  - unfold serve. destruct (lf_phase (sr_life v)); cbn; eauto 10.
  - cbn. eauto 10.
  - unfold startup_step. destruct (lf_startup (sr_life v)) as [| |k|k| | | |[[]|e|]| | | | |]; cbn;
      repeat case_match; cbn; eauto 10.
  - unfold scanner_ends. case_match; [|cbn; eauto 10].
    destruct (fail_fast_frame (upd_life (set_scanner false) v)) as (_ & Hp & Hn & Ht & Htr & HL & _).
    cbv zeta in *. cbn. rewrite Hp, Hn, Ht, Htr, HL. cbn. eauto 10.
  - unfold shutdown_call. repeat case_match; cbn; eauto 10.
  - unfold shutdown_step. destruct (sr_shutdowns v !! i) as [pc|]; [|cbn; eauto 10].
    destruct pc; repeat case_match; cbn; eauto 10.
  - cbn. split_and!; try done; eauto.
Qed.

Lemma ids_step l v : ids_ok v -> sr_next_id v < U64_MAX -> ids_ok (step l v).
Proof.
  intros Hok Hb. destruct l as [| |b|pn|i ev|s ev|i ex|i ex|x].
  5: { unfold server_step. destruct (listener_step i ev v) eqn:H; [|done]. by eapply ids_listener. }
  5: { unfold server_step. destruct (session_step s ev v) eqn:H; [|done]. by eapply ids_session. }
  all: match goal with |- ids_ok (server_step _ _ ?l _) =>
    destruct (other_frame l v) as (_ & Hn & Ht & HL & _); try done;
    apply (ids_frame v); try done; intros i0 pc0 s0;
    destruct HL as [->|(k & _ & ->)]; try done;
    intros [[<- <-]|[_ Hi]]%lookup_insert_Some ?; done end.
Qed.

(** ** Permits *)

Definition permits_ok (v : server) : Prop :=
  sr_permits v + Z.of_nat (size (sr_tracker v)) + holders (sr_listeners v) = permits /\ 0 <= sr_permits v.

Lemma session_permits s ev v v' : session_step s ev v = Some v' ->
  sr_permits v' + Z.of_nat (size (sr_tracker v')) = sr_permits v + Z.of_nat (size (sr_tracker v)) /\
  sr_permits v <= sr_permits v'.
Proof.
  unfold session_step, supervise, upd_tracker. intros H. destruct (sr_tracker v !! s) as [u|] eqn:Hu; [|done].
  assert (Halt : forall f, alter f s (sr_tracker v) = <[s := f u]> (sr_tracker v)).
  { intros f. by rewrite alter_alt, Hu. }
  destruct ev; repeat case_match; try done; injection H as <-; cbn; rewrite ?Halt, ?alter_insert_eq,
    ?(tracker_insert_size _ s u) by done; try done.
  rewrite map_size_delete, Hu. assert (size (sr_tracker v) <> 0)%nat; [|lia].
  intros Hz%map_size_empty_inv. by rewrite Hz, lookup_empty in Hu.
Qed.

Lemma listener_permits i ev v v' : ids_ok v -> permits_ok v -> listener_step i ev v = Some v' -> permits_ok v'.
Proof.
  intros Hids [Hp H0] H. destruct (listener_cases _ _ _ _ H) as (pc & Hi & He). clear H.
  pose proof (holders_delete _ _ _ Hi) as Hd. pose proof (fun pc' => holders_insert _ _ _ pc' Hi) as Hins.
  unfold permits_ok.
  destruct He as [pc|pc pc' ? ? Hpc Hpc'| | |s|s|s|s|s|s|s|s|s|s]; cbn; rewrite ?Hins; unfold permits_of in *; cbn in *.
  all: try lia.
  - unfold listener_dies. set (v0 := if holds_permit pc then _ else _).
    destruct (fail_fast_frame v0) as (_ & Hsp & _ & _ & Ht & HL & _). cbv zeta in *.
    rewrite Hsp, Ht, HL. unfold v0. destruct (holds_permit pc); cbn; lia.
  - rewrite Hpc, Hpc'. lia.
  - destruct (lf_admission (sr_life v)); cbn; lia.
  - rewrite map_size_insert_None by (by eapply (id_new _ Hids)). lia.
  - assert (exists u, sr_tracker v !! s = Some u) as [u Hu]
      by (destruct (id_unstarted _ Hids i (LStart s) s) as (u & ? & _); eauto).
    rewrite alter_alt, Hu, (tracker_insert_size _ s u) by done. lia.
  - assert (size (alter (fun u => mkSupervisor (su_started u) true (su_actor u) (su_pump u) (su_pc u)) s
      (sr_tracker v)) = size (sr_tracker v)) as ->; [|lia].
    rewrite alter_alt. destruct (sr_tracker v !! s) eqn:Hu; [by erewrite tracker_insert_size|done].
Qed.

Lemma permits_step l v : phases_ok v -> ids_ok v -> permits_ok v -> permits_ok (step l v).
Proof.
  intros Hph Hids Hp. destruct l as [| |b|pn|i ev|s ev|i ex|i ex|x].
  5: { unfold server_step. destruct (listener_step i ev v) eqn:H; [|done]. by eapply listener_permits. }
  5: { unfold server_step. destruct (session_step s ev v) eqn:H; [|done].
       destruct (session_permits _ _ _ _ H), (session_frame _ _ _ _ H) as (_ & _ & HL & _).
       unfold permits_ok in *. cbn. rewrite HL. lia. }
  all: match goal with |- permits_ok (server_step _ _ ?l _) =>
    destruct (other_frame l v) as (H & Hn & Ht & HL & _); [done|done|]; unfold permits_ok in *;
    rewrite H, Ht; destruct HL as [->|(k & Hk & ->)]; [done|];
    rewrite holders_insert_new by (by apply listening_fresh); unfold permits_of; cbn; lia end.
Qed.

(** ** Session tables *)

Inductive part := InTransports | InStates | InHandles | InCancels.
Definition member (x : part) (s : SessionId) (t : sessions_table) : Prop :=
  match x with
  | InTransports => s ∈ sv_transports t
  | InStates => is_Some (sv_states t !! s)
  | InHandles => s ∈ sv_handles t
  | InCancels => s ∈ sv_cancels t
  end.

(** From which step of an accept loop, and up to which step of the supervisor,
    a session is in the table. *)
Definition from_stage (x : part) : nat :=
  match x with InTransports => 1 | InStates => 2 | InHandles => 4 | InCancels => 5 end.
Definition to_rank (x : part) : nat :=
  match x with InTransports => 3 | InHandles => 4 | InStates => 5 | InCancels => 6 end.

(** A session somebody answers for: the accept loop adding it, or its supervisor. *)
Definition owned (k r : nat) (s : SessionId) (v : server) : Prop :=
  (exists i pc, sr_listeners v !! i = Some pc /\ carries pc = Some s /\ holds_permit pc = true /\ (k <= stage pc)%nat) \/
  (exists u, sr_tracker v !! s = Some u /\ (rank (su_pc u) <= r)%nat).
Definition tables_ok (v : server) : Prop :=
  forall x s, member x s (sr_table v) -> owned (from_stage x) (to_rank x) s v.

Lemma member_touch x y s t : member x s (touch_table y t) -> member x s t.
Proof.
  assert (Hins : forall (k : SessionId) c (m : gmap SessionId ConnState), is_Some (m !! k) -> is_Some (<[k := c : ConnState]> m !! s) -> is_Some (m !! s)).
  { intros k c m Hk [c' Hc]. apply lookup_insert_Some in Hc as [[<- _]|[_ ?]]; eauto. }
  destruct y as [k|k|k|k|k|r], x; cbn; try done; try set_solver.
  - unfold csm_remove_connection. intros [c [_ Hc]%lookup_delete_Some]. eauto.
  - unfold start_closing, csm_try_start_closing. by repeat case_match.
  - unfold start_closing, csm_try_start_closing. repeat case_match; simplify_eq/=; eauto.
  - unfold start_closing, csm_try_start_closing. by repeat case_match.
  - unfold start_closing, csm_try_start_closing. by repeat case_match.
  - unfold csm_mark_closed. repeat case_match; eauto.
Qed.

Lemma owned_frame k r s v v' : owned k r s v ->
  (forall i pc, sr_listeners v !! i = Some pc -> carries pc = Some s -> holds_permit pc = true ->
     sr_listeners v' !! i = Some pc) ->
  (forall u, sr_tracker v !! s = Some u -> exists u', sr_tracker v' !! s = Some u' /\ su_pc u' = su_pc u) ->
  owned k r s v'.
Proof.
  intros [(i & pc & Hi & Hc & Hh & Hk)|(u & Hu & Hr)] HL HT.
  - left. exists i, pc. auto.
  - right. destruct (HT u Hu) as (u' & Hu' & Hpc). exists u'. by rewrite Hpc.
Qed.

Lemma tables_session s ev v v' : ids_ok v -> tables_ok v -> session_step s ev v = Some v' -> tables_ok v'.
Proof.
  intros Hids Hok H. pose proof (session_frame _ _ _ _ H) as (_ & _ & HL & _ & _ & u & Hu & Htr).
  assert (Hown : forall x, member x s (sr_table v) -> (rank (su_pc u) <= to_rank x)%nat).
  { intros x [(i & pc & Hi & Hc & Hh & _)|(u0 & Hu0 & Hr)]%Hok; [|by simplify_eq].
    rewrite (id_new _ Hids _ _ _ Hi Hc Hh) in Hu. done. }
  assert (Hother : forall x k, k <> s -> member x k (sr_table v) -> owned (from_stage x) (to_rank x) k v').
  { intros x k Hk Hm. apply (owned_frame _ _ _ v); [by apply Hok|by rewrite HL|]. intros u0 Hu0. exists u0.
    split; [|done]. destruct Htr as [(-> & _)|[u' ->]]; by rewrite ?lookup_delete_ne, ?lookup_insert_ne. }
  assert (Hself : forall u', sr_tracker v' !! s = Some u' ->
    (forall x k, member x k (sr_table v') -> member x k (sr_table v)) ->
    (forall x, member x s (sr_table v') -> (rank (su_pc u) <= to_rank x -> rank (su_pc u') <= to_rank x)%nat) ->
    tables_ok v').
  { intros u' Hu' Hsub Hr x k Hm. destruct (decide (k = s)) as [->|Hk]; [|by apply Hother; auto].
    right. exists u'. split; [done|]. auto. }
  unfold session_step, supervise, upd_tracker in H. rewrite Hu in H.
  assert (Halt : forall f, alter f s (sr_tracker v) = <[s := f u]> (sr_tracker v)).
  { intros f. by rewrite alter_alt, Hu. }
  destruct ev; repeat case_match; try done; injection H as <-;
    try (eapply Hself; cbn; [by rewrite ?Halt, ?alter_insert_eq, lookup_insert_eq|try done|];
         cbn; rewrite ?H; intros x; destruct x; cbn; first [done|lia|set_solver]).
  - eapply Hself; cbn; [by rewrite Halt, lookup_insert_eq|..]; cbn.
    + intros x k. apply (member_touch x (TouchState s)).
    + intros []; cbn; try lia. unfold csm_remove_connection. by rewrite lookup_delete_eq; intros [].
  - intros x k Hm. destruct (decide (k = s)) as [->|Hk]; [|by apply Hother].
    apply Hown in Hm. destruct x; cbn in Hm; lia.
Qed.

(** The [i]-th loop moves on; the sessions of the others stay owned. *)
Lemma owned_move k r s i pc pc' v v' : owned k r s v -> sr_listeners v !! i = Some pc ->
  sr_listeners v' = <[i := pc']> (sr_listeners v) \/ sr_listeners v' = delete i (sr_listeners v) ->
  (forall u, sr_tracker v !! s = Some u -> exists u', sr_tracker v' !! s = Some u' /\ su_pc u' = su_pc u) ->
  (carries pc = Some s -> holds_permit pc = true -> (k <= stage pc)%nat -> owned k r s v') ->
  owned k r s v'.
Proof.
  intros [(j & pj & Hj & Hc & Hh & Hk)|(u & Hu & Hr)] Hi HL HT Hpc.
  - destruct (decide (j = i)) as [->|Hne]; [simplify_eq; auto|]. left. exists j, pj. split_and!; try done.
    destruct HL as [-> | ->]; by rewrite ?lookup_insert_ne, ?lookup_delete_ne.
  - right. destruct (HT u Hu) as (u' & Hu' & Hp). exists u'. by rewrite Hp.
Qed.

Lemma owned_loop k r s i pc v : sr_listeners v !! i = Some pc -> carries pc = Some s -> holds_permit pc = true ->
  (k <= stage pc)%nat -> owned k r s v.
Proof. intros. left. eauto 6. Qed.

#[local] Ltac mv Hok := eapply owned_move; [by apply Hok|done|by left|by eauto|].

Lemma tables_listener i ev v v' : ids_ok v -> tables_ok v -> listener_step i ev v = Some v' -> tables_ok v'.
Proof.
  intros Hids Hok H. destruct (listener_cases _ _ _ _ H) as (pc & Hi & He). clear H.
  assert (Hsame : forall k (u : supervisor), sr_tracker v !! k = Some u ->
    exists u', sr_tracker v !! k = Some u' /\ su_pc u' = su_pc u) by eauto.
  assert (Halter : forall s f, (forall u, su_pc (f u) = su_pc u) -> forall k (u : supervisor),
    sr_tracker v !! k = Some u -> exists u', alter f s (sr_tracker v) !! k = Some u' /\ su_pc u' = su_pc u).
  { intros s f Hf k u Hu. destruct (decide (k = s)) as [->|]; [rewrite lookup_alter_eq, Hu; cbn; eauto|].
    rewrite lookup_alter_ne by done. eauto. }
  assert (Hadd : forall y pc' s v0 x k, carries pc = Some s -> carries pc' = Some s -> holds_permit pc' = true ->
    stage pc' = S (stage pc) -> (from_stage y <= stage pc')%nat ->
    sr_listeners v0 = <[i := pc']> (sr_listeners v) -> sr_tracker v0 = sr_tracker v ->
    member x k (sr_table v) \/ (x = y /\ k = s) -> owned (from_stage x) (to_rank x) k v0).
  { intros y pc' s v0 x k Hc Hc' Hh Hst Hy HL Ht Hm.
    assert (Hi' : sr_listeners v0 !! i = Some pc') by (rewrite HL; apply lookup_insert_eq).
    destruct Hm as [Hm|[-> ->]]; [|by eapply owned_loop].
    eapply owned_move; [by apply Hok|done|by left|rewrite Ht; eauto|].
    intros Hk _ Hle. simplify_eq. eapply owned_loop; [done..|lia]. }
  destruct He as [pc|pc pc' ? ? Hpc Hpc'| | |s|s|s|s|s|s|s|s|s|s]; intros x k Hm; cbn in Hm.
  - unfold listener_dies in *. set (v0 := if holds_permit pc then _ else _) in *.
    destruct (fail_fast_frame v0) as (_ & _ & _ & Htb & Ht & HL & _). cbv zeta in *. rewrite Htb in Hm.
    assert (Hv0 : sr_table v0 = sr_table v /\ sr_tracker v0 = sr_tracker v /\
      sr_listeners v0 = delete i (sr_listeners v)) by (unfold v0; by destruct (holds_permit pc)).
    destruct Hv0 as (E1 & E2 & E3). rewrite E1 in Hm. rewrite E3 in HL. rewrite E2 in Ht.
    eapply (owned_move _ _ _ _ _ LWait); [by apply Hok|done|by right|intros u; rewrite Ht; eauto|]. intros Hc Hh Hk.
    exfalso. destruct pc, x; cbn in *; try done; lia.
  - mv Hok. congruence.
  - by mv Hok.
  - by mv Hok.
  - mv Hok. intros _ _ Hk. destruct x; cbn in Hk; lia.
  - mv Hok. intros _ _ Hk. destruct x; cbn in Hk; lia.
  - apply (Hadd InTransports (LState s) s); try done. destruct x; try (by left). set_solver.
  - apply (Hadd InStates (LOpen s) s); try done. destruct x; try (by left). cbn in Hm.
    unfold csm_add_connection in Hm. destruct Hm as [c [[<- _]|[_ ?]]%lookup_insert_Some]; [by right|left; by eexists].
  - apply (Hadd InTransports (LHandle s) s); try done; [cbn; lia|by left].
  - apply (Hadd InHandles (LTrack s) s); try done. destruct x; try (by left). set_solver.
  - destruct (decide (k = s)) as [->|Hne]; [right; exists fresh_supervisor; cbn; rewrite lookup_insert_eq; split; [done|lia]|].
    eapply owned_move; [by apply Hok|done|by left| |cbn; congruence]. intros u Hu. exists u. cbn. by rewrite lookup_insert_ne.
  - destruct (decide (k = s)) as [->|Hne].
    + destruct (id_unstarted _ Hids i (LCancelToken s) s Hi) as (u & Hu & _ & Hp); [eauto|]. right. exists u. rewrite Hp. split; [done|cbn; lia].
    + assert (member x k (sr_table v)) by (destruct x; try done; set_solver). mv Hok. done.
  - eapply owned_move; [by apply Hok|done|by left|by apply Halter|done].
  - eapply owned_move; [by apply Hok|done|by left|by apply Halter|done].
Qed.

Lemma tables_step l v : phases_ok v -> ids_ok v -> tables_ok v -> tables_ok (step l v).
Proof.
  intros Hph Hids Hok. destruct l as [| |b|pn|i ev|s ev|i ex|i ex|x].
  5: { unfold server_step. destruct (listener_step i ev v) eqn:H; [|done]. by eapply tables_listener. }
  5: { unfold server_step. destruct (session_step s ev v) eqn:H; [|done]. by eapply tables_session. }
  all: match goal with |- tables_ok (server_step _ _ ?l _) =>
    destruct (other_frame l v) as (_ & _ & Ht & HL & Htb); [done|done|] end.
  all: intros x0 k Hm; assert (Hm0 : member x0 k (sr_table v))
    by (destruct Htb as [Htb|(y & _ & Htb)]; rewrite Htb in Hm; [done|by eapply member_touch]).
  all: apply (owned_frame _ _ _ v); [by apply Hok| |intros u Hu; rewrite Ht; eauto].
  all: intros i0 pc Hi Hc Hh; destruct HL as [->|(j & Hj & ->)]; [done|];
    pose proof (listening_fresh _ _ Hph Hj); rewrite lookup_insert_ne; [done|congruence].
Qed.

(** ** What shutdown establishes *)

(** Gates that only close. *)
Lemma latches_step l v : let v' := step l v in
  (lf_admission (sr_life v) = false -> lf_admission (sr_life v') = false) /\
  (lf_root (sr_life v) = true -> lf_root (sr_life v') = true).
Proof.
  cbv zeta. unfold server_step.
  assert (Hc : forall v', course (sr_life v') = course (sr_life v) ->
    (lf_admission (sr_life v) = false -> lf_admission (sr_life v') = false) /\
    (lf_root (sr_life v) = true -> lf_root (sr_life v') = true)).
  { intros v' H. injection H as _ _ _ -> ->. done. }
  destruct l as [| |b|pn|i ev|s ev|i ex|i ex|x].
  - unfold serve. by destruct (lf_phase (sr_life v)).
  - done.
  - unfold startup_step. destruct (lf_startup (sr_life v)) as [| |k|k| | | |[[]|e|]| | | | |]; cbn;
      repeat case_match; done.
  - unfold scanner_ends. case_match; [|done].
    destruct (fail_fast_frame (upd_life (set_scanner false) v)) as (Hf & _).
    injection Hf as _ _ _ Ha Hr. cbn [from_option]. unfold id. by rewrite Ha, Hr.
  - destruct (listener_step i ev v) as [v'|] eqn:H; [|done]. by apply Hc, (listener_frame _ _ _ _ H).
  - destruct (session_step s ev v) as [v'|] eqn:H; [|done]. apply Hc. f_equal. by apply (session_frame _ _ _ _ H).
  - unfold shutdown_call. by repeat case_match.
  - unfold shutdown_step. destruct (sr_shutdowns v !! i) as [[]|]; repeat case_match; done.
  - done.
Qed.

Lemma session_transports s ev v v' : session_step s ev v = Some v' ->
  sv_transports (sr_table v') ⊆ sv_transports (sr_table v).
Proof.
  unfold session_step, supervise, upd_tracker. intros H.
  destruct ev; repeat case_match; try done; injection H as <-; cbn; set_solver.
Qed.

Lemma stopped_alone v : phases_ok v -> lf_phase (sr_life v) = PhaseStopped ->
  sr_listeners v = ∅ /\ lf_scanner (sr_life v) = false /\
  (lf_startup (sr_life v) = NotServed \/ lf_startup (sr_life v) = Finished).
Proof.
  intros [Hf Hl _] Hp. rewrite Hp in Hf. destruct (lf_startup (sr_life v)); cbn in Hf, Hl; try done; naive_solver.
Qed.

(** A stopped server stays stopped and takes no session on. *)
Lemma stopped_step l v : phases_ok v -> lf_phase (sr_life v) = PhaseStopped -> let v' := step l v in
  lf_phase (sr_life v') = PhaseStopped /\ (sr_tracker v = ∅ -> sr_tracker v' = ∅) /\
  (sv_transports (sr_table v) = ∅ -> sv_transports (sr_table v') = ∅).
Proof.
  intros Hph Hst. destruct (stopped_alone _ Hph Hst) as (HL & Hsc & Hend). cbv zeta.
  assert (Hrest : (forall i ev, l <> Listener i ev) -> (forall s ev, l <> Session s ev) ->
    lf_phase (sr_life (step l v)) = PhaseStopped -> lf_phase (sr_life (step l v)) = PhaseStopped /\
    (sr_tracker v = ∅ -> sr_tracker (step l v) = ∅) /\
    (sv_transports (sr_table v) = ∅ -> sv_transports (sr_table (step l v)) = ∅)).
  { intros H1 H2 Hp. destruct (other_frame l v H1 H2) as (_ & _ & Ht & _ & Htb).
    split_and!; [done|by rewrite Ht|]. intros He. destruct Htb as [->|(x & _ & ->)]; [done|].
    apply set_eq. intros s. split; [|set_solver]. intros Hm. apply (member_touch InTransports) in Hm.
    cbn in Hm. by rewrite He in Hm. }
  destruct l as [| |b|pn|i ev|s ev|i ex|i ex|x]; try (apply Hrest; [done|done|clear Hrest]).
  - cbn. unfold serve. by rewrite Hst.
  - done.
  - cbn. unfold startup_step. by destruct Hend as [->| ->].
  - cbn. unfold scanner_ends. by rewrite Hsc.
  - cbn. unfold listener_step. by rewrite HL, lookup_empty.
  - cbn. destruct (session_step s ev v) as [v'|] eqn:H; [|done]. cbn.
    pose proof (session_transports _ _ _ _ H). destruct (session_frame _ _ _ _ H) as (-> & _ & _ & _ & _ & u & Hu & _).
    split_and!; [done| |set_solver]. intros He. by rewrite He, lookup_empty in Hu.
  - cbn. unfold shutdown_call. by repeat case_match.
  - cbn. unfold shutdown_step. rewrite Hst. destruct (sr_shutdowns v !! i) as [[]|]; repeat case_match; done.
  - done.
Qed.

Definition pos (pc : shutdown_pc) : nat :=
  match pc with
  | SdPhase => 0 | SdGate _ => 1 | SdOffer _ => 2 | SdCancel _ => 3 | SdClose _ => 4 | SdCount _ => 5
  | SdWait _ _ => 6 | SdClosed _ _ => 7 | SdFinalize _ _ => 8 | SdInfra _ => 9 | SdStragglers _ _ => 10
  | SdRemaining _ _ => 11 | SdTransports _ _ _ => 12 | SdPermits _ _ _ => 13
  end.
Definition infra_of (pc : shutdown_pc) : bool :=
  match pc with
  | SdStragglers _ b | SdRemaining _ b | SdTransports _ b _ | SdPermits _ b _ => b
  | _ => false
  end.
Definition none_left (pc : shutdown_pc) (v : server) : Prop :=
  match pc with
  | SdTransports _ true 0 => sr_tracker v = ∅
  | SdPermits _ true 0 => sr_tracker v = ∅ /\ sv_transports (sr_table v) = ∅
  | _ => True
  end.

(** What a call of [shutdown] has established by each of its steps. *)
Record sd_ok (v : server) (pc : shutdown_pc) : Prop := {
  so_gate : (2 <= pos pc)%nat -> lf_admission (sr_life v) = false;
  so_root : (4 <= pos pc)%nat -> lf_root (sr_life v) = true;
  so_infra : infra_of pc = true -> lf_phase (sr_life v) = PhaseStopped;
  so_none : none_left pc v
}.

Record settled (v : server) : Prop := {
  se_phase : lf_phase (sr_life v) = PhaseStopped;
  se_gate : lf_admission (sr_life v) = false;
  se_root : lf_root (sr_life v) = true;
  se_tracker : sr_tracker v = ∅;
  se_transports : sv_transports (sr_table v) = ∅
}.

Definition shutdowns_ok (v : server) : Prop :=
  (forall i pc, sr_shutdowns v !! i = Some pc -> sd_ok v pc) /\
  (forall r, r ∈ sr_reports v -> sd_clean r = true -> settled v).

Lemma sd_ok_step l v pc : phases_ok v -> sd_ok v pc -> sd_ok (step l v) pc.
Proof.
  intros Hph [Hg Hr Hi Hn]. destruct (latches_step l v) as [Ha Hro].
  pose proof (stopped_step l v Hph) as Hs. cbv zeta in *. split; auto.
  - intros Hpc. by apply Hs, Hi.
  - destruct pc as [| | | | | | | | | | | |c [] [|]|c [] [|]]; try done; cbn in *; specialize (Hs (Hi eq_refl));
      destruct Hs as (_ & H1 & H2); [by apply H1|]. destruct Hn. split; auto.
Qed.

Lemma settled_step l v : phases_ok v -> settled v -> settled (step l v).
Proof.
  intros Hph [Hp Hg Hr Ht Htr]. destruct (latches_step l v) as [Ha Hro].
  destruct (stopped_step l v Hph Hp) as (H1 & H2 & H3). split; auto.
Qed.

Lemma shutdown_frame l v : (forall i ex, l <> Shutdown i ex) -> (forall i ex, l <> ShutdownCall i ex) ->
  sr_shutdowns (step l v) = sr_shutdowns v /\ sr_reports (step l v) = sr_reports v.
Proof.
  intros H1 H2. unfold server_step. destruct l as [| |b|pn|i ev|s ev|i ex|i ex|x];
    try (by destruct (H1 i ex)); try (by destruct (H2 i ex)).
  - unfold serve. by destruct (lf_phase (sr_life v)).
  - done.
  - unfold startup_step. destruct (lf_startup (sr_life v)) as [| |k|k| | | |[[]|e|]| | | | |]; cbn;
      repeat case_match; done.
  - unfold scanner_ends. case_match; [|done].
    cbn [from_option]. unfold id.
    destruct (fail_fast_frame (upd_life (set_scanner false) v)) as (_ & _ & _ & _ & _ & _ & H3 & H4). by rewrite H3, H4.
  - destruct (listener_step i ev v) as [v'|] eqn:H; [|done].
    by destruct (listener_frame _ _ _ _ H) as (_ & ? & ? & _).
  - destruct (session_step s ev v) as [v'|] eqn:H; [|done].
    by destruct (session_frame _ _ _ _ H) as (_ & _ & _ & ? & ? & _).
  - done.
Qed.

Lemma shutdown_advances i ex v v' pc : shutdowns_ok v -> shutdown_step cap i ex v = Some v' ->
  sr_shutdowns v !! i = Some pc ->
  (exists pc', sr_shutdowns v' = <[i := pc']> (sr_shutdowns v) /\ sr_reports v' = sr_reports v /\ sd_ok v' pc') \/
  (exists r, sr_shutdowns v' = delete i (sr_shutdowns v) /\ sr_reports v' = sr_reports v ++ [r] /\
     (sd_clean r = true -> settled v)).
Proof.
  intros [Hok _] H Hi. destruct (Hok _ _ Hi) as [Hg Hr Hin Hn]. unfold shutdown_step in H. rewrite Hi in H.
  destruct pc as [|n|n|n|n|n|n k|n k|n k|k|k b|k b|k b rem|k b rem]; cbn in Hg, Hr, Hin, Hn.
  14: { injection H as <-. right. eexists. split_and!; [done|done|]. cbn.
        intros [[Hrem Hb]%andb_prop _]%andb_prop. apply bool_decide_eq_true in Hrem. subst rem b.
        destruct Hn. split; auto with lia. }
  all: left; repeat case_match; try done; injection H as <-; eexists;
    (split; [done|split; [done|]]); split; cbn; try done; try (intros; first [apply Hg|apply Hr|apply Hin]; first [done|lia]);
    try lia; try (intros; lia).
  - destruct b, (size (sr_tracker v)) eqn:E; try done. by apply map_size_empty_inv.
  - destruct (size (sv_transports (sr_table v))) eqn:E; [|done]. split; [done|]. by apply leibniz_equiv, size_empty_inv.
  - by destruct (size (sv_transports (sr_table v))).
Qed.

Lemma shutdowns_step l v : phases_ok v -> shutdowns_ok v -> shutdowns_ok (step l v).
Proof.
  intros Hph Hok. pose proof Hok as [Hpc Hrep].
  assert (Hsame : sr_shutdowns (step l v) = sr_shutdowns v -> sr_reports (step l v) = sr_reports v ->
    shutdowns_ok (step l v)).
  { intros E1 E2. split; rewrite ?E1, ?E2.
    - intros i pc Hi. apply sd_ok_step; eauto.
    - intros r Hr Hc. apply settled_step; eauto. }
  assert (Hold : forall i pc, sr_shutdowns v !! i = Some pc -> sd_ok (step l v) pc) by (intros; apply sd_ok_step; eauto).
  assert (Hset : forall r, r ∈ sr_reports v -> sd_clean r = true -> settled (step l v)) by (intros; apply settled_step; eauto).
  destruct l as [| |b|pn|i ev|s ev|i ex|i ex|x];
    try (apply Hsame; apply (shutdown_frame _ v); done).
  - unfold server_step in *. destruct (shutdown_call cap i ex v) as [v'|] eqn:H; [|done]. unfold shutdown_call in H.
    cbn in *. destruct ex; [|destruct (decide _) as [E|]; [|done]]; injection H as <-; split; cbn in *; try done.
    + intros r [Hr| ->%list_elem_of_singleton]%elem_of_app; eauto. done.
    + intros j pc [<- <-]%lookup_singleton_Some. split; cbn; try done; lia.
  - unfold server_step in *. destruct (shutdown_step cap i ex v) as [v'|] eqn:H; [|done]. cbn in *.
    destruct (sr_shutdowns v !! i) as [pc|] eqn:Hi; [|unfold shutdown_step in H; by rewrite Hi in H].
    destruct (shutdown_advances _ _ _ _ _ Hok H Hi) as [(pc' & E1 & E2 & Hsd)|(r & E1 & E2 & Hc)];
      split; rewrite ?E1, ?E2.
    + intros j pj [[<- <-]|[_ Hj]]%lookup_insert_Some; eauto.
    + eauto.
    + intros j pj [_ Hj]%lookup_delete_Some. eauto.
    + intros r' [Hr| ->%list_elem_of_singleton]%elem_of_app Hcl; [eauto|].
      pose proof (settled_step (Shutdown i ex) v Hph (Hc Hcl)) as Hs. unfold server_step in Hs. by rewrite H in Hs.
Qed.

(** ** Every reachable server *)

Record good (v : server) : Prop := {
  gd_phases : phases_ok v;
  gd_ids : ids_ok v;
  gd_permits : permits_ok v;
  gd_tables : tables_ok v;
  gd_shutdowns : shutdowns_ok v
}.

Lemma next_id_step l v : 0 <= sr_next_id v -> sr_next_id (step l v) <= sr_next_id v + 1.
Proof.
  intros H0. destruct l as [| |b|pn|i ev|s ev|i ex|i ex|x].
  5: { unfold server_step. destruct (listener_step i ev v) eqn:H; [|cbn; lia].
       destruct (listener_cases _ _ _ _ H) as (pc & _ & He). cbn. destruct He; cbn; try lia.
       - unfold listener_dies. set (v0 := if holds_permit pc then _ else _).
         destruct (fail_fast_frame v0) as (_ & _ & Hn & _). cbv zeta in Hn. rewrite Hn. unfold v0.
         destruct (holds_permit pc); cbn; lia.
       - unfold wrap. apply Z.mod_le; lia. }
  5: { unfold server_step. destruct (session_step s ev v) eqn:H; [|cbn; lia]. cbn.
       destruct (session_frame _ _ _ _ H) as (_ & -> & _). lia. }
  all: match goal with |- sr_next_id (server_step _ _ ?l _) <= _ =>
    destruct (other_frame l v) as (_ & Hn & _); [done|done|] end; lia.
Qed.

Lemma good_step l v : good v -> sr_next_id v < U64_MAX -> good (step l v).
Proof.
  intros [] Hb. split; [by apply phases_step|by apply ids_step|by apply permits_step|by apply tables_step
    |by apply shutdowns_step].
Qed.

Lemma good_new : 0 <= permits -> good (server_new permits).
Proof.
  intros Hp. split.
  - split; cbn; auto; intros i pc Hi; by rewrite lookup_empty in Hi.
  - split; cbn; try lia; intros *; rewrite ?lookup_empty; done.
  - unfold permits_ok, holders, server_new. cbn [sr_permits sr_tracker sr_listeners].
    rewrite map_size_empty, map_fold_empty. lia.
  - intros [] s; cbn; try done. by rewrite lookup_empty; intros [].
  - split; cbn; [|by intros r ?%not_elem_of_nil]. intros i pc Hi. by rewrite lookup_empty in Hi.
Qed.

Lemma good_run ls v : good v -> sr_next_id v + Z.of_nat (length ls) <= U64_MAX ->
  good (server_run cap protocols ls v).
Proof.
  revert v. induction ls as [|l ls IH]; intros v Hg Hb; [done|]. cbn [length] in Hb.
  pose proof (id_pos _ (gd_ids _ Hg)). pose proof (next_id_step l v ltac:(lia)).
  apply IH; [apply good_step; [done|lia]|lia].
Qed.
End Invariants.
