(* ===== verification/ServerProps.v ===== *)
(** * Correctness of the server's life, sends and pumps *)

From S2P Require Import Prelude Packet Errors Limits Stream Events Registry RegistryInv RegistryOps RegistryRun RegistryProps Transport Actor Server ServerLife ServerInv.

(** ** Sessions and permits *)

(** As many sessions as their accept loops hold permits for. *)
Lemma loops_hold_permits L (X : gset SessionId) :
  (forall s, s ∈ X -> exists i pc, L !! i = Some pc /\ carries pc = Some s /\ holds_permit pc = true) ->
  Z.of_nat (size X) <= holders L.
Proof.
  revert X. induction L as [|i pc L Hi IH] using map_ind; intros X HX.
  - assert (X = ∅) as ->; [|by rewrite size_empty].
    apply set_eq. intros s. split; [|set_solver]. intros (i & pc & Hi & _)%HX. by rewrite lookup_empty in Hi.
  - rewrite holders_insert_new by done. unfold permits_of.
    assert (Hrest : forall Y : gset SessionId, (forall s, s ∈ Y -> s ∈ X /\ (carries pc = Some s -> holds_permit pc = true -> False)) ->
      Z.of_nat (size Y) <= holders L).
    { intros Y HY. apply IH. intros s [Hs Hne]%HY. destruct (HX s Hs) as (j & pj & Hj & Hc & Hh).
      apply lookup_insert_Some in Hj as [[-> ->]|[_ Hj]]; [by destruct Hne|eauto]. }
    destruct (holds_permit pc) eqn:Hh; [|apply Hrest; by intros s Hs].
    destruct (carries pc) as [s0|] eqn:Hc; [|specialize (Hrest X ltac:(by intros s Hs)); lia].
    assert (Z.of_nat (size (X ∖ {[s0]})) <= holders L) by (apply Hrest; set_solver).
    assert (size X <= size (X ∖ {[s0]} ∪ {[s0]}))%nat.
    { apply subseteq_size. intros s Hs. destruct (decide (s = s0)); set_solver. }
    rewrite size_union in H0 by set_solver. rewrite size_singleton in H0. lia.
Qed.

Lemma owned_sessions_bounded permits v (X : gset SessionId) : permits_ok permits v ->
  (forall s, s ∈ X -> exists k r, owned k r s v) -> Z.of_nat (size X) <= permits - sr_permits v.
Proof.
  intros [Hp _] HX. set (Y := X ∖ dom (sr_tracker v)).
  assert (Z.of_nat (size Y) <= holders (sr_listeners v)).
  { apply loops_hold_permits. intros s [Hs Hn]%elem_of_difference.
    destruct (HX s Hs) as (k & r & [(i & pc & ? & ? & ? & _)|(u & Hu & _)]); [eauto|].
    destruct Hn. by apply elem_of_dom. }
  assert (size X <= size (Y ∪ dom (sr_tracker v)))%nat.
  { apply subseteq_size. intros s Hs. destruct (decide (s ∈ dom (sr_tracker v))); set_solver. }
  rewrite size_union, size_dom in H0 by set_solver. lia.
Qed.

Lemma reachable_good cap permits protocols ls : 0 <= permits -> len ls < U64_MAX ->
  good permits (server_run cap protocols ls (server_new permits)).
Proof. intros Hp Hl. apply good_run; [by apply good_new|]. unfold len in Hl. cbn [sr_next_id server_new]. lia. Qed.

(** C22: whatever the accept loops, the supervisors, startup and the calls of
    shutdown do and in whatever order, every permit of the connection cap is
    available, held by one accept loop or held by one live supervisor; so no more
    sessions than the cap are installed, and each session of every table has an
    accept loop still adding it or a supervisor that will remove it. *)
Theorem every_session_holds_a_permit cap permits protocols ls : 0 <= permits -> len ls < U64_MAX ->
  let v := server_run cap protocols ls (server_new permits) in
  let t := sr_table v in
  0 <= sr_permits v /\
  sr_permits v + Z.of_nat (size (sr_tracker v)) + holders (sr_listeners v) = permits /\
  Z.of_nat (size (sv_transports t)) <= permits - sr_permits v /\
  Z.of_nat (size (sv_handles t)) <= permits - sr_permits v /\
  forall x s, member x s t -> owned (from_stage x) (to_rank x) s v.
Proof.
  intros Hp Hl. destruct (reachable_good cap permits protocols ls Hp Hl) as [_ _ Hpm Htb _]. cbv zeta.
  split_and!; [apply Hpm|apply Hpm| | |exact Htb]; apply owned_sessions_bounded; try done; intros s Hs;
    do 2 eexists; [by apply (Htb InTransports)|by apply (Htb InHandles)].
Qed.

Definition two_sessions : list label :=
  [Serve; Startup BuildOk; Startup BuildOk; Startup BuildOk; Startup BuildOk; Startup BuildOk; Startup BuildOk;
   Startup BuildOk; Startup BuildOk] ++ repeat (Listener 0 AcceptOk) 24.

Lemma every_session_holds_witness :
  size (sv_transports (sr_table (server_run (Some 3) 1 two_sessions (server_new 3)))) = 2%nat /\
  sr_permits (server_run (Some 3) 1 two_sessions (server_new 3)) = 1 /\
  2 <= 3 - sr_permits (server_run (Some 3) 1 two_sessions (server_new 3)).
Proof.
  split; [vm_compute; reflexivity|split; [vm_compute; reflexivity|]].
  apply (every_session_holds_a_permit (Some 3) 3 1 two_sessions); [lia|vm_compute; reflexivity].
Defined.

(** ** Shutting down *)

Lemma settled_run cap protocols permits ls v : good permits v -> settled v ->
  sr_next_id v + Z.of_nat (length ls) <= U64_MAX -> settled (server_run cap protocols ls v).
Proof.
  revert v. induction ls as [|l ls IH]; intros v Hg Hs Hb; [done|]. cbn [length] in Hb.
  pose proof (id_pos _ (gd_ids _ _ Hg)). pose proof (next_id_step cap protocols l v ltac:(lia)).
  apply IH; [apply good_step; [done|lia]|apply settled_step; [apply Hg|done]|lia].
Qed.

Lemma settled_empty permits v : good permits v -> settled v ->
  sr_listeners v = ∅ /\ lf_scanner (sr_life v) = false /\ sr_permits v = permits /\
  forall x s, ~ member x s (sr_table v).
Proof.
  intros Hg [Hp _ _ Ht _]. destruct (stopped_alone _ (gd_phases _ _ Hg) Hp) as (HL & Hsc & _).
  split_and!; [done|done| |].
  - destruct (gd_permits _ _ Hg) as [H _]. rewrite Ht, HL, map_size_empty in H. unfold holders in H.
    rewrite map_fold_empty in H. lia.
  - intros x s [(i & pc & Hi & _)|(u & Hu & _)]%(gd_tables _ _ Hg).
    + by rewrite HL, lookup_empty in Hi.
    + by rewrite Ht, lookup_empty in Hu.
Qed.

(** C23: a report that says the shutdown was clean is true and stays true: at the
    report and whatever any task still does after it, no session is tracked and
    none is in any table, no accept loop and no scanner runs, every permit is
    back, the server is stopped with its gate closed, and serving again is
    refused. *)
Theorem clean_shutdown_is_final cap permits protocols ls ls' r : 0 <= permits -> len ls + len ls' < U64_MAX ->
  r ∈ sr_reports (server_run cap protocols ls (server_new permits)) -> sd_clean r = true ->
  let v := server_run cap protocols (ls ++ ls') (server_new permits) in
  lf_phase (sr_life v) = PhaseStopped /\ lf_admission (sr_life v) = false /\
  sr_tracker v = ∅ /\ (forall x s, ~ member x s (sr_table v)) /\
  sr_listeners v = ∅ /\ lf_scanner (sr_life v) = false /\ sr_permits v = permits /\
  exists e, serve v = (v, Some e).
Proof.
  intros Hp Hl Hr Hc. cbv zeta. unfold server_run. rewrite foldl_app. set (v0 := foldl _ _ ls) in *.
  assert (Hg0 : good permits v0) by (apply reachable_good; [done|pose proof (len_nonneg ls'); lia]).
  assert (Hn : sr_next_id v0 + Z.of_nat (length ls') <= U64_MAX).
  { assert (forall ls v, good permits v -> sr_next_id v + Z.of_nat (length ls) <= U64_MAX ->
      sr_next_id (server_run cap protocols ls v) <= sr_next_id v + Z.of_nat (length ls)) as Hrun.
    { clear. induction ls as [|l ls IH]; intros v Hg Hb; [cbn; lia|]. cbn [length] in *.
      pose proof (id_pos _ (gd_ids _ _ Hg)). pose proof (next_id_step cap protocols l v ltac:(lia)).
      etrans; [apply IH; [apply good_step; [done|lia]|lia]|lia]. }
    unfold len in Hl. specialize (Hrun ls (server_new permits) (good_new _ Hp)). cbn [sr_next_id server_new] in Hrun.
    unfold v0. fold (server_run cap protocols ls (server_new permits)). lia. }
  destruct (gd_shutdowns _ _ Hg0) as [_ Hrep].
  assert (Hs : settled (server_run cap protocols ls' v0)) by (by eapply settled_run; eauto).
  assert (Hg : good permits (server_run cap protocols ls' v0)) by (by apply good_run).
  destruct (settled_empty _ _ Hg Hs) as (HL & Hsc & Hpm & Hm). destruct Hs as [Hph Hga _ Ht _].
  unfold server_run in *. split_and!; try done. unfold serve. rewrite Hph. by eexists.
Qed.

(** Two sessions are served, closed and joined; then the startup task ends and
    the shutdown reports. *)
Definition clean_stop : list label :=
  two_sessions ++ [ShutdownCall 7 false; Shutdown 7 false; Shutdown 7 false; Shutdown 7 false; Shutdown 7 false;
    Shutdown 7 false; Shutdown 7 false] ++
  concat (map (fun s => [Session s (PumpEnds false); Session s (ActorEnds false)] ++
    repeat (Session s (Supervise true)) 8) [1; 2]) ++
  [Listener 0 AcceptCancelled; Listener 0 AcceptCancelled; ScannerEnds false; Startup BuildOk; Startup BuildOk;
   Startup BuildOk; Startup BuildOk] ++ repeat (Shutdown 7 false) 10.

Lemma clean_shutdown_witness :
  let r := mkShutdownReport 2 0 true true true in
  sr_reports (server_run (Some 3) 1 clean_stop (server_new 3)) = [r] /\
  sr_permits (server_run (Some 3) 1 (clean_stop ++ [Serve; Stop; Listener 0 AcceptOk]) (server_new 3)) = 3.
Proof.
  split; [vm_compute; reflexivity|].
  apply (clean_shutdown_is_final (Some 3) 3 1 clean_stop [Serve; Stop; Listener 0 AcceptOk]
    (mkShutdownReport 2 0 true true true)); [lia|vm_compute; reflexivity| |reflexivity].
  replace (sr_reports _) with [mkShutdownReport 2 0 true true true] by (vm_compute; reflexivity).
  apply list_elem_of_here.
Defined.

(** The steps a call of [shutdown] has left. *)
Definition sd_left (pc : shutdown_pc) : nat := 14 - pos pc.
Definition expired_step (i : nat) (l : label) : bool :=
  match l with Shutdown j true => Nat.eqb i j | _ => false end.

Lemma shutdown_step_moves cap i ex v v' pc : sr_shutdowns v !! i = Some pc -> shutdown_step cap i ex v = Some v' ->
  sr_shutdowns v' = delete i (sr_shutdowns v) \/
  exists pc', sr_shutdowns v' = <[i := pc']> (sr_shutdowns v) /\ pos pc' = S (pos pc).
Proof.
  unfold shutdown_step. intros Hi H. rewrite Hi in H.
  destruct pc; repeat case_match; try done; injection H as <-; first [by left|right; by eexists].
Qed.

Lemma shutdown_expired_moves cap i v pc : sr_shutdowns v !! i = Some pc -> is_Some (shutdown_step cap i true v).
Proof. intros Hi. unfold shutdown_step. rewrite Hi. destruct pc; repeat case_match; try done; by eexists. Qed.

Lemma shutdown_kept_or_advanced cap protocols l i v pc : sr_shutdowns v !! i = Some pc ->
  sr_shutdowns (server_step cap protocols l v) !! i = None \/
  exists pc', sr_shutdowns (server_step cap protocols l v) !! i = Some pc' /\
    (sd_left pc' + (if expired_step i l then 1 else 0) <= sd_left pc)%nat.
Proof.
  intros Hi.
  assert (Hkeep : sr_shutdowns (server_step cap protocols l v) = sr_shutdowns v -> expired_step i l = false ->
    exists pc', sr_shutdowns (server_step cap protocols l v) !! i = Some pc' /\
      (sd_left pc' + (if expired_step i l then 1 else 0) <= sd_left pc)%nat).
  { intros -> ->. exists pc. split; [done|lia]. }
  destruct l as [| |b|pn|j ev|s ev|j ex|j ex|x];
    try (right; apply Hkeep; [by apply (shutdown_frame cap protocols)|done]).
  - right. apply Hkeep; [|done]. cbn. unfold shutdown_call. destruct ex; [done|].
    destruct (decide _) as [E|]; [|done]. by rewrite E, lookup_empty in Hi.
  - cbn. destruct (shutdown_step cap j ex v) as [v'|] eqn:H; cbn.
    + destruct (sr_shutdowns v !! j) as [pj|] eqn:Hj; [|unfold shutdown_step in H; by rewrite Hj in H].
      destruct (Nat.eqb_spec i j) as [<-|Hne]; simplify_eq.
      * destruct (shutdown_step_moves _ _ _ _ _ _ Hi H) as [->|(pc' & -> & Hp)]; [left; apply lookup_delete_eq|].
        right. exists pc'. rewrite lookup_insert_eq. split; [done|]. unfold sd_left. rewrite Hp.
        assert (pos pc <= 13)%nat by (destruct pc; cbn; lia). destruct ex; lia.
      * right. exists pc. assert ((if ex then false else false) = false) as -> by (by destruct ex). split; [|lia].
        destruct (shutdown_step_moves _ _ _ _ _ _ Hj H) as [->|(pc' & -> & _)];
          by rewrite ?lookup_delete_ne, ?lookup_insert_ne.
    + right. exists pc. split; [done|]. destruct ex; [|lia]. destruct (Nat.eqb_spec i j) as [<-|]; [|lia].
      destruct (shutdown_expired_moves cap _ _ _ Hi). congruence.
Qed.

(** C24: a call of [shutdown] whose budget is over is never stuck: from any state,
    with the sessions hung, the infrastructure wedged and the other tasks doing
    whatever they do in between, the call ends by the time it has been run for
    fourteen steps. *)
Theorem shutdown_ends_within_its_budget cap protocols i v ls : is_Some (sr_shutdowns v !! i) ->
  (14 <= length (List.filter (expired_step i) ls))%nat ->
  exists ls1 ls2, ls = ls1 ++ ls2 /\ sr_shutdowns (server_run cap protocols ls1 v) !! i = None.
Proof.
  intros [pc Hi] Hn. assert (Hm : (sd_left pc <= length (List.filter (expired_step i) ls))%nat)
    by (unfold sd_left; lia). clear Hn.
  revert v pc Hi Hm. induction ls as [|l ls IH]; intros v pc Hi Hm.
  - cbn in Hm. destruct pc; cbn in Hm; lia.
  - destruct (shutdown_kept_or_advanced cap protocols l i v pc Hi) as [Hnone|(pc' & Hi' & Hle)].
    + by exists [l], ls.
    + destruct (IH _ pc' Hi') as (ls1 & ls2 & -> & Hend).
      { cbn [List.filter] in Hm. destruct (expired_step i l); cbn in Hm; lia. }
      by exists (l :: ls1), ls2.
Qed.

Lemma shutdown_ends_witness :
  exists ls1 ls2, repeat (Shutdown 7 true) 14 = ls1 ++ ls2 /\
    sr_shutdowns (server_run (Some 3) 1 ls1
      (server_run (Some 3) 1 (two_sessions ++ [ShutdownCall 7 false]) (server_new 3))) !! 7%nat = None.
Proof. apply shutdown_ends_within_its_budget; [by eexists; vm_compute|vm_compute; lia]. Defined.

(** ** Serving *)

Definition served (l : life) : startup_pc * bool * option TransportError := (lf_startup l, lf_failed l, lf_serve_error l).

Lemma finished_step cap protocols l v : phases_ok v -> lf_startup (sr_life v) = Finished ->
  served (sr_life (server_step cap protocols l v)) = served (sr_life v).
Proof.
  intros Hph Hf. assert (Hp : lf_phase (sr_life v) = PhaseStopped).
  { pose proof (ph_fits _ Hph) as H. by rewrite Hf in H. }
  destruct (stopped_alone _ Hph Hp) as (HL & Hsc & _). unfold server_step.
  destruct l as [| |b|pn|i ev|s ev|i ex|i ex|x]; try done.
  - unfold serve. by rewrite Hp.
  - unfold startup_step. by rewrite Hf.
  - unfold scanner_ends. by rewrite Hsc.
  - unfold listener_step. by rewrite HL, lookup_empty.
  - destruct (session_step s ev v) eqn:H; [|done]. destruct (session_frame _ _ _ _ H) as (E & _); cbn; by rewrite E.
  - unfold shutdown_call. by repeat case_match.
  - unfold shutdown_step. rewrite Hp. destruct (sr_shutdowns v !! i) as [[]|]; repeat case_match; done.
Qed.

(** C25: [serve] returns only once everything it started is over, and its answer
    is final: from the moment the owned startup task has ended, no accept loop and
    no scanner runs, the phase is stopped, nothing any task still does changes
    what [serve] returns, and it can never be called again. *)
Theorem serve_returns_after_everything_it_started cap permits protocols ls ls' : 0 <= permits ->
  len ls + len ls' < U64_MAX ->
  let v := server_run cap protocols ls (server_new permits) in
  let v' := server_run cap protocols ls' v in
  lf_startup (sr_life v) = Finished ->
  sr_listeners v' = ∅ /\ lf_scanner (sr_life v') = false /\ lf_phase (sr_life v') = PhaseStopped /\
  serve_result v' = serve_result v /\ exists e, serve v' = (v', Some e).
Proof.
  intros Hp Hl v v' Hf. pose proof (len_nonneg ls').
  assert (Hg : good permits v) by (apply reachable_good; [done|lia]).
  assert (Hrun : phases_ok v' /\ served (sr_life v') = served (sr_life v)).
  { unfold v'. assert (Hph := gd_phases _ _ Hg). clear -Hph Hf. revert Hph Hf. generalize v. clear v.
    induction ls' as [|l ls' IH]; intros v Hph Hf; [done|].
    pose proof (finished_step cap protocols l v Hph Hf) as E.
    assert (Hf' : lf_startup (sr_life (server_step cap protocols l v)) = Finished) by (injection E; congruence).
    destruct (IH _ (phases_step cap protocols l v Hph) Hf') as [? E']. split; [done|]. by etrans. }
  destruct Hrun as [Hph E]. injection E as E1 E2 E3.
  assert (Hst : lf_phase (sr_life v') = PhaseStopped).
  { pose proof (ph_fits _ Hph) as H0. by rewrite E1, Hf in H0. }
  destruct (stopped_alone _ Hph Hst) as (HL & Hsc & _). split_and!; try done.
  - unfold serve_result. by rewrite E2, E3.
  - unfold serve. rewrite Hst. by eexists.
Qed.

(** The scanner fails; the accept loop is stopped by it; [serve] reports it. *)
Definition scanner_failure : list label :=
  Serve :: repeat (Startup BuildOk) 8 ++
  [ScannerEnds true; Listener 0 AcceptCancelled; Listener 0 AcceptCancelled] ++ repeat (Startup BuildOk) 3.

Lemma serve_returns_witness :
  let v := server_run (Some 3) 1 scanner_failure (server_new 3) in
  serve_result v = Throw (config_error "server" "an infrastructure task failed; all siblings were stopped and joined") /\
  serve_result (server_run (Some 3) 1 [Stop; Listener 0 AcceptOk; Serve] v) = serve_result v.
Proof.
  split; [vm_compute; reflexivity|].
  apply (serve_returns_after_everything_it_started (Some 3) 3 1 scanner_failure [Stop; Listener 0 AcceptOk; Serve]);
    [lia|vm_compute; reflexivity|vm_compute; reflexivity].
Defined.

(** ** The pump *)

(** The response of a request this session is waiting on. *)
Definition is_answer (s : SessionId) (e : TransportEvent) (t : sessions_table) : option RequestKey :=
  match e with
  | MessageReceived p =>
      match packet_type (header p) with
      | Response =>
          let key := outbound (Some s) (message_id (header p)) in
          match entries (sv_registry t) !! key with Some _ => Some key | None => None end
      | _ => None
      end
  | _ => None
  end.
Definition is_close (e : TransportEvent) : bool := match e with ConnectionClosed _ => true | _ => false end.

Lemma pump_one_spec s e f t : RegistryOps.good ∅ ∅ (sv_registry t) ->
  let '(t', sent, go_on) := pump_one_event s e f t in
  RegistryOps.good ∅ ∅ (sv_registry t') /\
  match is_answer s e t with
  | Some key =>
      sent = None /\ go_on = true /\ exists p, e = MessageReceived p /\
      retired key (ChanSent p) (sv_registry t) (sv_registry t')
  | None => quiet (sv_registry t) (sv_registry t') /\
      sent = (if f then Some e else None) /\ go_on = f && negb (is_close e)
  end.
Proof.
  intros Hg. unfold pump_one_event, is_answer. destruct e as [i|r|p|n|er].
  3: { destruct (packet_type (header p)) eqn:Hp;
         try (destruct f; split; [done|split; [apply quiet_refl|done]|done|split; [apply quiet_refl|done]]).
       pose proof (complete_waiter_spec ∅ (Some s) (message_id (header p)) p (sv_registry t) (proj1 Hg)) as Hc.
       cbv zeta in Hc. destruct (complete_waiter _ _ _ _) as [done r']. cbn.
       destruct (entries (sv_registry t) !! _) eqn:He; destruct Hc as [-> Hq].
       - split; [by eapply advances_retired|]. split_and!; try done. eauto.
       - destruct f; cbn; (split; [by eapply advances_quiet|done]). }
  all: destruct f; (split; [done|split; [apply quiet_refl|done]]).
Qed.

Lemma close_pending_spec s r : RegistryOps.good ∅ ∅ r -> let r' := (close_session_pending s r).2 in
  RegistryOps.good ∅ ∅ r' /\ (forall k, k_session_id k = Some s -> entries r' !! k = None /\ waiters r' !! k = None) /\
  (forall k, k_session_id k <> Some s -> entries r' !! k = entries r !! k).
Proof.
  intros Hg. pose proof (close_session_spec ∅ s r Hg) as Hs. destruct (close_session_pending s r) as [n r'].
  destruct Hs as ([Hg' _] & [De Dw _ _ _] & _). cbn. split_and!; [done| |].
  - intros k Hk. by rewrite De, Dw, !decide_True by done.
  - intros k Hk. by rewrite De, decide_False by done.
Qed.

(** No request of the session is left, the session is not in the transport table,
    and nobody else's request was touched. *)
Definition torn_down (s : SessionId) (t t' : sessions_table) : Prop :=
  RegistryOps.good ∅ ∅ (sv_registry t') /\ s ∉ sv_transports t' /\
  (forall k, k_session_id k = Some s -> entries (sv_registry t') !! k = None /\ waiters (sv_registry t') !! k = None) /\
  (forall k, k_session_id k <> Some s -> entries (sv_registry t') !! k = entries (sv_registry t) !! k).

Lemma teardown_spec s t : RegistryOps.good ∅ ∅ (sv_registry t) -> torn_down s t (pump_teardown s t).
Proof.
  intros Hg. destruct (close_pending_spec s _ Hg) as (Hg1 & Hn1 & Hk1). unfold pump_teardown.
  destruct (decide _) as [Hin|Hout]; [|by split_and!].
  destruct (close_pending_spec s _ Hg1) as (Hg2 & Hn2 & Hk2). split_and!; cbn; [done|set_solver|done|].
  intros k Hk. by rewrite Hk2, Hk1.
Qed.

Lemma pump_good s evs t : RegistryOps.good ∅ ∅ (sv_registry t) ->
  RegistryOps.good ∅ ∅ (sv_registry (pump s evs t).1.1).
Proof.
  revert t. induction evs as [|[e f] evs IH]; intros t Hg; [done|]. cbn [pump].
  pose proof (pump_one_spec s e f t Hg) as Hs. destruct (pump_one_event s e f t) as [[t1 sent] go_on].
  destruct Hs as [Hg1 _]. destruct go_on; [|by apply teardown_spec].
  specialize (IH t1 Hg1). by destruct (pump s evs t1) as [[? ?] ?].
Qed.

Lemma pump_app s evs evs' t : pump s (evs ++ evs') t =
  let '(t1, sent, running) := pump s evs t in
  if running : bool then let '(t2, more, running') := pump s evs' t1 in (t2, sent ++ more, running')
  else (t1, sent, false).
Proof.
  revert t. induction evs as [|[e f] evs IH]; intros t; cbn.
  - by destruct (pump s evs' t) as [[? ?] ?].
  - destruct (pump_one_event s e f t) as [[t1 sent] [|]]; [|done]. rewrite IH.
    destruct (pump s evs t1) as [[t2 more] [|]]; [|done].
    destruct (pump s evs' t2) as [[? ?] ?]. by rewrite <- app_assoc.
Qed.

(** The pump of a session sends each event of its pipe the right way and in
    order, for pipes of any length: a response of a request the session is still
    waiting on goes to that request's waiter and not to the handler; every other
    event goes to the handler as long as its mailbox takes it, and a close is the
    last; and when the pump ends no request of the session is left pending, the
    session is out of the transport table, and no other session's request was
    touched. *)
Theorem pump_routes_every_event s evs e f t : RegistryOps.good ∅ ∅ (sv_registry t) ->
  let '(t1, sent, running) := pump s evs t in
  let '(t2, sent', running') := pump s (evs ++ [(e, f)]) t in
  if running : bool then
    match is_answer s e t1 with
    | Some key => sent' = sent /\ running' = true /\ entries (sv_registry t2) = delete key (entries (sv_registry t1)) /\
        forall rx, waiters (sv_registry t1) !! key = Some rx -> exists p, e = MessageReceived p /\
          chans (sv_registry t2) !! rx = Some (ChanSent p)
    | None => sent' = sent ++ (if f then [e] else []) /\ running' = f && negb (is_close e) /\
        (running' = false -> torn_down s t1 t2)
    end
  else (t2, sent', running') = (t1, sent, false).
Proof.
  intros Hg. rewrite pump_app. pose proof (pump_good s evs t Hg) as Hg1.
  destruct (pump s evs t) as [[t1 sent] running]. cbn in Hg1. destruct running; [|done]. cbn [pump].
  pose proof (pump_one_spec s e f t1 Hg1) as Hs. destruct (pump_one_event s e f t1) as [[t2 out] go_on].
  destruct Hs as [Hg2 Hs]. destruct (is_answer s e t1) as [key|].
  - destruct Hs as (-> & -> & p & -> & Hret). rewrite app_nil_r. split_and!; [done|done|apply Hret|].
    intros rx Hrx. exists p. split; [done|]. eapply ret_final; [done..|]. by eapply wf_waiter_chan; [apply Hg1|].
  - destruct Hs as (Hq & -> & ->). destruct f; cbn; [|split_and!; [done|done|]].
    + destruct (is_close e); cbn; split_and!; try done. intros _.
      destruct (teardown_spec s t2 Hg2) as (H1 & H2 & H3 & H4). split_and!; try done.
      intros k Hk. rewrite H4 by done. by rewrite (q_entries _ _ Hq).
    + intros _. destruct (teardown_spec s t2 Hg2) as (H1 & H2 & H3 & H4). split_and!; try done.
      intros k Hk. rewrite H4 by done. by rewrite (q_entries _ _ Hq).
Qed.

Definition sample_table : sessions_table := mkTable {[7]} {[7]} {[7 := Connected]} {[7]} sample_registry.
Definition sample_events : list (TransportEvent * bool) :=
  [(MessageReceived (one_way 3 [1]), true); (MessageReceived (response 5 [2]), true)].

Lemma pump_witness :
  (pump 7 sample_events sample_table).1.2 = [MessageReceived (one_way 3 [1])] /\
  (pump 7 (sample_events ++ [(ConnectionClosed Normal, true)]) sample_table).1.2 =
    [MessageReceived (one_way 3 [1]); ConnectionClosed Normal] /\
  torn_down 7 (pump 7 sample_events sample_table).1.1
    (pump 7 (sample_events ++ [(ConnectionClosed Normal, true)]) sample_table).1.1.
Proof.
  split; [vm_compute; reflexivity|].
  pose proof (pump_routes_every_event 7 sample_events (ConnectionClosed Normal) true sample_table sample_good) as H.
  destruct (pump 7 sample_events sample_table) as [[t1 sent] running] eqn:E1.
  assert (sent = [MessageReceived (one_way 3 [1])] /\ running = true) as [-> ->]
    by (vm_compute in E1; injection E1 as <- <- <-; done).
  destruct (pump 7 (sample_events ++ _) sample_table) as [[t2 sent'] running'].
  destruct H as (-> & -> & H). split; [done|by apply H].
Defined.
