(* ===== verification/Adapters.v ===== *)
(** * What the adapters share

    The state cells of a connection. The QUIC and WebSocket adapters hand the
    decoder one frame at a time and confirm writes the same way: the
    classification of a received frame under the connection's policy, and the
    bookkeeping of resolved completions. *)

From S2P Require Import Prelude Packet Errors Stream Events Registry RegistryInv RegistryOps Writes.

(** ** A connection's state: [crates/msgtrans/src/adapters/core.rs] *)

Inductive ConnStatus := StConnecting | StConnected | StClosed.
#[export] Instance ConnStatus_eq_dec : EqDecision ConnStatus.
Proof. solve_decision. Defined.

Definition ConnStatus_as_u8 (s : ConnStatus) : Z :=
  match s with StConnecting => 0 | StConnected => 1 | StClosed => 2 end.
Definition ConnStatus_from_u8 (v : Z) : ConnStatus :=
  if v =? 1 then StConnected else if v =? 2 then StClosed else StConnecting.

(** The two atomic cells an adapter and its event loop share. *)
Record ConnState := mkConnState { cs_status : Z; cs_session_id : Z }.

Definition ConnState_new (status : ConnStatus) : ConnState := mkConnState (ConnStatus_as_u8 status) 0.
Definition status (st : ConnState) : ConnStatus := ConnStatus_from_u8 (cs_status st).
Definition set_status (s : ConnStatus) (st : ConnState) : ConnState :=
  mkConnState (ConnStatus_as_u8 s) (cs_session_id st).
Definition is_connected (st : ConnState) : bool := bool_decide (status st = StConnected).
Definition session_id (st : ConnState) : Z := cs_session_id st.
Definition set_session_id (id : Z) (st : ConnState) : ConnState := mkConnState (cs_status st) id.

Lemma status_set s st : status (set_status s st) = s.
Proof. by destruct s. Qed.

Lemma is_connected_set s st : is_connected (set_status s st) = bool_decide (s = StConnected).
Proof. unfold is_connected. by rewrite status_set. Qed.

(** ** A received frame *)

(** What the frame is worth: a packet, the raw bytes wrapped as a one-way packet
    (lenient), or nothing (strict). *)
Definition classify_frame `{Target} (policy : FramePolicy) (limits : DecodeLimits) (frame : bytes)
    : exec unit Packet :=
  let undecodable :=
    match policy with Strict => Throw tt | Lenient => Done (one_way 0 frame) end in
  if len frame <? 16 then undecodable
  else match decode_exact_from frame limits with
       | Done packet => Done packet
       | Throw _ => undecodable
       | Panic => Panic
       end.

Section Classify.
Context `{T : Target}.

Lemma try_encode_no_panic p : try_encode p <> Panic.
Proof. unfold try_encode. by repeat case_match. Qed.

Lemma try_encode_nonempty p w : try_encode p = Done w -> w <> [].
Proof. unfold try_encode. repeat case_match; try done; intros [= <-]; done. Qed.

Lemma decode_exact_from_with frame limits : decode_exact_from frame limits = decode_exact_with frame limits.
Proof. reflexivity. Qed.

Lemma classify_encoded policy limits p w : limits_ok limits -> packet_ok p -> fits limits p ->
  try_encode p = Done w -> classify_frame policy limits w = Done p.
Proof.
  intros Hl Hp Hf Hw. destruct (decode_encoded p [] limits) as (w' & Hw' & Hlen & Hd); [done..|].
  assert (w' = w) as -> by congruence. rewrite app_nil_r in Hd. unfold classify_frame.
  assert (16 <= len w).
  { rewrite Hlen. unfold total_len. pose proof (len_nonneg (ext_header p)). pose proof (len_nonneg (payload p)). lia. }
  zbool. rewrite decode_exact_from_with. unfold decode_exact_with. rewrite Hd, exec_bind_done. cbn [exact_of].
  rewrite Hlen. by zbool.
Qed.
End Classify.

(** ** Resolved completions *)

#[export] Instance receipt_eq_dec : EqDecision receipt.
Proof. solve_decision. Defined.

(** What each item's receipt ended with, in the order the items were resolved. *)
Definition outcomes := list (OutboundItem * receipt).

Definition receipts_of (l : outcomes) (m : gmap nat receipt) : gmap nat receipt :=
  foldl (fun m x => match observer_of x.1 with Some n => <[n := x.2]> m | None => m end) m l.
Definition claims_of (l : outcomes) (r : RequestRegistry) : RequestRegistry :=
  foldl (fun r x => match claim_of x.1 with
    | Some c => (finish_respond (claim_token c) (bool_decide (x.2 = Reported (Done tt))) r).2
    | None => r end) r l.

(** The state changed by exactly these resolutions (the byte budget apart). *)
Definition resolved (l : outcomes) (st st' : io_state) : Prop :=
  io_receipts st' = receipts_of l (io_receipts st) /\ io_registry st' = claims_of l (io_registry st).

Lemma resolved_nil st : resolved [] st st.
Proof. done. Qed.

Lemma resolved_budget b l st st' : resolved l st st' -> resolved l st (set_io_budget b st').
Proof. done. Qed.

Lemma resolved_app l1 l2 st1 st2 st3 : resolved l1 st1 st2 -> resolved l2 st2 st3 -> resolved (l1 ++ l2) st1 st3.
Proof.
  intros [H1 H2] [H3 H4]. unfold resolved, receipts_of, claims_of in *. rewrite !foldl_app. by rewrite H3, H4, H1, H2.
Qed.

Lemma resolved_one it r st :
  (forall c, claim_of it = Some c -> claim_resolved c = false) ->
  (forall n, observer_of it = Some n -> io_receipts st !! n = Some Awaiting) ->
  resolved [(it, Reported r)] st (complete_item it r st) /\ resolved [(it, SenderGone)] st (drop_item it st).
Proof.
  intros Hc Ho. destruct (complete_item_effect it r st Hc Ho) as [H1 H2].
  destruct (drop_item_effect it st Hc Ho) as [H3 H4]. unfold resolved. cbn [receipts_of claims_of foldl fst snd].
  rewrite H1, H2, H3, H4. split; split; try done.
  destruct (claim_of it); [|done]. do 2 f_equal. destruct r as [[]| |]; cbn; first [by rewrite bool_decide_true|by rewrite bool_decide_false].
Qed.

Lemma receipts_of_cons it o l m : receipts_of ((it, o) :: l) m =
  receipts_of l (match observer_of it with Some n => <[n := o]> m | None => m end).
Proof. reflexivity. Qed.

(** Resolving some items leaves the others unresolved. *)
Lemma receipts_of_other l m n : n ∉ omap observer_of (map fst l) -> receipts_of l m !! n = m !! n.
Proof.
  revert m. induction l as [|[it o] l IH]; intros m Hn; [done|]. rewrite receipts_of_cons. cbn in Hn.
  destruct (observer_of it) as [k|]; [|by apply IH].
  apply not_elem_of_cons in Hn as [Hne Hn]. rewrite IH by done. by apply lookup_insert_ne.
Qed.

Lemma receipts_of_in l m it o n : NoDup (omap observer_of (map fst l)) -> (it, o) ∈ l -> observer_of it = Some n ->
  receipts_of l m !! n = Some o.
Proof.
  revert m. induction l as [|[it' o'] l IH]; intros m Hd Hin Ho; [by apply elem_of_nil in Hin|]. rewrite receipts_of_cons. cbn in Hd.
  apply elem_of_cons in Hin as [[= -> ->]|Hin].
  - rewrite Ho in *. apply NoDup_cons in Hd as [Hd _]. rewrite receipts_of_other by done. apply lookup_insert_eq.
  - destruct (observer_of it'); [apply NoDup_cons in Hd as [_ Hd]|]; by apply IH.
Qed.

Lemma unresolved_after l its st st' : unresolved (map fst l ++ its) (io_receipts st) -> resolved l st st' ->
  unresolved its (io_receipts st').
Proof.
  intros [Hd Ha Hc] [Hr _]. rewrite omap_app in Hd, Ha. apply NoDup_app in Hd as (_ & Hdis & Hd). split.
  - done.
  - intros n Hn. rewrite Hr, receipts_of_other; [apply Ha, elem_of_app; by right|]. intros Hn'. by apply (Hdis n).
  - intros it c Hit. apply Hc, elem_of_app. by right.
Qed.

Lemma unresolved_app_l its1 its2 m : unresolved (its1 ++ its2) m -> unresolved its1 m.
Proof.
  intros [Hd Ha Hc]. rewrite omap_app in Hd, Ha. apply NoDup_app in Hd as (Hd & _ & _). split.
  - done.
  - intros n Hn. apply Ha, elem_of_app. by left.
  - intros it c Hit. apply Hc, elem_of_app. by left.
Qed.

Lemma unresolved_app_r its1 its2 m : unresolved (its1 ++ its2) m -> unresolved its2 m.
Proof.
  intros [Hd Ha Hc]. rewrite omap_app in Hd, Ha. apply NoDup_app in Hd as (_ & _ & Hd). split.
  - done.
  - intros n Hn. apply Ha, elem_of_app. by right.
  - intros it c Hit. apply Hc, elem_of_app. by right.
Qed.

Lemma unresolved_perm its1 its2 m : its1 ≡ₚ its2 -> unresolved its1 m -> unresolved its2 m.
Proof.
  intros Hp [Hd Ha Hc]. split.
  - by rewrite <- Hp.
  - intros n Hn. apply Ha. by rewrite Hp.
  - intros it c Hit. apply Hc. by rewrite Hp.
Qed.

Lemma unresolved_cons_inv it its m : unresolved (it :: its) m ->
  (forall c, claim_of it = Some c -> claim_resolved c = false) /\
  (forall n, observer_of it = Some n -> m !! n = Some Awaiting).
Proof.
  intros [_ Ha Hc]. split.
  - intros c. apply Hc. by left.
  - intros n Hn. apply Ha. cbn. rewrite Hn. by left.
Qed.

Lemma resolved_drop its st : unresolved its (io_receipts st) ->
  resolved (map (fun it => (it, SenderGone)) its) st (drop_items its st).
Proof.
  revert st. induction its as [|it its IH]; intros st Hun; [done|]. cbn [map].
  destruct (unresolved_cons_inv _ _ _ Hun) as [Hc Ho]. destruct (resolved_one it (Done tt) st Hc Ho) as [_ Hr].
  change (drop_items (it :: its) st) with (drop_items its (drop_item it st)).
  apply (resolved_app [(it, SenderGone)] _ _ _ _ Hr), IH. by apply (unresolved_after [(it, SenderGone)] its st).
Qed.

(** No claim of a resolved item is left responding. *)
Lemma claims_of_settled `{Target} X l r : wf X r -> wf X (claims_of l r) /\
  (forall tok, responding tok (claims_of l r) -> responding tok r) /\
  (forall it o c, (it, o) ∈ l -> claim_of it = Some c -> ~ responding (claim_token c) (claims_of l r)).
Proof.
  revert r. induction l as [|[it0 o0] l IH]; intros r Hwf; cbn.
  { split_and!; [done|done|]. by intros ? ? ? ?%elem_of_nil. }
  destruct (claim_of it0) as [c0|] eqn:Hc0.
  - set (ok := bool_decide _). destruct (finish_respond_settles X (claim_token c0) ok r Hwf) as [Hno Hback].
    destruct (IH _ (finish_respond_wf X (claim_token c0) ok r Hwf)) as (H1 & H2 & H3).
    split_and!; [done|by intros tok Ht; apply Hback, H2|].
    intros it o c [[= -> ->]|Hin]%elem_of_cons Hc Hresp; [|by eapply H3].
    rewrite Hc0 in Hc. injection Hc as ->. by apply Hno, H2.
  - destruct (IH r Hwf) as (H1 & H2 & H3). split_and!; [done|done|].
    intros it o c [[= -> ->]|Hin]%elem_of_cons Hc; [congruence|by eapply H3].
Qed.

(** ** Truthful reports *)

Definition failed_receipt (o : receipt) : Prop := o <> Awaiting /\ o <> Reported (Done tt).
Definition failing (x : OutboundItem * receipt) : Prop := failed_receipt x.2.
Definition confirm (it : OutboundItem) : OutboundItem * receipt := (it, Reported (Done tt)).

(** Of the items of a connection, those in [written] are reported written and
    the others as failed, and every claim is settled. *)
Record reported (items written : list OutboundItem) (st st' : io_state) : Prop := {
  rp_sub : written `sublist_of` items;
  rp_receipts : forall it n, it ∈ items -> observer_of it = Some n -> exists out,
    io_receipts st' !! n = Some out /\ out <> Awaiting /\ (out = Reported (Done tt) <-> it ∈ written);
  rp_others : forall n, n ∉ omap observer_of items -> io_receipts st' !! n = io_receipts st !! n;
  rp_claims : forall it c, it ∈ items -> claim_of it = Some c -> ~ responding (claim_token c) (io_registry st')
}.

(** How a run of a write loop resolved its items. *)
Definition accounted (items written : list OutboundItem) (st st' : io_state) : Prop :=
  exists L L', resolved L' st st' /\ L' ≡ₚ L ++ map confirm written /\ Forall failing L /\
    items ≡ₚ map fst L ++ written /\ written `sublist_of` items.

Lemma accounted_sublist items written st st' : accounted items written st st' -> written `sublist_of` items.
Proof. by intros (L & L' & _ & _ & _ & _ & Hs). Qed.

Lemma map_fst_confirm l : map fst (map confirm l) = l.
Proof. induction l; cbn; congruence. Qed.

Lemma map_fst_pair {A B} (o : B) (l : list A) : map fst (map (fun x => (x, o)) l) = l.
Proof. induction l; cbn; congruence. Qed.

Lemma accounted_reported `{Target} items written st st' : unresolved items (io_receipts st) ->
  wf ∅ (io_registry st) -> accounted items written st st' -> reported items written st st'.
Proof.
  intros Hun Hwf (L & L' & [Hr Hreg] & HL' & HL & Hp & Hsub).
  assert (HP : map fst L' ≡ₚ items) by (rewrite HL', map_app, map_fst_confirm; by symmetry).
  assert (Hd : NoDup (omap observer_of (map fst L'))) by (rewrite HP; apply Hun).
  split; [done|..].
  - intros it n Hit Hn. rewrite Hp, elem_of_app in Hit. rewrite Hr.
    assert (Hout : forall o, (it, o) ∈ L' -> receipts_of L' (io_receipts st) !! n = Some o)
      by (intros o Ho; by eapply receipts_of_in).
    destruct Hit as [([i o] & -> & Hin)%list_elem_of_fmap|Hin].
    + assert (HinL : (i, o) ∈ L') by (rewrite HL', elem_of_app; by left). exists o. cbn in *.
      rewrite Forall_forall in HL. destruct (HL _ Hin) as [H1 H2]. split_and!; [by apply Hout|done|].
      split; [done|]. intros Hw. assert (Hok : (i, Reported (Done tt)) ∈ L').
      { rewrite HL', elem_of_app. right. apply list_elem_of_fmap. by exists i. }
      apply Hout in HinL. rewrite (Hout _ Hok) in HinL. by simplify_eq.
    + exists (Reported (Done tt)). split_and!; try done. apply Hout. rewrite HL', elem_of_app. right.
      apply list_elem_of_fmap. by exists it.
  - intros n Hn. rewrite Hr. apply receipts_of_other. by rewrite HP.
  - intros it c Hit Hc. rewrite Hreg. rewrite <- HP in Hit. apply list_elem_of_fmap in Hit as ([i o] & -> & Hin).
    by eapply (claims_of_settled ∅).
Qed.

Lemma observers_sublist (l k : list OutboundItem) : l `sublist_of` k ->
  NoDup (omap observer_of k) -> NoDup (omap observer_of l) /\ forall n, n ∈ omap observer_of l -> n ∈ omap observer_of k.
Proof.
  induction 1 as [|it l k _ IH|it l k _ IH]; [done|..]; cbn; destruct (observer_of it) as [n|]; try done.
  - intros [Hn Hd]%NoDup_cons. destruct (IH Hd) as [Hl Hin]. split; [apply NoDup_cons; auto|].
    intros x [->|Hx]%elem_of_cons; [by left|right; auto].
  - intros [_ Hd]%NoDup_cons. destruct (IH Hd) as [Hl Hin]. split; [done|]. intros x Hx. right. auto.
Qed.

(** Items beside the confirmed ones have no receipt that says written. *)
Lemma unconfirmed_receipts items written lost st st' : unresolved items (io_receipts st) ->
  reported items written st st' -> written ++ lost `sublist_of` items ->
  forall it n, it ∈ lost -> observer_of it = Some n -> io_receipts st' !! n <> Some (Reported (Done tt)).
Proof.
  intros Hun Hrep Hsub it n Hit Hn Hout.
  assert (Hin : it ∈ items) by (eapply elem_of_sublist; [apply elem_of_app; by right|done]).
  destruct (rp_receipts _ _ _ _ Hrep it n Hin Hn) as (out & Hr & _ & Hiff).
  assert (Hw : it ∈ written) by (apply Hiff; congruence).
  destruct (observers_sublist _ _ Hsub (un_distinct _ _ Hun)) as [Hd _]. rewrite omap_app in Hd.
  apply NoDup_app in Hd as (_ & Hd & _). apply (Hd n); apply list_elem_of_omap; by exists it.
Qed.

(** The whole rest of a queue goes down with its receiver. *)
Lemma accounted_drop items st : unresolved items (io_receipts st) -> accounted items [] st (drop_items items st).
Proof.
  intros Hun. exists (map (fun it => (it, SenderGone)) items), (map (fun it => (it, SenderGone)) items).
  split_and!; [by apply resolved_drop|by rewrite app_nil_r| |by rewrite map_fst_pair, app_nil_r|apply sublist_nil_l].
  apply Forall_forall. intros x (it & -> & _)%list_elem_of_fmap. by split.
Qed.

Lemma accounted_app its1 its2 w1 w2 st1 st2 st3 : accounted its1 w1 st1 st2 -> accounted its2 w2 st2 st3 ->
  accounted (its1 ++ its2) (w1 ++ w2) st1 st3.
Proof.
  intros (L1 & L1' & R1 & P1 & F1 & I1 & S1) (L2 & L2' & R2 & P2 & F2 & I2 & S2).
  exists (L1 ++ L2), (L1' ++ L2'). split_and!.
  - by eapply resolved_app.
  - rewrite P1, P2, map_app. solve_Permutation.
  - by apply Forall_app.
  - rewrite I1, I2, map_app. solve_Permutation.
  - by apply sublist_app.
Qed.

Lemma accounted_unresolved its1 its2 w st st' : unresolved (its1 ++ its2) (io_receipts st) ->
  accounted its1 w st st' -> unresolved its2 (io_receipts st').
Proof.
  intros Hun (L & L' & R & P & _ & I & _). apply (unresolved_after L' its2 st); [|done].
  apply (unresolved_perm (its1 ++ its2)); [|done]. by rewrite I, P, map_app, map_fst_confirm.
Qed.

Lemma classify_lenient `{Target} limits w : limits_ok limits -> bytes_ok w -> exists p,
  classify_frame Lenient limits w = Done p /\
  (decode_exact_from w limits = Done p \/ p = one_way 0 w /\ forall p', decode_exact_from w limits <> Done p').
Proof.
  intros Hl Hw. unfold classify_frame. pose proof (decode_exact_no_panic w limits Hl Hw) as Hn.
  rewrite <- decode_exact_from_with in Hn. destruct (Z.ltb_spec (len w) 16) as [Hs|Hs].
  - exists (one_way 0 w). split; [done|]. right. split; [done|]. intros p'. rewrite decode_exact_from_with.
    unfold decode_exact_with, decode_one_with. by rewrite frame_layout_short.
  - destruct (decode_exact_from w limits) as [p|e|]; [exists p; auto| |done].
    exists (one_way 0 w). split; [done|]. by right.
Qed.

Lemma accounted_one it r st : unresolved [it] (io_receipts st) ->
  accounted [it] (if bool_decide (r = Done tt) then [it] else []) st (retire_item it (complete_item it r st)) /\
  accounted [it] [] st (drop_item it st).
Proof.
  intros Hun. destruct (unresolved_cons_inv _ _ _ Hun) as [Hc Ho]. destruct (resolved_one it r st Hc Ho) as [Hr Hd].
  split.
  - case_bool_decide as E.
    + subst r. exists [], [(it, Reported (Done tt))]. by split_and!.
    + exists [(it, Reported r)], [(it, Reported r)]. split_and!; [done|done| |done|apply sublist_nil_l].
      constructor; [|done]. split; cbn; congruence.
  - exists [(it, SenderGone)], [(it, SenderGone)]. split_and!; [done|done| |done|apply sublist_nil_l].
    by constructor.
Qed.

Lemma accounted_nil st : accounted [] [] st st.
Proof. exists [], []. by split_and!. Qed.
