(* ===== verification/TcpLoop.v ===== *)
(** * The TCP adapter's event loop: [crates/msgtrans/src/adapters/tcp.rs]

    One task polls a read, a write and an idle future and the shutdown signal;
    the first to end closes the connection. The model steps it between await
    points, down to what each poll of the socket takes; the socket, the clock,
    the frame policy in force and the pipe's answers are the environment. The
    parser and the resolution of a write are those of the stream and the write
    path. *)

From S2P Require Import Prelude Packet Errors Stream Events Registry RegistryInv RegistryOps RegistryRun RegistryProps Writes Adapters.

(** ** The loop's state *)

(** The read future: in [fill_from_stream], or handing a packet to the pipe
    under the policy it read when the bytes came. *)
Inductive tcp_read_pc := Filling | Handing (p : Packet) (strict : bool).

(** The write future: in [recv], or inside [write_all] with what is left. *)
Inductive tcp_write_pc := Receiving | Writing (it : OutboundItem) (rest : bytes).

Record tcp_loop := mkTcpLoop {
  tl_buffer : ReadBuffer;
  tl_read : tcp_read_pc;
  tl_write : tcp_write_pc;
  tl_activity : Z;
  tl_idle_deadline : option Z;
  tl_queue : list OutboundItem;
  tl_io : io_state;
  tl_received : bytes;
  tl_delivered : list Packet;
  tl_wire : bytes;
  tl_sent : list Z;
  tl_state : ConnState;
  tl_closed : option CloseReason
}.

Definition set_buffer (x : ReadBuffer) (w : tcp_loop) : tcp_loop :=
  mkTcpLoop x (tl_read w) (tl_write w) (tl_activity w) (tl_idle_deadline w) (tl_queue w) (tl_io w) (tl_received w) (tl_delivered w) (tl_wire w) (tl_sent w) (tl_state w) (tl_closed w).
Definition set_read (x : tcp_read_pc) (w : tcp_loop) : tcp_loop :=
  mkTcpLoop (tl_buffer w) x (tl_write w) (tl_activity w) (tl_idle_deadline w) (tl_queue w) (tl_io w) (tl_received w) (tl_delivered w) (tl_wire w) (tl_sent w) (tl_state w) (tl_closed w).
Definition set_write (x : tcp_write_pc) (w : tcp_loop) : tcp_loop :=
  mkTcpLoop (tl_buffer w) (tl_read w) x (tl_activity w) (tl_idle_deadline w) (tl_queue w) (tl_io w) (tl_received w) (tl_delivered w) (tl_wire w) (tl_sent w) (tl_state w) (tl_closed w).
Definition set_activity (x : Z) (w : tcp_loop) : tcp_loop :=
  mkTcpLoop (tl_buffer w) (tl_read w) (tl_write w) x (tl_idle_deadline w) (tl_queue w) (tl_io w) (tl_received w) (tl_delivered w) (tl_wire w) (tl_sent w) (tl_state w) (tl_closed w).
Definition set_idle_deadline (x : option Z) (w : tcp_loop) : tcp_loop :=
  mkTcpLoop (tl_buffer w) (tl_read w) (tl_write w) (tl_activity w) x (tl_queue w) (tl_io w) (tl_received w) (tl_delivered w) (tl_wire w) (tl_sent w) (tl_state w) (tl_closed w).
Definition set_queue (x : list OutboundItem) (w : tcp_loop) : tcp_loop :=
  mkTcpLoop (tl_buffer w) (tl_read w) (tl_write w) (tl_activity w) (tl_idle_deadline w) x (tl_io w) (tl_received w) (tl_delivered w) (tl_wire w) (tl_sent w) (tl_state w) (tl_closed w).
Definition set_io (x : io_state) (w : tcp_loop) : tcp_loop :=
  mkTcpLoop (tl_buffer w) (tl_read w) (tl_write w) (tl_activity w) (tl_idle_deadline w) (tl_queue w) x (tl_received w) (tl_delivered w) (tl_wire w) (tl_sent w) (tl_state w) (tl_closed w).
Definition set_received (x : bytes) (w : tcp_loop) : tcp_loop :=
  mkTcpLoop (tl_buffer w) (tl_read w) (tl_write w) (tl_activity w) (tl_idle_deadline w) (tl_queue w) (tl_io w) x (tl_delivered w) (tl_wire w) (tl_sent w) (tl_state w) (tl_closed w).
Definition set_delivered (x : list Packet) (w : tcp_loop) : tcp_loop :=
  mkTcpLoop (tl_buffer w) (tl_read w) (tl_write w) (tl_activity w) (tl_idle_deadline w) (tl_queue w) (tl_io w) (tl_received w) x (tl_wire w) (tl_sent w) (tl_state w) (tl_closed w).
Definition set_wire (x : bytes) (w : tcp_loop) : tcp_loop :=
  mkTcpLoop (tl_buffer w) (tl_read w) (tl_write w) (tl_activity w) (tl_idle_deadline w) (tl_queue w) (tl_io w) (tl_received w) (tl_delivered w) x (tl_sent w) (tl_state w) (tl_closed w).
Definition set_sent (x : list Z) (w : tcp_loop) : tcp_loop :=
  mkTcpLoop (tl_buffer w) (tl_read w) (tl_write w) (tl_activity w) (tl_idle_deadline w) (tl_queue w) (tl_io w) (tl_received w) (tl_delivered w) (tl_wire w) x (tl_state w) (tl_closed w).
Definition set_state (x : ConnState) (w : tcp_loop) : tcp_loop :=
  mkTcpLoop (tl_buffer w) (tl_read w) (tl_write w) (tl_activity w) (tl_idle_deadline w) (tl_queue w) (tl_io w) (tl_received w) (tl_delivered w) (tl_wire w) (tl_sent w) x (tl_closed w).
Definition set_closed (x : option CloseReason) (w : tcp_loop) : tcp_loop :=
  mkTcpLoop (tl_buffer w) (tl_read w) (tl_write w) (tl_activity w) (tl_idle_deadline w) (tl_queue w) (tl_io w) (tl_received w) (tl_delivered w) (tl_wire w) (tl_sent w) (tl_state w) x.

(** [write_all] on a socket that takes nothing. *)
Definition write_zero : IoError := mkIo IoOther "failed to write whole buffer".

Section Loop.
Context `{T : Target}.
(** [format!("{e:?}")] of the adapter's error, a derived [Debug]. *)
Context (debug : TcpError -> string).
Context (idle_timeout : option Z).

(** The top of the idle loop computes the deadline it then sleeps to. *)
Definition idle_again (w : tcp_loop) : tcp_loop :=
  set_idle_deadline (fmap (fun t => tl_activity w + t) idle_timeout) w.

Definition start_event_loop (now : Z) (decode_limits : DecodeLimits) (pool : OptimizedMemoryPool)
    (queue : list OutboundItem) (io : io_state) : tcp_loop :=
  idle_again (mkTcpLoop (new_with_pool 8192 decode_limits pool).1 Filling Receiving now None queue io [] [] [] []
    (ConnState_new StConnected) None).

(** The end of the [select!]: the reason is published and the state closed; the
    item in hand and the queue go down with the task. *)
Definition finish (reason : CloseReason) (w : tcp_loop) : tcp_loop :=
  let io := match tl_write w with Writing it _ => drop_item it (tl_io w) | Receiving => tl_io w end in
  set_closed (Some reason) (set_state (set_status StClosed (tl_state w))
    (set_io (drop_items (tl_queue w) io) (set_queue [] (set_write Receiving w)))).

(** ** Steps *)

Inductive tcp_label :=
  | Filled (now : Z) (bs : bytes) (policy : FramePolicy)
  | FillFailed (e : IoError)
  | Handed (taken : bool)
  | TakeItem
  | SocketTook (now : Z) (k : nat)
  | SocketFailed (e : IoError)
  | WriteTimedOut
  | SendersGone
  | IdleTimer (now : Z)
  | ShutdownSignal.

(** One turn of the inner loop, to the next packet or back to the socket. *)
Definition next_packet (strict : bool) (w : tcp_loop) : tcp_loop :=
  match try_parse_next_packet strict (tl_buffer w) with
  | Some (Done (Some packet), b) => set_read (Handing packet strict) (set_buffer b w)
  | Some (Done None, b) => set_read Filling (set_buffer b w)
  | Some (Throw e, b) => finish (CloseError (debug e)) (set_buffer b w)
  | _ => w
  end.

(** [fill_from_stream] returned these bytes. *)
Definition filled (now : Z) (bs : bytes) (policy : FramePolicy) (w : tcp_loop) : tcp_loop :=
  match bs with
  | [] => finish Normal w
  | _ =>
      let b := tl_buffer w in
      next_packet (bool_decide (policy = Strict))
        (set_received (tl_received w ++ bs) (set_buffer (Stream.set_buffer (rb_buffer b ++ bs) b)
          (set_activity now w)))
  end.

(** The timed write of an item ended this way. *)
Definition write_ended (now : Z) (it : OutboundItem) (io : write_io) (w : tcp_loop) : tcp_loop :=
  let resolve r w := set_write Receiving (set_io (retire_item it (complete_item it r (tl_io w))) w) in
  match write_result debug (ob_packet it) io with
  | Done _ =>
      set_sent (tl_sent w ++ [message_id (header (ob_packet it))]) (set_activity now (resolve (Done tt) w))
  | Throw e => finish (CloseError (TransportError_display e)) (resolve (Throw e) w)
  | Panic => w
  end.

(** The item is received and its write polled for the first time. *)
Definition take_item (w : tcp_loop) : tcp_loop :=
  match tl_queue w with
  | [] => w
  | it :: queue =>
      let w := set_queue queue w in
      match write_packet_to_stream (ob_packet it) with
      | Done packet_bytes => set_write (Writing it packet_bytes) w
      | _ => write_ended 0 it WriteDone w
      end
  end.

(** The socket takes the next [k] bytes of the write. *)
Definition socket_took (now : Z) (k : nat) (w : tcp_loop) : tcp_loop :=
  match tl_write w with
  | Receiving => w
  | Writing it rest =>
      if (k =? 0)%nat then write_ended now it (WriteError write_zero) w
      else
        let w := set_wire (tl_wire w ++ take k rest) w in
        if (length rest <=? k)%nat then write_ended now it WriteDone w
        else set_write (Writing it (drop k rest)) w
  end.

Definition idle_step (now : Z) (w : tcp_loop) : tcp_loop :=
  match tl_idle_deadline w, idle_timeout with
  | Some deadline, Some timeout =>
      if deadline <=? now
      then if tl_activity w + timeout <=? now then finish CloseTimeout w else idle_again w
      else w
  | _, _ => w
  end.

(** A step its future cannot take now, or of a finished loop, changes nothing. *)
Definition tcp_step (l : tcp_label) (w : tcp_loop) : tcp_loop :=
  match tl_closed w with
  | Some _ => w
  | None =>
      match l with
      | Filled now bs policy => match tl_read w with Filling => filled now bs policy w | _ => w end
      | FillFailed e => match tl_read w with Filling => finish (CloseError (debug (TcpIo e))) w | _ => w end
      | Handed taken =>
          match tl_read w with
          | Handing p strict =>
              if taken then next_packet strict (set_delivered (tl_delivered w ++ [p]) w) else finish Normal w
          | Filling => w
          end
      | TakeItem => match tl_write w with Receiving => take_item w | _ => w end
      | SocketTook now k => socket_took now k w
      | SocketFailed e =>
          match tl_write w with Writing it _ => write_ended 0 it (WriteError e) w | Receiving => w end
      | WriteTimedOut =>
          match tl_write w with Writing it _ => write_ended 0 it WriteDeadline w | Receiving => w end
      | SendersGone => match tl_write w, tl_queue w with Receiving, [] => finish Normal w | _, _ => w end
      | IdleTimer now => idle_step now w
      | ShutdownSignal => finish Normal w
      end
  end.

Definition tcp_run (ls : list tcp_label) (w : tcp_loop) : tcp_loop := foldl (fun w l => tcp_step l w) w ls.
End Loop.

(** ** What is on the wire and what is reported *)

Section Account.
Context `{T : Target} (debug : TcpError -> string) (idle_timeout : option Z).
Abbreviation step := (tcp_step debug idle_timeout).
Abbreviation run := (tcp_run debug idle_timeout).

Definition in_hand (w : tcp_loop) : list OutboundItem :=
  match tl_write w with Writing it _ => [it] | Receiving => [] end.

(** What follows the written frames on the wire: the beginning of the frame in
    hand, or of the one whose write failed. *)
Inductive cut (items : list OutboundItem) : tcp_write_pc -> option CloseReason -> bytes -> Prop :=
  | cut_none c : cut items Receiving c []
  | cut_writing it sent rest : try_encode (ob_packet it) = Done (sent ++ rest) -> rest <> [] ->
      cut items (Writing it rest) None sent
  | cut_closed it sent rest r : it ∈ items -> try_encode (ob_packet it) = Done (sent ++ rest) -> rest <> [] ->
      cut items Receiving (Some r) sent.

Definition encodes (it : OutboundItem) (frame : bytes) : Prop := try_encode (ob_packet it) = Done frame.
Definition packet_id (it : OutboundItem) : Z := message_id (header (ob_packet it)).

(** Every item is resolved, in hand or queued; those resolved as written are
    whole frames on the wire, in order, and at most one frame is cut. *)
Record writes_ok (items : list OutboundItem) (io0 : io_state) (w : tcp_loop)
    (past written : list OutboundItem) (frames : list bytes) (tail : bytes) : Prop := {
  wo_items : items = past ++ in_hand w ++ tl_queue w;
  wo_account : accounted past written io0 (tl_io w);
  wo_sent : tl_sent w = map packet_id written;
  wo_frames : Forall2 encodes written frames;
  wo_wire : tl_wire w = concat frames ++ tail;
  wo_cut : cut items (tl_write w) (tl_closed w) tail;
  wo_done : tl_closed w <> None -> tl_queue w = [] /\ tl_write w = Receiving
}.

Definition writes_sound (items : list OutboundItem) (io0 : io_state) (w : tcp_loop) : Prop :=
  exists past written frames tail, writes_ok items io0 w past written frames tail.

(** Only the write side matters to [writes_sound]. *)
Lemma writes_sound_frame items io0 w w' : writes_sound items io0 w -> tl_write w' = tl_write w -> tl_queue w' = tl_queue w ->
  tl_io w' = tl_io w -> tl_sent w' = tl_sent w -> tl_wire w' = tl_wire w -> tl_closed w' = tl_closed w ->
  writes_sound items io0 w'.
Proof.
  intros (past & written & frames & tail & [H1 H2 H3 H4 H5 H6 H7]) E1 E2 E3 E4 E5 E6.
  exists past, written, frames, tail. unfold in_hand in *. split; unfold in_hand; by rewrite ?E1, ?E2, ?E3, ?E4, ?E5, ?E6.
Qed.

Lemma writes_sound_finish items io0 r w : unresolved items (io_receipts io0) -> tl_closed w = None ->
  writes_sound items io0 w -> writes_sound items io0 (finish r w).
Proof.
  intros Hun Hc (past & written & frames & tail & [-> H2 H3 H4 H5 H6 _]).
  pose proof (accounted_unresolved _ _ _ _ _ Hun H2) as Hrest.
  exists (past ++ in_hand w ++ tl_queue w), (written ++ [] ++ []), frames, tail.
  unfold finish, in_hand in *. split; cbn; rewrite ?app_nil_r; try done.
  - rewrite <- (app_nil_r written). eapply accounted_app; [done|].
    destruct (tl_write w) as [|it rest]; [by apply accounted_drop|].
    apply (accounted_app [it] (tl_queue w) [] [] _ (drop_item it (tl_io w))).
    + apply (accounted_one it (Done tt)). by apply (unresolved_app_l [it] (tl_queue w)).
    + apply accounted_drop. apply (accounted_unresolved [it] (tl_queue w) [] (tl_io w)); [done|].
      apply (accounted_one it (Done tt)). by apply (unresolved_app_l [it] (tl_queue w)).
  - rewrite Hc in H6. inversion H6; subst; [constructor|]. eapply (cut_closed _ it); try done.
    rewrite !elem_of_app. right. left. by left.
Qed.

Lemma write_result_done p io frame : write_result debug p io = Done frame ->
  write_packet_to_stream p = Done frame /\ io = WriteDone.
Proof. unfold write_result. destruct (write_packet_to_stream p), io; try done. by intros [= ->]. Qed.

(** The write of the item in hand ends: as written only when its whole frame is
    on the wire. *)
Lemma writes_sound_write_ended items io0 now it io w past written frames tail :
  unresolved items (io_receipts io0) -> tl_closed w = None ->
  items = past ++ [it] ++ tl_queue w -> accounted past written io0 (tl_io w) ->
  tl_sent w = map packet_id written -> Forall2 encodes written frames -> tl_wire w = concat frames ++ tail ->
  match write_result debug (ob_packet it) io with
  | Done frame => tail = frame
  | Throw _ => tail = [] \/ exists rest, rest <> [] /\ try_encode (ob_packet it) = Done (tail ++ rest)
  | Panic => False
  end ->
  writes_sound items io0 (write_ended debug now it io w).
Proof.
  intros Hun Hc -> Ha Hs Hf Hw Hio. unfold write_ended.
  pose proof (accounted_unresolved _ _ _ _ _ Hun Ha) as Hrest. pose proof (unresolved_app_l [it] _ _ Hrest) as Hit.
  destruct (write_result debug (ob_packet it) io) as [frame|e|] eqn:Hr; [| |done].
  - subst tail. exists (past ++ [it]), (written ++ [it]), (frames ++ [frame]), []. split; cbn.
    + by rewrite <- app_assoc.
    + eapply accounted_app; [done|]. apply (accounted_one it (Done tt) _ Hit).
    + by rewrite Hs, map_app.
    + apply Forall2_app; [done|]. constructor; [|constructor]. apply write_packet_done.
      by apply write_result_done in Hr as [? _].
    + by rewrite Hw, concat_app, app_nil_r, concat_cons, app_nil_r.
    + constructor.
    + by rewrite Hc.
  - set (st1 := retire_item it (complete_item it (Throw e) (tl_io w))).
    pose proof (proj1 (accounted_one it (Throw e) _ Hit)) as H1. rewrite bool_decide_false in H1 by done.
    exists (past ++ [it] ++ tl_queue w), (written ++ [] ++ []), frames, tail.
    split; cbn; rewrite ?app_nil_r; try done.
    + rewrite <- (app_nil_r written). eapply accounted_app; [done|].
      apply (accounted_app [it] (tl_queue w) [] [] _ st1); [done|]. apply accounted_drop.
      by apply (accounted_unresolved [it] (tl_queue w) [] (tl_io w)).
    + destruct Hio as [->|(rest & Hne & He)]; [constructor|]. eapply (cut_closed _ it); try done.
      apply elem_of_app. right. by left.
Qed.

Lemma write_result_failed p io : io <> WriteDone -> exists e, write_result debug p io = Throw e.
Proof.
  intros Hio. unfold write_result, write_packet_to_stream. pose proof (try_encode_no_panic p) as Hp.
  destruct (try_encode p); cbn; [destruct io; [done|by eexists..]|by eexists|done].
Qed.

Lemma writes_sound_take items io0 w : unresolved items (io_receipts io0) -> tl_closed w = None ->
  tl_write w = Receiving -> writes_sound items io0 w -> writes_sound items io0 (take_item debug w).
Proof.
  intros Hun Hc Hw Hok. pose proof Hok as (past & written & frames & tail & [H1 H2 H3 H4 H5 H6 H7]).
  unfold take_item. destruct (tl_queue w) as [|it queue] eqn:Hq; [done|].
  unfold in_hand in H1. rewrite Hw in H1, H6. cbn in H1. rewrite Hc in H6. inversion H6; subst tail.
  unfold write_packet_to_stream at 1. destruct (try_encode (ob_packet it)) as [frame|e|] eqn:He; cbn.
  - exists past, written, frames, []. split; cbn; try done.
    rewrite Hc. constructor; [done|]. by apply (try_encode_nonempty (ob_packet it)).
  - eapply (writes_sound_write_ended _ _ 0 it WriteDone (set_queue queue w)); try done.
    unfold write_result, write_packet_to_stream. rewrite He. cbn. by left.
  - by destruct (try_encode_no_panic _ He).
Qed.

(** The cut of an item in hand. *)
Lemma in_hand_cut items io0 w it rest : tl_write w = Writing it rest -> writes_sound items io0 w ->
  exists past written frames sent, items = past ++ [it] ++ tl_queue w /\ accounted past written io0 (tl_io w) /\
    tl_sent w = map packet_id written /\ Forall2 encodes written frames /\ tl_wire w = concat frames ++ sent /\
    try_encode (ob_packet it) = Done (sent ++ rest) /\ rest <> [].
Proof.
  intros Hw (past & written & frames & sent & [H1 H2 H3 H4 H5 H6 H7]). unfold in_hand in H1. rewrite Hw in H1, H6.
  exists past, written, frames, sent. inversion H6; subst. by split_and!.
Qed.

Lemma writes_sound_write_failed items io0 it rest io now w : unresolved items (io_receipts io0) -> tl_closed w = None ->
  tl_write w = Writing it rest -> writes_sound items io0 w -> io <> WriteDone ->
  writes_sound items io0 (write_ended debug now it io w).
Proof.
  intros Hun Hc Hw Hok Hio. destruct (in_hand_cut _ _ _ _ _ Hw Hok) as (past & written & frames & sent & H1 & H2 & H3 & H4 & H5 & H6 & H7).
  eapply writes_sound_write_ended; try done. destruct (write_result_failed (ob_packet it) io Hio) as [e ->].
  right. by exists rest.
Qed.

Lemma writes_sound_took items io0 now k w : unresolved items (io_receipts io0) -> tl_closed w = None ->
  writes_sound items io0 w -> writes_sound items io0 (socket_took debug now k w).
Proof.
  intros Hun Hc Hok. unfold socket_took. destruct (tl_write w) as [|it rest] eqn:Hw; [done|].
  case_match; [by eapply writes_sound_write_failed|].
  destruct (in_hand_cut _ _ _ _ _ Hw Hok) as (past & written & frames & sent & H1 & H2 & H3 & H4 & H5 & H6 & H7).
  case_match eqn:Hk.
  - apply Nat.leb_le in Hk. rewrite take_ge by lia.
    eapply (writes_sound_write_ended _ _ _ _ _ _ past written frames (sent ++ rest)); try done.
    + cbn. by rewrite H5, <- app_assoc.
    + unfold write_result, write_packet_to_stream. by rewrite H6.
  - apply Nat.leb_gt in Hk. exists past, written, frames, (sent ++ take k rest). split; cbn; try done.
    + cbn. by rewrite H5, <- app_assoc.
    + rewrite Hc. constructor; [by rewrite <- app_assoc, take_drop|].
      intros Hn. apply (f_equal length) in Hn. rewrite length_drop in Hn. cbn in Hn. lia.
Qed.

Lemma writes_sound_next items io0 strict w : unresolved items (io_receipts io0) -> tl_closed w = None ->
  writes_sound items io0 w -> writes_sound items io0 (next_packet debug strict w).
Proof.
  intros Hun Hc Hok. unfold next_packet.
  destruct (try_parse_next_packet strict (tl_buffer w)) as [[[[p|]|e|] b]|]; try done.
  - by apply (writes_sound_frame items io0 w).
  - by apply (writes_sound_frame items io0 w).
  - apply writes_sound_finish; try done. by apply (writes_sound_frame items io0 w).
Qed.

Lemma writes_sound_step l items io0 w : unresolved items (io_receipts io0) -> writes_sound items io0 w ->
  writes_sound items io0 (step l w).
Proof.
  intros Hun Hok. unfold tcp_step. destruct (tl_closed w) as [r|] eqn:Hc; [done|].
  assert (Hfin : forall r, writes_sound items io0 (finish r w)) by (intros; by apply writes_sound_finish).
  destruct l as [now bs policy|e|taken| |now k|e| | |now| ].
  - destruct (tl_read w); [|done]. unfold filled. destruct bs; [done|].
    apply writes_sound_next; [done..|]. by apply (writes_sound_frame items io0 w).
  - by destruct (tl_read w).
  - destruct (tl_read w) as [|p strict]; [done|]. destruct taken; [|done].
    apply writes_sound_next; [done..|]. by apply (writes_sound_frame items io0 w).
  - destruct (tl_write w) eqn:Hw; [|done]. by apply writes_sound_take.
  - by apply writes_sound_took.
  - destruct (tl_write w) eqn:Hw; [done|]. by eapply writes_sound_write_failed.
  - destruct (tl_write w) eqn:Hw; [done|]. by eapply writes_sound_write_failed.
  - destruct (tl_write w), (tl_queue w); done.
  - unfold idle_step. destruct (tl_idle_deadline w), idle_timeout; try done.
    destruct (_ <=? _); [|done]. destruct (_ <=? _); [done|by apply (writes_sound_frame items io0 w)].
  - done.
Qed.

Lemma tcp_run_sound items io0 ls w : unresolved items (io_receipts io0) -> writes_sound items io0 w -> writes_sound items io0 (run ls w).
Proof.
  intros Hun. revert w. induction ls as [|l ls IH]; intros w Hok; [done|]. by apply IH, writes_sound_step.
Qed.

Lemma tcp_start_sound items io0 now limits pool :
  writes_sound items io0 (start_event_loop idle_timeout now limits pool items io0).
Proof. exists [], [], [], []. split; try done; [apply accounted_nil|constructor]. Qed.
End Account.

(** ** What the reader makes of the bytes *)

Lemma prefix_app_split {A} (l a b : list A) : l `prefix_of` a ++ b ->
  ((length l < length a)%nat /\ l = take (length l) a) \/ exists rest, l = a ++ rest /\ rest `prefix_of` b.
Proof.
  intros [k Hk]. destruct (decide (length l < length a)%nat) as [Hlt|Hge].
  - left. split; [done|]. apply (f_equal (take (length l))) in Hk. rewrite take_app_le, take_app_length in Hk by lia. done.
  - right. exists (drop (length a) l). assert (Hl : l = a ++ drop (length a) l).
    { apply (f_equal (take (length a))) in Hk as Ht. rewrite take_app_length, take_app_le in Ht by lia.
      rewrite Ht at 1. by rewrite take_drop. }
    split; [done|]. exists k. rewrite Hl, <- app_assoc in Hk. by apply app_inv_head in Hk.
Qed.

Section Reads.
Context `{T : Target} (debug : TcpError -> string) (idle_timeout : option Z).
Abbreviation step := (tcp_step debug idle_timeout).
Abbreviation run := (tcp_run debug idle_timeout).

(** The packets on the wire, their frames, and the reader's limits. *)
Context (limits : DecodeLimits) (ps : list Packet) (ws : list bytes).
Context (Hl : limits_ok limits) (Hps : Forall (fun p => packet_ok p /\ fits limits p) ps).
Context (Hws : Forall2 (fun p w => try_encode p = Done w) ps ws).

Definition handed (w : tcp_loop) : list Packet := match tl_read w with Handing p _ => [p] | Filling => [] end.

Definition short_of (ws : list bytes) (buf : bytes) : Prop :=
  match ws with [] => buf = [] | frame :: _ => (length buf < length frame)%nat end.

(** The reader has taken the first [k] frames and keeps the rest of what it
    received; between two reads of the socket that is less than a frame. *)
Record reads_at (w : tcp_loop) (k : nat) : Prop := {
  ra_bound : (k <= length ps)%nat;
  ra_packets : tl_delivered w ++ handed w = take k ps;
  ra_bytes : tl_received w = concat (take k ws) ++ rb_buffer (tl_buffer w);
  ra_limits : rb_decode (tl_buffer w) = limits;
  ra_short : tl_read w = Filling -> short_of (drop k ws) (rb_buffer (tl_buffer w))
}.

Lemma reads_at_frame w w' k : reads_at w k -> tl_delivered w' = tl_delivered w -> tl_read w' = tl_read w ->
  tl_received w' = tl_received w -> tl_buffer w' = tl_buffer w -> reads_at w' k.
Proof.
  intros [H1 H2 H3 H4 H5] E1 E2 E3 E4. unfold handed in H2. split; unfold handed; rewrite ?E1, ?E2, ?E3, ?E4; done.
Qed.

Lemma next_packet_reads strict w k : (k <= length ps)%nat -> tl_delivered w = take k ps ->
  tl_received w = concat (take k ws) ++ rb_buffer (tl_buffer w) -> rb_decode (tl_buffer w) = limits ->
  tl_received w `prefix_of` concat ws -> exists k', reads_at (next_packet debug strict w) k'.
Proof.
  intros Hk Hd Hr Hlim Hpre. rewrite Hr in Hpre. rewrite <- (take_drop k ws) in Hpre at 2.
  rewrite concat_app in Hpre. apply prefix_app_inv in Hpre.
  pose proof (Forall2_length _ _ _ Hws) as Hlen. pose proof (Forall2_drop _ _ _ k Hws) as Hws'.
  pose proof (Forall_drop _ k _ Hps) as Hps'.
  assert (Hwait : frame_len (rb_buffer (tl_buffer w)) limits = Done None ->
    short_of (drop k ws) (rb_buffer (tl_buffer w)) -> exists k', reads_at (next_packet debug strict w) k').
  { intros Hf Hs. unfold next_packet, try_parse_next_packet. rewrite parse_incomplete by (by rewrite Hlim).
    exists k. split; cbn; rewrite ?app_nil_r; done. }
  destruct (drop k ws) as [|frame more] eqn:Ews.
  { cbn in Hpre. apply prefix_nil_inv in Hpre. apply Hwait; [|done]. rewrite Hpre. unfold frame_len.
    by rewrite frame_layout_short. }
  destruct (drop k ps) as [|p more_ps] eqn:Eps; [by inversion Hws'|].
  inversion Hws' as [|? ? ? ? Henc Hws'']; subst. inversion Hps' as [|? ? [Hok Hfit] _]; subst.
  destruct (decode_encoded p [] limits) as (frame' & Hf' & Hlenp & _); [done..|].
  assert (frame' = frame) as -> by congruence.
  cbn [concat] in Hpre. apply prefix_app_split in Hpre as [[Hlt Htake]|(rest & Hrest & _)].
  - apply Hwait; [|done].
    destruct (strict_prefix_is_incomplete p limits frame (len (rb_buffer (tl_buffer w))))
      as [_ Hinc]; try done.
    { rewrite <- Hlenp. unfold len. lia. }
    unfold len in Hinc. rewrite Nat2Z.id in Hinc. by rewrite <- Htake in Hinc.
  - unfold next_packet. rewrite (parse_encoded strict _ p frame rest) by (by rewrite ?Hlim). exists (S k).
    assert (Hlk : ps !! k = Some p) by (by rewrite <- (Nat.add_0_r k), <- lookup_drop, Eps).
    assert (Hlw : ws !! k = Some frame) by (by rewrite <- (Nat.add_0_r k), <- lookup_drop, Ews).
    split; cbn; try done.
    + by apply lookup_lt_Some in Hlk.
    + by rewrite (take_S_r _ _ _ Hlk), Hd.
    + rewrite (take_S_r _ _ _ Hlw), concat_app, Hr, Hrest. cbn. by rewrite app_nil_r, <- app_assoc.
Qed.

Lemma received_grows l w : tl_received w `prefix_of` tl_received (step l w).
Proof.
  unfold tcp_step. destruct (tl_closed w); [done|].
  destruct l; unfold filled, next_packet, take_item, socket_took, write_ended, idle_step; repeat case_match; cbn;
    first [done|by apply prefix_app_r].
Qed.

Lemma received_grows_run ls w : tl_received w `prefix_of` tl_received (run ls w).
Proof.
  revert w. induction ls as [|l ls IH]; intros w; [done|]. etrans; [apply received_grows|apply IH].
Qed.

Lemma reads_step l w : (exists k, reads_at w k) -> tl_received (step l w) `prefix_of` concat ws ->
  exists k, reads_at (step l w) k.
Proof.
  intros [k Hk] Hpre. pose proof Hk as [H1 H2 H3 H4 H5]. unfold tcp_step in *.
  destruct (tl_closed w); [by exists k|].
  destruct l as [now bs policy|e|taken| |now j|e| | |now| ].
  1: { unfold handed in H2. destruct (tl_read w) eqn:Hr; [|by exists k]. unfold filled in *.
       destruct bs as [|b bs]; [exists k; by apply (reads_at_frame w)|]. rewrite app_nil_r in H2.
       eapply next_packet_reads; try done.
       - cbn. by rewrite H3, <- app_assoc.
       - revert Hpre. unfold next_packet. repeat case_match; done. }
  2: { unfold handed in H2. destruct (tl_read w) as [|p strict] eqn:Hr; [by exists k|].
       destruct taken; [|exists k; by apply (reads_at_frame w)].
       eapply next_packet_reads; try done. revert Hpre. unfold next_packet. repeat case_match; done. }
  all: exists k; unfold take_item, socket_took, write_ended, idle_step; repeat case_match; by apply (reads_at_frame w).
Qed.

Lemma reads_run ls w : (exists k, reads_at w k) -> tl_received (run ls w) `prefix_of` concat ws ->
  exists k, reads_at (run ls w) k.
Proof.
  revert w. induction ls as [|l ls IH]; intros w Hw Hpre; [done|]. apply IH; [|done]. apply reads_step; [done|].
  etrans; [apply received_grows_run|done].
Qed.

Lemma start_reads now pool queue io : reads_at (start_event_loop idle_timeout now limits pool queue io) 0.
Proof.
  unfold start_event_loop, new_with_pool, get_buffer. cbn. destruct (pool_medium pool) as [|b rest]; cbn;
  (split; cbn; try done; [lia|]); intros _; destruct Hws as [|p frame ? ? He]; cbn; try done;
    pose proof (try_encode_nonempty _ _ He); destruct frame; [done|cbn; lia|done|cbn; lia].
Qed.
End Reads.

(** ** A connection, from one end to the other *)

(** The whole frames of which the wire is a beginning: those written, and the
    one that was cut. *)
Lemma wire_frames `{T : Target} items written frames tail wr c : cut items wr c tail ->
  Forall2 encodes written frames -> written ⊆ items -> (forall it rest, wr = Writing it rest -> it ∈ items) ->
  exists more mf, Forall2 encodes (written ++ more) (frames ++ mf) /\ written ++ more ⊆ items /\
    (mf = [] /\ tail = [] \/ exists rest, mf = [tail ++ rest] /\ rest <> []).
Proof.
  intros Hc Hf Hsub Hin. inversion Hc as [c'|it sent rest He Hne|it sent rest r Hit He Hne]; subst.
  - exists [], []. rewrite !app_nil_r. split_and!; [done..|by left].
  - exists [it], [tail ++ rest]. split_and!; [by apply Forall2_app; [done|constructor]| |right; by exists rest].
    intros x [Hx|Hx]%elem_of_app; [by apply Hsub|]. apply list_elem_of_singleton in Hx as ->. by eapply Hin.
  - exists [it], [tail ++ rest]. split_and!; [by apply Forall2_app; [done|constructor]| |right; by exists rest].
    intros x [Hx|Hx]%elem_of_app; [by apply Hsub|]. by apply list_elem_of_singleton in Hx as ->.
Qed.

Lemma length_concat_take {A} (ls : list (list A)) k l : ls !! k = Some l ->
  (length (concat (take k ls)) + length l <= length (concat ls))%nat.
Proof.
  intros Hk. rewrite <- (take_drop_middle ls k l Hk) at 2. rewrite concat_app, concat_cons, !length_app. lia.
Qed.

Section Properties.
Context `{T : Target} (debug : TcpError -> string).
Context (idle_a idle_b : option Z) (limits_b : DecodeLimits) (items : list OutboundItem) (io0 : io_state).
Context (Hun : unresolved items (io_receipts io0)) (Hl : limits_ok limits_b).
Context (Hfit : Forall (fun it => packet_ok (ob_packet it) /\ fits limits_b (ob_packet it)) items).

(** Where the reader stands in the frames of the writer. *)
Lemma reader_position ls_a ls_b a0 b0 : writes_sound items io0 a0 -> tl_received b0 = [] ->
  (forall ps ws, Forall (fun p => packet_ok p /\ fits limits_b p) ps ->
     Forall2 (fun p w => try_encode p = Done w) ps ws -> reads_at limits_b ps ws b0 0) ->
  let a := tcp_run debug idle_a ls_a a0 in
  let b := tcp_run debug idle_b ls_b b0 in
  tl_received b `prefix_of` tl_wire a ->
  exists past written frames tail ps ws k, writes_ok items io0 a past written frames tail /\
    reads_at limits_b (map ob_packet written ++ ps) (frames ++ ws) b k /\ (k <= length written)%nat.
Proof.
  intros Ha Hb0 Hb a b Hpre.
  destruct (tcp_run_sound debug idle_a items io0 ls_a _ Hun Ha) as (past & written & frames & tail & Hok).
  pose proof Hok as [H1 H2 H3 H4 H5 H6 H7].
  destruct (wire_frames items written frames tail _ _ H6 H4) as (more & mf & Henc & Hmore & Htail).
  { destruct H2 as (L & L' & _ & _ & _ & _ & Hsub). intros x Hx. rewrite H1. apply elem_of_app. left.
    by eapply elem_of_sublist. }
  { intros it rest Hw. rewrite H1. unfold in_hand. rewrite Hw, !elem_of_app. right. left. by left. }
  assert (Hws : Forall2 (fun p w => try_encode p = Done w) (map ob_packet written ++ map ob_packet more) (frames ++ mf))
    by (rewrite <- map_app; by apply Forall2_fmap_l).
  assert (Hps : Forall (fun p => packet_ok p /\ fits limits_b p) (map ob_packet written ++ map ob_packet more)).
  { rewrite <- map_app. apply Forall_fmap, Forall_forall. intros x Hx. rewrite Forall_forall in Hfit. by apply Hfit, Hmore. }
  destruct (reads_run debug idle_b limits_b _ (frames ++ mf) Hl Hps Hws ls_b b0) as [k Hk]; [exists 0%nat; by apply Hb| |].
  { etrans; [exact Hpre|]. fold a in H5. rewrite H5, concat_app. apply prefix_app.
    destruct Htail as [[-> ->]|(rest & -> & _)]; [done|]. cbn. rewrite app_nil_r. by apply prefix_app_r. }
  exists past, written, frames, tail, (map ob_packet more), mf, k. split_and!; [done..|].
  pose proof (ra_bound _ _ _ _ _ Hk) as Hb1. pose proof (ra_bytes _ _ _ _ _ Hk) as Hb2.
  pose proof (Forall2_length _ _ _ H4) as Hlen. pose proof (Forall2_length _ _ _ Henc) as Hlen'.
  rewrite length_app, !length_map in Hb1. rewrite !length_app in Hlen'.
  destruct (decide (k <= length written)%nat) as [|Hgt]; [done|exfalso].
  destruct Htail as [[-> ->]|(rest & -> & Hne)]; cbn in Hlen'; [lia|].
  rewrite take_ge in Hb2 by (rewrite length_app; cbn; lia). fold a in H5.
  fold b in Hb2. rewrite Hb2, H5, concat_app in Hpre. destruct Hpre as [z Hz]. apply (f_equal length) in Hz.
  cbn in Hz. rewrite !length_app in Hz. destruct rest; [done|cbn in Hz; lia].
Qed.

(** C14: what one end of a TCP connection reports sent is what the other end
    delivers. However the two event loops interleave their reads, writes,
    timers, failures and shutdowns, however the socket splits the writes and the
    reads, and under any frame policy: when the bytes the reader received are a
    beginning of those the writer's socket took, the reader delivers a beginning
    of the packets reported sent, in their order, and all of them once it has
    received everything and waits for more; a write that failed half way adds
    nothing. Once the writer is closed, every receipt is resolved and says
    written exactly for these packets, and every claimed request is settled. *)
Theorem tcp_reader_delivers_what_was_reported_sent ls_a ls_b limits_a pool_a pool_b now_a now_b items_b io_b
    (Hwf : wf ∅ (io_registry io0)) :
  let a := tcp_run debug idle_a ls_a (start_event_loop idle_a now_a limits_a pool_a items io0) in
  let b := tcp_run debug idle_b ls_b (start_event_loop idle_b now_b limits_b pool_b items_b io_b) in
  tl_received b `prefix_of` tl_wire a ->
  exists written, tl_sent a = map packet_id written /\
    (tl_closed a <> None -> reported items written io0 (tl_io a)) /\
    tl_delivered b `prefix_of` map ob_packet written /\
    (tl_received b = tl_wire a -> tl_read b = Filling -> tl_delivered b = map ob_packet written).
Proof.
  intros a b Hpre.
  destruct (reader_position ls_a ls_b (start_event_loop idle_a now_a limits_a pool_a items io0)
    (start_event_loop idle_b now_b limits_b pool_b items_b io_b) (tcp_start_sound idle_a items io0 now_a limits_a pool_a) eq_refl
    (fun ps ws Hps Hws => start_reads idle_b limits_b ps ws Hps Hws now_b pool_b items_b io_b) Hpre) as
    (past & written & frames & tail & ps & ws & k & [H1 H2 H3 H4 H5 H6 H7] & [K1 K2 K3 K4 K5] & Hk).
  fold a in H1, H2, H3, H5, H7. fold b in K2, K3, K4, K5. exists written.
  rewrite take_app_le in K2 by (by rewrite length_map). split_and!; [done| | |].
  - intros Hc. apply H7 in Hc as [Hq Hw]. unfold in_hand in H1. rewrite Hq, Hw, !app_nil_r in H1. subst past.
    by apply accounted_reported.
  - exists (handed b ++ drop k (map ob_packet written)). by rewrite app_assoc, K2, take_drop.
  - intros Hr Hf. unfold handed in K2. rewrite Hf, app_nil_r in K2. rewrite K2. apply take_ge. rewrite length_map.
    destruct (decide (length written <= k)%nat) as [|Hlt]; [done|exfalso]. pose proof (Forall2_length _ _ _ H4).
    destruct (lookup_lt_is_Some_2 frames k) as [frame Hframe]; [lia|]. specialize (K5 Hf).
    rewrite drop_app_le, (drop_S _ _ _ Hframe) in K5 by lia. cbn in K5.
    pose proof (length_concat_take _ _ _ Hframe). rewrite K3, H5, take_app_le in Hr by lia.
    apply (f_equal length) in Hr. rewrite !length_app in Hr. lia.
Qed.
End Properties.

(** ** The handle: liveness and the idle timeout *)

Section Handle.
Context `{T : Target} (debug : TcpError -> string) (idle_timeout : option Z).
Abbreviation run := (tcp_run debug idle_timeout).

(** [Connection::close] of the adapter: the signal, the end of the task awaited,
    and the status stored once more. *)
Definition TcpAdapter_close (w : tcp_loop) : tcp_loop :=
  let w := tcp_step debug idle_timeout ShutdownSignal w in
  set_state (set_status StClosed (tl_state w)) w.

Definition TcpAdapter_is_connected (w : tcp_loop) : bool := is_connected (tl_state w).

(** The state the handle reads says connected until the loop ends, and the
    session identifier is left alone. *)
Definition state_ok (w0 w : tcp_loop) : Prop :=
  TcpAdapter_is_connected w = bool_decide (tl_closed w = None) /\
  session_id (tl_state w) = session_id (tl_state w0).

Lemma state_finish w0 r w : session_id (tl_state w) = session_id (tl_state w0) -> state_ok w0 (finish r w).
Proof. done. Qed.

Lemma state_step w0 l w : state_ok w0 w -> state_ok w0 (tcp_step debug idle_timeout l w).
Proof.
  intros [H1 H2]. unfold tcp_step. destruct (tl_closed w) eqn:Hc; [split; by rewrite ?Hc|].
  assert (Hw : state_ok w0 w) by (split; by rewrite ?Hc).
  destruct l; unfold filled, next_packet, take_item, socket_took, write_ended, idle_step;
    repeat case_match; try done; by (split; cbn; rewrite ?Hc).
Qed.

Lemma state_run w0 ls w : state_ok w0 w -> state_ok w0 (run ls w).
Proof.
  revert w. induction ls as [|l ls IH]; intros w Hw; [done|]. by apply IH, state_step.
Qed.

Lemma handle_tells_the_truth ls now limits pool queue io :
  let w := run ls (start_event_loop idle_timeout now limits pool queue io) in
  (TcpAdapter_is_connected w = true <-> tl_closed w = None) /\
  TcpAdapter_is_connected (TcpAdapter_close w) = false /\ tl_closed (TcpAdapter_close w) <> None.
Proof.
  cbv zeta. set (w := run _ _). destruct (state_run (start_event_loop idle_timeout now limits pool queue io) ls
    (start_event_loop idle_timeout now limits pool queue io)) as [H _]; [by split|]. fold w in H.
  rewrite H, bool_decide_eq_true. split; [done|]. unfold TcpAdapter_close, TcpAdapter_is_connected. cbn.
  split; [done|]. unfold tcp_step. by destruct (tl_closed w) eqn:E; rewrite ?E.
Qed.

(** The clock of a run only goes forward. *)
Definition time_of (l : tcp_label) : option Z :=
  match l with Filled now _ _ | SocketTook now _ | IdleTimer now => Some now | _ => None end.
Fixpoint ascending (from : Z) (ls : list tcp_label) : Prop :=
  match ls with
  | [] => True
  | l :: ls => match time_of l with Some now => from <= now /\ ascending now ls | None => ascending from ls end
  end.

(** The sleep of the idle future never overshoots the last activity. *)
Definition idle_ok (from : Z) (w : tcp_loop) : Prop :=
  tl_closed w = None -> tl_activity w <= from /\
  forall t, idle_timeout = Some t -> exists d, tl_idle_deadline w = Some d /\ d <= tl_activity w + t.

Lemma idle_step_ok from l w : idle_ok from w ->
  match time_of l with Some now => from <= now | None => True end ->
  idle_ok (default from (time_of l)) (tcp_step debug idle_timeout l w).
Proof.
  intros Hw Ht. unfold tcp_step. destruct (tl_closed w) eqn:Hc; [by intros ?; congruence|].
  destruct (Hw Hc) as [Ha Hd].
  assert (Hkeep : forall w', tl_activity w' = tl_activity w -> tl_idle_deadline w' = tl_idle_deadline w ->
    idle_ok (default from (time_of l)) w').
  { intros w' E1 E2 _. rewrite E1, E2. split; [destruct (time_of l); cbn; lia|]. done. }
  assert (Hnow : forall now w', time_of l = Some now -> tl_activity w' = now -> tl_idle_deadline w' = tl_idle_deadline w ->
    idle_ok (default from (time_of l)) w').
  { intros now w' Hl Hact Hdl _. rewrite Hl in *. cbn. rewrite Hact, Hdl. split; [lia|]. intros t Ht'.
    destruct (Hd t Ht') as (d & ? & ?). exists d. split; [done|lia]. }
  destruct l; unfold filled, next_packet, take_item, socket_took, write_ended;
    try (repeat case_match; first [by apply Hkeep | by eapply Hnow | by intros ? |
      match goal with H : write_result _ _ _ = Done _ |- _ => apply write_result_done in H as [??] end; congruence]).
  unfold idle_step. destruct (tl_idle_deadline w) as [d|] eqn:Hdl; [|by apply Hkeep].
  destruct idle_timeout as [t|] eqn:Et; [|by apply Hkeep].
  destruct (d <=? now); [|by apply Hkeep]. destruct (_ <=? now); [by apply Hkeep|]. intros _. cbn in *. split; [lia|]. intros t' Ht'. rewrite Et in Ht'. injection Ht' as <-.
  eexists. split; [done|lia].
Qed.

Lemma idle_run_ok ls : forall from w, ascending from ls -> idle_ok from w -> exists upto, idle_ok upto (run ls w).
Proof.
  induction ls as [|l ls IH]; intros from w Hasc Hw; [by exists from|].
  pose proof (idle_step_ok from l w Hw) as Hs. cbn in Hasc. destruct (time_of l) as [now|].
  - destruct Hasc as [Hle Hasc]. by apply (IH now), Hs.
  - by apply (IH from), Hs.
Qed.

(** A connection is timed out exactly when it is idle: whenever the clock is
    looked at on an open connection with an idle timeout, it is closed with a
    timeout if nothing was read nor written for that long, and stays open
    otherwise. *)
Lemma idle_timeout_is_exact ls start limits pool queue io t now
    (Ht : idle_timeout = Some t) (Hasc : ascending start ls) :
  let w := run ls (start_event_loop idle_timeout start limits pool queue io) in
  tl_closed w = None ->
  tl_closed (tcp_step debug idle_timeout (IdleTimer now) w) =
    if tl_activity w + t <=? now then Some CloseTimeout else None.
Proof.
  intros w Hc. destruct (idle_run_ok ls start (start_event_loop idle_timeout start limits pool queue io))
    as [upto Hw]; [done| |].
  { intros _. cbn. split; [lia|]. intros t' ->. eexists. split; [done|cbn; lia]. }
  fold w in Hw. destruct (Hw Hc) as [_ Hd]. destruct (Hd t Ht) as (d & Hd1 & Hd2).
  unfold tcp_step. rewrite Hc. unfold idle_step. rewrite Hd1, Ht.
  destruct (Z.leb_spec (tl_activity w + t) now); destruct (Z.leb_spec d now); try done; lia.
Qed.

(** Reads count only when they are made: while the pipe does not take a packet,
    nothing the peer sends is activity, so a peer that keeps sending is closed
    as idle. *)
Lemma blocked_consumer_idles_a_live_peer w p strict t d (fills : list (Z * bytes * FramePolicy)) :
  tl_closed w = None -> tl_read w = Handing p strict -> idle_timeout = Some t ->
  tl_idle_deadline w = Some d -> d <= tl_activity w + t ->
  tl_closed (run (map (fun x => Filled x.1.1 x.1.2 x.2) fills ++ [IdleTimer (tl_activity w + t)]) w) = Some CloseTimeout.
Proof.
  intros Hc Hr Ht Hd Hle. unfold tcp_run. rewrite foldl_app.
  assert (foldl (fun w l => tcp_step debug idle_timeout l w) w (map (fun x => Filled x.1.1 x.1.2 x.2) fills) = w) as ->.
  { induction fills as [|[[n bs] q] fills IH]; [done|]. cbn. unfold tcp_step at 2. by rewrite Hc, Hr. }
  cbn. unfold tcp_step. rewrite Hc. unfold idle_step. rewrite Hd, Ht. by zbool.
Qed.

(** One packet that cannot be encoded ends a TCP connection, and every packet
    queued behind it goes down unwritten; the message-framed adapters fail that
    packet alone. *)
Lemma unencodable_packet_ends_the_connection w it queue e :
  tl_closed w = None -> tl_write w = Receiving -> tl_queue w = it :: queue -> try_encode (ob_packet it) = Throw e ->
  let w' := tcp_step debug idle_timeout TakeItem w in
  tl_queue w' = [] /\ tl_wire w' = tl_wire w /\ tl_closed w' = Some (CloseError (TransportError_display
    (connection_error ("TCP write failed: " +:+ debug (TcpConfig ("encode failed: " +:+ PacketError_display e))) false))).
Proof.
  intros Hc Hw Hq He. unfold tcp_step. rewrite Hc, Hw. unfold take_item. rewrite Hq.
  unfold write_ended, write_result, write_packet_to_stream. by rewrite He.
Qed.
End Handle.

(** ** Witnesses *)

Definition sample_end (ls : list tcp_label) : tcp_loop :=
  tcp_run (T := Target64) (fun _ => "") (Some 300) ls
    (start_event_loop (Some 300) 0 DecodeLimits_default pool_new sample_items sample_io).

(** The first packet in two writes, the second cut by the deadline. *)
Definition sample_sender : tcp_loop :=
  sample_end [TakeItem; SocketTook 1 5; SocketTook 2 100; TakeItem; SocketTook 3 7; WriteTimedOut].

(** The reader gets it all in two reads, the cut inside the first frame. *)
Definition sample_reader : tcp_loop :=
  sample_end [Filled 4 (take 3 (tl_wire sample_sender)) Lenient; Filled 5 (drop 3 (tl_wire sample_sender)) Strict; Handed true].

Lemma tcp_reader_witness :
  tl_received sample_reader = tl_wire sample_sender /\ tl_sent sample_sender = [1] /\
  tl_delivered sample_reader = [response_with_biz 1 3 [7; 7]] /\ len (tl_wire sample_sender) = 25 /\
  await_receipt 1 "closed" (tl_io sample_sender) = Some (Throw (connection_error "TCP write deadline exceeded" false)) /\
  ~ responding sample_token (io_registry (tl_io sample_sender)).
Proof.
  destruct (tcp_reader_delivers_what_was_reported_sent (T := Target64) (fun _ => "") (Some 300) (Some 300)
    DecodeLimits_default sample_items sample_io sample_unresolved ltac:(vm_compute; intuition discriminate)
    ltac:(repeat constructor; vm_compute; intuition discriminate)
    [TakeItem; SocketTook 1 5; SocketTook 2 100; TakeItem; SocketTook 3 7; WriteTimedOut]
    [Filled 4 (take 3 (tl_wire sample_sender)) Lenient; Filled 5 (drop 3 (tl_wire sample_sender)) Strict; Handed true]
    DecodeLimits_default pool_new pool_new 0 0 sample_items sample_io claimed_registry_wf
    ltac:(vm_compute; by exists [])) as (written & _ & Hrep & _ & _).
  specialize (Hrep ltac:(vm_compute; discriminate)). pose proof (rp_claims _ _ _ _ Hrep) as Hresp.
  split_and!; [vm_compute; reflexivity..|].
  refine (Hresp (mkItem (response_with_biz 1 3 [7; 7]) None
     (Some (mkCompletion (Some 0%nat) (Some (RespondClaim_new sample_token))))) _ _ eq_refl). by left.
Defined.
