(* ===== verification/Quic.v ===== *)
(** * The QUIC adapter's stream: [crates/msgtrans/src/adapters/quic.rs]

    One bidirectional stream carries every packet, each behind a four-byte
    length. The read task, the batching write task and what one peer's writes
    mean to the other's reads. quinn itself is the environment: the bytes that
    arrive, and what each [write_all] came to. *)

From S2P Require Import Prelude Packet Errors Stream Events Registry RegistryInv RegistryOps RegistryRun RegistryProps Writes Adapters.

(** ** Errors *)

(** What quinn reports of a lost connection: a transport error or a close by
    the peer carry a code. *)
Inductive ConnectionError :=
  | QuicTransportError (code : Z) (display : string)
  | QuicConnectionClosed (error_code : Z) (display : string)
  | OtherConnectionError (display : string).
Definition ConnectionError_display (e : ConnectionError) : string :=
  match e with
  | QuicTransportError _ d | QuicConnectionClosed _ d | OtherConnectionError d => d
  end.

(** The payload of the foreign errors is how they display. *)
Inductive QuicError :=
  | QeConnect (e : string)
  | QeConnection (e : ConnectionError)
  | QeRead (e : string)
  | QeWrite (e : string)
  | QeClosedStream (e : string)
  | QeReadToEnd (e : string)
  | QeIo (e : string)
  | QeTls (e : string)
  | QeConnectionClosed
  | QeConfig (msg : string)
  | QeSerialization (msg : string).

(** The crypto error range of QUIC. *)
Definition TLS_ALERTS (code : Z) : bool := (0x100 <=? code) && (code <=? 0x1ff).

Definition is_tls_rejection (e : QuicError) : bool :=
  match e with
  | QeConnection (QuicTransportError code _) => TLS_ALERTS code
  | QeConnection (QuicConnectionClosed error_code _) => TLS_ALERTS error_code
  | _ => false
  end.

Definition TransportError_from_quic (e : QuicError) : TransportError :=
  match e with
  | QeConnect e => connection_error ("QUIC connection failed: " +:+ e) true
  | QeConnection e => connection_error ("QUIC connection error: " +:+ ConnectionError_display e) true
  | QeRead e => connection_error ("QUIC read error: " +:+ e) false
  | QeWrite e => connection_error ("QUIC write error: " +:+ e) false
  | QeClosedStream e => connection_error ("QUIC stream closed: " +:+ e) false
  | QeReadToEnd e => connection_error ("QUIC read to end error: " +:+ e) false
  | QeIo e => connection_error ("QUIC IO error: " +:+ e) true
  | QeTls e => config_error "quic" ("TLS error: " +:+ e)
  | QeConnectionClosed => connection_error "QUIC connection closed" true
  | QeConfig msg => config_error "quic" msg
  | QeSerialization msg => protocol_error "quic" msg
  end.

(** ** The read task *)

(** Why the read task ended: it closed the pipe, it was told to stop, its stream
    is open and has no more bytes, or it panicked. *)
Inductive quic_end := QuicClosed (reason : CloseReason) | QuicStopped | QuicParked | QuicPanicked.

(** [recv_stream.read_exact]. *)
Definition read_exact (n : Z) (bs : bytes) : option (bytes * bytes) :=
  if n <=? len bs then Some (take (Z.to_nat n) bs, drop (Z.to_nat n) bs) else None.

Section Read.
Context `{T : Target}.

(** [policy n] and [live n]: the frame policy and the shutdown flag when the
    [n]-th frame is read; [deliver n]: whether the pipe takes it; [ended]: the
    peer finished or reset the stream after [bs]. *)
Fixpoint quic_read (fuel : nat) (policy : nat -> FramePolicy) (live deliver : nat -> bool)
    (limits : DecodeLimits) (n : nat) (bs : bytes) (ended : bool) : option (list Packet * quic_end) :=
  match fuel with
  | O => None
  | S fuel =>
      let short := if ended then QuicClosed Normal else QuicParked in
      if negb (live n) then Some ([], QuicStopped) else
      match read_exact 4 bs with
      | None => Some ([], short)
      | Some (header_buf, bs) =>
          let frame_len := as_usize (be_value header_buf) in
          if max_frame_size limits <? frame_len
          then Some ([], QuicClosed (CloseError "Frame too large"))
          else
          match read_exact frame_len bs with
          | None => Some ([], short)
          | Some (frame, bs) =>
              match classify_frame (policy n) limits frame with
              | Done packet =>
                  if deliver n then
                    '(ps, e) ← quic_read fuel policy live deliver limits (S n) bs ended;
                    Some (packet :: ps, e)
                  else Some ([packet], QuicStopped)
              | Throw _ => Some ([], QuicClosed (CloseError "Undecodable frame (strict policy)"))
              | Panic => Some ([], QuicPanicked)
              end
          end
      end
  end.
End Read.

(** ** The write task *)

Definition WRITE_BATCH_SIZE : nat := 32.

(** What became of one batch on the stream; [QwAborted]: the task was aborted
    inside the write. [put]: how many bytes of the batch the stream had taken by
    then, [write_all] being done piece by piece; they are not taken back. *)
Inductive quic_io := QwDone | QwError (put : nat) (debug : string) | QwDeadline (put : nat) | QwAborted (put : nat).

(** One turn of the loop: the shutdown flag is up, the queue has closed, or
    [recv_many] returned [n] items. *)
Inductive quic_turn := TurnShutdown | TurnClosed | TurnBatch (n : nat) (io : quic_io).

Definition quic_frame (data : bytes) : bytes := be_bytes 4 (wrap 32 (len data)) ++ data.

Section Write.
Context `{T : Target}.

Definition encode_failed (e : PacketError) : TransportError :=
  protocol_error "quic" ("encode failed: " +:+ PacketError_display e).

(** [None]: an encoding panicked. *)
Fixpoint prepare_quic_batch (items : list OutboundItem) (write_buf : bytes) (st : io_state)
    : option (list Z * list WriteCompletion * bytes * io_state) :=
  match items with
  | [] => Some ([], [], write_buf, st)
  | it :: items =>
      match try_encode (ob_packet it) with
      | Throw e => prepare_quic_batch items write_buf (retire_item it (complete_item it (Throw (encode_failed e)) st))
      | Done data =>
          '(packet_ids, completions, write_buf, st) ←
            prepare_quic_batch items (write_buf ++ quic_frame data) (retire_item it st);
          Some (message_id (header (ob_packet it)) :: packet_ids,
                option_list (ob_completion it) ++ completions, write_buf, st)
      | Panic => None
      end
  end.

Definition complete_all (r : exec TransportError unit) (cs : list WriteCompletion) (st : io_state) : io_state :=
  foldl (fun st c => complete c r st) st cs.
Definition drop_all (cs : list WriteCompletion) (st : io_state) : io_state :=
  foldl (fun st c => drop_completion c st) st cs.

Definition write_failed : TransportError := connection_error "QUIC write failed" false.

(** [items]: everything the queue ever yields; what is left when the task ends
    goes down with the receiver. When the turns run out the task was aborted
    waiting. *)
Fixpoint quic_write_loop (turns : list quic_turn) (items : list OutboundItem) (st : io_state)
    : list bytes * list Z * write_end * io_state :=
  match turns with
  | [] | TurnShutdown :: _ => ([], [], Stopped, drop_items items st)
  | TurnClosed :: _ => ([], [], QueueClosed, drop_items items st)
  | TurnBatch n io :: turns =>
      let n := Nat.min n WRITE_BATCH_SIZE in
      let batch := take n items in
      let items := drop n items in
      match prepare_quic_batch batch [] st with
      | None => ([], [], Stopped, drop_items (batch ++ items) st)
      | Some (packet_ids, completions, write_buf, st) =>
          let fail put reason := ([take put write_buf], [], WriteFailed reason,
            drop_items items (complete_all (Throw write_failed) completions st)) in
          match io with
          | QwDone =>
              let '(wire, sent, e, st) := quic_write_loop turns items (complete_all (Done tt) completions st) in
              (write_buf :: wire, packet_ids ++ sent, e, st)
          | QwError put debug => fail put ("Write error: " +:+ debug)
          | QwDeadline put => fail put "QUIC write deadline exceeded"
          | QwAborted put => ([take put write_buf], [], Stopped, drop_items items (drop_all completions st))
          end
      end
  end.
End Write.

(** ** Framing *)

Definition wire_of (ws : list bytes) : bytes := concat (map quic_frame ws).

Lemma wire_of_app ws vs : wire_of (ws ++ vs) = wire_of ws ++ wire_of vs.
Proof. unfold wire_of. by rewrite map_app, concat_app. Qed.

Lemma read_exact_app a b : read_exact (len a) (a ++ b) = Some (a, b).
Proof.
  unfold read_exact. rewrite len_app. pose proof (len_nonneg b). zbool. by rewrite take_len_app, drop_len_app.
Qed.

Section Frames.
Context `{T : Target} (limits : DecodeLimits) (Hl : limits_ok limits).

Definition frame_fits (w : bytes) : Prop := len w <= max_frame_size limits /\ len w <= U32_MAX.

Lemma read_frame w rest : frame_fits w ->
  exists hd, read_exact 4 (quic_frame w ++ rest) = Some (hd, w ++ rest) /\
    as_usize (be_value hd) = len w /\ read_exact (len w) (w ++ rest) = Some (w, rest).
Proof.
  intros [Hw Hw32]. exists (be_bytes 4 (wrap 32 (len w))). pose proof (len_nonneg w).
  assert (Hin : in_width 32 (len w)) by (unfold in_width, U32_MAX in *; lia).
  split_and!; [|..|apply read_exact_app].
  - unfold quic_frame. rewrite <- app_assoc. apply (read_exact_app (be_bytes 4 (wrap 32 (len w)))).
  - rewrite (wrap_small 32 (len w)), be_value_be_bytes by done. rewrite (Z.mod_small (len w)) by exact Hin.
    apply as_usize_small. by apply u32_fits_usize.
Qed.

(** What the frames of a stream mean, one by one. *)
Fixpoint meaning (policy : nat -> FramePolicy) (n : nat) (ws : list bytes) : list Packet * quic_end :=
  match ws with
  | [] => ([], QuicClosed Normal)
  | w :: ws =>
      match classify_frame (policy n) limits w with
      | Done p => let '(ps, e) := meaning policy (S n) ws in (p :: ps, e)
      | Throw _ => ([], QuicClosed (CloseError "Undecodable frame (strict policy)"))
      | Panic => ([], QuicPanicked)
      end
  end.

(** Bytes that hold no complete frame: the start of a length prefix, or of a
    frame that fits. *)
Definition partial (tail : bytes) : Prop :=
  len tail < 4 \/ exists w rest, frame_fits w /\ quic_frame w = tail ++ rest /\ rest <> [].

Lemma partial_read policy tail fuel n : partial tail ->
  quic_read (S fuel) policy (fun _ => true) (fun _ => true) limits n tail true = Some ([], QuicClosed Normal).
Proof.
  intros Ht. cbn [quic_read negb]. destruct (Z.lt_ge_cases (len tail) 4) as [H4|H4]; [unfold read_exact; by zbool|].
  destruct Ht as [|(w & rest & Hw & Hf & Hr)]; [lia|]. destruct (read_frame w [] Hw) as (hd & Hhd & Hlen & _).
  rewrite app_nil_r, Hf in Hhd. unfold read_exact in Hhd at 1. rewrite len_app in Hhd. pose proof (len_nonneg rest).
  destruct (Z.leb_spec 4 (len tail + len rest)); [|lia]. injection Hhd as Htake Hdrop.
  unfold len in H4. rewrite take_app_le in Htake by lia. rewrite drop_app_le in Hdrop by lia.
  unfold read_exact at 1. unfold len at 1. zbool. rewrite Htake, Hlen. destruct Hw as [Hw _]. zbool.
  unfold read_exact. apply (f_equal len) in Hdrop. rewrite len_app, app_nil_r in Hdrop.
  assert (0 < len rest) by (destruct rest; [done|rewrite len_cons; pose proof (len_nonneg rest); lia]). by zbool.
Qed.

(** Wherever a stream of frames is cut, it is some of them and a partial one. *)
Lemma frames_cut ws : Forall frame_fits ws -> forall m, exists k tail,
  take m (wire_of ws) = wire_of (take k ws) ++ tail /\ partial tail.
Proof.
  induction 1 as [|w ws Hw Hws IH]; intros m.
  { exists 0%nat, []. split; [by destruct m|]. left. by vm_compute. }
  unfold wire_of. cbn [map concat]. fold (wire_of ws). destruct (decide (m < length (quic_frame w))%nat) as [Hm|Hm].
  - exists 0%nat, (take m (quic_frame w)). rewrite take_app_le by lia. split; [done|]. right.
    exists w, (drop m (quic_frame w)). rewrite take_drop. split_and!; [done..|].
    intros E. apply (f_equal length) in E. rewrite length_drop in E. change (length (@nil Z)) with 0%nat in E. lia.
  - destruct (IH (m - length (quic_frame w))%nat) as (k & tail & Hk & Ht). exists (S k), tail.
    rewrite take_app_ge, Hk by lia. cbn [take map concat]. unfold wire_of. by rewrite app_assoc.
Qed.

Lemma quic_read_frames policy ws tail : forall fuel n, (length ws < fuel)%nat -> Forall frame_fits ws ->
  partial tail ->
  quic_read fuel policy (fun _ => true) (fun _ => true) limits n (wire_of ws ++ tail) true =
    Some (meaning policy n ws).
Proof.
  induction ws as [|w ws IH]; intros [|fuel] n Hf Hws Ht; cbn [length] in Hf; try lia.
  - by apply partial_read.
  - cbn [quic_read negb meaning]. inversion Hws as [|? ? Hw Hws']; subst. unfold wire_of. cbn [map concat]. fold (wire_of ws). rewrite <- app_assoc.
    destruct (read_frame w (wire_of ws ++ tail) Hw) as (hd & -> & -> & ->).
    destruct Hw as [Hw _]. zbool. destruct (classify_frame (policy n) limits w); try done.
    rewrite IH by (try done; lia). by destruct (meaning policy (S n) ws).
Qed.

Lemma quic_read_total fuel : forall policy live deliver n bs ended, (length bs < fuel)%nat ->
  is_Some (quic_read fuel policy live deliver limits n bs ended).
Proof.
  induction fuel as [|fuel IH]; intros policy live deliver n bs ended Hf; [lia|]. cbn [quic_read].
  destruct (negb (live n)); [by eexists|]. unfold read_exact. destruct (Z.leb_spec 4 (len bs)) as [H4|]; [|by eexists].
  case_match; [by eexists|]. case_match eqn:E2; [|by eexists]. destruct p as [frame rest].
  destruct (Z.leb _ _) eqn:Hle in E2; [|done]. injection E2 as <- <-.
  destruct (classify_frame _ _ _); [|by eexists..]. destruct (deliver n); [|by eexists].
  destruct (IH policy live deliver (S n) (drop (Z.to_nat (as_usize (be_value (take (Z.to_nat 4) bs)))) (drop (Z.to_nat 4) bs)) ended)
    as [[ps e] ->]; [|by eexists].
  rewrite !length_drop. unfold len in H4. lia.
Qed.

Lemma meaning_encoded policy ps : forall n ws,
  Forall (fun p => packet_ok p /\ fits limits p) ps -> Forall2 (fun p w => try_encode p = Done w) ps ws ->
  meaning policy n ws = (ps, QuicClosed Normal).
Proof.
  induction ps as [|p ps IH]; intros n ws Hps Hws; inversion Hws; subst; [done|].
  inversion Hps as [|? ? [Hok Hfit] ?]; subst. cbn [meaning].
  erewrite classify_encoded by done. by rewrite IH.
Qed.

(** The frames of packets within the reader's limits fit. *)
Lemma encoded_fit ps ws : max_frame_size limits <= U32_MAX ->
  Forall (fun p => packet_ok p /\ fits limits p) ps -> Forall2 (fun p w => try_encode p = Done w) ps ws ->
  Forall frame_fits ws.
Proof.
  intros H32 Hps Hws. induction Hws as [|p w ps ws Hw _ IH]; [done|]. inversion Hps as [|? ? [Hok Hfit] ?]; subst.
  constructor; [|by apply IH]. destruct (decode_encoded p [] limits) as (w' & Hw' & Hlen & _); [done..|].
  destruct Hfit as (_ & _ & Hfit). unfold frame_fits. assert (w = w') as -> by congruence. lia.
Qed.

(** Encoded packets, and then a partial frame, are read as the packets. *)
Lemma quic_read_encoded policy ps ws tail fuel : max_frame_size limits <= U32_MAX -> (length ps < fuel)%nat ->
  Forall (fun p => packet_ok p /\ fits limits p) ps -> Forall2 (fun p w => try_encode p = Done w) ps ws -> partial tail ->
  quic_read fuel policy (fun _ => true) (fun _ => true) limits 0 (wire_of ws ++ tail) true = Some (ps, QuicClosed Normal).
Proof.
  intros H32 Hfuel Hps Hws Ht. pose proof (Forall2_length _ _ _ Hws).
  rewrite quic_read_frames; [by erewrite meaning_encoded|lia|by eapply encoded_fit|done].
Qed.
End Frames.

(** ** Batches *)

Section Batches.
Context `{T : Target}.

(** A batch splits into the packets encoded, in order, and those that failed. *)
Lemma prepare_spec items : forall buf st, unresolved items (io_receipts st) ->
  exists good ws L st',
    prepare_quic_batch items buf st =
      Some (map (fun it => message_id (header (ob_packet it))) good, omap ob_completion good, buf ++ wire_of ws, st') /\
    items ≡ₚ map fst L ++ good /\ good `sublist_of` items /\ Forall failing L /\ resolved L st st' /\
    Forall2 (fun it w => try_encode (ob_packet it) = Done w) good ws.
Proof.
  induction items as [|it items IH]; intros buf st Hun.
  { exists [], [], [], st. cbn. rewrite app_nil_r. by split_and!. }
  destruct (unresolved_cons_inv _ _ _ Hun) as [Hc Ho]. cbn [prepare_quic_batch].
  destruct (try_encode (ob_packet it)) as [data|e|] eqn:He; [| |by destruct (try_encode_no_panic _ He)].
  - destruct (IH (buf ++ quic_frame data) (retire_item it st)) as (good & ws & L & st' & -> & Hp & Hs & HL & Hr & Hw).
    { by apply (unresolved_app_r [it]). }
    exists (it :: good), (data :: ws), L, st'. split_and!.
    + cbn. unfold wire_of. cbn [map concat]. rewrite <- app_assoc. by destruct (ob_completion it).
    + rewrite Hp. by rewrite Permutation_middle.
    + by constructor.
    + done.
    + exact Hr.
    + by constructor.
  - set (st1 := retire_item it (complete_item it (Throw (encode_failed e)) st)).
    destruct (resolved_one it (Throw (encode_failed e)) st Hc Ho) as [Hr1 _].
    assert (Hr1' : resolved [(it, Reported (Throw (encode_failed e)))] st st1) by exact Hr1.
    destruct (IH buf st1) as (good & ws & L & st' & -> & Hp & Hs & HL & Hr & Hw).
    { by apply (unresolved_after [(it, Reported (Throw (encode_failed e)))] items st). }
    exists good, ws, ((it, Reported (Throw (encode_failed e))) :: L), st'. split_and!; [done| | | | |done].
    + cbn. by rewrite Hp.
    + by constructor.
    + by constructor.
    + by apply (resolved_app [_] L st st1 st').
Qed.

(** Completing or dropping the completions of a batch resolves its items. *)
Lemma complete_all_resolved good r : forall st, unresolved good (io_receipts st) ->
  resolved (map (fun it => (it, Reported r)) good) st (complete_all r (omap ob_completion good) st).
Proof.
  induction good as [|it good IH]; intros st Hun; [done|]. cbn [map].
  destruct (unresolved_cons_inv _ _ _ Hun) as [Hc Ho]. destruct (resolved_one it r st Hc Ho) as [Hr _].
  assert (complete_all r (omap ob_completion (it :: good)) st =
    complete_all r (omap ob_completion good) (complete_item it r st)) as ->.
  { unfold complete_item. cbn. by destruct (ob_completion it). }
  apply (resolved_app [(it, Reported r)] _ _ _ _ Hr), IH. by apply (unresolved_after [(it, Reported r)] good st).
Qed.

Lemma drop_all_resolved good : forall st, unresolved good (io_receipts st) ->
  resolved (map (fun it => (it, SenderGone)) good) st (drop_all (omap ob_completion good) st).
Proof.
  induction good as [|it good IH]; intros st Hun; [done|]. cbn [map].
  destruct (unresolved_cons_inv _ _ _ Hun) as [Hc Ho]. destruct (resolved_one it (Done tt) st Hc Ho) as [_ Hr].
  set (st1 := match ob_completion it with Some c => drop_completion c st | None => st end).
  assert (Hr1 : resolved [(it, SenderGone)] st st1).
  { unfold resolved, st1, drop_item in *. destruct (ob_completion it) as [c|] eqn:E; [|exact Hr].
    destruct c as [o cl]. unfold drop_completion, receipt_end, on_claim in *. cbn in *.
    destruct Hr as [H1 H2]. split; [rewrite <- H1|rewrite <- H2]; destruct o, cl; cbn; repeat case_match; done. }
  assert (drop_all (omap ob_completion (it :: good)) st = drop_all (omap ob_completion good) st1) as ->.
  { unfold st1. cbn. by destruct (ob_completion it). }
  apply (resolved_app [(it, SenderGone)] _ _ _ _ Hr1), IH. by apply (unresolved_after [(it, SenderGone)] good st).
Qed.
End Batches.

(** ** The write task's account *)

Section Account.
Context `{T : Target}.

(** A batch whose good packets all ended the same way. *)
Lemma batch_accounted (batch good : list OutboundItem) L o (st st1 st2 : io_state) written :
  batch ≡ₚ map fst L ++ good -> good `sublist_of` batch -> Forall failing L -> resolved L st st1 ->
  resolved (map (fun it => (it, o)) good) st1 st2 ->
  (o = Reported (Done tt) /\ written = good \/ failed_receipt o /\ written = []) ->
  accounted batch written st st2.
Proof.
  intros Hp Hs HL H1 H2 [[-> ->]|[Ho ->]].
  - exists L, (L ++ map confirm good). split_and!; try done. by eapply resolved_app.
  - exists (L ++ map (fun it => (it, o)) good), (L ++ map (fun it => (it, o)) good).
    split_and!; [by eapply resolved_app|by rewrite app_nil_r| | |apply sublist_nil_l].
    + apply Forall_app. split; [done|]. apply Forall_forall. by intros x (it & -> & _)%list_elem_of_fmap.
    + by rewrite map_app, map_fst_pair, app_nil_r.
Qed.

(** [written]: the packets of the batches written; [lost]: those of the batch, if
    any, whose write did not end well, of which the stream took a part. *)
Definition write_account (turns : list quic_turn) (items written lost : list OutboundItem) (wire : list bytes)
    (sent : list Z) (st st' : io_state) : Prop :=
  exists ws vs m, accounted items written st st' /\ concat wire = wire_of ws ++ take m (wire_of vs) /\
    sent = map (fun it => message_id (header (ob_packet it))) written /\
    Forall2 (fun it w => try_encode (ob_packet it) = Done w) written ws /\
    Forall2 (fun it w => try_encode (ob_packet it) = Done w) lost vs /\
    written ++ lost `sublist_of` items /\ (length lost <= WRITE_BATCH_SIZE)%nat /\
    (Forall (fun t => match t with TurnBatch _ io => io = QwDone | _ => True end) turns -> lost = []).

Lemma account_dropped turns items st : unresolved items (io_receipts st) ->
  write_account turns items [] [] [] [] st (drop_items items st).
Proof. intros Hun. exists [], [], 0%nat. split_and!; try done; [by apply accounted_drop|apply sublist_nil_l|cbn; lia]. Qed.

Lemma quic_write_accounted turns : forall items st, unresolved items (io_receipts st) ->
  let '(wire, sent, e, st') := quic_write_loop turns items st in
  exists written lost, write_account turns items written lost wire sent st st'.
Proof.
  induction turns as [|turn turns IH]; intros items st Hun; cbn [quic_write_loop].
  { exists [], []. by apply account_dropped. }
  destruct turn as [| |n io]; [exists [], []; by apply account_dropped..|].
  set (k := Nat.min n WRITE_BATCH_SIZE). set (batch := take k items). set (rest := drop k items).
  assert (Hitems : items = batch ++ rest) by (symmetry; apply take_drop).
  assert (Hsize : (length batch <= WRITE_BATCH_SIZE)%nat) by (unfold batch, k; rewrite length_take; lia).
  clearbody batch rest. subst items.
  destruct (prepare_spec batch [] st (unresolved_app_l _ _ _ Hun)) as (good & ws & L & st1 & -> & Hp & Hs & HL & Hr & Hw).
  cbn [app]. pose proof (sublist_length _ _ Hs) as Hlen.
  assert (Hun1 : unresolved (good ++ rest) (io_receipts st1)).
  { apply (unresolved_after L _ st); [|done]. apply (unresolved_perm (batch ++ rest)); [|done].
    by rewrite Hp, app_assoc. }
  pose proof (unresolved_app_l _ _ _ Hun1) as Hung.
  assert (Hstop : forall o st2 put, resolved (map (fun it => (it, o)) good) st1 st2 -> failed_receipt o -> io <> QwDone ->
    exists written lost, write_account (TurnBatch n io :: turns) (batch ++ rest) written lost [take put (wire_of ws)] []
      st (drop_items rest st2)).
  { intros o st2 put H2 Ho Hio. assert (Hb : accounted batch [] st st2) by (apply (batch_accounted batch good L o st st1 st2 []); eauto).
    exists [], good, [], ws, put. split_and!; try done.
    - change (@nil OutboundItem) with (@nil OutboundItem ++ []).
      eapply accounted_app; [done|]. apply accounted_drop. by apply (accounted_unresolved batch rest [] st st2).
    - cbn. by rewrite app_nil_r.
    - by apply sublist_inserts_r.
    - lia.
    - intros Hall. by inversion Hall. }
  destruct io as [|put d|put|put].
  - set (st2 := complete_all (Done tt) (omap ob_completion good) st1).
    assert (H2 : resolved (map (fun it => (it, Reported (Done tt))) good) st1 st2) by (by apply complete_all_resolved).
    assert (Hb : accounted batch good st st2) by (by apply (batch_accounted batch good L (Reported (Done tt)) st st1 st2 good); eauto).
    specialize (IH rest st2 (accounted_unresolved _ _ _ _ _ Hun Hb)).
    destruct (quic_write_loop turns rest st2) as [[[wire sent] e] st'].
    destruct IH as (written & lost & xs & vs & m & Ha & Hwire & -> & Hxs & Hvs & Hsub & Hmax & Hclean).
    exists (good ++ written), lost, (ws ++ xs), vs, m. split_and!; try done.
    + by eapply accounted_app.
    + cbn. by rewrite Hwire, wire_of_app, app_assoc.
    + by rewrite map_app.
    + by apply Forall2_app.
    + rewrite <- app_assoc. by apply sublist_app.
    + intros Hall. inversion Hall; subst. by apply Hclean.
  - eapply Hstop; [by apply complete_all_resolved|done|done].
  - eapply Hstop; [by apply complete_all_resolved|done|done].
  - eapply Hstop; [by apply drop_all_resolved|done|done].
Qed.
End Account.

(** ** What the peer reads *)

Section Peer.
Context `{T : Target} (limits : DecodeLimits) (Hl : limits_ok limits) (policy : nat -> FramePolicy)
  (written lost : list OutboundItem) (ws vs : list bytes) (m : nat).
Hypothesis H32 : max_frame_size limits <= U32_MAX.
Hypothesis Hws : Forall2 (fun it w => try_encode (ob_packet it) = Done w) written ws.
Hypothesis Hvs : Forall2 (fun it w => try_encode (ob_packet it) = Done w) lost vs.
Hypothesis Hfit : Forall (fun it => packet_ok (ob_packet it) /\ fits limits (ob_packet it)) (written ++ lost).
Notation read fuel bs := (quic_read fuel policy (fun _ => true) (fun _ => true) limits 0 bs true).

Lemma items_read its fs tail fuel : (length its < fuel)%nat -> its `sublist_of` written ++ lost ->
  Forall2 (fun it w => try_encode (ob_packet it) = Done w) its fs -> partial limits tail ->
  read fuel (wire_of fs ++ tail) = Some (map ob_packet its, QuicClosed Normal).
Proof using H32 Hfit Hl.
  intros Hfuel Hits Hfs Ht. apply quic_read_encoded; [done..|by rewrite length_map| |by apply Forall2_fmap_l|done].
  apply Forall_fmap. rewrite Forall_forall in Hfit. apply Forall_forall. intros x Hx. by eapply Hfit, elem_of_sublist.
Qed.

Lemma frames_fit : Forall (frame_fits limits) (ws ++ vs).
Proof using H32 Hfit Hl Hvs Hws.
  apply (encoded_fit limits Hl (map ob_packet (written ++ lost))); [done|by apply Forall_fmap|].
  apply Forall2_fmap_l. by apply Forall2_app.
Qed.

(** All of it, *)
Lemma whole_read fuel : (length (written ++ lost) < fuel)%nat ->
  exists j, read fuel (wire_of ws ++ take m (wire_of vs)) = Some (map ob_packet (written ++ take j lost), QuicClosed Normal).
Proof using H32 Hfit Hl Hvs Hws.
  intros Hfuel. pose proof frames_fit as [_ Hfv]%Forall_app. destruct (frames_cut limits vs Hfv m) as (j & tail & Hj & Ht).
  exists j. rewrite Hj, app_assoc, <- wire_of_app. rewrite length_app in Hfuel.
  apply items_read; [rewrite length_app, length_take; lia| |apply Forall2_app; [done|by apply Forall2_take]|done].
  apply sublist_app; [done|apply sublist_take].
Qed.

(** and a beginning of it. *)
Lemma prefix_read bs fuel : (length (written ++ lost) < fuel)%nat -> bs `prefix_of` wire_of ws ++ take m (wire_of vs) ->
  exists k, read fuel bs = Some (map ob_packet (take k (written ++ lost)), QuicClosed Normal).
Proof using H32 Hfit Hl Hvs Hws.
  intros Hfuel [z Hz]. destruct (frames_cut limits (ws ++ vs) frames_fit (length bs)) as (k & tail & Hk & Ht). exists k.
  assert (bs = take (length bs) (wire_of (ws ++ vs))) as Hbs.
  { rewrite wire_of_app, <- (take_drop m (wire_of vs)), app_assoc, Hz, <- app_assoc. by rewrite take_app_length. }
  rewrite Hbs, Hk. apply items_read; [rewrite length_take; lia|apply sublist_take|by apply Forall2_take, Forall2_app|done].
Qed.
End Peer.

(** ** Properties *)

Section Properties.
Context `{T : Target}.

(** C26: whatever is sent on a QUIC connection, however the queue's items are
    grouped into batches and however the writes and the task end, every receipt
    is resolved and says written exactly for the packets whose batch was written,
    and every claimed request is settled. The peer that reads the stream to its
    end delivers, under either policy, exactly these packets, in the order they
    were sent, and after them at most the first packets of the one batch whose
    write failed, ran out of time or was aborted half way: packets whose receipts
    do not say written. Without such a batch it delivers exactly the packets
    reported; and if the stream is cut short on its way, wherever, the peer
    delivers a beginning of all these. *)
Theorem quic_confirmed_packets_reach_the_peer turns items st limits
    (Hun : unresolved items (io_receipts st)) (Hwf : wf ∅ (io_registry st))
    (Hl : limits_ok limits) (H32 : max_frame_size limits <= U32_MAX) :
  let '(wire, sent, e, st') := quic_write_loop turns items st in
  exists written lost, reported items written st st' /\
    sent = map (fun it => message_id (header (ob_packet it))) written /\
    written ++ lost `sublist_of` items /\ (length lost <= WRITE_BATCH_SIZE)%nat /\
    (Forall (fun t => match t with TurnBatch _ io => io = QwDone | _ => True end) turns -> lost = []) /\
    (forall it n, it ∈ lost -> observer_of it = Some n -> io_receipts st' !! n <> Some (Reported (Done tt))) /\
    forall policy, Forall (fun it => packet_ok (ob_packet it) /\ fits limits (ob_packet it)) (written ++ lost) ->
      let read bs := quic_read (S (length (written ++ lost))) policy (fun _ => true) (fun _ => true) limits 0 bs true in
      (exists j, read (concat wire) = Some (map ob_packet (written ++ take j lost), QuicClosed Normal)) /\
      (forall bs, bs `prefix_of` concat wire ->
         exists k, read bs = Some (map ob_packet (take k (written ++ lost)), QuicClosed Normal)).
Proof.
  pose proof (quic_write_accounted turns items st Hun) as H.
  destruct (quic_write_loop turns items st) as [[[wire sent] e] st'].
  destruct H as (written & lost & ws & vs & m & Ha & Hwire & Hsent & Hws & Hvs & Hsub & Hmax & Hclean). exists written, lost.
  assert (Hrep : reported items written st st') by (by apply accounted_reported).
  split_and!; try done; [by eapply unconfirmed_receipts|]. intros policy Hfit read. rewrite Hwire. split.
  - by apply (whole_read limits Hl policy written lost ws vs m H32 Hws Hvs Hfit), Nat.lt_succ_diag_r.
  - intros bs Hbs. by apply (prefix_read limits Hl policy written lost ws vs m H32 Hws Hvs Hfit); [apply Nat.lt_succ_diag_r|].
Qed.

(** Under the lenient policy a frame that does not decode costs only itself:
    whatever byte strings the peer frames, each is delivered in its place, as the
    packet it encodes or else as a raw one-way packet holding its bytes, and the
    stream never loses its alignment. *)
Theorem quic_bad_frame_costs_only_itself ws tail limits (Hl : limits_ok limits)
    (Hws : Forall (fun w => frame_fits limits w /\ bytes_ok w) ws) (Ht : len tail < 4) :
  exists ps, quic_read (S (length ws)) (fun _ => Lenient) (fun _ => true) (fun _ => true) limits 0
      (wire_of ws ++ tail) true = Some (ps, QuicClosed Normal) /\
    Forall2 (fun w p => decode_exact_from w limits = Done p \/
      p = one_way 0 w /\ forall p', decode_exact_from w limits <> Done p') ws ps.
Proof.
  rewrite quic_read_frames; [|lia|by apply (Forall_impl _ _ _ Hws); intros ? []|by left].
  generalize 0%nat. induction ws as [|w ws IH]; intros n; [by exists []|].
  inversion Hws as [|? ? [Hf Hb] Hws']; subst. destruct (IH Hws' (S n)) as (ps & Hps & H2).
  destruct (classify_lenient limits w Hl Hb) as (p & Hc & Hp). exists (p :: ps). cbn [meaning].
  rewrite Hc. injection Hps as ->. split; [done|by constructor].
Qed.
End Properties.

(** ** Witnesses *)

(** The deadline comes when the second packet is on the stream and its receipt
    is not written: the peer delivers it all the same. *)
Lemma quic_confirmed_witness :
  let '(wire, sent, e, st') := quic_write_loop (T := Target64) [TurnBatch 1 QwDone; TurnBatch 5 (QwDeadline 50)] sample_items sample_io in
  sent = [1] /\ e = WriteFailed "QUIC write deadline exceeded" /\
  await_receipt 0 "closed" st' = Some (Done tt) /\ await_receipt 1 "closed" st' = Some (Throw write_failed) /\
  ~ responding sample_token (io_registry st') /\
  quic_read (T := Target64) 3 (fun _ => Strict) (fun _ => true) (fun _ => true) DecodeLimits_default 0 (concat wire) true =
    Some (map ob_packet sample_items, QuicClosed Normal).
Proof.
  pose proof (quic_confirmed_packets_reach_the_peer (T := Target64) [TurnBatch 1 QwDone; TurnBatch 5 (QwDeadline 50)]
    sample_items sample_io DecodeLimits_default sample_unresolved claimed_registry_wf
    ltac:(vm_compute; intuition discriminate) ltac:(vm_compute; discriminate)) as H.
  assert (Hval : let '(wire, sent, e, st') := quic_write_loop (T := Target64) [TurnBatch 1 QwDone; TurnBatch 5 (QwDeadline 50)]
      sample_items sample_io in
    sent = [1] /\ e = WriteFailed "QUIC write deadline exceeded" /\
    await_receipt 0 "closed" st' = Some (Done tt) /\ await_receipt 1 "closed" st' = Some (Throw write_failed) /\
    quic_read (T := Target64) 3 (fun _ => Strict) (fun _ => true) (fun _ => true) DecodeLimits_default 0 (concat wire) true =
      Some (map ob_packet sample_items, QuicClosed Normal)) by (vm_compute; auto 10).
  destruct (quic_write_loop _ _ _) as [[[wire sent] e] st'].
  destruct H as (written & lost & Hrep & _), Hval as (H1 & H2 & H3 & H4 & H5).
  split; [exact H1|]. split; [exact H2|]. split; [exact H3|]. split; [exact H4|]. split; [|exact H5].
  refine (rp_claims _ _ _ _ Hrep (mkItem (response_with_biz 1 3 [7; 7]) None
    (Some (mkCompletion (Some 0%nat) (Some (RespondClaim_new sample_token))))) _ _ eq_refl). by left.
Defined.

Lemma quic_bad_frame_witness :
  exists ps, quic_read (T := Target64) 3 (fun _ => Lenient) (fun _ => true) (fun _ => true) DecodeLimits_default 0
    (wire_of [[1; 2; 3]; replicate 20 255] ++ [0]) true = Some (ps, QuicClosed Normal) /\ length ps = 2%nat.
Proof.
  destruct (quic_bad_frame_costs_only_itself (T := Target64) [[1; 2; 3]; replicate 20 255] [0] DecodeLimits_default)
    as (ps & H & H2); [vm_compute; intuition discriminate| |vm_compute; done|].
  - repeat (constructor; [split; [split; vm_compute; discriminate|repeat (constructor; [vm_compute; split; [discriminate|done]|]); constructor]|]).
    constructor.
  - exists ps. split; [exact H|]. by rewrite <- (Forall2_length _ _ _ H2).
Defined.
