(* ===== verification/QuicLoop.v ===== *)
(** * The QUIC adapter's event loop: [crates/msgtrans/src/adapters/quic.rs],
      the task group of [adapters/core.rs]

    A supervising task opens the stream, spawns the read and the write task,
    waits for the first of them or the shutdown signal, gives the others a grace
    window and aborts what is left. The model steps it between await points; when
    a task ends, and with what, is the environment (their bodies are modelled
    beside the stream). *)

From S2P Require Import Prelude Packet Errors Stream Events Registry RegistryInv RegistryOps RegistryRun RegistryProps Writes Adapters Quic.

(** ** Tasks *)

(** A spawned task, as its handle sees it. *)
Inductive task := Running | Finished | Aborted.
#[export] Instance task_eq_dec : EqDecision task.
Proof. solve_decision. Defined.

(** [JoinHandle::abort]: of no effect on a task that exited. *)
Definition abort (t : task) : task := match t with Running => Aborted | t => t end.

(** The handles a group owns, named by what they run. *)
Inductive handle := ReadTask | WriteTask.
Record TaskGroup := mkGroup { tg_handles : list handle }.
Definition TaskGroup_new : TaskGroup := mkGroup [].
Definition TaskGroup_push (h : handle) (g : TaskGroup) : TaskGroup := mkGroup (tg_handles g ++ [h]).

(** ** The supervisor *)

Inductive quic_phase :=
  | Opening
  | Serving
  | Grace (deadline : Z)
  | Ended.

Record quic_loop := mkQuicLoop {
  ql_phase : quic_phase;
  ql_read : task;
  ql_write : task;
  ql_shutdown_flag : bool;
  ql_state : ConnState;
  ql_pipe : EventPipe
}.

Definition set_phase (x : quic_phase) (q : quic_loop) : quic_loop :=
  mkQuicLoop x (ql_read q) (ql_write q) (ql_shutdown_flag q) (ql_state q) (ql_pipe q).
Definition set_task (h : handle) (x : task) (q : quic_loop) : quic_loop :=
  match h with
  | ReadTask => mkQuicLoop (ql_phase q) x (ql_write q) (ql_shutdown_flag q) (ql_state q) (ql_pipe q)
  | WriteTask => mkQuicLoop (ql_phase q) (ql_read q) x (ql_shutdown_flag q) (ql_state q) (ql_pipe q)
  end.
Definition set_flag (x : bool) (q : quic_loop) : quic_loop :=
  mkQuicLoop (ql_phase q) (ql_read q) (ql_write q) x (ql_state q) (ql_pipe q).
Definition set_conn (x : ConnState) (q : quic_loop) : quic_loop :=
  mkQuicLoop (ql_phase q) (ql_read q) (ql_write q) (ql_shutdown_flag q) x (ql_pipe q).
Definition set_pipe (x : EventPipe) (q : quic_loop) : quic_loop :=
  mkQuicLoop (ql_phase q) (ql_read q) (ql_write q) (ql_shutdown_flag q) (ql_state q) x.

Definition task_of (h : handle) (q : quic_loop) : task :=
  match h with ReadTask => ql_read q | WriteTask => ql_write q end.

(** [abort_all] drains the group, aborting each handle. *)
Definition abort_all (g : TaskGroup) (q : quic_loop) : quic_loop :=
  foldl (fun q h => set_task h (abort (task_of h q)) q) q (tg_handles g).

(** The grace window. *)
Definition GRACE : Z := 200.

Definition publish (reason : CloseReason) (q : quic_loop) : quic_loop := set_pipe (close reason (ql_pipe q)) q.

Definition start_event_loop (pipe : EventPipe) : quic_loop :=
  mkQuicLoop Opening Finished Finished false (ConnState_new StConnecting) pipe.

Inductive quic_label :=
  | StreamUp
  | StreamFailed (is_server : bool) (debug : string)
  | ReadTaskEnds (e : quic_end)
  | WriteTaskEnds (e : write_end)
  | ShutdownSignal (now : Z)
  | TaskNoticed (h : handle) (now : Z)
  | GraceOver (now : Z).

(** The window is over: what still runs is aborted. *)
Definition wind_up (q : quic_loop) : quic_loop :=
  let tasks := TaskGroup_push WriteTask (TaskGroup_push ReadTask TaskGroup_new) in
  set_phase Ended (set_conn (set_status StClosed (ql_state q)) (abort_all tasks q)).

(** One arm of the supervising [select!] was taken. *)
Definition begin_grace (now : Z) (q : quic_loop) : quic_loop := set_phase (Grace (now + GRACE)) (set_flag true q).

(** What a task publishes as it ends. *)
Definition read_publishes (e : quic_end) : option CloseReason :=
  match e with QuicClosed reason => Some reason | _ => None end.
Definition write_publishes (e : write_end) : option CloseReason :=
  match e with WriteFailed reason => Some (CloseError reason) | _ => None end.

Definition task_ends (h : handle) (published : option CloseReason) (q : quic_loop) : quic_loop :=
  match task_of h q with
  | Running => set_task h Finished (match published with Some r => publish r q | None => q end)
  | _ => q
  end.

Definition quic_step (l : quic_label) (q : quic_loop) : quic_loop :=
  match l, ql_phase q with
  | StreamUp, Opening =>
      set_phase Serving (set_conn (set_status StConnected (ql_state q))
        (set_task ReadTask Running (set_task WriteTask Running q)))
  | StreamFailed is_server debug, Opening =>
      set_phase Ended (publish (CloseError
        ((if is_server then "Failed to accept stream: " else "Failed to open stream: ") +:+ debug)) q)
  | ReadTaskEnds e, _ => task_ends ReadTask (read_publishes e) q
  | WriteTaskEnds e, _ => task_ends WriteTask (write_publishes e) q
  | ShutdownSignal now, Serving => begin_grace now (publish Normal q)
  | TaskNoticed h now, Serving =>
      match task_of h q with Finished => begin_grace now q | _ => q end
  | GraceOver now, Grace deadline =>
      if bool_decide (ql_read q <> Running /\ ql_write q <> Running) || (deadline <=? now) then wind_up q else q
  | _, _ => q
  end.

Definition quic_run (ls : list quic_label) (q : quic_loop) : quic_loop := foldl (fun q l => quic_step l q) q ls.

(** ** What the supervisor guarantees *)

(** The tasks run only while they are supervised, the status says connected just
    then, and a reason once published stays. *)
Record supervised (q : quic_loop) : Prop := {
  sv_opening : ql_phase q = Opening \/ ql_phase q = Ended -> ql_read q <> Running /\ ql_write q <> Running;
  sv_status : is_connected (ql_state q) = true <-> match ql_phase q with Serving | Grace _ => True | _ => False end
}.

Lemma task_ends_frame h r q : ql_phase (task_ends h r q) = ql_phase q /\ ql_state (task_ends h r q) = ql_state q /\
  (forall h', task_of h' q <> Running -> task_of h' (task_ends h r q) <> Running).
Proof.
  unfold task_ends. destruct (task_of h q) eqn:E; [|by split_and!..].
  split_and!; [by destruct r, h|by destruct r, h|]. intros h'. destruct r, h, h'; cbn in *; congruence.
Qed.

Lemma wind_up_settles q : ql_read (wind_up q) <> Running /\ ql_write (wind_up q) <> Running /\
  ql_phase (wind_up q) = Ended /\ status (ql_state (wind_up q)) = StClosed.
Proof.
  unfold wind_up. cbn. split_and!; try done; [by destruct (ql_read q)|by destruct (ql_write q)].
Qed.

Lemma supervised_step l q : supervised q -> supervised (quic_step l q).
Proof.
  intros Hq. pose proof Hq as [Ho Hs]. unfold quic_step.
  assert (Hends : forall h r, supervised (task_ends h r q)).
  { intros h r. destruct (task_ends_frame h r q) as (Hp & Hst & Ht). split.
    - rewrite Hp. intros H. destruct (Ho H) as [H1 H2]. split; [by apply (Ht ReadTask)|by apply (Ht WriteTask)].
    - by rewrite Hst, Hp. }
  destruct l as [|srv d|e|e|now|h now|now]; try (by apply Hends); destruct (ql_phase q) eqn:Hp; try done.
  - split; cbn; [by intros [|]|by rewrite is_connected_set].
  - split; cbn; [by auto|]. by rewrite Hs.
  - split; cbn; [by intros [|]|]. by rewrite Hs.
  - destruct (task_of h q); try done. split; cbn; [by intros [|]|]. by rewrite Hs.
  - case_match; [|done]. destruct (wind_up_settles q) as (H1 & H2 & H3 & H4). split; [by split|].
    rewrite H3. unfold is_connected. by rewrite H4.
Qed.

Lemma supervised_run ls q : supervised q -> supervised (quic_run ls q).
Proof.
  revert q. induction ls as [|l ls IH]; intros q Hq; [done|]. by apply IH, supervised_step.
Qed.

Lemma start_supervised pipe : supervised (start_event_loop pipe).
Proof. by split. Qed.

(** A reason once published is the one the consumer gets. *)
Lemma published_stays l q r : ep_close (ql_pipe q) = Some r -> ep_close (ql_pipe (quic_step l q)) = Some r.
Proof.
  intros Hr. unfold quic_step, task_ends, begin_grace, wind_up, publish, close.
  repeat case_match; cbn; rewrite ?Hr; try done; try match goal with h : handle |- _ => destruct h end; cbn; rewrite ?Hr; try done; congruence.
Qed.

(** However the stream comes up, the tasks end and the signal arrives: once the
    supervisor has ended no task of the connection is left running and its handle
    no longer says connected. *)
Lemma quic_leaves_no_task ls pipe :
  let q := quic_run ls (start_event_loop pipe) in
  ql_phase q = Ended ->
  ql_read q <> Running /\ ql_write q <> Running /\ is_connected (ql_state q) = false.
Proof.
  intros q Hp. destruct (supervised_run ls _ (start_supervised pipe)) as [Ho Hs]. fold q in Ho, Hs.
  destruct (Ho (or_intror Hp)) as [H1 H2]. split_and!; [done..|]. rewrite Hp in Hs.
  destruct (is_connected (ql_state q)); [|done]. by destruct (proj1 Hs eq_refl).
Qed.

(** From the moment an arm is taken it ends within the grace window, whatever
    its tasks do: a reader parked on a silent peer cannot hold it. *)
Lemma quic_ends_within_the_grace ls pipe l now waiting later :
  let q := quic_run ls (start_event_loop pipe) in
  ql_phase q = Serving -> l = ShutdownSignal now \/ (exists h, l = TaskNoticed h now /\ task_of h q = Finished) ->
  Forall (fun l => match l with GraceOver t => t < now + GRACE | _ => True end) waiting -> now + GRACE <= later ->
  ql_phase (quic_run (l :: waiting ++ [GraceOver later]) q) = Ended.
Proof.
  intros q Hp Hl Hw Hlater. cbn. set (q1 := quic_step l q).
  assert (H1 : ql_phase q1 = Grace (now + GRACE) \/ ql_phase q1 = Ended).
  { left. unfold q1, quic_step. rewrite Hp. destruct Hl as [->|(h & -> & Hf)]; [done|]. by rewrite Hf. }
  clearbody q1. clear Hp Hl. revert q1 H1. induction Hw as [|l' waiting Hl' Hw IH]; intros q1 H1; cbn.
  - destruct H1 as [H1|H1]; unfold quic_step; rewrite H1; [|done]. replace (now + GRACE <=? later) with true by lia.
    by rewrite orb_true_r.
  - apply IH. unfold quic_step. destruct l' as [|srv d|e|e|t|h t|t];
      try (destruct (task_ends_frame ReadTask (read_publishes e) q1) as (-> & _)); 
      try (destruct (task_ends_frame WriteTask (write_publishes e) q1) as (-> & _));
      destruct H1 as [H1|H1]; rewrite ?H1; auto.
    case_match; auto.
Qed.

(** The signal makes the close normal, unless a task had already published its
    failure. *)
Lemma quic_shutdown_reason q now : ql_phase q = Serving ->
  ep_close (ql_pipe (quic_step (ShutdownSignal now) q)) = Some (default Normal (ep_close (ql_pipe q))).
Proof.
  intros Hp. unfold quic_step. rewrite Hp. unfold begin_grace, publish, close. cbn. by destruct (ep_close (ql_pipe q)) eqn:E; cbn; rewrite ?E.
Qed.

(** The handle's [close]: the signal, then the task awaited. *)
Definition QuicAdapter_close (now later : Z) (q : quic_loop) : quic_loop :=
  quic_run [ShutdownSignal now; GraceOver later] q.

Lemma quic_close_returns ls pipe now :
  let q := quic_run ls (start_event_loop pipe) in
  ql_phase q = Serving -> ql_phase (QuicAdapter_close now (now + GRACE) q) = Ended.
Proof.
  intros q Hp. apply (quic_ends_within_the_grace ls pipe (ShutdownSignal now) now [] (now + GRACE)); auto. lia.
Qed.
