(* ===== verification/WebSocket.v ===== *)
(** * The WebSocket adapter's event loop: [crates/msgtrans/src/adapters/websocket.rs]

    One task polls a read, a write and an idle future and the shutdown signal;
    the first to end closes the connection. The model steps it between await
    points; tungstenite, the clock and the pipe's answers are the environment. *)

From S2P Require Import Prelude Packet Errors Stream Events Registry RegistryInv RegistryOps RegistryRun RegistryProps Writes Adapters.

(** ** Messages *)

Inductive Message :=
  | Binary (data : bytes)
  | Text (text : bytes)
  | CloseMessage
  | Ping
  | Pong
  | RawFrame.

(** The payload of the foreign errors is how they display. *)
Inductive WebSocketError :=
  | Tungstenite (e : string)
  | WsIo (e : string)
  | WsConnectionClosed
  | InvalidMessageType
  | WsConfig (msg : string).

Definition TransportError_from_websocket (e : WebSocketError) : TransportError :=
  match e with
  | Tungstenite e => connection_error ("WebSocket protocol error: " +:+ e) true
  | WsIo e => connection_error ("WebSocket IO error: " +:+ e) true
  | WsConnectionClosed => connection_error "WebSocket connection closed" false
  | InvalidMessageType => protocol_error "websocket" "Invalid message type"
  | WsConfig msg => config_error "websocket" msg
  end.

Inductive MessageProcessResult :=
  | MpPacket (p : Packet)
  | MpHeartbeat
  | MpPeerClosed
  | MpError (e : WebSocketError).

Section Loop.
Context `{T : Target}.

(** [None]: the decoder panicked. *)
Definition process_websocket_message (message : Message) (frame_policy : FramePolicy)
    (decode_limits : DecodeLimits) : option MessageProcessResult :=
  match message with
  | Binary data =>
      match classify_frame frame_policy decode_limits data with
      | Done packet => Some (MpPacket packet)
      | Throw _ => Some (MpError InvalidMessageType)
      | Panic => None
      end
  | Text text =>
      match frame_policy with
      | Strict => Some (MpError InvalidMessageType)
      | Lenient => Some (MpPacket (one_way 0 text))
      end
  | CloseMessage => Some MpPeerClosed
  | Ping | Pong => Some MpHeartbeat
  | RawFrame => Some (MpError InvalidMessageType)
  end.

(** ** The loop's state *)

Record WsKeepalive := mkKeepalive {
  ping_interval : option Z;
  pong_timeout : Z;
  idle_timeout : option Z
}.

(** The read future: at [reader.next], or handing a packet to the pipe. *)
Inductive read_pc := Reading | Delivering (p : Packet).

(** The write future: in its [select!] with the deadline it computed there, or
    inside one of its writes; [out]: the message is on the wire, though its
    [send] has not returned yet. *)
Inductive write_pc :=
  | Selecting (ping_deadline : Z)
  | Flushing
  | Pinging
  | Sending (it : OutboundItem) (encoded : bytes) (out : bool).

Record ws_loop := mkLoop {
  wl_read : read_pc;
  wl_write : write_pc;
  wl_activity : Z;
  wl_pending_ping : option Z;
  wl_next_ping : Z;
  wl_idle_deadline : option Z;
  wl_queue : list OutboundItem;
  wl_io : io_state;
  wl_delivered : list Packet;
  wl_wire : list Message;
  wl_sent : list Z;
  wl_closed : option CloseReason
}.

Definition set_read (x : read_pc) (w : ws_loop) : ws_loop :=
  mkLoop x (wl_write w) (wl_activity w) (wl_pending_ping w) (wl_next_ping w) (wl_idle_deadline w) (wl_queue w) (wl_io w) (wl_delivered w) (wl_wire w) (wl_sent w) (wl_closed w).
Definition set_write (x : write_pc) (w : ws_loop) : ws_loop :=
  mkLoop (wl_read w) x (wl_activity w) (wl_pending_ping w) (wl_next_ping w) (wl_idle_deadline w) (wl_queue w) (wl_io w) (wl_delivered w) (wl_wire w) (wl_sent w) (wl_closed w).
Definition set_activity (x : Z) (w : ws_loop) : ws_loop :=
  mkLoop (wl_read w) (wl_write w) x (wl_pending_ping w) (wl_next_ping w) (wl_idle_deadline w) (wl_queue w) (wl_io w) (wl_delivered w) (wl_wire w) (wl_sent w) (wl_closed w).
Definition set_pending_ping (x : option Z) (w : ws_loop) : ws_loop :=
  mkLoop (wl_read w) (wl_write w) (wl_activity w) x (wl_next_ping w) (wl_idle_deadline w) (wl_queue w) (wl_io w) (wl_delivered w) (wl_wire w) (wl_sent w) (wl_closed w).
Definition set_next_ping (x : Z) (w : ws_loop) : ws_loop :=
  mkLoop (wl_read w) (wl_write w) (wl_activity w) (wl_pending_ping w) x (wl_idle_deadline w) (wl_queue w) (wl_io w) (wl_delivered w) (wl_wire w) (wl_sent w) (wl_closed w).
Definition set_idle_deadline (x : option Z) (w : ws_loop) : ws_loop :=
  mkLoop (wl_read w) (wl_write w) (wl_activity w) (wl_pending_ping w) (wl_next_ping w) x (wl_queue w) (wl_io w) (wl_delivered w) (wl_wire w) (wl_sent w) (wl_closed w).
Definition set_queue (x : list OutboundItem) (w : ws_loop) : ws_loop :=
  mkLoop (wl_read w) (wl_write w) (wl_activity w) (wl_pending_ping w) (wl_next_ping w) (wl_idle_deadline w) x (wl_io w) (wl_delivered w) (wl_wire w) (wl_sent w) (wl_closed w).
Definition set_io (x : io_state) (w : ws_loop) : ws_loop :=
  mkLoop (wl_read w) (wl_write w) (wl_activity w) (wl_pending_ping w) (wl_next_ping w) (wl_idle_deadline w) (wl_queue w) x (wl_delivered w) (wl_wire w) (wl_sent w) (wl_closed w).
Definition set_delivered (x : list Packet) (w : ws_loop) : ws_loop :=
  mkLoop (wl_read w) (wl_write w) (wl_activity w) (wl_pending_ping w) (wl_next_ping w) (wl_idle_deadline w) (wl_queue w) (wl_io w) x (wl_wire w) (wl_sent w) (wl_closed w).
Definition set_wire (x : list Message) (w : ws_loop) : ws_loop :=
  mkLoop (wl_read w) (wl_write w) (wl_activity w) (wl_pending_ping w) (wl_next_ping w) (wl_idle_deadline w) (wl_queue w) (wl_io w) (wl_delivered w) x (wl_sent w) (wl_closed w).
Definition set_sent (x : list Z) (w : ws_loop) : ws_loop :=
  mkLoop (wl_read w) (wl_write w) (wl_activity w) (wl_pending_ping w) (wl_next_ping w) (wl_idle_deadline w) (wl_queue w) (wl_io w) (wl_delivered w) (wl_wire w) x (wl_closed w).
Definition set_closed (x : option CloseReason) (w : ws_loop) : ws_loop :=
  mkLoop (wl_read w) (wl_write w) (wl_activity w) (wl_pending_ping w) (wl_next_ping w) (wl_idle_deadline w) (wl_queue w) (wl_io w) (wl_delivered w) (wl_wire w) (wl_sent w) x.

Context (keepalive : WsKeepalive) (decode_limits : DecodeLimits).

(** The top of the write loop computes the deadline it then waits for. *)
Definition select_again (w : ws_loop) : ws_loop :=
  set_write (Selecting (match wl_pending_ping w with
    | Some sent => sent + pong_timeout keepalive
    | None => wl_next_ping w
    end)) w.

Definition idle_again (w : ws_loop) : ws_loop :=
  set_idle_deadline (fmap (fun t => wl_activity w + t) (idle_timeout keepalive)) w.

Definition start_event_loop (now : Z) (queue : list OutboundItem) (io : io_state) : ws_loop :=
  idle_again (select_again
    (mkLoop Reading Flushing now None (now + default 0 (ping_interval keepalive)) None queue io [] [] [] None)).

(** The end of the [select!]: the reason is published; the item in hand and the
    queue go down with the task. *)
Definition finish (reason : CloseReason) (w : ws_loop) : ws_loop :=
  let io := match wl_write w with Sending it _ _ => drop_item it (wl_io w) | _ => wl_io w end in
  set_closed (Some reason) (set_io (drop_items (wl_queue w) io) (set_queue [] (set_write Flushing w))).

(** What the sink may still hold of a write that was dropped half way. *)
Definition pending_write (w : ws_loop) : list Message :=
  match wl_write w with
  | Sending _ encoded false => [Binary encoded]
  | Pinging => [Ping]
  | _ => []
  end.

(** A local close, which goes on to [writer.close()] under the write deadline:
    [held]: the sink had taken the pending message; [n]: how much of what it
    writes got out, the message first and then the close. *)
Definition local_close (held : bool) (n : nat) (w : ws_loop) : ws_loop :=
  let flushed := (if held then pending_write w else []) ++ [CloseMessage] in
  let w := finish Normal w in
  set_wire (wl_wire w ++ take n flushed) w.

(** ** Steps *)

(** What a write on the socket came to, within the write deadline or not. *)
Inductive ws_io := WsWritten | WsWriteError (display : string) | WsWriteDeadline.

Inductive ws_label :=
  | ReadMessage (now : Z) (m : Message) (policy : FramePolicy)
  | ReadClosed
  | ReadFailed (debug : string)
  | ReadEnd
  | Delivered (taken : bool)
  | ControlNotified
  | PingTimer (now : Z)
  | TakeItem
  | QueueClosed
  | MessageOut
  | WriteEnds (now : Z) (r : ws_io)
  | IdleTimer (now : Z)
  | ShutdownSignal (held : bool) (n : nat).

Definition encode_failed (e : PacketError) : TransportError :=
  protocol_error "websocket" ("encode failed: " +:+ PacketError_display e).

Definition write_outcome (r : ws_io) : exec TransportError unit :=
  match r with
  | WsWritten => Done tt
  | WsWriteError e => Throw (connection_error ("WebSocket write failed: " +:+ e) false)
  | WsWriteDeadline => Throw (connection_error "WebSocket write deadline exceeded" false)
  end.

Definition read_step (now : Z) (m : Message) (policy : FramePolicy) (w : ws_loop) : ws_loop :=
  let w := set_activity now w in
  let w := match m with Pong => set_pending_ping None w | _ => w end in
  match process_websocket_message m policy decode_limits with
  | Some (MpPacket packet) => set_read (Delivering packet) w
  | Some MpHeartbeat => w
  | Some MpPeerClosed => finish Normal w
  | Some (MpError e) => finish (CloseError (match e with InvalidMessageType => "InvalidMessageType" | _ => "" end)) w
  | None => w
  end.

Definition ping_step (now deadline : Z) (w : ws_loop) : ws_loop :=
  match ping_interval keepalive with
  | Some _ =>
      if deadline <=? now then
        match wl_pending_ping w with
        | Some _ => finish CloseTimeout w
        | None => set_write Pinging (set_pending_ping (Some now) w)
        end
      else w
  | None => w
  end.

Definition take_item (w : ws_loop) : ws_loop :=
  match wl_queue w with
  | [] => w
  | it :: queue =>
      match try_encode (ob_packet it) with
      | Done encoded => set_write (Sending it encoded false) (set_queue queue w)
      | Throw e =>
          select_again (set_io (retire_item it (complete_item it (Throw (encode_failed e)) (wl_io w)))
            (set_queue queue w))
      | Panic => w
      end
  end.

(** The socket has taken the whole message; whether [send] still learns of it
    before its deadline, or before the loop ends, is open. *)
Definition message_out (w : ws_loop) : ws_loop :=
  match wl_write w with
  | Sending it encoded false => set_write (Sending it encoded true) (set_wire (wl_wire w ++ [Binary encoded]) w)
  | _ => w
  end.

Definition write_ends (now : Z) (r : ws_io) (w : ws_loop) : ws_loop :=
  match wl_write w with
  | Selecting _ => w
  | Flushing =>
      match r with WsWritten => select_again w | _ => finish (CloseError "WebSocket control write failed") w end
  | Pinging =>
      match r with
      | WsWritten =>
          select_again (set_wire (wl_wire w ++ [Ping])
            (set_next_ping (now + default 0 (ping_interval keepalive)) w))
      | _ => finish (CloseError "WebSocket ping write failed") w
      end
  | Sending it encoded out =>
      let result := write_outcome r in
      let w := set_write Flushing (set_io (retire_item it (complete_item it result (wl_io w))) w) in
      match result with
      | Throw e => finish (CloseError (TransportError_display e)) w
      | _ =>
          select_again (set_activity now (set_wire (wl_wire w ++ if out then [] else [Binary encoded])
            (set_sent (wl_sent w ++ [message_id (header (ob_packet it))]) w)))
      end
  end.

Definition idle_step (now : Z) (w : ws_loop) : ws_loop :=
  match wl_idle_deadline w, idle_timeout keepalive with
  | Some deadline, Some timeout =>
      if deadline <=? now
      then if wl_activity w + timeout <=? now then finish CloseTimeout w else idle_again w
      else w
  | _, _ => w
  end.

(** A step its future cannot take now, or of a finished loop, changes nothing;
    nor does a panic of the codec, which has none. *)
Definition ws_step (l : ws_label) (w : ws_loop) : ws_loop :=
  match wl_closed w with
  | Some _ => w
  | None =>
      match l with
      | ReadMessage now m policy => match wl_read w with Reading => read_step now m policy w | _ => w end
      | ReadClosed | ReadEnd => match wl_read w with Reading => finish Normal w | _ => w end
      | ReadFailed debug => match wl_read w with Reading => finish (CloseError debug) w | _ => w end
      | Delivered taken =>
          match wl_read w with
          | Delivering p =>
              if taken then set_read Reading (set_delivered (wl_delivered w ++ [p]) w) else finish Normal w
          | Reading => w
          end
      | ControlNotified => match wl_write w with Selecting _ => set_write Flushing w | _ => w end
      | PingTimer now => match wl_write w with Selecting deadline => ping_step now deadline w | _ => w end
      | TakeItem => match wl_write w with Selecting _ => take_item w | _ => w end
      | QueueClosed =>
          match wl_write w, wl_queue w with Selecting _, [] => finish Normal w | _, _ => w end
      | MessageOut => message_out w
      | WriteEnds now r => write_ends now r w
      | IdleTimer now => idle_step now w
      | ShutdownSignal held n => local_close held n w
      end
  end.

Definition ws_run (ls : list ws_label) (w : ws_loop) : ws_loop := foldl (fun w l => ws_step l w) w ls.
End Loop.

(** ** What is on the wire and what is reported *)

Section Account.
Context `{T : Target} (keepalive : WsKeepalive) (decode_limits : DecodeLimits).
Notation step := (ws_step keepalive decode_limits).

Definition in_hand (w : ws_loop) : list OutboundItem :=
  match wl_write w with Sending it _ _ => [it] | _ => [] end.
Definition on_wire (w : ws_loop) : list OutboundItem :=
  match wl_write w with Sending it _ true => [it] | _ => [] end.
Definition binaries (ms : list Message) : list bytes :=
  omap (fun m => match m with Binary data => Some data | _ => None end) ms.

(** Every item is past, in hand or queued; the binary messages on the wire are
    the confirmed ones and at most one more, [lost]. *)
Record ws_books (items : list OutboundItem) (io0 : io_state) (past written lost : list OutboundItem) (w : ws_loop) : Prop := {
  wb_items : items = past ++ in_hand w ++ wl_queue w;
  wb_accounted : accounted past written io0 (wl_io w);
  wb_sent : wl_sent w = map (fun it => message_id (header (ob_packet it))) written;
  wb_wire : Forall2 (fun it data => try_encode (ob_packet it) = Done data) (written ++ lost) (binaries (wl_wire w));
  wb_encoded : forall it data out, wl_write w = Sending it data out -> try_encode (ob_packet it) = Done data;
  wb_sub : written ++ lost `sublist_of` items;
  wb_lost : (length lost <= 1)%nat
}.

(** While the loop runs, the one more is the message in hand. *)
Definition loop_ok (items : list OutboundItem) (io0 : io_state) (w : ws_loop) : Prop :=
  exists past written lost, ws_books items io0 past written lost w /\ (wl_closed w = None -> lost = on_wire w).

(** Only the items, the completions and the wire matter to [loop_ok]. *)
Lemma loop_ok_frame items io0 w w' : loop_ok items io0 w -> wl_closed w = None -> wl_write w' = wl_write w \/
    in_hand w = [] /\ in_hand w' = [] ->
  wl_queue w' = wl_queue w -> wl_io w' = wl_io w -> wl_sent w' = wl_sent w ->
  binaries (wl_wire w') = binaries (wl_wire w) -> loop_ok items io0 w'.
Proof.
  intros (past & written & lost & [H1 H2 H3 H4 H5 H6 H7] & Hl) Hc Hw E2 E3 E4 E5.
  assert (in_hand w' = in_hand w /\ on_wire w' = on_wire w /\
    forall it data out, wl_write w' = Sending it data out -> wl_write w = Sending it data out) as (E1 & E6 & E7).
  { unfold in_hand, on_wire in *. destruct Hw as [->|[Hw Hw']]; [done|]. by destruct (wl_write w), (wl_write w'). }
  exists past, written, lost. split; [|by rewrite E6; auto].
  split; rewrite ?E1, ?E2, ?E3, ?E4, ?E5; try done. intros it data out Hs. by eapply H5, E7.
Qed.

(** The item in hand is moved to the past ones as the write of it ends. *)
Lemma books_moved items io0 it past written w : unresolved items (io_receipts io0) ->
  items = past ++ [it] ++ wl_queue w -> accounted past written io0 (wl_io w) ->
  forall r, let io := retire_item it (complete_item it r (wl_io w)) in
  accounted (past ++ [it]) (written ++ if bool_decide (r = Done tt) then [it] else []) io0 io.
Proof.
  intros Hun -> Ha r io. eapply accounted_app; [exact Ha|]. apply (accounted_one it r).
  apply (unresolved_app_l [it] (wl_queue w)). by eapply accounted_unresolved.
Qed.

Lemma books_finish items io0 past written lost r w : unresolved items (io_receipts io0) ->
  ws_books items io0 past written lost w -> ws_books items io0 items written lost (finish r w).
Proof.
  intros Hun [H1 H2 H3 H4 H5 H6 H7]. split; try done; [unfold finish; cbn; by rewrite app_nil_r|]. rewrite H1.
  rewrite <- (app_nil_r written). rewrite H1 in Hun. eapply accounted_app; [exact H2|].
  pose proof (accounted_unresolved _ _ _ _ _ Hun H2) as Hrest. unfold finish, in_hand in *. cbn.
  destruct (wl_write w) as [d| | |it data out]; try (by apply accounted_drop).
  assert (Hdrop : accounted [it] [] (wl_io w) (drop_item it (wl_io w)))
    by (apply (accounted_one it (Done tt)); by apply (unresolved_app_l [it] (wl_queue w))).
  apply (accounted_app [it] (wl_queue w) [] [] _ (drop_item it (wl_io w))); [done|]. apply accounted_drop.
  by apply (accounted_unresolved [it] (wl_queue w) [] (wl_io w)).
Qed.

Lemma loop_ok_finish items io0 r w : unresolved items (io_receipts io0) -> loop_ok items io0 w ->
  loop_ok items io0 (finish r w).
Proof.
  intros Hun (past & written & lost & Hb & _). exists items, written, lost. split; [by eapply books_finish|done].
Qed.

(** The messages that leave without a confirmation. *)
Lemma books_leaks items io0 past written w w' it data : unresolved items (io_receipts io0) ->
  ws_books items io0 past written [] w -> wl_write w = Sending it data false ->
  (forall i d out, wl_write w' = Sending i d out -> i = it /\ d = data) ->
  wl_sent w' = wl_sent w -> binaries (wl_wire w') = binaries (wl_wire w) ++ [data] ->
  forall past', items = past' ++ in_hand w' ++ wl_queue w' -> accounted past' written io0 (wl_io w') ->
  ws_books items io0 past' written [it] w'.
Proof.
  intros Hun [H1 H2 H3 H4 H5 H6 H7] Hw Hs E4 E5 past' Hp Ha. rewrite app_nil_r in H4.
  pose proof (H5 _ _ _ Hw) as Hd. split; try done.
  - by rewrite E4.
  - rewrite E5. apply Forall2_app; [done|by constructor].
  - intros i d out Hi. by destruct (Hs i d out Hi) as [-> ->].
  - rewrite H1. unfold in_hand. rewrite Hw. apply sublist_app; [by eapply accounted_sublist|]. apply sublist_skip, sublist_nil_l.
Qed.

Lemma loop_ok_out items io0 w : unresolved items (io_receipts io0) -> loop_ok items io0 w -> wl_closed w = None ->
  loop_ok items io0 (message_out w).
Proof.
  intros Hun Hok Hc. unfold message_out. destruct (wl_write w) as [d| | |it data [|]] eqn:E; try done.
  destruct Hok as (past & written & lost & Hb & Hl). specialize (Hl Hc). unfold on_wire in Hl. rewrite E in Hl. subst lost.
  exists past, written, [it]. split; [|done].
  eapply (books_leaks _ _ past _ w _ it data); try done; cbn.
  - by intros i d out [= <- <- _].
  - unfold binaries. by rewrite omap_app.
  - rewrite (wb_items _ _ _ _ _ _ Hb). unfold in_hand. by rewrite E.
  - apply Hb.
Qed.

Lemma loop_ok_local_close items io0 held n w : unresolved items (io_receipts io0) -> loop_ok items io0 w -> wl_closed w = None ->
  loop_ok items io0 (local_close held n w).
Proof.
  intros Hun (past & written & lost & Hb & Hl) Hc. specialize (Hl Hc).
  pose proof (books_finish items io0 past written lost Normal w Hun Hb) as Hf.
  set (flushed := (if held then pending_write w else []) ++ [CloseMessage]).
  assert (Hms : binaries (take n flushed) = [] \/
    exists it data, wl_write w = Sending it data false /\ binaries (take n flushed) = [data]).
  { unfold flushed, pending_write. destruct held; [|left; by destruct n as [|[]]].
    destruct (wl_write w) as [d| | |it data [|]]; try (left; by destruct n as [|[|[]]]).
    destruct n as [|n]; [by left|right; exists it, data; split; [done|by destruct n as [|[]]]]. }
  destruct Hms as [Hms|(it & data & E & Hms)].
  - exists items, written, lost. split; [|done]. destruct Hf as [H1 H2 H3 H4 H5 H6 H7]. split; try done.
    unfold local_close. cbn. fold flushed. unfold binaries in *. by rewrite omap_app, Hms, app_nil_r.
  - unfold on_wire in Hl. rewrite E in Hl. subst lost. exists items, written, [it]. split; [|done].
    eapply (books_leaks _ _ past _ w _ it data); try done; cbn.
    + unfold binaries in *. fold flushed. by rewrite omap_app, Hms.
    + by rewrite app_nil_r.
    + apply Hf.
Qed.

Lemma loop_ok_take items io0 d w : unresolved items (io_receipts io0) -> loop_ok items io0 w -> wl_closed w = None ->
  wl_write w = Selecting d -> loop_ok items io0 (take_item keepalive w).
Proof.
  intros Hun Hok Hc E. unfold take_item. destruct (wl_queue w) as [|it queue] eqn:Hq; [done|].
  pose proof Hok as (past & written & lost & Hb & Hl). specialize (Hl Hc). unfold on_wire in Hl. rewrite E in Hl. subst lost.
  pose proof Hb as [H1 H2 H3 H4 H5 H6 H7]. unfold in_hand in H1. rewrite E, Hq in H1. cbn in H1.
  destruct (try_encode (ob_packet it)) as [data|e|] eqn:He; [| |done].
  - exists past, written, []. split; [|done]. split; try done. by intros it' data' out [= <- <- _].
  - exists (past ++ [it]), written, []. split; [|done]. split; try done; cbn; [by rewrite <- app_assoc|].
    rewrite <- (app_nil_r written). eapply accounted_app; [done|].
    apply (accounted_one it (Throw (encode_failed e))). apply (unresolved_app_l [it] queue).
    rewrite H1 in Hun. by apply (accounted_unresolved past ([it] ++ queue) written io0).
Qed.

Lemma loop_ok_write_ends items io0 now r w : unresolved items (io_receipts io0) -> loop_ok items io0 w -> wl_closed w = None ->
  loop_ok items io0 (write_ends keepalive now r w).
Proof.
  intros Hun Hok Hc. unfold write_ends. destruct (wl_write w) as [d| | |it data out] eqn:E; [done|..].
  - destruct r; try (by apply loop_ok_finish). apply (loop_ok_frame items io0 w); try done. right. unfold in_hand. by rewrite E.
  - destruct r; try (by apply loop_ok_finish). apply (loop_ok_frame items io0 w); try done.
    + right. unfold in_hand. by rewrite E.
    + cbn. unfold binaries. by rewrite omap_app, app_nil_r.
  - pose proof Hok as (past & written & lost & [H1 H2 H3 H4 H5 H6 H7] & Hl). specialize (Hl Hc).
    unfold on_wire in Hl. rewrite E in Hl. unfold in_hand in H1. rewrite E in H1.
    pose proof (books_moved items io0 it past written w Hun H1 H2 (write_outcome r)) as Hmove. cbn zeta in Hmove.
    assert (Hfail : write_outcome r <> Done tt -> ws_books items io0 (past ++ [it]) written lost
      (set_write Flushing (set_io (retire_item it (complete_item it (write_outcome r) (wl_io w))) w))).
    { intros Hr. rewrite bool_decide_false, app_nil_r in Hmove by done. split; try done. cbn. by rewrite <- app_assoc. }
    destruct r; cbn [write_outcome] in *;
      [|exists items, written, lost; (split; [by eapply books_finish, Hfail|done])..].
    rewrite bool_decide_true in Hmove by done. exists (past ++ [it]), (written ++ [it]), []. split; [|done].
    pose proof (H5 _ _ _ E) as Hd. split; cbn; try done.
    + by rewrite <- app_assoc.
    + by rewrite map_app, H3.
    + rewrite app_nil_r. unfold binaries in *. rewrite omap_app. subst lost. destruct out; cbn.
      * by rewrite app_nil_r.
      * rewrite app_nil_r in H4. apply Forall2_app; [done|by constructor].
    + rewrite app_nil_r, H1, app_assoc. apply sublist_inserts_r. by eapply accounted_sublist.
    + lia.
Qed.

Lemma loop_ok_step items io0 l w : unresolved items (io_receipts io0) -> loop_ok items io0 w -> loop_ok items io0 (step l w).
Proof.
  intros Hun Hok. unfold ws_step. destruct (wl_closed w) eqn:Hc; [done|].
  pose proof (fun r => loop_ok_finish items io0 r w Hun Hok) as Hfin.
  pose proof (fun w' => loop_ok_frame items io0 w w' Hok Hc) as Hframe.
  destruct l as [now m policy| |debug| |taken| |now| | | |now r|now|held n].
  - destruct (wl_read w); [|done]. unfold read_step.
    set (w1 := match m with Pong => _ | _ => _ end).
    assert (Hpend : loop_ok items io0 w1 /\ forall x, loop_ok items io0 (set_read x w1))
      by (split; intros; unfold w1; destruct m; (apply Hframe; [by left|done..])).
    destruct (process_websocket_message m policy decode_limits) as [[p| | |e]|]; try (apply loop_ok_finish; [done|]); apply Hpend.
  - destruct (wl_read w); [apply Hfin|done].
  - destruct (wl_read w); [apply Hfin|done].
  - destruct (wl_read w); [apply Hfin|done].
  - destruct (wl_read w); [done|]. destruct taken; [apply Hframe; [by left|done..]|apply Hfin].
  - destruct (wl_write w) eqn:E; try done. apply Hframe; try done. right. unfold in_hand. by rewrite E.
  - destruct (wl_write w) eqn:E; try done. unfold ping_step. destruct (ping_interval keepalive); [|done].
    destruct (_ <=? _); [|done]. destruct (wl_pending_ping w); [apply Hfin|].
    apply Hframe; try done. right. unfold in_hand. by rewrite E.
  - destruct (wl_write w) as [d| | |] eqn:E; try done. by eapply loop_ok_take.
  - destruct (wl_write w), (wl_queue w); try done; apply Hfin.
  - by apply loop_ok_out.
  - by apply loop_ok_write_ends.
  - unfold idle_step. destruct (wl_idle_deadline w), (idle_timeout keepalive); try done.
    destruct (_ <=? _); [|done]. destruct (_ <=? _); [apply Hfin|apply Hframe; [by left|done..]].
  - by apply loop_ok_local_close.
Qed.

Definition emptied (w : ws_loop) : Prop := wl_closed w <> None -> wl_queue w = [] /\ wl_write w = Flushing.

(** What a step can be: the loop's end, or one that leaves it open. *)
Lemma step_cases l w : wl_closed w = None -> (exists r w0, step l w = finish r w0) \/
  (exists held n, step l w = local_close held n w) \/ wl_closed (step l w) = None.
Proof.
  intros Hc. unfold ws_step. rewrite Hc.
  destruct l; unfold read_step, ping_step, take_item, message_out, write_ends, idle_step;
    repeat case_match; first [by right; right|by left; do 2 eexists|by right; left; do 2 eexists].
Qed.

Lemma emptied_step l w : emptied w -> emptied (step l w).
Proof.
  intros He. destruct (wl_closed w) eqn:Hc; [unfold ws_step; by rewrite Hc|].
  destruct (step_cases l w Hc) as [(r & w0 & ->)|[(held & n & ->)|Ho]]; [done|done|]. intros Hn. congruence.
Qed.

Lemma run_ok items io0 ls w : unresolved items (io_receipts io0) -> loop_ok items io0 w -> emptied w ->
  loop_ok items io0 (ws_run keepalive decode_limits ls w) /\ emptied (ws_run keepalive decode_limits ls w).
Proof.
  intros Hun. revert w. induction ls as [|l ls IH]; intros w Hok He; [done|].
  apply IH; [by apply loop_ok_step|by apply emptied_step].
Qed.

Lemma start_ok items io0 now : loop_ok items io0 (start_event_loop keepalive now items io0) /\
  emptied (start_event_loop keepalive now items io0).
Proof.
  split; [|done]. exists [], [], []. split; [|done].
  split; try done; [apply accounted_nil|apply sublist_nil_l|cbn; lia].
Qed.
End Account.

(** The packets a peer's read future takes from the messages; it goes on to the
    first that is neither a packet nor a sign of life. *)
Fixpoint packets_of `{T : Target} (policy : FramePolicy) (limits : DecodeLimits) (ms : list Message) : list Packet :=
  match ms with
  | [] => []
  | m :: ms =>
      match process_websocket_message m policy limits with
      | Some (MpPacket p) => p :: packets_of policy limits ms
      | Some MpHeartbeat => packets_of policy limits ms
      | _ => []
      end
  end.

(** What a loop writes: data and pings, and then perhaps a close. *)
Definition data_or_ping (m : Message) : Prop := match m with Binary _ | Ping => True | _ => False end.
Definition well_closed (ms : list Message) : Prop :=
  exists body tail, ms = body ++ tail /\ Forall data_or_ping body /\ (tail = [] \/ tail = [CloseMessage]).

Lemma packets_of_binaries `{Target} policy limits ms written : limits_ok limits -> well_closed ms ->
  Forall (fun it => packet_ok (ob_packet it) /\ fits limits (ob_packet it)) written ->
  Forall2 (fun it data => try_encode (ob_packet it) = Done data) written (binaries ms) ->
  packets_of policy limits ms = map ob_packet written.
Proof.
  intros Hl (body & tail & -> & Hbody & Ht). revert written.
  induction Hbody as [|m body Hm Hbody IH]; intros written Hfit H2; cbn [app] in H2 |- *.
  - destruct Ht as [-> | ->]; by inversion H2.
  - destruct m; try done; cbn in H2.
    + inversion H2 as [|it data0 written0 rest Hd H2']; subst. inversion Hfit as [|? ? [Hok Hf] Hfit']; subst.
      cbn. erewrite classify_encoded by done. f_equal. by apply IH.
    + by apply IH.
Qed.

Lemma packets_of_prefix `{Target} policy limits ms ms' : ms `prefix_of` ms' ->
  packets_of policy limits ms `prefix_of` packets_of policy limits ms'.
Proof.
  intros [z ->]. induction ms as [|m ms IH]; cbn; [apply prefix_nil|].
  destruct (process_websocket_message _ _ _) as [[p| | |e]|]; try done. by apply prefix_cons.
Qed.

Section Properties.
Context `{T : Target} (keepalive : WsKeepalive) (decode_limits : DecodeLimits).
Notation run := (ws_run keepalive decode_limits).

Lemma well_closed_open ms ms' : Forall data_or_ping ms -> Forall data_or_ping ms' -> well_closed (ms ++ ms').
Proof. intros H H'. exists (ms ++ ms'), []. rewrite app_nil_r. split_and!; [done|by apply Forall_app|by left]. Qed.

(** While the loop runs no close has been written, and nothing follows one. *)
Lemma wire_kinds ls w : (wl_closed w = None -> Forall data_or_ping (wl_wire w)) -> well_closed (wl_wire w) ->
  well_closed (wl_wire (run ls w)).
Proof.
  enough (Hstep : forall l w, (wl_closed w = None -> Forall data_or_ping (wl_wire w)) /\ well_closed (wl_wire w) ->
    let w' := ws_step keepalive decode_limits l w in
    (wl_closed w' = None -> Forall data_or_ping (wl_wire w')) /\ well_closed (wl_wire w')).
  { intros H1 H2. pose proof (conj H1 H2) as H. clear H1 H2. revert w H. induction ls as [|l ls IH]; intros w H; [apply H|].
    by apply IH, Hstep. }
  clear ls w. intros l w [Ho Hw]. unfold ws_step. destruct (wl_closed w) eqn:Hc; [rewrite Hc; done|]. specialize (Ho eq_refl).
  assert (Hadd : forall m, data_or_ping m -> Forall data_or_ping (wl_wire w ++ [m]) /\ well_closed (wl_wire w ++ [m])).
  { intros m Hm. split; [apply Forall_app; by split; [|constructor]|]. apply well_closed_open; [done|by constructor]. }
  assert (Hnil : Forall data_or_ping (wl_wire w ++ []) /\ well_closed (wl_wire w ++ [])) by (by rewrite app_nil_r).
  destruct l; unfold read_step, ping_step, take_item, message_out, write_ends, idle_step, select_again;
    try (repeat case_match; cbn; first [done|by (split; intros; apply Hadd)|by (split; intros; apply Hnil)]).
  cbn. split; [done|]. set (pending := if held then pending_write w else []).
  assert (Hp : Forall data_or_ping pending).
  { unfold pending, pending_write. destruct held, (wl_write w) as [d| | |it data []]; repeat constructor. }
  exists (wl_wire w ++ take n pending), (take (n - length pending) [CloseMessage]). rewrite take_app, app_assoc. split_and!; [done| |].
  - apply Forall_app. split; [done|by apply Forall_take].
  - destruct (n - length pending)%nat as [|[]]; auto.
Qed.

Lemma wire_well_closed ls items io0 now : well_closed (wl_wire (run ls (start_event_loop keepalive now items io0))).
Proof. apply wire_kinds; [constructor|]. exists [], []. by split_and!; [..|left]. Qed.

(** C27: however reads, writes, pings, timers and the shutdown interleave on a
    WebSocket connection, once it is closed every receipt is resolved and says
    written exactly for the packets whose write was confirmed, and every claimed
    request is settled. The peer takes exactly these packets from the messages, in
    the order they were sent, and after them at most one more: the message in
    hand when the loop ended, which the socket may have taken before its write
    failed, timed out or was dropped, or which a local close flushed. Its receipt
    does not say written. Of a connection cut short on its way it takes a
    beginning of these. *)
Theorem websocket_confirmed_packets_reach_the_peer ls items io0 now reason
    (Hun : unresolved items (io_receipts io0)) (Hwf : wf ∅ (io_registry io0)) :
  let w := run ls (start_event_loop keepalive now items io0) in
  wl_closed w = Some reason ->
  exists written lost, reported items written io0 (wl_io w) /\
    wl_sent w = map (fun it => message_id (header (ob_packet it))) written /\
    written ++ lost `sublist_of` items /\ (length lost <= 1)%nat /\
    (forall it n, it ∈ lost -> observer_of it = Some n -> io_receipts (wl_io w) !! n <> Some (Reported (Done tt))) /\
    forall policy limits, limits_ok limits ->
      Forall (fun it => packet_ok (ob_packet it) /\ fits limits (ob_packet it)) (written ++ lost) ->
      packets_of policy limits (wl_wire w) = map ob_packet (written ++ lost) /\
      forall ms, ms `prefix_of` wl_wire w -> packets_of policy limits ms `prefix_of` map ob_packet (written ++ lost).
Proof.
  cbv zeta. destruct (start_ok keepalive items io0 now) as [Hok He].
  destruct (run_ok keepalive decode_limits items io0 ls _ Hun Hok He) as [(past & written & lost & [Hit Ha Hs Hb _ Hsub Hl] & _) He'].
  pose proof (wire_well_closed ls items io0 now) as Hk.
  set (w := ws_run _ _ _ _) in *. intros Hc.
  destruct He' as [Hq Hw]; [congruence|]. unfold in_hand in Hit. rewrite Hq, Hw, !app_nil_r in Hit. subst past.
  assert (Hrep : reported items written io0 (wl_io w)) by (by apply accounted_reported).
  exists written, lost. split_and!; try done; [by eapply unconfirmed_receipts|]. intros policy limits Hlim Hfit.
  assert (Heq : packets_of policy limits (wl_wire w) = map ob_packet (written ++ lost)) by (by apply packets_of_binaries).
  split; [exact Heq|]. intros ms Hms. rewrite <- Heq. by apply packets_of_prefix.
Qed.

(** ** Keepalive *)

(** Where the pending ping and the deadline come from. *)
Lemma pending_step l w s : wl_closed (ws_step keepalive decode_limits l w) = None ->
  wl_pending_ping (ws_step keepalive decode_limits l w) = Some s ->
  (l = PingTimer s /\ wl_pending_ping w = None) \/
  wl_pending_ping w = Some s /\ forall n p, l = ReadMessage n Pong p -> wl_read w <> Reading.
Proof.
  unfold ws_step. destruct (wl_closed w) eqn:Hc; [intros; congruence|].
  destruct l; unfold read_step, ping_step, take_item, message_out, write_ends, idle_step, local_close, select_again, finish;
    repeat case_match; cbn; intros; simplify_eq/=; try done; auto; right; split; try done; try congruence.
Qed.

Lemma deadline_step l w : (forall d s, wl_write w = Selecting d -> wl_pending_ping w = Some s -> d = s + pong_timeout keepalive) ->
  forall d s, wl_write (ws_step keepalive decode_limits l w) = Selecting d ->
  wl_pending_ping (ws_step keepalive decode_limits l w) = Some s -> d = s + pong_timeout keepalive.
Proof.
  intros Hw d s. unfold ws_step. destruct (wl_closed w); [auto|].
  destruct l; unfold read_step, ping_step, take_item, message_out, write_ends, idle_step, local_close, select_again, finish;
    repeat case_match; cbn; intros; simplify_eq/=; first [congruence|eapply Hw; congruence|idtac].
Qed.

Lemma run_app ls1 ls2 w : run (ls1 ++ ls2) w = run ls2 (run ls1 w).
Proof. apply foldl_app. Qed.

Lemma closed_stays ls w : wl_closed w <> None -> run ls w = w.
Proof.
  induction ls as [|l ls IH]; intros Hc; [done|]. cbn. replace (ws_step keepalive decode_limits l w) with w; [by apply IH|].
  unfold ws_step. by destruct (wl_closed w).
Qed.

Definition unanswered (w0 : ws_loop) (ls : list ws_label) (s : Z) : Prop :=
  exists lsa lsb, ls = lsa ++ PingTimer s :: lsb /\
    forall x n p y, lsb = x ++ ReadMessage n Pong p :: y -> wl_read (run (lsa ++ PingTimer s :: x) w0) <> Reading.

Lemma pending_unanswered w0 ls : wl_pending_ping w0 = None ->
  (forall d s, wl_write w0 = Selecting d -> wl_pending_ping w0 = Some s -> d = s + pong_timeout keepalive) ->
  wl_closed (run ls w0) = None ->
  (forall s, wl_pending_ping (run ls w0) = Some s -> unanswered w0 ls s) /\
  (forall d s, wl_write (run ls w0) = Selecting d -> wl_pending_ping (run ls w0) = Some s -> d = s + pong_timeout keepalive).
Proof.
  intros Hp Hd. induction ls as [|l ls IH] using rev_ind; [cbn; intros _; split; [by rewrite Hp|done]|].
  rewrite run_app. cbn. intros Hc.
  assert (Hopen : wl_closed (run ls w0) = None).
  { destruct (wl_closed (run ls w0)) eqn:E; [|done]. unfold ws_step in Hc. rewrite E in Hc. congruence. }
  destruct (IH Hopen) as [IH1 IH2]. split; [|by apply deadline_step]. intros s Hs.
  destruct (pending_step l _ s Hc Hs) as [[-> _]|[Hs' Hl]].
  - exists ls, []. split; [done|]. by intros [|? []] n p y.
  - destruct (IH1 s Hs') as (lsa & lsb & -> & Hq). exists lsa, (lsb ++ [l]). split; [by rewrite <- app_assoc|].
    intros x n p y Hx. destruct y as [|l' y'] eqn:Hy using rev_ind.
    + apply app_inj_tail in Hx as [-> ->]. by eapply Hl.
    + subst y. rewrite app_comm_cons, app_assoc in Hx. apply app_inj_tail in Hx as [-> _]. by eapply Hq.
Qed.

(** The loop never times a connection out without cause: it closes with a
    timeout only when a ping has been outstanding for the whole pong timeout and
    no pong was read meanwhile, or when no message was read and no packet written
    for the whole idle timeout. *)
Theorem websocket_timeout_has_a_cause ls l items io0 start :
  let w0 := start_event_loop keepalive start items io0 in
  let w := run ls w0 in
  wl_closed w = None -> wl_closed (ws_step keepalive decode_limits l w) = Some CloseTimeout ->
  (exists now s, l = PingTimer now /\ s + pong_timeout keepalive <= now /\ unanswered w0 ls s) \/
  (exists now t, l = IdleTimer now /\ idle_timeout keepalive = Some t /\ wl_activity w + t <= now).
Proof.
  intros w0 w Hc. destruct (pending_unanswered w0 ls) as [Hun Hd]; [done|by intros|done|]. fold w in Hun, Hd.
  unfold ws_step. rewrite Hc. destruct l as [now m policy| |debug| |taken| |now| | | |now r|now|held n].
  7: { destruct (wl_write w) as [d| | |] eqn:E; try (intros; congruence). unfold ping_step.
       destruct (ping_interval keepalive); [|intros; congruence].
       destruct (Z.leb_spec d now); [|intros; congruence].
       destruct (wl_pending_ping w) as [s|] eqn:Es; [|cbn; intros; congruence]. intros _. left. exists now, s.
       rewrite <- (Hd d s) by done. split_and!; auto. }
  11: { unfold idle_step. destruct (wl_idle_deadline w) as [d|]; [|intros; congruence].
        destruct (idle_timeout keepalive) as [t|] eqn:Et; [|intros; congruence].
        destruct (_ <=? _); [|intros; congruence]. destruct (Z.leb_spec (wl_activity w + t) now); [|cbn; intros; congruence].
        intros _. right. by exists now, t. }
  all: unfold read_step, take_item, message_out, write_ends, local_close, select_again, finish; repeat case_match; cbn; intros; congruence.
Qed.

(** C28: keepalive and backpressure collide: while the pipe does not take a
    packet, whatever the peer sends, its pong included, stays unread, so the
    next ping goes unanswered and the connection of a live peer is closed with a
    timeout. *)
Theorem blocked_consumer_times_out_a_live_peer w p d now written interval (msgs : list (Z * Message * FramePolicy)) :
  wl_closed w = None -> wl_read w = Delivering p -> wl_write w = Selecting d -> wl_pending_ping w = None ->
  ping_interval keepalive = Some interval -> d <= now ->
  wl_closed (run ([PingTimer now; WriteEnds written WsWritten] ++
      map (fun x => ReadMessage x.1.1 x.1.2 x.2) msgs ++ [PingTimer (now + pong_timeout keepalive)]) w) =
    Some CloseTimeout.
Proof.
  intros Hc Hr Hw Hp Hi Hd. rewrite !run_app.
  set (w1 := run [PingTimer now; WriteEnds written WsWritten] w).
  assert (H1 : wl_closed w1 = None /\ wl_read w1 = Delivering p /\ wl_write w1 = Selecting (now + pong_timeout keepalive) /\
    wl_pending_ping w1 = Some now).
  { assert (Hs : ws_step keepalive decode_limits (PingTimer now) w = set_write Pinging (set_pending_ping (Some now) w)).
    { unfold ws_step. rewrite Hc, Hw. unfold ping_step. rewrite Hi, Hp. by zbool. }
    unfold w1, ws_run. cbn [foldl]. rewrite Hs. unfold ws_step. cbn. by rewrite Hc. }
  clearbody w1. destruct H1 as (Hc1 & Hr1 & Hw1 & Hp1).
  assert (run (map (fun x => ReadMessage x.1.1 x.1.2 x.2) msgs) w1 = w1) as ->.
  { induction msgs as [|[[n m] q] msgs IH]; [done|]. cbn. unfold ws_step at 2. by rewrite Hc1, Hr1. }
  cbn. unfold ws_step. rewrite Hc1, Hw1. unfold ping_step. rewrite Hi, Hp1. by zbool.
Qed.
End Properties.

(** ** Witnesses *)

Definition sample_keepalive : WsKeepalive := mkKeepalive (Some 30) 10 (Some 300).

(** The deadline of the second write comes when its message is on the wire. *)
Definition sample_ws_run : list ws_label :=
  [TakeItem; WriteEnds 1 WsWritten; TakeItem; MessageOut; WriteEnds 2 WsWriteDeadline].

Lemma websocket_confirmed_witness :
  let w := ws_run (T := Target64) sample_keepalive DecodeLimits_default sample_ws_run
    (start_event_loop sample_keepalive 0 sample_items sample_io) in
  wl_sent w = [1] /\ await_receipt 0 "closed" (wl_io w) = Some (Done tt) /\
  await_receipt 1 "closed" (wl_io w) =
    Some (Throw (connection_error "WebSocket write deadline exceeded" false)) /\
  packets_of (T := Target64) Strict DecodeLimits_default (wl_wire w) = map ob_packet sample_items /\
  ~ responding sample_token (io_registry (wl_io w)).
Proof.
  destruct (websocket_confirmed_packets_reach_the_peer (T := Target64) sample_keepalive DecodeLimits_default
    sample_ws_run sample_items sample_io 0
    (CloseError "Connection error: WebSocket write deadline exceeded (retryable: false)")
    sample_unresolved claimed_registry_wf ltac:(vm_compute; reflexivity)) as (written & lost & Hrep & _).
  pose proof (rp_claims _ _ _ _ Hrep) as Hresp. cbv zeta.
  split_and!; [vm_compute; reflexivity..|].
  refine (Hresp (mkItem (response_with_biz 1 3 [7; 7]) None
     (Some (mkCompletion (Some 0%nat) (Some (RespondClaim_new sample_token))))) _ _ eq_refl). by left.
Defined.

(** A local close flushes the message in hand, whose sender is told that the
    connection closed before the write. *)
Lemma close_delivers_what_it_reports_unwritten :
  let w := ws_run (T := Target64) sample_keepalive DecodeLimits_default [TakeItem; ShutdownSignal true 2]
    (start_event_loop sample_keepalive 0 sample_items sample_io) in
  await_receipt 0 "connection closed before write" (wl_io w) =
    Some (Throw (connection_error "connection closed before write" false)) /\
  packets_of (T := Target64) Strict DecodeLimits_default (wl_wire w) = [response_with_biz 1 3 [7; 7]].
Proof. vm_compute. auto. Qed.

Lemma websocket_timeout_witness :
  (exists now s, PingTimer 40 = PingTimer now /\ s + 10 <= now /\
     unanswered (T := Target64) sample_keepalive DecodeLimits_default
       (start_event_loop sample_keepalive 0 sample_items sample_io) [PingTimer 30; WriteEnds 31 WsWritten] s) \/
  (exists now t, PingTimer 40 = IdleTimer now /\ idle_timeout sample_keepalive = Some t /\ 0 + t <= now).
Proof.
  apply (websocket_timeout_has_a_cause (T := Target64) sample_keepalive DecodeLimits_default
    [PingTimer 30; WriteEnds 31 WsWritten] (PingTimer 40) sample_items sample_io 0); vm_compute; reflexivity.
Defined.

Lemma blocked_consumer_witness :
  let w := ws_run (T := Target64) sample_keepalive DecodeLimits_default
    [ReadMessage 5 (Binary [1]) Lenient] (start_event_loop sample_keepalive 0 sample_items sample_io) in
  wl_closed (ws_run (T := Target64) sample_keepalive DecodeLimits_default
    ([PingTimer 30; WriteEnds 31 WsWritten] ++ [ReadMessage 32 Pong Lenient] ++ [PingTimer (30 + 10)]) w) = Some CloseTimeout.
Proof.
  apply (blocked_consumer_times_out_a_live_peer (T := Target64) sample_keepalive DecodeLimits_default _
    (one_way 0 [1]) 30 30 31 30 [(32, Pong, Lenient)]); try (vm_compute; reflexivity). lia.
Defined.
