(* ===== verification/Conversation.v ===== *)
(** * A conversation: the client and the server of one session together

    The two ends run side by side, each stepped between its await points: the
    client's transport with the calls its application has started, the server's
    pump, actor and handler. What an end has written and what reaches its
    application are lists of packets; a link (one of the adapters and the event
    pipe behind it) relates the two lists. Everything else that happens to the
    registries meanwhile (timers, other sessions, abandoned requests) is a step
    of its own. A run covers the life of a session, from its opening to its
    close. *)

From S2P Require Import Prelude Packet Errors Limits Stream Events Registry RegistryInv RegistryOps RegistryRun Writes Transport Actor ActorProps Server.

(** ** The client's end *)

(** A call of [request_with_options], with what the application gave. *)
Record started := mkStarted {
  sd_call : request_call;
  sd_data : bytes;
  sd_options : RequestOptions
}.

(** [ce_ids]: identifiers allocated by calls that have not registered yet;
    [ce_outbox]: packets on their way to the socket; [ce_results]: what the calls
    that ended returned. *)
Record client_end := mkClientEnd {
  ce_transport : Transport;
  ce_ids : list Z;
  ce_calls : list started;
  ce_outbox : list Packet;
  ce_sent : list Packet;
  ce_received : list Packet;
  ce_results : gmap nat (exec TransportError (option Packet))
}.

Definition client_start (t : Transport) : client_end := mkClientEnd t [] [] [] [] [] ∅.

Definition set_transport (t : Transport) (c : client_end) : client_end :=
  mkClientEnd t (ce_ids c) (ce_calls c) (ce_outbox c) (ce_sent c) (ce_received c) (ce_results c).
Definition set_ids (ids : list Z) (c : client_end) : client_end :=
  mkClientEnd (ce_transport c) ids (ce_calls c) (ce_outbox c) (ce_sent c) (ce_received c) (ce_results c).
Definition set_outbox (ps : list Packet) (c : client_end) : client_end :=
  mkClientEnd (ce_transport c) (ce_ids c) (ce_calls c) ps (ce_sent c) (ce_received c) (ce_results c).

Definition is_request (p : Packet) : bool := bool_decide (packet_type (header p) = Request).
Definition is_response (p : Packet) : bool := bool_decide (packet_type (header p) = Response).

(** The steps of the client's end: a call allocates its identifier; builds its
    packet and registers its waiter; other packets are sent (no request has
    another way out); a packet in the outbox is written, or lost with its write;
    a packet arrives; a call's wait ends; another task uses the registry. The
    slot holds one session throughout: there is no step for [set_connection],
    whose interleaving with a call, which reads the current session twice, is the
    subject of [TransportProps.split_session_read_reuses_an_identifier]. *)
Inductive client_label :=
  | CAllocate
  | CRequest (now : Z) (data : bytes) (options : RequestOptions) (k : nat)
  | CSend (p : Packet)
  | CWritten (k : nat)
  | CLost (k : nat)
  | CReceive (now now' : Z) (p : Packet)
  | CFinish (k : nat) (w : request_wait)
  | COther (o : op).

(** What other tasks do to the registry between the session's opening and its
    close: its identifiers, waiters and completions belong to the steps above,
    and responders hold tokens of inbound requests. *)
Definition leaves_session (s : Z) (o : op) : bool :=
  match o with
  | OpenSession s' | CloseSession s' | NextRequestId (Some s') | RegisterWaiter _ (Some s') _ _ _
  | CompleteWaiter (Some s') _ _ => negb (bool_decide (s' = s))
  | BeginRespond tok => bool_decide (t_direction tok = Inbound)
  | _ => true
  end.

Section Client.
Context `{C : Codecs} `{T : Target} (s : SessionId).

Definition client_step (l : client_label) (c : client_end) : client_end :=
  let t := ce_transport c in
  match l with
  | CAllocate =>
      match allocate_request_id t with
      | (t, Done i) => set_ids (ce_ids c ++ [i]) (set_transport t c)
      | (t, _) => set_transport t c
      end
  | CRequest now data options k =>
      match ce_ids c !! k with
      | Some i =>
          let c := set_ids (delete k (ce_ids c)) c in
          match request_with_options now data options i t with
          | (t, Done call) =>
              mkClientEnd t (ce_ids c) (ce_calls c ++ [mkStarted call data options])
                (ce_outbox c ++ [rc_packet call]) (ce_sent c) (ce_received c) (ce_results c)
          | (t, _) => set_transport t c
          end
      | None => c
      end
  | CSend p => if is_request p then c else set_outbox (ce_outbox c ++ [p]) c
  | CWritten k =>
      match ce_outbox c !! k with
      | Some p =>
          mkClientEnd t (ce_ids c) (ce_calls c) (delete k (ce_outbox c)) (ce_sent c ++ [p]) (ce_received c) (ce_results c)
      | None => c
      end
  | CLost k => set_outbox (delete k (ce_outbox c)) c
  | CReceive now now' p =>
      mkClientEnd (on_event now now' s (MessageReceived p) t) (ce_ids c) (ce_calls c) (ce_outbox c) (ce_sent c)
        (ce_received c ++ [p]) (ce_results c)
  | CFinish k w =>
      match ce_calls c !! k, ce_results c !! k with
      | Some st, None =>
          match request_finish (sd_call st) w t with
          | Some (t, res) =>
              mkClientEnd t (ce_ids c) (ce_calls c) (ce_outbox c) (ce_sent c) (ce_received c) (<[k := res]> (ce_results c))
          | None => c
          end
      | _, _ => c
      end
  | COther o => if leaves_session s o then set_transport (set_tp_registry (step o (tp_registry t)).2 t) c else c
  end.

Definition client_run (ls : list client_label) (c : client_end) : client_end := foldl (fun c l => client_step l c) c ls.
End Client.

(** ** The server's end *)

(** A response its handler gave: on which responder, what, and the packet built
    of it. *)
Record answer := mkAnswer {
  an_responder : Responder;
  an_data : bytes;
  an_options : SendOptions;
  an_packet : Packet
}.

(** [se_posted]: what the actor's mailbox was given; [se_pumping]: the pump
    runs; [se_answers]: every response claimed so far; [se_outbox]: packets on
    their way to the socket, a response with its claim. *)
Record server_end := mkServerEnd {
  se_transport : Transport;
  se_table : sessions_table;
  se_actor : SessionActor;
  se_posted : list ActorMessage;
  se_pumping : bool;
  se_answers : list answer;
  se_outbox : list (Packet * option RespondClaim);
  se_sent : list Packet;
  se_received : list Packet
}.

Definition server_start (t : Transport) (table : sessions_table) (s : SessionId) (info : ConnectionInfo) (capacity : nat)
    : server_end :=
  mkServerEnd t table (create_session_actor s info true capacity) [] true [] [] [] [].

(** The requests the handler was called with. *)
Definition handed (a : SessionActor) : list (Packet * Responder) :=
  omap (fun c => match c with OnRequest q rp => Some (q, rp) | _ => None end) (sa_calls a).

(** The steps of the server's end: the pump takes an event off the pipe; the
    actor steps; the application or another task posts a command, cancels the
    actor or drops its handles; the handler responds on a responder it was
    given; other packets are sent (a response has no other way out); a packet in
    the outbox is written, or lost with its write; another task uses the
    registry. *)
Inductive server_label :=
  | SPump (e : TransportEvent)
  | SActor (now now' : Z) (panics take_cancel : bool)
  | SCommand (p : Packet) (reply : option nat)
  | SCancel
  | SHandlesDropped
  | SRespond (q : Packet) (rp : Responder) (data : bytes) (options : SendOptions)
  | SSend (p : Packet)
  | SWritten (k : nat)
  | SLost (k : nat)
  | SOther (o : op).

(** Claims on requests are made by responders only. *)
Definition leaves_claims (o : op) : bool := match o with BeginRespond _ => false | _ => true end.

#[export] Instance Responder_eq_dec : EqDecision Responder.
Proof. solve_decision. Defined.
#[export] Instance Packet_Responder_eq_dec : EqDecision (Packet * Responder).
Proof. solve_decision. Defined.

Section Server.
Context `{C : Codecs} `{T : Target} (s : SessionId).

Definition put_actor (w : SessionActor * Transport * list ActorMessage) (c : server_end) : server_end :=
  mkServerEnd w.1.2 (se_table c) w.1.1 w.2 (se_pumping c) (se_answers c) (se_outbox c) (se_sent c) (se_received c).
Definition put_transport (t : Transport) (c : server_end) : server_end :=
  mkServerEnd t (se_table c) (se_actor c) (se_posted c) (se_pumping c) (se_answers c) (se_outbox c) (se_sent c) (se_received c).
Definition act (e : actor_event) (c : server_end) : server_end :=
  put_actor (actor_act e (se_actor c, se_transport c, se_posted c)) c.

(** The pump waits for room in the mailbox; with the actor gone its forward
    fails. The tables and the transport share one registry. *)
Definition pump_step (e : TransportEvent) (c : server_end) : server_end :=
  let mb := sa_mailbox (se_actor c) in
  let room := mb_senders mb && bool_decide (is_Some (mb_try_send (InboundEvent e) mb)) in
  if negb (se_pumping c) || (mb_receiver mb && negb room) then c else
  let '(table, forwarded, go_on) := pump_one_event s e room (set_sv_registry (tp_registry (se_transport c)) (se_table c)) in
  let c := mkServerEnd (set_tp_registry (sv_registry table) (se_transport c)) table (se_actor c) (se_posted c) go_on
    (se_answers c) (se_outbox c) (se_sent c)
    (match e with MessageReceived p => se_received c ++ [p] | _ => se_received c end) in
  match forwarded with Some e => act (Post (InboundEvent e)) c | None => c end.

Definition server_step (l : server_label) (c : server_end) : server_end :=
  let t := se_transport c in
  match l with
  | SPump e => pump_step e c
  | SActor now now' panics take_cancel => act (ActorStep now now' panics take_cancel) c
  | SCommand p reply => act (Post (match reply with Some n => SendWithReply p n | None => Send p end)) c
  | SCancel => act CancelActor c
  | SHandlesDropped => act HandlesDropped c
  | SRespond q rp data options =>
      if decide ((q, rp) ∈ handed (se_actor c)) then
        match respond_claim data options rp t with
        | (t, ToSend p claim) =>
            mkServerEnd t (se_table c) (se_actor c) (se_posted c) (se_pumping c)
              (se_answers c ++ [mkAnswer rp data options p]) (se_outbox c ++ [(p, Some claim)]) (se_sent c) (se_received c)
        | (t, Responded _) => put_transport t c
        end
      else c
  | SSend p =>
      if is_response p then c else
      mkServerEnd t (se_table c) (se_actor c) (se_posted c) (se_pumping c) (se_answers c)
        (se_outbox c ++ [(p, None)]) (se_sent c) (se_received c)
  | SWritten k =>
      match se_outbox c !! k with
      | Some (p, claim) =>
          mkServerEnd (set_tp_registry (from_option (fun cl => claim_resolve cl true (tp_registry t)) (tp_registry t) claim) t)
            (se_table c) (se_actor c) (se_posted c) (se_pumping c) (se_answers c) (delete k (se_outbox c))
            (se_sent c ++ [p]) (se_received c)
      | None => c
      end
  | SLost k =>
      match se_outbox c !! k with
      | Some (p, claim) =>
          mkServerEnd (set_tp_registry (from_option (fun cl => claim_drop cl (tp_registry t)) (tp_registry t) claim) t)
            (se_table c) (se_actor c) (se_posted c) (se_pumping c) (se_answers c) (delete k (se_outbox c))
            (se_sent c) (se_received c)
      | None => c
      end
  | SOther o => if leaves_claims o then put_transport (set_tp_registry (step o (tp_registry t)).2 t) c else c
  end.

Definition server_run (ls : list server_label) (c : server_end) : server_end := foldl (fun c l => server_step l c) c ls.
End Server.

(** ** The link *)

(** What the event pipe makes of a packet: decompressed within its limit. *)
Definition arrives `{Codecs} (max : Z) (p p' : Packet) : Prop := normalize_inbound p max = Done p'.

(** What a link promises: some of the packets written, in their order and each
    at most once, reach the other application. *)
Definition transmitted `{Codecs} (max : Z) (sent received : list Packet) : Prop :=
  exists passed, passed `sublist_of` sent /\ Forall2 (arrives max) passed received.
