(* ===== verification/Exchange.v ===== *)
(** * Requests and answers, from either end

    What the two directions of [Conversation] and [Callback] share: one step's
    activity in a registry, the side that answers (the requests handed to its
    application and the answers claimed for them), and the link between the
    ends. *)

From S2P Require Import Prelude Packet Errors Limits Stream Events Registry RegistryInv RegistryOps RegistryRun RegistryProps RegistryLive Writes Transport Actor ActorProps Server Conversation.

(** ** Lists inside lists *)

Lemma NoDup_submultiset {A} (l k : list A) : l ⊆+ k -> NoDup k -> NoDup l.
Proof. intros [j ->]%submseteq_Permutation Hk. by apply NoDup_app in Hk as [? _]. Qed.

Lemma submseteq_filter {A} (P : A -> Prop) `{!forall x, Decision (P x)} (l k : list A) :
  l ⊆+ k -> filter P l ⊆+ filter P k.
Proof. intros [j ->]%submseteq_Permutation. rewrite filter_app. apply submseteq_inserts_r, reflexivity. Qed.

Lemma filter_sublist {A} (P : A -> Prop) `{!forall x, Decision (P x)} (l k : list A) :
  l `sublist_of` k -> filter P l `sublist_of` filter P k.
Proof.
  induction 1; [done|..]; rewrite ?filter_cons; case_decide; try done; by constructor.
Qed.

Lemma filter_none {A} (P : A -> Prop) `{!forall x, Decision (P x)} l : (forall y, y ∈ l -> ~ P y) -> filter P l = [].
Proof.
  induction l as [|y l IH]; intros Hno; [done|]. rewrite filter_cons_False by (apply Hno; by left).
  apply IH. intros z ?. apply Hno. by right.
Qed.

Lemma filter_mapped {A B} (f : A -> B) (P : B -> Prop) `{!forall x, Decision (P x)} (l : list A) :
  filter P (f <$> l) = f <$> filter (fun x => P (f x)) l.
Proof. induction l as [|x l IH]; [done|]. rewrite fmap_cons, !filter_cons, IH. by destruct (decide (P (f x))). Qed.

(** A key without duplicates names one element. *)
Lemma filter_unique {A B} (f : A -> B) (P : A -> Prop) `{!forall x, Decision (P x)} l x :
  NoDup (f <$> l) -> x ∈ l -> (forall y, y ∈ l -> P y <-> f y = f x) -> filter P l = [x].
Proof.
  induction l as [|y l IH]; [by intros _ ?%not_elem_of_nil|]. rewrite fmap_cons. intros [Hy Hnd]%NoDup_cons Hx HP.
  rewrite filter_cons. apply elem_of_cons in Hx as [<-|Hx].
  - rewrite decide_True by (apply HP; [by left|done]). f_equal. apply filter_none. intros z Hz Hpz.
    apply Hy. apply HP in Hpz as <-; [|by right]. by apply list_elem_of_fmap_2.
  - rewrite decide_False; [apply IH; [done|done|]; intros; apply HP; by right|].
    intros Hpy. apply HP in Hpy; [|by left]. apply Hy. rewrite Hpy. by apply list_elem_of_fmap_2.
Qed.

(** ** Registry activity of one step *)

Section activity.
Context `{T : Target}.

(** At most one operation, among those of [P]. *)
Definition at_most_one (P : op -> Prop) (r r' : RequestRegistry) : Prop :=
  r' = r \/ exists o, op_ok o /\ P o /\ r' = (step o r).2.

Lemma one_none P r : at_most_one P r r.
Proof. by left. Qed.

Lemma one_step (P : op -> Prop) o r : op_ok o -> P o -> at_most_one P r (step o r).2.
Proof. right. eauto. Qed.

Lemma one_impl (P Q : op -> Prop) r r' : (forall o, P o -> Q o) -> at_most_one P r r' -> at_most_one Q r r'.
Proof. intros H [->|(o & ? & ? & ->)]; [by left|right; eauto]. Qed.

Lemma one_finish (P : op -> Prop) tok ok r :
  P (FinishRespond tok ok) -> at_most_one P r (finish_respond tok ok r).2.
Proof.
  intros HP. replace (finish_respond tok ok r).2 with (step (FinishRespond tok ok) r).2
    by (cbn; by destruct (finish_respond tok ok r)). by apply one_step.
Qed.

Lemma one_abort (P : op -> Prop) tok r : P (AbortToken tok) -> at_most_one P r (abort_request_token tok r).2.
Proof.
  intros HP. replace (abort_request_token tok r).2 with (step (AbortToken tok) r).2
    by (cbn; by destruct (abort_request_token tok r)). by apply one_step.
Qed.

Lemma one_complete (P : op -> Prop) sid rid p r :
  P (CompleteWaiter sid rid p) -> at_most_one P r (complete_waiter sid rid p r).2.
Proof.
  intros HP. replace (complete_waiter sid rid p r).2 with (step (CompleteWaiter sid rid p) r).2
    by (cbn; by destruct (complete_waiter sid rid p r)). by apply one_step.
Qed.

Lemma one_register (P : op -> Prop) rid sid biz timeout now now' r :
  P (Register rid sid biz timeout now now') -> at_most_one P r (register rid sid biz timeout now now' r).2.
Proof.
  intros HP. replace (register rid sid biz timeout now now' r).2 with (step (Register rid sid biz timeout now now') r).2
    by (cbn; by destruct (register rid sid biz timeout now now' r)). by apply one_step.
Qed.

(** A claim given up, or resolved. *)
Lemma one_claim_drop (P : op -> Prop) c r :
  (forall ok, P (FinishRespond (claim_token c) ok)) -> at_most_one P r (claim_drop c r).
Proof. intros HP. unfold claim_drop. destruct (claim_resolved c); [by left|by apply one_finish]. Qed.

Lemma one_claim_resolve (P : op -> Prop) c ok r :
  (forall ok, P (FinishRespond (claim_token c) ok)) -> at_most_one P r (claim_resolve c ok r).
Proof. intros HP. by apply one_finish. Qed.

Lemma one_guard_drop (P : op -> Prop) g r :
  P (AbortToken (guard_token g)) -> at_most_one P r (guard_drop g r).
Proof. intros HP. unfold guard_drop. destruct (guard_disarmed g); [by left|by apply one_abort]. Qed.

(** The registry stays consistent, and a step costs one generation at most. *)
Lemma one_advances P r r' :
  good ∅ ∅ r -> next_generation r < U64_MAX -> at_most_one P r r' ->
  good ∅ ∅ r' /\ evolves r r' /\ next_generation r' <= next_generation r + 1.
Proof.
  intros Hg Hn [->|(o & Hok & _ & ->)].
  - split_and!; [done|apply (proj2 (advances_refl ∅ ∅ r Hg))|lia].
  - destruct (step_sound o r Hg Hok Hn) as ([? ?] & ? & _). done.
Qed.
End activity.

(** ** The side that answers *)

Abbreviation requests_in := (filter (fun p => packet_type (header p) = Request)).
Abbreviation responses_in := (filter (fun p => packet_type (header p) = Response)).
Abbreviation packet_id p := (message_id (header p)).

Section Answering.
Context `{C : Codecs} `{T : Target} (s : SessionId).

Definition any (o : op) : Prop := True.

(** A request handed over carries the token registered for its identifier. *)
Definition handed_ok (r : RequestRegistry) (x : Packet * Responder) : Prop :=
  let tok := rp_token x.2 in
  t_session_id tok = Some s /\ t_request_id tok = packet_id x.1 /\ t_direction tok = Inbound /\
  t_generation tok < next_generation r.

Definition answer_token (an : answer) : RequestToken := rp_token (an_responder an).

(** An answer: given on a responder handed over, claimed, and built of its data. *)
Definition answer_ok (hs : list (Packet * Responder)) (r : RequestRegistry) (an : answer) : Prop :=
  (exists q, (q, an_responder an) ∈ hs) /\
  apply_over (an_options an)
    (response_with_biz (t_request_id (answer_token an)) (rp_biz_type (an_responder an)) (an_data an))
    (rp_biz_type (an_responder an)) = Done (an_packet an) /\
  (phase (answer_token an) r <= 1)%nat.

(** The side's part of an invariant: the requests handed over, the answers
    claimed, and the responses among the packets on their way out or sent. *)
Record answering (hs : list (Packet * Responder)) (ans : list answer) (out : list Packet) (r : RequestRegistry) : Prop := {
  aw_handed : Forall (handed_ok r) hs;
  aw_answers : Forall (answer_ok hs r) ans;
  aw_once : NoDup (answer_token <$> ans);
  aw_packets : responses_in out ⊆+ (an_packet <$> ans)
}.

Lemma handed_ok_step r r' x : next_generation r <= next_generation r' -> handed_ok r x -> handed_ok r' x.
Proof. intros ? (? & ? & ? & ?). split_and!; try done. lia. Qed.

Lemma answer_ok_step hs hs' r r' an :
  evolves r r' -> Forall (handed_ok r) hs -> hs ⊆ hs' -> answer_ok hs r an -> answer_ok hs' r' an.
Proof.
  intros Hev Hh Hsub ([q Hq] & Hp & Hph). rewrite Forall_forall in Hh. destruct (Hh _ Hq) as (_ & _ & _ & Hlt).
  split_and!; [exists q; by apply Hsub|done|]. pose proof (phase_evolves (answer_token an) r r' Hev Hlt). lia.
Qed.

(** A request registered for the handler. *)
Lemma registered_request rid biz timeout now now' r tok r' :
  good ∅ ∅ r -> next_generation r < U64_MAX -> register rid (Some s) biz timeout now now' r = (Some tok, r') ->
  tok = mkToken (Some s) rid Inbound (next_generation r) /\ next_generation r' = next_generation r + 1.
Proof.
  intros Hg Hn Hreg. unfold register in Hreg.
  pose proof (register_impl_spec ∅ (inbound (Some s) rid) biz timeout true now now' r (proj1 Hg) Hn ltac:(done)) as Hs.
  rewrite Hreg in Hs. destruct (accepts _ r); destruct Hs as [Heq Hs]; [|done]. injection Heq as ->.
  split; [done|]. apply Hs.
Qed.

(** A claim on a request costs no generation. *)
Lemma begin_respond_gen tok r : next_generation (begin_respond tok r).2 = next_generation r.
Proof. unfold begin_respond. by repeat case_match; simplify_eq/=. Qed.

(** Steps that claim no request. *)
Lemma answering_moves hs hs' ans out out' r r' :
  good ∅ ∅ r -> next_generation r < U64_MAX -> at_most_one any r r' ->
  hs ⊆ hs' -> (forall x, x ∈ hs' -> x ∈ hs \/ handed_ok r' x) -> responses_in out' ⊆+ responses_in out ->
  answering hs ans out r -> answering hs' ans out' r'.
Proof.
  intros Hg Hng Hone Hsub Hnew Hout [Hh Ha Hnd Hps].
  destruct (one_advances _ _ _ Hg Hng Hone) as (_ & Hev & _). pose proof (ev_next _ _ Hev).
  split; [| |done|by etrans].
  - apply Forall_forall. intros x Hx. destruct (Hnew x Hx) as [Hx'|?]; [|done].
    rewrite Forall_forall in Hh. by eapply handed_ok_step, Hh.
  - eapply Forall_impl; [exact Ha|]. intros an. by apply answer_ok_step.
Qed.

(** A claim that is tried, or won and given up at once. *)
Lemma answering_tried hs ans out tok r :
  good ∅ ∅ r -> next_generation r < U64_MAX -> t_direction tok = Inbound -> answering hs ans out r ->
  let r1 := (begin_respond tok r).2 in
  forall r2, r2 = r1 \/ r2 = claim_drop (RespondClaim_new tok) r1 ->
  good ∅ ∅ r2 /\ next_generation r2 <= next_generation r + 1 /\ answering hs ans out r2.
Proof.
  intros Hg Hng Hdir Haw r1. pose proof (one_step any (BeginRespond tok) r Hdir I) as Hone.
  pose proof (begin_respond_gen tok r) as Hgen.
  replace (step (BeginRespond tok) r).2 with r1 in Hone by (unfold r1; cbn; by destruct (begin_respond tok r)). fold r1 in Hgen.
  destruct (one_advances _ _ _ Hg Hng Hone) as (Hg' & _ & Hn1).
  assert (Hmoved : answering hs ans out r1) by (apply (answering_moves hs hs ans out out r); try done; by left).
  intros r2 [->|Hr2]; [done|]. clearbody r1.
  assert (Hd : at_most_one any r1 r2) by (rewrite Hr2; by apply one_claim_drop).
  destruct (one_advances _ r1 _ Hg' ltac:(lia) Hd) as (Hg2 & _ & Hn2).
  split_and!; [done|lia|]. apply (answering_moves hs hs ans out out r1); try done; [lia|by left].
Qed.

(** A response on a responder handed over: claimed and on its way, or nothing. *)
Lemma answering_claim hs ans out out' q rp data options t :
  good ∅ ∅ (tp_registry t) -> next_generation (tp_registry t) < U64_MAX ->
  answering hs ans out (tp_registry t) -> (q, rp) ∈ hs ->
  let w := respond_claim data options rp t in
  good ∅ ∅ (tp_registry w.1) /\ next_generation (tp_registry w.1) <= next_generation (tp_registry t) + 1 /\
  match w.2 with
  | ToSend p _ => responses_in out' ⊆+ p :: responses_in out ->
      answering hs (ans ++ [mkAnswer rp data options p]) out' (tp_registry w.1)
  | Responded _ => answering hs ans out (tp_registry w.1)
  end.
Proof.
  intros Hg Hng Haw Hin. pose proof Haw as [Hh Ha Hnd Hps]. pose proof Hh as Hh'. rewrite Forall_forall in Hh'.
  destruct (Hh' _ Hin) as (_ & _ & Hdir & Hlt). cbn in Hdir, Hlt.
  pose proof (one_step any (BeginRespond (rp_token rp)) (tp_registry t) Hdir I) as Hone.
  pose proof (phase_begin (rp_token rp) (tp_registry t) (proj1 Hg) Hdir) as Hph.
  pose proof (begin_respond_gen (rp_token rp) (tp_registry t)) as Hgen.
  destruct (one_advances _ _ _ Hg Hng Hone) as (Hg' & Hev & Hn1).
  pose proof (answering_tried hs ans out (rp_token rp) (tp_registry t) Hg Hng Hdir Haw) as Htried. cbv zeta in Htried.
  unfold respond_claim. cbn [step] in *. destruct (begin_respond _ _) as [res r]. cbn [fst snd] in *.
  destruct res; try (apply Htried; by left).
  pose proof (apply_over_shape options (response_with_biz (t_request_id (rp_token rp)) (rp_biz_type rp) data)
    (rp_biz_type rp)) as Hshape.
  destruct (apply_over _ _ _) as [p|e|] eqn:Happ; [|apply Htried; by right|done]; cbn.
  destruct Hshape as (Hty & _ & _). cbn in Hty. destruct Hph as (H2 & H1 & _).
  assert (Hnew : forall an, an ∈ ans -> answer_token an <> rp_token rp).
  { intros an Han Heq. rewrite Forall_forall in Ha. destruct (Ha _ Han) as (_ & _ & Hle). rewrite Heq in Hle. lia. }
  split_and!; [done|lia|]. intros Hout. split.
  - eapply Forall_impl; [exact Hh|]. intros x. apply handed_ok_step. lia.
  - apply Forall_app. split.
    + eapply Forall_impl; [exact Ha|]. intros an. by apply answer_ok_step.
    + constructor; [|done]. split_and!; [by exists q|done|]. unfold answer_token. cbn. lia.
  - rewrite fmap_app. cbn. apply NoDup_app. split_and!; [done| |apply NoDup_singleton].
    intros tok (an & -> & Han)%list_elem_of_fmap. rewrite list_elem_of_singleton. by apply Hnew.
  - rewrite fmap_app. cbn. rewrite <- (Permutation_cons_append (an_packet <$> ans)).
    etrans; [exact Hout|by constructor].
Qed.

(** What is on its way out, with the claims riding on it, and what was sent. *)
Definition on_wire (outbox : list (Packet * option RespondClaim)) (sent : list Packet) : list Packet := outbox.*1 ++ sent.

Lemma wire_written k p cl outbox sent : outbox !! k = Some (p, cl) ->
  responses_in (on_wire (delete k outbox) (sent ++ [p])) ⊆+ responses_in (on_wire outbox sent).
Proof.
  intros Hk. apply delete_Permutation in Hk. unfold on_wire. rewrite Hk at 2.
  apply Permutation_submseteq. rewrite fmap_cons, !filter_app, !filter_cons, filter_nil. cbn [fst].
  case_decide; solve_Permutation.
Qed.

Lemma wire_lost k outbox sent : responses_in (on_wire (delete k outbox) sent) ⊆+ responses_in (on_wire outbox sent).
Proof. apply submseteq_filter, submseteq_app; [|done]. apply sublist_submseteq, fmap_sublist, sublist_delete. Qed.

Lemma wire_other p outbox sent : packet_type (header p) <> Response ->
  responses_in (on_wire (outbox ++ [(p, None)]) sent) ⊆+ responses_in (on_wire outbox sent).
Proof.
  intros Hp. unfold on_wire. rewrite fmap_app, !filter_app, fmap_cons, fmap_nil. cbn [fst].
  rewrite (filter_cons_False _ p), filter_nil by done. by rewrite app_nil_r.
Qed.

Lemma wire_claimed p cl outbox sent :
  responses_in (on_wire (outbox ++ [(p, cl)]) sent) ⊆+ p :: responses_in (on_wire outbox sent).
Proof.
  unfold on_wire. rewrite fmap_app, !filter_app. cbn. case_decide; [apply Permutation_submseteq; solve_Permutation|].
  rewrite app_nil_r. by apply submseteq_cons.
Qed.

(** A claim that rides on a written or a lost packet. *)
Lemma claim_written_activity (cl : option RespondClaim) ok r :
  at_most_one any r (from_option (fun c => claim_resolve c ok r) r cl).
Proof. destruct cl as [cl|]; cbn; [by apply one_claim_resolve|by left]. Qed.
Lemma claim_lost_activity (cl : option RespondClaim) r :
  at_most_one any r (from_option (fun c => claim_drop c r) r cl).
Proof. destruct cl as [cl|]; cbn; [by apply one_claim_drop|by left]. Qed.
End Answering.

(** ** The link *)

Section Link.
Context `{C : Codecs} `{L : !CodecLaws C}.

(** What the pipe changes of a packet is its body's encoding. *)
Lemma arrives_keeps max p p' : arrives max p p' ->
  packet_type (header p') = packet_type (header p) /\ packet_id p' = packet_id p /\
  biz_type (header p') = biz_type (header p) /\ ext_header p' = ext_header p.
Proof.
  unfold arrives, normalize_inbound. case_decide as Hc; [case_match; [done|by intros [= ->]]|].
  destruct (decompress_payload_with_limit p max) as [q| |] eqn:Hq; [|done..]. cbn. intros [= <-].
  unfold decompress_payload_with_limit in Hq. rewrite decide_False in Hq by done. exec_inv Hq. by simplify_eq/=.
Qed.

(** A body that fits is what its sender gave, whatever the compression. *)
Lemma arrives_restores max o p biz q q' :
  compression (header p) = CNone -> len (payload p) <= max < 2 ^ 64 - 1 ->
  apply_over o p biz = Done q -> arrives max q q' -> payload q' = payload p.
Proof.
  intros Hc Hlen Ha Harr. pose proof (applied_options_match_the_body o p biz max Hc Hlen) as H.
  rewrite Ha in H. destruct H as (_ & _ & _ & d & Hd & Hp). unfold arrives, normalize_inbound in Harr.
  case_decide as Hn.
  - unfold decompress_payload_with_limit in Hd. rewrite decide_True in Hd by done.
    case_match; simplify_eq. done.
  - rewrite Hd in Harr. cbn in Harr. by injection Harr as <-.
Qed.

Lemma transmitted_elem max sent received p' :
  transmitted max sent received -> p' ∈ received -> exists p, p ∈ sent /\ arrives max p p'.
Proof.
  intros (passed & Hsub & Hall) Hin. apply list_elem_of_lookup in Hin as [i Hi].
  destruct (Forall2_lookup_r _ _ _ _ _ Hall Hi) as (p & Hp & Ha). exists p. split; [|done].
  eapply elem_of_sublist; [|done]. by eapply list_elem_of_lookup_2.
Qed.

(** No request is delivered twice. *)
Lemma transmitted_requests max sent received : transmitted max sent received ->
  (fun p => packet_id p) <$> requests_in received `sublist_of` (fun p => packet_id p) <$> requests_in sent.
Proof.
  intros (passed & Hsub & Hall). transitivity ((fun p => packet_id p) <$> requests_in passed);
    [|by apply fmap_sublist, filter_sublist]. clear Hsub. induction Hall as [|p p' ps ps' Ha _ IH]; [done|].
  destruct (arrives_keeps _ _ _ Ha) as (Ht & Hi & _). rewrite !filter_cons, Ht.
  case_decide; [|done]. cbn. rewrite Hi. by apply sublist_skip.
Qed.
End Link.

