(* ===== verification/ConversationProps.v ===== *)
(** * Requests and answers across a session

    The two ends of [Conversation] kept in step: the invariant of each end, and
    the theorem that an answer the client's caller gets is the one the server's
    handler gave to that very request. *)

From S2P Require Import Prelude Packet Errors Limits Stream Events Registry RegistryInv RegistryOps RegistryRun RegistryProps RegistryLive Writes Transport Actor ActorProps Server Conversation Exchange.

(** ** The client's end *)

Definition call_id (st : started) : Z := packet_id (rc_packet (sd_call st)).
Definition ids_of (c : client_end) : list Z := ce_ids c ++ (call_id <$> ce_calls c).

(** A response that arrived for identifier [i]. *)
Definition responds (received : list Packet) (i : Z) (p : Packet) : Prop :=
  p ∈ received /\ packet_type (header p) = Response /\ packet_id p = i.

Lemma responds_mono received received' i p :
  received ⊆ received' -> responds received i p -> responds received' i p.
Proof. intros H (? & ? & ?). split_and!; [by apply H|done|done]. Qed.

Section Client.
Context `{C : Codecs} `{T : Target} (s : SessionId).

(** What may happen to the registry while the session is open: its waiters are
    completed by packets that arrived. *)
Definition meanwhile (received : list Packet) (o : op) : Prop :=
  o <> CloseSession s /\ forall i p, o = CompleteWaiter (Some s) i p -> responds received i p.

(** A call of the session: its packet is its data under its options; its waiter
    waits, was dropped, or holds a response that arrived for it. *)
Definition call_holds (received : list Packet) (r : RequestRegistry) (st : started) : Prop :=
  apply (ro_send (sd_options st)) (Packet.request (call_id st) (sd_data st)) = Done (rc_packet (sd_call st)) /\
  packet_type (header (rc_packet (sd_call st))) = Request /\
  exists g, let tok := mkToken (Some s) (call_id st) Outbound g in
    let rx := rc_receiver (sd_call st) in
    rc_guard (sd_call st) = guard_armed (OutboundRequestGuard_new tok) /\ g < next_generation r /\
    (rx_kept tok rx r \/ exists p, responds received (call_id st) p /\ rx_over tok rx (ChanSent p) r).

Lemma call_holds_step received received' r r' st :
  good ∅ ∅ r -> next_generation r < U64_MAX -> at_most_one (meanwhile received') r r' ->
  received ⊆ received' -> call_holds received r st -> call_holds received' r' st.
Proof.
  intros Hg Hn Hone Hsub (Hp & Ht & g & Hgu & Hlt & Hrx). split_and!; [done..|]. exists g.
  destruct (one_advances _ _ _ Hg Hn Hone) as (_ & Hev & _). pose proof (ev_next _ _ Hev).
  cbv zeta. split_and!; [done|lia|].
  assert (Hover : forall x, x <> ChanWaiting -> forall rx, rx_over (mkToken (Some s) (call_id st) Outbound g) rx x r ->
    rx_over (mkToken (Some s) (call_id st) Outbound g) rx x r') by (intros; by eapply rx_over_evolves).
  destruct Hrx as [[Hw|Hc]|(p & Hr & Ho)].
  - destruct Hone as [->|(o & Hok & [_ Hm] & ->)]; [by left; left|].
    destruct (step_waiter (mkToken (Some s) (call_id st) Outbound g) _ o r Hg Hok Hn eq_refl Hlt Hw) as [?|(p & -> & ?)]; [by left|].
    right. exists p. split; [by apply Hm|done].
  - left. right. by apply Hover.
  - right. exists p. split; [by eapply responds_mono|by apply Hover].
Qed.

Record client_inv (N : Z) (c : client_end) : Prop := {
  ci_gen : next_generation (tp_registry (ce_transport c)) <= N;
  ci_slot : tp_slot (ce_transport c) = Some s;
  ci_good : good ∅ ∅ (tp_registry (ce_transport c));
  ci_next : exists n, next_of s (tp_registry (ce_transport c)) = Some n /\ n <= U32_MAX /\
    Forall (fun i => i < n) (ids_of c);
  ci_nodup : NoDup (ids_of c);
  ci_calls : Forall (call_holds (ce_received c) (tp_registry (ce_transport c))) (ce_calls c);
  ci_packets : requests_in (ce_outbox c ++ ce_sent c) ⊆+ ((fun st => rc_packet (sd_call st)) <$> ce_calls c);
  ci_results : forall k p, ce_results c !! k = Some (Done (Some p)) ->
    exists st, ce_calls c !! k = Some st /\ responds (ce_received c) (call_id st) p
}.

Lemma next_step received r r' n :
  good ∅ ∅ r -> next_generation r < U64_MAX -> at_most_one (meanwhile received) r r' ->
  next_of s r = Some n -> exists n', next_of s r' = Some n' /\ next_le n n'.
Proof.
  intros Hg Hng [->|(o & Hok & [Hne _] & ->)] Hn; [eauto|]. eapply next_of_moved; eauto. by apply step_sound.
Qed.

Lemma client_inv_wait N c : client_inv N c -> client_inv (N + 1) c.
Proof. intros []. split; try done. lia. Qed.

(** Steps that start no call and allocate no identifier. *)
Lemma client_inv_moves N c c' :
  client_inv N c -> N < U64_MAX ->
  tp_slot (ce_transport c') = tp_slot (ce_transport c) ->
  at_most_one (meanwhile (ce_received c')) (tp_registry (ce_transport c)) (tp_registry (ce_transport c')) ->
  ids_of c' ⊆+ ids_of c -> ce_calls c' = ce_calls c -> ce_received c ⊆ ce_received c' ->
  requests_in (ce_outbox c' ++ ce_sent c') ⊆+ requests_in (ce_outbox c ++ ce_sent c) ->
  (forall k p, ce_results c' !! k = Some (Done (Some p)) -> ce_results c !! k = Some (Done (Some p)) \/
     exists st, ce_calls c !! k = Some st /\ responds (ce_received c) (call_id st) p) ->
  client_inv (N + 1) c'.
Proof.
  intros [HN Hs Hg (n & Hn & Hmax & Hids) Hnd Hcs Hps Hrs] HNn Hs' Hone Hi Hc Hr Hp Hres.
  assert (Hng : next_generation (tp_registry (ce_transport c)) < U64_MAX) by lia.
  destruct (one_advances _ _ _ Hg Hng Hone) as (Hg' & _ & Hn1).
  destruct (next_step _ _ _ n Hg Hng Hone Hn) as (n' & Hn' & Hle & Hcap).
  split; rewrite ?Hs', ?Hc; try done.
  - lia.
  - exists n'. split_and!; [done|auto|]. apply Forall_forall. intros i Hin.
    eapply elem_of_submseteq in Hin; [|exact Hi]. rewrite Forall_forall in Hids. pose proof (Hids _ Hin). lia.
  - by eapply NoDup_submultiset.
  - eapply Forall_impl; [exact Hcs|]. intros st. by apply call_holds_step.
  - by etrans.
  - intros k p Hk. destruct (Hres k p Hk) as [H|(st & ? & ?)].
    + destruct (Hrs k p H) as (st & ? & ?). eauto using responds_mono.
    + eauto using responds_mono.
Qed.

Lemma meanwhile_intro received o :
  match o with CloseSession s' => s' <> s | CompleteWaiter (Some s') _ _ => s' <> s | _ => True end ->
  meanwhile received o.
Proof. intros H. split; [by intros ->|]. intros i p ->. done. Qed.

(** The registry when a packet arrives, and what is left alone. *)
Lemma on_event_message now now' p t :
  tp_slot (on_event now now' s (MessageReceived p) t) = tp_slot t /\
  forall received, p ∈ received ->
    at_most_one (meanwhile received) (tp_registry t) (tp_registry (on_event now now' s (MessageReceived p) t)).
Proof.
  assert (Hfw : forall tok e u, tp_slot (forward_client_event_with_token s tok e u) = tp_slot u /\
    tp_registry (forward_client_event_with_token s tok e u) = tp_registry u)
    by (intros; unfold forward_client_event_with_token; by destruct (tp_listening u)).
  unfold on_event, forward_client_event. destruct (packet_type (header p)) eqn:Ht.
  - destruct (Hfw None (MessageReceived p) t) as [-> ->]. split; [done|]. by left.
  - pose proof (fun P => one_register P (packet_id p) (Some s) (biz_type (header p)) REQUEST_LIFECYCLE_TIMEOUT now now'
      (tp_registry t)) as Hone.
    destruct (register _ _ _ _ _ _ _) as [[tok|] r]; cbn [snd] in Hone.
    + destruct (Hfw (Some tok) (MessageReceived p) (set_tp_registry r t)) as [-> ->].
      split; [done|]. intros. apply Hone. by apply meanwhile_intro.
    + split; [done|]. intros. apply Hone. by apply meanwhile_intro.
  - pose proof (fun P => one_complete P (Some s) (packet_id p) p (tp_registry t)) as Hone.
    destruct (complete_waiter _ _ _ _) as [b r]; cbn [snd] in Hone.
    destruct (Hfw None (MessageReceived p) (set_tp_registry r t)) as [Hs Hr].
    destruct b; rewrite ?Hs, ?Hr; (split; [done|]; intros; apply Hone; split; [done|]; intros i q [= <- <-]; done).
Qed.

Lemma inv_receive N now now' p c :
  client_inv N c -> N < U64_MAX ->
  client_inv (N + 1) (client_step s (CReceive now now' p) c).
Proof.
  intros Hinv Hn. destruct (on_event_message now now' p (ce_transport c)) as [Hs Hone].
  eapply (client_inv_moves _ c); [done|done|done| |done|done| |done|]; cbn.
  - apply Hone. set_solver.
  - set_solver.
  - by left.
Qed.

Lemma inv_allocate N c :
  client_inv N c -> N < U64_MAX ->
  client_inv (N + 1) (client_step s CAllocate c).
Proof.
  intros Hinv HNn. pose proof Hinv as [HN Hs Hg (n & Hn & Hmax & Hids) Hnd Hcs Hps Hrs].
  assert (Hng : next_generation (tp_registry (ce_transport c)) < U64_MAX) by lia.
  cbn [client_step]. unfold allocate_request_id, current_session_id. rewrite Hs.
  pose proof (one_step (meanwhile (ce_received c)) (NextRequestId (Some s)) (tp_registry (ce_transport c)) I
    (meanwhile_intro _ (NextRequestId _) I)) as Hone.
  pose proof (step_next_id s (tp_registry (ce_transport c))) as Hid.
  cbn [step] in Hone, Hid. destruct (next_request_id _ _) as [[i|] r]; cbn [fst snd] in *.
  2: { eapply (client_inv_moves _ c); try done. by left. }
  destruct (Hid i n Hn eq_refl) as (-> & Hne & Hn'). destruct (one_advances _ _ _ Hg Hng Hone) as (Hg' & _ & Hn1).
  assert (Hperm : ids_of (set_ids (ce_ids c ++ [n]) (set_transport (set_tp_registry r (ce_transport c)) c))
    ≡ₚ n :: ids_of c) by (unfold ids_of; cbn; solve_Permutation).
  split; try done; cbn.
  - lia.
  - exists (n + 1). split_and!; [done|lia|]. rewrite Hperm. constructor; [lia|].
    eapply Forall_impl; [exact Hids|]. cbn. lia.
  - rewrite Hperm. constructor; [|done]. intros Hin. rewrite Forall_forall in Hids. pose proof (Hids _ Hin). lia.
  - eapply Forall_impl; [exact Hcs|]. intros st. by apply call_holds_step.
Qed.

(** A call that starts: its identifier moves from the allocated to its packet. *)
Lemma inv_started N c k i data options now deadline p rx tok r :
  client_inv N c -> N < U64_MAX -> ce_ids c !! k = Some i ->
  apply (ro_send options) (Packet.request i data) = Done p ->
  try_register_waiter (packet_id p) (Some s) (biz_type (header p)) deadline now (tp_registry (ce_transport c))
    = (Some (rx, tok), r) ->
  client_inv (N + 1) (mkClientEnd (set_tp_registry r (ce_transport c)) (delete k (ce_ids c))
    (ce_calls c ++ [mkStarted (mkCall rx (guard_armed (OutboundRequestGuard_new tok)) (Some s) p) data options])
    (ce_outbox c ++ [p]) (ce_sent c) (ce_received c) (ce_results c)).
Proof.
  intros [HN Hs Hg (n & Hn & Hmax & Hids) Hnd Hcs Hps Hrs] HNn Hk Hp Hreg.
  assert (Hng : next_generation (tp_registry (ce_transport c)) < U64_MAX) by lia.
  pose proof (apply_over_shape (ro_send options) (Packet.request i data) 0) as Hshape.
  unfold apply in Hp. rewrite Hp in Hshape. destruct Hshape as (Hty & Hid & _). cbn in Hty, Hid.
  destruct (registered_waiter _ _ _ _ _ _ _ _ _ Hg Hng Hreg) as (Hrx & Htok & Hlt & Hg1 & Hn1).
  assert (Hone : at_most_one (meanwhile (ce_received c)) (tp_registry (ce_transport c)) r).
  { replace r with (step (RegisterWaiter (packet_id p) (Some s) (biz_type (header p)) deadline now)
      (tp_registry (ce_transport c))).2 by (cbn; by rewrite Hreg). apply one_step; [done|]. by apply meanwhile_intro. }
  destruct (next_step _ _ _ n Hg Hng Hone Hn) as (n' & Hn' & Hle & Hcap).
  apply delete_Permutation in Hk as Hperm.
  set (c' := mkClientEnd _ _ _ _ _ _ _).
  assert (Hids' : ids_of c' ≡ₚ ids_of c).
  { unfold ids_of, c'. cbn. rewrite fmap_app. cbn. unfold call_id at 2. cbn. rewrite Hid.
    rewrite Hperm at 2. solve_Permutation. }
  split; rewrite ?Hids'; try done.
  - cbn. lia.
  - exists n'. split_and!; [done|auto|]. rewrite Hids'. eapply Forall_impl; [exact Hids|]. cbn. lia.
  - cbn. apply Forall_app. split; [eapply Forall_impl; [exact Hcs|]; intros st; by apply call_holds_step|].
    constructor; [|done]. unfold call_holds, call_id. cbn. rewrite Hid. split_and!; [done|done|].
    exists (next_generation (tp_registry (ce_transport c))). subst tok. rewrite Hid in *.
    split_and!; [done|done|]. left. by left.
  - cbn. rewrite fmap_app. cbn. rewrite !filter_app. rewrite filter_cons_True by done. cbn.
    rewrite filter_app in Hps. rewrite <- (Permutation_cons_append (fmap _ _)).
    transitivity (p :: (requests_in (ce_outbox c) ++ requests_in (ce_sent c))); [|by constructor].
    apply Permutation_submseteq. solve_Permutation.
  - cbn. intros k0 q Hq. destruct (Hrs k0 q Hq) as (st & Hst & ?). exists st. split; [|done].
    by apply lookup_app_l_Some.
Qed.

Lemma inv_request N now data options k c :
  client_inv N c -> N < U64_MAX ->
  client_inv (N + 1) (client_step s (CRequest now data options k) c).
Proof.
  intros Hinv Hng. cbn [client_step]. destruct (ce_ids c !! k) as [i|] eqn:Hk; [|by apply client_inv_wait].
  assert (Hsub : forall t, ids_of (set_transport t (set_ids (delete k (ce_ids c)) c)) ⊆+ ids_of c).
  { intros t. unfold ids_of. cbn. apply submseteq_app; [|done]. apply sublist_submseteq, sublist_delete. }
  unfold request_with_options. destruct (apply _ _) as [p|e|] eqn:Hp.
  2,3: by (eapply (client_inv_moves _ c); try done; [by left|by left]).
  unfold request_start, current_session_id. rewrite (ci_slot _ _ Hinv).
  pose proof (fun w => one_step (meanwhile (ce_received c))
    (RegisterWaiter (packet_id p) (Some s) (biz_type (header p)) w now) (tp_registry (ce_transport c)) I
    (meanwhile_intro _ (RegisterWaiter _ _ _ _ _) I)) as Hone.
  set (w := from_option _ _ _). specialize (Hone w). cbn [step] in Hone.
  destruct (try_register_waiter _ _ _ _ _ _) as [[[rx tok]|] r] eqn:Hreg; cbn [fst snd] in *.
  - exact (inv_started N c k i data options now w p rx tok r Hinv Hng Hk Hp Hreg).
  - eapply (client_inv_moves _ c); try done. by left.
Qed.

(** How a wait leaves the registry, and what it returns. *)
Lemma finish_shape N k w st t res c :
  client_inv N c -> ce_calls c !! k = Some st -> request_finish (sd_call st) w (ce_transport c) = Some (t, res) ->
  tp_slot t = tp_slot (ce_transport c) /\
  at_most_one (meanwhile (ce_received c)) (tp_registry (ce_transport c)) (tp_registry t) /\
  forall p, res = Done (Some p) -> responds (ce_received c) (call_id st) p.
Proof.
  intros Hinv Hk Hfin. pose proof (ci_calls _ _ Hinv) as Hcs. rewrite Forall_forall in Hcs.
  destruct (Hcs st (list_elem_of_lookup_2 _ _ _ Hk)) as (_ & _ & g & Hgu & _ & Hrx). cbv zeta in *.
  assert (Hdrop : forall gu, at_most_one (meanwhile (ce_received c)) (tp_registry (ce_transport c))
    (guard_drop gu (tp_registry (ce_transport c)))) by (intros; apply one_guard_drop; by apply meanwhile_intro).
  unfold request_finish in Hfin. destruct w as [e|d| |]; simplify_eq/=; [by split_and!..|].
  destruct (chans _ !! _) as [[]|] eqn:Hch; simplify_eq/=; (split_and!; [done|apply Hdrop|]); [|done].
  intros q [= ->]. destruct Hrx as [[(_ & _ & Hx)|[_ Hx]]|(p' & Hr & _ & Hx)]; congruence.
Qed.

(** A wait that ended so. *)
Lemma inv_waited N k st t res c :
  client_inv N c -> N < U64_MAX -> ce_calls c !! k = Some st -> tp_slot t = tp_slot (ce_transport c) ->
  at_most_one (meanwhile (ce_received c)) (tp_registry (ce_transport c)) (tp_registry t) ->
  (forall p, res = Done (Some p) -> responds (ce_received c) (call_id st) p) ->
  client_inv (N + 1) (mkClientEnd t (ce_ids c) (ce_calls c) (ce_outbox c) (ce_sent c) (ce_received c)
    (<[k := res]> (ce_results c))).
Proof.
  intros Hinv Hng Hk Hs Hone Hres. eapply (client_inv_moves _ c); [done|done|done|exact Hone|done|done|done|done|].
  cbn. intros j p. rewrite lookup_insert_Some. intros [[<- ->]|[_ ?]]; eauto.
Qed.

Lemma inv_finish N k w c :
  client_inv N c -> N < U64_MAX ->
  client_inv (N + 1) (client_step s (CFinish k w) c).
Proof.
  intros Hinv Hng. cbn [client_step]. destruct (ce_calls c !! k) as [st|] eqn:Hk; [|by apply client_inv_wait].
  destruct (ce_results c !! k) as [x|] eqn:Hk'; [by apply client_inv_wait|].
  destruct (request_finish _ _ _) as [[t res]|] eqn:Hfin; [|by apply client_inv_wait].
  destruct (finish_shape _ _ _ _ _ _ _ Hinv Hk Hfin) as (Hs & Hone & Hres). by eapply inv_waited.
Qed.

Lemma client_step_inv N l c :
  client_inv N c -> N < U64_MAX ->
  client_inv (N + 1) (client_step s l c).
Proof.
  intros Hinv Hng. destruct l as [|now data options k|p|k|k|now now' p|k w|o];
    [by apply inv_allocate|by apply inv_request| | | |by apply inv_receive|by apply inv_finish|].
  - cbn [client_step]. unfold is_request. case_bool_decide as Ht; [by apply client_inv_wait|].
    eapply (client_inv_moves _ c); try done; [by left| |by left]. cbn.
    rewrite !filter_app, filter_cons_False by done. cbn. by rewrite app_nil_r.
  - cbn [client_step]. destruct (ce_outbox c !! k) as [p|] eqn:Hk; [|by apply client_inv_wait].
    eapply (client_inv_moves _ c); try done; [by left| |by left]. cbn.
    apply Permutation_submseteq. apply delete_Permutation in Hk. rewrite Hk at 2.
    rewrite !filter_app, !filter_cons, filter_nil. case_decide; solve_Permutation.
  - eapply (client_inv_moves _ c); try done; [by left| |by left]. cbn.
    apply submseteq_filter, submseteq_app; [|done]. apply sublist_submseteq, sublist_delete.
  - cbn [client_step]. destruct (leaves_session s o) eqn:Ho; [|by apply client_inv_wait].
    eapply (client_inv_moves _ c); try done; [|by left]. cbn. apply one_step.
    + destruct o; try done. by apply bool_decide_eq_true in Ho.
    + split; [intros ->|intros i p ->]; cbn in Ho; by rewrite bool_decide_true in Ho.
Qed.

Lemma client_run_inv N ls c :
  client_inv N c -> N + len ls <= U64_MAX -> client_inv (N + len ls) (client_run s ls c).
Proof.
  revert N c. induction ls as [|l ls IH]; intros N c Hinv Hlen; [by rewrite len_nil, Z.add_0_r|].
  rewrite len_cons in *. pose proof (len_nonneg ls).
  replace (N + (1 + len ls)) with (N + 1 + len ls) by lia.
  apply (IH (N + 1) (client_step s l c)); [|lia]. apply client_step_inv; [done|lia].
Qed.

(** A response that arrives while its call still waits is what the call returns. *)
Lemma arrived_response_is_returned N c k st p now now' :
  client_inv N c -> ce_calls c !! k = Some st -> ce_results c !! k = None ->
  chans (tp_registry (ce_transport c)) !! rc_receiver (sd_call st) = Some ChanWaiting ->
  packet_type (header p) = Response -> packet_id p = call_id st ->
  ce_results (client_run s [CReceive now now' p; CFinish k Polled] c) !! k = Some (Done (Some p)).
Proof.
  intros Hc Hk Hres Hw Hty Hid. pose proof (ci_calls _ _ Hc) as Hcs. rewrite Forall_forall in Hcs.
  destruct (Hcs st (list_elem_of_lookup_2 _ _ _ Hk)) as (_ & _ & g & Hgu & _ & Hrx). cbv zeta in *.
  set (tok := mkToken (Some s) (call_id st) Outbound g) in *.
  assert (Hwait : rx_waiting tok (rc_receiver (sd_call st)) (tp_registry (ce_transport c)))
    by (destruct Hrx as [[?|[_ ?]]|(? & _ & _ & ?)]; [done|congruence..]).
  cbn [client_run foldl client_step]. unfold on_event. rewrite Hty, Hid.
  pose proof (complete_waiter_spec ∅ (Some s) (call_id st) p _ (proj1 (ci_good _ _ Hc))) as Hs. cbv zeta in Hs.
  destruct (complete_waiter _ _ _ _) as [b r].
  pose proof Hwait as (Hph & _). unfold phase in Hph. change (token_key tok) with (outbound (Some s) (call_id st)) in Hph.
  destruct (entries _ !! _) as [e|] eqn:He; [|done].
  repeat case_decide; try done. rewrite ?bool_decide_true in Hs by done. destruct Hs as [-> Hs].
  destruct (rx_waiting_retired _ _ _ _ _ _ (ci_good _ _ Hc) Hwait Hs) as [[Hne _]|[_ [_ Hsent]]]; [done|].
  cbn. rewrite Hk, Hres. unfold request_finish. cbn. rewrite Hsent. cbn. by rewrite lookup_insert_eq.
Qed.

(** A transport whose session is just open. *)
Definition opened_client (t : Transport) : Prop :=
  tp_slot t = Some s /\ good ∅ ∅ (tp_registry t) /\
  exists n, next_of s (tp_registry t) = Some n /\ n <= U32_MAX.

Lemma client_start_inv t : opened_client t -> client_inv (next_generation (tp_registry t)) (client_start t).
Proof.
  intros (Hs & Hg & n & Hn & Hmax). split; try done; cbn.
  - exists n. split_and!; try done.
  - constructor.
Qed.
End Client.

(** ** The server's end *)

Section Server.
Context `{C : Codecs} `{T : Target} (s : SessionId).

(** The requests posted to the actor's mailbox. *)
Definition posted_request (m : ActorMessage) : option Packet :=
  match m with
  | InboundEvent (MessageReceived p) => if decide (packet_type (header p) = Request) then Some p else None
  | _ => None
  end.
Definition posted_requests (ms : list ActorMessage) : list Packet := omap posted_request ms.

Definition handed_of (cs : list callback) : list (Packet * Responder) :=
  omap (fun c => match c with OnRequest q rp => Some (q, rp) | _ => None end) cs.

Lemma handed_callbacks a ms css :
  Forall2 (callbacks_of a) ms css -> (handed_of (concat css)).*1 `sublist_of` posted_requests ms.
Proof.
  induction 1 as [|m cs ms css Hm _ IH]; [done|]. cbn [concat]. unfold handed_of, posted_requests in *.
  rewrite omap_app, fmap_app. change (m :: ms) with ([m] ++ ms). rewrite omap_app. apply sublist_app; [|done].
  destruct m as [[info|reason|p|i|e]|p|p n]; cbn in Hm |- *; subst; try done; try apply sublist_nil_l.
  destruct (packet_type (header p)) eqn:Hp; cbn; subst; try apply sublist_nil_l.
  destruct Hm as [->|(_ & tok & -> & _)]; [apply sublist_nil_l|done].
Qed.

(** The handler is called with the posted requests, each at most once and in
    their order. *)
Lemma handed_was_posted posted a : told posted a -> (handed a).*1 `sublist_of` posted_requests posted.
Proof.
  intros [(_ & Hcs & _)|(before & css & en & answered & Hst)].
  - unfold handed. rewrite Hcs. apply sublist_nil_l.
  - destruct Hst as [Hposted Hcss _ Hcalls _ _ _ _]. unfold handed. rewrite Hcalls, Hposted. cbn [omap list_omap].
    unfold posted_requests. rewrite !omap_app, fmap_app.
    replace (omap _ (farewell (sa_phase a) en)) with (@nil (Packet * Responder)) by (by destruct (sa_phase a)).
    cbn [fmap list_fmap]. apply sublist_app; [|apply sublist_nil_l]. by eapply handed_callbacks.
Qed.

Lemma drop_completion_activity c st : at_most_one any (io_registry st) (io_registry (drop_completion c st)).
Proof.
  unfold drop_completion, receipt_end, on_claim.
  destruct (wc_observer c) as [n|], (wc_claim c) as [cl|]; cbn; repeat case_match; cbn; try (by left); by apply one_claim_drop.
Qed.

Lemma drop_item_activity it st r : io_registry st = r -> at_most_one any r (io_registry (drop_item it st)).
Proof. intros <-. unfold drop_item. destruct (ob_completion it) as [w|]; [|by left]. exact (drop_completion_activity w (set_io_budget _ st)). Qed.

Lemma send_activity w q later p c st :
  at_most_one any (io_registry st) (io_registry (send_with_completion w q later p c st).1.2).
Proof.
  unfold send_with_completion, send_with_completion_bounded, send_item.
  destruct (charge p (io_budget st)) as [[[t b]|]|e|]; cbn [fst snd]; try apply drop_completion_activity.
  destruct (negb (q_open q)), (has_slot q), (negb (q_open later)), (has_slot later); cbn [fst snd]; try (by left); by apply drop_item_activity.
Qed.

Lemma enqueue_activity g p c t : at_most_one any (tp_registry t) (tp_registry (enqueue_on g p c t).1).
Proof.
  unfold enqueue_on. destruct (tp_conns t !! g) as [cn|]; [|by left].
  pose proof (send_activity (cn_writer cn) (cn_queue cn) (cn_queue cn) p c (io_of cn t)) as H.
  by destruct (send_with_completion _ _ _ _ _ _) as [[q st] res].
Qed.

Lemma send_start_activity o t : at_most_one any (tp_registry t) (tp_registry (send_start o None t).1.1).
Proof.
  unfold send_start. destruct (capture_writer _ _); [by left|..]; cbn; repeat case_match; by left.
Qed.

Lemma call_handler_handed panics c batch next a :
  handed (call_handler panics c batch next a) = handed a ++ handed_of [c].
Proof.
  unfold call_handler, handed. destruct panics; cbn.
  - destruct (drop_messages batch (log_call c a)) as (_ & _ & _ & _ & Hc & _). cbv zeta in Hc. rewrite Hc. cbn.
    by rewrite omap_app.
  - by rewrite omap_app.
Qed.

(** A step of the actor: at most one operation of the registry, and at most one
    request handed to the handler, with the token just registered for it. *)
Definition hands (now now' : Z) (a a' : SessionActor) (t t' : Transport) : Prop :=
  at_most_one any (tp_registry t) (tp_registry t') /\
  (handed a' = handed a \/ exists q tok,
    handed a' = handed a ++ [(q, mkResponder tok (biz_type (header q)) (sa_session_id a))] /\
    register (packet_id q) (Some (sa_session_id a)) (biz_type (header q)) REQUEST_LIFECYCLE_TIMEOUT now now'
      (tp_registry t) = (Some tok, tp_registry t')).

Lemma hands_nothing now now' a a' t t' :
  at_most_one any (tp_registry t) (tp_registry t') -> handed a' = handed a -> hands now now' a a' t t'.
Proof. intros ? ?. split; [done|by left]. Qed.

Lemma process_hands now now' panics m batch a t :
  let w := process now now' panics m batch a t in hands now now' a w.1 t w.2.
Proof.
  assert (Hcall : forall c, handed_of [c] = [] ->
    hands now now' a (call_handler panics c batch (Working batch false) a) t t).
  { intros c Hc. apply hands_nothing; [by left|]. by rewrite call_handler_handed, Hc, app_nil_r. }
  assert (Hgoto : forall ph, hands now now' a (goto ph a) t t) by (intros; apply hands_nothing; [by left|done]).
  destruct m as [[info|reason|p|i|e]|p|p n]; cbn [process fst snd]; try (by apply Hcall); try apply Hgoto.
  - by apply hands_nothing; [left|].
  - destruct (packet_type (header p)) eqn:Hp; cbn [fst snd]; try (by apply Hcall).
    destruct (sa_inbound_registry a); [|apply Hgoto].
    pose proof (one_register any (packet_id p) (Some (sa_session_id a)) (biz_type (header p))
      REQUEST_LIFECYCLE_TIMEOUT now now' (tp_registry t) I) as Hone.
    destruct (register _ _ _ _ _ _ _) as [[tok|] r] eqn:Hr; cbn [snd] in *.
    + split; [done|]. right. exists p, tok. split; [exact (call_handler_handed _ _ _ _ _)|done].
    + by apply hands_nothing.
  - destruct (capture_writer None t); apply Hgoto.
  - pose proof (send_start_activity (Some (sa_session_id a)) t) as Hone.
    destruct (send_start _ _ _) as [[t1 c] [g|e|]]; cbn [fst snd] in *; by apply hands_nothing.
Qed.

Lemma step_hands now now' panics take_cancel a t a' t' :
  actor_step now now' panics take_cancel a t = Some (a', t') -> hands now now' a a' t t'.
Proof.
  intros Hstep. unfold actor_step in Hstep.
  assert (Hsame : forall b, handed b = handed a -> hands now now' a b t t) by (intros; apply hands_nothing; [by left|done]).
  destruct (sa_phase a) as [| |[|m batch] []|g p c reply batch|c n batch|reason|]; simplify_eq; try (by apply Hsame).
  - apply Hsame. by rewrite call_handler_handed, app_nil_r.
  - repeat case_match; simplify_eq; by apply Hsame.
  - apply Hsame. by destruct m.
  - pose proof (process_hands now now' panics m batch a t) as H. cbv zeta in H.
    destruct (process _ _ _ _ _ _ _) as [a1 t1]. by simplify_eq/=.
  - pose proof (enqueue_activity g p c t) as Hone. destruct (enqueue_on g p c t) as [t1 res].
    destruct reply as [n|]; [destruct res|]; simplify_eq/=; by apply hands_nothing.
  - destruct (send_result c t); simplify_eq. by apply Hsame.
  - apply Hsame. unfold handed. cbn. rewrite omap_app. by rewrite app_nil_r.
Qed.

Definition wire_of (c : server_end) : list Packet := on_wire (se_outbox c) (se_sent c).

Record server_inv (N : Z) (c : server_end) : Prop := {
  si_gen : next_generation (tp_registry (se_transport c)) <= N;
  si_good : good ∅ ∅ (tp_registry (se_transport c));
  si_told : told (se_posted c) (se_actor c);
  si_id : sa_session_id (se_actor c) = s;
  si_posted : posted_requests (se_posted c) `sublist_of` requests_in (se_received c);
  si_answering : answering s (handed (se_actor c)) (se_answers c) (wire_of c) (tp_registry (se_transport c))
}.

Lemma server_inv_wait N c : server_inv N c -> server_inv (N + 1) c.
Proof. intros []. split; try done. lia. Qed.

(** Steps that claim no request. *)
Lemma server_inv_moves N c c' :
  server_inv N c -> N < U64_MAX ->
  at_most_one any (tp_registry (se_transport c)) (tp_registry (se_transport c')) ->
  told (se_posted c') (se_actor c') -> sa_session_id (se_actor c') = s ->
  posted_requests (se_posted c') `sublist_of` requests_in (se_received c') ->
  handed (se_actor c) ⊆ handed (se_actor c') ->
  (forall x, x ∈ handed (se_actor c') -> x ∈ handed (se_actor c) \/ handed_ok s (tp_registry (se_transport c')) x) ->
  se_answers c' = se_answers c -> responses_in (wire_of c') ⊆+ responses_in (wire_of c) ->
  server_inv (N + 1) c'.
Proof.
  intros [HN Hg Ht Hid Hp Haw] HNn Hone Ht' Hid' Hp' Hsub Hnew Han Hout.
  assert (Hng : next_generation (tp_registry (se_transport c)) < U64_MAX) by lia.
  destruct (one_advances _ _ _ Hg Hng Hone) as (Hg' & _ & Hn1).
  split; rewrite ?Han; try done; [lia|].
  by apply (answering_moves s (handed (se_actor c)) _ _ (wire_of c) _ (tp_registry (se_transport c))).
Qed.

(** Steps that leave the actor and its mailbox alone. *)
Lemma server_inv_aside N c c' :
  server_inv N c -> N < U64_MAX ->
  at_most_one any (tp_registry (se_transport c)) (tp_registry (se_transport c')) ->
  se_posted c' = se_posted c -> se_actor c' = se_actor c -> se_received c' = se_received c ->
  se_answers c' = se_answers c -> responses_in (wire_of c') ⊆+ responses_in (wire_of c) ->
  server_inv (N + 1) c'.
Proof.
  intros Hinv HN Hone Hp Ha Hr Han Hout. apply (server_inv_moves N c c'); rewrite ?Hp, ?Ha, ?Hr; try done; try apply Hinv.
  by left.
Qed.

Lemma inv_act N e c :
  server_inv N c -> N < U64_MAX -> (forall t, e <> OtherTasks t) ->
  (forall m, e = Post m -> posted_requests [m] = []) ->
  server_inv (N + 1) (act e c).
Proof.
  intros Hinv HN Ho Hm. pose proof Hinv as [HNg Hg Ht Hid Hp _].
  assert (Hng : next_generation (tp_registry (se_transport c)) < U64_MAX) by lia.
  pose proof (act_told e (se_actor c) (se_transport c) (se_posted c) Ht) as Htold. unfold act in *.
  destruct e as [now now' panics tc|m| | |t]; cbn [actor_act] in *; [| | | |by destruct (Ho t)].
  - destruct (actor_step _ _ _ _ _ _) as [[a' t']|] eqn:Hstep; [|by destruct c; apply server_inv_wait].
    pose proof (step_identity _ _ _ _ _ _ _ _ Hstep) as Hident. injection Hident as Hident _ _.
    destruct (step_hands _ _ _ _ _ _ _ _ Hstep) as [Hone Hh].
    eapply (server_inv_moves _ c); cbn; try done; [congruence|..].
    + destruct Hh as [->|(q & tok & -> & _)]; set_solver.
    + destruct Hh as [->|(q & tok & -> & Hreg)]; [by left|].
      intros x [Hx|Hx]%elem_of_app; [by left|]. apply list_elem_of_singleton in Hx as ->. right.
      rewrite Hid in Hreg. destruct (registered_request _ _ _ _ _ _ _ _ _ Hg Hng Hreg) as [-> Hn].
      split_and!; cbn; try done. lia.
  - destruct (mb_senders _); [|by destruct c; apply server_inv_wait].
    destruct (mb_try_send _ _) as [mb|] eqn:Hmb; [|by destruct c; apply server_inv_wait].
    eapply (server_inv_moves _ c); cbn; try done; [by left| |by left]. unfold posted_requests in *.
    rewrite omap_app, (Hm m eq_refl). by rewrite app_nil_r.
  - eapply (server_inv_moves _ c); cbn; try done; by left.
  - eapply (server_inv_moves _ c); cbn; try done; by left.
Qed.

Lemma pump_event_activity e room tb :
  let w := pump_one_event s e room tb in
  at_most_one any (sv_registry tb) (sv_registry w.1.1) /\ (w.1.2 = None \/ w.1.2 = Some e).
Proof.
  assert (Hthrough : forall (close : bool) tb', let w := if room then (tb', Some e, close) else (tb', None, false) in
    sv_registry w.1.1 = sv_registry tb' /\ (w.1.2 = None \/ w.1.2 = Some e)) by (intros; destruct room; auto).
  assert (Hsame : forall (close : bool), let w := if room then (tb, Some e, close) else (tb, None, false) in
    at_most_one any (sv_registry tb) (sv_registry w.1.1) /\ (w.1.2 = None \/ w.1.2 = Some e))
    by (intros; destruct room; (split; [by left|auto])).
  destruct e as [info|reason|p|i|e]; cbn [pump_one_event]; try apply Hsame.
  destruct (packet_type (header p)); try apply Hsame.
  pose proof (one_complete any (Some s) (packet_id p) p (sv_registry tb) I) as Hone.
  destruct (complete_waiter _ _ _ _) as [b r]. cbn [snd] in Hone. destruct b, room; (split; [done|auto]).
Qed.

Lemma posted_requests_received e ms received :
  posted_requests ms `sublist_of` requests_in received ->
  posted_requests (ms ++ [InboundEvent e]) `sublist_of`
    requests_in (match e with MessageReceived p => received ++ [p] | _ => received end).
Proof.
  intros H. unfold posted_requests in *. rewrite omap_app.
  destruct e as [info|reason|p|i|e]; cbn; rewrite ?app_nil_r; try done.
  rewrite filter_app, filter_cons, filter_nil. by case_decide; apply sublist_app.
Qed.

Lemma inv_pump N e c : server_inv N c -> N < U64_MAX -> server_inv (N + 1) (pump_step s e c).
Proof.
  intros Hinv HN. pose proof Hinv as [HNg Hg Ht Hid Hp _]. unfold pump_step. cbv zeta.
  set (room := _ && bool_decide _). destruct (negb (se_pumping c) || _); [by apply server_inv_wait|].
  destruct (pump_event_activity e room (set_sv_registry (tp_registry (se_transport c)) (se_table c))) as [Hone Hf].
  destruct (pump_one_event _ _ _ _) as [[tb fw] go_on]. cbn [fst snd] in *.
  assert (Hquiet : posted_requests (se_posted c) `sublist_of`
    requests_in (match e with MessageReceived p => se_received c ++ [p] | _ => se_received c end)).
  { etrans; [exact Hp|]. destruct e; try done. apply filter_sublist, sublist_inserts_r. done. }
  destruct Hf as [-> | ->].
  - eapply (server_inv_moves _ c); cbn; try done. by left.
  - unfold act, actor_act. cbn [se_actor se_transport se_posted].
    destruct (mb_senders _) eqn:Hsn; [destruct (mb_try_send _ _) as [mb|] eqn:Hmb|].
    2,3: by (eapply (server_inv_moves _ c); cbn; try done; by left).
    eapply (server_inv_moves _ c); cbn; try done; [|by apply posted_requests_received|by left].
    pose proof (act_told (Post (InboundEvent e)) (se_actor c) (se_transport c) (se_posted c) Ht) as Htold.
    cbn [actor_act] in Htold. rewrite Hsn, Hmb in Htold. exact Htold.
Qed.

Lemma server_inv_gen N M c : server_inv N c -> next_generation (tp_registry (se_transport c)) <= M -> server_inv M c.
Proof. intros [] ?. by split. Qed.

Lemma inv_respond N q rp data options c :
  server_inv N c -> N < U64_MAX -> server_inv (N + 1) (server_step s (SRespond q rp data options) c).
Proof.
  intros Hinv HN. pose proof Hinv as [HNg Hg Ht Hid Hp Haw]. cbn [server_step].
  destruct (decide _) as [Hin|]; [|by apply server_inv_wait].
  assert (Hng : next_generation (tp_registry (se_transport c)) < U64_MAX) by lia.
  pose proof (fun out' => answering_claim s _ _ _ out' q rp data options (se_transport c) Hg Hng Haw Hin) as Hw. cbv zeta in Hw.
  destruct (respond_claim _ _ _ _) as [t [r|p claim]]; cbn [fst snd] in Hw.
  - destruct (Hw []) as (Hg' & Hn & Haw'). split; try done; cbn; lia.
  - set (c' := mkServerEnd _ _ _ _ _ _ _ _ _). destruct (Hw (wire_of c')) as (Hg' & Hn & Haw').
    split; try done; [cbn; lia|]. apply Haw', wire_claimed.
Qed.

Lemma server_step_inv N l c : server_inv N c -> N < U64_MAX -> server_inv (N + 1) (server_step s l c).
Proof.
  intros Hinv HN.
  destruct l as [e|now now' panics tc|p reply| | |q rp data options|p|k|k|o];
    [by apply inv_pump|by apply inv_act|apply inv_act; try done| by apply inv_act|by apply inv_act|by apply inv_respond|..].
  - intros m Hm. injection Hm as <-. by destruct reply.
  - cbn [server_step]. unfold is_response. case_bool_decide as Ht; [by apply server_inv_wait|].
    apply (server_inv_aside N c); try done; [by left|by apply wire_other].
  - cbn [server_step]. destruct (se_outbox c !! k) as [[p cl]|] eqn:Hk; [|by apply server_inv_wait].
    apply (server_inv_aside N c); try done; [apply claim_written_activity|by eapply wire_written].
  - cbn [server_step]. destruct (se_outbox c !! k) as [[p cl]|] eqn:Hk; [|by apply server_inv_wait].
    apply (server_inv_aside N c); try done; [apply claim_lost_activity|apply wire_lost].
  - cbn [server_step]. destruct (leaves_claims o) eqn:Ho; [|by apply server_inv_wait].
    apply (server_inv_aside N c); try done. cbn. apply one_step; [|done]. by destruct o.
Qed.

Lemma server_run_inv N ls c :
  server_inv N c -> N + len ls <= U64_MAX -> server_inv (N + len ls) (server_run s ls c).
Proof.
  revert N c. induction ls as [|l ls IH]; intros N c Hinv Hlen; [by rewrite len_nil, Z.add_0_r|].
  rewrite len_cons in *. pose proof (len_nonneg ls).
  replace (N + (1 + len ls)) with (N + 1 + len ls) by lia.
  apply (IH (N + 1) (server_step s l c)); [|lia]. apply server_step_inv; [done|lia].
Qed.

Lemma server_start_inv t table info capacity :
  good ∅ ∅ (tp_registry t) -> server_inv (next_generation (tp_registry t)) (server_start t table s info capacity).
Proof. intros Hg. split; try done; cbn; [by left|]. split; try done; constructor. Qed.
End Server.

(** ** A request and its answer *)

Section Conversation.
Context `{C : Codecs} `{L : !CodecLaws C} `{T : Target}.

(** The side that answers, by what it was handed: from the requests received, each
    once and in their order. *)
Section Answered.
Context (s s' : SessionId) (N : Z) (c : client_end) (max max' : Z).
Context (hs : list (Packet * Responder)) (ans : list answer) (outbox : list (Packet * option RespondClaim)).
Context (sent received : list Packet) (r : RequestRegistry).
Hypothesis Hc : client_inv s N c.
Hypothesis Hans : answering s' hs ans (on_wire outbox sent) r.
Hypothesis Hfrom : hs.*1 `sublist_of` requests_in received.
Hypothesis Hreq : transmitted max (ce_sent c) received.
Hypothesis Hres : transmitted max' sent (ce_received c).

(** Every request handed over is a call's, and each is handed over once. *)
Lemma handed_once : NoDup ((fun x => packet_id x.1) <$> hs).
Proof.
  pose proof (transmitted_requests _ _ _ Hreq) as H2.
  assert (H3 : requests_in (ce_sent c) ⊆+ ((fun st => rc_packet (sd_call st)) <$> ce_calls c)).
  { etrans; [|exact (ci_packets _ _ _ Hc)]. rewrite filter_app. apply submseteq_inserts_l. done. }
  replace ((fun x => packet_id x.1) <$> hs) with ((fun p => packet_id p) <$> hs.*1) by (by rewrite <- list_fmap_compose).
  eapply NoDup_submultiset; [|exact (proj2 (proj2 (proj1 (NoDup_app _ _) (ci_nodup _ _ _ Hc))))].
  transitivity ((fun p => packet_id p) <$> requests_in received); [by apply sublist_submseteq, fmap_sublist|].
  etrans; [by apply sublist_submseteq|]. apply (fmap_submseteq (fun p => packet_id p)) in H3.
  by rewrite <- list_fmap_compose in H3.
Qed.

(** The call behind a packet handed over. *)
Lemma handed_call q rp : (q, rp) ∈ hs ->
  exists st, st ∈ ce_calls c /\ call_id st = packet_id q /\ arrives max (rc_packet (sd_call st)) q.
Proof.
  intros Hin.
  assert (Hq : q ∈ requests_in received) by (eapply elem_of_sublist; [exact (list_elem_of_fmap_2 fst _ _ Hin)|exact Hfrom]).
  apply list_elem_of_filter in Hq as [Hty Hq].
  destruct (transmitted_elem _ _ _ _ Hreq Hq) as (p & Hp & Ha). destruct (arrives_keeps _ _ _ Ha) as (Ht & Hi & _).
  assert (Hcall : p ∈ (fun st => rc_packet (sd_call st)) <$> ce_calls c).
  { eapply elem_of_submseteq; [|exact (ci_packets _ _ _ Hc)]. apply list_elem_of_filter. split; [congruence|].
    apply elem_of_app. by right. }
  apply list_elem_of_fmap in Hcall as (st & -> & Hst). exists st. by split_and!.
Qed.

Lemma same_call st st' : st ∈ ce_calls c -> st' ∈ ce_calls c -> call_id st = call_id st' -> st = st'.
Proof.
  intros Hst Hst' Hid. pose proof (ci_nodup _ _ _ Hc) as Hnd. apply NoDup_app in Hnd as (_ & _ & Hnd).
  apply list_elem_of_lookup in Hst as [i Hi]. apply list_elem_of_lookup in Hst' as [j Hj].
  assert (i = j) as ->; [|congruence].
  eapply (NoDup_lookup _ _ _ (call_id st) Hnd); rewrite list_lookup_fmap; [by rewrite Hi|by rewrite Hj, Hid].
Qed.

(** The call a response ended, the request handed over for it, and its answer. *)
Lemma answered k p : ce_results c !! k = Some (Done (Some p)) ->
  exists st q an, ce_calls c !! k = Some st /\
    filter (fun x => packet_id x.1 = call_id st) hs = [(q, an_responder an)] /\
    filter (fun an => t_request_id (answer_token an) = call_id st) ans = [an] /\
    arrives max (rc_packet (sd_call st)) q /\ arrives max' (an_packet an) p /\
    (len (sd_data st) <= max < 2 ^ 64 - 1 -> payload q = sd_data st) /\
    (len (an_data an) <= max' < 2 ^ 64 - 1 -> payload p = an_data an).
Proof.
  intros Hk. destruct (ci_results _ _ _ Hc k p Hk) as (st & Hst & Hp & Hty & Hid).
  destruct (transmitted_elem _ _ _ _ Hres Hp) as (out & Hout & Hout'). destruct (arrives_keeps _ _ _ Hout') as (Hto & Hio & _).
  assert (Han : out ∈ an_packet <$> ans).
  { eapply elem_of_submseteq; [|exact (aw_packets _ _ _ _ _ Hans)]. apply list_elem_of_filter. split; [congruence|].
    apply elem_of_app. by right. }
  apply list_elem_of_fmap in Han as (an & -> & Han).
  pose proof (aw_answers _ _ _ _ _ Hans) as Hok. rewrite Forall_forall in Hok. pose proof (aw_handed _ _ _ _ _ Hans) as Hhand.
  rewrite Forall_forall in Hhand. destruct (Hok _ Han) as ([q Hq] & Happ & _).
  pose proof (apply_over_shape (an_options an) (response_with_biz (t_request_id (answer_token an))
    (rp_biz_type (an_responder an)) (an_data an)) (rp_biz_type (an_responder an))) as Hshape.
  rewrite Happ in Hshape. destruct Hshape as (_ & Hia & _). cbn in Hia.
  destruct (Hhand _ Hq) as (_ & Hiq & _). cbn in Hiq. unfold answer_token in *.
  assert (Hqid : packet_id q = call_id st) by congruence.
  destruct (handed_call q _ Hq) as (st' & Hst' & Hid' & Harr).
  apply list_elem_of_lookup_2 in Hst as Hin. rewrite <- (same_call _ _ Hin Hst' ltac:(congruence)) in Harr.
  assert (Hhanded : filter (fun x => packet_id x.1 = call_id st) hs = [(q, an_responder an)]).
  { apply (filter_unique (fun x => packet_id x.1)); [exact handed_once|done|]. intros y _. cbn. by rewrite Hqid. }
  exists st, q, an. split_and!; [done|done| |done|done|..].
  - apply (filter_unique answer_token); [exact (aw_once _ _ _ _ _ Hans)|done|]. intros an' Han'. unfold answer_token.
    split; [|intros ->; congruence]. intros Hid2. destruct (Hok _ Han') as ([q' Hq'] & _).
    destruct (Hhand _ Hq') as (_ & Hiq' & _). cbn in Hiq'.
    assert (Hx : (q', an_responder an') ∈ [(q, an_responder an)]).
    { rewrite <- Hhanded. apply list_elem_of_filter. split; [cbn; congruence|done]. }
    apply list_elem_of_singleton in Hx. by injection Hx as _ ->.
  - intros Hlen. pose proof (ci_calls _ _ _ Hc) as Hcs. rewrite Forall_forall in Hcs.
    destruct (Hcs _ Hin) as (Hap & _). by eapply (arrives_restores max _ (Packet.request (call_id st) (sd_data st))).
  - intros Hlen. by eapply (arrives_restores max' _ (response_with_biz _ _ (an_data an))).
Qed.
End Answered.

(** C1: request and response, end to end, within one session: between the opening
    of one connection and its end, with no reconnect. A response the client's
    caller gets answers its own call: the server's handler was called with the call's
    packet, exactly once, one answer was claimed for it, and the caller holds
    that answer's packet; when they fit the receivers' limits, the handler saw
    the caller's data and the caller sees the handler's. *)
Theorem answers_match_their_requests s s' t t' table info capacity calls acts max max' k p :
  opened_client s t -> next_generation (tp_registry t) + len calls <= U64_MAX ->
  good ∅ ∅ (tp_registry t') -> next_generation (tp_registry t') + len acts <= U64_MAX ->
  let c := client_run s calls (client_start t) in
  let v := server_run s' acts (server_start t' table s' info capacity) in
  transmitted max (ce_sent c) (se_received v) -> transmitted max' (se_sent v) (ce_received c) ->
  ce_results c !! k = Some (Done (Some p)) ->
  exists st q an, ce_calls c !! k = Some st /\
    filter (fun x => packet_id x.1 = call_id st) (handed (se_actor v)) = [(q, an_responder an)] /\
    filter (fun an => t_request_id (answer_token an) = call_id st) (se_answers v) = [an] /\
    arrives max (rc_packet (sd_call st)) q /\ arrives max' (an_packet an) p /\
    (len (sd_data st) <= max < 2 ^ 64 - 1 -> payload q = sd_data st) /\
    (len (an_data an) <= max' < 2 ^ 64 - 1 -> payload p = an_data an).
Proof.
  intros Ht Hn Ht' Hn' c v Hreq Hres Hk.
  pose proof (client_run_inv s _ calls _ (client_start_inv s t Ht) Hn) as Hc. fold c in Hc.
  pose proof (server_run_inv s' _ acts _ (server_start_inv s' t' table info capacity Ht') Hn') as Hv. fold v in Hv.
  eapply answered; [exact Hc|exact (si_answering _ _ _ Hv)| |exact Hreq|exact Hres|exact Hk].
  etrans; [exact (handed_was_posted _ _ (si_told _ _ _ Hv))|exact (si_posted _ _ _ Hv)].
Qed.
End Conversation.

(** ** A concrete conversation *)

Definition small_registry (s : SessionId) : RequestRegistry := open_session s (new_with_timing 8 10).
Definition small_transport (s : SessionId) : Transport :=
  mkTransport (Some s) ∅ {[s := Connected]} (small_registry s) ∅ s true [].
Definition small_info : ConnectionInfo := mkInfo 9 "srv" "cli" "tcp" CsConnected 0 None.
Definition small_table : sessions_table := mkTable {[9]} {[9]} {[9 := Connected]} {[9]} (small_registry 9).

(** A compressed request, then the answer to it; another call still waits. *)
Definition asked : RequestOptions := mkRequestOptions (so_with_compression Zstd SendOptions_new) None.
Definition asking : list client_label :=
  [CAllocate; CRequest 0 [7; 7; 7] asked 0; CAllocate; CRequest 0 [8] asked 0; CWritten 1; CWritten 0].
Definition client_asked : client_end :=
  client_run (C := tag_codec) (T := Target64) 1 asking (client_start (small_transport 1)).

Definition pass (max : Z) (ps : list Packet) : list Packet :=
  omap (fun p => match normalize_inbound (C := tag_codec) p max with Done q => Some q | _ => None end) ps.

Definition serve (ps : list Packet) : list server_label :=
  SActor 0 0 false false :: ((fun p => SPump (MessageReceived p)) <$> ps) ++
  replicate 4 (SActor 0 0 false false).
Definition serving_acts : list server_label := serve (pass 100 (ce_sent client_asked)).
Definition server_asked : server_end :=
  server_run (C := tag_codec) (T := Target64) 9 serving_acts (server_start (small_transport 9) small_table 9 small_info 8).

Definition answer_second (x : list (Packet * Responder)) : list server_label :=
  match x with
  | [_; (q, rp)] => [SRespond q rp [9; 9] (so_with_compression Zstd SendOptions_new);
                     SRespond q rp [6] SendOptions_new; SWritten 0]
  | _ => []
  end.
Definition sample_acts : list server_label := serving_acts ++ answer_second (handed (se_actor server_asked)).
Definition server_answered : server_end :=
  server_run (C := tag_codec) (T := Target64) 9 sample_acts (server_start (small_transport 9) small_table 9 small_info 8).

Definition sample_calls : list client_label :=
  asking ++ (CReceive 0 0 <$> pass 100 (se_sent server_answered)) ++ [CFinish 0 Polled; CFinish 1 Polled].
Definition client_answered : client_end :=
  client_run (C := tag_codec) (T := Target64) 1 sample_calls (client_start (small_transport 1)).

Lemma small_good s : s = 1 \/ s = 9 -> good ∅ ∅ (small_registry s).
Proof.
  intros _. apply (open_session_advances ∅ ∅ s (new_with_timing 8 10)). by apply good_initial.
Qed.

Lemma pass_transmitted max ps received :
  pass max ps = received -> len received = len ps -> transmitted (H := tag_codec) max ps received.
Proof.
  intros <- Hlen. exists ps. split; [done|]. revert Hlen. unfold len. intros Hlen%Nat2Z.inj. revert Hlen.
  induction ps as [|p ps IH]; [constructor|]. unfold pass. cbn. unfold arrives.
  assert (Hle : forall l : list Packet, (length (pass max l) <= length l)%nat).
  { induction l as [|q l IHl]; [done|]. unfold pass in *. cbn. destruct (normalize_inbound _ _); cbn; lia. }
  pose proof (Hle ps). destruct (normalize_inbound _ _) as [q| |] eqn:Hq; cbn; intros [=]; [|unfold pass in *; lia..].
  constructor; [done|]. by apply IH.
Qed.

Lemma answers_witness :
  exists p st q an, ce_results client_answered !! 0%nat = Some (Done (Some p)) /\ payload p = [9; 9] /\
    ce_calls client_answered !! 0%nat = Some st /\ payload q = [7; 7; 7] /\
    filter (fun x => packet_id x.1 = call_id st) (handed (se_actor server_answered)) = [(q, an_responder an)] /\
    arrives (H := tag_codec) 100 (an_packet an) p.
Proof.
  unfold client_answered, server_answered.
  destruct (ce_results (client_run _ _ _) !! 0%nat) as [[[p|]| |]|] eqn:Hres; try (vm_compute in Hres; discriminate Hres).
  assert (Hopen : opened_client 1 (small_transport 1)).
  { split_and!; [done|apply small_good; by left|]. exists 1. split; [vm_compute; reflexivity|vm_compute; discriminate]. }
  destruct (answers_match_their_requests (C := tag_codec) (L := tag_codec_laws) (T := Target64) 1 9
    (small_transport 1) (small_transport 9) small_table small_info 8 sample_calls sample_acts 100 100 0 p Hopen
    ltac:(vm_compute; discriminate) (small_good 9 ltac:(by right)) ltac:(vm_compute; discriminate)) as
    (st & q & an & Hst & Hq & _ & _ & Han & Hd & Hd').
  - apply pass_transmitted; vm_compute; reflexivity.
  - apply pass_transmitted; vm_compute; reflexivity.
  - exact Hres.
  - exists p, st, q, an. split_and!; [reflexivity| |exact Hst| |exact Hq|exact Han].
    + vm_compute in Hres. injection Hres as <-. reflexivity.
    + vm_compute in Hst. injection Hst as <-. apply Hd. split; [vm_compute; discriminate|reflexivity].
Defined.
