(* ===== verification/Links.v ===== *)
(** * The links of a conversation

    What [transmitted] asks of a link, from the event loops of the two ends of a
    TCP, WebSocket or QUIC connection and the event pipe behind the reader. *)

From S2P Require Import Prelude Packet Errors Stream Events Registry RegistryInv Writes Adapters Quic WebSocket TcpLoop Conversation.

Lemma prefix_sublist {A} (l k : list A) : l `prefix_of` k -> l `sublist_of` k.
Proof. intros [z ->]. by apply sublist_inserts_r. Qed.

Lemma among {A} (P : A -> Prop) l k : l `sublist_of` k -> Forall P k -> Forall P l.
Proof. rewrite !Forall_forall. intros Hs Hk x Hx. by eapply Hk, elem_of_sublist. Qed.

Lemma written_among (items past rest written : list OutboundItem) : items = past ++ rest -> written `sublist_of` past ->
  map ob_packet written `sublist_of` map ob_packet items /\ forall P, Forall P items -> Forall P written.
Proof.
  intros -> Hsub. split; [apply fmap_sublist; by apply sublist_inserts_r|].
  intros P HP. rewrite Forall_forall in HP. apply Forall_forall. intros x Hx. apply HP, elem_of_app. left.
  by eapply elem_of_sublist.
Qed.

Section Tcp.
Context `{C : Codecs} `{T : Target} (debug : TcpError -> string).

(** The packets of the sender's queue, in the order they were queued, with what
    the pipe yields of those the reader's loop handed to it: whatever the two
    loops do, as long as the bytes received are a beginning of those sent. *)
Lemma tcp_link_transmits idle_a idle_b limits_a limits_b pool_a pool_b now_a now_b items io_a items_b io_b ls_a ls_b
    max accepted received :
  unresolved items (io_receipts io_a) -> limits_ok limits_b ->
  Forall (fun it => packet_ok (ob_packet it) /\ fits limits_b (ob_packet it)) items ->
  let a := tcp_run debug idle_a ls_a (start_event_loop idle_a now_a limits_a pool_a items io_a) in
  let b := tcp_run debug idle_b ls_b (start_event_loop idle_b now_b limits_b pool_b items_b io_b) in
  tl_received b `prefix_of` tl_wire a ->
  accepted `sublist_of` tl_delivered b -> Forall2 (arrives max) accepted received ->
  transmitted max (map ob_packet items) received.
Proof.
  intros Hun Hl Hfit a b Hpre Hacc Hpipe. exists accepted. split; [|done].
  destruct (reader_position debug idle_a idle_b limits_b items io_a Hun Hl Hfit ls_a ls_b
    (start_event_loop idle_a now_a limits_a pool_a items io_a) (start_event_loop idle_b now_b limits_b pool_b items_b io_b)
    (tcp_start_sound idle_a items io_a now_a limits_a pool_a) eq_refl
    (fun ps ws Hps Hws => start_reads idle_b limits_b ps ws Hps Hws now_b pool_b items_b io_b) Hpre) as
    (past & written & frames & tail & ps & ws & k & [H1 H2 _ _ _ _ _] & [_ K2 _ _ _] & Hk).
  fold b in K2.
  destruct H2 as (_ & _ & _ & _ & _ & _ & Hsub). etrans; [exact Hacc|].
  rewrite take_app_le in K2 by (by rewrite length_map). transitivity (map ob_packet written).
  - apply prefix_sublist. exists (TcpLoop.handed b ++ drop k (map ob_packet written)). by rewrite app_assoc, K2, take_drop.
  - by eapply written_among.
Qed.
End Tcp.

Section Messages.
Context `{C : Codecs} `{T : Target}.

(** The same of a WebSocket connection, one packet per binary message. *)
Lemma websocket_link_transmits keepalive decode_limits now items io ls policy limits ms max accepted received :
  unresolved items (io_receipts io) -> limits_ok limits ->
  Forall (fun it => packet_ok (ob_packet it) /\ fits limits (ob_packet it)) items ->
  let w := WebSocket.ws_run keepalive decode_limits ls (WebSocket.start_event_loop keepalive now items io) in
  ms `prefix_of` WebSocket.wl_wire w ->
  accepted `sublist_of` WebSocket.packets_of policy limits ms -> Forall2 (arrives max) accepted received ->
  transmitted max (map ob_packet items) received.
Proof.
  intros Hun Hl Hfit w Hpre Hacc Hpipe. exists accepted. split; [|done].
  destruct (WebSocket.start_ok keepalive items io now) as [Hok He].
  destruct (WebSocket.run_ok keepalive decode_limits items io ls _ Hun Hok He) as [(past & written & lost & [_ _ _ H4 _ Hsub _] & _) _].
  pose proof (WebSocket.wire_well_closed keepalive decode_limits ls items io now) as Hk.
  assert (Hall : Forall (fun it => packet_ok (ob_packet it) /\ fits limits (ob_packet it)) (written ++ lost)) by (by eapply among).
  etrans; [exact Hacc|]. etrans; [apply prefix_sublist; by apply WebSocket.packets_of_prefix|].
  unfold w. rewrite (WebSocket.packets_of_binaries policy limits _ (written ++ lost) Hl Hk Hall H4). by apply fmap_sublist.
Qed.

(** And of a QUIC connection, whatever beginning of the stream arrives. *)
Lemma quic_link_transmits turns items st limits policy bs max accepted received :
  unresolved items (io_receipts st) -> limits_ok limits -> max_frame_size limits <= U32_MAX ->
  Forall (fun it => packet_ok (ob_packet it) /\ fits limits (ob_packet it)) items ->
  let '(wire, _, _, _) := Quic.quic_write_loop turns items st in
  forall fuel delivered e, bs `prefix_of` concat wire ->
    Quic.quic_read fuel policy (fun _ => true) (fun _ => true) limits 0 bs true = Some (delivered, e) ->
    (length items < fuel)%nat ->
    accepted `sublist_of` delivered -> Forall2 (arrives max) accepted received ->
    transmitted max (map ob_packet items) received.
Proof.
  intros Hun Hl H32 Hfit. pose proof (Quic.quic_write_accounted turns items st Hun) as H.
  destruct (Quic.quic_write_loop turns items st) as [[[wire sent] e] st'].
  destruct H as (written & lost & ws & vs & m & _ & Hwire & _ & Hws & Hvs & Hsub & _ & _).
  intros fuel delivered e' Hpre Hread Hfuel Hacc Hpipe. exists accepted. split; [|done].
  pose proof (sublist_length _ _ Hsub) as Hle.
  assert (Hall : Forall (fun it => packet_ok (ob_packet it) /\ fits limits (ob_packet it)) (written ++ lost)) by (by eapply among).
  destruct (Quic.prefix_read limits Hl policy written lost ws vs m H32 Hws Hvs Hall bs fuel) as (k & Hk); [lia|by rewrite <- Hwire|].
  rewrite Hread in Hk. injection Hk as -> _. etrans; [exact Hacc|]. apply fmap_sublist. etrans; [apply sublist_take|exact Hsub].
Qed.
End Messages.
