(* ===== verification/Retry.v ===== *)
(** * Connecting with retries: the retry policy of
      [crates/msgtrans/src/transport/client.rs]

    The policy's builder, the back-off delay in 64-bit floating point, and the
    retry loop over the outcomes of the connection attempts. Durations are
    nanoseconds. *)

From Stdlib Require Import SpecFloat.
From S2P Require Import Prelude Packet Errors.

(** ** [f64] and [Duration] *)

Abbreviation f64 := spec_float (only parsing).

Definition f64_mul : f64 -> f64 -> f64 := SFmul 53 1024.
Definition f64_add : f64 -> f64 -> f64 := SFadd 53 1024.
Definition f64_div : f64 -> f64 -> f64 := SFdiv 53 1024.
(** [n as f64], to the nearest, ties to even. *)
Definition f64_of_Z (n : Z) : f64 := binary_normalize 53 1024 n 0 false.

Definition is_finite (x : f64) : bool :=
  match x with S754_zero _ | S754_finite _ _ _ => true | _ => false end.

(** The value of a finite float in units of [2 ^ d], [d] at most its exponent. *)
Definition units (d : Z) (x : f64) : Z :=
  match x with S754_finite s m e => cond_Zopp s (Zpos m * 2 ^ (e - d)) | _ => 0 end.
Definition exponent (x : f64) : Z := match x with S754_finite _ _ e => e | _ => 0 end.

Definition f64_ltb (x y : f64) : bool :=
  match x, y with
  | S754_nan, _ | _, S754_nan => false
  | S754_infinity s, S754_infinity s' => s && negb s'
  | S754_infinity s, _ => s
  | _, S754_infinity s => negb s
  | _, _ => let d := Z.min (exponent x) (exponent y) in units d x <? units d y
  end.
Definition f64_leb (x y : f64) : bool :=
  match x, y with
  | S754_nan, _ | _, S754_nan => false
  | _, _ => negb (f64_ltb y x)
  end.

(** [f64::clamp] asserts [min <= max]. *)
Definition f64_clamp (lo hi x : f64) : exec TransportError f64 :=
  if f64_leb lo hi then
    let x := if f64_ltb x lo then lo else x in
    Done (if f64_ltb hi x then hi else x)
  else Panic.

Definition NANOS_PER_SEC : Z := 1000000000.
Definition Duration_MAX : Z := 2 ^ 64 * NANOS_PER_SEC - 1.

Definition as_secs_f64 (d : Z) : f64 :=
  f64_add (f64_of_Z (d / NANOS_PER_SEC)) (f64_div (f64_of_Z (d mod NANOS_PER_SEC)) (f64_of_Z NANOS_PER_SEC)).

(** [a / b] to the nearest integer, ties to even. *)
Definition round_div (a b : Z) : Z :=
  let q := a / b in
  let r := a mod b in
  match 2 * r ?= b with
  | Lt => q
  | Eq => if Z.even q then q else q + 1
  | Gt => q + 1
  end.

(** [Duration::from_secs_f64] panics on a negative, an infinite or an
    unrepresentable number of seconds, and on a NaN. *)
Definition from_secs_f64 (x : f64) : exec TransportError Z :=
  match x with
  | S754_zero _ => Done 0
  | S754_finite false m e =>
      if 2 ^ Z.max 0 (- e) * 2 ^ 64 <=? Zpos m * 2 ^ Z.max 0 e then Panic
      else Done (round_div (Zpos m * 2 ^ Z.max 0 e * NANOS_PER_SEC) (2 ^ Z.max 0 (- e)))
  | _ => Panic
  end.

(** ** The policy *)

Record RetryConfig := mkRetry {
  max_retries : nat;
  initial_delay : Z;
  max_delay : Z;
  backoff_multiplier : f64
}.

Definition exponential_backoff (retries : nat) (initial : Z) : RetryConfig :=
  mkRetry retries initial (30 * NANOS_PER_SEC) (f64_of_Z 2).
Definition set_backoff_multiplier (multiplier : f64) (c : RetryConfig) : RetryConfig :=
  mkRetry (max_retries c) (initial_delay c) (max_delay c)
    (if is_finite multiplier && f64_leb (f64_of_Z 1) multiplier then multiplier else f64_of_Z 1).
Definition set_max_delay (d : Z) (c : RetryConfig) : RetryConfig :=
  mkRetry (max_retries c) (initial_delay c) d (backoff_multiplier c).
Definition set_max_retries (n : nat) (c : RetryConfig) : RetryConfig :=
  mkRetry n (initial_delay c) (max_delay c) (backoff_multiplier c).
Definition RetryConfig_default : RetryConfig :=
  mkRetry 3 (100 * 1000000) (10 * NANOS_PER_SEC) (f64_of_Z 2).

(** ** The loop *)

(** [attempt as i32]. *)
Definition as_i32 (n : Z) : Z := let u := wrap 32 n in if u <? 2 ^ 31 then u else u - 2 ^ 32.

Section Loop.
(** [f64::powi], whose precision the language leaves to the platform. *)
Context (powi : f64 -> Z -> f64).

Definition backoff (c : RetryConfig) (attempt : nat) : f64 :=
  f64_mul (as_secs_f64 (initial_delay c)) (powi (backoff_multiplier c) (as_i32 (Z.of_nat attempt))).

Definition calculate_retry_delay (c : RetryConfig) (attempt : nat) : exec TransportError Z :=
  let delay := backoff c attempt in
  let max := as_secs_f64 (max_delay c) in
  delay ← (if is_finite delay then f64_clamp (S754_zero false) max delay else Done max);
  from_secs_f64 delay.

(** [build n]: what the [n]-th connection attempt came to. The delays slept and
    the result; [more] attempts are left. *)
Fixpoint connect_loop {A} (c : RetryConfig) (build : nat -> exec TransportError A) (more attempt : nat)
    (last_error : option TransportError) : list Z * exec TransportError A :=
  match more with
  | O => ([], Throw (default (connection_error "Connection failed after all retries" true) last_error))
  | S more =>
      match (if (0 <? attempt)%nat then calculate_retry_delay c attempt else Done 0) with
      | Done delay =>
          let slept := if (0 <? attempt)%nat then [delay] else [] in
          match build attempt with
          | Throw e =>
              if negb (is_retryable e) then (slept, Throw e)
              else let '(ds, r) := connect_loop c build more (S attempt) (Some e) in (slept ++ ds, r)
          | r => (slept, r)
          end
      | _ => ([], Panic)
      end
  end.

(** [connect_with_stored_config]: [validated] is what [validate_dyn] answered,
    an error displayed. *)
Definition connect_with_stored_config {A} (c : RetryConfig) (validated : exec string unit)
    (build : nat -> exec TransportError A) : list Z * exec TransportError A :=
  match map_err (config_error "protocol") validated with
  | Done _ => connect_loop c build (S (max_retries c)) 0 None
  | Throw e => ([], Throw e)
  | Panic => ([], Panic)
  end.
End Loop.

(** ** Rounding keeps what lies below a power of two below it *)

Lemma iter_pos_iter {A} (f : A -> A) n : forall x, SpecFloat.iter_pos f n x = Nat.iter (Pos.to_nat n) f x.
Proof.
  assert (Hadd : forall a b x, Nat.iter a f (Nat.iter b f x) = Nat.iter (a + b) f x).
  { intros a b x. induction a as [|a IH]; [done|exact (f_equal f IH)]. }
  induction n as [n IH|n IH|]; intros x; cbn [SpecFloat.iter_pos]; [| |done].
  - rewrite !IH, Hadd, Pos2Nat.inj_xI. change (f x) with (Nat.iter 1 f x). rewrite Hadd. f_equal. lia.
  - rewrite !IH, Hadd, Pos2Nat.inj_xO. f_equal. lia.
Qed.

Definition exact (mrs : shr_record) : Prop := shr_r mrs = false /\ shr_s mrs = false.

Lemma shr_1_half mrs : 0 <= shr_m mrs ->
  shr_m (shr_1 mrs) = shr_m mrs / 2 /\ (exact mrs -> shr_m mrs mod 2 = 0 -> exact (shr_1 mrs)).
Proof.
  destruct mrs as [m r s]. cbn [shr_m]. intros Hm. unfold exact. cbn [shr_r shr_s].
  destruct m as [|[p|p|]|p]; try lia; cbn; (split; [|intros [-> ->] Hz; split; try done]).
  - done.
  - change (p~1)%positive with (2 * p + 1)%positive. rewrite Pos2Z.inj_add, Pos2Z.inj_mul.
    rewrite Z.add_comm, Z.mul_comm, Z.div_add by lia. done.
  - exfalso. change (p~1)%positive with (2 * p + 1)%positive in Hz. rewrite Pos2Z.inj_add, Pos2Z.inj_mul in Hz.
    rewrite Z.add_comm, Z.mul_comm, Z.mod_add in Hz by lia. done.
  - change (p~0)%positive with (2 * p)%positive. rewrite Pos2Z.inj_mul, Z.mul_comm, Z.div_mul by lia. done.
  - done.
Qed.

Lemma shr_iter n mrs : 0 <= shr_m mrs ->
  shr_m (Nat.iter n shr_1 mrs) = shr_m mrs / 2 ^ Z.of_nat n /\
  (exact mrs -> shr_m mrs mod 2 ^ Z.of_nat n = 0 -> exact (Nat.iter n shr_1 mrs)).
Proof.
  intros Hm. induction n as [|n [IH1 IH2]]; [by rewrite Z.div_1_r|]. cbn [Nat.iter nat_rect].
  change (nat_rect _ mrs (fun _ => shr_1) n) with (Nat.iter n shr_1 mrs).
  pose proof (Z.pow_pos_nonneg 2 (Z.of_nat n) ltac:(lia) ltac:(lia)) as Hp.
  assert (Hq : 0 <= shr_m mrs / 2 ^ Z.of_nat n) by (by apply Z.div_pos).
  destruct (shr_1_half (Nat.iter n shr_1 mrs)) as [H1 H2]; [by rewrite IH1|]. rewrite IH1 in H1, H2.
  rewrite Nat2Z.inj_succ, Z.pow_succ_r, (Z.mul_comm 2) by lia. split; [by rewrite H1, Z.div_div by lia|].
  intros He Hz. rewrite Z.rem_mul_r in Hz by lia.
  pose proof (Z.mod_pos_bound (shr_m mrs) (2 ^ Z.of_nat n) Hp).
  pose proof (Z.mod_pos_bound (shr_m mrs / 2 ^ Z.of_nat n) 2 ltac:(lia)).
  assert (shr_m mrs / 2 ^ Z.of_nat n mod 2 = 0) by nia. apply H2; [|done]. apply IH2; [done|]. nia.
Qed.

Lemma digits2_bound p : 2 ^ (Zpos (digits2_pos p) - 1) <= Zpos p < 2 ^ Zpos (digits2_pos p).
Proof.
  induction p as [p IH|p IH|]; cbn [digits2_pos]; [| |done];
    rewrite Pos2Z.inj_succ, Z.pow_succ_r by lia; replace (Z.succ (Zpos (digits2_pos p)) - 1) with (Z.succ (Zpos (digits2_pos p) - 1)) by lia;
    rewrite Z.pow_succ_r by lia; lia.
Qed.

Lemma digits2_upper k p : 0 <= k -> Zpos p <= 2 ^ k -> Zpos (digits2_pos p) <= k + 1.
Proof.
  intros Hk Hp. destruct (digits2_bound p) as [H _]. destruct (Z.le_gt_cases (Zpos (digits2_pos p)) (k + 1)); [done|].
  assert (2 ^ (k + 1) <= 2 ^ (Zpos (digits2_pos p) - 1)) by (apply Z.pow_le_mono_r; lia).
  rewrite Z.pow_add_r in * by lia. lia.
Qed.

(** At most [2 ^ k] in value, and neither negative nor infinite. *)
Definition below (k : Z) (x : f64) : Prop :=
  match x with
  | S754_zero s => s = false
  | S754_finite s m e => s = false /\ e <= k /\ Zpos m <= 2 ^ (k - e)
  | _ => False
  end.

(** A truncated mantissa and what was lost of it. *)
Definition truncation (k e : Z) (m : Z) (l : location) : Prop :=
  0 <= m /\ e <= k /\ match l with loc_Exact => m <= 2 ^ (k - e) | _ => m < 2 ^ (k - e) end.

Lemma shr_fexp_truncation k e m l : -1000 <= k -> truncation k e m l ->
  let '(mrs, e') := shr_fexp 53 1024 m e l in truncation k e' (shr_m mrs) (loc_of_shr_record mrs).
Proof.
  intros Hk (Hm & He & Hl). unfold shr_fexp, shr.
  assert (Hle : m <= 2 ^ (k - e)) by (destruct l; lia).
  assert (Hmrs : shr_m (shr_record_of_loc m l) = m) by (by destruct l as [|[]]).
  assert (Hloc : loc_of_shr_record (shr_record_of_loc m l) = l) by (by destruct l as [|[]]).
  assert (Hdig : Zdigits2 m <= k - e + 1).
  { destruct m as [|p|p]; [cbn; lia| |lia]. apply (digits2_upper (k - e)); [lia|done]. }
  assert (Hf : fexp 53 1024 (Zdigits2 m + e) <= k) by (unfold fexp, emin; lia).
  destruct (fexp 53 1024 (Zdigits2 m + e) - e) as [|n|n] eqn:En;
    [unfold truncation; rewrite Hmrs, Hloc; done| |unfold truncation; rewrite Hmrs, Hloc; done].
  rewrite iter_pos_iter. destruct (shr_iter (Pos.to_nat n) (shr_record_of_loc m l)) as [H1 H2]; [lia|].
  rewrite Hmrs, positive_nat_Z in H1, H2. set (mrs := Nat.iter _ _ _) in *.
  assert (Hp : 0 < 2 ^ Zpos n) by (apply Z.pow_pos_nonneg; lia).
  assert (Hsplit : 2 ^ (k - e) = 2 ^ (k - (e + Zpos n)) * 2 ^ Zpos n) by (rewrite <- Z.pow_add_r by lia; f_equal; lia).
  unfold truncation. rewrite H1. split_and!; [by apply Z.div_pos|lia|].
  assert (Hdiv : m / 2 ^ Zpos n <= 2 ^ (k - (e + Zpos n))) by (apply Z.div_le_upper_bound; lia).
  destruct (Z.eq_dec (m mod 2 ^ Zpos n) 0) as [Hz|Hz].
  - destruct l as [|c]; [|assert (m / 2 ^ Zpos n < 2 ^ (k - (e + Zpos n))) by (apply Z.div_lt_upper_bound; lia);
      destruct (loc_of_shr_record mrs); lia].
    destruct (H2 (conj eq_refl eq_refl) Hz) as [Hr Hs]. destruct mrs as [m' r s]. cbn in *. by subst.
  - assert (m / 2 ^ Zpos n < 2 ^ (k - (e + Zpos n))).
    { pose proof (Z.div_mod m (2 ^ Zpos n) ltac:(lia)). pose proof (Z.mod_pos_bound m (2 ^ Zpos n) Hp). nia. }
    destruct (loc_of_shr_record mrs); lia.
Qed.

Lemma round_truncation k e m l : truncation k e m l -> truncation k e (round_nearest_even m l) loc_Exact.
Proof. intros (Hm & He & Hl). unfold truncation, round_nearest_even. destruct l as [|[]]; repeat case_match; lia. Qed.

Lemma binary_round_aux_below k m e l : -1000 <= k <= 971 -> truncation k e m l ->
  below k (binary_round_aux 53 1024 false m e l).
Proof.
  intros Hk Ht. unfold binary_round_aux. pose proof (shr_fexp_truncation k e m l ltac:(lia) Ht) as H1.
  destruct (shr_fexp 53 1024 m e l) as [mrs e1]. apply round_truncation in H1.
  pose proof (shr_fexp_truncation k e1 _ _ ltac:(lia) H1) as H2.
  destruct (shr_fexp 53 1024 (round_nearest_even (shr_m mrs) (loc_of_shr_record mrs)) e1 loc_Exact) as [mrs' e2].
  destruct H2 as (Hm & He & Hl). destruct (shr_m mrs') as [|p|p]; [done| |lia].
  assert (Hle : Zpos p <= 2 ^ (k - e2)) by (destruct (loc_of_shr_record mrs'); lia).
  destruct (Z.leb_spec e2 (1024 - 53)); [done|lia].
Qed.

Lemma shl_align_value m e e' : e' <= e -> let '(m', e'') := shl_align m e e' in
  e'' = e' /\ Zpos m' = Zpos m * 2 ^ (e - e').
Proof.
  intros He. unfold shl_align. destruct (e' - e) as [|d|d] eqn:Ed; [|lia|].
  - replace (e - e') with 0 by lia. rewrite Z.mul_1_r. split; [lia|done].
  - split; [done|]. replace (e - e') with (Zpos d) by lia. clear.
    induction d as [|d IH] using Pos.peano_ind; [cbn [Pos.iter]; lia|].
    rewrite Pos.iter_succ, Pos2Z.inj_succ, Z.pow_succ_r, Pos2Z.inj_xO, IH by lia. lia.
Qed.

Lemma binary_round_below k m e : -1000 <= k <= 971 -> e <= k -> Zpos m <= 2 ^ (k - e) ->
  below k (binary_round 53 1024 false m e).
Proof.
  intros Hk He Hm. unfold binary_round. set (t := fexp 53 1024 (Zpos (digits2_pos m) + e)).
  destruct (Z.le_gt_cases t e) as [Hle|Hgt].
  - pose proof (shl_align_value m e t Hle) as H. destruct (shl_align m e t) as [m' e'']. destruct H as [-> H].
    apply binary_round_aux_below; [done|]. unfold truncation. rewrite H. split_and!; [lia..|].
    replace (k - t) with (k - e + (e - t)) by lia. rewrite Z.pow_add_r by lia.
    apply Z.mul_le_mono_nonneg_r; [|done]. apply Z.pow_nonneg. lia.
  - unfold shl_align. replace (t - e) with (Zpos (Z.to_pos (t - e))) by lia.
    apply binary_round_aux_below; [done|]. unfold truncation. lia.
Qed.

Lemma f64_of_Z_below k n : 0 <= k <= 971 -> 0 <= n <= 2 ^ k -> below k (f64_of_Z n).
Proof.
  intros Hk Hn. unfold f64_of_Z, binary_normalize. destruct n as [|p|p]; [done| |lia].
  apply binary_round_below; [lia..|]. rewrite Z.sub_0_r. lia.
Qed.

Lemma below_mono k k' x : k <= k' -> below k x -> below k' x.
Proof.
  intros Hk. destruct x as [s| | |s m e]; cbn; try done. intros (-> & He & Hm). split_and!; [done|lia|].
  replace (k' - e) with (k - e + (k' - k)) by lia. rewrite Z.pow_add_r by lia.
  pose proof (Z.pow_pos_nonneg 2 (k' - k) ltac:(lia) ltac:(lia)). nia.
Qed.

Lemma f64_add_below k x y : -1000 <= k <= 970 -> below k x -> below k y -> below (k + 1) (f64_add x y).
Proof.
  intros Hk Hx Hy. assert (Hmono : forall z, below k z -> below (k + 1) z) by (intros z; apply below_mono; lia).
  destruct x as [sx| | |sx mx ex]; try done; destruct y as [sy| | |sy my ey]; try done; unfold f64_add, SFadd.
  - cbn in Hx, Hy. by subst.
  - by apply Hmono.
  - by apply Hmono.
  - destruct Hx as (-> & Hex & Hmx), Hy as (-> & Hey & Hmy). cbn [cond_Zopp].
    pose proof (shl_align_value mx ex (Z.min ex ey) ltac:(lia)) as H1.
    pose proof (shl_align_value my ey (Z.min ex ey) ltac:(lia)) as H2.
    destruct (shl_align mx ex _) as [mx' ex'], (shl_align my ey _) as [my' ey']. cbn [fst].
    destruct H1 as [_ H1], H2 as [_ H2]. rewrite <- Pos2Z.inj_add. cbn [binary_normalize].
    apply binary_round_below; [lia..|]. rewrite Pos2Z.inj_add, H1, H2.
    assert (forall m e, Z.min ex ey <= e <= k -> m <= 2 ^ (k - e) ->
      m * 2 ^ (e - Z.min ex ey) <= 2 ^ (k - Z.min ex ey)) as Hs.
    { intros m e He Hm. replace (k - Z.min ex ey) with (k - e + (e - Z.min ex ey)) by lia.
      rewrite Z.pow_add_r by lia. apply Z.mul_le_mono_nonneg_r; [|done]. apply Z.pow_nonneg. lia. }
    replace (k + 1 - Z.min ex ey) with (k - Z.min ex ey + 1) by lia. rewrite Z.pow_add_r by lia.
    pose proof (Hs (Zpos mx) ex ltac:(lia) Hmx). pose proof (Hs (Zpos my) ey ltac:(lia) Hmy). lia.
Qed.

(** Small integers are exact. *)
Lemma f64_of_Z_exact n : 0 < n < 2 ^ 53 ->
  exists m e, f64_of_Z n = S754_finite false m e /\ -52 <= e <= 0 /\ Zpos m = n * 2 ^ (- e) /\
    Zpos (digits2_pos m) = 53.
Proof.
  intros Hn. destruct n as [|p|p]; try lia. unfold f64_of_Z, binary_normalize, binary_round.
  pose proof (digits2_bound p) as [Hd1 Hd2]. set (d := Zpos (digits2_pos p)) in *.
  assert (Hd : 1 <= d <= 53).
  { split; [lia|]. destruct (Z.le_gt_cases d 53); [done|].
    pose proof (Z.pow_le_mono_r 2 53 (d - 1) ltac:(lia) ltac:(lia)). lia. }
  replace (fexp 53 1024 (d + 0)) with (d - 53) by (unfold fexp, emin; lia).
  pose proof (shl_align_value p 0 (d - 53) ltac:(lia)) as H. destruct (shl_align p 0 (d - 53)) as [m e].
  destruct H as [-> Hm]. exists m, (d - 53). rewrite Z.sub_0_l in Hm.
  assert (Hdm : Zpos (digits2_pos m) = 53).
  { pose proof (digits2_bound m) as [Hm1 Hm2]. rewrite Hm in Hm1, Hm2.
    assert (Hlo : 2 ^ 52 <= Zpos p * 2 ^ (- (d - 53))).
    { replace 52 with (d - 1 + - (d - 53)) by lia. rewrite Z.pow_add_r by lia.
      apply Z.mul_le_mono_nonneg_r; [apply Z.pow_nonneg; lia|done]. }
    assert (Hhi : Zpos p * 2 ^ (- (d - 53)) < 2 ^ 53).
    { replace 53 with (d + - (d - 53)) at 2 by lia. rewrite Z.pow_add_r by lia.
      apply Z.mul_lt_mono_pos_r; [apply Z.pow_pos_nonneg; lia|done]. }
    destruct (Z.lt_trichotomy (Zpos (digits2_pos m)) 53) as [Hlt|[|Hgt]]; [|done|].
    - pose proof (Z.pow_le_mono_r 2 (Zpos (digits2_pos m)) 52 ltac:(lia) ltac:(lia)). lia.
    - pose proof (Z.pow_le_mono_r 2 53 (Zpos (digits2_pos m) - 1) ltac:(lia) ltac:(lia)). lia. }
  assert (Hshift : fexp 53 1024 (Zpos (digits2_pos m) + (d - 53)) - (d - 53) = 0)
    by (rewrite Hdm; unfold fexp, emin; lia).
  split_and!; [|lia..|done|done].
  unfold binary_round_aux, shr_fexp. cbn [Zdigits2 shr_record_of_loc]. rewrite Hshift. cbn [shr shr_m loc_of_shr_record round_nearest_even].
  cbn [Zdigits2]. rewrite Hshift. cbn [shr shr_m]. by destruct (Z.leb_spec (d - 53) (1024 - 53)); [|lia].
Qed.

(** The nanoseconds of a second, as a fraction of it. *)
Lemma fraction_below n : 0 <= n < NANOS_PER_SEC -> below 0 (f64_div (f64_of_Z n) (f64_of_Z NANOS_PER_SEC)).
Proof.
  intros Hn. destruct (f64_of_Z_exact NANOS_PER_SEC) as (my & ey & -> & Hey & Hmy & Hdy); [unfold NANOS_PER_SEC; lia|].
  destruct (Z.eq_dec n 0) as [->|]; [done|].
  destruct (f64_of_Z_exact n) as (mx & ex & -> & Hex & Hmx & Hdx); [unfold NANOS_PER_SEC in *; lia|].
  unfold f64_div, SFdiv. cbn [xorb]. unfold SFdiv_core_binary.
  set (e' := Z.min _ (ex - ey)). assert (He' : e' <= 0 /\ e' <= ex - ey).
  { unfold e', fexp, emin. cbn [Zdigits2]. rewrite Hdx, Hdy. lia. }
  clearbody e'. remember (ex - ey - e') as s eqn:Es.
  assert (match s with Z0 => Zpos mx | Zpos _ => Z.shiftl (Zpos mx) s | Zneg _ => 0 end = Zpos mx * 2 ^ s) as ->.
  { destruct s as [|s'|s']; [lia|by rewrite Z.shiftl_mul_pow2 by lia|lia]. }
  pose proof (Z_div_mod (Zpos mx * 2 ^ s) (Zpos my) ltac:(lia)) as Hdiv.
  destruct (Z.div_eucl _ _) as [q r]. destruct Hdiv as [Hq Hr].
  apply binary_round_aux_below; [lia|].
  assert (Hlt : Zpos mx * 2 ^ s < Zpos my * 2 ^ (0 - e')).
  { rewrite Hmx, Hmy, <- !Z.mul_assoc, <- !Z.pow_add_r by lia.
    replace (- ey + (0 - e')) with (- ex + s) by lia. apply Z.mul_lt_mono_pos_r; [apply Z.pow_pos_nonneg; lia|lia]. }
  pose proof (Z.mul_nonneg_nonneg (Zpos mx) (2 ^ s) ltac:(lia) ltac:(apply Z.pow_nonneg; lia)).
  assert (Hq' : 0 <= q < 2 ^ (0 - e')) by nia.
  unfold truncation. split_and!; [lia..|]. case_match; lia.
Qed.

Lemma as_secs_below d : 0 <= d <= 2 ^ 60 * NANOS_PER_SEC -> below 61 (as_secs_f64 d).
Proof.
  intros Hd. apply (f64_add_below 60); [lia| |].
  - apply f64_of_Z_below; [lia|]. split; [apply Z.div_pos|apply Z.div_le_upper_bound]; unfold NANOS_PER_SEC in *; lia.
  - apply (below_mono 0); [lia|]. by apply fraction_below, Z.mod_pos_bound.
Qed.

(** ** Seconds back to nanoseconds *)

Lemma round_div_nonneg a b : 0 <= a -> 0 < b -> 0 <= round_div a b.
Proof. intros Ha Hb. unfold round_div. pose proof (Z.div_pos a b Ha Hb). repeat case_match; lia. Qed.

Lemma round_div_mono a a' b b' : 0 < b -> 0 < b' -> a * b' <= a' * b -> round_div a b <= round_div a' b'.
Proof.
  intros Hb Hb' Hle. unfold round_div.
  pose proof (Z.div_mod a b ltac:(lia)) as Ha. pose proof (Z.div_mod a' b' ltac:(lia)) as Ha'.
  pose proof (Z.mod_pos_bound a b Hb). pose proof (Z.mod_pos_bound a' b' Hb').
  set (q := a / b) in *. set (r := a mod b) in *. set (q' := a' / b') in *. set (r' := a' mod b') in *. clearbody q r q' r'.
  subst a a'. assert (Hq : q <= q').
  { destruct (Z.le_gt_cases q q'); [done|]. exfalso.
    assert (0 <= b * b' * (q - q' - 1)) by (apply Z.mul_nonneg_nonneg; nia).
    assert (0 <= r * b') by nia. assert (r' * b < b' * b) by nia. lia. }
  destruct (Z.eq_dec q q') as [->|]; [|repeat case_match; lia].
  assert (Hr : r * b' <= r' * b) by nia.
  destruct (Z.compare_spec (2 * r) b), (Z.compare_spec (2 * r') b'); repeat case_match; try lia; exfalso; nia.
Qed.

Lemma round_div_exact a b : 0 < b -> round_div (a * b) b = a.
Proof. intros Hb. unfold round_div. rewrite Z.div_mul, Z.mod_mul by lia. by destruct b. Qed.

Lemma from_secs_below x : below 61 x -> exists n, from_secs_f64 x = Done n /\ 0 <= n.
Proof.
  destruct x as [s| | |s m e]; try done; cbn; [by exists 0|]. intros (-> & He & Hm).
  assert (Zpos m * 2 ^ Z.max 0 e < 2 ^ Z.max 0 (- e) * 2 ^ 64).
  { rewrite <- Z.pow_add_r by lia. replace (Z.max 0 (- e) + 64) with (61 - e + (Z.max 0 e + 3)) by lia.
    rewrite Z.pow_add_r by lia. pose proof (Z.pow_pos_nonneg 2 (Z.max 0 e) ltac:(lia) ltac:(lia)).
    rewrite Z.pow_add_r by lia. nia. }
  zbool. eexists. split; [done|]. apply round_div_nonneg; [|by apply Z.pow_pos_nonneg; lia].
  apply Z.mul_nonneg_nonneg; [apply Z.mul_nonneg_nonneg; [lia|apply Z.pow_nonneg; lia]|done].
Qed.

Lemma from_secs_mono x hi cap : below 61 hi -> from_secs_f64 hi = Done cap -> is_finite x = true ->
  f64_ltb x (S754_zero false) = false -> f64_ltb hi x = false ->
  exists n, from_secs_f64 x = Done n /\ 0 <= n <= cap.
Proof.
  intros Hhi Hcap Hx H0 Hle. destruct (from_secs_below hi Hhi) as (cap' & Hcap' & Hpos).
  assert (cap' = cap) as -> by congruence.
  destruct x as [s| | |s m e]; try done; [by exists 0|]. destruct s.
  { exfalso. revert H0. cbn. apply not_false_iff_true, Z.ltb_lt.
    pose proof (Z.pow_pos_nonneg 2 (e - Z.min e 0) ltac:(lia) ltac:(lia)). nia. }
  destruct hi as [s'| | |s' m' e']; try done.
  { exfalso. revert Hle. cbn. apply not_false_iff_true, Z.ltb_lt.
    pose proof (Z.pow_pos_nonneg 2 (e - Z.min 0 e) ltac:(lia) ltac:(lia)). nia. }
  destruct Hhi as (-> & He' & Hm'). cbn [f64_ltb exponent units cond_Zopp] in Hle. apply Z.ltb_ge in Hle.
  rewrite (Z.min_comm e' e) in Hle. set (d := Z.min e e') in *.
  assert (Hcross : Zpos m * 2 ^ Z.max 0 e * 2 ^ Z.max 0 (- e') <= Zpos m' * 2 ^ Z.max 0 e' * 2 ^ Z.max 0 (- e)).
  { rewrite <- !Z.mul_assoc, <- !Z.pow_add_r by lia. set (c := d + Z.max 0 (- e) + Z.max 0 (- e')).
    replace (Z.max 0 e + Z.max 0 (- e')) with (e - d + c) by lia.
    replace (Z.max 0 e' + Z.max 0 (- e)) with (e' - d + c) by lia.
    rewrite !Z.pow_add_r, !Z.mul_assoc by lia. apply Z.mul_le_mono_nonneg_r; [apply Z.pow_nonneg; lia|done]. }
  pose proof (Z.pow_pos_nonneg 2 (Z.max 0 (- e)) ltac:(lia) ltac:(lia)) as Hp.
  pose proof (Z.pow_pos_nonneg 2 (Z.max 0 (- e')) ltac:(lia) ltac:(lia)) as Hp'.
  cbn [from_secs_f64] in Hcap |- *. destruct (Z.leb_spec (2 ^ Z.max 0 (- e') * 2 ^ 64) (Zpos m' * 2 ^ Z.max 0 e')) as [|Hlt]; [done|].
  injection Hcap as <-. destruct (Z.leb_spec (2 ^ Z.max 0 (- e) * 2 ^ 64) (Zpos m * 2 ^ Z.max 0 e)) as [Hge|_].
  { exfalso. nia. }
  eexists. split; [done|]. split; [|apply round_div_mono; [done..|]; unfold NANOS_PER_SEC; nia].
  apply round_div_nonneg; [|done]. unfold NANOS_PER_SEC. pose proof (Z.pow_nonneg 2 (Z.max 0 e) ltac:(lia)). nia.
Qed.

(** ** Properties *)

Section Properties.
Context (powi : f64 -> Z -> f64).

Lemma f64_ltb_irrefl x : f64_ltb x x = false.
Proof. destruct x as [s|[]| |s m e]; try done. cbn. apply Z.ltb_irrefl. Qed.

Lemma below_nonneg k x : below k x -> f64_leb (S754_zero false) x = true /\ f64_ltb x (S754_zero false) = false.
Proof.
  destruct x as [s| | |s m e]; try done. intros (-> & _). cbn.
  pose proof (Z.pow_pos_nonneg 2 (e - Z.min e 0) ltac:(lia) ltac:(lia)).
  split; [apply negb_true_iff|]; apply Z.ltb_ge; nia.
Qed.

Lemma calculate_retry_delay_capped c attempt cap : 0 <= max_delay c <= 2 ^ 60 * NANOS_PER_SEC ->
  from_secs_f64 (as_secs_f64 (max_delay c)) = Done cap ->
  exists d, calculate_retry_delay powi c attempt = Done d /\ 0 <= d <= cap.
Proof.
  intros Hd Hcap. pose proof (as_secs_below _ Hd) as Hb. unfold calculate_retry_delay.
  set (hi := as_secs_f64 (max_delay c)) in *. destruct (below_nonneg _ _ Hb) as [H0 Hlt].
  destruct (from_secs_below hi Hb) as (n & Hn & Hpos). assert (n = cap) as -> by congruence.
  destruct (is_finite (backoff powi c attempt)) eqn:Hf; [|exists cap; rewrite exec_bind_done; split; [done|lia]].
  unfold f64_clamp. rewrite H0, exec_bind_done.
  destruct (f64_ltb (backoff powi c attempt) (S754_zero false)) eqn:Hneg.
  - destruct (f64_ltb hi (S754_zero false)) eqn:E; [congruence|]. exists 0. split; [done|lia].
  - destruct (f64_ltb hi (backoff powi c attempt)) eqn:E; [exists cap; split; [done|lia]|].
    by apply (from_secs_mono _ hi).
Qed.

(** The delay before a retry never panics and never exceeds the configured
    maximum, whatever the initial delay, the multiplier (a NaN or an infinity
    included), the attempt and the platform's power function: it is at most the
    maximum read as seconds and back, which is the maximum itself when that is a
    whole number of seconds below [2 ^ 53]. The maximum may be as large as
    [2 ^ 60] seconds. *)
Theorem retry_delay_is_capped c attempt : 0 <= max_delay c <= 2 ^ 60 * NANOS_PER_SEC ->
  exists d cap, calculate_retry_delay powi c attempt = Done d /\
    from_secs_f64 (as_secs_f64 (max_delay c)) = Done cap /\ 0 <= d <= cap /\
    (forall s, max_delay c = s * NANOS_PER_SEC -> s < 2 ^ 53 -> cap = max_delay c).
Proof.
  intros Hd. destruct (from_secs_below _ (as_secs_below _ Hd)) as (cap & Hcap & _).
  destruct (calculate_retry_delay_capped c attempt cap Hd Hcap) as (d & Hcalc & Hle).
  exists d, cap. split_and!; try done; [lia..|]. intros s Hs Hlt. rewrite Hs in Hcap |- *.
  assert (Hs0 : 0 <= s) by (unfold NANOS_PER_SEC in *; lia). revert Hcap. unfold as_secs_f64.
  rewrite Z.div_mul, Z.mod_mul by done. destruct (Z.eq_dec s 0) as [->|Hne]; [cbn; by intros [= <-]|].
  destruct (f64_of_Z_exact s) as (m & e & -> & He & Hm & _); [lia|].
  change (f64_div (f64_of_Z 0) (f64_of_Z NANOS_PER_SEC)) with (S754_zero false). cbn [f64_add SFadd from_secs_f64].
  destruct (Z.leb _ _); [done|]. intros [= <-]. replace (Z.max 0 e) with 0 by lia. replace (Z.max 0 (- e)) with (- e) by lia.
  rewrite Hm, Z.mul_1_r. replace (s * 2 ^ (- e) * NANOS_PER_SEC) with (s * NANOS_PER_SEC * 2 ^ (- e)) by ring.
  apply round_div_exact, Z.pow_pos_nonneg; lia.
Qed.

(** Seconds that do not lie below [2 ^ 64] are no duration. *)
Lemma from_secs_overflow x : f64_ltb x (S754_finite false 4503599627370496 12) = false -> from_secs_f64 x = Panic.
Proof.
  destruct x as [s| | |s m e]; try done. destruct s; [done|]. cbn [f64_ltb exponent units cond_Zopp]. intros Hge%Z.ltb_ge.
  cbn [from_secs_f64]. destruct (Z.leb_spec (2 ^ Z.max 0 (- e) * 2 ^ 64) (Zpos m * 2 ^ Z.max 0 e)) as [|Hlt]; [done|].
  exfalso. set (d := Z.min e 12) in *. set (c := d + Z.max 0 (- e)).
  change 4503599627370496 with (2 ^ 52) in Hge. rewrite <- Z.pow_add_r in Hge by lia.
  replace (Z.max 0 e) with (e - d + c) in Hlt by lia. rewrite <- Z.pow_add_r in Hlt by lia.
  replace (Z.max 0 (- e) + 64) with (52 + (12 - d) + c) in Hlt by lia. rewrite !(Z.pow_add_r 2 _ c) in Hlt by lia.
  pose proof (Z.pow_pos_nonneg 2 c ltac:(lia) ltac:(lia)). nia.
Qed.

(** The cap itself can make the computation panic: with the longest duration
    as the maximum delay, which says never to cap, a back-off that is not below
    [2 ^ 64] seconds is clamped to [2 ^ 64] seconds, one more than a duration can
    hold, and the conversion back panics. *)
Theorem uncapped_retry_delay_panics c attempt : max_delay c = Duration_MAX ->
  f64_ltb (backoff powi c attempt) (as_secs_f64 Duration_MAX) = false ->
  calculate_retry_delay powi c attempt = Panic.
Proof.
  intros Hd Hlt. unfold calculate_retry_delay. rewrite Hd.
  assert (Hhi : as_secs_f64 Duration_MAX = S754_finite false 4503599627370496 12) by (vm_compute; reflexivity).
  rewrite Hhi in *. pose proof (from_secs_overflow _ (f64_ltb_irrefl _)) as Hmax.
  destruct (is_finite (backoff powi c attempt)) eqn:Hf; [|exact Hmax]. unfold f64_clamp.
  assert (f64_leb (S754_zero false) (S754_finite false 4503599627370496 12) = true) as -> by (vm_compute; reflexivity).
  rewrite exec_bind_done. destruct (f64_ltb (backoff powi c attempt) (S754_zero false)) eqn:Hneg.
  - exfalso. clear -Hlt Hneg Hf. destruct (backoff powi c attempt) as [s| | |s m e]; try done.
    destruct s; [revert Hlt|revert Hneg]; cbn; [intros H%Z.ltb_ge|intros H%Z.ltb_lt].
    + pose proof (Z.pow_pos_nonneg 2 (e - Z.min e 12) ltac:(lia) ltac:(lia)).
      pose proof (Z.pow_pos_nonneg 2 (12 - Z.min e 12) ltac:(lia) ltac:(lia)). nia.
    + pose proof (Z.pow_pos_nonneg 2 (e - Z.min e 0) ltac:(lia) ltac:(lia)). nia.
  - destruct (f64_ltb (S754_finite false 4503599627370496 12) (backoff powi c attempt)); [exact Hmax|].
    by apply from_secs_overflow.
Qed.

(** ** The loop *)

(** What the attempts come to when the delays never panic: the first one that is
    not a retryable failure, or the last failure. *)
Fixpoint first_final {A} (build : nat -> exec TransportError A) (more attempt : nat) : option nat :=
  match more with
  | O => None
  | S more =>
      match build attempt with
      | Throw e => if is_retryable e then first_final build more (S attempt) else Some attempt
      | _ => Some attempt
      end
  end.

Lemma first_final_spec {A} (build : nat -> exec TransportError A) more : forall attempt,
  match first_final build more attempt with
  | Some k => (attempt <= k < attempt + more)%nat /\ (forall e, build k = Throw e -> is_retryable e = false) /\
      forall i, (attempt <= i < k)%nat -> exists e, build i = Throw e /\ is_retryable e = true
  | None => forall i, (attempt <= i < attempt + more)%nat -> exists e, build i = Throw e /\ is_retryable e = true
  end.
Proof.
  induction more as [|more IH]; intros attempt; cbn [first_final]; [intros i; lia|].
  destruct (build attempt) as [a|e|] eqn:Hb; [split_and!; [lia|lia|congruence|intros i; lia]| |split_and!; [lia|lia|congruence|intros i; lia]].
  destruct (is_retryable e) eqn:He.
  - specialize (IH (S attempt)). destruct (first_final build more (S attempt)) as [k|].
    + destruct IH as (H1 & H2 & H3). split_and!; [lia|lia|done|]. intros i Hi.
      destruct (decide (i = attempt)) as [->|]; [by exists e|]. apply H3. lia.
    + intros i Hi. destruct (decide (i = attempt)) as [->|]; [by exists e|]. apply IH. lia.
  - split_and!; [lia|lia| |intros i; lia]. intros e'. congruence.
Qed.

Lemma connect_loop_spec {A} c (build : nat -> exec TransportError A) cap more : forall attempt last,
  0 <= max_delay c <= 2 ^ 60 * NANOS_PER_SEC -> from_secs_f64 (as_secs_f64 (max_delay c)) = Done cap ->
  let '(ds, r) := connect_loop powi c build more attempt last in
  Forall (fun d => 0 <= d <= cap) ds /\
  match first_final build more attempt with
  | Some k => r = build k /\ length ds = (S k - Nat.max 1 attempt)%nat
  | None =>
      length ds = (attempt + more - Nat.max 1 attempt)%nat /\
      ((0 < more)%nat -> forall e, build (attempt + more - 1)%nat = Throw e -> r = Throw e)
  end.
Proof.
  induction more as [|more IH]; intros attempt last Hd Hcap; cbn [connect_loop first_final].
  { split_and!; [constructor|cbn [length]; lia|lia]. }
  assert (Hdelay : exists delay, (if (0 <? attempt)%nat then calculate_retry_delay powi c attempt else Done 0) = Done delay /\
    ((0 < attempt)%nat -> 0 <= delay <= cap)).
  { destruct (Nat.ltb_spec 0 attempt); [|exists 0; split; [done|lia]].
    destruct (calculate_retry_delay_capped c attempt cap Hd Hcap) as (d & ? & ?). by exists d. }
  destruct Hdelay as (delay & -> & Hdelay).
  set (slept := if (0 <? attempt)%nat then [delay] else []).
  assert (Hslept : Forall (fun d => 0 <= d <= cap) slept /\ length slept = (S attempt - Nat.max 1 attempt)%nat).
  { unfold slept. destruct (Nat.ltb_spec 0 attempt); (split; [|cbn [length]; lia]);
      [constructor; [by apply Hdelay|constructor]|constructor]. }
  destruct Hslept as [Hs Hl]. destruct (build attempt) as [a|e|] eqn:Hb; [by rewrite Hb| |by rewrite Hb].
  destruct (is_retryable e) eqn:He; cbn [negb]; [|by rewrite Hb].
  specialize (IH (S attempt) (Some e) Hd Hcap). destruct (connect_loop powi c build more (S attempt) (Some e)) as [ds r] eqn:Hrun.
  destruct IH as [IH1 IH2]. split; [by apply Forall_app|].
  pose proof (first_final_spec build more (S attempt)) as Hspec.
  destruct (first_final build more (S attempt)) as [k|].
  - destruct IH2 as [IH2 IH3]. rewrite length_app, IH3, Hl. split; [done|lia].
  - destruct IH2 as [IH2 IH3]. rewrite length_app, IH2, Hl. split; [lia|].
    intros _ e' Hlast. destruct more as [|more].
    + cbn in Hrun. injection Hrun as <- <-. cbn [default]. replace (attempt + 1 - 1)%nat with attempt in Hlast by lia. congruence.
    + apply IH3; [lia|]. by replace (S attempt + S more - 1)%nat with (attempt + S (S more) - 1)%nat by lia.
Qed.

(** Connecting makes the attempts one after another and returns the outcome
    of the first that is not a retryable failure, after as many capped delays as
    there were failures before it; when every one of the [max_retries + 1]
    attempts fails retryably it returns the last failure. *)
Theorem connect_returns_the_first_final_outcome {A} c (build : nat -> exec TransportError A) cap :
  0 <= max_delay c <= 2 ^ 60 * NANOS_PER_SEC -> from_secs_f64 (as_secs_f64 (max_delay c)) = Done cap ->
  let '(ds, r) := connect_with_stored_config powi c (Done tt) build in
  Forall (fun d => 0 <= d <= cap) ds /\
  exists k, (k <= max_retries c)%nat /\ r = build k /\ length ds = k /\
    (forall i, (i < k)%nat -> exists e, build i = Throw e /\ is_retryable e = true) /\
    ((k < max_retries c)%nat -> forall e, r = Throw e -> is_retryable e = false).
Proof.
  intros Hd Hcap. cbn [connect_with_stored_config map_err].
  pose proof (connect_loop_spec c build cap (S (max_retries c)) 0 None Hd Hcap) as H.
  pose proof (first_final_spec build (S (max_retries c)) 0) as Hf.
  destruct (connect_loop _ _ _ _ _ _) as [ds r]. destruct H as [H1 H2]. split; [done|].
  destruct (first_final build (S (max_retries c)) 0) as [k|].
  - destruct H2 as [-> H2], Hf as (Hf1 & Hf2 & Hf3). exists k. split_and!; [lia|done|lia| |by intros _].
    intros i Hi. apply Hf3. lia.
  - destruct H2 as [H2 H3]. exists (max_retries c). destruct (Hf (max_retries c)) as (e & He & _); [lia|].
    split_and!; [lia| |lia|intros i Hi; apply Hf; lia|lia].
    rewrite He. apply H3; [lia|]. by replace (0 + S (max_retries c) - 1)%nat with (max_retries c) by lia.
Qed.
End Properties.

(** ** Witnesses *)

(** A power function: repeated multiplication. *)
Definition powi_iter (x : f64) (n : Z) : f64 := Z.iter n (f64_mul x) (f64_of_Z 1).

Lemma retry_delay_witness :
  exists d cap, calculate_retry_delay powi_iter RetryConfig_default 9 = Done d /\
    from_secs_f64 (as_secs_f64 (10 * NANOS_PER_SEC)) = Done cap /\ 0 <= d <= cap /\
    (forall s, 10 * NANOS_PER_SEC = s * NANOS_PER_SEC -> s < 2 ^ 53 -> cap = 10 * NANOS_PER_SEC).
Proof. apply (retry_delay_is_capped powi_iter RetryConfig_default 9). vm_compute. split; discriminate. Defined.

Lemma uncapped_retry_delay_witness :
  calculate_retry_delay powi_iter (set_max_delay Duration_MAX (exponential_backoff 3 Duration_MAX)) 1 = Panic.
Proof. apply uncapped_retry_delay_panics; vm_compute; reflexivity. Defined.

Definition sample_attempts (n : nat) : exec TransportError Z :=
  match n with O => Throw (connection_error "refused" true) | S O => Done 7 | _ => Panic end.

Lemma connect_returns_witness :
  let '(ds, r) := connect_with_stored_config powi_iter RetryConfig_default (Done tt) sample_attempts in
  ds = [200000000] /\ r = Done 7 /\ Forall (fun d => 0 <= d <= 10 * NANOS_PER_SEC) ds.
Proof.
  pose proof (connect_returns_the_first_final_outcome powi_iter RetryConfig_default sample_attempts (10 * NANOS_PER_SEC)
    ltac:(vm_compute; split; discriminate) ltac:(vm_compute; reflexivity)) as H.
  assert (connect_with_stored_config powi_iter RetryConfig_default (Done tt) sample_attempts = ([200000000], Done 7))
    as Hrun by (vm_compute; reflexivity).
  rewrite Hrun in H |- *. destruct H as [H _]. by split_and!.
Defined.
