(* ===== verification/Client.v ===== *)
(** * The client: [crates/msgtrans/src/transport/client.rs], with the client
      events of [event.rs]

    A client owns one transport, the task that forwards the transport's events to
    the application, the fallback scanner and the teardown task. [connect] borrows
    the client exclusively, every other call shares it; each call is stepped from
    one await point to the next and may be dropped at any of them. *)

From Stdlib Require Import SpecFloat.
From S2P Require Import Prelude Packet Errors Limits Stream Events Registry Writes Transport Actor Retry.

(** ** Client events *)

Record ClientMessage := mkMessage {
  cm_peer : option SessionId;
  cm_message_id : Z;
  cm_biz_type : Z;
  cm_ext_header : option bytes;
  cm_data : bytes
}.

(** [cq_session]: the generation its responder is bound to; the registry is the
    transport's. *)
Record ClientRequest := mkRequest {
  cq_session : SessionId;
  cq_message_id : Z;
  cq_biz_type : Z;
  cq_ext_header : option bytes;
  cq_data : bytes;
  cq_token : RequestToken
}.

Inductive ClientEvent :=
  | EvConnected (info : ConnectionInfo)
  | EvDisconnected (reason : CloseReason)
  | EvMessage (m : ClientMessage)
  | EvRequest (r : ClientRequest)
  | EvMessageSent (message_id : Z)
  | EvError (error : TransportError).

Definition ext_option (ext : bytes) : option bytes := match ext with [] => None | _ => Some ext end.

Definition from_transport_event (e : TransportEvent) : option ClientEvent :=
  match e with
  | ConnectionEstablished info => Some (EvConnected info)
  | ConnectionClosed reason => Some (EvDisconnected reason)
  | MessageReceived p =>
      match packet_type (header p) with
      | Request => None
      | _ => Some (EvMessage (mkMessage None (message_id (header p)) (biz_type (header p))
                (ext_option (ext_header p)) (payload p)))
      end
  | MessageSent packet_id => Some (EvMessageSent packet_id)
  | ErrorEvent error => Some (EvError error)
  end.

Definition ev_is_connection_event (e : ClientEvent) : bool :=
  match e with EvConnected _ | EvDisconnected _ => true | _ => false end.
Definition ev_is_data_event (e : ClientEvent) : bool :=
  match e with EvMessage _ | EvRequest _ | EvMessageSent _ => true | _ => false end.
Definition ev_is_error_event (e : ClientEvent) : bool :=
  match e with EvError _ => true | _ => false end.

(** What the forwarding task makes of one tagged event. *)
Definition forwarded (e : TaggedClientEvent) : option ClientEvent :=
  match te_event e with
  | MessageReceived p =>
      match packet_type (header p) with
      | Request =>
          token ← te_token e;
          Some (EvRequest (mkRequest (te_session_id e) (message_id (header p)) (biz_type (header p))
            (ext_option (ext_header p)) (payload p) token))
      | _ => from_transport_event (te_event e)
      end
  | event => from_transport_event event
  end.

(** Responding claims the request, then sends on the generation it came from;
    [alive]: the transport still exists. *)
Definition client_respond `{Codecs} (alive : bool) (data : bytes) (options : SendOptions) (r : ClientRequest)
    (t : Transport) : Transport * respond_step :=
  let rp := mkResponder (cq_token r) (cq_biz_type r) (cq_session r) in
  if alive then respond_claim data options rp t
  else
    match begin_respond (cq_token r) (tp_registry t) with
    | (Updated, reg) =>
        (set_tp_registry (claim_drop (RespondClaim_new (cq_token r)) reg) t,
         Responded (Throw (connection_error "Client dropped before response" false)))
    | (_, reg) => (set_tp_registry reg t, Responded (Done AlreadyHandled))
    end.

(** A request dropped unanswered. *)
Definition client_request_drop (r : ClientRequest) (t : Transport) : Transport :=
  responder_drop (mkResponder (cq_token r) (cq_biz_type r) (cq_session r)) t.

(** [into_payload] gives the request up unanswered. *)
Definition into_payload (r : ClientRequest) (t : Transport) : bytes * Transport :=
  (cq_data r, client_request_drop r t).

(** ** State *)

Inductive client_phase := CLIENT_ACTIVE | CLIENT_SHUTTING_DOWN | CLIENT_STOPPED.
#[export] Instance client_phase_eq_dec : EqDecision client_phase.
Proof. solve_decision. Defined.

(** Where a close of a session is: about to claim it, about to take the slot, or
    about to mark it closed. *)
Inductive close_pc := CloseStart (s : SessionId) | CloseTake (s : SessionId) | CloseMark (s : SessionId).

(** Where a call is. [CtBuilding] covers the whole retry loop. *)
Inductive call_pc :=
  | CtGate
  | CtCheck
  | CtBuilding
  | CtAnnouncing (s : SessionId)
  | CtPolicy (s : SessionId)
  | CtSession (s : SessionId)
  | CtForward
  | CtReturned (r : exec TransportError unit)
  | DcTake (force : bool)
  | DcClosing (force : bool) (c : close_pc)
  | DcReturned (r : exec TransportError unit)
  | ShStart
  | ShWait
  | ShJoin
  | ShReport (panicked : bool)
  | ShReturned (r : exec TransportError unit).

Definition is_connect (pc : call_pc) : bool :=
  match pc with CtGate | CtCheck | CtBuilding | CtAnnouncing _ | CtPolicy _ | CtSession _ | CtForward => true | _ => false end.
Definition is_returned (pc : call_pc) : bool :=
  match pc with CtReturned _ | DcReturned _ | ShReturned _ => true | _ => false end.

(** Where the teardown task is; [TdEnding]: its guard has fired, the task has not
    ended. *)
Inductive teardown_pc :=
  | TdStart
  | TdDisconnect (was_connected : bool)
  | TdClosing (c : close_pc)
  | TdForwarding
  | TdScanner
  | TdEnding (panicked : bool)
  | TdFinished (panicked : bool).

(** A configuration behind [DynClientConfig]: its name and what [validate_dyn]
    answers, with the error as it displays and as it debugs. *)
Record DynClientConfig := mkDynConfig {
  dc_protocol_name : string;
  dc_validate : exec (string * string) unit
}.

(** The client's event queue and its background tasks: [bg_sender], [bg_receiver]:
    the client's own ends of its event queue; [bg_events]: what was put in it;
    [bg_stream]: the transport's event queue has not been taken yet;
    [bg_forwarding]: the forwarding task lives, [bg_taken] of the transport's
    events taken; [bg_scanning]: the scanner lives. *)
Record background := mkBackground {
  bg_sender : bool;
  bg_receiver : bool;
  bg_stream : bool;
  bg_running : bool;
  bg_task_handle : bool;
  bg_abort_handle : bool;
  bg_forwarding : bool;
  bg_taken : nat;
  bg_events : list ClientEvent;
  bg_scanner_handle : bool;
  bg_scanning : bool
}.

Record cl_life := mkClLife {
  cf_phase : client_phase;
  cf_teardown : option teardown_pc;
  cf_handle : bool;
  cf_done : bool;
  cf_err : option TransportError
}.

(** [cl_consumers]: the generations whose pipe consumer runs. *)
Record client := mkClient {
  cl_tp : Transport;
  cl_consumers : gset SessionId;
  cl_retry : RetryConfig;
  cl_config : option DynClientConfig;
  cl_policy : FramePolicy;
  cl_session : option SessionId;
  cl_bg : background;
  cl_life_of : cl_life;
  cl_calls : gmap nat call_pc
}.

Definition client_new (retry : RetryConfig) (config : option DynClientConfig) (policy : FramePolicy) : client :=
  mkClient with_context ∅ retry config policy None
    (mkBackground true true true false false false false 0 [] false false)
    (mkClLife CLIENT_ACTIVE None false false None) ∅.

Definition put_sender (x : bool) (b : background) : background :=
  mkBackground x (bg_receiver b) (bg_stream b) (bg_running b) (bg_task_handle b) (bg_abort_handle b) (bg_forwarding b) (bg_taken b) (bg_events b) (bg_scanner_handle b) (bg_scanning b).
Definition put_receiver (x : bool) (b : background) : background :=
  mkBackground (bg_sender b) x (bg_stream b) (bg_running b) (bg_task_handle b) (bg_abort_handle b) (bg_forwarding b) (bg_taken b) (bg_events b) (bg_scanner_handle b) (bg_scanning b).
Definition put_running (x : bool) (b : background) : background :=
  mkBackground (bg_sender b) (bg_receiver b) (bg_stream b) x (bg_task_handle b) (bg_abort_handle b) (bg_forwarding b) (bg_taken b) (bg_events b) (bg_scanner_handle b) (bg_scanning b).
Definition put_phase (x : client_phase) (f : cl_life) : cl_life :=
  mkClLife x (cf_teardown f) (cf_handle f) (cf_done f) (cf_err f).
Definition put_teardown (x : option teardown_pc) (f : cl_life) : cl_life :=
  mkClLife (cf_phase f) x (cf_handle f) (cf_done f) (cf_err f).
Definition put_handle (x : bool) (f : cl_life) : cl_life :=
  mkClLife (cf_phase f) (cf_teardown f) x (cf_done f) (cf_err f).
Definition put_done (x : bool) (f : cl_life) : cl_life :=
  mkClLife (cf_phase f) (cf_teardown f) (cf_handle f) x (cf_err f).
Definition put_err (x : option TransportError) (f : cl_life) : cl_life :=
  mkClLife (cf_phase f) (cf_teardown f) (cf_handle f) (cf_done f) x.
Definition put_tp (x : Transport) (c : client) : client :=
  mkClient x (cl_consumers c) (cl_retry c) (cl_config c) (cl_policy c) (cl_session c) (cl_bg c) (cl_life_of c) (cl_calls c).
Definition put_consumers (x : gset SessionId) (c : client) : client :=
  mkClient (cl_tp c) x (cl_retry c) (cl_config c) (cl_policy c) (cl_session c) (cl_bg c) (cl_life_of c) (cl_calls c).
Definition put_session (x : option SessionId) (c : client) : client :=
  mkClient (cl_tp c) (cl_consumers c) (cl_retry c) (cl_config c) (cl_policy c) x (cl_bg c) (cl_life_of c) (cl_calls c).
Definition put_bg (x : background) (c : client) : client :=
  mkClient (cl_tp c) (cl_consumers c) (cl_retry c) (cl_config c) (cl_policy c) (cl_session c) x (cl_life_of c) (cl_calls c).
Definition put_life_of (x : cl_life) (c : client) : client :=
  mkClient (cl_tp c) (cl_consumers c) (cl_retry c) (cl_config c) (cl_policy c) (cl_session c) (cl_bg c) x (cl_calls c).
Definition put_calls (x : gmap nat call_pc) (c : client) : client :=
  mkClient (cl_tp c) (cl_consumers c) (cl_retry c) (cl_config c) (cl_policy c) (cl_session c) (cl_bg c) (cl_life_of c) x.

(** ** Errors *)

Definition shut_down_error : TransportError :=
  connection_error "Client has been shut down; create a new client to reconnect" false.
Definition already_connected (s : SessionId) : TransportError :=
  connection_error ("Already connected (session " +:+ SessionId_display s
    +:+ "); call disconnect() before connecting again") false.
Definition no_config : TransportError :=
  config_error "protocol" "No protocol config specified. Use TransportClientBuilder::with_protocol() when building.".
Definition not_connected : TransportError := connection_error "Not connected" false.
Definition not_connected_yet : TransportError := connection_error "Not connected - call connect() first" false.
Definition no_event_streams : TransportError := connection_error "Connection does not support event streams" false.
Definition teardown_panicked : TransportError := connection_error "client teardown panicked" false.

(** ** Sending *)

Definition client_send (data : bytes) (t : Transport) : Transport * exec TransportError (SessionId * Packet) :=
  match current_session_id t with
  | None => (t, Throw not_connected_yet)
  | Some s =>
      let '(i, r) := next_oneway_id (tp_registry t) in
      (set_tp_registry r t, Done (s, one_way i data))
  end.

Definition client_send_detached (data : bytes) (t : Transport) : Transport * exec TransportError Packet :=
  if is_connected t then
    let '(i, r) := next_oneway_id (tp_registry t) in
    (set_tp_registry r t, Done (one_way i data))
  else (t, Throw not_connected_yet).

Definition client_request (data : bytes) (t : Transport) : Transport * exec TransportError Packet :=
  if is_connected t then
    let '(t, i) := allocate_request_id t in
    (t, i ← i; Done (Packet.request i data))
  else (t, Throw not_connected_yet).

(** [events]: the stream is taken once. *)
Definition events (b : background) : background * exec TransportError unit :=
  if bg_receiver b then (put_receiver false b, Done tt)
  else (b, Throw (connection_error "Client event stream already taken - it has a single consumer" false)).

(** ** Background tasks *)

(** Up to the handles being stored: the locks on the way have no other holder, so
    none of them waits. *)
Definition start_event_forwarding (b : background) : background * exec TransportError unit :=
  if bg_running b then (b, Done tt)
  else if bg_stream b then
    if bg_sender b then
      (mkBackground (bg_sender b) (bg_receiver b) false true true true true (bg_taken b) (bg_events b)
         (bg_scanner_handle b) (bg_scanning b), Done tt)
    else
      (mkBackground (bg_sender b) (bg_receiver b) false true (bg_task_handle b) (bg_abort_handle b) (bg_forwarding b)
         (bg_taken b) (bg_events b) (bg_scanner_handle b) (bg_scanning b), Throw shut_down_error)
  else (put_running false b, Throw no_event_streams).

Definition start_request_scanner (b : background) : background :=
  if bg_scanner_handle b then b
  else mkBackground (bg_sender b) (bg_receiver b) (bg_stream b) (bg_running b) (bg_task_handle b) (bg_abort_handle b)
         (bg_forwarding b) (bg_taken b) (bg_events b) true true.

(** One event forwarded, the queue having room or its receiver gone. *)
Definition forward_one (t : Transport) (b : background) : option background :=
  if bg_forwarding b then
    e ← tp_events t !! bg_taken b;
    Some (mkBackground (bg_sender b) (bg_receiver b) (bg_stream b) (bg_running b) (bg_task_handle b) (bg_abort_handle b)
      (bg_forwarding b) (S (bg_taken b)) (bg_events b ++ option_list (forwarded e)) (bg_scanner_handle b) (bg_scanning b))
  else None.

(** The forwarding task aborted and joined, if its handle is there; its abort
    handle discarded. *)
Definition join_forwarding (b : background) : background :=
  mkBackground (bg_sender b) (bg_receiver b) (bg_stream b) (bg_running b) false false
    (if bg_task_handle b then false else bg_forwarding b) (bg_taken b) (bg_events b) (bg_scanner_handle b) (bg_scanning b).

(** The scanner aborted and joined, if its handle is there; nothing forwards any
    more. *)
Definition join_scanner (b : background) : background :=
  mkBackground (bg_sender b) (bg_receiver b) (bg_stream b) false (bg_task_handle b) (bg_abort_handle b)
    (bg_forwarding b) (bg_taken b) (bg_events b) false (if bg_scanner_handle b then false else bg_scanning b).

(** [Drop]: both tasks aborted through what handles are left. *)
Definition client_drop (b : background) : background :=
  mkBackground (bg_sender b) (bg_receiver b) (bg_stream b) (bg_running b) (bg_task_handle b) false
    (if bg_abort_handle b then false else bg_forwarding b) (bg_taken b) (bg_events b) false
    (if bg_scanner_handle b then false else bg_scanning b).

(** ** Calls *)

Section Steps.
Context (powi : spec_float -> Z -> spec_float).

(** [Transport::set_connection] up to its await: the event queue may be full. *)
Definition install_open (cn : conn) (t : Transport) : SessionId * Transport :=
  let '(s, t) := install cn t in
  let t := add_connection s t in
  (s, set_tp_registry (open_session s (tp_registry t)) t).

(** The rest of it; the pipe's consumer is spawned with it. *)
Definition announce_event (s : SessionId) (t : Transport) : Transport :=
  match tp_conns t !! s with
  | Some cn => forward_client_event s (ConnectionEstablished (cn_info cn)) t
  | None => t
  end.

(** The steps of [close_session] and [force_close_session]. *)
Definition close_step (force graceful : bool) (pc : close_pc) (t : Transport) : Transport * option close_pc :=
  match pc with
  | CloseStart s =>
      match try_start_closing s t with
      | (false, t) => (t, None)
      | (true, t) => (close_pending s t, Some (CloseTake s))
      end
  | CloseTake s =>
      let '(taken, t) := take_slot s t in
      (if taken then if force then close_connection s t else close_taken graceful s t else t, Some (CloseMark s))
  | CloseMark s => (remove_connection s (mark_closed s t), None)
  end.

(** What the environment decides in a call's step: the connection attempts, and
    whether a close was graceful. *)
Inductive call_env := Proceed | CloseFailed | Attempts (build : nat -> exec TransportError conn).

Definition graceful_of (env : call_env) : bool := match env with CloseFailed => false | _ => true end.

Definition spawn_teardown (f : cl_life) : cl_life :=
  let f := match cf_phase f with CLIENT_ACTIVE => put_phase CLIENT_SHUTTING_DOWN f | _ => f end in
  if negb (cf_handle f) && negb (bool_decide (cf_phase f = CLIENT_STOPPED))
  then put_handle true (put_teardown (Some TdStart) f) else f.

Definition shutdown_result (f : cl_life) : exec TransportError unit :=
  match cf_err f with Some e => Throw e | None => Done tt end.

(** Call [n] moves on. *)
Definition goto (n : nat) (pc : call_pc) (c : client) : option client :=
  Some (put_calls (<[n := pc]> (cl_calls c)) c).

(** One step of call [n] from [pc]; [None]: it waits. *)
Definition connect_step (env : call_env) (n : nat) (pc : call_pc) (c : client) : option client :=
  let goto := goto n in
  match pc with
  | CtGate =>
      match cf_phase (cl_life_of c) with
      | CLIENT_ACTIVE => goto CtCheck c
      | _ => goto (CtReturned (Throw shut_down_error)) c
      end
  | CtCheck =>
      match current_session_id (cl_tp c) with
      | Some s => goto (CtReturned (Throw (already_connected s))) c
      | None =>
          match cl_config c with
          | None => goto (CtReturned (Throw no_config)) c
          | Some dc =>
              match dc_validate dc with
              | Done _ => goto CtBuilding c
              | Throw (_, debug) =>
                  goto (CtReturned (Throw (config_error "protocol" ("Config validation failed: " +:+ debug)))) c
              | Panic => goto (CtReturned Panic) c
              end
          end
      end
  | CtBuilding =>
      match env, cl_config c with
      | Attempts build, Some dc =>
          match (connect_with_stored_config powi (cl_retry c) (map_err fst (dc_validate dc)) build).2 with
          | Done cn =>
              let '(s, t) := install_open cn (cl_tp c) in goto (CtAnnouncing s) (put_tp t c)
          | Throw e => goto (CtReturned (Throw e)) c
          | Panic => goto (CtReturned Panic) c
          end
      | _, _ => None
      end
  | CtAnnouncing s =>
      goto (CtPolicy s) (put_consumers ({[s]} ∪ cl_consumers c) (put_tp (announce_event s (cl_tp c)) c))
  | CtPolicy s => goto (CtSession s) (put_tp (set_frame_policy (cl_policy c) (cl_tp c)) c)
  | CtSession s => goto CtForward (put_session (Some s) c)
  | CtForward =>
      match start_event_forwarding (cl_bg c) with
      | (b, Done _) => goto (CtReturned (Done tt)) (put_bg (start_request_scanner b) c)
      | (b, Throw e) => goto (CtReturned (Throw e)) (put_bg b c)
      | (b, Panic) => goto (CtReturned Panic) (put_bg b c)
      end
  | _ => None
  end.

Definition disconnect_step (env : call_env) (n : nat) (pc : call_pc) (c : client) : option client :=
  let goto := goto n in
  match pc with
  | DcTake force =>
      match cl_session c with
      | Some s => goto (DcClosing force (CloseStart s)) (put_session None c)
      | None => goto (DcReturned (Throw not_connected)) c
      end
  | DcClosing force pc =>
      match close_step force (graceful_of env) pc (cl_tp c) with
      | (t, Some pc) => goto (DcClosing force pc) (put_tp t c)
      | (t, None) => goto (DcReturned (Done tt)) (put_tp t c)
      end
  | _ => None
  end.

Definition shutdown_step (n : nat) (pc : call_pc) (c : client) : option client :=
  let goto := goto n in
  let f := cl_life_of c in
  match pc with
  | ShStart => goto ShWait (put_life_of (spawn_teardown f) (put_bg (put_sender false (cl_bg c)) c))
  | ShWait => if cf_done f then goto ShJoin c else None
  | ShJoin =>
      if cf_handle f then
        match cf_teardown f with
        | Some (TdFinished panicked) => goto (ShReport panicked) (put_life_of (put_handle false f) c)
        | _ => None
        end
      else goto (ShReport false) c
  | ShReport panicked =>
      let f := if panicked then put_err (Some teardown_panicked) f else f in
      goto (ShReturned (shutdown_result f)) (put_life_of f c)
  | _ => None
  end.

Definition call_step (env : call_env) (n : nat) (c : client) : option client :=
  pc ← cl_calls c !! n;
  match pc with
  | CtGate | CtCheck | CtBuilding | CtAnnouncing _ | CtPolicy _ | CtSession _ | CtForward => connect_step env n pc c
  | DcTake _ | DcClosing _ _ => disconnect_step env n pc c
  | ShStart | ShWait | ShJoin | ShReport _ => shutdown_step n pc c
  | CtReturned _ | DcReturned _ | ShReturned _ => None
  end.

(** ** The teardown task *)

Definition teardown_ends (f : cl_life) : cl_life := put_done true (put_phase CLIENT_STOPPED f).

Definition teardown_step (graceful : bool) (c : client) : option client :=
  pc ← cf_teardown (cl_life_of c);
  let goto pc c := Some (put_life_of (put_teardown (Some pc) (cl_life_of c)) c) in
  match pc with
  | TdStart => goto (TdDisconnect (is_connected (cl_tp c))) c
  | TdDisconnect was_connected =>
      match current_session_id (cl_tp c) with
      | Some s => goto (TdClosing (CloseStart s)) c
      | None =>
          goto TdForwarding (if was_connected
            then put_life_of (put_err (Some not_connected) (cl_life_of c)) c else c)
      end
  | TdClosing pc =>
      match close_step false graceful pc (cl_tp c) with
      | (t, Some pc) => goto (TdClosing pc) (put_tp t c)
      | (t, None) => goto TdForwarding (put_tp t c)
      end
  | TdForwarding => goto TdScanner (put_bg (join_forwarding (cl_bg c)) c)
  | TdScanner =>
      goto (TdEnding false) (put_life_of (teardown_ends (cl_life_of c)) (put_bg (join_scanner (cl_bg c)) c))
  | TdEnding panicked => goto (TdFinished panicked) (put_life_of (teardown_ends (cl_life_of c)) c)
  | TdFinished _ => None
  end.

(** The connection's own close panics under the teardown: the connection goes
    down with the task, whose guard ends the lifecycle. *)
Definition teardown_panics (c : client) : option client :=
  match cf_teardown (cl_life_of c) with
  | Some (TdClosing (CloseTake s)) =>
      if decide (tp_slot (cl_tp c) = Some s) then
        let '(_, t) := take_slot s (cl_tp c) in
        Some (put_life_of (put_teardown (Some (TdEnding true)) (teardown_ends (cl_life_of c)))
          (put_tp (close_connection s t) c))
      else None
  | _ => None
  end.

(** ** The system *)

Inductive call_kind := ConnectCall | DisconnectCall (force : bool) | ShutdownCall.
Definition first_pc (k : call_kind) : call_pc :=
  match k with ConnectCall => CtGate | DisconnectCall force => DcTake force | ShutdownCall => ShStart end.

(** [Traffic]: the sends, requests and responses, which leave the slot, the
    generations and the events alone. *)
Inductive clabel :=
  | Call (n : nat) (k : call_kind)
  | CallStep (n : nat) (env : call_env)
  | Dropped (n : nat)
  | Teardown (graceful : bool)
  | TeardownPanics
  | PipeEvent (now now' : Z) (s : SessionId) (e : TransportEvent)
  | PipeEnds (s : SessionId)
  | Forward
  | Scan (now : Z) (clock : RequestKey -> Z)
  | TakeEvents
  | Traffic (r : RequestRegistry) (receipts : gmap nat receipt) (conns : gmap SessionId conn).

(** An exclusive borrow while [connect] is in flight, shared ones otherwise. *)
Definition may_call (k : call_kind) (c : client) : bool :=
  match k with
  | ConnectCall => bool_decide (map_Forall (fun _ pc => is_returned pc = true) (cl_calls c))
  | _ => bool_decide (map_Forall (fun _ pc => is_connect pc = false) (cl_calls c))
  end.

(** Nothing is awaited between taking the finished teardown's handle and
    reporting on it. *)
Definition may_drop (pc : call_pc) : bool :=
  match pc with ShReport _ => false | pc => negb (is_returned pc) end.

Definition client_step `{T : Target} (l : clabel) (c : client) : option client :=
  match l with
  | Call n k =>
      if bool_decide (cl_calls c !! n = None) && may_call k c
      then Some (put_calls (<[n := first_pc k]> (cl_calls c)) c) else None
  | CallStep n env => call_step env n c
  | Dropped n =>
      pc ← cl_calls c !! n;
      if may_drop pc then Some (put_calls (delete n (cl_calls c)) c) else None
  | Teardown graceful => teardown_step graceful c
  | TeardownPanics => teardown_panics c
  | PipeEvent now now' s e =>
      if decide (s ∈ cl_consumers c) then
        if tp_epoch (cl_tp c) =? s then Some (put_tp (on_event now now' s e (cl_tp c)) c)
        else Some (put_consumers (cl_consumers c ∖ {[s]}) (put_tp (teardown s (cl_tp c)) c))
      else None
  | PipeEnds s =>
      if decide (s ∈ cl_consumers c)
      then Some (put_consumers (cl_consumers c ∖ {[s]}) (put_tp (teardown s (cl_tp c)) c)) else None
  | Forward => b ← forward_one (cl_tp c) (cl_bg c); Some (put_bg b c)
  | Scan now clock =>
      if bg_scanning (cl_bg c)
      then Some (put_tp (set_tp_registry (scan_timeout_bucket now clock (tp_registry (cl_tp c))).2 (cl_tp c)) c) else None
  | TakeEvents => let '(b, _) := events (cl_bg c) in Some (put_bg b c)
  | Traffic r receipts conns =>
      let t := cl_tp c in
      Some (put_tp (mkTransport (tp_slot t) conns (tp_states t) r receipts (tp_epoch t) (tp_listening t) (tp_events t)) c)
  end.

(** A step that is not enabled changes nothing. *)
Definition client_run `{T : Target} (ls : list clabel) (c : client) : client :=
  foldl (fun c l => default c (client_step l c)) c ls.
End Steps.
