(* ===== verification/Callback.v ===== *)
(** * A callback: a server's request and its client's answer

    The conversation in the other direction. The server's request allocates its
    identifier, builds its packet and registers its waiter in one step; responses
    reach the waiter through the session's pump. On the client's end a request is
    registered as it arrives, put in the transport's event queue with its token,
    and answered by the application on the [ClientRequest] made of the two. As in
    [Conversation], the ends are stepped between their await points over lists of
    packets, and a run covers the life of a session. *)

From S2P Require Import Prelude Packet Errors Limits Stream Events Registry RegistryInv RegistryOps RegistryRun Writes Transport Actor Server Client Conversation.

(** ** The server's end *)

(** [as_pumping]: the session's pump runs; the rest as on a client's end that
    asks. *)
Record asking_server := mkAsking {
  as_table : sessions_table;
  as_pumping : bool;
  as_calls : list started;
  as_outbox : list Packet;
  as_sent : list Packet;
  as_received : list Packet;
  as_results : gmap nat (exec TransportError (option Packet))
}.

Definition asking_start (t : sessions_table) : asking_server := mkAsking t true [] [] [] [] ∅.

Definition set_table (t : sessions_table) (c : asking_server) : asking_server :=
  mkAsking t (as_pumping c) (as_calls c) (as_outbox c) (as_sent c) (as_received c) (as_results c).
Definition set_asked_outbox (ps : list Packet) (c : asking_server) : asking_server :=
  mkAsking (as_table c) (as_pumping c) (as_calls c) ps (as_sent c) (as_received c) (as_results c).

(** [room]: what the mailbox answers the pump. *)
Inductive asking_label :=
  | QRequest (now : Z) (data : bytes) (options : RequestOptions)
  | QSend (p : Packet)
  | QWritten (k : nat)
  | QLost (k : nat)
  | QPump (p : Packet) (room : bool)
  | QFinish (k : nat) (w : request_wait)
  | QOther (o : op).

Section Asking.
Context `{C : Codecs} `{T : Target} (s : SessionId).

Definition asking_step (l : asking_label) (c : asking_server) : asking_server :=
  let t := as_table c in
  match l with
  | QRequest now data options =>
      match server_request now s data options t with
      | (t, Done (call, _)) =>
          mkAsking t (as_pumping c) (as_calls c ++ [mkStarted call data options]) (as_outbox c ++ [rc_packet call])
            (as_sent c) (as_received c) (as_results c)
      | (t, _) => set_table t c
      end
  | QSend p => if is_request p then c else set_asked_outbox (as_outbox c ++ [p]) c
  | QWritten k =>
      match as_outbox c !! k with
      | Some p =>
          mkAsking t (as_pumping c) (as_calls c) (delete k (as_outbox c)) (as_sent c ++ [p]) (as_received c) (as_results c)
      | None => c
      end
  | QLost k => set_asked_outbox (delete k (as_outbox c)) c
  | QPump p room =>
      if as_pumping c then
        let '(t, _, go_on) := pump_one_event s (MessageReceived p) room t in
        mkAsking t go_on (as_calls c) (as_outbox c) (as_sent c) (as_received c ++ [p]) (as_results c)
      else c
  | QFinish k w =>
      match as_calls c !! k, as_results c !! k with
      | Some st, None =>
          match request_outcome (sd_call st) w t with
          | Some (t, res) =>
              mkAsking t (as_pumping c) (as_calls c) (as_outbox c) (as_sent c) (as_received c) (<[k := res]> (as_results c))
          | None => c
          end
      | _, _ => c
      end
  | QOther o => if leaves_session s o then set_table (set_sv_registry (step o (sv_registry t)).2 t) c else c
  end.

Definition asking_run (ls : list asking_label) (c : asking_server) : asking_server := foldl (fun c l => asking_step l c) c ls.
End Asking.

(** ** The client's end *)

#[export] Instance ClientRequest_eq_dec : EqDecision ClientRequest.
Proof. solve_decision. Defined.

(** The requests its application is handed, through the events. *)
Definition requests_handed (t : Transport) : list ClientRequest :=
  omap (fun e => match forwarded e with Some (EvRequest q) => Some q | _ => None end) (tp_events t).

Record answering_client := mkAnswering {
  ac_transport : Transport;
  ac_answers : list answer;
  ac_outbox : list (Packet * option RespondClaim);
  ac_sent : list Packet;
  ac_received : list Packet
}.

Definition answering_start (t : Transport) : answering_client := mkAnswering t [] [] [] [].

(** [ARespond]: the application responds on a request it was handed; [ADrop]: it
    drops one. *)
Inductive answering_label :=
  | AReceive (now now' : Z) (p : Packet)
  | ARespond (alive : bool) (q : ClientRequest) (data : bytes) (options : SendOptions)
  | ADrop (q : ClientRequest)
  | ASend (p : Packet)
  | AWritten (k : nat)
  | ALost (k : nat)
  | AOther (o : op).

(** The right to answer a request: its token, its business type, its generation. *)
Definition responder_of (q : ClientRequest) : Responder := mkResponder (cq_token q) (cq_biz_type q) (cq_session q).

Section Answering.
Context `{C : Codecs} `{T : Target} (s : SessionId).

Definition put_answering (t : Transport) (c : answering_client) : answering_client :=
  mkAnswering t (ac_answers c) (ac_outbox c) (ac_sent c) (ac_received c).

Definition answering_step (l : answering_label) (c : answering_client) : answering_client :=
  let t := ac_transport c in
  match l with
  | AReceive now now' p =>
      mkAnswering (on_event now now' s (MessageReceived p) t) (ac_answers c) (ac_outbox c) (ac_sent c) (ac_received c ++ [p])
  | ARespond alive q data options =>
      if decide (q ∈ requests_handed t) then
        match client_respond alive data options q t with
        | (t, ToSend p claim) =>
            mkAnswering t (ac_answers c ++ [mkAnswer (responder_of q) data options p]) (ac_outbox c ++ [(p, Some claim)])
              (ac_sent c) (ac_received c)
        | (t, Responded _) => put_answering t c
        end
      else c
  | ADrop q => if decide (q ∈ requests_handed t) then put_answering (client_request_drop q t) c else c
  | ASend p =>
      if is_response p then c else
      mkAnswering t (ac_answers c) (ac_outbox c ++ [(p, None)]) (ac_sent c) (ac_received c)
  | AWritten k =>
      match ac_outbox c !! k with
      | Some (p, claim) =>
          mkAnswering (set_tp_registry (from_option (fun cl => claim_resolve cl true (tp_registry t)) (tp_registry t) claim) t)
            (ac_answers c) (delete k (ac_outbox c)) (ac_sent c ++ [p]) (ac_received c)
      | None => c
      end
  | ALost k =>
      match ac_outbox c !! k with
      | Some (p, claim) =>
          mkAnswering (set_tp_registry (from_option (fun cl => claim_drop cl (tp_registry t)) (tp_registry t) claim) t)
            (ac_answers c) (delete k (ac_outbox c)) (ac_sent c) (ac_received c)
      | None => c
      end
  | AOther o => if leaves_claims o then put_answering (set_tp_registry (step o (tp_registry t)).2 t) c else c
  end.

Definition answering_run (ls : list answering_label) (c : answering_client) : answering_client :=
  foldl (fun c l => answering_step l c) c ls.
End Answering.
