(* ===== verification/CallbackProps.v ===== *)
(** * Callbacks: a server's request and the answer to it

    The server's end as one more end that asks: seen through a transport that
    shares its registry it keeps the invariant of [ConversationProps]. The
    client's end keeps the invariant of a side that answers. Together they give
    the theorem of [ConversationProps] in the other direction. *)

From S2P Require Import Prelude Packet Errors Limits Stream Events Registry RegistryInv RegistryOps RegistryRun RegistryProps RegistryLive Writes Transport Actor ActorProps Server Client Conversation Exchange ConversationProps Callback.

(** ** The server's end *)

Section Asking.
Context `{C : Codecs} `{T : Target} (s : SessionId).

(** A transport of the session over the server's registry. *)
Definition seen (t : sessions_table) : Transport := mkTransport (Some s) ∅ ∅ (sv_registry t) ∅ s true [].
Definition as_client (c : asking_server) : client_end :=
  mkClientEnd (seen (as_table c)) [] (as_calls c) (as_outbox c) (as_sent c) (as_received c) (as_results c).

(** What a wait makes of the registry is the same on either end. *)
Lemma outcome_is_a_finish call w t t' res : request_outcome call w t = Some (t', res) ->
  exists res', request_finish call w (seen t) = Some (seen t', res') /\ forall p, res = Done (Some p) -> res' = Done (Some p).
Proof.
  unfold request_outcome, request_finish. destruct w as [e|d| |]; [by intros [= <- <-]; eexists..|].
  cbn. destruct (chans _ !! _) as [[]|]; try done; intros [= <- <-]; eexists; by split.
Qed.

(** A request: an identifier, then its waiter, or neither. *)
Lemma asking_request N now data options c :
  client_inv s N (as_client c) -> N + 1 < U64_MAX ->
  client_inv s (N + 1 + 1) (as_client (asking_step s (QRequest now data options) c)).
Proof.
  intros Hinv HN. pose proof (inv_allocate s N _ Hinv ltac:(lia)) as Halloc.
  cbn [asking_step]. unfold server_request. cbn [client_step] in Halloc. unfold allocate_request_id, current_session_id in Halloc.
  cbn [as_client ce_transport seen tp_slot tp_registry] in Halloc.
  destruct (next_request_id _ _) as [[i|] r]; [|by apply client_inv_wait].
  set (c1 := set_ids _ _) in Halloc.
  assert (Hput : forall t, at_most_one (meanwhile s (as_received c)) r (sv_registry t) ->
    client_inv s (N + 1 + 1) (as_client (set_table t c))).
  { intros t Hone. apply (client_inv_moves s (N + 1) c1 (as_client (set_table t c))); try done; [|by left].
    unfold ids_of, c1. cbn. by apply submseteq_cons. }
  destruct (apply _ _) as [p|e|] eqn:Hp; [|apply Hput; by left..].
  unfold request_to_session. destruct (decide _); [|apply Hput; by left].
  pose proof (apply_over_shape (ro_send options) (Packet.request i data) 0) as Hshape.
  unfold apply in Hp. rewrite Hp in Hshape. destruct Hshape as (Hty & _). cbn in Hty. rewrite Hty.
  pose proof (one_step (meanwhile s (as_received c))
    (RegisterWaiter (packet_id p) (Some s) (biz_type (header p)) REQUEST_LIFECYCLE_TIMEOUT now) r I
    (meanwhile_intro s _ (RegisterWaiter _ _ _ _ _) I)) as Hone. cbn [step] in Hone. cbn [set_sv_registry sv_registry].
  destruct (try_register_waiter _ _ _ _ _ _) as [[[rx tok]|] r'] eqn:Hreg; [|by apply Hput].
  exact (inv_started s (N + 1) c1 0 i data options now _ p rx tok r' Halloc ltac:(lia) eq_refl Hp Hreg).
Qed.

Lemma asking_step_inv N l c :
  client_inv s N (as_client c) -> N + 1 < U64_MAX -> client_inv s (N + 1 + 1) (as_client (asking_step s l c)).
Proof.
  intros Hinv HN. destruct l as [now data options|p|k|k|p room|k w|o]; [by apply asking_request|..]; apply client_inv_wait.
  - pose proof (client_step_inv s N (CSend p) _ Hinv ltac:(lia)) as H. cbn in H |- *. by destruct (is_request p).
  - pose proof (client_step_inv s N (CWritten k) _ Hinv ltac:(lia)) as H. cbn in H |- *. by destruct (as_outbox c !! k).
  - exact (client_step_inv s N (CLost k) _ Hinv ltac:(lia)).
  - cbn [asking_step]. destruct (as_pumping c); [|by apply client_inv_wait].
    assert (Hone : at_most_one (meanwhile s (as_received c ++ [p])) (sv_registry (as_table c))
      (sv_registry (pump_one_event s (MessageReceived p) room (as_table c)).1.1)).
    { cbn. destruct (packet_type (header p)) eqn:Ht; [by left; destruct room..|].
      pose proof (one_complete (meanwhile s (as_received c ++ [p])) (Some s) (packet_id p) p (sv_registry (as_table c))) as H.
      destruct (complete_waiter _ _ _ _) as [b r]. cbn [snd] in H. destruct b, room; cbn; apply H; split; try done;
        intros i q [= <- <-]; split_and!; try done; set_solver. }
    destruct (pump_one_event _ _ _ _) as [[t fw] go_on]. cbn [fst snd] in Hone.
    apply (client_inv_moves s N (as_client c)); try done; cbn; [lia|set_solver|by left].
  - cbn [asking_step]. destruct (as_calls c !! k) as [st|] eqn:Hk; [|by apply client_inv_wait].
    destruct (as_results c !! k); [by apply client_inv_wait|].
    destruct (request_outcome _ _ _) as [[t res]|] eqn:Ho; [|by apply client_inv_wait].
    destruct (outcome_is_a_finish _ _ _ _ _ Ho) as (res' & Hfin & Hres).
    destruct (finish_shape s _ _ _ _ _ _ _ Hinv Hk Hfin) as (Hs & Hone & Hresp).
    apply (inv_waited s N k st (seen t) res _ Hinv ltac:(lia) Hk Hs Hone). intros p Hp. by apply Hresp, Hres.
  - pose proof (client_step_inv s N (COther o) _ Hinv ltac:(lia)) as H. cbn in H |- *. by destruct (leaves_session s o).
Qed.

Lemma asking_run_inv N ls c :
  client_inv s N (as_client c) -> N + 2 * len ls <= U64_MAX -> client_inv s (N + 2 * len ls) (as_client (asking_run s ls c)).
Proof.
  revert N c. induction ls as [|l ls IH]; intros N c Hinv Hlen.
  { by replace (N + 2 * len (@nil asking_label)) with N by (unfold len; cbn; lia). }
  rewrite len_cons in *. pose proof (len_nonneg ls).
  replace (N + 2 * (1 + len ls)) with (N + 1 + 1 + 2 * len ls) by lia.
  apply (IH _ (asking_step s l c)); [|lia]. apply asking_step_inv; [done|lia].
Qed.

(** A server's table whose session is just open. *)
Definition opened_server (t : sessions_table) : Prop :=
  good ∅ ∅ (sv_registry t) /\ exists n, next_of s (sv_registry t) = Some n /\ n <= U32_MAX.

Lemma asking_start_inv t : opened_server t -> client_inv s (next_generation (sv_registry t)) (as_client (asking_start t)).
Proof. intros (Hg & Hn). apply (client_start_inv s (seen t)). by split_and!. Qed.
End Asking.

(** ** The client's end *)

Section Answering.
Context `{C : Codecs} `{T : Target} (s : SessionId).

(** The requests among the transport's events, each with the right to answer it. *)
Definition paired (e : TaggedClientEvent) : option (Packet * Responder) :=
  match te_event e, te_token e with
  | MessageReceived p, Some tok =>
      if decide (packet_type (header p) = Request) then Some (p, mkResponder tok (biz_type (header p)) (te_session_id e)) else None
  | _, _ => None
  end.
Definition pairs (t : Transport) : list (Packet * Responder) := omap paired (tp_events t).

(** A [ClientRequest], from its pair. *)
Definition request_of (x : Packet * Responder) : ClientRequest :=
  mkRequest (rp_session_id x.2) (packet_id x.1) (biz_type (header x.1)) (ext_option (ext_header x.1)) (payload x.1) (rp_token x.2).

Lemma requests_are_pairs t : requests_handed t = request_of <$> pairs t.
Proof.
  unfold requests_handed, pairs. induction (tp_events t) as [|e es IH]; [done|]. cbn [omap list_omap]. rewrite IH.
  destruct e as [g tok ev]. unfold forwarded, paired. cbn.
  destruct ev as [info|reason|p|i|e]; try done. unfold from_transport_event. destruct (packet_type (header p)) eqn:Hp, tok; try done.
Qed.

Lemma handed_pair q t : q ∈ requests_handed t -> exists p, (p, responder_of q) ∈ pairs t.
Proof.
  rewrite requests_are_pairs. intros ([p rp] & -> & Hin)%list_elem_of_fmap. exists p.
  unfold pairs in Hin. apply list_elem_of_omap in Hin as ([g tok ev] & He & Hp) . unfold pairs. apply list_elem_of_omap.
  exists (mkTagged g tok ev). split; [done|]. rewrite Hp. unfold paired in Hp. cbn in Hp.
  destruct ev; try done. destruct tok; try done. by destruct (decide _); simplify_eq.
Qed.

Record answering_inv (N : Z) (c : answering_client) : Prop := {
  an_gen : next_generation (tp_registry (ac_transport c)) <= N;
  an_good : good ∅ ∅ (tp_registry (ac_transport c));
  an_from : (pairs (ac_transport c)).*1 `sublist_of` requests_in (ac_received c);
  an_answering : answering s (pairs (ac_transport c)) (ac_answers c) (on_wire (ac_outbox c) (ac_sent c)) (tp_registry (ac_transport c))
}.

Lemma answering_inv_wait N c : answering_inv N c -> answering_inv (N + 1) c.
Proof. intros []. split; try done. lia. Qed.

(** Steps that claim no request. *)
Lemma answering_inv_moves N c c' :
  answering_inv N c -> N < U64_MAX ->
  at_most_one any (tp_registry (ac_transport c)) (tp_registry (ac_transport c')) ->
  pairs (ac_transport c) ⊆ pairs (ac_transport c') ->
  (forall x, x ∈ pairs (ac_transport c') -> x ∈ pairs (ac_transport c) \/ handed_ok s (tp_registry (ac_transport c')) x) ->
  (pairs (ac_transport c')).*1 `sublist_of` requests_in (ac_received c') -> ac_answers c' = ac_answers c ->
  responses_in (on_wire (ac_outbox c') (ac_sent c')) ⊆+ responses_in (on_wire (ac_outbox c) (ac_sent c)) ->
  answering_inv (N + 1) c'.
Proof.
  intros [HN Hg Hf Haw] HNn Hone Hsub Hnew Hf' Han Hout.
  assert (Hng : next_generation (tp_registry (ac_transport c)) < U64_MAX) by lia.
  destruct (one_advances _ _ _ Hg Hng Hone) as (Hg' & _ & Hn1). split; rewrite ?Han; try done; [lia|].
  by apply (answering_moves s (pairs (ac_transport c)) _ _ (on_wire (ac_outbox c) (ac_sent c)) _ (tp_registry (ac_transport c))).
Qed.

(** Steps of the registry alone. *)
Lemma answering_inv_registry N c c' :
  answering_inv N c -> N < U64_MAX ->
  at_most_one any (tp_registry (ac_transport c)) (tp_registry (ac_transport c')) ->
  tp_events (ac_transport c') = tp_events (ac_transport c) -> ac_received c' = ac_received c -> ac_answers c' = ac_answers c ->
  responses_in (on_wire (ac_outbox c') (ac_sent c')) ⊆+ responses_in (on_wire (ac_outbox c) (ac_sent c)) ->
  answering_inv (N + 1) c'.
Proof.
  intros Hinv HN Hone He Hr Ha Hout. assert (Hp : pairs (ac_transport c') = pairs (ac_transport c)) by (unfold pairs; by rewrite He).
  apply (answering_inv_moves N c); rewrite ?Hp, ?Hr; try done; [by left|apply Hinv].
Qed.

(** A packet arrives: a request is registered and put among the events, once. *)
Lemma arrival_pairs now now' p t : good ∅ ∅ (tp_registry t) -> next_generation (tp_registry t) < U64_MAX ->
  let t' := on_event now now' s (MessageReceived p) t in
  pairs t' = pairs t \/
  packet_type (header p) = Request /\ exists rp, pairs t' = pairs t ++ [(p, rp)] /\ handed_ok s (tp_registry t') (p, rp).
Proof.
  intros Hg Hn t'. assert (Hfw : forall tok u, pairs (forward_client_event_with_token s tok (MessageReceived p) u) =
    if tp_listening u then pairs u ++ option_list (paired (mkTagged s tok (MessageReceived p))) else pairs u).
  { intros tok u. unfold forward_client_event_with_token. destruct (tp_listening u); [|done].
    unfold pairs. cbn [tp_events]. rewrite omap_app. cbn [omap list_omap]. by destruct (paired _). }
  assert (Hreg : forall tok u, tp_registry (forward_client_event_with_token s tok (MessageReceived p) u) = tp_registry u)
    by (intros; unfold forward_client_event_with_token; by destruct (tp_listening u)).
  assert (Hplain : forall u, pairs (forward_client_event s (MessageReceived p) u) = pairs u).
  { intros u. unfold forward_client_event. rewrite Hfw. destruct (tp_listening u); [|done]. cbn. by rewrite app_nil_r. }
  unfold t', on_event. destruct (packet_type (header p)) eqn:Ht.
  - left. apply Hplain.
  - destruct (register _ _ _ _ _ _ _) as [[tok|] r] eqn:Hr; [|by left]. rewrite Hfw, Hreg.
    destruct (tp_listening (set_tp_registry r t)); [|by left]. right. split; [done|].
    destruct (registered_request s _ _ _ _ _ _ _ _ Hg Hn Hr) as [-> Hn']. eexists. split.
    + unfold paired. cbn. by rewrite decide_True.
    + split_and!; cbn; try done. lia.
  - destruct (complete_waiter _ _ _ _) as [b r]. left. destruct b; [done|]. by rewrite Hplain.
Qed.

Lemma inv_arrival N now now' p c : answering_inv N c -> N < U64_MAX -> answering_inv (N + 1) (answering_step s (AReceive now now' p) c).
Proof.
  intros Hinv HN. pose proof Hinv as [HNg Hg Hf Haw].
  assert (Hng : next_generation (tp_registry (ac_transport c)) < U64_MAX) by lia.
  destruct (on_event_message s now now' p (ac_transport c)) as [_ Hone].
  assert (Hany : at_most_one any (tp_registry (ac_transport c)) (tp_registry (on_event now now' s (MessageReceived p) (ac_transport c))))
    by (eapply one_impl; [|apply (Hone [p]); set_solver]; done).
  cbn [answering_step]. destruct (arrival_pairs now now' p (ac_transport c) Hg Hng) as [Hp|(Hty & rp & Hp & Hok)].
  - apply (answering_inv_moves N c); cbn [ac_transport ac_received]; rewrite ?Hp; try done; [by left|].
    etrans; [exact Hf|]. apply filter_sublist, sublist_inserts_r. done.
  - apply (answering_inv_moves N c); cbn [ac_transport ac_received]; rewrite ?Hp; try done.
    + set_solver.
    + intros x [Hx|Hx]%elem_of_app; [by left|]. apply list_elem_of_singleton in Hx as ->. by right.
    + rewrite fmap_app, filter_app. apply sublist_app; [done|]. by rewrite filter_cons_True.
Qed.

Lemma inv_answer N alive q data options c :
  answering_inv N c -> N < U64_MAX -> answering_inv (N + 1) (answering_step s (ARespond alive q data options) c).
Proof.
  intros Hinv HN. pose proof Hinv as [HNg Hg Hf Haw]. cbn [answering_step].
  destruct (decide _) as [Hin|]; [|by apply answering_inv_wait]. destruct (handed_pair _ _ Hin) as [p0 Hp0].
  assert (Hng : next_generation (tp_registry (ac_transport c)) < U64_MAX) by lia.
  pose proof (fun out' => answering_claim s _ _ _ out' p0 _ data options (ac_transport c) Hg Hng Haw Hp0) as Hw. cbv zeta in Hw.
  assert (Hev : tp_events (respond_claim data options (responder_of q) (ac_transport c)).1 = tp_events (ac_transport c)).
  { unfold respond_claim. destruct (begin_respond _ _) as [[] r]; try done. by destruct (apply_over _ _ _). }
  unfold client_respond. fold (responder_of q). destruct alive.
  - destruct (respond_claim _ _ _ _) as [t [r|p claim]]; cbn [fst snd] in Hw, Hev.
    + destruct (Hw []) as (Hg' & Hn & Haw'). split; cbn; unfold pairs in *; rewrite ?Hev; try done. lia.
    + destruct (Hw (on_wire (ac_outbox c ++ [(p, Some claim)]) (ac_sent c))) as (Hg' & Hn & Haw').
      split; cbn; unfold pairs in *; rewrite ?Hev; try done; [lia|]. apply Haw', wire_claimed.
  - pose proof (aw_handed _ _ _ _ _ Haw) as Hh. rewrite Forall_forall in Hh. destruct (Hh _ Hp0) as (_ & _ & Hdir & _).
    pose proof (answering_tried s _ _ _ (cq_token q) _ Hg Hng Hdir Haw) as Ht. cbv zeta in Ht.
    assert (Hput : forall r, r = (begin_respond (cq_token q) (tp_registry (ac_transport c))).2 \/
      r = claim_drop (RespondClaim_new (cq_token q)) (begin_respond (cq_token q) (tp_registry (ac_transport c))).2 ->
      answering_inv (N + 1) (put_answering (set_tp_registry r (ac_transport c)) c)).
    { intros r Hr. destruct (Ht r Hr) as (? & ? & ?). split; try done. cbn. lia. }
    destruct (begin_respond _ _) as [[] r]; apply Hput; cbn; auto.
Qed.

Lemma answering_step_inv N l c : answering_inv N c -> N < U64_MAX -> answering_inv (N + 1) (answering_step s l c).
Proof.
  intros Hinv HN. destruct l as [now now' p|alive q data options|q|p|k|k|o]; [by apply inv_arrival|by apply inv_answer|..]; cbn [answering_step].
  - destruct (decide _); [|by apply answering_inv_wait]. apply (answering_inv_registry N c); try done. by apply one_abort.
  - unfold is_response. case_bool_decide; [by apply answering_inv_wait|].
    apply (answering_inv_registry N c); try done; [by left|by apply wire_other].
  - destruct (ac_outbox c !! k) as [[p cl]|] eqn:Hk; [|by apply answering_inv_wait].
    apply (answering_inv_registry N c); try done; [apply claim_written_activity|by eapply wire_written].
  - destruct (ac_outbox c !! k) as [[p cl]|] eqn:Hk; [|by apply answering_inv_wait].
    apply (answering_inv_registry N c); try done; [apply claim_lost_activity|apply wire_lost].
  - destruct (leaves_claims o) eqn:Ho; [|by apply answering_inv_wait].
    apply (answering_inv_registry N c); try done. cbn. apply one_step; [|done]. by destruct o.
Qed.

Lemma answering_run_inv N ls c :
  answering_inv N c -> N + len ls <= U64_MAX -> answering_inv (N + len ls) (answering_run s ls c).
Proof.
  revert N c. induction ls as [|l ls IH]; intros N c Hinv Hlen.
  { by replace (N + len (@nil answering_label)) with N by (unfold len; cbn; lia). }
  rewrite len_cons in *. pose proof (len_nonneg ls).
  replace (N + (1 + len ls)) with (N + 1 + len ls) by lia.
  apply (IH (N + 1) (answering_step s l c)); [|lia]. apply answering_step_inv; [done|lia].
Qed.

(** A transport that has handed no request over yet. *)
Lemma answering_start_inv t : good ∅ ∅ (tp_registry t) -> pairs t = [] ->
  answering_inv (next_generation (tp_registry t)) (answering_start t).
Proof. intros Hg Hp. split; cbn; rewrite ?Hp; try done. split; try done; constructor. Qed.
End Answering.

(** ** A request and its answer *)

Section Callback.
Context `{C : Codecs} `{L : !CodecLaws C} `{T : Target}.

Lemma request_of_pair p rp t : (p, rp) ∈ pairs t -> responder_of (request_of (p, rp)) = rp.
Proof.
  unfold pairs. intros ([g tok ev] & _ & Hp)%list_elem_of_omap. unfold paired in Hp. cbn in Hp.
  destruct ev; try done. destruct tok; try done. by destruct (decide _); simplify_eq.
Qed.

(** C2: a callback, end to end. A response a server's caller gets answers its own
    request: the client's application was handed one request of its identifier,
    one answer was claimed for it, on the right to answer that came with it, and
    the caller holds that answer's packet; when they fit the receivers' limits,
    the application saw the caller's data and the caller sees the application's. *)
Theorem callbacks_match_their_requests s s' tb t calls acts max max' k p :
  opened_server s tb -> next_generation (sv_registry tb) + 2 * len calls <= U64_MAX ->
  good ∅ ∅ (tp_registry t) -> next_generation (tp_registry t) + len acts <= U64_MAX -> requests_handed t = [] ->
  let v := asking_run s calls (asking_start tb) in
  let c := answering_run s' acts (answering_start t) in
  transmitted max (as_sent v) (ac_received c) -> transmitted max' (ac_sent c) (as_received v) ->
  as_results v !! k = Some (Done (Some p)) ->
  exists st q an, as_calls v !! k = Some st /\
    filter (fun q => cq_message_id q = call_id st) (requests_handed (ac_transport c)) = [q] /\
    filter (fun an => t_request_id (answer_token an) = call_id st) (ac_answers c) = [an] /\
    an_responder an = responder_of q /\ arrives max' (an_packet an) p /\
    (len (sd_data st) <= max < 2 ^ 64 - 1 -> cq_data q = sd_data st) /\
    (len (an_data an) <= max' < 2 ^ 64 - 1 -> payload p = an_data an).
Proof.
  intros Htb Hn Ht Hn' Hnone v c Hreq Hres Hk.
  assert (Hp : pairs t = []) by (rewrite requests_are_pairs in Hnone; by apply fmap_nil_inv in Hnone).
  pose proof (asking_run_inv s _ calls _ (asking_start_inv s tb Htb) Hn) as Hv. fold v in Hv.
  pose proof (answering_run_inv s' _ acts _ (answering_start_inv s' t Ht Hp) Hn') as Hc. fold c in Hc.
  destruct (answered s s' _ (as_client s v) max max' _ _ _ _ (ac_received c) _ Hv (an_answering _ _ _ Hc) (an_from _ _ _ Hc) Hreq Hres k p Hk)
    as (st & q & an & Hst & Hq & Han & Harr & Harr' & Hd & Hd').
  assert (Hin : (q, an_responder an) ∈ pairs (ac_transport c)).
  { assert (H : (q, an_responder an) ∈ [(q, an_responder an)]) by (by left). rewrite <- Hq in H. by apply list_elem_of_filter in H as [_ ?]. }
  exists st, (request_of (q, an_responder an)), an. split_and!; try done.
  - rewrite requests_are_pairs, filter_mapped. exact (f_equal (fmap request_of) Hq).
  - by erewrite request_of_pair.
Qed.
End Callback.

(** ** A concrete callback *)

(** Two requests, written in the other order; the second to arrive is answered,
    then answered again in vain. *)
Definition calling_back : list asking_label :=
  [QRequest 0 [7; 7; 7] asked; QRequest 0 [8] asked; QWritten 1; QWritten 0].
Definition server_called : asking_server :=
  asking_run (C := tag_codec) (T := Target64) 9 calling_back (asking_start small_table).
Definition arrivals : list answering_label := AReceive 0 0 <$> pass 100 (as_sent server_called).
Definition client_called : answering_client :=
  answering_run (C := tag_codec) (T := Target64) 1 arrivals (answering_start (small_transport 1)).
Definition answers_given (qs : list ClientRequest) : list answering_label :=
  match qs with
  | [_; q] => [ARespond true q [9; 9] (so_with_compression Zstd SendOptions_new); ARespond true q [6] SendOptions_new; AWritten 0]
  | _ => []
  end.
Definition client_acts : list answering_label := arrivals ++ answers_given (requests_handed (ac_transport client_called)).
Definition client_done : answering_client :=
  answering_run (C := tag_codec) (T := Target64) 1 client_acts (answering_start (small_transport 1)).
Definition server_calls : list asking_label :=
  calling_back ++ ((fun p => QPump p true) <$> pass 100 (ac_sent client_done)) ++ [QFinish 0 Polled; QFinish 1 Polled].
Definition server_done : asking_server :=
  asking_run (C := tag_codec) (T := Target64) 9 server_calls (asking_start small_table).

Lemma callback_witness :
  exists p q an, as_results server_done !! 0%nat = Some (Done (Some p)) /\ payload p = [9; 9] /\ cq_data q = [7; 7; 7] /\
    ac_answers client_done = [an] /\ an_responder an = responder_of q /\ arrives (H := tag_codec) 100 (an_packet an) p.
Proof.
  unfold server_done, client_done.
  destruct (as_results (asking_run _ _ _) !! 0%nat) as [[[p|]| |]|] eqn:Hres; try (vm_compute in Hres; discriminate Hres).
  assert (Hopen : opened_server 9 small_table).
  { split; [apply small_good; by right|]. exists 1. split; [vm_compute; reflexivity|vm_compute; discriminate]. }
  destruct (callbacks_match_their_requests (C := tag_codec) (L := tag_codec_laws) (T := Target64) 9 1 small_table
    (small_transport 1) server_calls client_acts 100 100 0 p Hopen
    ltac:(vm_compute; discriminate) (small_good 1 ltac:(by left)) ltac:(vm_compute; discriminate) eq_refl) as
    (st & q & an & Hst & _ & Hans & Hr & Han & Hd & _).
  - apply pass_transmitted; vm_compute; reflexivity.
  - apply pass_transmitted; vm_compute; reflexivity.
  - exact Hres.
  - exists p, q, an. split_and!; [reflexivity| | | |exact Hr|exact Han].
    + vm_compute in Hres. injection Hres as <-. reflexivity.
    + vm_compute in Hst. injection Hst as <-. apply Hd. split; [vm_compute; discriminate|reflexivity].
    + vm_compute in Hst. injection Hst as <-. vm_compute in Hans. injection Hans as <-. vm_compute. reflexivity.
Defined.
