(* ===== verification/Handles.v ===== *)
(** * Handles: what handlers and applications hold

    The [SessionSender] of [transport/session_actor.rs], the [ClientEvents] of
    [stream.rs], the map of [transport/concurrent.rs] the session tables are made
    of, and the questions a server answers about its sessions. *)

From S2P Require Import Prelude Packet Errors Limits Stream Events Registry Writes Transport TransportProps Actor Client Server.

(** ** [SessionSender] *)

Section Sender.
Context `{C : Codecs} `{T : Target}.

(** Bound to its session; [own]: the registry whose counter numbers its one-way
    messages. The first step of a confirmed send: what is built is what
    [send_confirmed_with] then enqueues. *)
Record SessionSender := mkSender { sn_session_id : SessionId }.

Definition send_data_with_options (data : bytes) (options : SendOptions) (own : RequestRegistry) (sn : SessionSender) (t : Transport)
    : RequestRegistry * Transport * exec TransportError (Packet * WriteCompletion * SessionId) :=
  match build_one_way data options own with
  | (own, Done p) =>
      let '(t, c, res) := send_start (Some (sn_session_id sn)) None t in (own, t, s ← res; Done (p, c, s))
  | (own, Throw e) => (own, t, Throw e)
  | (own, Panic) => (own, t, Panic)
  end.
Definition send_data (data : bytes) (own : RequestRegistry) (sn : SessionSender) (t : Transport)
    : RequestRegistry * Transport * exec TransportError (Packet * WriteCompletion * SessionId) :=
  send_data_with_options data SendOptions_new own sn t.

(** Not bound to the session: the plain [send] of the transport, whose enqueue
    happens on [t']. *)
Definition send_data_detached (data : bytes) (own : RequestRegistry) (t t' : Transport)
    : RequestRegistry * Transport * exec TransportError unit :=
  match build_one_way data SendOptions_new own with
  | (own, Done p) => let '(t, res) := send p t t' in (own, t, res)
  | (own, Throw e) => (own, t', Throw e)
  | (own, Panic) => (own, t', Panic)
  end.
End Sender.

(** ** [ClientEvents] *)

(** The receiver of the client's event queue; [ce_open]: a sender is left. *)
Record ClientEvents := mkEvents { ce_queue : list ClientEvent; ce_open : bool }.

(** The outer [None]: it waits. *)
Definition events_next (e : ClientEvents) : option (option ClientEvent) * ClientEvents :=
  match ce_queue e with
  | x :: queue => (Some (Some x), mkEvents queue (ce_open e))
  | [] => (if ce_open e then None else Some None, e)
  end.
Definition try_next (e : ClientEvents) : option ClientEvent * ClientEvents :=
  match ce_queue e with
  | x :: queue => (Some x, mkEvents queue (ce_open e))
  | [] => (None, e)
  end.

(** [n] calls that do not wait. *)
Fixpoint try_all (n : nat) (e : ClientEvents) : list (option ClientEvent) * ClientEvents :=
  match n with
  | O => ([], e)
  | S n => let '(x, e) := try_next e in let '(xs, e) := try_all n e in (x :: xs, e)
  end.

(** ** [ConcurrentMap] *)

Section ConcurrentMap.
Context `{Countable K} {V : Type}.

Definition cmap_new : gmap K V := ∅.
Definition cmap_get (key : K) (m : gmap K V) : option V := m !! key.
Definition cmap_insert (key : K) (value : V) (m : gmap K V) : exec TransportError (option V) * gmap K V :=
  (Done (m !! key), <[key := value]> m).
Definition cmap_remove (key : K) (m : gmap K V) : exec TransportError (option V) * gmap K V :=
  (Done (m !! key), delete key m).
Definition cmap_len (m : gmap K V) : nat := size m.
(** In the order the shards are walked in. *)
Definition cmap_keys (m : gmap K V) (ks : list K) : Prop := ks ≡ₚ (map_to_list m).*1.
End ConcurrentMap.

(** ** The questions a server answers *)

Definition active_sessions (t : sessions_table) : gset SessionId := sv_transports t.
Definition session_count (t : sessions_table) : nat := size (sv_transports t).
Definition should_ignore_messages (s : SessionId) (t : sessions_table) : bool := csm_should_ignore_messages s (sv_states t).

(** ** Properties *)

Section Sender.
Context `{C : Codecs} `{T : Target}.

(** A confirmed send that starts has a writer of its own session, installed at
    that moment; the message has the number it was given, and nothing else of the
    connections has changed. *)
Lemma confirmed_send_is_bound data options own sn t :
  let '(own', t', res) := send_data_with_options data options own sn t in
  tp_conns t' = tp_conns t /\ next_id own' = wrap 32 (next_id own + 1) /\
  forall p c s, res = Done (p, c, s) ->
    s = sn_session_id sn /\ tp_slot t = Some s /\ apply options (one_way (next_id own) data) = Done p.
Proof.
  unfold send_data_with_options, build_one_way, next_oneway_id.
  destruct (apply options (one_way (next_id own) data)) as [p|e|]; [|by split_and!..].
  pose proof (send_start_spec (Some (sn_session_id sn)) None t) as H. destruct (send_start _ _ _) as [[t' c] [s|e|]]; simpl.
  - destruct H as (_ & Hc & Hs & He & _). split_and!; [done..|]. intros p' c' s' [= <- <- <-]. split_and!; [by apply He|done..].
  - destruct H as (_ & Hc & _). by split_and!.
  - destruct H as (_ & _ & []).
Qed.

(** The detached tier is bound to nothing: with another connection installed it
    takes that one's writer. *)
Lemma detached_send_is_not_bound data own t t' s p : tp_slot t = Some s ->
  apply SendOptions_new (one_way (next_id own) data) = Done p ->
  (send_data_detached data own t t').1.2 = (enqueue_on s p detached t').1.
Proof.
  intros Hs Hp. unfold send_data_detached, build_one_way, next_oneway_id. rewrite Hp. unfold send, capture_writer.
  rewrite Hs. by destruct (enqueue_on s p detached t').
Qed.
End Sender.

(** Calls that do not wait hand out what is queued, in order, and then nothing;
    the stream ends for [next] once it is empty and closed. *)
Lemma try_all_drains n e :
  try_all n e = ((Some <$> take n (ce_queue e)) ++ replicate (n - length (ce_queue e)) None, mkEvents (drop n (ce_queue e)) (ce_open e)).
Proof.
  revert e. induction n as [|n IH]; intros [queue o]; [by destruct queue|]. destruct queue as [|x queue]; cbn -[minus].
  - rewrite IH. simpl. by rewrite drop_nil, take_nil, Nat.sub_0_r.
  - rewrite IH. simpl. by destruct n.
Qed.
Lemma next_ends e : events_next e = (Some None, e) <-> ce_queue e = [] /\ ce_open e = false.
Proof. destruct e as [[|x queue] []]; unfold events_next; simpl; naive_solver. Qed.
Lemma next_is_try e x e' : try_next e = (Some x, e') -> events_next e = (Some (Some x), e').
Proof. destruct e as [[|y queue] o]; unfold events_next, try_next; simpl; naive_solver. Qed.

(** What was stored is read back, and the keys are the ones with a value. *)
Lemma cmap_reads `{Countable K} {V} (k k' : K) (v : V) (m : gmap K V) :
  cmap_get k' (cmap_insert k v m).2 = (if decide (k = k') then Some v else cmap_get k' m) /\
  cmap_get k' (cmap_remove k m).2 = (if decide (k = k') then None else cmap_get k' m).
Proof. unfold cmap_get. simpl. case_decide; subst; by rewrite ?lookup_insert_eq, ?lookup_delete_eq, ?lookup_insert_ne, ?lookup_delete_ne. Qed.
Lemma cmap_keys_spec `{Countable K} {V} (m : gmap K V) ks : cmap_keys m ks ->
  NoDup ks /\ length ks = cmap_len m /\ forall k, k ∈ ks <-> is_Some (cmap_get k m).
Proof.
  intros Hk. unfold cmap_keys in Hk. split_and!.
  - rewrite Hk. apply NoDup_fst_map_to_list.
  - rewrite (Permutation_length Hk), length_fmap. apply length_map_to_list.
  - intros k. rewrite Hk, list_elem_of_fmap. unfold cmap_get. split.
    + intros ([k' v] & -> & Hin%elem_of_map_to_list). simpl. eauto.
    + intros [v Hv]. exists (k, v). split; [done|]. by apply elem_of_map_to_list.
Qed.
