(* ===== verification/ClientInv.v ===== *)
(** * Invariants of the client: what every step of every call and task keeps *)

From Stdlib Require Import SpecFloat.
From S2P Require Import Prelude Packet Errors Limits Stream Events Registry Writes Transport Actor Retry Client.

(** ** What no step but an installation does to the transport *)

(** No connection is installed, an installed one is at most being closed, and
    events are only added. *)
Record subsides (t t' : Transport) : Prop := {
  sb_slot : tp_slot t' = tp_slot t \/ tp_slot t' = None;
  sb_states : forall s, tp_slot t' = Some s -> tp_states t' !! s = tp_states t !! s \/
    (tp_states t !! s = Some Connected /\ tp_states t' !! s = Some Closing);
  sb_events : tp_events t `prefix_of` tp_events t'
}.

Lemma subsides_same t t' : tp_slot t' = tp_slot t -> tp_states t' = tp_states t -> tp_events t' = tp_events t -> subsides t t'.
Proof. intros H1 H2 H3. split; [by left|rewrite H2; by left|by rewrite H3]. Qed.

#[export] Instance subsides_refl : Reflexive subsides.
Proof. intros t. by apply subsides_same. Qed.

#[export] Instance subsides_trans : Transitive subsides.
Proof.
  intros t1 t2 t3 [A1 A2 A3] [B1 B2 B3]. split; [| |by trans (tp_events t2)].
  - destruct B1 as [->| ->]; [done|by right].
  - intros s Hs. assert (tp_slot t2 = Some s) as Hs2 by (destruct B1; congruence).
    destruct (A2 s Hs2) as [<-|[HA1 HA2]], (B2 s Hs) as [->|[HB1 HB2]]; auto.
Qed.

Lemma close_connection_frame s t : tp_slot (close_connection s t) = tp_slot t /\
  tp_states (close_connection s t) = tp_states t /\ tp_events (close_connection s t) = tp_events t /\
  tp_epoch (close_connection s t) = tp_epoch t.
Proof. unfold close_connection. by destruct (tp_conns t !! s). Qed.

Lemma subsides_close_connection s t : subsides t (close_connection s t).
Proof. destruct (close_connection_frame s t) as (? & ? & ? & _). by apply subsides_same. Qed.

Lemma subsides_forward s tok e t : subsides t (forward_client_event_with_token s tok e t).
Proof.
  unfold forward_client_event_with_token. destruct (tp_listening t); [|done].
  split; cbn; [by left|by left|by eexists].
Qed.

Lemma subsides_registry r t : subsides t (set_tp_registry r t).
Proof. by apply subsides_same. Qed.

Lemma take_slot_cases s t : (tp_slot t = Some s /\ take_slot s t = (true, set_slot None t)) \/
  (tp_slot t <> Some s /\ take_slot s t = (false, t)).
Proof. unfold take_slot. destruct (decide (tp_slot t = Some s)); auto. Qed.

Lemma take_slot_gone s t : tp_slot (take_slot s t).2 <> Some s.
Proof. by destruct (take_slot_cases s t) as [[H ->]|[H ->]]. Qed.

Lemma subsides_take s t : subsides t (take_slot s t).2.
Proof.
  destruct (take_slot_cases s t) as [[H ->]|[H ->]]; [|done]. split; cbn; [by right|done|done].
Qed.

(** Marking a session closed and forgetting it, once it is not installed. *)
Lemma subsides_forget s t : tp_slot t <> Some s -> subsides t (remove_connection s (mark_closed s t)).
Proof.
  intros Hs. split; cbn; [by left| |done]. intros s' Hs'. left. assert (s <> s') by congruence.
  unfold csm_remove_connection, csm_mark_closed. rewrite lookup_delete_ne by done.
  case_match; [by rewrite lookup_insert_ne|done].
Qed.

Lemma subsides_close_taken graceful s t : subsides t (close_taken graceful s t).
Proof.
  unfold close_taken. destruct graceful; [apply subsides_close_connection|].
  etrans; apply subsides_close_connection.
Qed.

Lemma subsides_retire s t : subsides t (retire_generation s t).
Proof.
  unfold retire_generation. pose proof (subsides_take s t) as H. pose proof (take_slot_gone s t) as Hg.
  destruct (take_slot s t) as [taken t1]. cbn in *. etrans; [exact H|].
  etrans; [by apply (subsides_forget s)|]. destruct taken; [apply subsides_close_connection|done].
Qed.

Lemma subsides_teardown s t : subsides t (teardown s t).
Proof. unfold teardown. etrans; [apply subsides_retire|apply subsides_registry]. Qed.

Lemma subsides_event `{Target} now now' s e t : subsides t (on_event now now' s e t).
Proof.
  destruct e as [info|reason|p|i|err]; cbn [on_event]; try apply subsides_forward.
  - etrans; [|apply subsides_forward]. etrans; [|apply subsides_retire]. apply subsides_registry.
  - destruct (packet_type (header p)); [apply subsides_forward| |].
    + destruct (register _ _ _ _ _ _ _) as [[tok|] r]; [etrans; [|apply subsides_forward]|]; apply subsides_registry.
    + destruct (complete_waiter _ _ _ _) as [[] r]; [|etrans; [|apply subsides_forward]]; apply subsides_registry.
Qed.

Lemma subsides_announce s t : subsides t (announce_event s t).
Proof. unfold announce_event. destruct (tp_conns t !! s); [apply subsides_forward|done]. Qed.

Lemma subsides_policy p t : subsides t (set_frame_policy p t).
Proof. unfold set_frame_policy. destruct (tp_slot t) eqn:E; [|done]. by apply subsides_same. Qed.

Lemma try_start_closing_spec s t : match try_start_closing s t with
  | (true, t') => tp_states t !! s = Some Connected /\ t' = set_states (<[s := Closing]> (tp_states t)) t
  | (false, t') => tp_states t !! s <> Some Connected /\ t' = set_states (tp_states t) t
  end.
Proof. unfold try_start_closing, csm_try_start_closing. destruct (tp_states t !! s) as [[]|]; by cbn. Qed.

(** A close step; it marks a session closed only once that is not installed. *)
Lemma subsides_close_step force graceful pc t : (forall s, pc = CloseMark s -> tp_slot t <> Some s) ->
  let '(t', next) := close_step force graceful pc t in
  subsides t t' /\
  match pc, next with
  | CloseStart s, None => tp_states t !! s <> Some Connected
  | CloseStart s, Some next => next = CloseTake s /\ tp_states t' !! s = Some Closing
  | CloseTake s, next => next = Some (CloseMark s) /\ tp_slot t' <> Some s
  | CloseMark s, next => next = None
  end.
Proof.
  intros Hm. destruct pc as [s|s|s]; cbn [close_step].
  - pose proof (try_start_closing_spec s t) as H. destruct (try_start_closing s t) as [[] t'].
    + destruct H as [Hs ->]. split; [|split; [done|]].
      * split; cbn; [by left| |done]. intros s' Hs'. destruct (decide (s' = s)) as [->|].
        { right. by rewrite lookup_insert_eq. } left. by rewrite lookup_insert_ne.
      * cbn. apply lookup_insert_eq.
    + destruct H as [Hs ->]. split; [by apply subsides_same|done].
  - pose proof (subsides_take s t) as H. pose proof (take_slot_gone s t) as Hg.
    destruct (take_slot s t) as [taken t1]. cbn in *.
    set (t' := if taken then _ else _). assert (Ht' : subsides t1 t' /\ tp_slot t' = tp_slot t1).
    { unfold t', close_taken. destruct taken, force, graceful; cbn; try done;
        rewrite ?(proj1 (close_connection_frame s _)); (split; [|done]);
        repeat first [done | apply subsides_close_connection | etrans; [apply subsides_close_connection|]]. }
    destruct Ht' as [H1 H2]. split_and!; [by trans t1|done|congruence].
  - split; [by apply subsides_forget, Hm|done].
Qed.

(** The steps, run together, are the operations of the transport. *)
Lemma close_steps_are_close_session graceful s t :
  let '(t1, next1) := close_step false graceful (CloseStart s) t in
  match next1 with
  | None => close_session graceful s t = t1
  | Some pc1 =>
      let '(t2, next2) := close_step false graceful pc1 t1 in
      match next2 with Some pc2 => close_session graceful s t = (close_step false graceful pc2 t2).1 | None => False end
  end.
Proof.
  cbn [close_step]. unfold close_session. destruct (try_start_closing s t) as [[] t1]; [|done]. cbn [close_step].
  by destruct (take_slot s (close_pending s t1)) as [[] t2].
Qed.

Lemma installing_is_set_connection cn t :
  set_connection cn t = let '(s, t') := install_open cn t in (s, announce_event s t').
Proof. unfold set_connection, install_open. by destruct (install cn t) as [s t1]. Qed.

(** ** The invariants of a client *)

Definition td_ended (pc : teardown_pc) : bool := match pc with TdEnding _ | TdFinished _ => true | _ => false end.

(** An installed connection is open, or somebody has begun to close it. *)
Definition slot_ok (t : Transport) : Prop :=
  forall s, tp_slot t = Some s -> tp_states t !! s = Some Connected \/ tp_states t !! s = Some Closing.
Definition closing_slot (t : Transport) : Prop := forall s, tp_slot t = Some s -> tp_states t !! s = Some Closing.

(** What the teardown has already put to rest. *)
Definition td_background (pc : teardown_pc) (b : background) : Prop :=
  match pc with
  | TdScanner => bg_forwarding b = false
  | TdEnding false | TdFinished false => bg_forwarding b = false /\ bg_scanning b = false
  | _ => True
  end.
Definition td_slot (pc : teardown_pc) (t : Transport) : Prop :=
  match pc with
  | TdStart | TdDisconnect _ | TdEnding true | TdFinished true => True
  | TdClosing (CloseStart s) => forall s', tp_slot t = Some s' -> s' = s
  | TdClosing (CloseMark s) => tp_slot t <> Some s /\ closing_slot t
  | _ => closing_slot t
  end.

Definition td_ok (f : cl_life) (b : background) (t : Transport) : Prop :=
  match cf_teardown f with
  | None => cf_phase f = CLIENT_ACTIVE /\ cf_handle f = false /\ cf_done f = false
  | Some pc =>
      cf_phase f = (if td_ended pc then CLIENT_STOPPED else CLIENT_SHUTTING_DOWN) /\ cf_done f = td_ended pc /\
      (cf_handle f = false -> exists p, pc = TdFinished p) /\ td_background pc b /\ td_slot pc t
  end.

(** A living task has its handle stored; the sender goes with the first shutdown. *)
Definition bg_ok (f : cl_life) (b : background) : Prop :=
  (cf_phase f <> CLIENT_ACTIVE -> bg_sender b = false) /\
  (bg_forwarding b = true -> bg_task_handle b = true) /\ (bg_scanning b = true -> bg_scanner_handle b = true).

Definition call_ok (f : cl_life) (pc : call_pc) : Prop :=
  match pc with
  | ShWait => cf_teardown f <> None
  | ShJoin => cf_done f = true
  | ShReport panicked =>
      cf_handle f = false /\ exists p, cf_teardown f = Some (TdFinished p) /\ (panicked = true -> p = true)
  | ShReturned r =>
      cf_handle f = false /\ exists p, cf_teardown f = Some (TdFinished p) /\ (p = false -> r = shutdown_result f)
  | _ => True
  end.

Record inv (c : client) : Prop := {
  iv_slot : slot_ok (cl_tp c);
  iv_bg : bg_ok (cl_life_of c) (cl_bg c);
  iv_td : td_ok (cl_life_of c) (cl_bg c) (cl_tp c);
  iv_excl : forall n m pc pc', cl_calls c !! n = Some pc -> cl_calls c !! m = Some pc' -> n <> m ->
    is_connect pc = true -> is_returned pc' = true;
  iv_gate : forall n pc, cl_calls c !! n = Some pc -> is_connect pc = true ->
    pc = CtGate \/ cf_phase (cl_life_of c) = CLIENT_ACTIVE;
  iv_mark : forall n force s, cl_calls c !! n = Some (DcClosing force (CloseMark s)) -> tp_slot (cl_tp c) <> Some s;
  iv_calls : forall n pc, cl_calls c !! n = Some pc -> call_ok (cl_life_of c) pc
}.

Lemma inv_new retry config policy : inv (client_new retry config policy).
Proof. split; try done. Qed.

Lemma slot_ok_subsides t t' : subsides t t' -> slot_ok t -> slot_ok t'.
Proof.
  intros [H1 H2 _] Hs s Hs'. destruct (H2 s Hs') as [->|[_ ->]]; [|by right]. apply Hs. destruct H1; congruence.
Qed.

Lemma closing_slot_subsides t t' : subsides t t' -> closing_slot t -> closing_slot t'.
Proof.
  intros [H1 H2 _] Hs s Hs'. assert (Ht : tp_slot t = Some s) by (destruct H1; congruence).
  specialize (Hs s Ht). by destruct (H2 s Hs') as [->|[_ ->]].
Qed.

Lemma slot_subsides t t' s : subsides t t' -> tp_slot t' = Some s -> tp_slot t = Some s.
Proof. intros [H1 _ _] Hs. destruct H1; congruence. Qed.

Lemma td_slot_subsides pc t t' : subsides t t' -> td_slot pc t -> td_slot pc t'.
Proof.
  intros Hs. destruct pc as [| |[s|s|s]| | |[]|[]]; cbn; try done; try by apply closing_slot_subsides.
  - intros H s' Hs'. eapply H, slot_subsides; eauto.
  - intros [H1 H2]. split; [|by eapply closing_slot_subsides]. intros Hs'. eapply H1, slot_subsides; eauto.
Qed.

Lemma inv_tp t c : subsides (cl_tp c) t -> inv c -> inv (put_tp t c).
Proof.
  intros Hs [H1 H2 H3 H4 H5 H6 H7]. split; cbn; try done.
  - by eapply slot_ok_subsides.
  - unfold td_ok in *. destruct (cf_teardown (cl_life_of c)) as [pc|]; [|done].
    destruct H3 as (? & ? & ? & ? & ?). split_and!; try done. by eapply td_slot_subsides.
  - intros n force s Hn Hs'. by eapply H6, slot_subsides.
Qed.

Lemma inv_consumers x c : inv c -> inv (put_consumers x c).
Proof. by intros []. Qed.
Lemma inv_session x c : inv c -> inv (put_session x c).
Proof. by intros []. Qed.

(** A call moves on. *)
Lemma inv_goto n pc0 pc c : cl_calls c !! n = Some pc0 -> is_returned pc0 = false ->
  (is_connect pc = true -> is_connect pc0 = true /\ (pc = CtGate \/ cf_phase (cl_life_of c) = CLIENT_ACTIVE)) ->
  (forall force s, pc = DcClosing force (CloseMark s) -> tp_slot (cl_tp c) <> Some s) ->
  call_ok (cl_life_of c) pc -> inv c -> inv (put_calls (<[n := pc]> (cl_calls c)) c).
Proof.
  intros Hn Hr Hc Hm Hok [H1 H2 H3 H4 H5 H6 H7]. split; cbn; try done.
  - intros i j pi pj Hi Hj Hij Hpi. destruct (decide (i = n)) as [->|Hin], (decide (j = n)) as [->|Hjn]; try done.
    + rewrite lookup_insert_eq in Hi. rewrite lookup_insert_ne in Hj by done. injection Hi as <-.
      destruct (Hc Hpi) as [Hpc _]. by eapply (H4 n j).
    + rewrite lookup_insert_eq in Hj. rewrite lookup_insert_ne in Hi by done. injection Hj as <-.
      pose proof (H4 i n pi pc0 Hi Hn Hin Hpi). congruence.
    + rewrite lookup_insert_ne in Hi, Hj by done. by eapply (H4 i j).
  - intros i pi Hi Hpi. destruct (decide (i = n)) as [->|Hin].
    + rewrite lookup_insert_eq in Hi. injection Hi as <-. by apply Hc.
    + rewrite lookup_insert_ne in Hi by done. by eapply H5.
  - intros i force s Hi. destruct (decide (i = n)) as [->|Hin].
    + rewrite lookup_insert_eq in Hi. injection Hi as ->. by eapply Hm.
    + rewrite lookup_insert_ne in Hi by done. by eapply H6.
  - intros i pi Hi. destruct (decide (i = n)) as [->|Hin].
    + rewrite lookup_insert_eq in Hi. by injection Hi as <-.
    + rewrite lookup_insert_ne in Hi by done. by eapply H7.
Qed.

(** The lifecycle moves on, the calls following it. *)
Lemma inv_life f b c : inv c -> bg_ok f b -> td_ok f b (cl_tp c) ->
  (cf_phase (cl_life_of c) = CLIENT_ACTIVE -> cf_phase f = CLIENT_ACTIVE \/
    forall n pc, cl_calls c !! n = Some pc -> is_connect pc = true -> pc = CtGate) ->
  (forall n pc, cl_calls c !! n = Some pc -> call_ok (cl_life_of c) pc -> call_ok f pc) ->
  inv (put_life_of f (put_bg b c)).
Proof.
  intros [H1 H2 H3 H4 H5 H6 H7] Hb Ht Hp Hc. split; cbn; try done.
  - intros n pc Hn Hpc. destruct (H5 n pc Hn Hpc) as [|Ha]; [by left|].
    destruct (Hp Ha) as [|Hg]; [by right|left; by eapply Hg].
  - intros n pc Hn. eapply Hc, H7; eauto.
Qed.

Lemma call_ok_running f f' pc : (forall p, cf_teardown f <> Some (TdFinished p)) -> (cf_done f = true -> cf_done f' = true) ->
  (cf_teardown f <> None -> cf_teardown f' <> None) -> call_ok f pc -> call_ok f' pc.
Proof.
  intros Hf Hd Ht. destruct pc; cbn; auto; [intros (_ & p & Hp & _)|intros (_ & p & Hp & _)]; by destruct (Hf p).
Qed.

(** Steps of the queue leave every task as it is. *)
Lemma inv_bg_same c b : bg_sender b = bg_sender (cl_bg c) -> bg_forwarding b = bg_forwarding (cl_bg c) ->
  bg_task_handle b = bg_task_handle (cl_bg c) -> bg_scanning b = bg_scanning (cl_bg c) ->
  bg_scanner_handle b = bg_scanner_handle (cl_bg c) -> inv c -> inv (put_bg b c).
Proof.
  intros E1 E2 E3 E4 E5 Hi. change (put_bg b c) with (put_life_of (cl_life_of c) (put_bg b c)). apply inv_life; auto.
  - unfold bg_ok. rewrite E1, E2, E3, E4, E5. apply (iv_bg c Hi).
  - pose proof (iv_td c Hi) as Ht. unfold td_ok in *. destruct (cf_teardown (cl_life_of c)) as [pc|]; [|done].
    destruct Ht as (? & ? & ? & Hb & ?). split_and!; try done. destruct pc as [| | | | |[]|[]]; cbn in *; by rewrite ?E2, ?E4.
Qed.

Section Invariants.
Context `{T : Target} (powi : spec_float -> Z -> spec_float).

(** What starts in the background while the client is active. *)
Lemma bg_ok_start f b : cf_phase f = CLIENT_ACTIVE -> bg_ok f b ->
  bg_ok f (start_event_forwarding b).1 /\ bg_ok f (start_request_scanner (start_event_forwarding b).1).
Proof.
  intros Hp (H1 & H2 & H3). unfold start_event_forwarding, start_request_scanner.
  repeat case_match; (split; (split_and!; [by intros ?|..])); cbn; auto.
Qed.

Lemma inv_background b c : cf_phase (cl_life_of c) = CLIENT_ACTIVE -> bg_ok (cl_life_of c) b -> inv c -> inv (put_bg b c).
Proof.
  intros Hp Hb Hi. change (put_bg b c) with (put_life_of (cl_life_of c) (put_bg b c)). apply inv_life; auto.
  pose proof (iv_td c Hi) as Ht. unfold td_ok in *. destruct (cf_teardown (cl_life_of c)) as [pc|]; [|done].
  destruct Ht as [Ht _]. rewrite Hp in Ht. by destruct (td_ended pc).
Qed.

Lemma inv_install cn c s t : cf_phase (cl_life_of c) = CLIENT_ACTIVE -> install_open cn (cl_tp c) = (s, t) ->
  (forall n force s, cl_calls c !! n <> Some (DcClosing force (CloseMark s))) -> inv c -> inv (put_tp t c).
Proof.
  intros Hp Hin Hm [H1 H2 H3 H4 H5 H6 H7].
  assert (Hslot : tp_slot t = Some s /\ tp_states t !! s = Some Connected).
  { revert Hin. unfold install_open, install, add_connection, csm_add_connection. destruct (tp_slot (cl_tp c)) as [o|]; intros [= <- <-]; cbn.
    - match goal with |- context [close_connection ?o ?t] => destruct (close_connection_frame o t) as (-> & -> & _ & _) end.
      cbn. by rewrite lookup_insert_eq.
    - by rewrite lookup_insert_eq. }
  destruct Hslot as [Hs Hst]. split; cbn; try done.
  - intros s'. rewrite Hs. intros [= <-]. by left.
  - unfold td_ok in *. destruct (cf_teardown (cl_life_of c)) as [pc|]; [|done].
    destruct H3 as [Ht _]. rewrite Hp in Ht. by destruct (td_ended pc).
  - intros n force s' Hn. by destruct (Hm n force s').
Qed.

Lemma inv_spawn n c : cl_calls c !! n = Some ShStart -> inv c ->
  inv (put_life_of (spawn_teardown (cl_life_of c)) (put_bg (put_sender false (cl_bg c)) c)) /\
  cf_teardown (spawn_teardown (cl_life_of c)) <> None.
Proof.
  intros Hn Hi. pose proof Hi as [H1 (H2 & H2' & H2'') H3 H4 H5 H6 H7]. unfold spawn_teardown. unfold td_ok in H3.
  destruct (cf_teardown (cl_life_of c)) as [pc|] eqn:Htd.
  - destruct H3 as (Hp & Hd & Hh & Hb & Hs).
    assert (Hf : match cf_phase (cl_life_of c) with CLIENT_ACTIVE => put_phase CLIENT_SHUTTING_DOWN (cl_life_of c) | _ => cl_life_of c end = cl_life_of c).
    { rewrite Hp. by destruct (td_ended pc). }
    rewrite Hf. assert (Hno : negb (cf_handle (cl_life_of c)) && negb (bool_decide (cf_phase (cl_life_of c) = CLIENT_STOPPED)) = false).
    { destruct (cf_handle (cl_life_of c)); [done|]. destruct (Hh eq_refl) as [p ->]. cbn in Hp. by rewrite Hp. }
    rewrite Hno. split; [|congruence]. apply inv_life; [done|split_and!; [by intros ?|done|done]| |auto|auto].
    unfold td_ok. rewrite Htd. by split_and!.
  - destruct H3 as (Hp & Hh & Hd). rewrite Hp. cbn. rewrite Hh. cbn. split; [|done]. apply inv_life; [done|split_and!; [done|done|done]| | |].
    + unfold td_ok. cbn. by split_and!.
    + intros _. right. intros m pc Hm Hpc. exfalso. destruct (decide (m = n)) as [->|].
      * rewrite Hn in Hm. by injection Hm as <-.
      * by specialize (H4 m n pc ShStart Hm Hn ltac:(done) Hpc).
    + intros m pc _. apply call_ok_running; cbn; [congruence|congruence|done].
Qed.

(** One step of a call keeps the invariant: of a [connect], *)
Lemma inv_connect_step env n pc c c' : cl_calls c !! n = Some pc -> is_connect pc = true -> inv c ->
  connect_step powi env n pc c = Some c' -> inv c'.
Proof.
  intros Hn Hpc Hi. unfold connect_step, goto. pose proof (fun H => iv_gate c Hi n pc Hn H) as Hg.
  destruct pc as [| | |s|s|s| |r|force|force pc|r| | | |p|r]; cbn [is_connect] in Hg; try done.
  - destruct (cf_phase (cl_life_of c)) eqn:Hp; intros [= <-]; by (eapply inv_goto; eauto).
  - destruct (Hg eq_refl) as [|Ha]; [done|].
    repeat case_match; intros [= <-]; by (eapply inv_goto; eauto).
  - destruct (Hg eq_refl) as [|Ha]; [done|]. destruct env as [| |build]; try done.
    destruct (cl_config c) as [dc|]; [|done]. destruct (connect_with_stored_config _ _ _ _).2 as [cn|e|].
    + destruct (install_open cn (cl_tp c)) as [s t] eqn:Hin. intros [= <-].
      apply (inv_goto n CtBuilding _ (put_tp t c)); [done|done|by auto|done|done|].
      eapply inv_install; [done|done| |done]. intros m force s' Hm.
      assert (m <> n) by congruence.
      by specialize (iv_excl c Hi n m _ _ Hn Hm ltac:(done) eq_refl).
    + intros [= <-]. by eapply inv_goto.
    + intros [= <-]. by eapply inv_goto.
  - destruct (Hg eq_refl) as [|Ha]; [done|]. intros [= <-].
    apply (inv_goto n (CtAnnouncing s) _ (put_consumers ({[s]} ∪ cl_consumers c) (put_tp (announce_event s (cl_tp c)) c)));
      [done|done|by auto|done|done|].
    apply inv_consumers, inv_tp; [apply subsides_announce|done].
  - destruct (Hg eq_refl) as [|Ha]; [done|]. intros [= <-].
    apply (inv_goto n (CtPolicy s) _ (put_tp (set_frame_policy (cl_policy c) (cl_tp c)) c)); [done|done|by auto|done|done|].
    apply inv_tp; [apply subsides_policy|done].
  - destruct (Hg eq_refl) as [|Ha]; [done|]. intros [= <-].
    apply (inv_goto n (CtSession s) _ (put_session (Some s) c)); [done|done|by auto|done|done|]. by apply inv_session.
  - destruct (Hg eq_refl) as [|Ha]; [done|]. destruct (bg_ok_start _ _ Ha (iv_bg c Hi)) as [Hb1 Hb2].
    assert (Hgo : forall b r, bg_ok (cl_life_of c) b ->
      inv (put_calls (<[n := CtReturned r]> (cl_calls (put_bg b c))) (put_bg b c))).
    { intros b r Hb. apply (inv_goto n CtForward _ (put_bg b c)); [done..|]. by apply inv_background. }
    destruct (start_event_forwarding (cl_bg c)) as [b [u|e|]]; cbn in Hb1, Hb2; intros [= <-]; by apply Hgo.
Qed.

(** of a [disconnect], *)
Lemma inv_disconnect_step env n pc c c' : cl_calls c !! n = Some pc -> inv c ->
  disconnect_step env n pc c = Some c' -> inv c'.
Proof.
  intros Hn Hi. unfold disconnect_step, goto.
  destruct pc as [| | |s|s|s| |r|force|force pc|r| | | |p|r]; try done.
  - destruct (cl_session c) as [s|]; intros [= <-].
    + apply (inv_goto n (DcTake force) _ (put_session None c)); [done..|]. by apply inv_session.
    + by eapply (inv_goto n (DcTake force)).
  - pose proof (subsides_close_step force (graceful_of env) pc (cl_tp c)) as Hs.
    destruct (close_step force (graceful_of env) pc (cl_tp c)) as [t next].
    destruct Hs as [Hsub Hnext]; [intros s ->; by eapply (iv_mark c Hi)|].
    destruct next as [pc'|]; intros [= <-];
      (apply (inv_goto n (DcClosing force pc) _ (put_tp t c)); [done|done|done| |done|by apply inv_tp]); [|done].
    intros force' s [= <- ->]. cbn. destruct pc as [s'|s'|s']; [by destruct Hnext| |done]. destruct Hnext as [[= ->] Hgone]. done.
Qed.

(** and of a [shutdown], which takes the teardown's handle to join it *)
Lemma inv_shutdown_join n c : cl_calls c !! n = Some ShJoin -> inv c -> forall c',
  shutdown_step n ShJoin c = Some c' -> inv c'.
Proof.
  intros Hn Hi c'. unfold shutdown_step, goto. pose proof (iv_calls c Hi n _ Hn) as Hok. cbn in Hok.
  pose proof (iv_td c Hi) as Htd. unfold td_ok in Htd.
  destruct (cf_handle (cl_life_of c)) eqn:Hh.
  - destruct (cf_teardown (cl_life_of c)) as [[| | | | | |p]|] eqn:Et; try done. intros [= <-].
    apply (inv_goto n ShJoin _ (put_life_of (put_handle false (cl_life_of c)) c)); [done..| |].
    + cbn. rewrite Et. split; [done|]. by exists p.
    + change (put_life_of (put_handle false (cl_life_of c)) c)
        with (put_life_of (put_handle false (cl_life_of c)) (put_bg (cl_bg c) c)).
      apply inv_life; [done|by apply (iv_bg c Hi)| |by left|].
      * unfold td_ok. cbn. rewrite Et. destruct Htd as (? & ? & ? & ? & ?). split_and!; try done. by exists p.
      * intros m pc _. destruct pc; cbn; try done; rewrite Et; [by intros [_ ?]|by intros [_ ?]].
  - intros [= <-]. eapply inv_goto; [done..| |done]. cbn.
    destruct (cf_teardown (cl_life_of c)) as [pc|]; [|by destruct Htd as (_ & _ & ?); congruence].
    destruct Htd as (_ & _ & Hf & _). destruct (Hf eq_refl) as [p ->]. split; [done|]. by exists p.
Qed.

(** and notes its panic. *)
Lemma inv_shutdown_report n p c : cl_calls c !! n = Some (ShReport p) -> inv c -> forall c',
  shutdown_step n (ShReport p) c = Some c' -> inv c'.
Proof.
  intros Hn Hi c'. unfold shutdown_step, goto. pose proof (iv_calls c Hi n _ Hn) as Hok.
  destruct Hok as (Hh & q & Hq & Hpq). intros [= <-].
  set (f := if p then put_err (Some teardown_panicked) (cl_life_of c) else cl_life_of c).
  assert (Hsame : cf_phase f = cf_phase (cl_life_of c) /\ cf_teardown f = cf_teardown (cl_life_of c) /\
    cf_handle f = cf_handle (cl_life_of c) /\ cf_done f = cf_done (cl_life_of c)) by (by unfold f; destruct p).
  destruct Hsame as (E1 & E2 & E3 & E4). apply (inv_goto n (ShReport p) _ (put_life_of f c)); [done..| |].
  - cbn. rewrite E2, E3. split; [done|]. by exists q.
  - change (put_life_of f c) with (put_life_of f (put_bg (cl_bg c) c)).
    apply inv_life; [done| | |rewrite E1; by left|].
    + unfold bg_ok. rewrite E1. apply (iv_bg c Hi).
    + unfold td_ok. rewrite E1, E2, E3, E4. apply (iv_td c Hi).
    + intros m pc _. destruct pc; cbn; rewrite ?E2, ?E3, ?E4; try done.
      intros [H' (q' & Hq' & Hr)]. split; [done|]. exists q'. split; [done|]. intros ->.
      assert (p = false) as -> by (destruct p; [|done]; assert (q = true) by auto; congruence). by apply Hr.
Qed.

Lemma inv_shutdown_step n pc c c' : cl_calls c !! n = Some pc -> inv c -> shutdown_step n pc c = Some c' -> inv c'.
Proof.
  intros Hn Hi. destruct pc as [| | |s|s|s| |r|force|force pc|r| | | |p|r]; try done.
  - unfold shutdown_step, goto.
    destruct (inv_spawn n c Hn Hi) as [Hi' Htd]. intros [= <-].
      by apply (inv_goto n ShStart _ (put_life_of (spawn_teardown (cl_life_of c)) (put_bg (put_sender false (cl_bg c)) c))).
  - unfold shutdown_step, goto. destruct (cf_done (cl_life_of c)) eqn:Hd; [|done]. intros [= <-]. by eapply inv_goto.
  - by apply inv_shutdown_join.
  - by apply inv_shutdown_report.
Qed.

Lemma inv_call_step env n c c' : inv c -> call_step powi env n c = Some c' -> inv c'.
Proof.
  intros Hi. unfold call_step. destruct (cl_calls c !! n) as [pc|] eqn:Hn; [cbn [mbind option_bind]|done].
  destruct pc; try done; first [by apply inv_connect_step|by apply inv_disconnect_step|by apply inv_shutdown_step].
Qed.

(** The teardown moves from a step that is not its last; the calls that have
    ended or join it do not exist yet. *)
Lemma inv_teardown pc pc' f b t c : cf_teardown (cl_life_of c) = Some pc -> (forall p, pc <> TdFinished p) ->
  subsides (cl_tp c) t -> bg_ok (put_teardown (Some pc') f) b -> td_ok (put_teardown (Some pc') f) b t ->
  (cf_done (cl_life_of c) = true -> cf_done f = true) -> inv c ->
  inv (put_life_of (put_teardown (Some pc') f) (put_bg b (put_tp t c))).
Proof.
  intros Hpc Hne Hs Hb Ht Hd Hi. assert (Hphase : cf_phase (cl_life_of c) <> CLIENT_ACTIVE).
  { pose proof (iv_td c Hi) as H. unfold td_ok in H. rewrite Hpc in H. destruct H as [-> _]. by destruct (td_ended pc). }
  apply inv_life; [by apply inv_tp|done|done|by intros ?|].
  intros n pc0 _. apply call_ok_running; cbn; [rewrite Hpc; intros p [= ->]; by eapply Hne|done|done].
Qed.

(** Of the session's close inside the teardown, *)
Lemma inv_teardown_disconnect graceful b c c' : cf_teardown (cl_life_of c) = Some (TdDisconnect b) -> inv c ->
  teardown_step graceful c = Some c' -> inv c'.
Proof.
  intros Hpc Hi. unfold teardown_step. rewrite Hpc. cbn [mbind option_bind].
  pose proof (iv_td c Hi) as Htd. unfold td_ok in Htd. rewrite Hpc in Htd. destruct Htd as (Hp & Hd & Hh & Hb & Hs).
  destruct (iv_bg c Hi) as (Hb1 & Hb2 & Hb3).
  pose proof (fun pc' f b t => inv_teardown _ pc' f b t c Hpc ltac:(done)) as Hmove.
  destruct (current_session_id (cl_tp c)) as [s|] eqn:Hslot.
  - intros [= <-]. apply (Hmove (TdClosing (CloseStart s)) (cl_life_of c) (cl_bg c) (cl_tp c)); try done.
    unfold td_ok. cbn. split_and!; try done; [intros E; by destruct (Hh E)|]. unfold current_session_id in Hslot. congruence.
  - intros [= <-]. set (f := if b then put_err (Some not_connected) (cl_life_of c) else cl_life_of c).
    assert (inv (put_life_of (put_teardown (Some TdForwarding) f) (put_bg (cl_bg c) (put_tp (cl_tp c) c)))) as Hgoal.
    { apply Hmove; try done; unfold f; destruct b; try done; unfold td_ok; cbn;
        (split_and!; try done; [intros E; by destruct (Hh E)|]); intros s Hs'; unfold current_session_id in Hslot; congruence. }
    unfold f in Hgoal. by destruct b.
Qed.

Lemma inv_teardown_closing graceful pc c c' : cf_teardown (cl_life_of c) = Some (TdClosing pc) -> inv c ->
  teardown_step graceful c = Some c' -> inv c'.
Proof.
  intros Hpc Hi. unfold teardown_step. rewrite Hpc. cbn [mbind option_bind].
  pose proof (iv_td c Hi) as Htd. unfold td_ok in Htd. rewrite Hpc in Htd. destruct Htd as (Hp & Hd & Hh & Hb & Hs).
  destruct (iv_bg c Hi) as (Hb1 & Hb2 & Hb3).
  pose proof (fun pc' f b t => inv_teardown _ pc' f b t c Hpc ltac:(done)) as Hmove.
  pose proof (subsides_close_step false graceful pc (cl_tp c)) as Hstep.
  destruct (close_step false graceful pc (cl_tp c)) as [t next].
  destruct Hstep as [Hsub Hnext]; [intros s ->; by destruct Hs|].
  destruct next as [pc'|]; intros [= <-].
  - apply (Hmove (TdClosing pc') (cl_life_of c) (cl_bg c) t); try done. unfold td_ok. cbn.
    split_and!; try done; [intros E; by destruct (Hh E)|]. destruct pc as [s|s|s]; cbn in Hs.
    + destruct Hnext as [-> Hc]. cbn. intros s' Hs'. assert (s' = s) as -> by (eapply Hs, slot_subsides; eauto). done.
    + destruct Hnext as [[= ->] Hgone]. split; [done|]. by eapply closing_slot_subsides.
    + done.
  - apply (Hmove TdForwarding (cl_life_of c) (cl_bg c) t); try done. unfold td_ok. cbn.
    split_and!; try done; [intros E; by destruct (Hh E)|]. destruct pc as [s|s|s]; cbn in Hs.
    + apply (closing_slot_subsides _ _ Hsub). intros s' Hs'. pose proof (Hs s' Hs') as ->.
      by destruct (iv_slot c Hi s Hs').
    + by destruct Hnext.
    + eapply closing_slot_subsides; [exact Hsub|apply Hs].
Qed.

Lemma inv_teardown_step graceful c c' : inv c -> teardown_step graceful c = Some c' -> inv c'.
Proof.
  intros Hi Hstep. pose proof Hstep as Hrun. revert Hrun. unfold teardown_step.
  destruct (cf_teardown (cl_life_of c)) as [pc|] eqn:Hpc; [cbn [mbind option_bind]|done].
  pose proof (iv_td c Hi) as Htd. unfold td_ok in Htd. rewrite Hpc in Htd. destruct Htd as (Hp & Hd & Hh & Hb & Hs).
  destruct (iv_bg c Hi) as (Hb1 & Hb2 & Hb3).
  assert (Hmove : forall pc' f b t, (forall p, pc <> TdFinished p) -> subsides (cl_tp c) t ->
    bg_ok (put_teardown (Some pc') f) b -> td_ok (put_teardown (Some pc') f) b t ->
    (cf_done (cl_life_of c) = true -> cf_done f = true) ->
    inv (put_life_of (put_teardown (Some pc') f) (put_bg b (put_tp t c)))).
  { intros. by eapply inv_teardown. }
  destruct pc as [|b|pc| | |p|p]; try done.
  - intros [= <-]. apply (Hmove (TdDisconnect _) (cl_life_of c) (cl_bg c) (cl_tp c)); try done.
    unfold td_ok. cbn. split_and!; try done. intros E. by destruct (Hh E).
  - intros _. by eapply inv_teardown_disconnect.
  - intros _. by eapply inv_teardown_closing.
  - intros [= <-]. apply (Hmove TdScanner (cl_life_of c) (join_forwarding (cl_bg c)) (cl_tp c)); try done.
    + split_and!; cbn; auto. destruct (bg_task_handle (cl_bg c)); [done|]. by intros E%Hb2.
    + unfold td_ok. cbn. split_and!; try done; [intros E; by destruct (Hh E)|].
      destruct (bg_task_handle (cl_bg c)) eqn:E; [done|]. destruct (bg_forwarding (cl_bg c)); [|done]. by specialize (Hb2 eq_refl).
  - intros [= <-].
    apply (Hmove (TdEnding false) (teardown_ends (cl_life_of c)) (join_scanner (cl_bg c)) (cl_tp c)); try done.
    + split_and!; cbn; auto; [intros _; apply Hb1; by rewrite Hp|]. destruct (bg_scanner_handle (cl_bg c)); [done|]. by intros E%Hb3.
    + unfold td_ok. cbn. split_and!; try done; [intros E; by destruct (Hh E)|].
      destruct (bg_scanner_handle (cl_bg c)) eqn:E; [done|]. destruct (bg_scanning (cl_bg c)); [|done]. by specialize (Hb3 eq_refl).
  - intros [= <-].
    apply (Hmove (TdFinished p) (teardown_ends (cl_life_of c)) (cl_bg c) (cl_tp c)); try done.
    + split_and!; cbn; auto. intros _. apply Hb1. by rewrite Hp.
    + unfold td_ok. cbn. split_and!; try done; first [by intros; eexists|by destruct p].
Qed.

Lemma inv_teardown_panics c c' : inv c -> teardown_panics c = Some c' -> inv c'.
Proof.
  intros Hi. unfold teardown_panics. destruct (cf_teardown (cl_life_of c)) as [[| |[|s|]| | | |]|] eqn:Hpc; try done.
  destruct (decide _); [|done]. pose proof (subsides_take s (cl_tp c)) as Hs.
  destruct (take_slot s (cl_tp c)) as [taken t]. cbn in Hs. intros [= <-].
  pose proof (iv_td c Hi) as Htd. unfold td_ok in Htd. rewrite Hpc in Htd. destruct Htd as (Hp & Hd & Hh & _).
  destruct (iv_bg c Hi) as (Hb1 & Hb2 & Hb3).
  apply (inv_teardown (TdClosing (CloseTake s)) (TdEnding true) (teardown_ends (cl_life_of c)) (cl_bg c) (close_connection s t));
    try done.
  - etrans; [exact Hs|apply subsides_close_connection].
  - split_and!; cbn; auto. intros _. apply Hb1. by rewrite Hp.
  - unfold td_ok. cbn. split_and!; try done. intros E. by destruct (Hh E).
Qed.

(** A call begins, or its future is dropped. *)
Lemma inv_begin n k c : cl_calls c !! n = None -> may_call k c = true -> inv c ->
  inv (put_calls (<[n := first_pc k]> (cl_calls c)) c).
Proof.
  intros Hn Hm Hi.
  destruct Hi as [H1 H2 H3 H4 H5 H6 H7].
  assert (Hex : forall m pc, cl_calls c !! m = Some pc ->
    (is_connect (first_pc k) = true -> is_returned pc = true) /\ (is_connect pc = false \/ is_connect (first_pc k) = true)).
  { intros m pc Hm'. destruct k; cbn in Hm; apply bool_decide_eq_true in Hm; specialize (Hm m pc Hm'); cbn in Hm.
    * split; [done|by right].
    * split; [done|by left].
    * split; [done|by left]. }
  split; cbn; try done.
  - intros i j pi pj Hi Hj Hij Hpi. destruct (decide (i = n)) as [->|], (decide (j = n)) as [->|]; try done; simplify_map_eq.
    + by apply (Hex j pj).
    + destruct (Hex i pi Hi) as [H8 [H9|H9]]; [congruence|]. specialize (H8 H9). by destruct pi.
    + by eapply (H4 i j).
  - intros i pi Hi Hpi. destruct (decide (i = n)) as [->|].
    + rewrite lookup_insert_eq in Hi. injection Hi as <-. left. by destruct k.
    + rewrite lookup_insert_ne in Hi by done. by eapply H5.
  - intros i force s Hi. destruct (decide (i = n)) as [->|].
    + rewrite lookup_insert_eq in Hi. by destruct k.
    + rewrite lookup_insert_ne in Hi by done. by eapply H6.
  - intros i pi Hi. destruct (decide (i = n)) as [->|].
    + rewrite lookup_insert_eq in Hi. injection Hi as <-. by destruct k.
    + rewrite lookup_insert_ne in Hi by done. by eapply H7.
Qed.

Lemma inv_drop n c : inv c -> inv (put_calls (delete n (cl_calls c)) c).
Proof.
  intros Hi.
  destruct Hi as [H1 H2 H3 H4 H5 H6 H7]. split; cbn; try done.
  - intros i j pi pj [_ Hi]%lookup_delete_Some [_ Hj]%lookup_delete_Some. by apply (H4 i j).
  - intros i pi [_ Hi]%lookup_delete_Some. by apply (H5 i).
  - intros i force s [_ Hi]%lookup_delete_Some. by apply (H6 i force).
  - intros i pi [_ Hi]%lookup_delete_Some. by apply (H7 i).
Qed.

Lemma inv_step l c c' : inv c -> client_step powi l c = Some c' -> inv c'.
Proof.
  intros Hi. destruct l as [n k|n env|n|graceful| |now now' s e|s| |now clock| |r receipts conns]; cbn [client_step].
  - destruct (bool_decide _ && may_call k c) eqn:Hb; [|done]. intros [= <-].
    apply andb_true_iff in Hb as [Hn Hm]. apply bool_decide_eq_true in Hn.
    by apply inv_begin.
  - by apply inv_call_step.
  - destruct (cl_calls c !! n) as [pc|]; [cbn [mbind option_bind]|done]. destruct (may_drop pc); [|done]. intros [= <-].
    by apply inv_drop.
  - by apply inv_teardown_step.
  - by apply inv_teardown_panics.
  - destruct (decide _); [|done]. destruct (tp_epoch (cl_tp c) =? s); intros [= <-].
    + apply inv_tp; [apply subsides_event|done].
    + apply inv_consumers, inv_tp; [apply subsides_teardown|done].
  - destruct (decide _); [|done]. intros [= <-]. apply inv_consumers, inv_tp; [apply subsides_teardown|done].
  - unfold forward_one. destruct (bg_forwarding (cl_bg c)) eqn:Hf; [|done].
    destruct (tp_events (cl_tp c) !! bg_taken (cl_bg c)); [|done]. cbn [mbind option_bind]. intros [= <-].
    by apply (inv_bg_same c).
  - destruct (bg_scanning (cl_bg c)); [|done]. intros [= <-]. apply inv_tp; [apply subsides_registry|done].
  - unfold events. destruct (bg_receiver (cl_bg c)) eqn:Hr; intros [= <-]; by apply (inv_bg_same c).
  - intros [= <-]. apply inv_tp; [by apply subsides_same|done].
Qed.

Lemma inv_run ls : forall c, inv c -> inv (client_run powi ls c).
Proof.
  induction ls as [|l ls IH]; intros c Hi; [done|]. apply IH. cbn.
  destruct (client_step powi l c) as [c'|] eqn:E; [by eapply inv_step|done].
Qed.
End Invariants.
