(* ===== verification/ClientProps.v ===== *)
(** * The client's properties: its end, its restarts, its events *)

From Stdlib Require Import SpecFloat.
From S2P Require Import Prelude Packet Errors Limits Stream Events Registry Writes Transport Actor Retry Client ClientInv.

Section Properties.
Context `{T : Target} (powi : spec_float -> Z -> spec_float).

(** ** Shutdown ends the client *)


(** ** Shutdown returns *)

Definition td_left (pc : teardown_pc) : nat :=
  match pc with
  | TdStart => 8 | TdDisconnect _ => 7
  | TdClosing (CloseStart _) => 6 | TdClosing (CloseTake _) => 5 | TdClosing (CloseMark _) => 4
  | TdForwarding => 3 | TdScanner => 2 | TdEnding _ => 1 | TdFinished _ => 0
  end.
Definition left_le (k : nat) (c : client) : Prop :=
  exists pc, cf_teardown (cl_life_of c) = Some pc /\ (td_left pc <= k)%nat.

Lemma teardown_left graceful k c : left_le (S k) c -> left_le k (default c (teardown_step graceful c)).
Proof.
  intros (pc & Hpc & Hk). unfold left_le, teardown_step. rewrite Hpc. cbn [mbind option_bind].
  destruct pc as [|b|pc| | |p|p]; cbn in Hk |- *.
  - eexists. split; [done|cbn; lia].
  - destruct (current_session_id (cl_tp c)); [|destruct b]; (eexists; split; [done|cbn; lia]).
  - destruct pc as [s|s|s]; cbn [close_step] in Hk |- *.
    + destruct (try_start_closing s (cl_tp c)) as [[] t]; (eexists; split; [done|cbn; lia]).
    + destruct (take_slot s (cl_tp c)) as [taken t]. eexists; split; [done|cbn; lia].
    + eexists; split; [done|cbn; lia].
  - eexists. split; [done|cbn; lia].
  - eexists. split; [done|cbn; lia].
  - eexists. split; [done|cbn; lia].
  - exists (TdFinished p). split; [done|cbn; lia].
Qed.

Lemma call_step_left env n k c c' : inv c -> call_step powi env n c = Some c' -> left_le k c -> left_le k c'.
Proof.
  intros Hi Hc (pc & Hpc & Hk). assert (Hsame : cf_teardown (cl_life_of c') = cf_teardown (cl_life_of c) -> left_le k c').
  { intros E. exists pc. by rewrite E. }
  apply Hsame. revert Hc. unfold call_step, connect_step, disconnect_step, shutdown_step, goto. destruct (cl_calls c !! n) as [q|] eqn:Hn; [cbn [mbind option_bind]|done].
  intros E. assert (Hspawn : cl_calls c !! n = Some ShStart ->
    cf_teardown (spawn_teardown (cl_life_of c)) = cf_teardown (cl_life_of c)).
  { intros _. pose proof (iv_td c Hi) as Htd. unfold td_ok in Htd. rewrite Hpc in Htd. destruct Htd as (Hp & _ & Hh & _).
    unfold spawn_teardown. rewrite Hp. destruct (td_ended pc) eqn:Et; cbn; [by rewrite Hp, andb_false_r|].
    destruct (cf_handle (cl_life_of c)) eqn:Eh; cbn; rewrite ?Eh; cbn; [done|]. by destruct (Hh eq_refl) as [p ->]. }
  destruct q; try done; repeat case_match; simplify_eq/=; auto.
Qed.

Lemma step_left l k c : inv c -> left_le k c -> left_le k (default c (client_step powi l c)).
Proof.
  intros Hi Hk. destruct (client_step powi l c) as [c'|] eqn:E; [|done]. cbn [from_option id].
  destruct Hk as (pc & Hpc & Hle).
  assert (Hsame : cf_teardown (cl_life_of c') = cf_teardown (cl_life_of c) -> left_le k c').
  { intros E'. exists pc. by rewrite E'. }
  destruct l as [n q|n env|n|graceful| |now now' s e|s| |now clock| |r receipts conns]; cbn [client_step] in E.
  - apply Hsame. destruct (_ && _); [|done]. by injection E as <-.
  - eapply call_step_left; eauto. by exists pc.
  - apply Hsame. destruct (cl_calls c !! n); [cbn in E|done]. case_match; [|done]. by injection E as <-.
  - pose proof (teardown_left graceful k c) as H. rewrite E in H. apply H. exists pc. split; [done|lia].
  - unfold teardown_panics in E. rewrite Hpc in E. destruct pc as [| |[|s|]| | | |]; try done.
    destruct (decide _); [|done]. destruct (take_slot s (cl_tp c)). injection E as <-. eexists. split; [done|]. cbn in *. lia.
  - apply Hsame. destruct (decide _); [|done]. destruct (_ =? _); by injection E as <-.
  - apply Hsame. destruct (decide _); [|done]. by injection E as <-.
  - apply Hsame. destruct (forward_one _ _); [cbn in E|done]. by injection E as <-.
  - apply Hsame. destruct (bg_scanning _); [|done]. by injection E as <-.
  - apply Hsame. destruct (events _). by injection E as <-.
  - apply Hsame. by injection E as <-.
Qed.

(** A call of [shutdown] past its first step. *)
Definition observing (pc : call_pc) : bool :=
  match pc with ShWait | ShJoin | ShReport _ | ShReturned _ => true | _ => false end.

Lemma call_step_other env m n c c' : call_step powi env m c = Some c' -> n <> m -> cl_calls c' !! n = cl_calls c !! n.
Proof.
  intros E Hne. unfold call_step, connect_step, disconnect_step, shutdown_step, goto in E. destruct (cl_calls c !! m) as [pc|]; [cbn [mbind option_bind] in E|done].
  destruct pc; try done; repeat case_match; simplify_eq/=; by rewrite lookup_insert_ne.
Qed.

(** Only its own steps and its being dropped move a call. *)
Lemma step_calls l n pc c c' : client_step powi l c = Some c' -> cl_calls c !! n = Some pc ->
  cl_calls c' !! n = Some pc \/ l = Dropped n \/ exists env, l = CallStep n env /\ call_step powi env n c = Some c'.
Proof.
  intros E Hn.
  destruct l as [m q|m env|m|graceful| |now now' s e|s| |now clock| |r receipts conns]; cbn [client_step] in E.
  - destruct (bool_decide (cl_calls c !! m = None)) eqn:Hm; [|done]. apply bool_decide_eq_true in Hm.
    cbn [andb] in E. case_match; [|done]. injection E as <-. left. cbn. rewrite lookup_insert_ne by congruence. done.
  - destruct (decide (m = n)) as [->|]; [right; right; by exists env|]. left. rewrite <- Hn.
    by apply (call_step_other env m).
  - destruct (decide (m = n)) as [->|]; [by right; left|]. left.
    destruct (cl_calls c !! m); [cbn [mbind option_bind] in E|done]. case_match; [|done]. injection E as <-. cbn.
    by rewrite lookup_delete_ne.
  - left. unfold teardown_step in E. destruct (cf_teardown _) as [pc0|]; [cbn [mbind option_bind] in E|done].
    destruct pc0; try done; repeat case_match; by simplify_eq/=.
  - left. unfold teardown_panics in E. repeat case_match; by simplify_eq/=.
  - left. repeat case_match; by simplify_eq/=.
  - left. repeat case_match; by simplify_eq/=.
  - left. destruct (forward_one _ _); [cbn in E|done]. by injection E as <-.
  - left. destruct (bg_scanning _); [|done]. by injection E as <-.
  - left. destruct (events _). by injection E as <-.
  - left. by injection E as <-.
Qed.

Lemma step_observing l n c pc : l <> Dropped n -> cl_calls c !! n = Some pc -> observing pc = true ->
  exists pc', cl_calls (default c (client_step powi l c)) !! n = Some pc' /\ observing pc' = true.
Proof.
  intros Hl Hn Hpc. destruct (client_step powi l c) as [c'|] eqn:E; [|by exists pc]. cbn [from_option id].
  destruct (step_calls l n pc c c' E Hn) as [Hs|[|(env & -> & E')]]; [by exists pc|done|].
  unfold call_step, connect_step, disconnect_step, shutdown_step, goto in E'. rewrite Hn in E'. cbn [mbind option_bind] in E'.
  destruct pc; try done; repeat case_match; simplify_eq/=; rewrite lookup_insert_eq; by eexists.
Qed.

Definition is_teardown (l : clabel) : bool := match l with Teardown _ => true | _ => false end.

Lemma run_left ls : forall k c, inv c -> left_le (length (filter (fun l => is_teardown l = true) ls) + k) c ->
  left_le k (client_run powi ls c).
Proof.
  induction ls as [|l ls IH]; intros k c Hi Hk; [done|]. cbn [client_run foldl].
  assert (Hi' : inv (default c (client_step powi l c))).
  { destruct (client_step powi l c) as [c'|] eqn:E; [by eapply inv_step|done]. }
  apply IH; [done|]. rewrite filter_cons in Hk. destruct (decide (is_teardown l = true)) as [Hl|Hl].
  - destruct l; try done. cbn [length Nat.add] in Hk. by apply (teardown_left graceful).
  - by apply step_left.
Qed.

Lemma run_observing ls n : forall c pc, Forall (fun l => l <> Dropped n) ls -> cl_calls c !! n = Some pc -> observing pc = true ->
  exists pc', cl_calls (client_run powi ls c) !! n = Some pc' /\ observing pc' = true.
Proof.
  induction ls as [|l ls IH]; intros c pc Hls Hn Hpc; [by exists pc|]. inversion Hls as [|? ? Hl Hls']; subst.
  destruct (step_observing l n c pc Hl Hn Hpc) as (pc' & Hn' & Hpc'). by apply (IH _ pc').
Qed.

(** A caller that observes a finished teardown returns in three steps. *)
Lemma observer_returns n c pc p : inv c -> cl_calls c !! n = Some pc -> observing pc = true ->
  cf_teardown (cl_life_of c) = Some (TdFinished p) ->
  exists r, cl_calls (client_run powi (replicate 3 (CallStep n Proceed)) c) !! n = Some (ShReturned r).
Proof.
  intros Hi Hn Hpc Hp. pose proof (iv_td c Hi) as Htd. unfold td_ok in Htd. rewrite Hp in Htd. destruct Htd as (_ & Hd & _).
  cbn in Hd.
  assert (H0 : forall r c, cl_calls c !! n = Some (ShReturned r) -> client_step powi (CallStep n Proceed) c = None).
  { intros r c0 H. cbn [client_step]. unfold call_step, connect_step, disconnect_step, shutdown_step, goto. by rewrite H. }
  assert (H1 : forall q c, cl_calls c !! n = Some (ShReport q) -> exists r c', client_step powi (CallStep n Proceed) c = Some c' /\
    cl_calls c' !! n = Some (ShReturned r)).
  { intros q c0 H. cbn [client_step]. unfold call_step, connect_step, disconnect_step, shutdown_step, goto. rewrite H. do 2 eexists. split; [done|]. cbn. apply lookup_insert_eq. }
  assert (H2 : forall c, cl_calls c !! n = Some ShJoin -> cf_teardown (cl_life_of c) = Some (TdFinished p) ->
    exists q c', client_step powi (CallStep n Proceed) c = Some c' /\ cl_calls c' !! n = Some (ShReport q)).
  { intros c0 H Hp0. cbn [client_step]. unfold call_step, connect_step, disconnect_step, shutdown_step, goto. rewrite H. cbn [mbind option_bind]. rewrite Hp0.
    destruct (cf_handle (cl_life_of c0)); (do 2 eexists; split; [done|]; cbn; apply lookup_insert_eq). }
  cbn [replicate client_run foldl]. destruct pc; try done.
  - assert (H3 : exists c', client_step powi (CallStep n Proceed) c = Some c' /\ cl_calls c' !! n = Some ShJoin /\
      cf_teardown (cl_life_of c') = Some (TdFinished p)).
    { cbn [client_step]. unfold call_step, connect_step, disconnect_step, shutdown_step, goto. rewrite Hn. cbn [mbind option_bind]. rewrite Hd. eexists. split; [done|].
      cbn. by rewrite lookup_insert_eq. }
    destruct H3 as (c1 & -> & Hn1 & Hp1). cbn [from_option id].
    destruct (H2 c1 Hn1 Hp1) as (q & c2 & -> & Hn2). cbn [from_option id].
    destruct (H1 q c2 Hn2) as (r & c3 & -> & Hn3). by exists r.
  - destruct (H2 c Hn Hp) as (q & c2 & -> & Hn2). cbn [from_option id].
    destruct (H1 q c2 Hn2) as (r & c3 & -> & Hn3). cbn [from_option id]. rewrite (H0 r c3 Hn3). by exists r.
  - destruct (H1 panicked c Hn) as (r0 & c3 & -> & Hn3). cbn [from_option id]. rewrite (H0 r0 c3 Hn3).
    cbn [from_option id]. rewrite (H0 r0 c3 Hn3). by exists r0.
  - rewrite (H0 r c Hn). cbn [from_option id]. rewrite (H0 r c Hn). cbn [from_option id]. rewrite (H0 r c Hn). by exists r.
Qed.

(** C31: [shutdown] returns: after its first step, whatever the other tasks do,
    eight steps of the teardown task and then three of the caller are enough,
    also when the teardown panics, and however many callers there are. *)
Theorem shutdown_returns retry config policy ls ls' n pc :
  let c := client_run powi ls (client_new retry config policy) in
  cl_calls c !! n = Some pc -> observing pc = true ->
  Forall (fun l => l <> Dropped n) ls' -> (8 <= length (filter (fun l => is_teardown l = true) ls'))%nat ->
  exists r, cl_calls (client_run powi (ls' ++ replicate 3 (CallStep n Proceed)) c) !! n = Some (ShReturned r).
Proof.
  intros c Hn Hpc Hls Hlen. assert (Hi : inv c) by apply inv_run, inv_new. clearbody c.
  destruct (run_observing ls' n c pc Hls Hn Hpc) as (pc' & Hn' & Hpc').
  assert (Hleft : left_le 0 (client_run powi ls' c)).
  { apply run_left; [done|]. pose proof (iv_calls c Hi n pc Hn) as Hok. pose proof (iv_td c Hi) as Htd. unfold td_ok in Htd.
    destruct (cf_teardown (cl_life_of c)) as [td|] eqn:Et.
    - exists td. split; [done|]. assert (td_left td <= 8)%nat by (destruct td as [| |[]| | | |]; cbn; lia). lia.
    - exfalso. destruct Htd as (_ & _ & Hd). destruct pc; cbn in Hok; rewrite ?Et in Hok; try done; try congruence;
        by destruct Hok as (_ & ? & ? & _). }
  destruct Hleft as (td & Htd & Hle). assert (exists p, td = TdFinished p) as [p ->].
  { destruct td as [| |[]| | | |p]; cbn in Hle; try lia. by exists p. }
  unfold client_run. rewrite foldl_app. by apply (observer_returns n _ pc' p); [apply inv_run|..].
Qed.

(** ** A connect dropped while it announces its connection *)

Lemma retire_slot s s' t : s' <> s -> tp_slot t = Some s -> tp_slot (retire_generation s' t) = Some s.
Proof.
  intros Hne Hs. unfold retire_generation. destruct (take_slot_cases s' t) as [[H _]|[_ ->]]; [congruence|]. exact Hs.
Qed.

Lemma forward_slot s tok e t : tp_slot (forward_client_event_with_token s tok e t) = tp_slot t.
Proof. unfold forward_client_event_with_token. by destruct (tp_listening t). Qed.

Lemma event_slot now now' s s' e t : s' <> s -> tp_slot t = Some s -> tp_slot (on_event now now' s' e t) = Some s.
Proof.
  intros Hne Hs. destruct e as [info|reason|p|i|err]; cbn [on_event]; unfold forward_client_event; rewrite ?forward_slot; try done.
  - by apply retire_slot.
  - destruct (packet_type (header p)); rewrite ?forward_slot; try done.
    + destruct (register _ _ _ _ _ _ _) as [[tok|] r]; by rewrite ?forward_slot.
    + destruct (complete_waiter _ _ _ _) as [[] r]; by rewrite ?forward_slot.
Qed.

(** Connection [s] is installed, nothing reads it and the client has forgotten it:
    the calls still to return can only be refused. *)
Record wedged (s : SessionId) (old : nat -> Prop) (c : client) : Prop := {
  wg_slot : tp_slot (cl_tp c) = Some s;
  wg_consumers : s ∉ cl_consumers c;
  wg_session : cl_session c = None;
  wg_active : cf_phase (cl_life_of c) = CLIENT_ACTIVE /\ cf_teardown (cl_life_of c) = None;
  wg_calls : forall n pc, cl_calls c !! n = Some pc ->
    match pc with
    | CtGate | CtCheck | DcTake _ | ShReturned _ => True
    | CtReturned r => old n \/ r = Throw (already_connected s)
    | DcReturned r => old n \/ r = Throw not_connected
    | _ => False
    end
}.

Lemma wedged_goto s old n pc c : wedged s old c ->
  match pc with
  | CtGate | CtCheck | DcTake _ | ShReturned _ => True
  | CtReturned r => r = Throw (already_connected s)
  | DcReturned r => r = Throw not_connected
  | _ => False
  end -> wedged s old (put_calls (<[n := pc]> (cl_calls c)) c).
Proof.
  intros [H1 H2 H3 H4 H5] Hpc. split; cbn; try done. intros m q Hm. destruct (decide (m = n)) as [->|].
  - rewrite lookup_insert_eq in Hm. injection Hm as <-. destruct pc; by auto.
  - rewrite lookup_insert_ne in Hm by done. by apply H5.
Qed.

Definition no_shutdown (l : clabel) : Prop := match l with Call _ ShutdownCall => False | _ => True end.

Lemma wedged_step s old l c : no_shutdown l -> wedged s old c -> wedged s old (default c (client_step powi l c)).
Proof.
  intros Hl Hw. destruct (client_step powi l c) as [c'|] eqn:E; [|done]. cbn [from_option id].
  pose proof Hw as [H1 H2 H3 [H4 H4'] H5].
  destruct l as [n k|n env|n|graceful| |now now' s' e|s'| |now clock| |r receipts conns]; cbn [client_step] in E.
  - destruct (_ && _); [|done]. injection E as <-. apply wedged_goto; [done|]. by destruct k.
  - unfold call_step, connect_step, disconnect_step, shutdown_step, goto in E. destruct (cl_calls c !! n) as [pc|] eqn:Hn; [cbn [mbind option_bind] in E|done].
    specialize (H5 n pc Hn). destruct pc; try done; cbn in H5.
    + rewrite H4 in E. injection E as <-. by apply wedged_goto.
    + unfold current_session_id in E. rewrite H1 in E. injection E as <-. by apply wedged_goto.
    + rewrite H3 in E. injection E as <-. by apply wedged_goto.
  - destruct (cl_calls c !! n); [cbn [mbind option_bind] in E|done]. destruct (may_drop _); [|done]. injection E as <-.
    split; cbn; try done. intros m q [_ Hm]%lookup_delete_Some. by apply H5.
  - unfold teardown_step in E. by rewrite H4' in E.
  - unfold teardown_panics in E. by rewrite H4' in E.
  - destruct (decide (s' ∈ cl_consumers c)) as [Hin|]; [|done]. assert (s' <> s) by congruence.
    destruct (_ =? _); injection E as <-; split; cbn; try done; [by apply event_slot|by apply retire_slot|set_solver].
  - destruct (decide (s' ∈ cl_consumers c)) as [Hin|]; [|done]. assert (s' <> s) by congruence. injection E as <-.
    split; cbn; try done; [by apply retire_slot|set_solver].
  - destruct (forward_one _ _); [cbn in E|done]. injection E as <-. by split.
  - destruct (bg_scanning _); [|done]. injection E as <-. by split.
  - destruct (events _). injection E as <-. by split.
  - injection E as <-. by split.
Qed.

(** C32: dropping the future of [connect] while it waits for room to announce the
    connection it has just installed wedges a client that has no session of an
    earlier connection left to disconnect: the connection stays
    installed, nothing ever reads it, every later [connect] is refused because
    the client is connected and every [disconnect] because it is not. Only
    [shutdown] ends it. *)
Theorem dropped_connect_wedges_the_client retry config policy ls0 n s ls :
  let c := client_run powi ls0 (client_new retry config policy) in
  cl_calls c !! n = Some (CtAnnouncing s) -> tp_slot (cl_tp c) = Some s -> s ∉ cl_consumers c -> cl_session c = None ->
  Forall no_shutdown ls ->
  let c0 := client_run powi [Dropped n] c in
  let c1 := client_run powi ls c0 in
  tp_slot (cl_tp c1) = Some s /\ s ∉ cl_consumers c1 /\
  forall m, cl_calls c0 !! m = None ->
    (forall r, cl_calls c1 !! m = Some (CtReturned r) -> r = Throw (already_connected s)) /\
    (forall r, cl_calls c1 !! m = Some (DcReturned r) -> r = Throw not_connected).
Proof.
  intros c Hn Hslot Hcons Hsess Hls. assert (Hi : inv c) by apply inv_run, inv_new. clearbody c. intros c0 c1.
  assert (Hc0 : c0 = put_calls (delete n (cl_calls c)) c).
  { unfold c0. cbn. by rewrite Hn. }
  assert (Hw : wedged s (fun m => is_Some (cl_calls c0 !! m)) c0).
  { assert (Ha : cf_phase (cl_life_of c) = CLIENT_ACTIVE) by (destruct (iv_gate c Hi n _ Hn eq_refl); done).
    rewrite Hc0. split; cbn; try done.
    - split; [done|]. pose proof (iv_td c Hi) as Htd. unfold td_ok in Htd. destruct (cf_teardown _) as [pc|]; [|done].
      destruct Htd as [Htd _]. rewrite Ha in Htd. by destruct (td_ended pc).
    - intros m pc [Hne Hm]%lookup_delete_Some. pose proof (iv_excl c Hi n m _ pc Hn Hm ltac:(done) eq_refl) as Hr.
      destruct pc; try done; left; rewrite lookup_delete_ne by done; by eexists. }
  assert (Hw1 : wedged s (fun m => is_Some (cl_calls c0 !! m)) c1).
  { unfold c1. clear -Hls Hw. revert Hw. generalize (fun m => is_Some (cl_calls c0 !! m)) as old. clearbody c0. revert c0.
    induction Hls as [|l ls Hl Hls IH]; intros c0 old Hw; [done|]. cbn. by apply IH, wedged_step. }
  destruct Hw1 as [W1 W2 W3 W4 W5]. split_and!; [done|done|]. intros m Hm.
  split; intros r Hr; destruct (W5 m _ Hr) as [Ho|]; try done; by rewrite Hm in Ho; destruct Ho.
Qed.

(** ** What the application receives *)

Definition in_order (c : client) : Prop :=
  bg_events (cl_bg c) = omap forwarded (take (bg_taken (cl_bg c)) (tp_events (cl_tp c))) /\
  (bg_taken (cl_bg c) <= length (tp_events (cl_tp c)))%nat.

(** What a step may do to the queues: it adds transport events, and puts nothing
    in the client's queue. *)
Definition feeds (c c' : client) : Prop :=
  bg_events (cl_bg c') = bg_events (cl_bg c) /\ bg_taken (cl_bg c') = bg_taken (cl_bg c) /\
  tp_events (cl_tp c) `prefix_of` tp_events (cl_tp c').

Lemma in_order_feeds c c' : feeds c c' -> in_order c -> in_order c'.
Proof.
  intros (E1 & E2 & k & E3) [H1 H2]. unfold in_order. rewrite E1, E2, E3, H1. split; [|rewrite length_app; lia].
  by rewrite take_app_le.
Qed.

Lemma feeds_tp c t : subsides (cl_tp c) t -> feeds c (put_tp t c).
Proof. intros [_ _ H]. by split_and!. Qed.

Lemma call_step_feeds env n c c' : inv c -> call_step powi env n c = Some c' -> feeds c c'.
Proof.
  intros Hi E. unfold call_step, connect_step, disconnect_step, shutdown_step, goto in E. destruct (cl_calls c !! n) as [pc|] eqn:Hn; [cbn [mbind option_bind] in E|done].
  assert (Hid : feeds c c) by (by split_and!).
  destruct pc as [| | |s|s|s| |r|force|force pc|r| | | |p|r]; try done;
    try (repeat case_match; simplify_eq/=; exact Hid).
  - destruct env as [| |build]; try done. destruct (cl_config c); [|done]. destruct (_.2) as [cn|e|].
    + destruct (install_open cn (cl_tp c)) as [s t] eqn:Hin. injection E as <-.
      assert (Hev : tp_events t = tp_events (cl_tp c)).
      { revert Hin. unfold install_open, install, add_connection. destruct (tp_slot (cl_tp c)) as [o|]; intros [= _ <-]; [|done]. cbn.
        match goal with |- context [close_connection ?o ?t] => by destruct (close_connection_frame o t) as (_ & _ & -> & _) end. }
      split_and!; [done|done|]. cbn. by rewrite Hev.
    + by injection E as <-.
    + by injection E as <-.
  - injection E as <-. apply (feeds_tp c), subsides_announce.
  - injection E as <-. apply (feeds_tp c), subsides_policy.
  - unfold start_event_forwarding, start_request_scanner in E. repeat case_match; simplify_eq/=; by split_and!.
  - pose proof (subsides_close_step force (graceful_of env) pc (cl_tp c)) as Hs.
    destruct (close_step force (graceful_of env) pc (cl_tp c)) as [t next].
    destruct Hs as [Hsub _]; [intros s ->; by eapply (iv_mark c Hi)|].
    destruct next; injection E as <-; by apply (feeds_tp c).
Qed.

Lemma teardown_step_feeds graceful c c' : inv c -> teardown_step graceful c = Some c' -> feeds c c'.
Proof.
  intros Hi E. unfold teardown_step in E. destruct (cf_teardown (cl_life_of c)) as [pc|] eqn:Hpc; [cbn [mbind option_bind] in E|done].
  assert (Hid : feeds c c) by (by split_and!). pose proof (iv_td c Hi) as Htd. unfold td_ok in Htd. rewrite Hpc in Htd.
  destruct pc as [|b|pc| | |p|p]; try done; try (repeat case_match; simplify_eq/=; exact Hid).
  pose proof (subsides_close_step false graceful pc (cl_tp c)) as Hs.
  destruct (close_step false graceful pc (cl_tp c)) as [t next].
  destruct Hs as [Hsub _]; [intros s ->; by destruct Htd as (_ & _ & _ & _ & ? & _)|].
  destruct next; injection E as <-; by apply (feeds_tp c).
Qed.

Lemma in_order_step l c c' : inv c -> client_step powi l c = Some c' -> in_order c -> in_order c'.
Proof.
  intros Hi E Ho. assert (Hid : feeds c c) by (by split_and!).
  assert (Hgo : feeds c c' -> in_order c') by (intros Hf; by eapply in_order_feeds).
  destruct l as [n k|n env|n|graceful| |now now' s e|s| |now clock| |r receipts conns]; cbn [client_step] in E.
  - apply Hgo. destruct (_ && _); [|done]. injection E as <-; exact Hid.
  - apply Hgo. by eapply call_step_feeds.
  - apply Hgo. destruct (cl_calls c !! n); [cbn [mbind option_bind] in E|done]. destruct (may_drop _); [|done]. injection E as <-; exact Hid.
  - apply Hgo. by eapply teardown_step_feeds.
  - apply Hgo. unfold teardown_panics in E. destruct (cf_teardown _) as [[| |[|s|]| | | |]|]; try done. destruct (decide _); [|done].
    pose proof (subsides_take s (cl_tp c)) as Hs. destruct (take_slot s (cl_tp c)) as [taken t]. cbn in Hs. injection E as <-.
    apply (feeds_tp c). etrans; [exact Hs|apply subsides_close_connection].
  - apply Hgo. destruct (decide _); [|done]. destruct (_ =? _); injection E as <-; apply (feeds_tp c);
      [apply subsides_event|apply subsides_teardown].
  - apply Hgo. destruct (decide _); [|done]. injection E as <-. apply (feeds_tp c), subsides_teardown.
  - unfold forward_one in E. destruct (bg_forwarding _); [|done]. destruct Ho as [H1 H2].
    destruct (tp_events (cl_tp c) !! bg_taken (cl_bg c)) as [e|] eqn:He; [cbn [mbind option_bind] in E|done]. injection E as <-.
    split; cbn; [|by apply lookup_lt_Some in He]. rewrite (take_S_r _ _ _ He), omap_app, H1. cbn. by destruct (forwarded e).
  - apply Hgo. destruct (bg_scanning _); [|done]. injection E as <-. apply (feeds_tp c), subsides_registry.
  - apply Hgo. unfold events in E. destruct (bg_receiver _); injection E as <-; exact Hid.
  - apply Hgo. injection E as <-. by split_and!.
Qed.

(** What the application is to see of a transport event: its connection's
    beginning and end, the packets as they are, requests on their own with the
    token they are answered by, and the confirmations and errors. A request
    without a token could not be answered and is not shown. *)
Inductive shown_as : TaggedClientEvent -> list ClientEvent -> Prop :=
  | shown_connected s tok info : shown_as (mkTagged s tok (ConnectionEstablished info)) [EvConnected info]
  | shown_disconnected s tok reason : shown_as (mkTagged s tok (ConnectionClosed reason)) [EvDisconnected reason]
  | shown_message s tok p m : packet_type (header p) <> Request ->
      cm_peer m = None -> cm_message_id m = message_id (header p) -> cm_biz_type m = biz_type (header p) ->
      cm_data m = payload p -> cm_ext_header m = (if decide (ext_header p = []) then None else Some (ext_header p)) ->
      shown_as (mkTagged s tok (MessageReceived p)) [EvMessage m]
  | shown_request s tok p r : packet_type (header p) = Request ->
      cq_session r = s -> cq_token r = tok -> cq_message_id r = message_id (header p) ->
      cq_biz_type r = biz_type (header p) -> cq_data r = payload p ->
      cq_ext_header r = (if decide (ext_header p = []) then None else Some (ext_header p)) ->
      shown_as (mkTagged s (Some tok) (MessageReceived p)) [EvRequest r]
  | shown_tokenless s p : packet_type (header p) = Request -> shown_as (mkTagged s None (MessageReceived p)) []
  | shown_sent s tok i : shown_as (mkTagged s tok (MessageSent i)) [EvMessageSent i]
  | shown_error s tok e : shown_as (mkTagged s tok (ErrorEvent e)) [EvError e].

Lemma forwarded_shown e : shown_as e (option_list (forwarded e)).
Proof.
  assert (Hext : forall x : bytes, ext_option x = if decide (x = []) then None else Some x) by (by intros []).
  destruct e as [s tok [info|reason|p|i|err]]; try constructor. unfold forwarded. cbn.
  destruct (packet_type (header p)) eqn:Hp; [| |]; try destruct tok as [tok|]; cbn; rewrite ?Hp; cbn;
    first [by apply shown_tokenless|by apply shown_request; cbn; rewrite ?Hext|by apply shown_message; cbn; rewrite ?Hp, ?Hext].
Qed.

Lemma all_shown es : exists shown, Forall2 shown_as es shown /\ omap forwarded es = concat shown.
Proof.
  induction es as [|e es (shown & Hs & Heq)]; [by exists []|]. exists (option_list (forwarded e) :: shown).
  split; [constructor; [apply forwarded_shown|done]|]. cbn. rewrite Heq. by destruct (forwarded e).
Qed.

(** C33: whatever the client does and however often it reconnects, its event queue
    holds, in order and each once, what the application is to see of its
    transport's events, field by field, up to the point the forwarding task has
    reached: nothing else, nothing changed and nothing left out but a request
    without a token. *)
Theorem application_sees_the_events_in_order retry config policy ls :
  let c := client_run powi ls (client_new retry config policy) in
  (exists shown, Forall2 shown_as (take (bg_taken (cl_bg c)) (tp_events (cl_tp c))) shown /\
     bg_events (cl_bg c) = concat shown) /\
  forall r, EvRequest r ∈ bg_events (cl_bg c) ->
    exists p, mkTagged (cq_session r) (Some (cq_token r)) (MessageReceived p) ∈ tp_events (cl_tp c) /\
      packet_type (header p) = Request /\ cq_message_id r = message_id (header p).
Proof.
  intros c. assert (Ho : in_order c).
  { unfold c. assert (H : inv (client_new retry config policy) /\ in_order (client_new retry config policy)) by (split; [apply inv_new|done]).
    revert H. generalize (client_new retry config policy) as c0. clear c. induction ls as [|l ls IH]; intros c0 [Hi Ho]; [done|].
    cbn. destruct (client_step powi l c0) as [c'|] eqn:E; [|by apply IH]. apply IH.
    split; [by eapply inv_step|by eapply in_order_step]. }
  clearbody c. destruct Ho as [H1 _]. split; [rewrite H1; apply all_shown|]. intros r Hr. rewrite H1 in Hr.
  apply list_elem_of_omap in Hr as (e & He & Hf). apply elem_of_take in He as (i & He & _).
  destruct e as [s tok ev]. unfold forwarded in Hf. cbn in Hf. destruct ev as [| |p| |]; try done.
  destruct (packet_type (header p)) eqn:Hp; try done.
  - unfold from_transport_event in Hf. by rewrite Hp in Hf.
  - destruct tok as [tok|]; [|done]. cbn in Hf. injection Hf as <-. exists p. cbn. split_and!; [|done|done].
    by eapply list_elem_of_lookup_2.
  - unfold from_transport_event in Hf. by rewrite Hp in Hf.
Qed.
End Properties.

(** ** Concrete runs *)

Definition sample_info : ConnectionInfo := mkInfo 0 "127.0.0.1:4000" "127.0.0.1:80" "tcp" CsConnected 0 None.
Definition sample_client_conn : conn :=
  mkConn (mkQueue [] 8 true) (budget_new 1000) (mkWriter "tcp_outbound_queue" "TCP connection closed") Strict sample_info.
Definition sample_client : client :=
  client_new RetryConfig_default (Some (mkDynConfig "tcp" (Done tt))) Strict.
Definition connecting : list clabel :=
  [Call 0 ConnectCall; CallStep 0 Proceed; CallStep 0 Proceed; CallStep 0 (Attempts (fun _ => Done sample_client_conn))].
Definition connected : list clabel := connecting ++ replicate 4 (CallStep 0 Proceed).
Definition shutting_down : list clabel := connected ++ [Call 1 ShutdownCall; CallStep 1 Proceed].

(** Two callers of [shutdown] can get different answers about the same
    teardown: when it panicked and one caller has taken its handle but not yet
    recorded the panic, another returns success, though the forwarding task and
    the scanner still live. *)
Theorem panicked_teardown_can_pass_for_success :
  exists ls, let c := client_run (T := Target64) powi_iter ls sample_client in
    cl_calls c !! 2%nat = Some (ShReturned (Done tt)) /\ cf_teardown (cl_life_of c) = Some (TdFinished true) /\
    bg_forwarding (cl_bg c) = true /\ bg_scanning (cl_bg c) = true /\
    cl_calls (client_run (T := Target64) powi_iter [CallStep 1 Proceed] c) !! 1%nat =
      Some (ShReturned (Throw teardown_panicked)).
Proof.
  exists (shutting_down ++ [Teardown true; Teardown true; Teardown true; TeardownPanics; Call 2 ShutdownCall;
    CallStep 2 Proceed; CallStep 1 Proceed; CallStep 2 Proceed; Teardown true; CallStep 1 Proceed;
    CallStep 2 Proceed; CallStep 2 Proceed]).
  vm_compute. by split_and!.
Qed.

(** A peer that closes between the two looks of the teardown makes an orderly
    shutdown answer with an error. *)
Lemma shutdown_can_report_not_connected :
  let c := client_run (T := Target64) powi_iter (shutting_down ++ [Teardown true;
    PipeEvent 0 0 1 (ConnectionClosed Normal); Teardown true; Teardown true; Teardown true; Teardown true] ++
    replicate 3 (CallStep 1 Proceed)) sample_client in
  cl_calls c !! 1%nat = Some (ShReturned (Throw not_connected)) /\
  cf_teardown (cl_life_of c) = Some (TdFinished false) /\ tp_slot (cl_tp c) = None.
Proof. vm_compute. by split_and!. Qed.

(** ** Witnesses *)


Lemma shutdown_returns_witness :
  exists r, cl_calls (client_run (T := Target64) powi_iter
    (replicate 8 (Teardown true) ++ replicate 3 (CallStep 1 Proceed))
    (client_run (T := Target64) powi_iter shutting_down sample_client)) !! 1%nat = Some (ShReturned r).
Proof.
  apply (shutdown_returns (T := Target64) powi_iter RetryConfig_default (Some (mkDynConfig "tcp" (Done tt))) Strict
    shutting_down (replicate 8 (Teardown true)) 1 ShWait).
  - vm_compute. reflexivity.
  - reflexivity.
  - repeat constructor; discriminate.
  - vm_compute. lia.
Defined.

Lemma dropped_connect_witness :
  let c := client_run (T := Target64) powi_iter
    [Call 1 ConnectCall; CallStep 1 Proceed; CallStep 1 Proceed; Call 2 (DisconnectCall false); CallStep 2 Proceed]
    (client_run (T := Target64) powi_iter [Dropped 0] (client_run (T := Target64) powi_iter connecting sample_client)) in
  cl_calls c !! 1%nat = Some (CtReturned (Throw (already_connected 1))) /\
  cl_calls c !! 2%nat = Some (DcReturned (Throw not_connected)) /\ tp_slot (cl_tp c) = Some 1.
Proof.
  destruct (dropped_connect_wedges_the_client (T := Target64) powi_iter RetryConfig_default
    (Some (mkDynConfig "tcp" (Done tt))) Strict connecting 0 1
    [Call 1 ConnectCall; CallStep 1 Proceed; CallStep 1 Proceed; Call 2 (DisconnectCall false); CallStep 2 Proceed]
    ltac:(vm_compute; reflexivity) ltac:(vm_compute; reflexivity)
    ltac:(vm_compute; intros H; inversion H) ltac:(vm_compute; reflexivity)
    ltac:(repeat constructor)) as (Hslot & _ & _).
  split_and!; [vm_compute; reflexivity..|exact Hslot].
Defined.
