(* ===== verification/Config.v ===== *)
(** * Protocol configurations: [crates/msgtrans/src/protocol/]

    The client and server configurations of the three protocols
    ([client_config.rs], [server_config.rs]): their defaults, constructors,
    builders, presets and validation, what their [Debug] is given, and the
    traits of [adapter.rs] they implement. Durations are nanoseconds.
    Socket addresses are parsed as the standard library does. *)

From Stdlib Require Import Ascii.
From S2P Require Import Prelude Packet Errors Retry Client.

(** ** [std::net::SocketAddr] *)

Inductive SocketAddr :=
  | SocketV4 (a b c d port : Z)
  | SocketV6 (segments : list Z) (flowinfo scope_id port : Z).
#[export] Instance SocketAddr_eq_dec : EqDecision SocketAddr.
Proof. solve_decision. Defined.

Definition to_digit (radix : Z) (c : Ascii.ascii) : option Z :=
  let n := Z.of_nat (Ascii.nat_of_ascii c) in
  let d := if (48 <=? n) && (n <=? 57) then n - 48
           else if (97 <=? n) && (n <=? 122) then n - 87
           else if (65 <=? n) && (n <=? 90) then n - 55 else radix in
  if d <? radix then Some d else None.

Fixpoint read_digits (radix : Z) (s : list Ascii.ascii) : list Z * list Ascii.ascii :=
  match s with
  | c :: s' =>
      match to_digit radix c with
      | Some d => let '(ds, rest) := read_digits radix s' in (d :: ds, rest)
      | None => ([], s)
      end
  | [] => ([], [])
  end.

(** A number of at most [max] digits and at most [bound]. *)
Definition read_number (radix : Z) (max : option nat) (bound : Z) (allow_zero_prefix : bool)
    (s : list Ascii.ascii) : option (Z * list Ascii.ascii) :=
  let '(ds, rest) := read_digits radix s in
  let n := fold_left (fun acc d => acc * radix + d) ds 0 in
  if bool_decide (ds = []) || match max with Some m => (m <? length ds)%nat | None => false end then None
  else if negb allow_zero_prefix && bool_decide (head ds = Some 0) && (1 <? length ds)%nat then None
  else if bound <? n then None else Some (n, rest).

Definition read_given_char (c : Ascii.ascii) (s : list Ascii.ascii) : option (list Ascii.ascii) :=
  match s with c' :: s => if decide (c = c') then Some s else None | [] => None end.

Definition read_separator {A} (c : Ascii.ascii) (i : nat) (p : list Ascii.ascii -> option (A * list Ascii.ascii))
    (s : list Ascii.ascii) : option (A * list Ascii.ascii) :=
  match i with O => p s | S _ => read_given_char c s ≫= p end.

Definition read_ipv4_addr (s : list Ascii.ascii) : option ((Z * Z * Z * Z) * list Ascii.ascii) :=
  let octet i := read_separator "."%char i (read_number 10 (Some 3%nat) U8_MAX false) in
  '(a, s) ← octet 0%nat s; '(b, s) ← octet 1%nat s; '(c, s) ← octet 2%nat s; '(d, s) ← octet 3%nat s;
  Some ((a, b, c, d), s).

(** Up to [k] more groups of the [limit], [i] being read; whether they ended
    with an embedded IPv4 address. *)
Fixpoint read_groups (limit k i : nat) (s : list Ascii.ascii) : list Z * bool * list Ascii.ascii :=
  match k with
  | O => ([], false, s)
  | S k =>
      match (if (S i <? limit)%nat then read_separator ":"%char i read_ipv4_addr s else None) with
      | Some ((a, b, c, d), s) => ([a * 256 + b; c * 256 + d], true, s)
      | None =>
          match read_separator ":"%char i (read_number 16 (Some 4%nat) U16_MAX true) s with
          | Some (g, s) => let '(gs, v4, s) := read_groups limit k (S i) s in (g :: gs, v4, s)
          | None => ([], false, s)
          end
      end
  end.

Definition read_ipv6_addr (s : list Ascii.ascii) : option (list Z * list Ascii.ascii) :=
  let '(hd, v4, s) := read_groups 8 8 0 s in
  if (length hd =? 8)%nat then Some (hd, s)
  else if v4 then None
  else
    s ← read_given_char ":"%char s; s ← read_given_char ":"%char s;
    let limit := (8 - (length hd + 1))%nat in
    let '(tl, _, s) := read_groups limit limit 0 s in
    Some (hd ++ replicate (8 - length hd - length tl) 0 ++ tl, s).

Definition read_port (s : list Ascii.ascii) : option (Z * list Ascii.ascii) :=
  s ← read_given_char ":"%char s; read_number 10 None U16_MAX true s.

Definition read_socket_addr (s : list Ascii.ascii) : option (SocketAddr * list Ascii.ascii) :=
  match ('(ip, s) ← read_ipv4_addr s; '(port, s) ← read_port s; Some (ip, port, s)) with
  | Some ((a, b, c, d), port, s) => Some (SocketV4 a b c d port, s)
  | None =>
      s ← read_given_char "["%char s; '(ip, s) ← read_ipv6_addr s;
      let '(scope_id, s) := default (0, s) (s ← read_given_char "%"%char s; read_number 10 None U32_MAX true s) in
      s ← read_given_char "]"%char s; '(port, s) ← read_port s;
      Some (SocketV6 ip 0 scope_id port, s)
  end.

(** [s.parse::<SocketAddr>()]; the error as it displays. *)
Definition parse_addr (s : string) : exec string SocketAddr :=
  match read_socket_addr (String.list_ascii_of_string s) with
  | Some (addr, []) => Done addr
  | _ => Throw "invalid socket address syntax"
  end.

(** [{:?}] of a [Duration]. *)
Fixpoint fraction_digits (n : nat) (fraction divisor : Z) : string :=
  match n with
  | O => ""
  | S n => if fraction =? 0 then ""
           else pretty (fraction / divisor) +:+ fraction_digits n (fraction mod divisor) (divisor / 10)
  end.
Definition fmt_decimal (integer fraction divisor : Z) (suffix : string) : string :=
  pretty integer +:+ (if fraction =? 0 then "" else "." +:+ fraction_digits 9 fraction divisor) +:+ suffix.
Definition nanos_debug (d : Z) : string :=
  let secs := d / NANOS_PER_SEC in
  let nanos := d mod NANOS_PER_SEC in
  if 0 <? secs then fmt_decimal secs nanos 100000000 "s"
  else if 1000000 <=? nanos then fmt_decimal (nanos / 1000000) (nanos mod 1000000) 100000 "ms"
  else if 1000 <=? nanos then fmt_decimal (nanos / 1000) (nanos mod 1000) 100 "µs"
  else fmt_decimal nanos 0 1 "ns".

Definition from_secs (n : Z) : Z := n * NANOS_PER_SEC.
Definition from_millis (n : Z) : Z := n * 1000000.

(** ** [ConfigError] *)

Definition newline : string := String (Ascii.ascii_of_nat 10) "".

(** [source]: the parse error, as it displays. *)
Inductive ConfigError :=
  | InvalidAddress (address reason : string) (source : option string)
  | InvalidPort (port : Z) (reason : string)
  | MissingRequiredField (field suggestion : string)
  | InvalidValue (field value reason suggestion : string)
  | FileNotFound (path suggestion : string)
  | ConfigIo (e : IoError).

Definition ConfigError_display (e : ConfigError) : string :=
  match e with
  | InvalidAddress address reason _ => "Invalid address '" +:+ address +:+ "': " +:+ reason
  | InvalidPort port reason =>
      "Invalid port " +:+ pretty port +:+ ": " +:+ reason +:+ newline
        +:+ "Suggestion: Use a port between 1 and 65535"
  | MissingRequiredField field suggestion =>
      "Missing required field '" +:+ field +:+ "'" +:+ newline +:+ "Suggestion: " +:+ suggestion
  | InvalidValue field value reason suggestion =>
      "Invalid value for '" +:+ field +:+ "': " +:+ value +:+ newline +:+ "Reason: " +:+ reason
        +:+ newline +:+ "Suggestion: " +:+ suggestion
  | FileNotFound path suggestion =>
      "File not found: '" +:+ path +:+ "'" +:+ newline +:+ "Suggestion: " +:+ suggestion
  | ConfigIo e => "IO error: " +:+ io_text e
  end.

(** How every constructor and [target_str] turns a text into an address. *)
Definition parse_address (what addr : string) : exec ConfigError SocketAddr :=
  map_err (fun e => InvalidAddress addr ("Invalid " +:+ what +:+ " address: " +:+ e) (Some e)) (parse_addr addr).

(** ** The traits of [adapter.rs] *)

Class DynProtocolConfig (C : Type) := {
  protocol_name : string;
  validate_dyn : C -> exec ConfigError unit
}.
Arguments protocol_name C {_}.

(** [build]: validates and hands the configuration back. *)
Definition build `{DynProtocolConfig C} (c : C) : exec ConfigError C :=
  _ ← validate_dyn c; Done c.

(** The client's view of a configuration; [debug] renders the derived [Debug] of
    the error. *)
Definition client_dyn `{DynProtocolConfig C} (debug : ConfigError -> string) (c : C) : DynClientConfig :=
  mkDynConfig (protocol_name C) (map_err (fun e => (ConfigError_display e, debug e)) (validate_dyn c)).

(** ** TCP client *)

(** [TcpClientConfig]; durations in nanoseconds. *)
Record TcpClientConfig := mkTcpClient {
  tcc_target_address : SocketAddr;
  tcc_connect_timeout : Z;
  tcc_nodelay : bool;
  tcc_keepalive : option Z;
  tcc_local_bind_address : option SocketAddr;
  tcc_spki_pins : list string;
  tcc_server_name : option string
}.

Definition TcpClientConfig_default : TcpClientConfig :=
  mkTcpClient (SocketV4 127 0 0 1 80) (from_secs 10) true (Some (from_secs 60)) None [] None.

Definition TcpClientConfig_target_address (x : SocketAddr) (c : TcpClientConfig) : TcpClientConfig :=
  mkTcpClient x (tcc_connect_timeout c) (tcc_nodelay c) (tcc_keepalive c) (tcc_local_bind_address c)
    (tcc_spki_pins c) (tcc_server_name c).
Definition TcpClientConfig_connect_timeout (x : Z) (c : TcpClientConfig) : TcpClientConfig :=
  mkTcpClient (tcc_target_address c) x (tcc_nodelay c) (tcc_keepalive c) (tcc_local_bind_address c)
    (tcc_spki_pins c) (tcc_server_name c).
Definition TcpClientConfig_nodelay (x : bool) (c : TcpClientConfig) : TcpClientConfig :=
  mkTcpClient (tcc_target_address c) (tcc_connect_timeout c) x (tcc_keepalive c) (tcc_local_bind_address
    c) (tcc_spki_pins c) (tcc_server_name c).
Definition TcpClientConfig_keepalive (x : option Z) (c : TcpClientConfig) : TcpClientConfig :=
  mkTcpClient (tcc_target_address c) (tcc_connect_timeout c) (tcc_nodelay c) x (tcc_local_bind_address c)
    (tcc_spki_pins c) (tcc_server_name c).
Definition TcpClientConfig_local_bind_address (x : option SocketAddr) (c : TcpClientConfig) : TcpClientConfig :=
  mkTcpClient (tcc_target_address c) (tcc_connect_timeout c) (tcc_nodelay c) (tcc_keepalive c) x
    (tcc_spki_pins c) (tcc_server_name c).
Definition TcpClientConfig_spki_pins (x : list string) (c : TcpClientConfig) : TcpClientConfig :=
  mkTcpClient (tcc_target_address c) (tcc_connect_timeout c) (tcc_nodelay c) (tcc_keepalive c)
    (tcc_local_bind_address c) x (tcc_server_name c).
Definition TcpClientConfig_server_name (x : string) (c : TcpClientConfig) : TcpClientConfig :=
  mkTcpClient (tcc_target_address c) (tcc_connect_timeout c) (tcc_nodelay c) (tcc_keepalive c)
    (tcc_local_bind_address c) (tcc_spki_pins c) (Some x).
Definition TcpClientConfig_new (target_address : string) : exec ConfigError TcpClientConfig :=
  addr ← parse_address "target" target_address;
  Done (TcpClientConfig_target_address addr TcpClientConfig_default).
Definition TcpClientConfig_target_str (addr : string) (c : TcpClientConfig) : exec ConfigError TcpClientConfig :=
  addr ← parse_address "target" addr; Done (TcpClientConfig_target_address addr c).
Definition tcp_client_is_tls_enabled (c : TcpClientConfig) : bool := negb (bool_decide (tcc_spki_pins c = [])).
Definition TcpClientConfig_validate (c : TcpClientConfig) : exec ConfigError unit := Done tt.
#[export] Instance TcpClientConfig_dyn : DynProtocolConfig TcpClientConfig :=
  {| protocol_name := "tcp"; validate_dyn := TcpClientConfig_validate |}.

Definition tcp_client_high_performance (target_address : string) : exec ConfigError TcpClientConfig :=
  c ← TcpClientConfig_new target_address;
  Done (TcpClientConfig_keepalive (Some (from_secs 30)) (TcpClientConfig_connect_timeout (from_secs 5)
    (TcpClientConfig_nodelay true c))).
Definition tcp_client_low_latency (target_address : string) : exec ConfigError TcpClientConfig :=
  c ← TcpClientConfig_new target_address;
  Done (TcpClientConfig_connect_timeout (from_secs 3) (TcpClientConfig_nodelay true c)).
Definition tcp_client_reliable (target_address : string) : exec ConfigError TcpClientConfig :=
  c ← TcpClientConfig_new target_address;
  Done (TcpClientConfig_keepalive (Some (from_secs 120)) (TcpClientConfig_connect_timeout (from_secs 30) c)).

(** ** WebSocket client *)

Definition WS_SUBPROTOCOL_MSGTRANS : string := "msgtrans.v1".

Inductive ClientTls :=
  | SystemRoots
  | CustomCa (pem : string)
  | Insecure.

(** [WebSocketClientConfig]. *)
Record WebSocketClientConfig := mkWebSocketClient {
  wcc_target_url : string;
  wcc_connect_timeout : Z;
  wcc_headers : gmap string string;
  wcc_subprotocols : list string;
  wcc_ping_interval : option Z;
  wcc_pong_timeout : Z;
  wcc_tls : ClientTls
}.

Definition WebSocketClientConfig_default : WebSocketClientConfig :=
  mkWebSocketClient "ws://localhost:80/" (from_secs 10) ∅ [WS_SUBPROTOCOL_MSGTRANS] (Some (from_secs 30))
    (from_secs 10) SystemRoots.

Definition WebSocketClientConfig_target_url (x : string) (c : WebSocketClientConfig) : WebSocketClientConfig :=
  mkWebSocketClient x (wcc_connect_timeout c) (wcc_headers c) (wcc_subprotocols c) (wcc_ping_interval c)
    (wcc_pong_timeout c) (wcc_tls c).
Definition WebSocketClientConfig_connect_timeout (x : Z) (c : WebSocketClientConfig) : WebSocketClientConfig :=
  mkWebSocketClient (wcc_target_url c) x (wcc_headers c) (wcc_subprotocols c) (wcc_ping_interval c)
    (wcc_pong_timeout c) (wcc_tls c).
Definition WebSocketClientConfig_header (k v : string) (c : WebSocketClientConfig) : WebSocketClientConfig :=
  mkWebSocketClient (wcc_target_url c) (wcc_connect_timeout c) (<[k := v]> (wcc_headers c))
    (wcc_subprotocols c) (wcc_ping_interval c) (wcc_pong_timeout c) (wcc_tls c).
Definition WebSocketClientConfig_headers (x : gmap string string) (c : WebSocketClientConfig) : WebSocketClientConfig :=
  mkWebSocketClient (wcc_target_url c) (wcc_connect_timeout c) x (wcc_subprotocols c) (wcc_ping_interval
    c) (wcc_pong_timeout c) (wcc_tls c).
Definition WebSocketClientConfig_subprotocols (x : list string) (c : WebSocketClientConfig) : WebSocketClientConfig :=
  mkWebSocketClient (wcc_target_url c) (wcc_connect_timeout c) (wcc_headers c) x (wcc_ping_interval c)
    (wcc_pong_timeout c) (wcc_tls c).
Definition WebSocketClientConfig_ping_interval (x : option Z) (c : WebSocketClientConfig) : WebSocketClientConfig :=
  mkWebSocketClient (wcc_target_url c) (wcc_connect_timeout c) (wcc_headers c) (wcc_subprotocols c) x
    (wcc_pong_timeout c) (wcc_tls c).
Definition WebSocketClientConfig_pong_timeout (x : Z) (c : WebSocketClientConfig) : WebSocketClientConfig :=
  mkWebSocketClient (wcc_target_url c) (wcc_connect_timeout c) (wcc_headers c) (wcc_subprotocols c)
    (wcc_ping_interval c) x (wcc_tls c).
Definition WebSocketClientConfig_tls (x : ClientTls) (c : WebSocketClientConfig) : WebSocketClientConfig :=
  mkWebSocketClient (wcc_target_url c) (wcc_connect_timeout c) (wcc_headers c) (wcc_subprotocols c)
    (wcc_ping_interval c) (wcc_pong_timeout c) x.
Definition ws_url (url : string) : bool := String.prefix "ws://" url || String.prefix "wss://" url.
Definition bad_url (url suggestion : string) : ConfigError :=
  InvalidValue "target_url" url "must start with 'ws://' or 'wss://'" suggestion.
Definition WebSocketClientConfig_new (target_url : string) : exec ConfigError WebSocketClientConfig :=
  if negb (ws_url target_url)
  then Throw (bad_url target_url "use a valid WebSocket URL like 'ws://127.0.0.1:8080/path'")
  else Done (WebSocketClientConfig_target_url target_url WebSocketClientConfig_default).
Definition WebSocketClientConfig_validate (c : WebSocketClientConfig) : exec ConfigError unit :=
  if negb (ws_url (wcc_target_url c)) then Throw (bad_url (wcc_target_url c) "use a valid WebSocket URL")
  else Done tt.
#[export] Instance WebSocketClientConfig_dyn : DynProtocolConfig WebSocketClientConfig :=
  {| protocol_name := "websocket"; validate_dyn := WebSocketClientConfig_validate |}.

Definition ws_client_json_api (target_url : string) : exec ConfigError WebSocketClientConfig :=
  c ← WebSocketClientConfig_new target_url;
  Done (WebSocketClientConfig_subprotocols ["json"]
    (WebSocketClientConfig_headers {[ "Content-Type" := "application/json" ]} c)).
Definition ws_client_realtime (target_url : string) : exec ConfigError WebSocketClientConfig :=
  c ← WebSocketClientConfig_new target_url;
  Done (WebSocketClientConfig_connect_timeout (from_secs 5) (WebSocketClientConfig_pong_timeout (from_secs 5)
    (WebSocketClientConfig_ping_interval (Some (from_secs 10)) c))).
Definition ws_client_file_transfer (target_url : string) : exec ConfigError WebSocketClientConfig :=
  c ← WebSocketClientConfig_new target_url;
  Done (WebSocketClientConfig_connect_timeout (from_secs 30) (WebSocketClientConfig_ping_interval None c)).

(** ** QUIC client *)

(** [QuicClientConfig]. *)
Record QuicClientConfig := mkQuicClient {
  qcc_target_address : SocketAddr;
  qcc_server_name : option string;
  qcc_connect_timeout : Z;
  qcc_verify_certificate : bool;
  qcc_ca_cert_pem : option string;
  qcc_max_concurrent_streams : Z;
  qcc_max_idle_timeout : Z;
  qcc_keep_alive_interval : option Z;
  qcc_initial_rtt : Z;
  qcc_spki_pins : list string;
  qcc_local_bind_address : option SocketAddr
}.

Definition QuicClientConfig_default : QuicClientConfig :=
  mkQuicClient (SocketV4 127 0 0 1 443) None (from_secs 10) true None 100 (from_secs 30) (Some (from_secs 15))
    (from_millis 100) [] None.

Definition QuicClientConfig_target_address (x : SocketAddr) (c : QuicClientConfig) : QuicClientConfig :=
  mkQuicClient x (qcc_server_name c) (qcc_connect_timeout c) (qcc_verify_certificate c) (qcc_ca_cert_pem
    c) (qcc_max_concurrent_streams c) (qcc_max_idle_timeout c) (qcc_keep_alive_interval c) (qcc_initial_rtt
    c) (qcc_spki_pins c) (qcc_local_bind_address c).
Definition QuicClientConfig_server_name (x : string) (c : QuicClientConfig) : QuicClientConfig :=
  mkQuicClient (qcc_target_address c) (Some x) (qcc_connect_timeout c) (qcc_verify_certificate c)
    (qcc_ca_cert_pem c) (qcc_max_concurrent_streams c) (qcc_max_idle_timeout c) (qcc_keep_alive_interval c)
    (qcc_initial_rtt c) (qcc_spki_pins c) (qcc_local_bind_address c).
Definition QuicClientConfig_connect_timeout (x : Z) (c : QuicClientConfig) : QuicClientConfig :=
  mkQuicClient (qcc_target_address c) (qcc_server_name c) x (qcc_verify_certificate c) (qcc_ca_cert_pem c)
    (qcc_max_concurrent_streams c) (qcc_max_idle_timeout c) (qcc_keep_alive_interval c) (qcc_initial_rtt c)
    (qcc_spki_pins c) (qcc_local_bind_address c).
Definition QuicClientConfig_verify_certificate (x : bool) (c : QuicClientConfig) : QuicClientConfig :=
  mkQuicClient (qcc_target_address c) (qcc_server_name c) (qcc_connect_timeout c) x (qcc_ca_cert_pem c)
    (qcc_max_concurrent_streams c) (qcc_max_idle_timeout c) (qcc_keep_alive_interval c) (qcc_initial_rtt c)
    (qcc_spki_pins c) (qcc_local_bind_address c).
Definition QuicClientConfig_spki_pins (x : list string) (c : QuicClientConfig) : QuicClientConfig :=
  mkQuicClient (qcc_target_address c) (qcc_server_name c) (qcc_connect_timeout c) (qcc_verify_certificate
    c) (qcc_ca_cert_pem c) (qcc_max_concurrent_streams c) (qcc_max_idle_timeout c) (qcc_keep_alive_interval
    c) (qcc_initial_rtt c) x (qcc_local_bind_address c).
Definition QuicClientConfig_danger_skip_verification (c : QuicClientConfig) : QuicClientConfig :=
  mkQuicClient (qcc_target_address c) (qcc_server_name c) (qcc_connect_timeout c) false (qcc_ca_cert_pem
    c) (qcc_max_concurrent_streams c) (qcc_max_idle_timeout c) (qcc_keep_alive_interval c) (qcc_initial_rtt
    c) (qcc_spki_pins c) (qcc_local_bind_address c).
Definition QuicClientConfig_ca_cert_pem (x : string) (c : QuicClientConfig) : QuicClientConfig :=
  mkQuicClient (qcc_target_address c) (qcc_server_name c) (qcc_connect_timeout c) (qcc_verify_certificate
    c) (Some x) (qcc_max_concurrent_streams c) (qcc_max_idle_timeout c) (qcc_keep_alive_interval c)
    (qcc_initial_rtt c) (qcc_spki_pins c) (qcc_local_bind_address c).
Definition QuicClientConfig_max_concurrent_streams (x : Z) (c : QuicClientConfig) : QuicClientConfig :=
  mkQuicClient (qcc_target_address c) (qcc_server_name c) (qcc_connect_timeout c) (qcc_verify_certificate
    c) (qcc_ca_cert_pem c) x (qcc_max_idle_timeout c) (qcc_keep_alive_interval c) (qcc_initial_rtt c)
    (qcc_spki_pins c) (qcc_local_bind_address c).
Definition QuicClientConfig_max_idle_timeout (x : Z) (c : QuicClientConfig) : QuicClientConfig :=
  mkQuicClient (qcc_target_address c) (qcc_server_name c) (qcc_connect_timeout c) (qcc_verify_certificate
    c) (qcc_ca_cert_pem c) (qcc_max_concurrent_streams c) x (qcc_keep_alive_interval c) (qcc_initial_rtt c)
    (qcc_spki_pins c) (qcc_local_bind_address c).
Definition QuicClientConfig_keep_alive_interval (x : option Z) (c : QuicClientConfig) : QuicClientConfig :=
  mkQuicClient (qcc_target_address c) (qcc_server_name c) (qcc_connect_timeout c) (qcc_verify_certificate
    c) (qcc_ca_cert_pem c) (qcc_max_concurrent_streams c) (qcc_max_idle_timeout c) x (qcc_initial_rtt c)
    (qcc_spki_pins c) (qcc_local_bind_address c).
Definition QuicClientConfig_initial_rtt (x : Z) (c : QuicClientConfig) : QuicClientConfig :=
  mkQuicClient (qcc_target_address c) (qcc_server_name c) (qcc_connect_timeout c) (qcc_verify_certificate
    c) (qcc_ca_cert_pem c) (qcc_max_concurrent_streams c) (qcc_max_idle_timeout c) (qcc_keep_alive_interval
    c) x (qcc_spki_pins c) (qcc_local_bind_address c).
Definition QuicClientConfig_local_bind_address (x : option SocketAddr) (c : QuicClientConfig) : QuicClientConfig :=
  mkQuicClient (qcc_target_address c) (qcc_server_name c) (qcc_connect_timeout c) (qcc_verify_certificate
    c) (qcc_ca_cert_pem c) (qcc_max_concurrent_streams c) (qcc_max_idle_timeout c) (qcc_keep_alive_interval
    c) (qcc_initial_rtt c) (qcc_spki_pins c) x.
Definition QUIC_MAX_STREAM_COUNT : Z := Z.shiftl 1 60.
Definition validate_quic_stream_count (value : Z) : exec ConfigError unit :=
  if value =? 0 then
    Throw (InvalidValue "max_concurrent_streams" "0" "a QUIC connection with zero streams cannot carry data"
      "use at least 1")
  else if QUIC_MAX_STREAM_COUNT <? value then
    Throw (InvalidValue "max_concurrent_streams" (pretty value)
      "RFC 9000 limits stream count transport parameters to 2^60" "use a value of at most 2^60")
  else Done tt.
Definition QuicClientConfig_validate (c : QuicClientConfig) : exec ConfigError unit :=
  _ ← validate_quic_stream_count (qcc_max_concurrent_streams c); Done tt.
#[export] Instance QuicClientConfig_dyn : DynProtocolConfig QuicClientConfig :=
  {| protocol_name := "quic"; validate_dyn := QuicClientConfig_validate |}.
Definition QuicClientConfig_new (target_address : string) : exec ConfigError QuicClientConfig :=
  addr ← parse_address "target" target_address;
  Done (QuicClientConfig_target_address addr QuicClientConfig_default).
Definition QuicClientConfig_target_str (addr : string) (c : QuicClientConfig) : exec ConfigError QuicClientConfig :=
  addr ← parse_address "target" addr; Done (QuicClientConfig_target_address addr c).
Definition is_pinned (c : QuicClientConfig) : bool := negb (bool_decide (qcc_spki_pins c = [])).

Definition quic_client_high_performance (target_address : string) : exec ConfigError QuicClientConfig :=
  c ← QuicClientConfig_new target_address;
  Done (QuicClientConfig_connect_timeout (from_secs 5) (QuicClientConfig_initial_rtt (from_millis 20)
    (QuicClientConfig_max_concurrent_streams 1000 c))).
Definition quic_client_low_latency (target_address : string) : exec ConfigError QuicClientConfig :=
  c ← QuicClientConfig_new target_address;
  Done (QuicClientConfig_max_idle_timeout (from_secs 10) (QuicClientConfig_keep_alive_interval (Some (from_secs 5))
    (QuicClientConfig_initial_rtt (from_millis 10) c))).
Definition quic_client_insecure (target_address : string) : exec ConfigError QuicClientConfig :=
  c ← QuicClientConfig_new target_address;
  Done (QuicClientConfig_server_name "localhost" (QuicClientConfig_danger_skip_verification c)).

(** ** TCP server *)

(** [TcpServerConfig]. *)
Record TcpServerConfig := mkTcpServer {
  tsc_bind_address : SocketAddr;
  tsc_cert_pem : option string;
  tsc_key_pem : option string;
  tsc_nodelay : bool;
  tsc_keepalive : option Z;
  tsc_idle_timeout : option Z;
  tsc_reuse_addr : bool
}.

Definition TcpServerConfig_default : TcpServerConfig :=
  mkTcpServer (SocketV4 127 0 0 1 8080) None None true (Some (from_secs 60)) (Some (from_secs 300)) true.

Definition TcpServerConfig_bind_address (x : SocketAddr) (c : TcpServerConfig) : TcpServerConfig :=
  mkTcpServer x (tsc_cert_pem c) (tsc_key_pem c) (tsc_nodelay c) (tsc_keepalive c) (tsc_idle_timeout c)
    (tsc_reuse_addr c).
Definition TcpServerConfig_nodelay (x : bool) (c : TcpServerConfig) : TcpServerConfig :=
  mkTcpServer (tsc_bind_address c) (tsc_cert_pem c) (tsc_key_pem c) x (tsc_keepalive c) (tsc_idle_timeout
    c) (tsc_reuse_addr c).
Definition TcpServerConfig_keepalive (x : option Z) (c : TcpServerConfig) : TcpServerConfig :=
  mkTcpServer (tsc_bind_address c) (tsc_cert_pem c) (tsc_key_pem c) (tsc_nodelay c) x (tsc_idle_timeout c)
    (tsc_reuse_addr c).
Definition TcpServerConfig_idle_timeout (x : option Z) (c : TcpServerConfig) : TcpServerConfig :=
  mkTcpServer (tsc_bind_address c) (tsc_cert_pem c) (tsc_key_pem c) (tsc_nodelay c) (tsc_keepalive c) x
    (tsc_reuse_addr c).
Definition TcpServerConfig_reuse_addr (x : bool) (c : TcpServerConfig) : TcpServerConfig :=
  mkTcpServer (tsc_bind_address c) (tsc_cert_pem c) (tsc_key_pem c) (tsc_nodelay c) (tsc_keepalive c)
    (tsc_idle_timeout c) x.
Definition TcpServerConfig_cert_pem (x : string) (c : TcpServerConfig) : TcpServerConfig :=
  mkTcpServer (tsc_bind_address c) (Some x) (tsc_key_pem c) (tsc_nodelay c) (tsc_keepalive c)
    (tsc_idle_timeout c) (tsc_reuse_addr c).
Definition TcpServerConfig_key_pem (x : string) (c : TcpServerConfig) : TcpServerConfig :=
  mkTcpServer (tsc_bind_address c) (tsc_cert_pem c) (Some x) (tsc_nodelay c) (tsc_keepalive c)
    (tsc_idle_timeout c) (tsc_reuse_addr c).
Definition TcpServerConfig_new (bind_address : string) : exec ConfigError TcpServerConfig :=
  addr ← parse_address "bind" bind_address;
  Done (TcpServerConfig_bind_address addr TcpServerConfig_default).
Definition is_tls_enabled (c : TcpServerConfig) : bool :=
  bool_decide (is_Some (tsc_cert_pem c)) && bool_decide (is_Some (tsc_key_pem c)).
Definition TcpServerConfig_validate (c : TcpServerConfig) : exec ConfigError unit := Done tt.
#[export] Instance TcpServerConfig_dyn : DynProtocolConfig TcpServerConfig :=
  {| protocol_name := "tcp"; validate_dyn := TcpServerConfig_validate |}.

(** ** WebSocket server *)

(** [WebSocketServerConfig]. *)
Record WebSocketServerConfig := mkWebSocketServer {
  wsc_bind_address : SocketAddr;
  wsc_path : string;
  wsc_subprotocols : list string;
  wsc_ping_interval : option Z;
  wsc_pong_timeout : Z;
  wsc_idle_timeout : option Z
}.

Definition WebSocketServerConfig_default : WebSocketServerConfig :=
  mkWebSocketServer (SocketV4 127 0 0 1 8080) "/" [WS_SUBPROTOCOL_MSGTRANS] (Some (from_secs 30)) (from_secs 10)
    (Some (from_secs 300)).

Definition WebSocketServerConfig_bind_address (x : SocketAddr) (c : WebSocketServerConfig) : WebSocketServerConfig :=
  mkWebSocketServer x (wsc_path c) (wsc_subprotocols c) (wsc_ping_interval c) (wsc_pong_timeout c)
    (wsc_idle_timeout c).
Definition WebSocketServerConfig_path (x : string) (c : WebSocketServerConfig) : WebSocketServerConfig :=
  mkWebSocketServer (wsc_bind_address c) x (wsc_subprotocols c) (wsc_ping_interval c) (wsc_pong_timeout c)
    (wsc_idle_timeout c).
Definition WebSocketServerConfig_subprotocols (x : list string) (c : WebSocketServerConfig) : WebSocketServerConfig :=
  mkWebSocketServer (wsc_bind_address c) (wsc_path c) x (wsc_ping_interval c) (wsc_pong_timeout c)
    (wsc_idle_timeout c).
Definition WebSocketServerConfig_add_subprotocol (x : string) (c : WebSocketServerConfig) : WebSocketServerConfig :=
  mkWebSocketServer (wsc_bind_address c) (wsc_path c) (wsc_subprotocols c ++ [x]) (wsc_ping_interval c)
    (wsc_pong_timeout c) (wsc_idle_timeout c).
Definition WebSocketServerConfig_ping_interval (x : option Z) (c : WebSocketServerConfig) : WebSocketServerConfig :=
  mkWebSocketServer (wsc_bind_address c) (wsc_path c) (wsc_subprotocols c) x (wsc_pong_timeout c)
    (wsc_idle_timeout c).
Definition WebSocketServerConfig_pong_timeout (x : Z) (c : WebSocketServerConfig) : WebSocketServerConfig :=
  mkWebSocketServer (wsc_bind_address c) (wsc_path c) (wsc_subprotocols c) (wsc_ping_interval c) x
    (wsc_idle_timeout c).
Definition WebSocketServerConfig_idle_timeout (x : option Z) (c : WebSocketServerConfig) : WebSocketServerConfig :=
  mkWebSocketServer (wsc_bind_address c) (wsc_path c) (wsc_subprotocols c) (wsc_ping_interval c)
    (wsc_pong_timeout c) x.
Definition WebSocketServerConfig_new (bind_address : string) : exec ConfigError WebSocketServerConfig :=
  addr ← parse_address "bind" bind_address;
  Done (WebSocketServerConfig_bind_address addr WebSocketServerConfig_default).
Definition WebSocketServerConfig_validate (c : WebSocketServerConfig) : exec ConfigError unit := Done tt.
#[export] Instance WebSocketServerConfig_dyn : DynProtocolConfig WebSocketServerConfig :=
  {| protocol_name := "websocket"; validate_dyn := WebSocketServerConfig_validate |}.

(** ** QUIC server *)

(** [QuicServerConfig]. *)
Record QuicServerConfig := mkQuicServer {
  qsc_bind_address : SocketAddr;
  qsc_cert_pem : option string;
  qsc_key_pem : option string;
  qsc_max_concurrent_streams : Z;
  qsc_max_idle_timeout : Z;
  qsc_keep_alive_interval : option Z;
  qsc_initial_rtt : Z;
  qsc_receive_window : Z;
  qsc_send_window : Z
}.

Definition QuicServerConfig_default : QuicServerConfig :=
  mkQuicServer (SocketV4 127 0 0 1 8080) None None 100 (from_secs 30) (Some (from_secs 15)) (from_millis 100)
    (1024 * 1024) (1024 * 1024).

Definition QuicServerConfig_bind_address (x : SocketAddr) (c : QuicServerConfig) : QuicServerConfig :=
  mkQuicServer x (qsc_cert_pem c) (qsc_key_pem c) (qsc_max_concurrent_streams c) (qsc_max_idle_timeout c)
    (qsc_keep_alive_interval c) (qsc_initial_rtt c) (qsc_receive_window c) (qsc_send_window c).
Definition QuicServerConfig_cert_pem (x : string) (c : QuicServerConfig) : QuicServerConfig :=
  mkQuicServer (qsc_bind_address c) (Some x) (qsc_key_pem c) (qsc_max_concurrent_streams c)
    (qsc_max_idle_timeout c) (qsc_keep_alive_interval c) (qsc_initial_rtt c) (qsc_receive_window c)
    (qsc_send_window c).
Definition QuicServerConfig_key_pem (x : string) (c : QuicServerConfig) : QuicServerConfig :=
  mkQuicServer (qsc_bind_address c) (qsc_cert_pem c) (Some x) (qsc_max_concurrent_streams c)
    (qsc_max_idle_timeout c) (qsc_keep_alive_interval c) (qsc_initial_rtt c) (qsc_receive_window c)
    (qsc_send_window c).
Definition QuicServerConfig_max_concurrent_streams (x : Z) (c : QuicServerConfig) : QuicServerConfig :=
  mkQuicServer (qsc_bind_address c) (qsc_cert_pem c) (qsc_key_pem c) x (qsc_max_idle_timeout c)
    (qsc_keep_alive_interval c) (qsc_initial_rtt c) (qsc_receive_window c) (qsc_send_window c).
Definition QuicServerConfig_max_idle_timeout (x : Z) (c : QuicServerConfig) : QuicServerConfig :=
  mkQuicServer (qsc_bind_address c) (qsc_cert_pem c) (qsc_key_pem c) (qsc_max_concurrent_streams c) x
    (qsc_keep_alive_interval c) (qsc_initial_rtt c) (qsc_receive_window c) (qsc_send_window c).
Definition QuicServerConfig_keep_alive_interval (x : option Z) (c : QuicServerConfig) : QuicServerConfig :=
  mkQuicServer (qsc_bind_address c) (qsc_cert_pem c) (qsc_key_pem c) (qsc_max_concurrent_streams c)
    (qsc_max_idle_timeout c) x (qsc_initial_rtt c) (qsc_receive_window c) (qsc_send_window c).
Definition QuicServerConfig_initial_rtt (x : Z) (c : QuicServerConfig) : QuicServerConfig :=
  mkQuicServer (qsc_bind_address c) (qsc_cert_pem c) (qsc_key_pem c) (qsc_max_concurrent_streams c)
    (qsc_max_idle_timeout c) (qsc_keep_alive_interval c) x (qsc_receive_window c) (qsc_send_window c).
Definition QuicServerConfig_receive_window (x : Z) (c : QuicServerConfig) : QuicServerConfig :=
  mkQuicServer (qsc_bind_address c) (qsc_cert_pem c) (qsc_key_pem c) (qsc_max_concurrent_streams c)
    (qsc_max_idle_timeout c) (qsc_keep_alive_interval c) (qsc_initial_rtt c) x (qsc_send_window c).
Definition QuicServerConfig_send_window (x : Z) (c : QuicServerConfig) : QuicServerConfig :=
  mkQuicServer (qsc_bind_address c) (qsc_cert_pem c) (qsc_key_pem c) (qsc_max_concurrent_streams c)
    (qsc_max_idle_timeout c) (qsc_keep_alive_interval c) (qsc_initial_rtt c) (qsc_receive_window c) x.
Definition QuicServerConfig_new (bind_address : string) : exec ConfigError QuicServerConfig :=
  addr ← parse_address "bind" bind_address;
  Done (QuicServerConfig_bind_address addr QuicServerConfig_default).
Definition quic_server_insecure (bind_address : string) : exec ConfigError QuicServerConfig :=
  c ← QuicServerConfig_new bind_address;
  Done (QuicServerConfig_key_pem "" (QuicServerConfig_cert_pem "" c)).

(** [pem.as_deref().filter(|s| !s.is_empty())]. *)
Definition pem_of (pem : option string) : option string :=
  s ← pem; if decide (s = "") then None else Some s.

(** What the code uses of quinn's transport parameters. *)
Class Quinn := {
  IdleTimeout : Type;
  IdleTimeout_try_from : Z -> exec string IdleTimeout;
  VarInt : Type;
  VarInt_from_u32 : Z -> VarInt;
  VarInt_from_u64 : Z -> option VarInt
}.
(** A QUIC variable-length integer has 62 bits (RFC 9000, 16). *)
Class QuinnLaws (Q : Quinn) :=
  varint_range n : 0 <= n < 2 ^ 62 -> is_Some (VarInt_from_u64 n).

Definition QuicServerConfig_validate `{Quinn} (c : QuicServerConfig) : exec ConfigError unit :=
  if negb (is_ok (IdleTimeout_try_from (qsc_max_idle_timeout c))) then
    Throw (InvalidValue "max_idle_timeout" (nanos_debug (qsc_max_idle_timeout c)) "exceeds the QUIC varint range"
      "use an idle timeout below ~2^62 milliseconds")
  else
    _ ← validate_quic_stream_count (qsc_max_concurrent_streams c);
    match pem_of (qsc_cert_pem c), pem_of (qsc_key_pem c) with
    | Some _, None | None, Some _ =>
        Throw (MissingRequiredField "cert_pem/key_pem" "provide both PEM strings, or neither (self-signed)")
    | _, _ => Done tt
    end.
#[export] Instance QuicServerConfig_dyn `{Quinn} : DynProtocolConfig QuicServerConfig :=
  {| protocol_name := "quic"; validate_dyn := QuicServerConfig_validate |}.

(** ** What [Debug] is given *)

Inductive field_value :=
  | FAddr (a : SocketAddr)
  | FText (s : option string)
  | FFlag (b : bool)
  | FNumber (n : Z)
  | FDuration (d : option Z).

Definition TcpServerConfig_debug (c : TcpServerConfig) : string * list (string * field_value) :=
  ("TcpServerConfig",
   [("bind_address", FAddr (tsc_bind_address c));
    ("cert_pem", FText ((fun _ => "[present]") <$> tsc_cert_pem c));
    ("key_pem", FText ((fun _ => "[REDACTED]") <$> tsc_key_pem c));
    ("nodelay", FFlag (tsc_nodelay c)); ("keepalive", FDuration (tsc_keepalive c));
    ("idle_timeout", FDuration (tsc_idle_timeout c)); ("reuse_addr", FFlag (tsc_reuse_addr c))]).
Definition QuicServerConfig_debug (c : QuicServerConfig) : string * list (string * field_value) :=
  ("QuicServerConfig",
   [("bind_address", FAddr (qsc_bind_address c));
    ("cert_pem", FText ((fun _ => "[present]") <$> qsc_cert_pem c));
    ("key_pem", FText ((fun _ => "[REDACTED]") <$> qsc_key_pem c));
    ("max_concurrent_streams", FNumber (qsc_max_concurrent_streams c));
    ("max_idle_timeout", FDuration (Some (qsc_max_idle_timeout c)));
    ("keep_alive_interval", FDuration (qsc_keep_alive_interval c));
    ("initial_rtt", FDuration (Some (qsc_initial_rtt c)));
    ("receive_window", FNumber (qsc_receive_window c)); ("send_window", FNumber (qsc_send_window c))]).

(** ** Properties *)

Example parse_v4 : parse_addr "127.0.0.1:9001" = Done (SocketV4 127 0 0 1 9001).
Proof. reflexivity. Qed.
Example parse_v6 : parse_addr "[fe80::1:10.0.0.1%3]:065535" = Done (SocketV6 [0xfe80; 0; 0; 0; 0; 1; 0xa00; 1] 0 3 65535).
Proof. vm_compute. reflexivity. Qed.
Example parse_refused :
  (forall s, s ∈ ["127.0.0.1"; "127.0.0.01:80"; "256.0.0.1:80"; "[::1]:65536"; "[1:2:3:4:5:6:7]:1"; "localhost:80"] ->
    parse_addr s = Throw "invalid socket address syntax").
Proof. intros s Hs. repeat (apply elem_of_cons in Hs as [-> | Hs]; [vm_compute; reflexivity|]). by apply elem_of_nil in Hs. Qed.
Example nanos_shown :
  nanos_debug 1500000000 = "1.5s" /\ nanos_debug 2000001 = "2.000001ms" /\ nanos_debug 0 = "0ns".
Proof. vm_compute. auto. Qed.
