(* ===== verification/Tls.v ===== *)
(** * TLS set-up: [crates/msgtrans/src/adapters/tls_common.rs] and the set-up
      of connections and listeners in [tcp.rs], [quic.rs] and [websocket.rs]

    The SPKI pins and the certificate verifier each client configuration gets,
    the transport parameters of QUIC, how a listener chooses its TLS material,
    how a client connects within its time limits, and the errors [adapter.rs]
    makes of a failed set-up. rustls, quinn, the X.509 and PEM parsers and the
    network are the environment. Times are nanoseconds. *)

From Stdlib Require Import Ascii.
From S2P Require Import Prelude Packet Errors Retry Client Adapters Quic WebSocket Config.

(** ** Base64 *)

Definition base64_alphabet : string := "ABCDEFGHIJKLMNOPQRSTUVWXYZabcdefghijklmnopqrstuvwxyz0123456789+/".
Definition sextet (n : Z) : ascii := default "="%char (String.get (Z.to_nat n) base64_alphabet).

Definition base64_chunk (chunk : bytes) : list ascii :=
  let b i := default 0 (chunk !! i) in
  let n := Z.lor (Z.lor (Z.shiftl (b 0%nat) 16) (Z.shiftl (b 1%nat) 8)) (b 2%nat) in
  [sextet (Z.land (Z.shiftr n 18) 63);
   sextet (Z.land (Z.shiftr n 12) 63);
   if 1 <? len chunk then sextet (Z.land (Z.shiftr n 6) 63) else "="%char;
   if 2 <? len chunk then sextet (Z.land n 63) else "="%char].

(** [input.chunks(3)]. *)
Fixpoint chunks3 (input : bytes) : list bytes :=
  match input with
  | a :: b :: c :: rest => [a; b; c] :: chunks3 rest
  | [] => []
  | rest => [rest]
  end.

Definition base64_encode (input : bytes) : string :=
  String.string_of_list_ascii (mjoin (base64_chunk <$> chunks3 input)).

(** ** The environment

    What the code uses of X.509, PEM, rustls and webpki. Errors are as they
    display; [Anchor] is a root certificate as a verifier keeps it. *)

Class TlsLibrary := {
  Anchor : Type;
  TLS_SERVER_ROOTS : list Anchor;
  public_key_raw : bytes -> exec string bytes;      (* [X509Certificate::from_der], [public_key().raw] *)
  sha256 : bytes -> bytes;
  pem_certs : string -> exec string (list bytes);
  pem_private_key : string -> exec string (option bytes);
  root_of : bytes -> exec string Anchor;            (* [RootCertStore::add] *)
  protocol_versions : exec string unit;             (* [with_safe_default_protocol_versions] *)
  with_single_cert : list bytes -> bytes -> exec string unit;
  webpki_verify : list Anchor -> string -> bytes -> exec string unit;
  server_name_try_from : string -> exec string unit;
  generate_simple_self_signed : exec string (bytes * bytes);
  quic_client_crypto : exec string unit;            (* quinn's [QuicClientConfig::try_from] *)
  quic_server_crypto : exec string unit;
  debug_text : string -> string;                    (* [{:?}] of a string and of a list *)
  debug_texts : list string -> string
}.
(** A SHA-256 digest has 32 bytes (FIPS 180-4). *)
Class TlsLaws (T : TlsLibrary) :=
  sha256_digest m : length (sha256 m) = 32%nat /\ bytes_ok (sha256 m).

(** ** SPKI pins *)

(** [s.trim().is_empty()]: the white space of Unicode, in UTF-8. *)
Fixpoint all_white (s : list Z) : bool :=
  match s with
  | [] => true
  | c :: s =>
      if (c =? 32) || ((9 <=? c) && (c <=? 13)) then all_white s
      else match s with
           | c2 :: s2 =>
               if (c =? 0xc2) && ((c2 =? 0x85) || (c2 =? 0xa0)) then all_white s2
               else match s2 with
                    | c3 :: s3 =>
                        if ((c =? 0xe1) && (c2 =? 0x9a) && (c3 =? 0x80))
                           || ((c =? 0xe2) && (c2 =? 0x80)
                                && (((0x80 <=? c3) && (c3 <=? 0x8a)) || (c3 =? 0xa8) || (c3 =? 0xa9) || (c3 =? 0xaf)))
                           || ((c =? 0xe2) && (c2 =? 0x81) && (c3 =? 0x9f))
                           || ((c =? 0xe3) && (c2 =? 0x80) && (c3 =? 0x80))
                        then all_white s3 else false
                    | [] => false
                    end
           | [] => false
           end
  end.
Definition str_bytes (s : string) : bytes := Z.of_nat <$> (nat_of_ascii <$> String.list_ascii_of_string s).
Definition is_blank (s : string) : bool := all_white (str_bytes s).

Section Tls.
Context `{T : TlsLibrary}.

Definition spki_sha256_base64 (cert_der : bytes) : exec string string :=
  raw ← map_err (fun e => "failed to parse certificate: " +:+ e) (public_key_raw cert_der);
  Done (base64_encode (sha256 raw)).

Record PinnedSpkiVerification := mkPinned { pins : list string }.

Definition PinnedSpkiVerification_new (ps : list string) : exec string PinnedSpkiVerification :=
  if decide (ps = []) then Throw "at least one SPKI pin is required"
  else match List.find is_blank ps with
       | Some bad => Throw ("empty SPKI pin in list: " +:+ debug_text bad)
       | None => Done (mkPinned ps)
       end.

(** [verify_server_cert] of the pinned verifier; [rustls::Error::General]. *)
Definition verify_pinned (v : PinnedSpkiVerification) (end_entity : bytes) : exec string unit :=
  presented ← map_err (fun e => "cannot derive SPKI from server certificate: " +:+ e) (spki_sha256_base64 end_entity);
  if existsb (String.eqb presented) (pins v) then Done tt
  else Throw ("server SPKI pin mismatch: presented " +:+ presented +:+ ", expected one of " +:+ debug_texts (pins v)).

(** The verifier a client configuration is given. *)
Inductive ServerCertVerifier :=
  | Pinned (v : PinnedSpkiVerification)
  | RootCertificates (roots : list Anchor)
  | SkipServerVerification.

Definition verify_server_cert (v : ServerCertVerifier) (server_name : string) (end_entity : bytes) : exec string unit :=
  match v with
  | Pinned v => verify_pinned v end_entity
  | RootCertificates roots => webpki_verify roots server_name end_entity
  | SkipServerVerification => Done tt
  end.

(** [root_store.add(cert)] in turn; the first refusal ends it. *)
Fixpoint add_roots {E} (refused : string -> E) (roots : list Anchor) (certs : list bytes) : exec E (list Anchor) :=
  match certs with
  | [] => Done roots
  | cert :: certs => a ← map_err refused (root_of cert); add_roots refused (roots ++ [a]) certs
  end.

(** [.expect(...)]. *)
Definition expect {E A} (m : exec string A) : exec E A :=
  match m with Done a => Done a | _ => Panic end.

(** ** QUIC *)

Definition ALPN_MSGTRANS : string := "msgtrans/1".

Context `{Q : Quinn}.

(** What the set-up sets of quinn's transport parameters; the rest keeps
    quinn's defaults. *)
Record TransportConfig := mkTransportConfig {
  tf_receive_window : option VarInt;
  tf_send_window : option Z;
  tf_max_idle_timeout : option IdleTimeout;
  tf_keep_alive_interval : option Z;
  tf_initial_rtt : option Z;
  tf_max_uni_streams : option VarInt;
  tf_max_bidi_streams : option VarInt
}.

Definition idle_timeout_of (d : Z) : exec QuicError IdleTimeout :=
  map_err (fun e => QeConfig ("Invalid idle timeout: " +:+ e)) (IdleTimeout_try_from d).
Definition max_streams_of (n : Z) : exec QuicError VarInt :=
  match VarInt_from_u64 n with
  | Some v => Done v
  | None => Throw (QeConfig ("max_concurrent_streams " +:+ pretty n +:+ " exceeds the QUIC varint range"))
  end.

Definition apply_server_transport (config : QuicServerConfig) : exec QuicError TransportConfig :=
  idle ← idle_timeout_of (qsc_max_idle_timeout config);
  streams ← max_streams_of (qsc_max_concurrent_streams config);
  Done (mkTransportConfig (Some (VarInt_from_u32 (qsc_receive_window config))) (Some (qsc_send_window config))
    (Some idle) (qsc_keep_alive_interval config) (Some (qsc_initial_rtt config)) (Some streams) (Some streams)).

(** quinn's client configuration as the set-up fills it in. *)
Record quic_client_setup := mkQuicClientSetup {
  qcs_verifier : ServerCertVerifier;
  qcs_alpn : list string;
  qcs_transport : TransportConfig
}.

Definition quic_client_verifier (config : QuicClientConfig) : exec QuicError ServerCertVerifier :=
  if is_pinned config then
    verifier ← map_err (fun e => QeConfig ("invalid SPKI pins: " +:+ e)) (PinnedSpkiVerification_new (qcc_spki_pins config));
    _ ← expect protocol_versions;
    Done (Pinned verifier)
  else if qcc_verify_certificate config then
    root_store ← match qcc_ca_cert_pem config with
      | Some ca_cert_pem =>
          ca_certs ← map_err (fun e => QeConfig ("Failed to parse CA certificate: " +:+ e)) (pem_certs ca_cert_pem);
          add_roots (fun e => QeConfig ("Failed to add CA certificate to store: " +:+ e)) [] ca_certs
      | None => Done TLS_SERVER_ROOTS
      end;
    _ ← expect protocol_versions;
    Done (RootCertificates root_store)
  else
    _ ← expect protocol_versions;
    Done SkipServerVerification.

Definition configure_client_with_config (config : QuicClientConfig) : exec QuicError quic_client_setup :=
  verifier ← quic_client_verifier config;
  _ ← map_err (fun e => QeConfig ("QUIC client config error: " +:+ e)) quic_client_crypto;
  idle ← idle_timeout_of (qcc_max_idle_timeout config);
  streams ← max_streams_of (qcc_max_concurrent_streams config);
  Done (mkQuicClientSetup verifier [ALPN_MSGTRANS]
    (mkTransportConfig None None (Some idle) (qcc_keep_alive_interval config) (Some (qcc_initial_rtt config))
      (Some streams) (Some streams))).

(** quinn's server configuration: the certificate chain and key it presents. *)
Record quic_server_setup := mkQuicServerSetup {
  qss_certs : list bytes;
  qss_key : bytes;
  qss_alpn : list string;
  qss_transport : TransportConfig
}.

Definition configure_server_insecure_with_config (config : QuicServerConfig) : exec QuicError (quic_server_setup * bytes) :=
  '(cert, key) ← expect generate_simple_self_signed;
  _ ← expect protocol_versions;
  _ ← expect (with_single_cert [cert] key);
  _ ← expect quic_server_crypto;
  transport ← apply_server_transport config;
  Done (mkQuicServerSetup [cert] key [ALPN_MSGTRANS] transport, cert).

(** The key and the certificates of a PEM pair, parsed in this order. *)
Definition parse_pem_pair (cert_pem key_pem : string) : exec QuicError (list bytes * bytes) :=
  key ← map_err (fun e => QeConfig ("Failed to parse private key: " +:+ e)) (pem_private_key key_pem);
  key ← match key with Some key => Done key | None => Throw (QeConfig "No private key found in PEM data") end;
  certs ← map_err (fun e => QeConfig ("Failed to parse certificates: " +:+ e)) (pem_certs cert_pem);
  if decide (certs = []) then Throw (QeConfig "No certificates found in PEM data") else Done (certs, key).

Definition validate_server_tls_material_inner (cert_pem key_pem : string) : exec QuicError unit :=
  '(certs, key) ← parse_pem_pair cert_pem key_pem;
  _ ← expect protocol_versions;
  map_err (fun e => QeConfig ("TLS configuration error: " +:+ e)) (with_single_cert certs key).
Definition validate_server_tls_material (cert_pem key_pem : string) : exec TransportError unit :=
  map_err TransportError_from_quic (validate_server_tls_material_inner cert_pem key_pem).

Definition configure_server_with_pem (cert_pem key_pem : string) (config : QuicServerConfig)
    : exec QuicError (quic_server_setup * bytes) :=
  '(certs, key) ← parse_pem_pair cert_pem key_pem;
  first_cert ← idx certs 0;
  _ ← expect protocol_versions;
  _ ← map_err (fun e => QeConfig ("TLS configuration error: " +:+ e)) (with_single_cert certs key);
  _ ← map_err (fun e => QeConfig ("QUIC configuration error: " +:+ e)) quic_server_crypto;
  transport ← apply_server_transport config;
  Done (mkQuicServerSetup certs key [ALPN_MSGTRANS] transport, first_cert).

Record QuicServer := mkQuicServerEndpoint {
  qsv_config : QuicServerConfig;
  qsv_setup : quic_server_setup;
  qsv_address : SocketAddr
}.

(** [QuicServerBuilder::build]; [endpoint]: binding and asking the bound
    address, an IO error as it displays. *)
Definition QuicServerBuilder_build (config : QuicServerConfig) (bind_address : option SocketAddr)
    (endpoint : SocketAddr -> exec string SocketAddr) : exec QuicError QuicServer :=
  let bind_addr := default (SocketV4 127 0 0 1 0) bind_address in
  server_config ← match pem_of (qsc_cert_pem config), pem_of (qsc_key_pem config) with
    | Some cert_pem, Some key_pem => fst <$> configure_server_with_pem cert_pem key_pem config
    | None, None => fst <$> configure_server_insecure_with_config config
    | _, _ => Throw (QeConfig "cert_pem and key_pem must be provided together")
    end;
  local ← map_err QeIo (endpoint bind_addr);
  Done (mkQuicServerEndpoint config server_config local).

(** ** WebSocket *)

(** [SkipWsServerVerification] accepts any certificate too. *)
Definition build_tls_connector (tls : ClientTls) : exec WebSocketError ServerCertVerifier :=
  match tls with
  | SystemRoots => _ ← expect protocol_versions; Done (RootCertificates TLS_SERVER_ROOTS)
  | CustomCa pem =>
      certs ← map_err (fun e => WsConfig ("Invalid CA PEM: " +:+ e)) (pem_certs pem);
      if decide (certs = []) then Throw (WsConfig "CA PEM contains no certificates") else
      roots ← add_roots (fun e => WsConfig ("Invalid CA certificate: " +:+ e)) [] certs;
      _ ← expect protocol_versions;
      Done (RootCertificates roots)
  | Insecure => _ ← expect protocol_versions; Done SkipServerVerification
  end.

(** ** TCP listeners *)

Definition build_tls_acceptor (config : TcpServerConfig) : exec TcpError (list bytes * bytes) :=
  cert_pem ← match tsc_cert_pem config with Some p => Done p | None => Throw (TcpConfig "TLS enabled without a certificate") end;
  key_pem ← match tsc_key_pem config with Some p => Done p | None => Throw (TcpConfig "TLS enabled without a private key") end;
  key ← map_err (fun e => TcpConfig ("failed to parse private key: " +:+ e)) (pem_private_key key_pem);
  key ← match key with Some key => Done key | None => Throw (TcpConfig "no private key found in PEM data") end;
  certs ← map_err (fun e => TcpConfig ("failed to parse certificates: " +:+ e)) (pem_certs cert_pem);
  if decide (certs = []) then Throw (TcpConfig "no certificates found in PEM data") else
  _ ← map_err (fun e => TcpConfig ("TLS versions: " +:+ e)) protocol_versions;
  _ ← map_err (fun e => TcpConfig ("TLS configuration error: " +:+ e)) (with_single_cert certs key);
  Done (certs, key).

(** A listener serves plain connections, or owns the pump of the TLS handshakes. *)
Inductive tcp_listener_mode :=
  | PlainListener
  | TlsListener (certs : list bytes) (key : bytes).

Record TcpServer := mkTcpListening {
  tsv_config : TcpServerConfig;
  tsv_local_addr : SocketAddr;
  tsv_mode : tcp_listener_mode
}.

(** [TcpServerBuilder::build]; [listen]: creating the socket, its option, bind
    and listen, and asking the bound address. *)
Definition TcpServerBuilder_build (config : TcpServerConfig) (bind_address : option SocketAddr)
    (listen : bool -> SocketAddr -> exec IoError SocketAddr) : exec TcpError TcpServer :=
  let bind_addr := default (tsc_bind_address config) bind_address in
  local_addr ← map_err TcpIo (listen (tsc_reuse_addr config) bind_addr);
  if is_tls_enabled config then
    '(certs, key) ← build_tls_acceptor config;
    Done (mkTcpListening config local_addr (TlsListener certs key))
  else Done (mkTcpListening config local_addr PlainListener).

(** ** Clients and the network *)

Definition is_ipv4 (a : SocketAddr) : bool := match a with SocketV4 _ _ _ _ _ => true | _ => false end.

(** A failed handshake, as it displays: refused by the TLS layer, or failed on
    the network underneath. *)
Inductive handshake_error := RefusedByTls (e : string) | HandshakeIo (e : string).
Definition is_tls_rejection_io (e : handshake_error) : bool :=
  match e with RefusedByTls _ => true | HandshakeIo _ => false end.
Definition handshake_error_display (e : handshake_error) : string :=
  match e with RefusedByTls e | HandshakeIo e => e end.

(** A future that completes after a time, with a result. *)
Definition future E A : Type := Z * exec E A.

Inductive MaybeTlsStream :=
  | Plain
  | ServerTls
  | ClientTlsStream (end_entity : bytes).
Definition is_tls (s : MaybeTlsStream) : bool := match s with Plain => false | _ => true end.

(** [timeout_at(deadline, fut)], started at [now]; tokio polls the future first. *)
Definition timeout_at {E A} (elapsed : E) (deadline now : Z) (fut : future E A) : future E A :=
  if now + fst fut <=? deadline then (now + fst fut, snd fut) else (Z.max now deadline, Throw elapsed).

(** What the network does to a TCP client: a socket of the family, its bind, the
    connect, and the TLS handshake, which yields the certificate it accepted. *)
Record tcp_network := mkTcpNetwork {
  tn_socket : bool -> exec IoError unit;
  tn_bind : SocketAddr -> exec IoError unit;
  tn_connect : SocketAddr -> future IoError unit;
  tn_handshake : ServerCertVerifier -> string -> future handshake_error bytes;
  tn_setup : MaybeTlsStream -> exec IoError unit     (* [set_nodelay] and the addresses *)
}.
(** A completed handshake presented a certificate that its verifier accepted. *)
Definition handshake_verifies {E} (handshake : ServerCertVerifier -> string -> future E bytes) : Prop :=
  forall v name t der, handshake v name = (t, Done der) -> verify_server_cert v name der = Done tt.

(** How an address displays. *)
Definition hex_digit (n : Z) : string := String.substring (Z.to_nat n) 1 "0123456789abcdef".
Definition hex_group (n : Z) : string :=
  (if n <? 4096 then "" else hex_digit (n / 4096)) +:+ (if n <? 256 then "" else hex_digit (n / 256 mod 16))
    +:+ (if n <? 16 then "" else hex_digit (n / 16 mod 16)) +:+ hex_digit (n mod 16).
Definition join_groups (l : list Z) : string := String.concat ":" (hex_group <$> l).
(** The longest run of zero groups, the first one of that length: its start and length. *)
Fixpoint zero_run (l : list Z) (i : nat) (current longest : nat * nat) : nat * nat :=
  match l with
  | [] => longest
  | g :: l =>
      if g =? 0 then
        let current := (if (snd current =? 0)%nat then i else fst current, S (snd current)) in
        zero_run l (S i) current (if (snd longest <? snd current)%nat then current else longest)
      else zero_run l (S i) (0, 0)%nat longest
  end.
Definition dotted (a b c d : Z) : string :=
  pretty a +:+ "." +:+ pretty b +:+ "." +:+ pretty c +:+ "." +:+ pretty d.
Definition ip_display (a : SocketAddr) : string :=
  match a with
  | SocketV4 a b c d _ => dotted a b c d
  | SocketV6 segments _ _ _ =>
      match segments with
      | [0; 0; 0; 0; 0; 0xffff; ab; cd] => "::ffff:" +:+ dotted (ab / 256) (ab mod 256) (cd / 256) (cd mod 256)
      | _ =>
          let '(start, len) := zero_run segments 0 (0, 0)%nat (0, 0)%nat in
          if (1 <? len)%nat
          then join_groups (take start segments) +:+ "::" +:+ join_groups (drop (start + len) segments)
          else join_groups segments
      end
  end.

(** [client_tls_handshake]; [debug_text] renders the name in the error. *)
Definition client_tls_handshake (net : tcp_network) (config : TcpClientConfig) : future TcpError MaybeTlsStream :=
  let name := default (ip_display (tcc_target_address config)) (tcc_server_name config) in
  let prepared : exec TcpError ServerCertVerifier :=
    verifier ← map_err (fun e => TcpConfig ("invalid SPKI pins: " +:+ e)) (PinnedSpkiVerification_new (tcc_spki_pins config));
    _ ← map_err (fun e => TcpConfig ("TLS versions: " +:+ e)) protocol_versions;
    _ ← map_err (fun e => TcpConfig ("invalid server name " +:+ debug_text name +:+ ": " +:+ e)) (server_name_try_from name);
    Done (Pinned verifier) in
  match prepared with
  | Done verifier =>
      let '(t, result) := tn_handshake net verifier name in
      (t, ClientTlsStream <$> map_err (fun e =>
        let message := "TLS handshake failed (no plaintext fallback): " +:+ handshake_error_display e in
        if is_tls_rejection_io e then TcpTlsRejected message else TcpConfig message) result)
  | Throw e => (0, Throw e)
  | Panic => (0, Panic)
  end.

(** [Instant + Duration] panics past the clock's range, [i64] seconds on the Unix targets. *)
Definition instant_add (now d : Z) : exec TcpError Z :=
  if now + d <? 2 ^ 63 * NANOS_PER_SEC then Done (now + d) else Panic.

(** [TcpAdapter::connect], called at [now]: when it ends, and with which stream. *)
Definition TcpAdapter_connect (net : tcp_network) (now : Z) (addr : SocketAddr) (config : TcpClientConfig)
    : future TcpError MaybeTlsStream :=
  let timeout := tcc_connect_timeout config in
  let connect : future IoError unit :=
    match tcc_local_bind_address config with
    | Some local =>
        match (_ ← tn_socket net (is_ipv4 addr); tn_bind net local) with
        | Done _ => tn_connect net addr
        | Throw e => (0, Throw e)
        | Panic => (0, Panic)
        end
    | None => tn_connect net addr
    end in
  let connected (f : future IoError unit) : future TcpError unit := (fst f, map_err TcpIo (snd f)) in
  let bounded {A} deadline start (f : future TcpError A) : future TcpError A :=
    match deadline with
    | Some d => timeout_at TcpTimeout d start f
    | None => (start + fst f, snd f)
    end in
  match (if timeout =? 0 then Done None else Some <$> instant_add now timeout) with
  | Done deadline =>
      let '(t, r) := bounded deadline now (connected connect) in
      match r with
      | Done _ =>
          let '(t, r) :=
            if tcp_client_is_tls_enabled config then bounded deadline t (client_tls_handshake net config)
            else (t, Done Plain) in
          (t, stream ← r; _ ← map_err TcpIo (tn_setup net stream); Done stream)
      | Throw e => (t, Throw e)
      | Panic => (t, Panic)
      end
  | Throw e => (now, Throw e)
  | Panic => (now, Panic)
  end.

(** What the network does to a QUIC client: binding the endpoint, starting the
    connection, and the handshake. *)
Record quic_network := mkQuicNetwork {
  qn_bind : SocketAddr -> exec string unit;
  qn_start : SocketAddr -> string -> exec string unit;
  qn_handshake : quic_client_setup -> string -> future ConnectionError bytes;
  qn_adapter : exec QuicError unit
}.

(** [QuicAdapter::connect]: the certificate accepted, after how long. *)
Definition QuicAdapter_connect (net : quic_network) (addr : SocketAddr) (config : QuicClientConfig)
    : future QuicError bytes :=
  let prepared : exec QuicError (quic_client_setup * string) :=
    client_config ← configure_client_with_config config;
    _ ← map_err QeIo (qn_bind net (default (SocketV4 0 0 0 0 0) (qcc_local_bind_address config)));
    let server_name := default "localhost" (qcc_server_name config) in
    _ ← map_err QeConnect (qn_start net addr server_name);
    Done (client_config, server_name) in
  match prepared with
  | Done (client_config, server_name) =>
      let '(t, r) := qn_handshake net client_config server_name in
      let '(t, r) := timeout_at (QeConfig ("Connection timeout after " +:+ nanos_debug (qcc_connect_timeout config)))
        (qcc_connect_timeout config) 0 (t, map_err QeConnection r) in
      (t, der ← r; _ ← qn_adapter net; Done der)
  | Throw e => (0, Throw e)
  | Panic => (0, Panic)
  end.

End Tls.

(** ** [build_connection] and [build_server] of [adapter.rs]

    How a failed set-up reaches the retry loop; [debug] renders the derived
    [Debug] of the adapter's error. *)

Definition tcp_build_connection {A} (debug : TcpError -> string) (r : exec TcpError A) : exec TransportError A :=
  map_err (fun e => connection_error ("Failed to build TCP connection: " +:+ debug e)
    (match e with TcpTlsRejected _ => false | _ => true end)) r.
Definition websocket_build_connection {A} (debug : WebSocketError -> string) (r : exec WebSocketError A)
    : exec TransportError A :=
  map_err (fun e => connection_error ("Failed to build WebSocket connection: " +:+ debug e) true) r.
Definition quic_build_connection {A} (debug : QuicError -> string) (r : exec QuicError A) : exec TransportError A :=
  map_err (fun e => connection_error ("Failed to build QUIC connection: " +:+ debug e) (negb (is_tls_rejection e))) r.

Definition tcp_build_server {A} (debug : TcpError -> string) (r : exec TcpError A) : exec TransportError A :=
  map_err (fun e => connection_error ("Failed to build TCP server: " +:+ debug e) true) r.
Definition websocket_build_server {A} (debug : WebSocketError -> string) (r : exec WebSocketError A)
    : exec TransportError A :=
  map_err (fun e => connection_error ("Failed to build WebSocket server: " +:+ debug e) true) r.
Definition quic_build_server {A} (debug : QuicError -> string) (r : exec QuicError A) : exec TransportError A :=
  map_err (fun e => connection_error ("Failed to build QUIC server: " +:+ debug e) true) r.
