(* ===== verification/TlsProps.v ===== *)
(** * What the TLS set-up guarantees

    Base64 is injective, so a pinned client reaches exactly the servers whose
    public key it pins; a validated QUIC server configuration is served as it is
    written; where validation is weaker than the set-up. *)

From Stdlib Require Import Ascii.
From S2P Require Import Prelude Packet Errors Retry Client Adapters Quic WebSocket Config Tls.

(** ** Base64 *)

Lemma sextet_inj n m : 0 <= n < 64 -> 0 <= m < 64 -> sextet n = sextet m -> n = m.
Proof.
  assert (forallb (fun n => forallb (fun m => implb (Ascii.eqb (sextet n) (sextet m)) (n =? m)) (seqZ 0 64)) (seqZ 0 64) = true)
    as Hall by (vm_compute; reflexivity).
  intros Hn Hm E. rewrite forallb_forall in Hall.
  specialize (Hall n). rewrite <- list_elem_of_In, elem_of_seqZ, forallb_forall in Hall. specialize (Hall ltac:(lia) m).
  rewrite <- list_elem_of_In, elem_of_seqZ, E, Ascii.eqb_refl in Hall. specialize (Hall ltac:(lia)). by apply Z.eqb_eq in Hall.
Qed.

Lemma sextet_not_special n : 0 <= n < 64 ->
  sextet n <> "="%char /\ exists c, c = Z.of_nat (nat_of_ascii (sextet n)) /\ 33 <= c < 128.
Proof.
  assert (forallb (fun n => negb (Ascii.eqb (sextet n) "=") && (33 <=? Z.of_nat (nat_of_ascii (sextet n)))
                            && (Z.of_nat (nat_of_ascii (sextet n)) <? 128)) (seqZ 0 64) = true)
    as Hall by (vm_compute; reflexivity).
  intros Hn. rewrite forallb_forall in Hall. specialize (Hall n).
  rewrite <- list_elem_of_In, elem_of_seqZ in Hall. specialize (Hall ltac:(lia)).
  rewrite !andb_true_iff, negb_true_iff, Ascii.eqb_neq in Hall. destruct Hall as [[? ?] ?].
  split; [done|]. eexists. split; [done|]. lia.
Qed.

Lemma lor_shift a b n : 0 <= n -> 0 <= b < 2 ^ n -> Z.lor (Z.shiftl a n) b = a * 2 ^ n + b.
Proof.
  intros Hn Hb. rewrite <- Z.shiftl_mul_pow2 by done.
  rewrite <- Z.add_lor_land.
  replace (Z.land (Z.shiftl a n) b) with 0; [lia|].
  symmetry. apply Z.bits_inj'. intros i Hi. rewrite Z.land_spec, Z.bits_0, Z.shiftl_spec by done.
  destruct (Z.ltb_spec i n).
  - by rewrite Z.testbit_neg_r by lia.
  - rewrite <- (Z.mod_small b (2 ^ n)) by done. by rewrite Z.mod_pow2_bits_high, andb_false_r by lia.
Qed.

Lemma chunk_word a b c : is_byte a -> is_byte b -> is_byte c ->
  Z.lor (Z.lor (Z.shiftl a 16) (Z.shiftl b 8)) c = a * 65536 + b * 256 + c.
Proof.
  unfold in_width. change (2 ^ 8) with 256. intros. rewrite (lor_shift a) by (rewrite ?Z.shiftl_mul_pow2; lia).
  rewrite Z.shiftl_mul_pow2 by lia.
  replace (a * 2 ^ 16 + b * 2 ^ 8) with (Z.shiftl (a * 256 + b) 8) by (rewrite Z.shiftl_mul_pow2; lia).
  rewrite lor_shift by lia. lia.
Qed.

Lemma base64_chunk_length c : length (base64_chunk c) = 4%nat.
Proof. reflexivity. Qed.

(** The four letters of a chunk in arithmetic, the missing bytes zero. *)
Lemma base64_chunk_word a b c l : is_byte a -> is_byte b -> is_byte c ->
  l = [a; b; c] \/ (l = [a; b] /\ c = 0) \/ (l = [a] /\ b = 0 /\ c = 0) ->
  let n := a * 65536 + b * 256 + c in
  base64_chunk l = [sextet (n / 2 ^ 18 mod 64); sextet (n / 2 ^ 12 mod 64);
                    if 1 <? len l then sextet (n / 2 ^ 6 mod 64) else "="%char;
                    if 2 <? len l then sextet (n mod 64) else "="%char].
Proof.
  intros Ha Hb Hc Hl n. unfold n. rewrite <- (chunk_word a b c) by done. unfold base64_chunk.
  assert (default 0 (l !! 0%nat) = a /\ default 0 (l !! 1%nat) = b /\ default 0 (l !! 2%nat) = c) as (-> & -> & ->)
    by (destruct Hl as [-> | [[-> ->] | (-> & -> & ->)]]; done).
  rewrite !Z.shiftr_div_pow2 by lia. change 63 with (Z.ones 6). by rewrite !Z.land_ones by lia.
Qed.

(** A chunk of one to three bytes. *)
Definition is_chunk (l : bytes) : Prop := bytes_ok l /\ (1 <= length l <= 3)%nat.

Lemma is_chunk_word l : is_chunk l ->
  exists a b c, is_byte a /\ is_byte b /\ is_byte c /\ (l = [a; b; c] \/ (l = [a; b] /\ c = 0) \/ (l = [a] /\ b = 0 /\ c = 0)).
Proof.
  assert (is_byte 0) as H0 by done.
  intros [Hok Hlen]. destruct l as [|a [|b [|c [|]]]]; simpl in Hlen; try lia;
    repeat match goal with H : Forall _ (_ :: _) |- _ => apply Forall_cons in H as [? ?] end.
  - exists a, 0, 0. auto 10.
  - exists a, b, 0. auto 10.
  - exists a, b, c. auto 10.
Qed.

(** Four equal letters make equal words. *)
Lemma word_of_letters n n' : 0 <= n < 2 ^ 24 -> 0 <= n' < 2 ^ 24 ->
  n / 2 ^ 18 mod 64 = n' / 2 ^ 18 mod 64 -> n / 2 ^ 12 mod 64 = n' / 2 ^ 12 mod 64 ->
  n / 2 ^ 6 mod 64 = n' / 2 ^ 6 mod 64 -> n mod 64 = n' mod 64 -> n = n'.
Proof. intros Hn Hn' E0 E1 E2 E3. Z.div_mod_to_equations. lia. Qed.

(** The low letters of a word whose low bytes are zero. *)
Lemma low_letters a b :
  (a * 65536 + b * 256 + 0) mod 64 = 0 /\ (a * 65536 + 0 * 256 + 0) / 2 ^ 6 mod 64 = 0.
Proof.
  split.
  - replace (a * 65536 + b * 256 + 0) with ((a * 1024 + b * 4) * 64) by lia. by apply Z.mod_mul.
  - replace (a * 65536 + 0 * 256 + 0) with (a * 1024 * 2 ^ 6) by lia. rewrite Z.div_mul by done.
    replace (a * 1024) with (a * 16 * 64) by lia. by apply Z.mod_mul.
Qed.

Lemma bytes_of_word a b c a' b' c' :
  is_byte a -> is_byte b -> is_byte c -> is_byte a' -> is_byte b' -> is_byte c' ->
  a * 65536 + b * 256 + c = a' * 65536 + b' * 256 + c' -> a = a' /\ b = b' /\ c = c'.
Proof. unfold in_width. change (2 ^ 8) with 256. lia. Qed.

Lemma sextet_letter n m :
  (sextet (n mod 64) <> "="%char) /\ (sextet (n mod 64) = sextet (m mod 64) -> n mod 64 = m mod 64).
Proof.
  assert (forall x, 0 <= x mod 64 < 64) as Hm by (intros; apply Z.mod_pos_bound; lia).
  split; [apply sextet_not_special|apply sextet_inj]; apply Hm.
Qed.

Lemma base64_chunk_inj l l' : is_chunk l -> is_chunk l' -> base64_chunk l = base64_chunk l' -> l = l'.
Proof.
  intros (a & b & c & Ha & Hb & Hc & Hl)%is_chunk_word (a' & b' & c' & Ha' & Hb' & Hc' & Hl')%is_chunk_word E.
  rewrite (base64_chunk_word a b c l), (base64_chunk_word a' b' c' l') in E by done. injection E as E0 E1 E2 E3.
  apply sextet_letter in E0, E1.
  assert (length l = length l' /\ (a * 65536 + b * 256 + c) / 2 ^ 6 mod 64 = (a' * 65536 + b' * 256 + c') / 2 ^ 6 mod 64
    /\ (a * 65536 + b * 256 + c) mod 64 = (a' * 65536 + b' * 256 + c') mod 64) as (Hlen & F2 & F3).
  { destruct Hl as [-> | [[-> ->] | (-> & -> & ->)]], Hl' as [-> | [[-> ->] | (-> & -> & ->)]];
      change (1 <? len _) with true in E2 || change (1 <? len [a]) with false in E2;
      try (exfalso; first [apply (sextet_letter _ 0) in E2 | symmetry in E2; apply (sextet_letter _ 0) in E2
                          | apply (sextet_letter _ 0) in E3 | symmetry in E3; apply (sextet_letter _ 0) in E3]; done);
      (split; [done|]); rewrite ?(proj1 (low_letters _ _)), ?(proj2 (low_letters _ 0)); split; try done;
      (by apply sextet_letter in E2) || (by apply sextet_letter in E3). }
  assert (forall x y z, is_byte x -> is_byte y -> is_byte z -> 0 <= x * 65536 + y * 256 + z < 2 ^ 24) as Hw
    by (unfold in_width; change (2 ^ 8) with 256; lia).
  pose proof (word_of_letters _ _ (Hw _ _ _ Ha Hb Hc) (Hw _ _ _ Ha' Hb' Hc') E0 E1 F2 F3) as Ew.
  apply bytes_of_word in Ew as (-> & -> & ->); [|done..].
  by destruct Hl as [-> | [[-> _] | (-> & _ & _)]], Hl' as [-> | [[-> _] | (-> & _ & _)]].
Qed.

(** ** Base64 is injective *)

Lemma chunks3_are_chunks l : bytes_ok l -> Forall is_chunk (chunks3 l).
Proof.
  induction l as [l IH] using (induction_ltof1 _ (@length Z)). intros Hok.
  destruct l as [|a [|b [|c l]]]; cbn [chunks3].
  - constructor.
  - constructor; [split; [done|simpl; lia]|constructor].
  - constructor; [split; [done|simpl; lia]|constructor].
  - repeat match goal with H : Forall _ (_ :: _) |- _ => apply Forall_cons in H as [? ?] end.
    constructor; [split; [by rewrite !Forall_cons|simpl; lia]|]. apply IH; [unfold ltof; simpl; lia|done].
Qed.

Lemma chunks3_join l : mjoin (chunks3 l) = l.
Proof.
  induction l as [l IH] using (induction_ltof1 _ (@length Z)).
  destruct l as [|a [|b [|c l]]]; cbn; try done. do 3 f_equal. apply IH. unfold ltof. simpl. lia.
Qed.

Lemma encoded_chunks_inj ls ls' : Forall is_chunk ls -> Forall is_chunk ls' ->
  mjoin (base64_chunk <$> ls) = mjoin (base64_chunk <$> ls') -> ls = ls'.
Proof.
  intros H. revert ls'. induction H as [|l ls Hl Hls IH]; intros [|l' ls'] H' E; try done.
  apply Forall_cons in H' as [Hl' Hls']. cbn [fmap list_fmap mjoin list_join] in E.
  apply app_inj_1 in E as [E1 E2]; [|done].
  f_equal; [by apply base64_chunk_inj|by apply IH].
Qed.

Lemma base64_encode_inj a b : bytes_ok a -> bytes_ok b -> base64_encode a = base64_encode b -> a = b.
Proof.
  intros Ha Hb E. unfold base64_encode in E. apply (f_equal String.list_ascii_of_string) in E.
  rewrite !String.list_ascii_of_string_of_list_ascii in E.
  rewrite <- (chunks3_join a), <- (chunks3_join b). f_equal. by apply encoded_chunks_inj; [apply chunks3_are_chunks..|].
Qed.

Lemma encoded_not_blank a : a <> [] -> bytes_ok a -> is_blank (base64_encode a) = false.
Proof.
  intros Hne Hok. assert (exists n r, base64_encode a = String (sextet (n mod 64)) r) as (n & r & ->).
  { pose proof (chunks3_are_chunks a Hok) as Hc. pose proof (chunks3_join a) as Hj. unfold base64_encode.
    destruct (chunks3 a) as [|l ls]; [by subst|]. apply Forall_cons in Hc as [Hl _].
    apply is_chunk_word in Hl as (x & y & z & Hx & Hy & Hz & Hl).
    cbn [fmap list_fmap mjoin list_join]. rewrite (base64_chunk_word x y z l) by done. eauto. }
  destruct (sextet_not_special (n mod 64)) as (_ & c & Hc & Hb); [apply Z.mod_pos_bound; lia|].
  unfold is_blank, str_bytes. cbn [String.list_ascii_of_string fmap list_fmap]. rewrite <- Hc. cbn [all_white]. zbool.
  cbn. repeat (case_match; try done); zbool.
Qed.

(** ** Pins *)

Lemma find_none {A} (f : A -> bool) l : Forall (fun x => f x = false) l -> List.find f l = None.
Proof. induction 1 as [|x l Hx _ IH]; simpl; [done|]. by rewrite Hx. Qed.

Definition is_digest (d : bytes) : Prop := length d = 32%nat /\ bytes_ok d.

Section Pins.
Context `{T : TlsLibrary} {L : TlsLaws T} `{Q : Quinn}.

(** The certificates whose public key has one of the digests. *)
Definition trusted (ds : list bytes) (der : bytes) : Prop :=
  exists raw, public_key_raw der = Done raw /\ sha256 raw ∈ ds.

Lemma pins_of_digests ds : ds <> [] -> Forall is_digest ds ->
  PinnedSpkiVerification_new (base64_encode <$> ds) = Done (mkPinned (base64_encode <$> ds)).
Proof.
  intros Hne Hds. unfold PinnedSpkiVerification_new. rewrite decide_False by (by destruct ds).
  rewrite find_none; [done|]. apply Forall_fmap. eapply Forall_impl; [exact Hds|]. simpl.
  intros d [Hlen Hok]. apply encoded_not_blank; [by intros ->|done].
Qed.

Lemma verify_pinned_spec ds der : Forall is_digest ds ->
  verify_pinned (mkPinned (base64_encode <$> ds)) der = Done tt <-> trusted ds der.
Proof.
  intros Hds. unfold verify_pinned, spki_sha256_base64, trusted.
  destruct (public_key_raw der) as [raw|e|]; cbn; [|split; [done|by intros (? & ? & _)]..].
  destruct (existsb _ _) eqn:Ex.
  - apply existsb_exists in Ex as (p & Hp & Eq). apply list_elem_of_In, list_elem_of_fmap in Hp as (d & -> & Hd).
    apply String.eqb_eq in Eq. apply base64_encode_inj in Eq.
    + split; [|done]. intros _. exists raw. by rewrite Eq.
    + apply sha256_digest.
    + rewrite Forall_forall in Hds. by apply Hds in Hd as [_ ?].
  - split; [done|]. intros (raw' & [= <-] & Hin). exfalso. apply not_true_iff_false in Ex. apply Ex.
    apply existsb_exists. exists (base64_encode (sha256 raw)). split; [|apply String.eqb_refl].
    apply list_elem_of_In, list_elem_of_fmap. eauto.
Qed.

(** The QUIC verifier of a pinned configuration, whatever else it asks for. *)
Lemma quic_pins_win ds c setup : ds <> [] -> Forall is_digest ds -> qcc_spki_pins c = base64_encode <$> ds ->
  configure_client_with_config c = Done setup -> qcs_verifier setup = Pinned (mkPinned (base64_encode <$> ds)).
Proof.
  intros Hne Hds Hp. unfold configure_client_with_config, quic_client_verifier, is_pinned. rewrite Hp.
  rewrite bool_decide_false by (by destruct ds). cbn [negb]. rewrite pins_of_digests by done. cbn.
  destruct protocol_versions; cbn; [|done..]. intros H. repeat exec_inv H. by injection H as <-.
Qed.

Lemma timeout_at_done {E A} (elapsed : E) deadline now (f : future E A) t a :
  timeout_at elapsed deadline now f = (t, Done a) -> f = (t - now, Done a) /\ t <= deadline.
Proof.
  unfold timeout_at. destruct f as [tf r]. simpl. zcase; [|done]. intros [= <- ->]. split; [f_equal; lia|done].
Qed.

Lemma client_tls_handshake_done ds net c t s : ds <> [] -> Forall is_digest ds ->
  tcc_spki_pins c = base64_encode <$> ds -> handshake_verifies (tn_handshake net) ->
  client_tls_handshake net c = (t, Done s) -> exists der, s = ClientTlsStream der /\ trusted ds der.
Proof.
  intros Hne Hds Hp Hv. unfold client_tls_handshake. rewrite Hp, pins_of_digests by done. cbn.
  destruct protocol_versions; cbn; [|done..]. destruct (server_name_try_from _); cbn; [|done..].
  destruct (tn_handshake net _ _) as [th [der| |]] eqn:Eh; cbn; [|done..]. intros [= <- <-].
  exists der. split; [done|]. apply Hv in Eh. by apply verify_pinned_spec.
Qed.

(** A pinned TCP client that connects did so under TLS, in time. *)
Lemma tcp_connect_pinned ds net now addr c t s : ds <> [] -> Forall is_digest ds ->
  tcc_spki_pins c = base64_encode <$> ds -> handshake_verifies (tn_handshake net) ->
  TcpAdapter_connect net now addr c = (t, Done s) ->
  (exists der, s = ClientTlsStream der /\ trusted ds der) /\
  (tcc_connect_timeout c <> 0 -> t <= now + tcc_connect_timeout c).
Proof.
  intros Hne Hds Hp Hv. unfold TcpAdapter_connect.
  assert (tcp_client_is_tls_enabled c = true) as ->.
  { unfold tcp_client_is_tls_enabled. rewrite Hp, bool_decide_false; [done|]. by destruct ds. }
  set (conn := match tcc_local_bind_address c with Some _ => _ | None => _ end). generalize conn. clear conn. intros conn.
  destruct (Z.eqb_spec (tcc_connect_timeout c) 0) as [Hz|Hz]; cbn.
  - destruct (snd conn); cbn; [|done..]. destruct (client_tls_handshake net c) as [th rh] eqn:Eh. cbn.
    intros [= <- H]. exec_inv H. subst. exec_inv H. injection H as <-. split; [|done].
    by eapply client_tls_handshake_done.
  - unfold instant_add. zcase; cbn; [|done].
    destruct (timeout_at TcpTimeout _ now _) as [t1 [[]| |]]; cbn; [|done..].
    destruct (timeout_at TcpTimeout _ t1 _) as [t2 r2] eqn:E2. cbn.
    intros [= <- H']. exec_inv H'. exec_inv H'. injection H' as <-. subst.
    apply timeout_at_done in E2 as [E2 ?]. split; [|done]. by eapply client_tls_handshake_done.
Qed.

(** What a connected QUIC client has: a set-up, and a certificate its handshake took. *)
Lemma quic_connect_done net addr c t der : QuicAdapter_connect net addr c = (t, Done der) ->
  exists setup name, configure_client_with_config c = Done setup /\
    qn_handshake net setup name = (t, Done der) /\ t <= qcc_connect_timeout c.
Proof.
  unfold QuicAdapter_connect. destruct (configure_client_with_config c) as [setup| |]; cbn; [|done..].
  destruct (map_err QeIo _); cbn; [|done..]. destruct (map_err QeConnect _); cbn; [|done..].
  destruct (qn_handshake net setup _) as [th rh] eqn:Eh.
  destruct (timeout_at _ _ 0 _) as [t2 r2] eqn:E2. intros [= <- H]. exec_inv H. exec_inv H. injection H as <-. subst.
  apply timeout_at_done in E2 as [[= -> E2] ?]. destruct rh as [x| |]; try done. injection E2 as ->.
  rewrite Z.sub_0_r in Eh. eauto 10.
Qed.
End Pins.

(** C34: Pinning is exact and cannot be bypassed: a verifier made of the digests
    of some public keys accepts exactly the certificates with such a key; a
    pinned TCP client that connects did so under TLS, with such a certificate
    and within its connect timeout, never in plaintext; a pinned QUIC client that
    connects did so with such a certificate, whatever its other settings say
    about verification. *)
Theorem pinned_client_reaches_only_its_servers `{T : TlsLibrary} {L : TlsLaws T} `{Q : Quinn} ds :
  ds <> [] -> Forall is_digest ds ->
  (exists v, PinnedSpkiVerification_new (base64_encode <$> ds) = Done v /\
     forall name der, verify_server_cert (Pinned v) name der = Done tt <-> trusted ds der) /\
  (forall net now addr c t s, tcc_spki_pins c = base64_encode <$> ds ->
     handshake_verifies (tn_handshake net) -> TcpAdapter_connect net now addr c = (t, Done s) ->
     (exists der, s = ClientTlsStream der /\ trusted ds der) /\
     (tcc_connect_timeout c <> 0 -> t <= now + tcc_connect_timeout c)) /\
  (forall net addr c t der, qcc_spki_pins c = base64_encode <$> ds ->
     (forall setup, handshake_verifies (fun v => qn_handshake net (mkQuicClientSetup v (qcs_alpn setup) (qcs_transport setup)))) ->
     QuicAdapter_connect net addr c = (t, Done der) -> trusted ds der /\ t <= qcc_connect_timeout c).
Proof.
  intros Hne Hds. split_and!.
  - exists (mkPinned (base64_encode <$> ds)). split; [by apply pins_of_digests|].
    intros name der. by apply verify_pinned_spec.
  - intros net now addr c t s Hp Hv E. by eapply tcp_connect_pinned.
  - intros net addr c t der Hp Hv E. apply quic_connect_done in E as (setup & name & Es & Eh & Ht).
    split; [|done]. pose proof (quic_pins_win ds c setup Hne Hds Hp Es) as Ev.
    destruct setup as [v alpn tf]. apply (Hv (mkQuicClientSetup v alpn tf)) in Eh. cbn in Ev, Eh. subst v.
    by apply verify_pinned_spec in Eh.
Qed.

(** A sample environment: a certificate is its own key, the digest repeats its
    first byte, PEM texts are taken as they are. *)
#[export] Instance sample_tls : TlsLibrary := {|
  Anchor := bytes; TLS_SERVER_ROOTS := [[1]];
  public_key_raw der := Done der;
  sha256 m := replicate 32 (default 0 (head m) mod 256);
  pem_certs s := if decide (s = "") then Throw "no PEM" else Done [[7]];
  pem_private_key s := if decide (s = "key") then Done (Some [9]) else Done None;
  root_of der := Done der;
  protocol_versions := Done tt;
  with_single_cert _ _ := Done tt;
  webpki_verify roots _ der := if decide (der ∈ roots) then Done tt else Throw "UnknownIssuer";
  server_name_try_from _ := Done tt;
  generate_simple_self_signed := Done ([3], [4]);
  quic_client_crypto := Done tt; quic_server_crypto := Done tt;
  debug_text s := s; debug_texts := String.concat ", "
|}.
#[export] Instance sample_tls_laws : TlsLaws sample_tls.
Proof.
  intros m. split; [apply length_replicate|]. apply Forall_replicate.
  unfold in_width. change (2 ^ 8) with 256. apply Z.mod_pos_bound. lia.
Qed.
#[export] Instance sample_quinn : Quinn := {|
  IdleTimeout := Z; IdleTimeout_try_from d := if d / 1000000 <? 2 ^ 62 then Done (d / 1000000) else Throw "value too large for varint encoding";
  VarInt := Z; VarInt_from_u32 n := n; VarInt_from_u64 n := if n <? 2 ^ 62 then Some n else None
|}.
#[export] Instance sample_quinn_laws : QuinnLaws sample_quinn.
Proof. intros n Hn. cbn -[Z.pow]. zbool. eauto. Qed.

(** A network whose server presents the certificate [der]. *)
Definition sample_handshake {E} (refused : string -> E) (der : bytes) (v : ServerCertVerifier) (name : string) : future E bytes :=
  (5, match verify_server_cert v name der with Done _ => Done der | Throw e => Throw (refused e) | Panic => Panic end).
Definition sample_tcp (der : bytes) : tcp_network :=
  mkTcpNetwork (fun _ => Done tt) (fun _ => Done tt) (fun _ => (3, Done tt)) (sample_handshake RefusedByTls der) (fun _ => Done tt).
Definition sample_quic (der : bytes) : quic_network :=
  mkQuicNetwork (fun _ => Done tt) (fun _ _ => Done tt)
    (fun setup name => sample_handshake (QuicTransportError 0x12a) der (qcs_verifier setup) name) (Done tt).
Definition sample_pin : list string := base64_encode <$> [sha256 [7]].
Definition sample_pinned_tcp : TcpClientConfig := TcpClientConfig_spki_pins sample_pin TcpClientConfig_default.
Definition sample_pinned_quic : QuicClientConfig :=
  QuicClientConfig_danger_skip_verification (QuicClientConfig_spki_pins sample_pin QuicClientConfig_default).

Lemma sample_handshake_verifies {E} (refused : string -> E) der : handshake_verifies (sample_handshake refused der).
Proof.
  intros v name t der' [= _ H]. destruct (verify_server_cert v name der) as [[]| |] eqn:Ev; try done. by injection H as <-.
Qed.

Lemma pinned_client_witness :
  (exists s, TcpAdapter_connect (sample_tcp [7]) 0 (SocketV4 127 0 0 1 80) sample_pinned_tcp = (8, Done s) /\
     exists der, s = ClientTlsStream der /\ trusted [sha256 [7]] der) /\
  snd (TcpAdapter_connect (sample_tcp [8]) 0 (SocketV4 127 0 0 1 80) sample_pinned_tcp) <> Done Plain /\
  is_ok (snd (QuicAdapter_connect (sample_quic [7]) (SocketV4 127 0 0 1 80) sample_pinned_quic)) = true /\
  is_ok (snd (QuicAdapter_connect (sample_quic [8]) (SocketV4 127 0 0 1 80) sample_pinned_quic)) = false /\
  trusted [sha256 [7]] [7].
Proof.
  assert (Forall is_digest [sha256 [7]]) as Hds by (apply Forall_singleton, (sha256_digest [7])).
  destruct (pinned_client_reaches_only_its_servers [sha256 [7]] ltac:(done) Hds) as (_ & Htcp & Hquic).
  split_and!; try (vm_compute; reflexivity).
  - exists (ClientTlsStream [7]). split; [vm_compute; reflexivity|].
    apply (Htcp (sample_tcp [7]) 0 (SocketV4 127 0 0 1 80) sample_pinned_tcp 8);
      [reflexivity|apply sample_handshake_verifies|vm_compute; reflexivity].
  - vm_compute. discriminate.
  - apply (Hquic (sample_quic [7]) (SocketV4 127 0 0 1 80) sample_pinned_quic 5 [7]);
      [reflexivity|intros setup; apply sample_handshake_verifies|vm_compute; reflexivity].
Defined.

(** ** Validated configurations *)

Section Validated.
Context `{T : TlsLibrary} `{Q : Quinn} {QL : QuinnLaws Q}.

Lemma stream_count_valid n : 0 <= n -> validate_quic_stream_count n = Done tt <-> 1 <= n <= 2 ^ 60.
Proof.
  intros Hn. unfold validate_quic_stream_count, QUIC_MAX_STREAM_COUNT. rewrite Z.shiftl_1_l.
  repeat zcase; split; try done; lia.
Qed.

(** A valid QUIC server configuration, in terms of its fields. *)
Lemma quic_server_valid c : 0 <= qsc_max_concurrent_streams c ->
  QuicServerConfig_validate c = Done tt <->
  is_ok (IdleTimeout_try_from (qsc_max_idle_timeout c)) = true /\ 1 <= qsc_max_concurrent_streams c <= 2 ^ 60 /\
  (is_Some (pem_of (qsc_cert_pem c)) <-> is_Some (pem_of (qsc_key_pem c))).
Proof.
  intros Hs. rewrite <- stream_count_valid by done. unfold QuicServerConfig_validate.
  destruct (is_ok _); cbn [negb]; [|naive_solver].
  destruct (validate_quic_stream_count _) as [[]| |]; cbn; [|naive_solver..].
  destruct (pem_of (qsc_cert_pem c)), (pem_of (qsc_key_pem c)); cbn; split; try done; rewrite ?is_Some_alt; naive_solver.
Qed.

(** The transport parameters of a server configuration, once set. *)
Definition transport_as_configured (c : QuicServerConfig) (tf : TransportConfig) : Prop :=
  tf_receive_window tf = Some (VarInt_from_u32 (qsc_receive_window c)) /\
  tf_send_window tf = Some (qsc_send_window c) /\
  (exists idle, IdleTimeout_try_from (qsc_max_idle_timeout c) = Done idle /\ tf_max_idle_timeout tf = Some idle) /\
  tf_keep_alive_interval tf = qsc_keep_alive_interval c /\
  tf_initial_rtt tf = Some (qsc_initial_rtt c) /\
  (exists n, VarInt_from_u64 (qsc_max_concurrent_streams c) = Some n /\
     tf_max_uni_streams tf = Some n /\ tf_max_bidi_streams tf = Some n).

Lemma apply_server_transport_done c tf : apply_server_transport c = Done tf -> transport_as_configured c tf.
Proof.
  unfold apply_server_transport, idle_timeout_of, max_streams_of. intros H. exec_inv H. exec_inv H. injection H as <-.
  destruct (IdleTimeout_try_from _) eqn:Ei; try done. destruct (VarInt_from_u64 _) eqn:En; try done.
  simplify_eq/=. repeat split; eauto.
Qed.

Lemma apply_server_transport_valid c : 0 <= qsc_max_concurrent_streams c -> QuicServerConfig_validate c = Done tt ->
  exists tf, apply_server_transport c = Done tf.
Proof.
  intros Hs (Hi & Hn & _)%quic_server_valid; [|done].
  unfold apply_server_transport, idle_timeout_of, max_streams_of.
  destruct (IdleTimeout_try_from _); try done. cbn.
  destruct (varint_range (qsc_max_concurrent_streams c)) as [n ->]; [lia|]. cbn. eauto.
Qed.

(** The server's TLS material: the PEM pair is good, or none is given and a
    certificate can be made. *)
Definition material_ok (c : QuicServerConfig) : Prop :=
  quic_server_crypto = Done tt /\
  match pem_of (qsc_cert_pem c), pem_of (qsc_key_pem c) with
  | Some cert_pem, Some key_pem => validate_server_tls_material cert_pem key_pem = Done tt
  | _, _ => protocol_versions = Done tt /\
      exists cert key, generate_simple_self_signed = Done (cert, key) /\ with_single_cert [cert] key = Done tt
  end.
(** What the server presents: the PEM pair, or the certificate it made. *)
Definition material_of (c : QuicServerConfig) (certs : list bytes) (key : bytes) : Prop :=
  match pem_of (qsc_cert_pem c), pem_of (qsc_key_pem c) with
  | Some cert_pem, Some key_pem => pem_certs cert_pem = Done certs /\ pem_private_key key_pem = Done (Some key)
  | _, _ => exists cert, generate_simple_self_signed = Done (cert, key) /\ certs = [cert]
  end.

Lemma parse_pem_pair_done cert_pem key_pem certs key : parse_pem_pair cert_pem key_pem = Done (certs, key) ->
  pem_certs cert_pem = Done certs /\ pem_private_key key_pem = Done (Some key) /\ certs <> [].
Proof.
  unfold parse_pem_pair. destruct (pem_private_key key_pem) as [[k|]| |]; cbn; try done.
  destruct (pem_certs cert_pem); cbn; try done. case_decide; intros [= <- <-]. auto.
Qed.

(** The set-up of a listener whose material and transport parameters are good. *)
Lemma server_material_served c tf : apply_server_transport c = Done tf -> material_ok c ->
  match pem_of (qsc_cert_pem c), pem_of (qsc_key_pem c) with
  | Some cert_pem, Some key_pem =>
      exists certs key, fst <$> configure_server_with_pem cert_pem key_pem c = Done (mkQuicServerSetup certs key [ALPN_MSGTRANS] tf) /\
        material_of c certs key
  | _, _ =>
      exists certs key, fst <$> configure_server_insecure_with_config c = Done (mkQuicServerSetup certs key [ALPN_MSGTRANS] tf) /\
        (pem_of (qsc_cert_pem c) = None -> material_of c certs key)
  end.
Proof.
  intros Htf [Hcr Hm]. unfold material_of. destruct (pem_of (qsc_cert_pem c)) as [cp|], (pem_of (qsc_key_pem c)) as [kp|].
  2-4: destruct Hm as (Hpv & cert & key & Hg & Hw); exists [cert], key; split;
    [unfold configure_server_insecure_with_config; rewrite Hg; cbn; rewrite Hpv; cbn; rewrite Hw; cbn; by rewrite Hcr, Htf|eauto].
  unfold validate_server_tls_material in Hm. destruct (validate_server_tls_material_inner cp kp) as [[]| |] eqn:Ev; try done.
  unfold validate_server_tls_material_inner in Ev. exec_inv Ev. destruct r as [certs key]. exec_inv Ev.
  exists certs, key. pose proof (parse_pem_pair_done _ _ _ _ Hm0) as (? & ? & Hne).
  unfold configure_server_with_pem. rewrite Hm0. cbn. destruct certs as [|cert certs]; [done|].
  change (idx (E := QuicError) (cert :: certs) 0) with (Done (E := QuicError) cert).
  destruct protocol_versions; try done. cbn. destruct (with_single_cert _ key) as [[]| |]; try done. cbn.
  rewrite Hcr. cbn. by rewrite Htf.
Qed.
End Validated.

(** C35: A QUIC server configuration is valid exactly when its idle timeout is
    representable, its stream count lies in 1 to 2^60 and its PEM texts are given
    both or neither; and a valid one, with TLS material the libraries accept and
    an address that can be bound, is served as it is written: every transport
    parameter takes its configured value and the server presents exactly the
    given certificate chain and key, or the one certificate it made itself. *)
Theorem valid_quic_server_is_served_as_written `{T : TlsLibrary} `{Q : Quinn} {QL : QuinnLaws Q} c bind endpoint local :
  in_width 64 (qsc_max_concurrent_streams c) ->
  (QuicServerConfig_validate c = Done tt <->
   is_ok (IdleTimeout_try_from (qsc_max_idle_timeout c)) = true /\ 1 <= qsc_max_concurrent_streams c <= 2 ^ 60 /\
   (is_Some (pem_of (qsc_cert_pem c)) <-> is_Some (pem_of (qsc_key_pem c)))) /\
  (QuicServerConfig_validate c = Done tt -> material_ok c ->
   endpoint (default (SocketV4 127 0 0 1 0) bind) = Done local ->
   exists server, QuicServerBuilder_build c bind endpoint = Done server /\
     qsv_config server = c /\ qsv_address server = local /\
     qss_alpn (qsv_setup server) = [ALPN_MSGTRANS] /\
     transport_as_configured c (qss_transport (qsv_setup server)) /\
     material_of c (qss_certs (qsv_setup server)) (qss_key (qsv_setup server))).
Proof.
  intros [Hs _]. split; [by apply quic_server_valid|]. intros Hv Hm He.
  destruct (apply_server_transport_valid c Hs Hv) as [tf Htf].
  pose proof (server_material_served c tf Htf Hm) as Hset.
  apply quic_server_valid in Hv as (_ & _ & Hpair); [|done].
  unfold QuicServerBuilder_build. rewrite He.
  destruct (pem_of (qsc_cert_pem c)) eqn:Ec, (pem_of (qsc_key_pem c)) eqn:Ek;
    try (exfalso; destruct Hpair as [H1 H2]; first [by destruct (H1 ltac:(eauto))|by destruct (H2 ltac:(eauto))]).
  all: destruct Hset as (certs & key & -> & Hmat); cbn; eexists; split; [done|]; cbn;
    apply apply_server_transport_done in Htf; auto 10.
Qed.

Lemma valid_quic_server_witness :
  QuicServerConfig_validate QuicServerConfig_default = Done tt /\
  exists server, QuicServerBuilder_build QuicServerConfig_default None Done = Done server /\
    qss_certs (qsv_setup server) = [[3]] /\ qsv_address server = SocketV4 127 0 0 1 0.
Proof.
  split; [vm_compute; reflexivity|].
  destruct (valid_quic_server_is_served_as_written QuicServerConfig_default None Done (SocketV4 127 0 0 1 0)
    ltac:(by vm_compute)) as [_ H].
  destruct H as (server & Hb & _ & Ha & _ & _ & Hm).
  - vm_compute. reflexivity.
  - split; [done|]. split; [done|]. exists [3], [4]. done.
  - reflexivity.
  - exists server. split; [done|]. split; [|done]. destruct Hm as (cert & [= <-] & ->). reflexivity.
Defined.

(** ** Where validation is weaker than the set-up *)

Section Weak.
Context `{T : TlsLibrary} `{Q : Quinn}.

(** Verification is skipped only by a configuration that asks for it and pins
    nothing. *)
Lemma verification_skipped_only_on_request c setup tls :
  (configure_client_with_config c = Done setup -> qcs_verifier setup = SkipServerVerification ->
   qcc_verify_certificate c = false /\ qcc_spki_pins c = []) /\
  (build_tls_connector tls = Done SkipServerVerification -> tls = Insecure).
Proof.
  split.
  - unfold configure_client_with_config, quic_client_verifier, is_pinned. intros H Hs. exec_inv H.
    repeat exec_inv H. injection H as <-. cbn in Hs. subst.
    case_bool_decide; cbn in Hm; [|by repeat exec_inv Hm].
    destruct (qcc_verify_certificate c); [by repeat exec_inv Hm|done].
  - destruct tls; cbn; intros H; [by exec_inv H| |done].
    exec_inv H. case_decide; [done|]. by repeat exec_inv H.
Qed.

(** A TCP listener given a certificate without its key passes validation and
    serves plain connections; the same pair is refused for QUIC. *)
Lemma half_configured_listener_serves_plaintext c bind listen local :
  tsc_key_pem c = None -> listen (tsc_reuse_addr c) (default (tsc_bind_address c) bind) = Done local ->
  TcpServerConfig_validate c = Done tt /\
  TcpServerBuilder_build c bind listen = Done (mkTcpListening c local PlainListener).
Proof.
  intros Hk Hl. split; [done|]. unfold TcpServerBuilder_build, is_tls_enabled. rewrite Hl. cbn.
  by rewrite Hk, andb_false_r.
Qed.

(** A QUIC client whose idle timeout is not representable is valid, fails each
    attempt before it reaches the network, and is told that retrying may help. *)
Lemma unusable_quic_client_is_retried c e verifier net addr debug :
  1 <= qcc_max_concurrent_streams c <= 2 ^ 60 -> IdleTimeout_try_from (qcc_max_idle_timeout c) = Throw e ->
  quic_client_verifier c = Done verifier -> quic_client_crypto = Done tt ->
  QuicClientConfig_validate c = Done tt /\
  exists e', quic_build_connection debug (snd (QuicAdapter_connect net addr c)) = Throw e' /\ is_retryable e' = true.
Proof.
  intros Hn He Hv Hc. split.
  - unfold QuicClientConfig_validate. by rewrite (proj2 (stream_count_valid (qcc_max_concurrent_streams c) ltac:(lia)) Hn).
  - unfold QuicAdapter_connect, configure_client_with_config. rewrite Hv, Hc. unfold idle_timeout_of.
    rewrite He. cbn. eexists. split; [done|]. reflexivity.
Qed.

(** A TCP client that asks for the longest connect timeout is valid and panics
    when it connects. *)
Lemma longest_tcp_timeout_panics c net now addr : 0 <= now -> tcc_connect_timeout c = Duration_MAX ->
  TcpClientConfig_validate c = Done tt /\ snd (TcpAdapter_connect net now addr c) = Panic.
Proof.
  intros Hn Ht. split; [done|]. unfold TcpAdapter_connect. rewrite Ht.
  change (Duration_MAX =? 0) with false. unfold instant_add.
  assert (2 ^ 63 * NANOS_PER_SEC <= Duration_MAX) by (vm_compute; discriminate).
  by rewrite (proj2 (Z.ltb_ge _ _)) by lia.
Qed.

(** The private key is not among what [Debug] is given. *)
Lemma debug_hides_the_key c k k' :
  (TcpServerConfig_debug (TcpServerConfig_key_pem k c) = TcpServerConfig_debug (TcpServerConfig_key_pem k' c)).
Proof. reflexivity. Qed.
Lemma quic_debug_hides_the_key c k k' :
  (QuicServerConfig_debug (QuicServerConfig_key_pem k c) = QuicServerConfig_debug (QuicServerConfig_key_pem k' c)).
Proof. reflexivity. Qed.
End Weak.
