(* ===== verification/Accept.v ===== *)
(** * Accepting connections: the accept pumps of [adapters/tcp.rs] and
      [adapters/websocket.rs], the QUIC listener, and [adapters/factories.rs]

    A pump owns the listening socket, runs each handshake in a task of its own
    under a permit and a deadline, and queues the connections that complete; the
    server's [accept] takes them from the queue. Peers are numbered as they
    arrive; the network decides which handshakes complete and when. Times are
    nanoseconds. *)

From Stdlib Require Import Ascii.
From S2P Require Import Prelude Packet Errors Retry Client Adapters Quic WebSocket Config Tls.

(** [MAX_PENDING_HANDSHAKES] and [MAX_PENDING_WS_HANDSHAKES]: the permits, and
    the capacity of the queue; [TLS_HANDSHAKE_TIMEOUT] and [WS_HANDSHAKE_TIMEOUT]. *)
Definition MAX_PENDING_HANDSHAKES : nat := 256.
Definition HANDSHAKE_TIMEOUT : Z := 10 * NANOS_PER_SEC.

(** ** The pump *)

(** [ap_running]: the pump task has not been aborted; [ap_receiver]: the server
    still holds the receiving end. [ap_handed]: the connections [accept] has
    returned; [ap_completed]: those that entered the queue. *)
Record accept_pump := mkPump {
  ap_clock : Z;
  ap_running : bool;
  ap_receiver : bool;
  ap_permits : nat;
  ap_pending : gmap nat Z;
  ap_queue : list nat;
  ap_handed : list nat;
  ap_completed : list nat
}.

(** A pump as [build] or [start_pump] spawns it. *)
Definition start_pump (now : Z) : accept_pump := mkPump now true true MAX_PENDING_HANDSHAKES ∅ [] [] [].

Definition put_clock (x : Z) (a : accept_pump) : accept_pump :=
  mkPump x (ap_running a) (ap_receiver a) (ap_permits a) (ap_pending a) (ap_queue a) (ap_handed a) (ap_completed a).

(** The socket of peer [p] is accepted: a task under a permit, its time running
    from here, or dropped. *)
Definition pump_arrive (p : nat) (a : accept_pump) : accept_pump :=
  match ap_permits a with
  | O => a
  | S permits =>
      mkPump (ap_clock a) (ap_running a) (ap_receiver a) permits (<[p := ap_clock a + HANDSHAKE_TIMEOUT]> (ap_pending a))
        (ap_queue a) (ap_handed a) (ap_completed a)
  end.

(** The task of [p] ends: its connection is queued if its handshake succeeded
    and [try_send] finds room and a receiver; then its permit is returned. *)
Definition handshake_ends (p : nat) (succeeded : bool) (a : accept_pump) : accept_pump :=
  let queued := succeeded && ap_receiver a && bool_decide (length (ap_queue a) < MAX_PENDING_HANDSHAKES)%nat in
  mkPump (ap_clock a) (ap_running a) (ap_receiver a) (S (ap_permits a)) (delete p (ap_pending a))
    (if queued then ap_queue a ++ [p] else ap_queue a) (ap_handed a)
    (if queued then ap_completed a ++ [p] else ap_completed a).

(** [rx.recv()] in [accept]: the next connection. *)
Definition pump_accept (a : accept_pump) : option (nat * accept_pump) :=
  match ap_queue a with
  | p :: queue =>
      if ap_receiver a then
        Some (p, mkPump (ap_clock a) (ap_running a) true (ap_permits a) (ap_pending a) queue (ap_handed a ++ [p]) (ap_completed a))
      else None
  | [] => None
  end.

(** [shutdown]: the receiver and what is queued are dropped, the pump aborted;
    the handshake tasks go on. *)
Definition pump_shutdown (a : accept_pump) : accept_pump :=
  mkPump (ap_clock a) false false (ap_permits a) (ap_pending a) [] (ap_handed a) (ap_completed a).

(** [HandshakeDone]: the peer's handshake completed or failed in time;
    [HandshakeExpires]: its deadline has come, and the timeout around it fires. A
    timer that is due fires before the clock goes on; that the timers let it go
    on is [time_passes_from] below. *)
Inductive pump_label :=
  | Arrive (p : nat)
  | HandshakeDone (p : nat) (succeeded : bool)
  | HandshakeExpires (p : nat)
  | AcceptNext
  | ShutdownPump
  | ClockTick (d : Z).

Definition pump_step (l : pump_label) (a : accept_pump) : option accept_pump :=
  match l with
  | Arrive p => if ap_running a && bool_decide (ap_pending a !! p = None) then Some (pump_arrive p a) else None
  | HandshakeDone p succeeded =>
      deadline ← ap_pending a !! p;
      if ap_clock a <=? deadline then Some (handshake_ends p succeeded a) else None
  | HandshakeExpires p =>
      deadline ← ap_pending a !! p;
      if deadline <=? ap_clock a then Some (handshake_ends p false a) else None
  | AcceptNext => snd <$> pump_accept a
  | ShutdownPump => Some (pump_shutdown a)
  | ClockTick d =>
      if (0 <=? d) && bool_decide (map_Forall (fun _ deadline => ap_clock a + d <= deadline) (ap_pending a))
      then Some (put_clock (ap_clock a + d) a) else None
  end.

Fixpoint pump_run (ls : list pump_label) (a : accept_pump) : option accept_pump :=
  match ls with
  | [] => Some a
  | l :: ls => pump_step l a ≫= pump_run ls
  end.

(** ** The servers *)

(** What a call of [accept] finds. *)
Inductive accept_answer {E} := Accepted (p : nat) | AcceptFails (e : E) | AcceptWaits.
Arguments accept_answer : clear implicits.

(** [TcpServer::accept]: [plain]: the listener of a plain server, [next]: what
    its own [accept] has. *)
Definition TcpServer_accept (incoming : option accept_pump) (plain : bool) (next : option (exec IoError nat))
    : accept_answer TcpError * option accept_pump :=
  match incoming with
  | Some a =>
      match pump_accept a with
      | Some (p, a) => (Accepted p, Some a)
      | None => (AcceptWaits, Some a)
      end
  | None =>
      if negb plain then (AcceptFails (TcpConfig "TCP server is shut down"), None)
      else match next with
           | Some (Done p) => (Accepted p, None)
           | Some (Throw e) => (AcceptFails (TcpIo e), None)
           | _ => (AcceptWaits, None)
           end
  end.

(** [WebSocketServer::accept]: without a pump it binds and starts one, whatever
    ended the previous one. *)
Definition WebSocketServer_accept (incoming : option accept_pump) (now : Z) (bind : exec string unit)
    : accept_answer WebSocketError * option accept_pump :=
  let started := match incoming with Some a => Done a | None => _ ← bind; Done (start_pump now) end in
  match started with
  | Done a =>
      match pump_accept a with
      | Some (p, a) => (Accepted p, Some a)
      | None => (AcceptWaits, Some a)
      end
  | Throw e => (AcceptFails (WsIo e), None)
  | Panic => (AcceptWaits, None)
  end.

(** [QuicServer::accept] awaits the handshake of the connection it takes: the
    incoming connections as they arrive, each with the time its handshake takes
    and its outcome. [None]: the endpoint is closed. *)
Definition QuicServer_accept (incoming : list (nat * future ConnectionError unit)) (closed : bool)
    : option (Z * accept_answer QuicError * list (nat * future ConnectionError unit)) :=
  match incoming with
  | (p, (t, result)) :: rest =>
      Some (t, match result with
               | Done _ => Accepted p
               | Throw e => AcceptFails (QeConnection e)
               | Panic => AcceptWaits
               end, rest)
  | [] => if closed then Some (0, AcceptFails QeConnectionClosed, []) else None
  end.

(** How the wrappers of [factories.rs] report a failed [accept]. *)
Definition tcp_accept_error (debug : TcpError -> string) (e : TcpError) : TransportError :=
  connection_error ("TCP accept error: " +:+ debug e) true.
Definition websocket_accept_error (e : WebSocketError) : TransportError := TransportError_from_websocket e.
Definition quic_accept_error (display : QuicError -> string) (e : QuicError) : TransportError :=
  config_error "quic" (display e).

(** The accept loop's classification: a peer's fault, or the server's own. *)
Definition peer_fault (e : TransportError) : bool :=
  match e with Connection _ _ | Protocol _ _ => true | _ => false end.

(** ** The WebSocket upgrade *)

Inductive upgrade_answer := NotFound404 | Upgraded (subprotocol : option string).

(** [str::trim] of a header value, whose only white space is the space and the tab. *)
Fixpoint trim_start (s : list ascii) : list ascii :=
  match s with
  | c :: s' => if (nat_of_ascii c =? 32)%nat || (nat_of_ascii c =? 9)%nat then trim_start s' else s
  | [] => []
  end.
Definition trim (s : list ascii) : list ascii := rev (trim_start (rev (trim_start s))).

(** [s.split(',')]. *)
Fixpoint split_comma (s : list ascii) : list (list ascii) :=
  match s with
  | [] => [[]]
  | c :: s =>
      if decide (c = ","%char) then [] :: split_comma s
      else match split_comma s with
           | w :: ws => (c :: w) :: ws
           | [] => [[c]]
           end
  end.

Definition offered_protocols (header : string) : list string :=
  String.string_of_list_ascii <$> (trim <$> split_comma (String.list_ascii_of_string header)).

(** The callback of [ws_upgrade]; [header]: the offer, when its text is readable;
    [value_ok]: the chosen name makes a header value. *)
Definition ws_upgrade (path expected_path : string) (supported : list string) (header : option string)
    (value_ok : string -> bool) : upgrade_answer :=
  if negb (bool_decide (path = expected_path)) then NotFound404
  else Upgraded (offered ← header;
                 chosen ← List.find (fun o => existsb (fun sp => String.eqb sp o) supported) (offered_protocols offered);
                 if value_ok chosen then Some chosen else None).

(** [subprotocols.join(", ")], the offer a client makes. *)
Definition subprotocol_offer (subprotocols : list string) : option string :=
  if decide (subprotocols = []) then None else Some (String.concat ", " subprotocols).

(** The keepalive either side's configuration asks the event loop for. *)
Definition ws_keepalive_of (c : WebSocketServerConfig + WebSocketClientConfig) : WsKeepalive :=
  match c with
  | inl c => mkKeepalive (wsc_ping_interval c) (wsc_pong_timeout c) (wsc_idle_timeout c)
  | inr c => mkKeepalive (wcc_ping_interval c) (wcc_pong_timeout c) None
  end.

(** ** Properties *)

Lemma pump_run_app ls ls' a : pump_run (ls ++ ls') a = pump_run ls a ≫= pump_run ls'.
Proof.
  revert a. induction ls as [|l ls IH]; intros a; [done|]. simpl. destruct (pump_step l a); [apply IH|done].
Qed.

(** Each permit is free or held by one task; the queue is bounded; every task
    ends within its time; the connections handed out and queued are those that
    completed, in order, each once, until the server is shut down. *)
Record pump_inv (a : accept_pump) : Prop := {
  pi_permits : (ap_permits a + size (ap_pending a) = MAX_PENDING_HANDSHAKES)%nat;
  pi_queue : (length (ap_queue a) <= MAX_PENDING_HANDSHAKES)%nat;
  pi_deadlines : map_Forall (fun _ dl => ap_clock a <= dl <= ap_clock a + HANDSHAKE_TIMEOUT) (ap_pending a);
  pi_order : if ap_receiver a then ap_handed a ++ ap_queue a = ap_completed a
             else ap_queue a = [] /\ ap_handed a `prefix_of` ap_completed a
}.

Lemma pump_inv_start now : pump_inv (start_pump now).
Proof. constructor; simpl; [by rewrite map_size_empty|lia|apply map_Forall_empty|done]. Qed.

Lemma pump_inv_arrive p a : ap_pending a !! p = None -> pump_inv a -> pump_inv (pump_arrive p a).
Proof.
  intros Hp [Hper Hq Hd Ho]. unfold pump_arrive. destruct (ap_permits a) as [|n] eqn:En; [constructor; by rewrite ?En|].
  constructor; simpl; try done.
  - rewrite map_size_insert_None by done. lia.
  - apply map_Forall_insert; [done|]. split; [|done]. unfold HANDSHAKE_TIMEOUT, NANOS_PER_SEC. lia.
Qed.

Lemma pump_inv_ends p ok a dl : ap_pending a !! p = Some dl -> pump_inv a -> pump_inv (handshake_ends p ok a).
Proof.
  intros Hp [Hper Hq Hd Ho]. unfold handshake_ends.
  assert (size (ap_pending a) = S (size (delete p (ap_pending a)))) as Hs.
  { rewrite <- (insert_delete_id _ _ _ Hp) at 1. by rewrite map_size_insert_None by apply lookup_delete_eq. }
  constructor; simpl; try (by apply map_Forall_delete); [lia| |].
  - destruct (ok && _ && _) eqn:Eok; [|done]. rewrite length_app. simpl.
    apply andb_true_iff in Eok as [_ Hlt%bool_decide_eq_true]. lia.
  - destruct (ap_receiver a) eqn:Er.
    + rewrite andb_true_r. destruct (ok && _); [|done]. by rewrite app_assoc, Ho.
    + by rewrite andb_false_r.
Qed.

Lemma pump_inv_step l a a' : pump_step l a = Some a' -> pump_inv a -> pump_inv a'.
Proof.
  destruct l as [p|p ok|p| | |d]; simpl; intros H Hi.
  - case_match eqn:E; [|done]. injection H as <-. apply andb_true_iff in E as [_ E%bool_decide_eq_true].
    by apply pump_inv_arrive.
  - apply bind_Some in H as (dl & Hp & H). case_match; [|done]. injection H as <-. by eapply pump_inv_ends.
  - apply bind_Some in H as (dl & Hp & H). case_match; [|done]. injection H as <-. by eapply pump_inv_ends.
  - apply fmap_Some in H as ([p b] & H & ->). unfold pump_accept in H.
    destruct Hi as [Hper Hq Hd Ho]. destruct (ap_queue a) as [|q queue] eqn:Eq; [done|].
    destruct (ap_receiver a); [|done]. injection H as <- <-. constructor; simpl in *; try done; [lia|].
    by rewrite <- app_assoc.
  - injection H as <-. destruct Hi as [Hper Hq Hd Ho]. constructor; simpl; try done; [lia|].
    split; [done|]. destruct (ap_receiver a); [|apply Ho]. rewrite <- Ho. by apply prefix_app_r.
  - case_match eqn:E; [|done]. injection H as <-. apply andb_true_iff in E as [E1 E2%bool_decide_eq_true].
    destruct Hi as [Hper Hq Hd Ho]. constructor; simpl; try done. intros p dl Hp.
    specialize (Hd _ _ Hp). specialize (E2 _ _ Hp). simpl in *. lia.
Qed.

Lemma pump_inv_run ls a a' : pump_run ls a = Some a' -> pump_inv a -> pump_inv a'.
Proof.
  revert a. induction ls as [|l ls IH]; simpl; intros a H Hi; [by injection H as <-|].
  apply bind_Some in H as (b & Hb & H). eapply IH; [done|]. by eapply pump_inv_step.
Qed.

(** The clock never goes back. *)
Lemma clock_step l a a' : pump_step l a = Some a' -> ap_clock a <= ap_clock a'.
Proof.
  intros H. destruct l as [q|q ok|q| | |d]; simpl in H.
  - case_match; [|done]. injection H as <-. unfold pump_arrive. by destruct (ap_permits a).
  - apply bind_Some in H as (? & _ & H). case_match; [|done]. by injection H as <-.
  - apply bind_Some in H as (? & _ & H). case_match; [|done]. by injection H as <-.
  - apply fmap_Some in H as ([q b] & H & ->). unfold pump_accept in H.
    destruct (ap_queue a); [done|]. destruct (ap_receiver a); [|done]. by injection H as <- <-.
  - by injection H as <-.
  - case_match eqn:E; [|done]. injection H as <-. apply andb_true_iff in E as [E%Z.leb_le _]. simpl. lia.
Qed.

Lemma clock_run ls a a' : pump_run ls a = Some a' -> ap_clock a <= ap_clock a'.
Proof.
  revert a. induction ls as [|l ls IH]; simpl; intros a H; [by injection H as <-|].
  apply bind_Some in H as (b & Hb & H). etrans; [by eapply clock_step|by apply IH].
Qed.

(** The other peers' steps, the server's, the clock's and the timers' leave a task
    alone before its deadline. *)
Lemma handshake_pending_step p dl l a a' : pump_step l a = Some a' -> (forall ok, l <> HandshakeDone p ok) ->
  ap_clock a < dl -> ap_pending a !! p = Some dl -> ap_pending a' !! p = Some dl.
Proof.
  intros H Hl Hc Hp. destruct l as [q|q ok|q| | |d]; simpl in H.
  - case_match eqn:E; [|done]. injection H as <-. apply andb_true_iff in E as [_ E%bool_decide_eq_true].
    unfold pump_arrive. destruct (ap_permits a); [done|]. simpl. rewrite lookup_insert_ne; [done|]. congruence.
  - apply bind_Some in H as (? & _ & H). case_match; [|done]. injection H as <-. simpl.
    rewrite lookup_delete_ne; [done|]. intros ->. by apply (Hl ok).
  - apply bind_Some in H as (dq & Hq & H). case_match eqn:E; [|done]. injection H as <-. simpl.
    apply Z.leb_le in E. rewrite lookup_delete_ne; [done|]. intros ->. rewrite Hp in Hq. injection Hq as <-. lia.
  - apply fmap_Some in H as ([q b] & H & ->). unfold pump_accept in H.
    destruct (ap_queue a); [done|]. destruct (ap_receiver a); [|done]. by injection H as <- <-.
  - by injection H as <-.
  - case_match; [|done]. by injection H as <-.
Qed.

Lemma handshake_pending_run p dl ls a a' : pump_run ls a = Some a' -> Forall (fun l => forall ok, l <> HandshakeDone p ok) ls ->
  ap_clock a' < dl -> ap_pending a !! p = Some dl -> ap_pending a' !! p = Some dl.
Proof.
  revert a. induction ls as [|l ls IH]; simpl; intros a H Hl Hc Hp; [by injection H as <-|].
  apply Forall_cons in Hl as [Hl Hls]. apply bind_Some in H as (b & Hb & H).
  pose proof (clock_step _ _ _ Hb). pose proof (clock_run _ _ _ H).
  eapply IH; [done..|]. eapply handshake_pending_step; [done..|lia|done].
Qed.

(** Time is never held up: the timers that come due fire, one after the other,
    and end exactly the handshakes whose deadline the clock reaches. *)
Definition is_timer (l : pump_label) : Prop :=
  match l with HandshakeExpires _ | ClockTick _ => True | _ => False end.

(** What letting [d] nanoseconds pass makes of a pump. *)
Record elapsed (d : Z) (a b : accept_pump) : Prop := {
  el_clock : ap_clock b = ap_clock a + d;
  el_pending : ap_pending b = filter (fun x => ap_clock a + d < x.2) (ap_pending a);
  el_permits : (ap_permits b + size (ap_pending b) = ap_permits a + size (ap_pending a))%nat;
  el_rest : ap_running b = ap_running a /\ ap_receiver b = ap_receiver a /\ ap_queue b = ap_queue a /\
    ap_handed b = ap_handed a /\ ap_completed b = ap_completed a
}.

Lemma earliest (m : gmap nat Z) : m <> ∅ -> exists p dl, m !! p = Some dl /\ map_Forall (fun _ dl' => dl <= dl') m.
Proof.
  induction m as [|p dl m Hp IH] using map_ind; [done|]. intros _.
  destruct (decide (m = ∅)) as [->|Hne].
  - exists p, dl. rewrite lookup_insert_eq. split; [done|]. apply map_Forall_insert; [done|]. split; [lia|apply map_Forall_empty].
  - destruct (IH Hne) as (q & dq & Hq & Hmin). assert (p <> q) by congruence. destruct (Z.le_gt_cases dl dq).
    + exists p, dl. rewrite lookup_insert_eq. split; [done|]. apply map_Forall_insert; [done|]. split; [lia|].
      intros r dr Hr. specialize (Hmin r dr Hr). cbn in *. lia.
    + exists q, dq. rewrite lookup_insert_ne by done. split; [done|]. apply map_Forall_insert; [done|]. split; [lia|done].
Qed.

(** To the earliest deadline, and its timer. *)
Lemma first_timer p dl a : pump_inv a -> ap_pending a !! p = Some dl -> map_Forall (fun _ dl' => dl <= dl') (ap_pending a) ->
  pump_run [ClockTick (dl - ap_clock a); HandshakeExpires p] a = Some (handshake_ends p false (put_clock dl a)).
Proof.
  intros Hi Hp Hmin. destruct (pi_deadlines _ Hi _ _ Hp) as [Hle _]. cbn.
  rewrite bool_decide_true by (intros q dq Hq; specialize (Hmin q dq Hq); cbn in *; lia).
  rewrite (proj2 (Z.leb_le 0 _)) by lia. cbn. rewrite Hp. cbn.
  replace (ap_clock a + (dl - ap_clock a)) with dl by lia. by rewrite Z.leb_refl.
Qed.

Lemma time_passes_from d a : pump_inv a -> 0 <= d -> exists ls b, pump_run ls a = Some b /\ Forall is_timer ls /\ elapsed d a b.
Proof.
  assert (Hn : exists n, (size (ap_pending a) < n)%nat) by (eexists; apply Nat.lt_succ_diag_r).
  destruct Hn as [n Hn]. revert d a Hn. induction n as [|n IH]; [lia|]. intros d a Hn Hi Hd.
  destruct (decide (map_Forall (fun _ dl => ap_clock a + d < dl) (ap_pending a))) as [Hlate|Hdue].
  - exists [ClockTick d], (put_clock (ap_clock a + d) a). cbn. rewrite (proj2 (Z.leb_le 0 d)) by done.
    rewrite bool_decide_true by (intros q dq Hq; specialize (Hlate q dq Hq); cbn in *; lia). split_and!; [done|by repeat constructor|].
    split; cbn; try done. symmetry. apply map_filter_id. intros q dq Hq. by apply (Hlate q dq).
  - destruct (earliest (ap_pending a)) as (p & dl & Hp & Hmin).
    { intros E. apply Hdue. rewrite E. apply map_Forall_empty. }
    assert (Hle : dl <= ap_clock a + d).
    { apply Znot_gt_le. intros Hgt. apply Hdue. intros q dq Hq. specialize (Hmin q dq Hq). cbn in *. lia. }
    destruct (pi_deadlines _ Hi _ _ Hp) as [Hge _]. pose proof (first_timer p dl a Hi Hp Hmin) as Hrun.
    pose proof (pump_inv_run _ _ _ Hrun Hi) as Hi'. set (a' := handshake_ends p false (put_clock dl a)) in *.
    assert (Hs : size (ap_pending a) = S (size (delete p (ap_pending a)))).
    { rewrite <- (insert_delete_id _ _ _ Hp) at 1. by rewrite map_size_insert_None by apply lookup_delete_eq. }
    destruct (IH (ap_clock a + d - dl) a' ltac:(cbn; lia) Hi' ltac:(lia))
      as (ls & b & Hb & Hls & [E1 E2 E3 (E4 & E5 & E6 & E7 & E8)]).
    exists ([ClockTick (dl - ap_clock a); HandshakeExpires p] ++ ls), b. rewrite pump_run_app, Hrun. split_and!; [done|by repeat constructor|].
    cbn in E1, E2, E3, E4, E5, E6, E7, E8. split; [lia| |lia|done].
    rewrite E2. replace (dl + (ap_clock a + d - dl)) with (ap_clock a + d) by lia.
    rewrite map_filter_delete, delete_id; [done|]. apply map_lookup_filter_None. right. intros ? Hq. cbn.
    rewrite Hp in Hq. injection Hq as <-. lia.
Qed.

(** C36: A silent peer stalls nobody: whatever the peers do, the permits and the
    pending handshakes add up to the limit, the queue is bounded, no handshake is
    pending past its ten seconds, and the server is handed the completed
    connections in order and each once. The timeouts see to it: from any state
    any time can pass, and the handshakes whose deadline it reaches end, and only
    those, so that ten seconds free every permit. A peer that finds the pump
    running and a permit free keeps its task for its ten seconds, whatever the
    others and the timers do, and when its handshake completes before then while
    the receiver is there and the queue has room, its connection is queued,
    however many others are still silent; without a receiver or room it is
    dropped. *)
Theorem silent_peers_stall_nobody ls now a : pump_run ls (start_pump now) = Some a ->
  ((ap_permits a + size (ap_pending a) = MAX_PENDING_HANDSHAKES)%nat /\
   (length (ap_queue a) <= MAX_PENDING_HANDSHAKES)%nat /\
   map_Forall (fun _ dl => ap_clock a <= dl <= ap_clock a + HANDSHAKE_TIMEOUT) (ap_pending a) /\
   ap_handed a ++ ap_queue a `prefix_of` ap_completed a /\
   (ap_receiver a = true -> ap_handed a ++ ap_queue a = ap_completed a)) /\
  (forall d, 0 <= d -> exists ls' b, pump_run ls' a = Some b /\ Forall is_timer ls' /\ elapsed d a b /\
    (HANDSHAKE_TIMEOUT <= d -> ap_pending b = ∅ /\ ap_permits b = MAX_PENDING_HANDSHAKES)) /\
  (forall p, ap_running a = true -> ap_permits a <> 0%nat -> ap_pending a !! p = None ->
   exists b, pump_step (Arrive p) a = Some b /\
     forall ls' c, Forall (fun l => forall ok, l <> HandshakeDone p ok) ls' -> pump_run ls' b = Some c ->
       ap_clock c < ap_clock a + HANDSHAKE_TIMEOUT ->
       exists d, pump_step (HandshakeDone p true) c = Some d /\ ap_permits d = S (ap_permits c) /\
         ap_queue d = if ap_receiver c && bool_decide (length (ap_queue c) < MAX_PENDING_HANDSHAKES)%nat
                      then ap_queue c ++ [p] else ap_queue c).
Proof.
  intros Hrun. pose proof (pump_inv_run _ _ _ Hrun (pump_inv_start now)) as Hi. split; [|split].
  - destruct Hi as [Hper Hq Hd Ho]. split_and!; try done; destruct (ap_receiver a); try done.
    + by rewrite Ho.
    + destruct Ho as [-> Ho]. by rewrite app_nil_r.
  - intros d Hd. destruct (time_passes_from d a Hi Hd) as (ls' & b & Hb & Hls & He). exists ls', b. split_and!; [done..|].
    intros Hlong. assert (Hnone : ap_pending b = ∅).
    { rewrite (el_pending _ _ _ He). apply map_empty. intros q. apply map_lookup_filter_None. right. intros dq Hq. destruct (pi_deadlines _ Hi _ _ Hq). cbn. lia. }
    split; [done|]. pose proof (el_permits _ _ _ He) as Hsum. rewrite Hnone, map_size_empty in Hsum.
    destruct Hi as [Hper _ _ _]. lia.
  - intros p Hr Hper Hp. exists (pump_arrive p a). unfold pump_step at 1. rewrite Hr, bool_decide_true by done.
    split; [done|]. intros ls' c Hls Hc Hin.
    assert (ap_pending (pump_arrive p a) !! p = Some (ap_clock a + HANDSHAKE_TIMEOUT)) as Hb.
    { unfold pump_arrive. destruct (ap_permits a); [done|]. simpl. apply lookup_insert_eq. }
    pose proof (handshake_pending_run _ _ _ _ _ Hc Hls Hin Hb) as Hpc.
    pose proof (pump_inv_run _ _ _ Hc (pump_inv_arrive _ _ Hp Hi)) as [_ _ Hd _].
    specialize (Hd _ _ Hpc). simpl in *. rewrite Hpc. cbn. rewrite (proj2 (Z.leb_le _ _)) by lia.
    eexists. split_and!; [done..|]. unfold handshake_ends. simpl. by destruct (ap_receiver c).
Qed.

(** A flood of silent peers, one of them outlived by a healthy one. *)
Definition silent_flood : list pump_label := Arrive <$> seq 0 40.
Lemma silent_peers_witness :
  exists a b d, pump_run silent_flood (start_pump 0) = Some a /\ pump_step (Arrive 300) a = Some b /\
    pump_step (HandshakeDone 300 true) b = Some d /\ ap_queue d = [300%nat] /\ size (ap_pending d) = 40%nat.
Proof.
  destruct (pump_run silent_flood (start_pump 0)) as [a|] eqn:Ea; [|exfalso; by vm_compute in Ea].
  assert (ap_running a = true /\ ap_permits a = 216%nat /\ ap_pending a !! 300%nat = None /\
    ap_queue (pump_arrive 300 a) = [] /\ ap_receiver (pump_arrive 300 a) = true /\
    size (delete 300%nat (ap_pending (pump_arrive 300 a))) = 40%nat) as (H1 & H2 & H3 & H4 & H5 & H6).
  { vm_compute in Ea. injection Ea as <-. vm_compute. auto 10. }
  destruct (silent_peers_stall_nobody _ _ _ Ea) as (_ & _ & H).
  destruct (H 300%nat H1 ltac:(by rewrite H2) H3) as (b & Hb & Hls).
  assert (Heq : b = pump_arrive 300 a).
  { unfold pump_step in Hb. rewrite H1, bool_decide_true in Hb by done. by injection Hb as <-. }
  destruct (Hls [] b ltac:(constructor) eq_refl) as (d & Hd & _ & Hq).
  { rewrite Heq. unfold pump_arrive. rewrite H2. unfold HANDSHAKE_TIMEOUT, NANOS_PER_SEC. simpl. lia. }
  exists a, b, d. split; [done|]. split; [exact Hb|]. split; [exact Hd|].
  rewrite <- Heq in H4, H5, H6. rewrite Hq, H4, H5. split; [done|].
  simpl in Hd. apply bind_Some in Hd as (dl & _ & Hd). destruct (ap_clock b <=? dl); [|done]. injection Hd as <-. exact H6.
Defined.

(** ** The QUIC listener *)

(** The time the QUIC server spends before [accept] returns its [k]-th answer. *)
Fixpoint quic_accept_time (k : nat) (incoming : list (nat * future ConnectionError unit)) : option Z :=
  match k with
  | O => Some 0
  | S k => '(t, _, rest) ← QuicServer_accept incoming false; total ← quic_accept_time k rest; Some (t + total)
  end.

(** A QUIC peer waits for the handshakes of all the peers before it. *)
Lemma quic_handshakes_are_serial before after :
  quic_accept_time (length before) (before ++ after) = Some (foldr (fun i total => fst (snd i) + total) 0 before).
Proof. induction before as [|[p [t r]] before IH]; [done|]. simpl. by rewrite IH. Qed.

(** ** Whose fault a failed accept is *)

(** A failed WebSocket accept that is not a configuration error counts as the
    peer's; a failed TCP accept always does, a failed QUIC accept never. *)
Lemma accept_faults debug display tcp ws quic :
  peer_fault (tcp_accept_error debug tcp) = true /\
  peer_fault (websocket_accept_error ws) = (match ws with WsConfig _ => false | _ => true end) /\
  peer_fault (quic_accept_error display quic) = false.
Proof. split_and!; [done|by destruct ws|done]. Qed.

(** After its shutdown a WebSocket server that is asked again binds again; a TCP
    server refuses. *)
Lemma accept_after_shutdown now :
  fst (TcpServer_accept None false None) = AcceptFails (TcpConfig "TCP server is shut down") /\
  WebSocketServer_accept None now (Done tt) = (AcceptWaits, Some (start_pump now)).
Proof. done. Qed.

(** ** The upgrade *)

(** The negotiated subprotocol was offered by the client and is supported, and
    no supported one was offered before it. *)
Lemma negotiated_subprotocol path expected supported header value_ok chosen :
  ws_upgrade path expected supported (Some header) value_ok = Upgraded (Some chosen) ->
  path = expected /\ chosen ∈ supported /\
  exists before after, offered_protocols header = before ++ chosen :: after /\ Forall (.∉ supported) before.
Proof.
  unfold ws_upgrade. case_bool_decide as Hp; [|done]. cbn -[offered_protocols].
  generalize (offered_protocols header). intros offered H. injection H as H.
  apply bind_Some in H as (c & Hf & H). destruct (value_ok c); [|done]. injection H as ->.
  split; [done|]. induction offered as [|o offered IH]; [done|]. simpl in Hf.
  destruct (existsb _ supported) eqn:Eo.
  - injection Hf as ->. apply existsb_exists in Eo as (sp & Hin & ->%String.eqb_eq).
    split; [by apply list_elem_of_In|]. by exists [], offered.
  - destruct (IH Hf) as (Hin & before & after & -> & Hb). split; [done|]. exists (o :: before), after.
    split; [done|]. constructor; [|done]. intros Ho. apply not_true_iff_false in Eo. apply Eo.
    apply existsb_exists. exists o. split; [by apply list_elem_of_In|apply String.eqb_refl].
Qed.

(** A client that keeps the default offer and a server that supports it agree on
    it. *)
Example default_offer_negotiated :
  ws_upgrade "/" "/" (wsc_subprotocols WebSocketServerConfig_default)
    (subprotocol_offer (wcc_subprotocols WebSocketClientConfig_default)) (fun _ => true)
  = Upgraded (Some WS_SUBPROTOCOL_MSGTRANS).
Proof. vm_compute. reflexivity. Qed.
