(* ===== verification/Connections.v ===== *)
(** * Connection objects: the [Connection] trait of [crates/msgtrans/src/connection.rs]
      and its implementations in [adapters/tcp.rs], [websocket.rs], [quic.rs]

    What an adapter is made of, what its constructor wires, and the operations
    the transport calls on it. The transport knows a connection through the
    interface only; its laws are what installing one relies on. *)

From S2P Require Import EventsProps TcpLoop.
From S2P Require Import Prelude Packet Errors Limits Stream Events Registry Writes Transport Config Adapters WebSocket Accept.

(** ** Data *)

(** [FramePolicy] in its atomic cell. *)
Definition FramePolicy_as_u8 (p : FramePolicy) : Z := match p with Lenient => 0 | Strict => 1 end.

Definition ConnectionInfo_default (now : Z) : ConnectionInfo :=
  mkInfo 0 "0.0.0.0:0" "0.0.0.0:0" "tcp" CsConnecting now None.

(** [connection_duration]; the clock may have gone back. *)
Definition connection_duration (now : Z) (i : ConnectionInfo) : Z := Z.max 0 (now - ci_established_at i).

Definition ConnectionState_display (s : ConnectionState) : string :=
  match s with
  | CsConnecting => "Connecting"
  | CsConnected => "Connected"
  | CsClosing => "Closing"
  | CsClosed => "Closed"
  | CsPaused => "Paused"
  | CsError => "Error"
  end.

(** The fields the three adapters share. [ad_events]: the consumer's half of the
    pipe, until it is taken. [ad_running]: the handle of the event loop, until it
    is awaited. [ad_signals]: shutdown signals sent to the loop. *)
Record adapter := mkAdapter {
  ad_state : Adapters.ConnState;
  ad_info : ConnectionInfo;
  ad_queue : queue;
  ad_budget : ByteBudget;
  ad_events : option EventPipe;
  ad_signals : nat;
  ad_running : bool;
  ad_policy : Z
}.

(** What its event loop is started with. *)
Record wiring := mkWiring {
  wi_pipe : EventPipe;
  wi_write_deadline : Z;
  wi_decode_limits : DecodeLimits
}.

Record TcpAdapter := mkTcpAdapter { tcp_adapter : adapter; tcp_idle_timeout : option Z }.
Record WebSocketAdapter := mkWebSocketAdapter { ws_adapter : adapter; ws_keepalive : WsKeepalive }.
Record QuicAdapter := mkQuicAdapter { quic_adapter : adapter }.

(** ** Construction *)

Definition set_info_session (s : SessionId) (i : ConnectionInfo) : ConnectionInfo :=
  mkInfo s (ci_local_addr i) (ci_peer_addr i) (ci_protocol i) (ci_state i) (ci_established_at i) (ci_closed_at i).
Definition set_info_addrs (local peer : string) (i : ConnectionInfo) : ConnectionInfo :=
  mkInfo (ci_session_id i) local peer (ci_protocol i) (ci_state i) (ci_established_at i) (ci_closed_at i).
Definition set_info_protocol (p : string) (i : ConnectionInfo) : ConnectionInfo :=
  mkInfo (ci_session_id i) (ci_local_addr i) (ci_peer_addr i) p (ci_state i) (ci_established_at i) (ci_closed_at i).
Definition set_info_state (s : ConnectionState) (closed : option Z) (i : ConnectionInfo) : ConnectionInfo :=
  mkInfo (ci_session_id i) (ci_local_addr i) (ci_peer_addr i) (ci_protocol i) s (ci_established_at i) closed.

(** Channels, budgets and pipe, sized by the connection's limits. *)
Definition wire (status : ConnStatus) (info : ConnectionInfo) (limits : ConnectionLimits) : adapter * wiring :=
  let pipe := event_pipe_with_limit (pipe_capacity limits) (max_payload_size (decode limits)) (buffer_bytes limits) in
  (mkAdapter (ConnState_new status) info (mkQueue [] (outbound_capacity limits) true) (budget_new (buffer_bytes limits))
     (Some pipe) 0 true (FramePolicy_as_u8 FramePolicy_default),
   mkWiring pipe (write_deadline limits) (decode limits)).

(** What [TcpAdapter::new] asks of its socket. *)
Record tcp_socket := mkTcpSocket {
  so_set_nodelay : bool -> exec IoError unit;
  so_local_addr : exec IoError string;
  so_peer_addr : exec IoError string
}.

Definition TcpAdapter_new (now : Z) (stream : tcp_socket) (config : TcpServerConfig + TcpClientConfig) (nodelay : bool)
    (limits : ConnectionLimits) : exec TcpError (TcpAdapter * wiring) :=
  _ ← map_err TcpIo (so_set_nodelay stream nodelay);
  local ← map_err TcpIo (so_local_addr stream);
  peer ← map_err TcpIo (so_peer_addr stream);
  let info := set_info_state CsConnected None
    (set_info_protocol "tcp" (set_info_addrs local peer (ConnectionInfo_default now))) in
  let '(a, w) := wire StConnected info limits in
  Done (mkTcpAdapter a (match config with inl c => tsc_idle_timeout c | inr _ => None end), w).

(** The addresses off the TCP socket below, when it gives them. *)
Definition WebSocketAdapter_new (now : Z) (stream : option tcp_socket) (config : WebSocketServerConfig + WebSocketClientConfig)
    (limits : ConnectionLimits) : WebSocketAdapter * wiring :=
  let info := set_info_state CsConnected None (set_info_protocol "websocket" (ConnectionInfo_default now)) in
  let addr (r : exec IoError string) (d : string) : string := match r with Done x => x | _ => d end in
  let info := match stream with
    | Some tcp => set_info_addrs (addr (so_local_addr tcp) (ci_local_addr info)) (addr (so_peer_addr tcp) (ci_peer_addr info)) info
    | None => info
    end in
  let '(a, w) := wire StConnected info limits in (mkWebSocketAdapter a (ws_keepalive_of config), w).

(** [remote] and [local]: the peer's address, and the local one with port 0 when
    quinn knows its IP. *)
Definition QuicAdapter_new (now : Z) (remote : string) (local : option string) (limits : ConnectionLimits)
    : QuicAdapter * wiring :=
  let info := set_info_protocol "quic" (ConnectionInfo_default now) in
  let info := set_info_addrs (default (ci_local_addr info) local) remote info in
  let '(a, w) := wire StConnecting (set_info_state CsConnected None info) limits in (mkQuicAdapter a, w).

(** ** The trait *)

(** [conn_close now ended]: [ended] is what the event loop has left in the shared
    state when its handle resolves. *)
Class Connection (A : Type) := {
  writer : A -> queue * ByteBudget * QueueWriter;
  conn_close : Z -> (Adapters.ConnState -> Adapters.ConnState) -> A -> A;
  conn_session_id : A -> SessionId;
  conn_set_session_id : SessionId -> A -> A;
  connection_info : A -> ConnectionInfo;
  conn_is_connected : A -> bool;
  take_event_pipe : A -> option EventPipe * A;
  frame_policy : A -> FramePolicy;
  conn_set_frame_policy : FramePolicy -> A -> A;
  conn_running : A -> bool
}.

Definition upd_state (f : Adapters.ConnState -> Adapters.ConnState) (a : adapter) : adapter :=
  mkAdapter (f (ad_state a)) (ad_info a) (ad_queue a) (ad_budget a) (ad_events a) (ad_signals a) (ad_running a) (ad_policy a).
Definition upd_info (f : ConnectionInfo -> ConnectionInfo) (a : adapter) : adapter :=
  mkAdapter (ad_state a) (f (ad_info a)) (ad_queue a) (ad_budget a) (ad_events a) (ad_signals a) (ad_running a) (ad_policy a).

Definition ad_writer (name closed_msg : string) (a : adapter) : queue * ByteBudget * QueueWriter :=
  (ad_queue a, ad_budget a, mkWriter name closed_msg).

(** The signal is sent; the handle, if nobody awaited it yet, is awaited, and the
    loop takes its end of the queue down with it. *)
Definition ad_close (ended : Adapters.ConnState -> Adapters.ConnState) (a : adapter) : adapter :=
  if ad_running a then
    mkAdapter (ended (ad_state a)) (ad_info a) (mkQueue [] (q_capacity (ad_queue a)) false) (ad_budget a) (ad_events a)
      (S (ad_signals a)) false (ad_policy a)
  else mkAdapter (ad_state a) (ad_info a) (ad_queue a) (ad_budget a) (ad_events a) (S (ad_signals a)) false (ad_policy a).

Definition ad_set_session_id (s : SessionId) (a : adapter) : adapter :=
  upd_info (set_info_session s) (upd_state (Adapters.set_session_id s) a).

(** The stored copy with the identifier read from the shared state. *)
Definition live_info (a : adapter) : ConnectionInfo := set_info_session (session_id (ad_state a)) (ad_info a).

Definition ad_take (a : adapter) : option EventPipe * adapter :=
  (ad_events a, mkAdapter (ad_state a) (ad_info a) (ad_queue a) (ad_budget a) None (ad_signals a) (ad_running a) (ad_policy a)).
Definition ad_set_policy (p : FramePolicy) (a : adapter) : adapter :=
  mkAdapter (ad_state a) (ad_info a) (ad_queue a) (ad_budget a) (ad_events a) (ad_signals a) (ad_running a) (FramePolicy_as_u8 p).

Definition upd_tcp (f : adapter -> adapter) (a : TcpAdapter) : TcpAdapter :=
  mkTcpAdapter (f (tcp_adapter a)) (tcp_idle_timeout a).
Definition upd_ws (f : adapter -> adapter) (a : WebSocketAdapter) : WebSocketAdapter :=
  mkWebSocketAdapter (f (ws_adapter a)) (ws_keepalive a).
Definition upd_quic (f : adapter -> adapter) (a : QuicAdapter) : QuicAdapter := mkQuicAdapter (f (quic_adapter a)).

(** The TCP adapter's close also stores the end in its state and description. *)
Definition TcpAdapter_close (now : Z) (ended : Adapters.ConnState -> Adapters.ConnState) (a : TcpAdapter) : TcpAdapter :=
  upd_tcp (fun a => upd_info (set_info_state CsClosed (Some now)) (upd_state (set_status StClosed) (ad_close ended a))) a.
Definition WebSocketAdapter_close (ended : Adapters.ConnState -> Adapters.ConnState) (a : WebSocketAdapter) : WebSocketAdapter :=
  upd_ws (fun a => upd_state (set_status StClosed) (ad_close ended a)) a.
Definition QuicAdapter_close (ended : Adapters.ConnState -> Adapters.ConnState) (a : QuicAdapter) : QuicAdapter :=
  upd_quic (ad_close ended) a.

#[export] Instance TcpAdapter_connection : Connection TcpAdapter := {|
  writer a := ad_writer "tcp_outbound_queue" "TCP connection closed" (tcp_adapter a);
  conn_close := TcpAdapter_close;
  conn_session_id a := session_id (ad_state (tcp_adapter a));
  conn_set_session_id s a := upd_tcp (ad_set_session_id s) a;
  connection_info a := ad_info (tcp_adapter a);
  conn_is_connected a := is_connected (ad_state (tcp_adapter a));
  take_event_pipe a := ((ad_take (tcp_adapter a)).1, upd_tcp (fun a => (ad_take a).2) a);
  frame_policy a := FramePolicy_from_u8 (ad_policy (tcp_adapter a));
  conn_set_frame_policy p a := upd_tcp (ad_set_policy p) a;
  conn_running a := ad_running (tcp_adapter a)
|}.

#[export] Instance WebSocketAdapter_connection : Connection WebSocketAdapter := {|
  writer a := ad_writer "websocket_outbound_queue" "WebSocket connection closed" (ws_adapter a);
  conn_close now := WebSocketAdapter_close;
  conn_session_id a := session_id (ad_state (ws_adapter a));
  conn_set_session_id s a := upd_ws (ad_set_session_id s) a;
  connection_info a := live_info (ws_adapter a);
  conn_is_connected a := is_connected (ad_state (ws_adapter a));
  take_event_pipe a := ((ad_take (ws_adapter a)).1, upd_ws (fun a => (ad_take a).2) a);
  frame_policy a := FramePolicy_from_u8 (ad_policy (ws_adapter a));
  conn_set_frame_policy p a := upd_ws (ad_set_policy p) a;
  conn_running a := ad_running (ws_adapter a)
|}.

#[export] Instance QuicAdapter_connection : Connection QuicAdapter := {|
  writer a := ad_writer "quic_outbound_queue" "QUIC connection closed" (quic_adapter a);
  conn_close now := QuicAdapter_close;
  conn_session_id a := session_id (ad_state (quic_adapter a));
  conn_set_session_id s a := upd_quic (ad_set_session_id s) a;
  connection_info a := live_info (quic_adapter a);
  conn_is_connected a := is_connected (ad_state (quic_adapter a));
  take_event_pipe a := ((ad_take (quic_adapter a)).1, upd_quic (fun a => (ad_take a).2) a);
  frame_policy a := FramePolicy_from_u8 (ad_policy (quic_adapter a));
  conn_set_frame_policy p a := upd_quic (ad_set_policy p) a;
  conn_running a := ad_running (quic_adapter a)
|}.

(** ** What a connection promises to its transport *)

Class ConnectionLaws (A : Type) `{Connection A} := {
  session_id_set : forall s a, conn_session_id (conn_set_session_id s a) = s;
  info_set : forall s a, connection_info (conn_set_session_id s a) = set_info_session s (connection_info a);
  writer_set : forall s a, writer (conn_set_session_id s a) = writer a;
  policy_set : forall s a, frame_policy (conn_set_session_id s a) = frame_policy a;
  connected_set : forall s a, conn_is_connected (conn_set_session_id s a) = conn_is_connected a;
  pipe_set : forall s a, (take_event_pipe (conn_set_session_id s a)).1 = (take_event_pipe a).1;
  pipe_once : forall a, (take_event_pipe (take_event_pipe a).2).1 = None;
  info_taken : forall a, connection_info (take_event_pipe a).2 = connection_info a;
  writer_taken : forall a, writer (take_event_pipe a).2 = writer a;
  policy_taken : forall a, frame_policy (take_event_pipe a).2 = frame_policy a;
  policy_stored : forall p a, frame_policy (conn_set_frame_policy p a) = p;
  policy_alone : forall p a, connection_info (conn_set_frame_policy p a) = connection_info a /\
    writer (conn_set_frame_policy p a) = writer a /\ conn_is_connected (conn_set_frame_policy p a) = conn_is_connected a;
  close_awaits : forall now ended a, conn_running (conn_close now ended a) = false;
  close_shuts : forall now ended a, conn_running a = true ->
    (forall st, status (ended st) = StClosed /\ session_id (ended st) = session_id st) ->
    let a' := conn_close now ended a in
    conn_is_connected a' = false /\ conn_session_id a' = conn_session_id a /\
    (writer a').1.1 = mkQueue [] (q_capacity (writer a).1.1) false;
  close_again : forall now ended ended' a, let a' := conn_close now ended a in
    (writer (conn_close now ended' a')).1 = (writer a').1 /\
    conn_session_id (conn_close now ended' a') = conn_session_id a'
}.

Lemma policy_round_trip p : FramePolicy_from_u8 (FramePolicy_as_u8 p) = p.
Proof. by destruct p. Qed.

Lemma not_connected st : status st = StClosed -> is_connected st = false.
Proof. unfold is_connected. by intros ->. Qed.

#[export] Instance TcpAdapter_laws : ConnectionLaws TcpAdapter.
Proof.
  split; try done.
  - intros p a. apply policy_round_trip.
  - intros now ended [[? ? ? ? ? ? [] ?] ?]; done.
  - intros now ended [[? ? ? ? ? ? [] ?] ?]; [|done]. intros _ He. cbn in *. split_and!; try done. apply He.
  - intros now ended ended' [[? ? ? ? ? ? [] ?] ?]; done.
Qed.

#[export] Instance WebSocketAdapter_laws : ConnectionLaws WebSocketAdapter.
Proof.
  split; try done.
  - intros p a. apply policy_round_trip.
  - intros now ended [[? ? ? ? ? ? [] ?] ?]; done.
  - intros now ended [[? ? ? ? ? ? [] ?] ?]; [|done]. intros _ He. cbn in *. split_and!; try done. apply He.
  - intros now ended ended' [[? ? ? ? ? ? [] ?] ?]; done.
Qed.

#[export] Instance QuicAdapter_laws : ConnectionLaws QuicAdapter.
Proof.
  split; try done.
  - intros p a. apply policy_round_trip.
  - intros now ended [[? ? ? ? ? ? [] ?]]; done.
  - intros now ended [[? ? ? ? ? ? [] ?]]; [|done]. intros _ He. cbn in *.
    split_and!; [by apply not_connected, He|apply He|done].
  - intros now ended ended' [[? ? ? ? ? ? [] ?]]; done.
Qed.

(** ** Installing a connection object *)

Section Install.
Context `{ConnectionLaws A}.

(** The model of a generation's connection behind an object. *)
Definition conn_of (a : A) : conn :=
  let '(q, b, w) := writer a in mkConn q b w (frame_policy a) (connection_info a).

(** [Transport::set_connection] with the object: the identifier is set, the
    event pipe taken, the writer and the description captured, the object
    stored. *)
Definition set_connection_object (a : A) (t : Transport) : SessionId * option EventPipe * A * Transport :=
  let epoch := wrap 64 (tp_epoch t + 1) in
  let a := conn_set_session_id epoch a in
  let '(pipe, a) := take_event_pipe a in
  let old := tp_slot t in
  let t := mkTransport (Some epoch) (<[epoch := conn_of a]> (tp_conns t)) (tp_states t) (tp_registry t)
    (tp_receipts t) epoch (tp_listening t) (tp_events t) in
  let t := match old with Some s => close_connection s t | None => t end in
  (epoch, pipe, a, announce epoch t).

Lemma conn_of_taken a : conn_of (take_event_pipe a).2 = conn_of a.
Proof. unfold conn_of. by rewrite writer_taken, policy_taken, info_taken. Qed.

Lemma conn_of_set s a : conn_of (conn_set_session_id s a) =
  let cn := conn_of a in
  mkConn (cn_queue cn) (cn_budget cn) (cn_writer cn) (cn_policy cn) (set_info_session s (cn_info cn)).
Proof. unfold conn_of. rewrite writer_set, policy_set, info_set. by destruct (writer a) as [[q b] w]. Qed.

(** Installing an object is installing what it owns: whatever adapter it is, the
    transport's generation has its queue, budget, writer, policy and addresses
    under the new identifier, which the object reports as its own; the pipe goes
    to this installation and to no later one. *)
Theorem installing_an_object_installs_its_connection (a : A) (t : Transport) :
  let '(s, pipe, a', t') := set_connection_object a t in
  (s, t') = set_connection (conn_of a) t /\ conn_session_id (conn_set_session_id s a) = s /\
  cn_info (conn_of a') = set_info_session s (connection_info a) /\
  pipe = (take_event_pipe a).1 /\ (take_event_pipe a').1 = None.
Proof.
  unfold set_connection_object. cbv zeta. set (s := wrap 64 (tp_epoch t + 1)).
  pose proof (pipe_set s a) as Hp. pose proof (pipe_once (conn_set_session_id s a)) as Ho.
  pose proof (conn_of_taken (conn_set_session_id s a)) as Hc. rewrite conn_of_set in Hc. cbv zeta in Hc.
  destruct (take_event_pipe (conn_set_session_id s a)) as [pipe a']. cbn [fst snd] in *. split_and!; try done.
  - unfold set_connection, install. fold s. by rewrite Hc.
  - apply session_id_set.
  - rewrite Hc. cbn. unfold conn_of. by destruct (writer a) as [[q b] w].
Qed.
End Install.

(** The TCP event loop ends as [conn_close] supposes, and the shared state is then
    what its handle shows. *)
Lemma tcp_close_by_its_loop `{T : Target} debug idle now w a :
  ad_running (tcp_adapter a) = true -> TcpLoop.tl_state w = ad_state (tcp_adapter a) -> TcpLoop.tl_closed w = None ->
  let ended := fun _ => TcpLoop.tl_state (TcpLoop.tcp_step debug idle TcpLoop.ShutdownSignal w) in
  status (ended (ad_state (tcp_adapter a))) = StClosed /\
  session_id (ended (ad_state (tcp_adapter a))) = conn_session_id a /\
  ad_state (tcp_adapter (conn_close now ended a)) = TcpLoop.tl_state (TcpLoop.TcpAdapter_close debug idle w).
Proof.
  intros Hr Hs Hc. unfold TcpLoop.TcpAdapter_close, TcpLoop.tcp_step. rewrite Hc. cbn. unfold ad_close. rewrite Hr, Hs.
  cbn. done.
Qed.

(** Only the TCP adapter's description tells the end: those of the others say
    connected after their close. *)
Lemma description_after_close now ended (t : TcpAdapter) (w : WebSocketAdapter) (q : QuicAdapter) :
  ci_state (connection_info (conn_close now ended t)) = CsClosed /\
  ci_closed_at (connection_info (conn_close now ended t)) = Some now /\
  ci_state (connection_info (conn_close now ended w)) = ci_state (connection_info w) /\
  ci_closed_at (connection_info (conn_close now ended w)) = ci_closed_at (connection_info w) /\
  ci_state (connection_info (conn_close now ended q)) = ci_state (connection_info q) /\
  ci_closed_at (connection_info (conn_close now ended q)) = ci_closed_at (connection_info q).
Proof. destruct t as [[? ? ? ? ? ? [] ?] ?], w as [[? ? ? ? ? ? [] ?] ?], q as [[? ? ? ? ? ? [] ?]]; done. Qed.

(** ** A fresh adapter and its limits *)

Section Limits.
Context `{T : Target}.

Lemma slice_len {E X} (bs : list X) lo hi x : slice (E := E) bs lo hi = Done x -> len x = hi - lo.
Proof.
  unfold slice. destruct (_ && _) eqn:Hb; [|done]. intros [= <-].
  apply andb_prop in Hb as [[H1 H2]%andb_prop H3]. unfold len in *. rewrite length_take, length_drop. lia.
Qed.

Lemma decode_within bs limits p n : bytes_ok bs -> limits_ok limits ->
  decode_one_with bs limits = Done (Some (p, n)) -> len (payload p) <= max_payload_size limits.
Proof.
  intros Hbs Hl Hd. unfold decode_one_with in Hd. apply exec_bind_done_inv in Hd as ([l|] & Hlay & Hd); [|done].
  apply frame_layout_some in Hlay as (h & e & pl & rest & _ & _ & _ & Hp & Hmax & _ & _ & _ & ->); [|done..].
  cbn in Hd. apply exec_bind_done_inv in Hd as (ext & _ & Hd). apply exec_bind_done_inv in Hd as (body & Hbody & Hd).
  injection Hd as <- _. cbn. unfold in_width in Hp. destruct (0 <? pl).
  - apply slice_len in Hbody. lia.
  - injection Hbody as <-. rewrite len_nil. lia.
Qed.

(** A fresh adapter of any kind. *)
Inductive fresh_adapter (limits : ConnectionLimits) : adapter -> wiring -> Prop :=
  | FreshTcp now stream config nodelay a w :
      TcpAdapter_new now stream config nodelay limits = Done (a, w) -> fresh_adapter limits (tcp_adapter a) w
  | FreshWebSocket now stream config a w :
      WebSocketAdapter_new now stream config limits = (a, w) -> fresh_adapter limits (ws_adapter a) w
  | FreshQuic now remote local a w :
      QuicAdapter_new now remote local limits = (a, w) -> fresh_adapter limits (quic_adapter a) w.

Lemma fresh_wired limits a w : fresh_adapter limits a w ->
  exists status info, wire status info limits = (a, w).
Proof.
  intros [now stream config nodelay a' w' Hn|now stream config a' w' Hn|now remote local a' w' Hn].
  - unfold TcpAdapter_new in Hn. do 3 (exec_inv Hn). destruct (wire _ _ _) eqn:Hw. simplify_eq. eauto.
  - unfold WebSocketAdapter_new in Hn. destruct (wire _ _ _) eqn:Hw. simplify_eq. eauto.
  - unfold QuicAdapter_new in Hn. destruct (wire _ _ _) eqn:Hw. simplify_eq. eauto.
Qed.

(** C6: one set of limits at every layer: an adapter of any protocol built under
    legal limits has an open, empty queue of the outbound capacity and a free
    budget of the buffer's bytes; the pipe it hands over has the pipe's
    capacity, a free budget of the same bytes and the decoder's largest payload;
    its event loop writes under the write deadline and decodes, strictly, under
    the decode limits. So what its decoder accepts uncompressed its pipe accepts
    as it is, and what the pipe accepts, decompressed or not, is within the
    configured payload. *)
Theorem every_layer_has_the_same_limits `{C : Codecs} `{L : !CodecLaws C} limits a w :
  legal limits -> fresh_adapter limits a w ->
  (ad_queue a = mkQueue [] (outbound_capacity limits) true /\ has_slot (ad_queue a) = true /\
   bb_capacity (ad_budget a) = buffer_bytes limits /\ bb_available (ad_budget a) = buffer_bytes limits) /\
  (ad_events a = Some (wi_pipe w) /\ has_room (wi_pipe w) = true /\ ep_capacity (wi_pipe w) = pipe_capacity limits /\
   bb_capacity (ep_budget (wi_pipe w)) = buffer_bytes limits /\ bb_available (ep_budget (wi_pipe w)) = buffer_bytes limits /\
   ep_max_payload_size (wi_pipe w) = max_payload_size (decode limits)) /\
  (wi_write_deadline w = write_deadline limits /\ wi_decode_limits w = decode limits /\ limits_ok (wi_decode_limits w) /\
   FramePolicy_from_u8 (ad_policy a) = Strict) /\
  (forall bs p n, bytes_ok bs -> decode_one_with bs (wi_decode_limits w) = Done (Some (p, n)) ->
     compression (header p) = CNone -> normalize_inbound p (ep_max_payload_size (wi_pipe w)) = Done p) /\
  (forall p q, normalize_inbound p (ep_max_payload_size (wi_pipe w)) = Done q ->
     len (payload q) <= max_payload_size (decode limits) /\ compression (header q) = CNone).
Proof.
  intros Hlegal Hf. destruct (fresh_wired _ _ _ Hf) as (status & info & Hw). injection Hw as <- <-.
  pose proof (legal_limits_ok limits Hlegal) as Hok. destruct Hlegal as (Hb & Hd & Hp & Hq & Hm & He & Hfr).
  split_and!; try done; cbn.
  - unfold has_slot. cbn. apply Z.ltb_lt. rewrite len_nil. lia.
  - unfold has_room. cbn. apply Z.ltb_lt. rewrite len_nil. lia.
  - intros bs p n Hbs Hdec Hc. pose proof (decode_within _ _ _ _ Hbs Hok Hdec).
    unfold normalize_inbound. rewrite decide_True by done. by zbool.
  - intros p q Hn. unfold normalize_inbound in Hn. case_decide as Hc.
    + revert Hn. zcase; [done|]. intros [= <-]. done.
    + destruct (decompress_payload_with_limit p _) as [r| |] eqn:Hr; [|done..]. cbn in Hn. injection Hn as <-.
      split; [|done]. unfold decompress_payload_with_limit in Hr. rewrite decide_False in Hr by done. exec_inv Hr.
      simplify_eq. cbn. eapply decompress_bounded; [|done|done]. lia.
Qed.
End Limits.

(** ** Adapters from outside: [crates/msgtrans/src/spi.rs]

    The producer's half as a custom adapter holds it: one method per kind of
    report, each on its plane of the pipe. *)

Inductive sink_call :=
  | SinkMessage (p : Packet)
  | SinkError (e : TransportError)
  | SinkMessageSent (message_id : Z)
  | SinkClose (reason : CloseReason).

Definition sink_act (c : sink_call) : EventsProps.action :=
  match c with
  | SinkMessage p => EventsProps.Call (MessageReceived p)
  | SinkError e => EventsProps.Call (ErrorEvent e)
  | SinkMessageSent i => EventsProps.Diagnose i
  | SinkClose r => EventsProps.Publish r
  end.

Definition event_channel (capacity : Z) : EventPipe := event_pipe capacity.
Definition event_channel_with_limits (limits : ConnectionLimits) : EventPipe :=
  event_pipe_with_limit (pipe_capacity limits) (max_payload_size (decode limits)) (buffer_bytes limits).

(** Data and closes never share a plane: what goes through the bounded queue is a
    packet or an error, what may be dropped is a confirmation, and only
    [SinkClose] publishes a close. *)
Lemma sink_planes c :
  match sink_act c with
  | EventsProps.Call e => (exists p, e = MessageReceived p) \/ (exists err, e = ErrorEvent err)
  | EventsProps.Diagnose i => c = SinkMessageSent i
  | EventsProps.Publish r => c = SinkClose r
  | _ => False
  end.
Proof. destruct c; cbn; eauto. Qed.

(** A custom adapter that takes its limits gets the pipe the built-in ones have. *)
Lemma custom_channel_is_wired_alike status info limits :
  wi_pipe (wire status info limits).2 = event_channel_with_limits limits.
Proof. done. Qed.

(** ** A concrete connection *)

Definition sample_socket : tcp_socket := mkTcpSocket (fun _ => Done tt) (Done "127.0.0.1:8080") (Done "10.0.0.9:41000").

Lemma every_layer_witness :
  match TcpAdapter_new 0 sample_socket (inl TcpServerConfig_default) true ConnectionLimits_default with
  | Done (a, w) =>
      tcp_idle_timeout a = Some (from_secs 300) /\ ci_peer_addr (connection_info a) = "10.0.0.9:41000" /\
      ad_events (tcp_adapter a) = Some (wi_pipe w) /\
      normalize_inbound (C := tag_codec) (one_way 1 [5]) (ep_max_payload_size (wi_pipe w)) = Done (one_way 1 [5]) /\
      len (payload (one_way 1 [5])) <= max_payload_size (decode ConnectionLimits_default)
  | _ => False
  end.
Proof.
  destruct (TcpAdapter_new _ _ _ _ _) as [[a w]| |] eqn:Hn; [|discriminate Hn..].
  destruct (every_layer_has_the_same_limits (T := Target64) (C := tag_codec) (L := tag_codec_laws) ConnectionLimits_default
    (tcp_adapter a) w ltac:(vm_compute; intuition discriminate) (FreshTcp _ _ _ _ _ _ _ Hn))
    as (_ & (Hev & _) & _ & _ & Hb).
  assert (Hnorm : normalize_inbound (C := tag_codec) (one_way 1 [5]) (ep_max_payload_size (wi_pipe w)) = Done (one_way 1 [5])).
  { injection Hn as <- <-. reflexivity. }
  split_and!; [injection Hn as <- <-; reflexivity..|exact Hev|exact Hnorm|exact (proj1 (Hb _ _ Hnorm))].
Defined.
