(* ===== verification/Endpoints.v ===== *)
(** * Endpoints: the builders of [adapters/tcp.rs], [websocket.rs], [quic.rs],
      the servers they build, and the factories of [protocol/adapter.rs]

    A server configuration builds a listening server, a client configuration
    connects. The accept loop knows a server through the [Server] trait, the
    retry loop a configuration through [build_connection]; both are interfaces
    here, with one instance per protocol. Binding, the sockets, tungstenite's
    client and the header parsers of [http] are the environment. Times are
    nanoseconds. *)

From S2P Require Import Prelude Packet Errors Limits Events Writes Transport Retry Client Adapters Quic WebSocket Config Tls Accept Connections.

(** ** Servers *)

(** The [Server] trait; [network]: what a call finds, [None]: it waits. *)
Class Server (S : Type) := {
  network : Type;
  accepted : Type;
  accept : network -> S -> option (exec TransportError accepted) * S;
  local_addr : network -> S -> exec TransportError SocketAddr;
  shutdown : S -> exec TransportError unit * S
}.

Definition poll_map {E A B F} (f : exec E A -> exec F B) (r : option (exec E A)) : option (exec F B) := f <$> r.

(** *** TCP *)

Record tcp_server := mkTcpServerObject {
  ts_config : TcpServerConfig;
  ts_limits : ConnectionLimits;
  ts_local_addr : SocketAddr;
  ts_listener : bool;
  ts_incoming : option accept_pump
}.

Record TcpServerBuilder := mkTcpServerBuilder {
  tsb_config : TcpServerConfig;
  tsb_bind_address : option SocketAddr;
  tsb_limits : ConnectionLimits
}.
Definition TcpServerBuilder_new : TcpServerBuilder := mkTcpServerBuilder TcpServerConfig_default None ConnectionLimits_default.
Definition tsb_set_limits (x : ConnectionLimits) (b : TcpServerBuilder) : TcpServerBuilder :=
  mkTcpServerBuilder (tsb_config b) (tsb_bind_address b) x.
Definition tsb_set_bind_address (x : SocketAddr) (b : TcpServerBuilder) : TcpServerBuilder :=
  mkTcpServerBuilder (tsb_config b) (Some x) (tsb_limits b).
Definition tsb_set_config (x : TcpServerConfig) (b : TcpServerBuilder) : TcpServerBuilder :=
  mkTcpServerBuilder x (tsb_bind_address b) (tsb_limits b).

(** What [TcpServer::accept] finds: the next connection of a plain listener, and
    the sockets of the peers. *)
Record tcp_arrivals := mkTcpArrivals {
  ta_time : Z;
  ta_next : option (exec IoError nat);
  ta_socket : nat -> tcp_socket
}.

Definition tcp_accept (net : tcp_arrivals) (s : tcp_server) : option (exec TcpError (TcpAdapter * wiring)) * tcp_server :=
  let '(answer, incoming) := TcpServer_accept (ts_incoming s) (ts_listener s) (ta_next net) in
  (match answer with
   | Accepted p => Some (TcpAdapter_new (ta_time net) (ta_socket net p) (inl (ts_config s)) (tsc_nodelay (ts_config s)) (ts_limits s))
   | AcceptFails e => Some (Throw e)
   | AcceptWaits => None
   end, mkTcpServerObject (ts_config s) (ts_limits s) (ts_local_addr s) (ts_listener s) incoming).

(** The address bound at build time outlives the listener. *)
Definition tcp_local_addr (s : tcp_server) : exec TcpError SocketAddr := Done (ts_local_addr s).
Definition tcp_shutdown (s : tcp_server) : exec TcpError unit * tcp_server :=
  (Done tt, mkTcpServerObject (ts_config s) (ts_limits s) (ts_local_addr s) false None).

(** *** WebSocket *)

Record websocket_server := mkWebSocketServerObject {
  ws_config : WebSocketServerConfig;
  ws_limits : ConnectionLimits;
  ws_local : option SocketAddr;
  ws_incoming : option accept_pump
}.

Record WebSocketServerBuilder := mkWebSocketServerBuilder {
  wsb_config : option WebSocketServerConfig;
  wsb_limits : ConnectionLimits
}.
Definition WebSocketServerBuilder_new : WebSocketServerBuilder := mkWebSocketServerBuilder None ConnectionLimits_default.
Definition wsb_set_limits (x : ConnectionLimits) (b : WebSocketServerBuilder) : WebSocketServerBuilder :=
  mkWebSocketServerBuilder (wsb_config b) x.
Definition wsb_set_config (x : WebSocketServerConfig) (b : WebSocketServerBuilder) : WebSocketServerBuilder :=
  mkWebSocketServerBuilder (Some x) (wsb_limits b).
(** An override of the configuration it has, if any. *)
Definition wsb_set_bind_address (x : SocketAddr) (b : WebSocketServerBuilder) : WebSocketServerBuilder :=
  mkWebSocketServerBuilder (WebSocketServerConfig_bind_address x <$> wsb_config b) (wsb_limits b).
Definition WebSocketServerBuilder_build (b : WebSocketServerBuilder) : exec WebSocketError websocket_server :=
  match wsb_config b with
  | Some config => Done (mkWebSocketServerObject config (wsb_limits b) None None)
  | None => Throw (WsConfig "Missing WebSocket server config")
  end.

(** tungstenite's caps, the connection's own largest frame. *)
Record ws_caps := mkWsCaps { cap_message_size : option Z; cap_frame_size : option Z }.
Definition ws_protocol_config (limits : DecodeLimits) : ws_caps :=
  mkWsCaps (Some (max_frame_size limits)) (Some (max_frame_size limits)).

Record ws_arrivals := mkWsArrivals {
  wa_time : Z;
  wa_bind : SocketAddr -> exec string SocketAddr;
  wa_socket : nat -> option tcp_socket
}.

(** The address is recorded with the pump that is started. *)
Definition websocket_accept (net : ws_arrivals) (s : websocket_server)
    : option (exec WebSocketError (WebSocketAdapter * wiring)) * websocket_server :=
  let bound := wa_bind net (wsc_bind_address (ws_config s)) in
  let '(answer, incoming) := WebSocketServer_accept (ws_incoming s) (wa_time net) (_ ← bound; Done tt) in
  let local := match ws_incoming s, bound with None, Done a => Some a | _, _ => ws_local s end in
  (match answer with
   | Accepted p => Some (Done (WebSocketAdapter_new (wa_time net) (wa_socket net p) (inl (ws_config s)) (ws_limits s)))
   | AcceptFails e => Some (Throw e)
   | AcceptWaits => None
   end, mkWebSocketServerObject (ws_config s) (ws_limits s) local incoming).

Definition websocket_local_addr (s : websocket_server) : exec WebSocketError SocketAddr :=
  match ws_local s with Some a => Done a | None => Throw (WsConfig "Server not bound") end.
Definition websocket_shutdown (s : websocket_server) : exec WebSocketError unit * websocket_server :=
  (Done tt, mkWebSocketServerObject (ws_config s) (ws_limits s) None None).

(** *** QUIC *)

Section Quic.
Context `{Q : Quinn}.

(** [qs_closed]: the endpoint has been closed. *)
Record quic_server := mkQuicServerObject {
  qs_listening : QuicServer;
  qs_limits : ConnectionLimits;
  qs_closed : bool
}.

Record QuicServerBuilder := mkQuicServerBuilder {
  qsb_config : QuicServerConfig;
  qsb_bind_address : option SocketAddr;
  qsb_limits : ConnectionLimits
}.
Definition QuicServerBuilder_new : QuicServerBuilder := mkQuicServerBuilder QuicServerConfig_default None ConnectionLimits_default.
Definition qsb_set_limits (x : ConnectionLimits) (b : QuicServerBuilder) : QuicServerBuilder :=
  mkQuicServerBuilder (qsb_config b) (qsb_bind_address b) x.
Definition qsb_set_bind_address (x : SocketAddr) (b : QuicServerBuilder) : QuicServerBuilder :=
  mkQuicServerBuilder (qsb_config b) (Some x) (qsb_limits b).
Definition qsb_set_config (x : QuicServerConfig) (b : QuicServerBuilder) : QuicServerBuilder :=
  mkQuicServerBuilder x (qsb_bind_address b) (qsb_limits b).

(** The connection the endpoint has next, with its handshake; the addresses quinn
    gives; the address of the endpoint's socket. *)
Record quic_arrivals := mkQuicArrivals {
  qa_time : Z;
  qa_next : option (nat * future ConnectionError unit);
  qa_remote : nat -> string;
  qa_local : nat -> option string;
  qa_bound : exec string SocketAddr
}.

(** A closed endpoint hands out nothing more. *)
Definition quic_accept (net : quic_arrivals) (s : quic_server) : option (exec QuicError (QuicAdapter * wiring)) * quic_server :=
  (match QuicServer_accept (if qs_closed s then [] else option_list (qa_next net)) (qs_closed s) with
   | Some (_, Accepted p, _) => Some (Done (QuicAdapter_new (qa_time net) (qa_remote net p) (qa_local net p) (qs_limits s)))
   | Some (_, AcceptFails e, _) => Some (Throw e)
   | Some (_, AcceptWaits, _) | None => None
   end, s).

Definition quic_local_addr (net : quic_arrivals) : exec QuicError SocketAddr := map_err QeIo (qa_bound net).
(** The endpoint is closed; the wait for it to drain, two seconds at most, changes
    nothing here. *)
Definition quic_shutdown (s : quic_server) : exec QuicError unit * quic_server :=
  (Done tt, mkQuicServerObject (qs_listening s) (qs_limits s) true).
End Quic.

(** ** The trait's implementations: the wrappers of [factories.rs] *)

Section Wrappers.
Context `{Q : Quinn}.
(** How the errors of the adapters render, [Debug] and [Display]. *)
Context (tcp_debug tcp_display : TcpError -> string) (websocket_display : WebSocketError -> string) (quic_display : QuicError -> string).

Definition TcpServerWrapper : Server tcp_server := {|
  network := tcp_arrivals;
  accepted := TcpAdapter * wiring;
  accept net s := let '(r, s) := tcp_accept net s in (poll_map (map_err (tcp_accept_error tcp_debug)) r, s);
  local_addr _ s := map_err TransportError_from_tcp (tcp_local_addr s);
  shutdown s := let '(r, s) := tcp_shutdown s in (map_err (fun e => config_error "tcp" (tcp_display e)) r, s)
|}.

Definition WebSocketServerWrapper : Server websocket_server := {|
  network := ws_arrivals;
  accepted := WebSocketAdapter * wiring;
  accept net s := let '(r, s) := websocket_accept net s in (poll_map (map_err websocket_accept_error) r, s);
  local_addr _ s := map_err (fun e => config_error "websocket" (websocket_display e)) (websocket_local_addr s);
  shutdown s :=
    let '(r, s) := websocket_shutdown s in (map_err (fun e => config_error "websocket" (websocket_display e)) r, s)
|}.

Definition QuicServerWrapper : Server quic_server := {|
  network := quic_arrivals;
  accepted := QuicAdapter * wiring;
  accept net s := let '(r, s) := quic_accept net s in (poll_map (map_err (quic_accept_error quic_display)) r, s);
  local_addr net _ := map_err (fun e => config_error "quic" (quic_display e)) (quic_local_addr net);
  shutdown s := let '(r, s) := quic_shutdown s in (map_err (fun e => config_error "quic" (quic_display e)) r, s)
|}.
End Wrappers.

(** ** Building a server: [build_server] of [adapter.rs] *)

(** [binding]: what the network answers when a port is bound. *)
Class ServerConfig (C : Type) := {
  server : Type;
  server_trait :: Server server;
  binding : Type;
  build_server : binding -> Z -> ConnectionLimits -> C -> exec TransportError server
}.
(** A server configuration as startup sees it: [DynServerConfig]. *)
Class ServerConfigDyn (C : Type) := {
  server_config :: ServerConfig C;
  build_server_dyn : binding -> Z -> ConnectionLimits -> C -> exec TransportError server;
  get_bind_address : C -> SocketAddr
}.

Section Factories.
Context `{T : TlsLibrary} `{Q : Quinn}.
Context (tcp_debug tcp_display : TcpError -> string) (websocket_debug websocket_display : WebSocketError -> string)
  (quic_debug quic_display : QuicError -> string).

(** With TLS the pump is running when [build] returns, and owns the listener. *)
Definition tcp_server_build (now : Z) (listen : bool -> SocketAddr -> exec IoError SocketAddr) (b : TcpServerBuilder)
    : exec TcpError tcp_server :=
  built ← TcpServerBuilder_build (tsb_config b) (tsb_bind_address b) listen;
  let object := mkTcpServerObject (tsv_config built) (tsb_limits b) (tsv_local_addr built) in
  Done (match tsv_mode built with
        | PlainListener => object true None
        | TlsListener _ _ => object false (Some (start_pump now))
        end).

Definition quic_server_build (endpoint : SocketAddr -> exec string SocketAddr) (b : QuicServerBuilder)
    : exec QuicError quic_server :=
  built ← QuicServerBuilder_build (qsb_config b) (qsb_bind_address b) endpoint;
  Done (mkQuicServerObject built (qsb_limits b) false).

Definition TcpServerFactory : ServerConfig TcpServerConfig := {|
  server_trait := TcpServerWrapper tcp_debug tcp_display;
  binding := bool -> SocketAddr -> exec IoError SocketAddr;
  build_server listen now limits c :=
    tcp_build_server tcp_debug
      (tcp_server_build now listen
        (tsb_set_limits limits (tsb_set_config c (tsb_set_bind_address (tsc_bind_address c) TcpServerBuilder_new))))
|}.

(** Nothing is bound yet. *)
Definition WebSocketServerFactory : ServerConfig WebSocketServerConfig := {|
  server_trait := WebSocketServerWrapper websocket_display;
  binding := unit;
  build_server _ _ limits c :=
    websocket_build_server websocket_debug
      (WebSocketServerBuilder_build
        (wsb_set_config c (wsb_set_bind_address (wsc_bind_address c) (wsb_set_limits limits WebSocketServerBuilder_new))))
|}.

Definition QuicServerFactory : ServerConfig QuicServerConfig := {|
  server_trait := QuicServerWrapper quic_display;
  binding := SocketAddr -> exec string SocketAddr;
  build_server endpoint _ limits c :=
    quic_build_server quic_debug
      (quic_server_build endpoint
        (qsb_set_config c (qsb_set_bind_address (qsc_bind_address c) (qsb_set_limits limits QuicServerBuilder_new))))
|}.

(** What a configuration builds is boxed, as it is. *)
Definition TcpServerDyn : ServerConfigDyn TcpServerConfig := {|
  server_config := TcpServerFactory;
  build_server_dyn listen now limits c := server ← build_server listen now limits c; Done server;
  get_bind_address := tsc_bind_address
|}.
Definition WebSocketServerDyn : ServerConfigDyn WebSocketServerConfig := {|
  server_config := WebSocketServerFactory;
  build_server_dyn u now limits c := server ← build_server u now limits c; Done server;
  get_bind_address := wsc_bind_address
|}.
Definition QuicServerDyn : ServerConfigDyn QuicServerConfig := {|
  server_config := QuicServerFactory;
  build_server_dyn endpoint now limits c := server ← build_server endpoint now limits c; Done server;
  get_bind_address := qsc_bind_address
|}.
End Factories.

(** ** The WebSocket client *)

(** The upgrade request, its headers by the names [http] gives them. *)
Record ws_request := mkWsRequest { wq_url : string; wq_scheme : option string; wq_headers : gmap string string }.
Definition insert_header (name value : string) (q : ws_request) : ws_request :=
  mkWsRequest (wq_url q) (wq_scheme q) (<[name := value]> (wq_headers q)).

(** A connection tungstenite has upgraded: the certificate the peer presented
    over TLS, the socket below. *)
Record ws_stream := mkWsStream { wst_certificate : option bytes; wst_socket : option tcp_socket }.

Section WebSocketClient.
Context `{T : TlsLibrary}.

(** The request tungstenite makes of a URL, the header parsers of [http], and the
    connection under a cap and a TLS connector; errors as they display. *)
Record ws_network := mkWsNetwork {
  wn_request : string -> exec string ws_request;
  wn_header_name : string -> exec string string;
  wn_header_value : string -> exec string string;
  wn_connect : ws_request -> ws_caps -> option ServerCertVerifier -> future string ws_stream
}.

(** [for (key, value) in &ws_cfg.headers], in the order the map has them. *)
Fixpoint insert_headers (net : ws_network) (order : list (string * string)) (q : ws_request) : exec WebSocketError ws_request :=
  match order with
  | [] => Done q
  | (key, value) :: order =>
      name ← map_err (fun e => WsConfig ("Invalid header name " +:+ key +:+ ": " +:+ e)) (wn_header_name net key);
      value ← map_err (fun e => WsConfig ("Invalid header value for " +:+ key +:+ ": " +:+ e)) (wn_header_value net value);
      insert_headers net order (insert_header name value q)
  end.

(** ["Sec-WebSocket-Protocol"], as [http] stores the name. *)
Definition SEC_WEBSOCKET_PROTOCOL : string := "sec-websocket-protocol".

Definition offer_subprotocols (net : ws_network) (c : WebSocketClientConfig) (q : ws_request) : exec WebSocketError ws_request :=
  match subprotocol_offer (wcc_subprotocols c) with
  | Some offer =>
      value ← map_err (fun e => WsConfig ("Invalid subprotocol: " +:+ e)) (wn_header_value net offer);
      Done (insert_header SEC_WEBSOCKET_PROTOCOL value q)
  | None => Done q
  end.

Definition upgrade_request (net : ws_network) (order : list (string * string)) (c : WebSocketClientConfig)
    : exec WebSocketError ws_request :=
  q ← map_err Tungstenite (wn_request net (wcc_target_url c));
  q ← insert_headers net order q;
  offer_subprotocols net c q.

(** TLS is set up for [wss] only. *)
Definition connector_of (c : WebSocketClientConfig) (q : ws_request) : exec WebSocketError (option ServerCertVerifier) :=
  if decide (wq_scheme q = Some "wss") then Some <$> build_tls_connector (wcc_tls c) else Done None.

Record WebSocketClientBuilder := mkWebSocketClientBuilder {
  wcb_config : option WebSocketClientConfig;
  wcb_limits : ConnectionLimits
}.
Definition WebSocketClientBuilder_new : WebSocketClientBuilder := mkWebSocketClientBuilder None ConnectionLimits_default.
Definition wcb_set_limits (x : ConnectionLimits) (b : WebSocketClientBuilder) : WebSocketClientBuilder :=
  mkWebSocketClientBuilder (wcb_config b) x.
Definition wcb_set_config (x : WebSocketClientConfig) (b : WebSocketClientBuilder) : WebSocketClientBuilder :=
  mkWebSocketClientBuilder (Some x) (wcb_limits b).
Definition wcb_set_target_url (x : string) (b : WebSocketClientBuilder) : WebSocketClientBuilder :=
  mkWebSocketClientBuilder (WebSocketClientConfig_target_url x <$> wcb_config b) (wcb_limits b).

(** [connect], called at [now]: how long it takes, and the adapter. *)
Definition WebSocketClientBuilder_connect (net : ws_network) (order : list (string * string)) (now : Z)
    (b : WebSocketClientBuilder) : future WebSocketError (WebSocketAdapter * wiring) :=
  match wcb_config b with
  | None => (0, Throw (WsConfig "Missing WebSocket client config"))
  | Some c =>
      match (q ← upgrade_request net order c; connector ← connector_of c q; Done (q, connector)) with
      | Throw e => (0, Throw e)
      | Panic => (0, Panic)
      | Done (q, connector) =>
          let '(t, r) := wn_connect net q (ws_protocol_config (decode (wcb_limits b))) connector in
          let connect : future WebSocketError ws_stream := (t, map_err Tungstenite r) in
          let '(t, r) := if 0 <? wcc_connect_timeout c
                         then timeout_at (WsConfig "WebSocket connect timeout") (wcc_connect_timeout c) 0 connect
                         else connect in
          (t, stream ← r; Done (WebSocketAdapter_new (now + t) (wst_socket stream) (inr c) (wcb_limits b)))
      end
  end.
End WebSocketClient.

(** ** The TCP and QUIC clients *)

Record TcpClientBuilder := mkTcpClientBuilder {
  tcb_config : TcpClientConfig;
  tcb_target_address : option SocketAddr;
  tcb_limits : ConnectionLimits
}.
Definition TcpClientBuilder_new : TcpClientBuilder := mkTcpClientBuilder TcpClientConfig_default None ConnectionLimits_default.
Definition tcb_set_limits (x : ConnectionLimits) (b : TcpClientBuilder) : TcpClientBuilder :=
  mkTcpClientBuilder (tcb_config b) (tcb_target_address b) x.
Definition tcb_set_target_address (x : SocketAddr) (b : TcpClientBuilder) : TcpClientBuilder :=
  mkTcpClientBuilder (tcb_config b) (Some x) (tcb_limits b).
Definition tcb_set_config (x : TcpClientConfig) (b : TcpClientBuilder) : TcpClientBuilder :=
  mkTcpClientBuilder x (tcb_target_address b) (tcb_limits b).

Record QuicClientBuilder := mkQuicClientBuilder {
  qcb_config : QuicClientConfig;
  qcb_target_address : option SocketAddr;
  qcb_limits : ConnectionLimits
}.
Definition QuicClientBuilder_new : QuicClientBuilder := mkQuicClientBuilder QuicClientConfig_default None ConnectionLimits_default.
Definition qcb_set_limits (x : ConnectionLimits) (b : QuicClientBuilder) : QuicClientBuilder :=
  mkQuicClientBuilder (qcb_config b) (qcb_target_address b) x.
Definition qcb_set_target_address (x : SocketAddr) (b : QuicClientBuilder) : QuicClientBuilder :=
  mkQuicClientBuilder (qcb_config b) (Some x) (qcb_limits b).
Definition qcb_set_config (x : QuicClientConfig) (b : QuicClientBuilder) : QuicClientBuilder :=
  mkQuicClientBuilder x (qcb_target_address b) (qcb_limits b).

Section Clients.
Context `{T : TlsLibrary} `{Q : Quinn}.

(** The set-up of the stream is the adapter's constructor here. *)
Record tcp_peers := mkTcpPeers { tp_network : tcp_network; tp_socket : MaybeTlsStream -> tcp_socket }.
Definition without_setup (net : tcp_network) : tcp_network :=
  mkTcpNetwork (tn_socket net) (tn_bind net) (tn_connect net) (tn_handshake net) (fun _ => Done tt).

Definition TcpClientBuilder_connect (net : tcp_peers) (now : Z) (b : TcpClientBuilder)
    : future TcpError (MaybeTlsStream * (TcpAdapter * wiring)) :=
  let target_addr := default (tcc_target_address (tcb_config b)) (tcb_target_address b) in
  let '(t, r) := TcpAdapter_connect (without_setup (tp_network net)) now target_addr (tcb_config b) in
  (t, stream ← r;
      adapter ← TcpAdapter_new t (tp_socket net stream) (inr (tcb_config b)) (tcc_nodelay (tcb_config b)) (tcb_limits b);
      Done (stream, adapter)).

(** The addresses quinn gives of the connection. *)
Record quic_peers := mkQuicPeers { qp_network : quic_network; qp_remote : string; qp_local : option string }.

Definition QuicClientBuilder_connect (net : quic_peers) (now : Z) (b : QuicClientBuilder)
    : future QuicError (bytes * (QuicAdapter * wiring)) :=
  match qcb_target_address b with
  | None => (0, Throw (QeConfig "Target address not set"))
  | Some addr =>
      let '(t, r) := QuicAdapter_connect (qp_network net) addr (qcb_config b) in
      (t, der ← r; Done (der, QuicAdapter_new (now + t) (qp_remote net) (qp_local net) (qcb_limits b)))
  end.
End Clients.

(** ** Connecting: [build_connection] of [adapter.rs] *)

(** When the attempt started at [now] ends, and with which connection. *)
Class ClientConfig (C : Type) := {
  peers : Type;
  connection : Type;
  build_connection : peers -> Z -> ConnectionLimits -> C -> future TransportError connection
}.
(** A client configuration as the retry loop sees it: [DynClientConfig]. *)
Class ClientConfigDyn (C : Type) := {
  client_config :: ClientConfig C;
  build_connection_dyn : peers -> Z -> ConnectionLimits -> C -> future TransportError connection
}.
Definition boxed {E A} (f : future E A) : future E A := (fst f, a ← snd f; Done a).

Section Connecting.
Context `{T : TlsLibrary} `{Q : Quinn}.
Context (tcp_debug : TcpError -> string) (websocket_debug : WebSocketError -> string) (quic_debug : QuicError -> string).

Definition TcpClientFactory : ClientConfig TcpClientConfig := {|
  peers := tcp_peers;
  connection := MaybeTlsStream * (TcpAdapter * wiring);
  build_connection net now limits c :=
    let '(t, r) := TcpClientBuilder_connect net now
      (tcb_set_limits limits (tcb_set_config c (tcb_set_target_address (tcc_target_address c) TcpClientBuilder_new))) in
    (t, tcp_build_connection tcp_debug r)
|}.

(** The order of the headers is the map's. *)
Definition WebSocketClientFactory : ClientConfig WebSocketClientConfig := {|
  peers := ws_network * list (string * string);
  connection := WebSocketAdapter * wiring;
  build_connection '(net, order) now limits c :=
    let '(t, r) := WebSocketClientBuilder_connect net order now
      (wcb_set_config c (wcb_set_target_url (wcc_target_url c) (wcb_set_limits limits WebSocketClientBuilder_new))) in
    (now + t, websocket_build_connection websocket_debug r)
|}.

Definition QuicClientFactory : ClientConfig QuicClientConfig := {|
  peers := quic_peers;
  connection := bytes * (QuicAdapter * wiring);
  build_connection net now limits c :=
    let '(t, r) := QuicClientBuilder_connect net now
      (qcb_set_config c (qcb_set_target_address (qcc_target_address c) (qcb_set_limits limits QuicClientBuilder_new))) in
    (now + t, quic_build_connection quic_debug r)
|}.

Definition TcpClientDyn : ClientConfigDyn TcpClientConfig := {|
  client_config := TcpClientFactory;
  build_connection_dyn net now limits c := boxed (build_connection net now limits c)
|}.
Definition WebSocketClientDyn : ClientConfigDyn WebSocketClientConfig := {|
  client_config := WebSocketClientFactory;
  build_connection_dyn net now limits c := boxed (build_connection net now limits c)
|}.
Definition QuicClientDyn : ClientConfigDyn QuicClientConfig := {|
  client_config := QuicClientFactory;
  build_connection_dyn net now limits c := boxed (build_connection net now limits c)
|}.
End Connecting.

(** ** A server over its life *)

(** What happens to a server the accept loop owns: it calls the trait, and the
    pump of the server moves while nobody calls. *)
Inductive server_act {S} `{!Server S} :=
  | SAccept (net : network)
  | SShutdown
  | SPump (ls : list pump_label).
Arguments server_act S {_}.

(** The steps of a pump that cannot be taken change nothing. *)
Definition pump_moves (ls : list pump_label) (a : accept_pump) : accept_pump := default a (pump_run ls a).
Definition tcp_pumps (ls : list pump_label) (s : tcp_server) : tcp_server :=
  mkTcpServerObject (ts_config s) (ts_limits s) (ts_local_addr s) (ts_listener s) (pump_moves ls <$> ts_incoming s).
Definition websocket_pumps (ls : list pump_label) (s : websocket_server) : websocket_server :=
  mkWebSocketServerObject (ws_config s) (ws_limits s) (ws_local s) (pump_moves ls <$> ws_incoming s).

Section Life.
Context {S} `{!Server S} (pumps : list pump_label -> S -> S).

(** The answers its calls of [accept] get, and the server in the end. *)
Fixpoint server_run (acts : list (server_act S)) (s : S) : list (exec TransportError accepted) * S :=
  match acts with
  | [] => ([], s)
  | SAccept net :: acts =>
      let '(answer, s) := accept net s in
      let '(answers, s) := server_run acts s in (option_list answer ++ answers, s)
  | SShutdown :: acts => server_run acts (shutdown s).2
  | SPump ls :: acts => server_run acts (pumps ls s)
  end.
End Life.
