(* ===== verification/EndpointsProps.v ===== *)
(** * What the endpoints guarantee

    A server holds its configuration, its limits and its address over its whole
    life, whatever the accept loop and its pump do; a taken port stops a TCP or
    QUIC server from being built and is taken for a peer's fault by a WebSocket
    server; a WebSocket client connects as its configuration says. *)

From Stdlib Require Import Ascii.
From S2P Require Import Server ServerLife.
From S2P Require Import Prelude Packet Errors Limits Events Writes Transport Retry Client Adapters Quic WebSocket Config Tls TlsProps Accept Connections Endpoints.

(** ** Servers *)

Lemma map_err_done {E E' A} (f : E -> E') (m : exec E A) a : map_err f m = Done a -> m = Done a.
Proof. destruct m; simpl; congruence. Qed.

(** The accepts of a run find a network [P] allows. *)
Definition finds {S} `{!Server S} (P : network -> Prop) : list (server_act S) -> Prop :=
  Forall (fun act => match act with SAccept net => P net | _ => True end).

Lemma finds_all {S} `{!Server S} acts : finds (fun _ => True) acts.
Proof. apply Forall_true. by intros []. Qed.

Lemma finds_own {S} `{!Server S} acts : finds (fun net => SAccept net ∈ acts) acts.
Proof. apply Forall_forall. by intros []. Qed.

(** What holds of every server reached from [s], and of every answer on the way. *)
Section Invariant.
Context {S} `{!Server S} (pumps : list pump_label -> S -> S).
Context (P : network -> Prop) (I : S -> Prop) (A : exec TransportError accepted -> Prop).
Hypothesis accept_keeps : forall net s, P net -> I s -> I (accept net s).2.
Hypothesis accept_answers : forall net s r, P net -> I s -> (accept net s).1 = Some r -> A r.
Hypothesis shutdown_keeps : forall s, I s -> I (shutdown s).2.
Hypothesis pumps_keep : forall ls s, I s -> I (pumps ls s).

Lemma served_run_inv acts s : finds P acts -> I s -> Forall A (server_run pumps acts s).1 /\ I (server_run pumps acts s).2.
Proof.
  intros Hacts. revert s. induction Hacts as [|act acts Hact Hacts IH]; intros s Hs; [done|].
  destruct act as [net| |ls]; simpl; [|by apply IH, shutdown_keeps|by apply IH, pumps_keep].
  pose proof (accept_keeps net s Hact Hs) as Hk. pose proof (accept_answers net s) as Ha.
  destruct (accept net s) as [answer s1]. specialize (IH s1 Hk).
  destruct (server_run pumps acts s1) as [answers s2]. destruct IH as [IH ?]. split; [|done].
  apply Forall_app. split; [|done]. destruct answer; simpl; [|done]. repeat constructor. by apply Ha.
Qed.

(** Each call of [accept] is answered, when none has to wait. *)
Definition accepts (acts : list (server_act S)) : nat :=
  length (List.filter (fun act => match act with SAccept _ => true | _ => false end) acts).
Hypothesis accept_ready : forall net s, P net -> I s -> is_Some (accept net s).1.

Lemma served_run_answers acts s : finds P acts -> I s -> length (server_run pumps acts s).1 = accepts acts.
Proof.
  intros Hacts. revert s. induction Hacts as [|act acts Hact Hacts IH]; intros s Hs; [done|].
  destruct act as [net| |ls]; simpl; [|by apply IH, shutdown_keeps|by apply IH, pumps_keep].
  pose proof (accept_keeps net s Hact Hs) as Hk. destruct (accept_ready net s Hact Hs) as [r Hr].
  destruct (accept net s) as [answer s1]. simpl in Hr. rewrite Hr. specialize (IH s1 Hk).
  destruct (server_run pumps acts s1). simpl in *. unfold accepts. simpl. by rewrite IH.
Qed.
End Invariant.

Section Servers.
Context `{T : TlsLibrary} `{Q : Quinn}.
Context (tcp_debug tcp_display : TcpError -> string) (websocket_debug websocket_display : WebSocketError -> string)
  (quic_debug quic_display : QuicError -> string).

#[local] Instance tcp_trait : Server tcp_server := TcpServerWrapper tcp_debug tcp_display.
#[local] Instance websocket_trait : Server websocket_server := WebSocketServerWrapper websocket_display.
#[local] Instance quic_trait : Server quic_server := QuicServerWrapper quic_display.
#[local] Instance tcp_factory : ServerConfigDyn TcpServerConfig := TcpServerDyn tcp_debug tcp_display.
#[local] Instance websocket_factory : ServerConfigDyn WebSocketServerConfig :=
  WebSocketServerDyn websocket_debug websocket_display.
#[local] Instance quic_factory : ServerConfigDyn QuicServerConfig := QuicServerDyn quic_debug quic_display.

(** An answer of [accept]: a connection is made of the limits; or it is an error. *)
Definition wired {A} (limits : ConnectionLimits) (f : A -> adapter * wiring) (r : exec TransportError A) : Prop :=
  match r with Done c => fresh_adapter limits (f c).1 (f c).2 | _ => True end.
Definition refused {A} (r : exec TransportError A) : Prop := match r with Throw _ => True | _ => False end.

Definition of_tcp (c : TcpAdapter * wiring) : adapter * wiring := (tcp_adapter c.1, c.2).
Definition of_websocket (c : WebSocketAdapter * wiring) : adapter * wiring := (ws_adapter c.1, c.2).
Definition of_quic (c : QuicAdapter * wiring) : adapter * wiring := (quic_adapter c.1, c.2).

Lemma websocket_wired now socket config limits : wired limits of_websocket (Done (WebSocketAdapter_new now socket config limits)).
Proof. exact (FreshWebSocket _ _ _ _ _ _ (surjective_pairing _)). Qed.
Lemma quic_wired now remote local limits : wired limits of_quic (Done (QuicAdapter_new now remote local limits)).
Proof. exact (FreshQuic _ _ _ _ _ _ (surjective_pairing _)). Qed.

(** TCP *)
Definition tcp_is (limits : ConnectionLimits) (a : SocketAddr) (s : tcp_server) : Prop :=
  ts_limits s = limits /\ ts_local_addr s = a.
Definition tcp_down (s : tcp_server) : Prop := ts_listener s = false /\ ts_incoming s = None.

Lemma tcp_accept_wired limits a net s : tcp_is limits a s ->
  tcp_is limits a (accept net s).2 /\ forall r, (accept net s).1 = Some r -> wired limits of_tcp r.
Proof.
  intros [Hl Ha]. simpl. unfold tcp_accept. destruct (TcpServer_accept _ _ _) as [answer incoming]. split; [done|].
  intros r Hr. destruct answer as [p|e|]; simplify_eq/=; [|done].
  destruct (TcpAdapter_new _ _ _ _ _) as [[b w]|e|] eqn:Hn; simpl; [|done..]. eapply FreshTcp, Hn.
Qed.
Lemma tcp_run limits a acts s : tcp_is limits a s ->
  Forall (wired limits of_tcp) (server_run tcp_pumps acts s).1 /\ tcp_is limits a (server_run tcp_pumps acts s).2.
Proof.
  apply (@served_run_inv _ tcp_trait _ (fun _ => True) (tcp_is limits a) (wired limits of_tcp));
    try done; try apply finds_all; intros; by edestruct (tcp_accept_wired limits a); eauto.
Qed.

Lemma tcp_run_down acts s : tcp_down s ->
  Forall refused (server_run tcp_pumps acts s).1 /\ tcp_down (server_run tcp_pumps acts s).2.
Proof.
  apply (@served_run_inv _ tcp_trait _ (fun _ => True) tcp_down refused); try done; try apply finds_all.
  - intros net s0 _ [Hl Hi]. simpl. unfold tcp_accept, TcpServer_accept. by rewrite Hi, Hl.
  - intros net s0 r _ [Hl Hi] Hr. simpl in Hr. unfold tcp_accept, TcpServer_accept in Hr. rewrite Hi, Hl in Hr. by simplify_eq/=.
  - intros ls s0 [Hl Hi]. split; [done|]. simpl. by rewrite Hi.
Qed.

(** QUIC *)
Lemma quic_run limits listening acts s : qs_limits s = limits /\ qs_listening s = listening ->
  Forall (wired limits of_quic) (server_run (fun _ s => s) acts s).1 /\
  qs_limits (server_run (fun _ s => s) acts s).2 = limits /\ qs_listening (server_run (fun _ s => s) acts s).2 = listening.
Proof.
  apply (@served_run_inv _ quic_trait _ (fun _ => True) (fun s => qs_limits s = limits /\ qs_listening s = listening) (wired limits of_quic)); try done; try apply finds_all.
  intros net s0 r _ [Hl _] Hr. simpl in Hr. unfold quic_accept in Hr.
  destruct (QuicServer_accept _ _) as [[[t [p|e|]] rest]|]; try discriminate Hr; injection Hr as <-; [|done].
  rewrite <- Hl. apply quic_wired.
Qed.

Lemma quic_run_down acts s : qs_closed s = true ->
  Forall refused (server_run (fun _ s => s) acts s).1 /\ qs_closed (server_run (fun _ s => s) acts s).2 = true.
Proof.
  apply (@served_run_inv _ quic_trait _ (fun _ => True) (fun s => qs_closed s = true) refused); try done; try apply finds_all.
  intros net s0 r _ Hc Hr. simpl in Hr. unfold quic_accept in Hr. rewrite Hc in Hr. by simplify_eq/=.
Qed.
(** WebSocket: the address it has was bound at one of its accepts. *)
Definition websocket_is (P : ws_arrivals -> Prop) (limits : ConnectionLimits) (c : WebSocketServerConfig) (s : websocket_server) : Prop :=
  ws_limits s = limits /\ ws_config s = c /\
  forall a, ws_local s = Some a -> exists net, P net /\ wa_bind net (wsc_bind_address c) = Done a.

Lemma websocket_run (P : ws_arrivals -> Prop) limits c acts s : @finds _ websocket_trait P acts -> websocket_is P limits c s ->
  Forall (wired limits of_websocket) (server_run websocket_pumps acts s).1 /\
  websocket_is P limits c (server_run websocket_pumps acts s).2.
Proof.
  apply (@served_run_inv _ websocket_trait _ P (websocket_is P limits c) (wired limits of_websocket)); try done.
  - intros net s0 HP (Hl & Hc & Ha). simpl. unfold websocket_accept. destruct (WebSocketServer_accept _ _ _) as [answer incoming].
    split_and!; [done..|]. simpl. intros a. destruct (ws_incoming s0); [apply Ha|].
    destruct (wa_bind _ _) eqn:Hb; [|apply Ha..]. intros [= ->]. exists net. by rewrite <- Hc.
  - intros net s0 r _ (Hl & _) Hr. simpl in Hr. unfold websocket_accept in Hr.
    destruct (WebSocketServer_accept _ _ _) as [[p|e|] incoming]; try discriminate Hr; injection Hr as <-; [|done].
    rewrite <- Hl. apply websocket_wired.
  - by intros s0 (Hl & Hc & _).
Qed.

(** No port: no pump, no address. *)
Definition websocket_unbound (c : WebSocketServerConfig) (s : websocket_server) : Prop :=
  ws_config s = c /\ ws_incoming s = None /\ ws_local s = None.
Definition taken (c : WebSocketServerConfig) (e : string) (net : ws_arrivals) : Prop := wa_bind net (wsc_bind_address c) = Throw e.

Lemma unbound_address s : ws_local s = None -> websocket_local_addr s = Throw (WsConfig "Server not bound").
Proof. unfold websocket_local_addr. by intros ->. Qed.

Definition bind_refused (e : string) : TransportError := connection_error ("WebSocket IO error: " +:+ e) true.

Lemma websocket_accept_taken c e (net : @network _ websocket_trait) s : taken c e net -> websocket_unbound c s ->
  (accept net s).1 = Some (Throw (bind_refused e)) /\ websocket_unbound c (accept net s).2.
Proof.
  unfold taken. intros Ht (Hc & Hi & Hl). unfold websocket_unbound. simpl. unfold websocket_accept, WebSocketServer_accept.
  rewrite Hi, Hc, Ht. by split_and!.
Qed.

Lemma websocket_run_taken c e acts s : @finds _ websocket_trait (taken c e) acts -> websocket_unbound c s ->
  (server_run websocket_pumps acts s).1 = replicate (accepts acts) (Throw (bind_refused e)) /\
  websocket_unbound c (server_run websocket_pumps acts s).2.
Proof.
  intros Hf Hs.
  assert (Hshut : forall s, websocket_unbound c s -> websocket_unbound c (shutdown s).2) by (by intros s0 (? & ? & ?)).
  assert (Hpump : forall ls s, websocket_unbound c s -> websocket_unbound c (websocket_pumps ls s)).
  { intros ls s0 (Hc & Hi & Hl). unfold websocket_unbound. simpl. by rewrite Hi. }
  assert (Hkeep := fun net s Ht Hs => proj2 (websocket_accept_taken c e net s Ht Hs)).
  destruct (@served_run_inv _ websocket_trait websocket_pumps (taken c e) (websocket_unbound c)
    (eq (Throw (bind_refused e))) Hkeep) with acts s as [Ha Hu]; try done.
  { intros net s0 r Ht H0 Hr. rewrite (proj1 (websocket_accept_taken c e net s0 Ht H0)) in Hr. congruence. }
  split; [|done]. rewrite <- (@served_run_answers _ websocket_trait websocket_pumps (taken c e) (websocket_unbound c) Hkeep) with (s := s); try done.
  - symmetry. by apply replicate_as_Forall.
  - intros net s0 Ht H0. rewrite (proj1 (websocket_accept_taken c e net s0 Ht H0)). eauto.
Qed.

Lemma tcp_built listen now limits c s : build_server_dyn (ServerConfigDyn := tcp_factory) listen now limits c = Done s ->
  listen (tsc_reuse_addr c) (tsc_bind_address c) = Done (ts_local_addr s) /\ ts_limits s = limits.
Proof.
  simpl. unfold tcp_build_server, tcp_server_build, TcpServerBuilder_build. simpl. intros H.
  exec_inv H. injection H as ->. apply map_err_done in Hm. exec_inv Hm. exec_inv Hm0. apply map_err_done in Hm1.
  destruct (is_tls_enabled c).
  - exec_inv Hm0. destruct r1 as [certs key]. by simplify_eq/=.
  - by simplify_eq/=.
Qed.
Lemma quic_built endpoint now limits c s : build_server_dyn (ServerConfigDyn := quic_factory) endpoint now limits c = Done s ->
  endpoint (qsc_bind_address c) = Done (qsv_address (qs_listening s)) /\ qs_limits s = limits.
Proof.
  simpl. unfold quic_build_server, quic_server_build, QuicServerBuilder_build. simpl. intros H.
  exec_inv H. injection H as ->. apply map_err_done in Hm. exec_inv Hm. exec_inv Hm0. exec_inv Hm0. apply map_err_done in Hm2. by simplify_eq/=.
Qed.

(** C38: a server serves as it was configured, over its whole life: whatever the
    accept loop and the pump do to it, the connections it accepts are made of the
    limits it was built under, and its address is the one the configuration's
    bind address got. Once shut down a TCP or QUIC server accepts nothing more; a
    WebSocket server is then as newly built. *)
Theorem servers_serve_as_configured now limits :
  (forall listen c s acts, build_server_dyn (ServerConfigDyn := tcp_factory) listen now limits c = Done s ->
     let run := server_run tcp_pumps acts s in
     Forall (wired limits of_tcp) run.1 /\
     (exists a, listen (tsc_reuse_addr c) (get_bind_address c) = Done a /\ forall net, local_addr net run.2 = Done a) /\
     forall acts', Forall refused (server_run tcp_pumps acts' (shutdown run.2).2).1) /\
  (forall endpoint c s acts, build_server_dyn (ServerConfigDyn := quic_factory) endpoint now limits c = Done s ->
     let run := server_run (fun _ s => s) acts s in
     Forall (wired limits of_quic) run.1 /\
     endpoint (get_bind_address c) = Done (qsv_address (qs_listening run.2)) /\
     forall acts', Forall refused (server_run (fun _ s => s) acts' (shutdown run.2).2).1) /\
  (forall c s acts, build_server_dyn (ServerConfigDyn := websocket_factory) tt now limits c = Done s ->
     let run := server_run websocket_pumps acts s in
     Forall (wired limits of_websocket) run.1 /\
     (forall net a, local_addr net run.2 = Done a ->
        exists net', SAccept net' ∈ acts /\ wa_bind net' (get_bind_address c) = Done a) /\
     (shutdown run.2).2 = s).
Proof.
  split_and!.
  - intros listen c s acts Hb run. apply tcp_built in Hb as [Hb Hl].
    destruct (tcp_run limits (ts_local_addr s) acts s (conj Hl eq_refl)) as [Hw [_ Ha]]. fold run in Hw, Ha.
    split_and!; [done| |by intros; apply tcp_run_down].
    exists (ts_local_addr s). split; [done|]. intros net. exact (f_equal Done Ha).
  - intros endpoint c s acts Hb run. apply quic_built in Hb as [Hb Hl].
    destruct (quic_run limits (qs_listening s) acts s (conj Hl eq_refl)) as (Hw & _ & Ha). fold run in Hw, Ha.
    split_and!; [done| |by intros; apply quic_run_down]. etransitivity; [exact Hb|]. exact (f_equal (fun l => Done (qsv_address l)) (eq_sym Ha)).
  - intros c s acts Hb run. injection Hb as <-.
    destruct (websocket_run _ limits c acts (mkWebSocketServerObject c limits None None) (finds_own acts)) as [Hw (Hl & Hc & Ha)].
    { by split_and!. }
    fold run in Hw, Hl, Hc, Ha. split_and!; [done| |].
    + intros net a H. change (map_err (fun e => config_error "websocket" (websocket_display e)) (websocket_local_addr run.2) = Done a) in H.
      apply map_err_done in H. unfold websocket_local_addr in H. destruct (ws_local run.2) eqn:E; [|done].
      injection H as <-. by apply Ha.
    + change (mkWebSocketServerObject (ws_config run.2) (ws_limits run.2) None None = mkWebSocketServerObject c limits None None).
      by rewrite Hl, Hc.
Qed.

(** C39: a taken port. It keeps a TCP or QUIC server from being built, so nothing
    starts; a WebSocket server is built all the same, without a port. Each of its
    accepts then fails, whatever else is done to it, with an error the accept loop
    takes for a peer's; the loop goes on, and no address is ever bound. *)
Theorem taken_port_is_taken_for_a_peers_fault now limits e :
  (forall listen c, listen (tsc_reuse_addr c) (get_bind_address c) = Throw e ->
     build_server_dyn (ServerConfigDyn := tcp_factory) listen now limits c =
     Throw (connection_error ("Failed to build TCP server: " +:+ tcp_debug (TcpIo e)) true)) /\
  (forall endpoint e c, endpoint (get_bind_address c) = Throw e ->
     forall s, build_server_dyn (ServerConfigDyn := quic_factory) endpoint now limits c <> Done s) /\
  (forall c e, exists s, build_server_dyn (ServerConfigDyn := websocket_factory) tt now limits c = Done s /\
     forall acts, @finds _ websocket_trait (taken c e) acts ->
       let run := server_run websocket_pumps acts s in
       run.1 = replicate (accepts acts) (Throw (bind_refused e)) /\ peer_fault (bind_refused e) = true /\
       (forall net, local_addr net run.2 = Throw (config_error "websocket" (websocket_display (WsConfig "Server not bound")))) /\
       forall v i, sr_listeners v !! i = Some LWait -> infra_cancelled v = false ->
         listener_step i AcceptErr v = Some (set_listeners (<[i := LWait]> (sr_listeners v)) v)).
Proof.
  split_and!.
  - intros listen c H. simpl. unfold tcp_build_server, tcp_server_build, TcpServerBuilder_build. simpl in *. by rewrite H.
  - intros endpoint e' c H s Hb. apply quic_built in Hb as [Hb _]. simpl in H. congruence.
  - intros c e'. eexists. split; [reflexivity|]. intros acts Hf run.
    destruct (websocket_run_taken c e' acts (mkWebSocketServerObject c limits None None) Hf) as [Hr (_ & _ & Hl)]; [done|].
    split_and!; [exact Hr|done| |].
    + intros net. exact (f_equal (map_err _) (unbound_address _ Hl)).
    + intros v i Hi Hc. unfold listener_step. by rewrite Hi, Hc.
Qed.
End Servers.

(** ** The WebSocket client *)

Section WebSocketClient.
Context `{T : TlsLibrary} (websocket_debug : WebSocketError -> string).
#[local] Instance websocket_client : ClientConfigDyn WebSocketClientConfig := WebSocketClientDyn websocket_debug.

Lemma insert_headers_cons net k v order q q' : insert_headers net ((k, v) :: order) q = Done q' <->
  exists n v', wn_header_name net k = Done n /\ wn_header_value net v = Done v' /\
    insert_headers net order (insert_header n v' q) = Done q'.
Proof.
  simpl. split.
  - intros H. exec_inv H. exec_inv H. apply map_err_done in Hm, Hm0. eauto 6.
  - by intros (n & v' & -> & -> & H).
Qed.

Lemma insert_headers_keeps net order q q' : insert_headers net order q = Done q' ->
  (wq_url q' = wq_url q /\ wq_scheme q' = wq_scheme q) /\ forall x, x ∈ order -> exists n, wn_header_name net x.1 = Done n /\ is_ok (wn_header_value net x.2) = true.
Proof.
  revert q. induction order as [|[k v] order IH]; intros q H.
  - injection H as <-. split; [done|]. intros x Hx. by apply not_elem_of_nil in Hx.
  - apply insert_headers_cons in H as (n & w & Hn & Hw & H). apply IH in H as [Hs Hx]. split; [done|].
    intros x [->|Hin]%elem_of_cons; [|by apply Hx]. exists n. simpl. by rewrite Hw.
Qed.

(** Headers of other names stay; of several of one name the last one stays. *)
Lemma insert_headers_other net order q q' n : insert_headers net order q = Done q' ->
  Forall (fun x => wn_header_name net x.1 <> Done n) order -> wq_headers q' !! n = wq_headers q !! n.
Proof.
  revert q. induction order as [|[k v] order IH]; intros q H Ho; [by injection H as <-|].
  apply insert_headers_cons in H as (n' & w & Hn & Hw & H). apply Forall_cons in Ho as [Hne Ho].
  rewrite (IH _ H Ho). simpl. apply lookup_insert_ne. intros ->. by apply Hne.
Qed.

Lemma insert_headers_last net before k v after q q' : insert_headers net (before ++ (k, v) :: after) q = Done q' ->
  exists n w, wn_header_name net k = Done n /\ wn_header_value net v = Done w /\
    (Forall (fun x => wn_header_name net x.1 <> Done n) after -> wq_headers q' !! n = Some w).
Proof.
  revert q. induction before as [|[k1 v1] before IH]; intros q H; simpl app in H;
    apply insert_headers_cons in H as (n & w & Hn & Hw & H); [|by eapply IH].
  exists n, w. split_and!; [done..|]. intros Ha. rewrite (insert_headers_other _ _ _ _ _ H Ha).
  simpl. by rewrite lookup_insert_eq.
Qed.

(** The request starts as tungstenite makes it of the target; only the headers of
    the configuration and the offer change it. *)
Definition made_of (net : ws_network) (order : list (string * string)) (q0 q : ws_request) : Prop :=
  wq_url q = wq_url q0 /\ wq_scheme q = wq_scheme q0 /\
  forall n, n <> SEC_WEBSOCKET_PROTOCOL -> Forall (fun x => wn_header_name net x.1 <> Done n) order ->
    wq_headers q !! n = wq_headers q0 !! n.

Lemma upgrade_request_done net order c q : upgrade_request net order c = Done q ->
  (exists q0, wn_request net (wcc_target_url c) = Done q0 /\ made_of net order q0 q) /\
  (forall before k v after, order = before ++ (k, v) :: after ->
     exists n w, wn_header_name net k = Done n /\ wn_header_value net v = Done w /\
     (Forall (fun x => wn_header_name net x.1 <> Done n) after ->
      n <> SEC_WEBSOCKET_PROTOCOL \/ wcc_subprotocols c = [] -> wq_headers q !! n = Some w)) /\
  (wcc_subprotocols c <> [] -> exists w, wn_header_value net (String.concat ", " (wcc_subprotocols c)) = Done w /\
     wq_headers q !! SEC_WEBSOCKET_PROTOCOL = Some w).
Proof.
  intros H. unfold upgrade_request in H. exec_inv H. exec_inv H. apply map_err_done in Hm.
  pose proof (insert_headers_keeps _ _ _ _ Hm0) as [[Hu Hs] _].
  pose proof (fun n => insert_headers_other _ _ _ _ n Hm0) as Hother.
  assert (Hlast : forall before k v after, order = before ++ (k, v) :: after ->
    exists n w, wn_header_name net k = Done n /\ wn_header_value net v = Done w /\
    (Forall (fun x => wn_header_name net x.1 <> Done n) after -> wq_headers r0 !! n = Some w)).
  { intros before k v after ->. by eapply insert_headers_last. }
  unfold offer_subprotocols, subprotocol_offer in H. destruct (decide (wcc_subprotocols c = [])) as [He|He].
  - injection H as <-. split_and!; [by (exists r; unfold made_of; split_and!; auto)| |done]. intros before k v after Hk.
    destruct (Hlast _ _ _ _ Hk) as (n & w & ? & ? & ?). exists n, w. by split_and!; auto.
  - exec_inv H. apply map_err_done in Hm1. injection H as <-. split_and!.
    + exists r. unfold made_of. split_and!; try done. intros n Hn Ho. simpl. rewrite lookup_insert_ne by done. by apply Hother.
    + intros before k v after Hk. destruct (Hlast _ _ _ _ Hk) as (n & w & ? & ? & Hl).
      exists n, w. split_and!; [done..|]. intros Ha [Hne|?]; [|done]. simpl. rewrite lookup_insert_ne by done. by apply Hl.
    + intros _. exists r1. split; [done|]. simpl. by rewrite lookup_insert_eq.
Qed.

(** A TLS connection tungstenite makes presented a certificate its verifier
    accepted for the host of the request. *)
Definition ws_verifies (net : ws_network) (host : ws_request -> string) : Prop :=
  forall q caps v t st, wn_connect net q caps (Some v) = (t, Done st) ->
    exists der, wst_certificate st = Some der /\ verify_server_cert v (host q) der = Done tt.

Lemma websocket_connect_done net order now limits c t conn :
  build_connection_dyn (net, order) now limits c = (t, Done conn) ->
  exists q connector t' stream, upgrade_request net order c = Done q /\ connector_of c q = Done connector /\
    wn_connect net q (ws_protocol_config (decode limits)) connector = (t', Done stream) /\ t = now + t' /\
    (0 < wcc_connect_timeout c -> t' <= wcc_connect_timeout c) /\
    conn = WebSocketAdapter_new t (wst_socket stream) (inr c) limits.
Proof.
  simpl. unfold WebSocketClientBuilder_connect. simpl.
  destruct (upgrade_request net order c) as [q| |]; [|done..]. simpl.
  destruct (connector_of c q) as [connector| |] eqn:Hco; [|done..]. simpl.
  destruct (wn_connect _ _ _ _) as [t1 r] eqn:Hc. unfold timeout_at. simpl.
  zcase; [zcase|]; destruct r as [stream| |]; simpl; try done; intros [= <- <-]; exists q, connector, t1, stream;
    split_and!; first [done|lia|f_equal; lia].
Qed.

(** The roots of a custom CA are the anchors of its certificates, in order. *)
Lemma add_roots_done {E} (refused : string -> E) certs : forall roots roots',
  add_roots refused roots certs = Done roots' ->
  exists anchors, roots' = roots ++ anchors /\ Forall2 (fun cert a => root_of cert = Done a) certs anchors.
Proof.
  induction certs as [|cert certs IH]; intros roots roots' H; simpl in H.
  - injection H as <-. exists []. by rewrite app_nil_r.
  - exec_inv H. apply map_err_done in Hm. apply IH in H as (anchors & -> & Ha).
    exists (r :: anchors). split; [by rewrite <- app_assoc|by constructor].
Qed.

(** The roots a configuration asks to verify against. *)
Definition configured_roots (tls : ClientTls) (roots : list Anchor) : Prop :=
  match tls with
  | SystemRoots => roots = TLS_SERVER_ROOTS
  | CustomCa pem => exists certs, pem_certs pem = Done certs /\ certs <> [] /\
      Forall2 (fun cert a => root_of cert = Done a) certs roots
  | Insecure => True
  end.

(** Only a configuration that says so skips the verification. *)
Lemma connector_verifies tls v host der : build_tls_connector tls = Done v -> tls <> Insecure ->
  verify_server_cert v host der = Done tt ->
  exists roots, webpki_verify roots host der = Done tt /\ configured_roots tls roots.
Proof.
  intros Hb Hi Hv. destruct tls as [|pem|]; [| |done]; simpl in Hb.
  - exec_inv Hb. injection Hb as <-. by exists TLS_SERVER_ROOTS.
  - exec_inv Hb. apply map_err_done in Hm. destruct (decide (r = [])) as [|Hne]; [done|].
    exec_inv Hb. exec_inv Hb. injection Hb as <-. apply add_roots_done in Hm0 as (anchors & -> & Ha).
    exists anchors. split; [done|]. by exists r.
Qed.

(** C37: a WebSocket client connects as its configuration says: to the target,
    with the configuration's headers in the request, whatever order the map gives them in
    (of several whose names are the same header, the last in that order), but for
    a configured [Sec-WebSocket-Protocol], which the offer of subprotocols, if
    there is one, replaces; with the connection's own largest frame as
    tungstenite's caps, within a positive connect timeout, the adapter made of the
    limits. Over [wss] the peer presented a certificate that verifies against the
    configured roots (the system's, or exactly the anchors of the configured CA's
    certificates), unless verification is switched off; otherwise no TLS is set
    up. *)
Theorem websocket_client_connects_as_configured net host order now limits c t conn :
  order ≡ₚ map_to_list (wcc_headers c) -> ws_verifies net host ->
  build_connection_dyn (net, order) now limits c = (t, Done conn) ->
  exists q connector stream,
    wn_connect net q (mkWsCaps (Some (max_frame_size (decode limits))) (Some (max_frame_size (decode limits)))) connector
      = (t - now, Done stream) /\
    (0 < wcc_connect_timeout c -> t <= now + wcc_connect_timeout c) /\
    fresh_adapter limits (ws_adapter conn.1) conn.2 /\
    (exists q0, wn_request net (wcc_target_url c) = Done q0 /\ made_of net order q0 q) /\
    (forall k v, wcc_headers c !! k = Some v -> exists before after n w, order = before ++ (k, v) :: after /\
       wn_header_name net k = Done n /\ wn_header_value net v = Done w /\
       (Forall (fun x => wn_header_name net x.1 <> Done n) after ->
        n <> SEC_WEBSOCKET_PROTOCOL \/ wcc_subprotocols c = [] -> wq_headers q !! n = Some w)) /\
    (wcc_subprotocols c <> [] -> exists w, wn_header_value net (String.concat ", " (wcc_subprotocols c)) = Done w /\
       wq_headers q !! SEC_WEBSOCKET_PROTOCOL = Some w) /\
    (wq_scheme q <> Some "wss" -> connector = None) /\
    (wq_scheme q = Some "wss" -> wcc_tls c <> Insecure -> exists roots der, wst_certificate stream = Some der /\
       webpki_verify roots (host q) der = Done tt /\ configured_roots (wcc_tls c) roots).
Proof.
  intros Hp Hv Hb. destruct (websocket_connect_done _ _ _ _ _ _ _ Hb) as (q & connector & t' & stream & Hq & Hco & Hc & -> & Ht & ->).
  destruct (upgrade_request_done _ _ _ _ Hq) as (Hr & Hh & Ho).
  exists q, connector, stream. unfold connector_of in Hco.
  split_and!; try done.
  - by replace (now + t' - now) with t' by lia.
  - lia.
  - exact (websocket_wired (now + t') (wst_socket stream) (inr c) limits).
  - intros k v Hk. assert (Hin : (k, v) ∈ order) by (by rewrite Hp, elem_of_map_to_list).
    apply list_elem_of_split in Hin as (before & after & Hin).
    destruct (Hh _ _ _ _ Hin) as (n & w & ? & ? & ?). exists before, after, n, w. by split_and!.
  - intros Hs. rewrite decide_False in Hco by done. congruence.
  - intros Hs Hi. rewrite decide_True in Hco by done. exec_inv Hco. injection Hco as <-.
    destruct (Hv _ _ _ _ _ Hc) as (der & Hder & Hver).
    destruct (connector_verifies _ _ _ _ Hm Hi Hver) as (roots & Hw & Hroots). exists roots, der. by split_and!.
Qed.

(** A plain connection does not look at the TLS settings. *)
Lemma plain_connection_ignores_tls net order now limits c tls q0 :
  wn_request net (wcc_target_url c) = Done q0 -> wq_scheme q0 <> Some "wss" ->
  build_connection_dyn (net, order) now limits (WebSocketClientConfig_tls tls c) = build_connection_dyn (net, order) now limits c.
Proof.
  intros Hq Hs. simpl. unfold WebSocketClientBuilder_connect. simpl. unfold upgrade_request. simpl. rewrite Hq. simpl.
  destruct (insert_headers net order q0) as [q| |] eqn:Hi; [|done..]. simpl.
  apply insert_headers_keeps in Hi as [[_ Hsch] _]. change (offer_subprotocols net (WebSocketClientConfig_tls tls c) q) with (offer_subprotocols net c q).
  destruct (offer_subprotocols net c q) as [q1| |] eqn:Ho; [|done..]. simpl.
  assert (Hs1 : wq_scheme q1 <> Some "wss").
  { unfold offer_subprotocols in Ho. destruct (subprotocol_offer _); [exec_inv Ho|]; injection Ho as <-; simpl; congruence. }
  unfold connector_of. by rewrite !decide_False.
Qed.

(** Every failure is retried, the ones the configuration alone decides too. *)
Lemma websocket_failures_are_retried net order now limits c t e :
  build_connection_dyn (net, order) now limits c = (t, Throw e) -> is_retryable e = true.
Proof.
  simpl. destruct (WebSocketClientBuilder_connect _ _ _ _) as [t1 [?|?|]]; simpl; try done. by intros [= _ <-].
Qed.
End WebSocketClient.

(** ** The offer of subprotocols

    What a client offers is what the server reads. *)

Lemma split_comma_last w : ","%char ∉ w -> split_comma w = [w].
Proof.
  induction w as [|c w IH]; [done|]. intros H. simpl. rewrite decide_False by set_solver. by rewrite IH by set_solver.
Qed.
Lemma split_comma_app w rest : ","%char ∉ w -> split_comma (w ++ ","%char :: rest) = w :: split_comma rest.
Proof.
  induction w as [|c w IH]; [done|]. intros H. simpl. rewrite decide_False by set_solver. by rewrite IH by set_solver.
Qed.

(** A name without commas, and without blanks at its ends. *)
Definition plain_name (s : string) : Prop :=
  let w := String.list_ascii_of_string s in ","%char ∉ w /\ trim w = w.

Lemma list_of_app a b : String.list_ascii_of_string (a +:+ b) = String.list_ascii_of_string a ++ String.list_ascii_of_string b.
Proof. induction a as [|c a IH]; [done|]. simpl. by rewrite IH. Qed.

Lemma offered_protocols_offer s l : Forall plain_name (s :: l) -> offered_protocols (String.concat ", " (s :: l)) = s :: l.
Proof.
  unfold offered_protocols.
  assert (Hgen : forall s l, Forall plain_name (s :: l) -> forall pre, pre = [] \/ pre = [" "%char] ->
    String.string_of_list_ascii <$> (trim <$> split_comma (pre ++ String.list_ascii_of_string (String.concat ", " (s :: l)))) = s :: l).
  { clear. intros s l. revert s. induction l as [|s' l IH]; intros s [[Hc Ht] Hl]%Forall_cons pre Hpre.
    - change (String.concat ", " [s]) with s. rewrite split_comma_last by (destruct Hpre as [->| ->]; set_solver). simpl.
      assert (trim (pre ++ String.list_ascii_of_string s) = String.list_ascii_of_string s) as -> by (by destruct Hpre as [->| ->]).
      by rewrite String.string_of_list_ascii_of_string.
    - change (String.concat ", " (s :: s' :: l)) with (s +:+ (", " +:+ String.concat ", " (s' :: l))).
      rewrite list_of_app, app_assoc. simpl (String.list_ascii_of_string (", " +:+ _)).
      rewrite split_comma_app by (destruct Hpre as [->| ->]; set_solver). rewrite !fmap_cons. f_equal.
      + assert (trim (pre ++ String.list_ascii_of_string s) = String.list_ascii_of_string s) as -> by (by destruct Hpre as [->| ->]).
        by rewrite String.string_of_list_ascii_of_string.
      + apply (IH s' Hl [" "%char]). by right. }
  intros H. apply (Hgen s l H []). by left.
Qed.

(** A server answers the offer of a client with the first name it supports. *)
Lemma offer_answered path supported l : l <> [] -> Forall plain_name l ->
  ws_upgrade path path supported (subprotocol_offer l) (fun _ => true) =
  Upgraded (List.find (fun o => bool_decide (o ∈ supported)) l).
Proof.
  intros Hne Hl. unfold ws_upgrade, subprotocol_offer. rewrite bool_decide_true, decide_False by done.
  destruct l as [|s l]; [done|]. pose proof (offered_protocols_offer s l Hl) as Ho. revert Ho.
  generalize (String.concat ", " (s :: l)). intros h Ho. cbn -[offered_protocols List.find]. rewrite Ho. f_equal.
  assert (Hfind : forall l, List.find (fun o => existsb (fun sp => String.eqb sp o) supported) l
                     = List.find (fun o => bool_decide (o ∈ supported)) l).
  { clear. intros l. induction l as [|o l IH]; [done|]. simpl.
    assert (existsb (fun sp => String.eqb sp o) supported = bool_decide (o ∈ supported)) as ->; [|by rewrite IH].
    apply Bool.eq_iff_eq_true. rewrite existsb_exists, bool_decide_eq_true. setoid_rewrite <- list_elem_of_In.
    setoid_rewrite String.eqb_eq. naive_solver. }
  rewrite Hfind. by destruct (List.find _ _).
Qed.

(** ** Concrete endpoints *)

Definition shown {E} : E -> string := fun _ => "...".
Definition tcp_peer : tcp_arrivals := mkTcpArrivals 0 (Some (Done 0%nat)) (fun _ => sample_socket).
Definition ws_peer : ws_arrivals := mkWsArrivals 0 Done (fun _ => Some sample_socket).
#[local] Instance sample_tcp_server : Server tcp_server := TcpServerWrapper shown shown.
#[local] Instance sample_websocket_server : Server websocket_server := WebSocketServerWrapper shown.
Definition tcp_acts : list (server_act tcp_server) := [@SAccept _ sample_tcp_server tcp_peer].
(** The first accept binds and waits; a peer connects meanwhile. *)
Definition ws_acts : list (server_act websocket_server) :=
  [@SAccept _ sample_websocket_server ws_peer; SPump [Arrive 0; HandshakeDone 0 true]; @SAccept _ sample_websocket_server ws_peer].

Definition served_ok {A} (f : A -> adapter * wiring) (limits : ConnectionLimits) (answers : list (exec TransportError A)) : Prop :=
  match answers with [Done c] => fresh_adapter limits (f c).1 (f c).2 | _ => False end.

Lemma servers_witness :
  (exists s, build_server_dyn (ServerConfigDyn := TcpServerDyn (T := sample_tls) shown shown) (fun _ => Done) 0 ConnectionLimits_default
       TcpServerConfig_default = Done s /\
     served_ok of_tcp ConnectionLimits_default (server_run tcp_pumps tcp_acts s).1 /\
     Forall refused (server_run tcp_pumps tcp_acts (shutdown (server_run tcp_pumps tcp_acts s).2).2).1) /\
  (exists s, build_server_dyn (ServerConfigDyn := WebSocketServerDyn shown shown) tt 0 ConnectionLimits_default
       WebSocketServerConfig_default = Done s /\
     served_ok of_websocket ConnectionLimits_default (server_run websocket_pumps ws_acts s).1 /\
     @local_addr _ sample_websocket_server ws_peer (server_run websocket_pumps ws_acts s).2 = Done (SocketV4 127 0 0 1 8080)).
Proof.
  destruct (servers_serve_as_configured shown shown shown shown shown shown 0 ConnectionLimits_default) as (Htcp & _ & Hws).
  split.
  - destruct (build_server_dyn _ _ _ _) as [s| |] eqn:Hb; [|discriminate Hb..]. exists s. split; [reflexivity|].
    destruct (Htcp (fun _ => Done) TcpServerConfig_default s tcp_acts Hb) as (Hw & _ & Hd).
    split; [|exact (Hd tcp_acts)]. injection Hb as <-. exact (Forall_inv Hw).
  - destruct (build_server_dyn _ _ _ _) as [s| |] eqn:Hb; [|discriminate Hb..]. exists s. split; [reflexivity|].
    destruct (Hws WebSocketServerConfig_default s ws_acts Hb) as (Hw & _ & _).
    injection Hb as <-. split; [exact (Forall_inv Hw)|reflexivity].
Defined.

(** Two accepts on a taken port, with a shutdown in between. *)
Definition no_port : ws_arrivals := mkWsArrivals 0 (fun _ => Throw "Address already in use (os error 98)") (fun _ => None).
Definition taken_acts : list (server_act websocket_server) :=
  [@SAccept _ sample_websocket_server no_port; SShutdown; @SAccept _ sample_websocket_server no_port].

Lemma taken_port_witness :
  build_server_dyn (ServerConfigDyn := TcpServerDyn (T := sample_tls) shown shown)
    (fun _ _ => Throw (mkIo IoOther "Address already in use (os error 98)")) 0 ConnectionLimits_default TcpServerConfig_default
    = Throw (connection_error "Failed to build TCP server: ..." true) /\
  exists s, build_server_dyn (ServerConfigDyn := WebSocketServerDyn shown shown) tt 0 ConnectionLimits_default
       WebSocketServerConfig_default = Done s /\
     (server_run websocket_pumps taken_acts s).1 =
       replicate 2 (Throw (connection_error "WebSocket IO error: Address already in use (os error 98)" true)).
Proof.
  destruct (taken_port_is_taken_for_a_peers_fault (T := sample_tls) (Q := sample_quinn) shown shown shown shown shown shown 0
    ConnectionLimits_default (mkIo IoOther "Address already in use (os error 98)")) as (Htcp & _ & Hws).
  split; [apply Htcp; reflexivity|].
  destruct (Hws WebSocketServerConfig_default "Address already in use (os error 98)") as (s & Hb & H).
  exists s. split; [exact Hb|]. destruct (H taken_acts) as (Hr & _); [|exact Hr].
  repeat constructor.
Defined.

(** A server behind [wss], whose certificate the configured roots verify. *)
Definition sample_ws (der : bytes) : ws_network := {|
  wn_request url := Done (mkWsRequest url (if String.prefix "wss://" url then Some "wss" else Some "ws") {["host" := "example.com"]});
  wn_header_name := Done;
  wn_header_value := Done;
  wn_connect _ _ connector :=
    match connector with
    | Some v => match verify_server_cert v "example.com" der with
                | Done _ => (7, Done (mkWsStream (Some der) (Some sample_socket)))
                | _ => (7, Throw "TLS error")
                end
    | None => (3, Done (mkWsStream None (Some sample_socket)))
    end
|}.
Definition sample_ws_client : WebSocketClientConfig :=
  WebSocketClientConfig_header "x-room" "7" (WebSocketClientConfig_target_url "wss://example.com/" WebSocketClientConfig_default).

Lemma websocket_client_witness :
  exists t conn q connector stream,
    build_connection_dyn (ClientConfigDyn := WebSocketClientDyn shown) (sample_ws [1], [("x-room", "7")]) 0 ConnectionLimits_default
      sample_ws_client = (t, Done conn) /\
    wn_connect (sample_ws [1]) q (ws_protocol_config (decode ConnectionLimits_default)) connector = (t - 0, Done stream) /\
    t <= from_secs 10 /\ wq_headers q !! "x-room" = Some "7" /\
    fresh_adapter ConnectionLimits_default (ws_adapter conn.1) conn.2.
Proof.
  destruct (build_connection_dyn (ClientConfigDyn := WebSocketClientDyn shown) (sample_ws [1], [("x-room", "7")]) 0 ConnectionLimits_default
    sample_ws_client) as [t [conn| |]] eqn:Hb; [|discriminate Hb..].
  destruct (websocket_client_connects_as_configured shown (sample_ws [1]) (fun _ => "example.com") [("x-room", "7")] 0
    ConnectionLimits_default sample_ws_client t conn) as (q & connector & stream & Hc & Ht & Hf & _ & Hh & _).
  - by vm_compute.
  - intros q caps v t' st Hc. simpl in Hc. destruct (verify_server_cert v _ _) as [[]| |] eqn:Hv; simplify_eq/=. eauto.
  - exact Hb.
  - exists t, conn, q, connector, stream. split_and!; [reflexivity|exact Hc| | |exact Hf].
    + apply Ht. reflexivity.
    + destruct (Hh "x-room" "7" eq_refl) as ([|? []] & after & n & w & [= <-] & [= <-] & [= <-] & Hl).
      apply Hl; [constructor|]. left. discriminate.
Defined.
