(* ===== verification/Dial.v ===== *)
(** * Dialling: the retry loop of [client.rs] over the clients' own attempts

    [connect_with_stored_config] calls [build_connection_dyn] and sleeps between
    the attempts; each attempt is bounded by the configuration's connect timeout.
    Here both run on one clock. The network may answer each attempt differently.
    Times are nanoseconds. *)

From Stdlib Require Import SpecFloat.
From S2P Require Import Prelude Packet Errors Limits Events Writes Transport Retry Client Adapters Quic WebSocket Config Tls TlsProps Accept Connections Endpoints EndpointsProps.

(** ** The loop and its clock *)

Section Dial.
Context (powi : f64 -> Z -> f64) {A : Type} (attempt : nat -> Z -> future TransportError A) (c : RetryConfig) (now : Z).

(** When the [n]-th attempt starts: the one before has ended and its delay has
    been slept. *)
Fixpoint start_of (n : nat) : Z :=
  match n with
  | O => now
  | S m => fst (attempt m (start_of m)) + match calculate_retry_delay powi c n with Done d => d | _ => 0 end
  end.
Definition outcome_of (n : nat) : exec TransportError A := snd (attempt n (start_of n)).

(** As many delays as there were attempts before the last one. *)
Definition dial (validated : exec string unit) : future TransportError A :=
  let '(slept, r) := connect_with_stored_config powi c validated outcome_of in
  (match validated with Done _ => fst (attempt (length slept) (start_of (length slept))) | _ => now end, r).

(** Within its time, with the outcome of the first attempt that is final. *)
Definition dialled (budget cap : Z) (result : future TransportError A) : Prop :=
  now <= fst result <= now + Z.of_nat (S (max_retries c)) * budget + Z.of_nat (max_retries c) * cap /\
  exists k, (k <= max_retries c)%nat /\ result = attempt k (start_of k) /\
    (forall i, (i < k)%nat -> exists e, outcome_of i = Throw e /\ is_retryable e = true) /\
    ((k < max_retries c)%nat -> forall e, outcome_of k = Throw e -> is_retryable e = false).

Context (budget cap : Z).
Hypothesis max_delay_ok : 0 <= max_delay c <= 2 ^ 60 * NANOS_PER_SEC.
Hypothesis cap_ok : from_secs_f64 (as_secs_f64 (max_delay c)) = Done cap.
Hypothesis attempt_ends : forall n s, s <= fst (attempt n s) <= s + budget.

Lemma start_bounds n : now <= start_of n <= now + Z.of_nat n * (budget + cap).
Proof.
  induction n as [|n IH]; [simpl; lia|].
  destruct (calculate_retry_delay_capped powi c (S n) cap max_delay_ok cap_ok) as (d & Hd & Hc).
  cbn [start_of]. rewrite Hd. pose proof (attempt_ends n (start_of n)). lia.
Qed.

Lemma dial_ends : dialled budget cap (dial (Done tt)).
Proof.
  pose proof (connect_returns_the_first_final_outcome powi c outcome_of cap max_delay_ok cap_ok) as H. unfold dial.
  destruct (connect_with_stored_config _ _ _ _) as [slept r]. destruct H as (_ & k & Hk & -> & Hl & Hbefore & Hfinal).
  subst k. split.
  - simpl. pose proof (start_bounds (length slept)). pose proof (attempt_ends (length slept) (start_of (length slept))).
    destruct (calculate_retry_delay_capped powi c 1 cap max_delay_ok cap_ok) as (d & _ & Hc).
    assert (0 <= budget) by lia. nia.
  - exists (length slept). split_and!; [done| |done|done].
    unfold outcome_of. by destruct (attempt _ _).
Qed.
End Dial.

(** ** An attempt ends within the connect timeout *)

Lemma timeout_at_bounds {E B} (elapsed : E) deadline now (f : future E B) : now <= deadline -> 0 <= fst f ->
  now <= fst (timeout_at elapsed deadline now f) <= deadline.
Proof. intros Hd Hf. unfold timeout_at. zcase; simpl; lia. Qed.

Section Attempts.
Context `{T : TlsLibrary} `{Q : Quinn}.

(** Nothing takes less than no time. *)
Definition tcp_elapses (net : tcp_network) : Prop :=
  (forall a, 0 <= fst (tn_connect net a)) /\ (forall v name, 0 <= fst (tn_handshake net v name)).
Definition ws_elapses (net : ws_network) : Prop := forall q caps v, 0 <= fst (wn_connect net q caps v).
Definition quic_elapses (net : quic_network) : Prop := forall setup name, 0 <= fst (qn_handshake net setup name).

Lemma tls_handshake_elapses net c : tcp_elapses net -> 0 <= fst (client_tls_handshake net c).
Proof.
  intros [_ Hh]. unfold client_tls_handshake.
  destruct (_ ← _; _) as [v| |]; [|done..]. set (name := default _ _). specialize (Hh v name).
  by destruct (tn_handshake net v name).
Qed.

Lemma tcp_attempt_ends net now addr c : tcp_elapses net -> 0 < tcc_connect_timeout c ->
  now <= fst (TcpAdapter_connect net now addr c) <= now + tcc_connect_timeout c.
Proof.
  intros He Ht. unfold TcpAdapter_connect, instant_add. rewrite (proj2 (Z.eqb_neq _ 0)) by lia.
  destruct (now + tcc_connect_timeout c <? _); [|simpl; lia]. cbn [fmap exec_fmap exec_bind mbind mret].
  set (connect := match tcc_local_bind_address c with Some _ => _ | None => _ end).
  assert (Hc : 0 <= fst connect).
  { subst connect. destruct (tcc_local_bind_address c); [|apply He].
    destruct (_ ← _; _) as [[]| |]; [apply He|done..]. }
  simpl.
  pose proof (timeout_at_bounds TcpTimeout (now + tcc_connect_timeout c) now (fst connect, map_err TcpIo (snd connect)) ltac:(lia) Hc) as H1.
  destruct (timeout_at _ _ _ _) as [t1 r1]. simpl in H1. destruct r1 as [[]| |]; [|done..].
  destruct (tcp_client_is_tls_enabled c); [|done].
  pose proof (timeout_at_bounds TcpTimeout (now + tcc_connect_timeout c) t1 (client_tls_handshake net c) ltac:(lia) (tls_handshake_elapses net c He)) as H2.
  destruct (timeout_at _ _ _ _) as [t2 r2]. simpl in *. lia.
Qed.
Lemma tcp_client_ends debug net now limits c : tcp_elapses (tp_network net) -> 0 < tcc_connect_timeout c ->
  let f := build_connection_dyn (ClientConfigDyn := TcpClientDyn debug) net now limits c in
  now <= fst f <= now + tcc_connect_timeout c /\
  forall t m, TcpAdapter_connect (without_setup (tp_network net)) now (tcc_target_address c) c = (t, Throw (TcpTlsRejected m)) ->
    exists e, snd f = Throw e /\ is_retryable e = false.
Proof.
  intros He Ht. pose proof (tcp_attempt_ends (without_setup (tp_network net)) now (tcc_target_address c) c He Ht) as H.
  simpl. unfold TcpClientBuilder_connect. simpl.
  destruct (TcpAdapter_connect _ _ _ _) as [t r]. split; [exact H|]. intros t' m [= <- ->]. simpl. eauto.
Qed.

Lemma websocket_client_ends debug net order now limits c : ws_elapses net -> 0 < wcc_connect_timeout c ->
  now <= fst (build_connection_dyn (ClientConfigDyn := WebSocketClientDyn debug) (net, order) now limits c)
    <= now + wcc_connect_timeout c.
Proof.
  intros He Ht. simpl. unfold WebSocketClientBuilder_connect. simpl.
  destruct (_ ← upgrade_request _ _ _; _) as [[q v]| |]; [|simpl; lia..].
  specialize (He q (ws_protocol_config (decode limits)) v). destruct (wn_connect _ _ _ _) as [t r]. simpl in He.
  rewrite (proj2 (Z.ltb_lt 0 _)) by lia.
  pose proof (timeout_at_bounds (WsConfig "WebSocket connect timeout") (wcc_connect_timeout c) 0
    (t, map_err Tungstenite r) ltac:(lia) ltac:(simpl; lia)) as H.
  destruct (timeout_at _ _ _ _). simpl in *. lia.
Qed.

Lemma quic_attempt_ends net addr c : quic_elapses net -> 0 <= qcc_connect_timeout c ->
  0 <= fst (QuicAdapter_connect net addr c) <= qcc_connect_timeout c.
Proof.
  intros He Ht. unfold QuicAdapter_connect.
  destruct (_ ← configure_client_with_config _; _) as [[setup name]| |]; [|simpl; lia..].
  specialize (He setup name). destruct (qn_handshake _ _ _) as [t r]. simpl in He.
  pose proof (timeout_at_bounds (QeConfig ("Connection timeout after " +:+ nanos_debug (qcc_connect_timeout c))) (qcc_connect_timeout c) 0
    (t, map_err QeConnection r) ltac:(lia) ltac:(simpl; lia)) as H.
  destruct (timeout_at _ _ _ _). simpl in *. lia.
Qed.

Lemma quic_client_ends debug net now limits c : quic_elapses (qp_network net) -> 0 <= qcc_connect_timeout c ->
  let f := build_connection_dyn (ClientConfigDyn := QuicClientDyn debug) net now limits c in
  now <= fst f <= now + qcc_connect_timeout c /\
  forall t e, QuicAdapter_connect (qp_network net) (qcc_target_address c) c = (t, Throw e) -> is_tls_rejection e = true ->
    exists e', snd f = Throw e' /\ is_retryable e' = false.
Proof.
  intros He Ht. pose proof (quic_attempt_ends (qp_network net) (qcc_target_address c) c He Ht) as H.
  simpl. unfold QuicClientBuilder_connect. simpl. destruct (QuicAdapter_connect _ _ _) as [t r]. simpl in *.
  split; [lia|]. intros t' e [= <- ->] Hr. simpl. rewrite Hr. eauto.
Qed.
End Attempts.

(** ** Dialling *)

Section Dialling.
Context `{T : TlsLibrary} `{Q : Quinn} (powi : f64 -> Z -> f64).
Context (tcp_debug : TcpError -> string) (websocket_debug : WebSocketError -> string) (quic_debug : QuicError -> string).

(** A TLS refusal that an attempt meets is the end: no later attempt is made. *)
Lemma refusal_is_final {A} (attempt : nat -> Z -> future TransportError A) c now k i e :
  (forall i, (i < k)%nat -> exists e, outcome_of powi attempt c now i = Throw e /\ is_retryable e = true) ->
  outcome_of powi attempt c now i = Throw e -> is_retryable e = false -> (k <= i)%nat.
Proof.
  intros Hb Hi He. destruct (decide (i < k)%nat) as [Hlt|]; [|lia]. destruct (Hb i Hlt) as (e' & Hi' & He'). congruence.
Qed.

Lemma websocket_error_retried debug net now limits c e :
  snd (build_connection_dyn (ClientConfigDyn := WebSocketClientDyn debug) net now limits c) = Throw e -> is_retryable e = true.
Proof.
  destruct net as [w order]. destruct (build_connection_dyn _ _ _ _) as [t r] eqn:Hb. simpl. intros ->.
  by eapply websocket_failures_are_retried.
Qed.

(** C29: connecting ends. Whatever the network answers and however long it takes,
    the retry loop over a TCP, WebSocket or QUIC client is done within its
    attempts' connect timeouts and its capped delays, with the outcome of the first
    attempt that is not a retryable failure, or of the last. A peer refused by TLS
    ends it at once on TCP and QUIC; on WebSocket no failure does. *)
Theorem connecting_ends_in_time c cap now limits :
  0 <= max_delay c <= 2 ^ 60 * NANOS_PER_SEC -> from_secs_f64 (as_secs_f64 (max_delay c)) = Done cap ->
  (forall (net : nat -> tcp_peers) cfg, (forall n, tcp_elapses (tp_network (net n))) -> 0 < tcc_connect_timeout cfg ->
     let attempt n s := build_connection_dyn (ClientConfigDyn := TcpClientDyn tcp_debug) (net n) s limits cfg in
     let result := dial powi attempt c now (Done tt) in
     dialled powi attempt c now (tcc_connect_timeout cfg) cap result /\
     forall i t m, TcpAdapter_connect (without_setup (tp_network (net i))) (start_of powi attempt c now i) (tcc_target_address cfg) cfg
         = (t, Throw (TcpTlsRejected m)) -> exists k, (k <= i)%nat /\ result = attempt k (start_of powi attempt c now k)) /\
  (forall (net : nat -> ws_network * list (string * string)) cfg, (forall n, ws_elapses (net n).1) -> 0 < wcc_connect_timeout cfg ->
     let attempt n s := build_connection_dyn (ClientConfigDyn := WebSocketClientDyn websocket_debug) (net n) s limits cfg in
     let result := dial powi attempt c now (Done tt) in
     dialled powi attempt c now (wcc_connect_timeout cfg) cap result /\
     forall e, snd result = Throw e -> result = attempt (max_retries c) (start_of powi attempt c now (max_retries c))) /\
  (forall (net : nat -> quic_peers) cfg, (forall n, quic_elapses (qp_network (net n))) -> 0 <= qcc_connect_timeout cfg ->
     let attempt n s := build_connection_dyn (ClientConfigDyn := QuicClientDyn quic_debug) (net n) s limits cfg in
     let result := dial powi attempt c now (Done tt) in
     dialled powi attempt c now (qcc_connect_timeout cfg) cap result /\
     forall i t e, QuicAdapter_connect (qp_network (net i)) (qcc_target_address cfg) cfg = (t, Throw e) -> is_tls_rejection e = true ->
       exists k, (k <= i)%nat /\ result = attempt k (start_of powi attempt c now k)).
Proof.
  intros Hd Hcap. split_and!.
  - intros net cfg He Ht attempt result.
    assert (Hends := fun n s => tcp_client_ends tcp_debug (net n) s limits cfg (He n) Ht).
    assert (Hdial : dialled powi attempt c now (tcc_connect_timeout cfg) cap result) by (apply dial_ends; [done..|]; intros; apply Hends).
    split; [done|]. destruct Hdial as (_ & k & _ & Hk & Hb & _). intros i t m Hi.
    destruct (proj2 (Hends i _) t m Hi) as (e & Hs & Hr). exists k. split; [|done]. by eapply refusal_is_final.
  - intros net cfg He Ht attempt result.
    assert (Hdial : dialled powi attempt c now (wcc_connect_timeout cfg) cap result).
    { apply dial_ends; [done..|]. intros n s. subst attempt. cbv beta. specialize (He n). destruct (net n) as [w order].
      by apply websocket_client_ends. }
    split; [done|]. destruct Hdial as (_ & k & Hk & Hres & _ & Hf). intros e Hr.
    assert (Ho : outcome_of powi attempt c now k = Throw e) by (unfold outcome_of; by rewrite <- Hres).
    destruct (decide (k < max_retries c)%nat) as [Hlt|]; [|by replace (max_retries c) with k by lia].
    specialize (Hf Hlt e Ho). by rewrite (websocket_error_retried _ _ _ _ _ _ Ho) in Hf.
  - intros net cfg He Ht attempt result.
    assert (Hends := fun n s => quic_client_ends quic_debug (net n) s limits cfg (He n) Ht).
    assert (Hdial : dialled powi attempt c now (qcc_connect_timeout cfg) cap result) by (apply dial_ends; [done..|]; intros; apply Hends).
    split; [done|]. destruct Hdial as (_ & k & _ & Hk & Hb & _). intros i t e Hi Hrej.
    destruct (proj2 (Hends i (start_of powi attempt c now i)) t e Hi Hrej) as (e' & Hs & Hr). exists k. split; [|done]. by eapply refusal_is_final.
Qed.
End Dialling.

(** ** A concrete dial

    The first connect is refused, the second meets a server of another key. *)

Definition refusing : tcp_network :=
  mkTcpNetwork (fun _ => Done tt) (fun _ => Done tt) (fun _ => (3, Throw (mkIo IoOther "Connection refused")))
    (fun _ _ => (0, Throw (HandshakeIo "..."))) (fun _ => Done tt).
Definition changing (n : nat) : tcp_peers :=
  mkTcpPeers (match n with O => refusing | _ => sample_tcp [8] end) (fun _ => sample_socket).
Definition dialled_tcp : future TransportError (MaybeTlsStream * (TcpAdapter * wiring)) :=
  dial powi_iter (fun n s => build_connection_dyn (ClientConfigDyn := TcpClientDyn shown) (changing n) s ConnectionLimits_default sample_pinned_tcp)
    RetryConfig_default 0 (Done tt).

Lemma dial_witness :
  fst dialled_tcp = 200000011 /\ snd dialled_tcp = Throw (connection_error "Failed to build TCP connection: ..." false) /\
  0 <= fst dialled_tcp <= 0 + Z.of_nat 4 * from_secs 10 + Z.of_nat 3 * from_secs 10.
Proof.
  destruct (connecting_ends_in_time (T := sample_tls) (Q := sample_quinn) powi_iter shown shown shown RetryConfig_default (10 * NANOS_PER_SEC) 0
    ConnectionLimits_default ltac:(vm_compute; split; discriminate) ltac:(vm_compute; reflexivity)) as (Htcp & _).
  destruct (Htcp changing sample_pinned_tcp) as ([Ht _] & _).
  - intros [|n]; split; simpl; intros; lia.
  - reflexivity.
  - split_and!; [vm_compute; reflexivity..|exact (proj1 Ht)|exact (proj2 Ht)].
Defined.
