(* ===== verification/Builders.v ===== *)
(** * Building clients and servers: the builders of [transport/client.rs] and
      [transport/server.rs], and the foreign bindings of [crates/msgtrans-ffi]

    The two builders with what they validate; the configuration, the errors, the
    options, the events and the requests as the bindings translate them. *)

From Stdlib Require Import Ascii.
From S2P Require Import Prelude Packet Errors Limits Stream Events Registry Writes Transport Actor Server ServerLife Retry Client Adapters Quic WebSocket Config Tls TlsProps.

(** ** The client's builder *)

Record TransportConfig := mkBuilderConfig {
  graceful_timeout : Z;
  connection_limits : ConnectionLimits
}.
Definition TransportConfig_default : TransportConfig := mkBuilderConfig (from_secs 5) ConnectionLimits_default.

(** The configuration behind the boxed trait object. *)
Inductive ClientProtocol :=
  | TcpClient (c : TcpClientConfig)
  | WebSocketClient (c : WebSocketClientConfig)
  | QuicClient (c : QuicClientConfig).

Definition protocol_dyn (debug : ConfigError -> string) (p : ClientProtocol) : DynClientConfig :=
  match p with
  | TcpClient c => client_dyn debug c
  | WebSocketClient c => client_dyn debug c
  | QuicClient c => client_dyn debug c
  end.

Record TransportClientBuilder := mkClientBuilder {
  cb_retry_config : RetryConfig;
  cb_transport_config : TransportConfig;
  cb_protocol_config : option ClientProtocol;
  cb_frame_policy : FramePolicy
}.

Definition TransportClientBuilder_new : TransportClientBuilder :=
  mkClientBuilder RetryConfig_default TransportConfig_default None FramePolicy_default.
Definition cb_protocol (p : ClientProtocol) (b : TransportClientBuilder) : TransportClientBuilder :=
  mkClientBuilder (cb_retry_config b) (cb_transport_config b) (Some p) (cb_frame_policy b).
Definition cb_set_frame_policy (policy : FramePolicy) (b : TransportClientBuilder) : TransportClientBuilder :=
  mkClientBuilder (cb_retry_config b) (cb_transport_config b) (cb_protocol_config b) policy.
Definition cb_retry_strategy (c : RetryConfig) (b : TransportClientBuilder) : TransportClientBuilder :=
  mkClientBuilder c (cb_transport_config b) (cb_protocol_config b) (cb_frame_policy b).
Definition cb_set_transport_config (c : TransportConfig) (b : TransportClientBuilder) : TransportClientBuilder :=
  mkClientBuilder (cb_retry_config b) c (cb_protocol_config b) (cb_frame_policy b).
Definition cb_limits (l : ClientLimits) (b : TransportClientBuilder) : TransportClientBuilder :=
  cb_set_transport_config (mkBuilderConfig (graceful_timeout (cb_transport_config b)) (cl_connection l)) b.
(** [build]: nothing is validated before the first connect. *)
Definition cb_build (debug : ConfigError -> string) (b : TransportClientBuilder) : exec TransportError client :=
  Done (client_new (cb_retry_config b) (protocol_dyn debug <$> cb_protocol_config b) (cb_frame_policy b)).

(** ** The server's builder *)

(** A configuration behind [DynServerConfig]; the error as it displays. *)
Record DynServerConfig := mkDynServer {
  ds_protocol_name : string;
  ds_validate : exec string unit;
  ds_bind_address : SocketAddr
}.

Record TransportServerBuilder := mkServerBuilder {
  sb_transport_config : TransportConfig;
  sb_protocol_configs : gmap string DynServerConfig;
  sb_actor_buffer_size : option Z;
  sb_frame_policy : FramePolicy;
  sb_max_connections : option Z
}.

Definition TransportServerBuilder_new : TransportServerBuilder :=
  mkServerBuilder TransportConfig_default ∅ None FramePolicy_default None.
Definition sb_set_max_connections (max : Z) (b : TransportServerBuilder) : TransportServerBuilder :=
  mkServerBuilder (sb_transport_config b) (sb_protocol_configs b) (sb_actor_buffer_size b) (sb_frame_policy b) (Some max).
Definition sb_set_frame_policy (policy : FramePolicy) (b : TransportServerBuilder) : TransportServerBuilder :=
  mkServerBuilder (sb_transport_config b) (sb_protocol_configs b) (sb_actor_buffer_size b) policy (sb_max_connections b).
Definition sb_set_transport_config (c : TransportConfig) (b : TransportServerBuilder) : TransportServerBuilder :=
  mkServerBuilder c (sb_protocol_configs b) (sb_actor_buffer_size b) (sb_frame_policy b) (sb_max_connections b).
Definition sb_protocol (c : DynServerConfig) (b : TransportServerBuilder) : TransportServerBuilder :=
  mkServerBuilder (sb_transport_config b) (<[ds_protocol_name c := c]> (sb_protocol_configs b)) (sb_actor_buffer_size b)
    (sb_frame_policy b) (sb_max_connections b).
Definition sb_set_actor_buffer_size (size : Z) (b : TransportServerBuilder) : TransportServerBuilder :=
  mkServerBuilder (sb_transport_config b) (sb_protocol_configs b) (Some size) (sb_frame_policy b) (sb_max_connections b).
Definition sb_limits (l : ServerLimits) (b : TransportServerBuilder) : TransportServerBuilder :=
  mkServerBuilder (mkBuilderConfig (graceful_timeout (sb_transport_config b)) (sl_connection l)) (sb_protocol_configs b)
    (Some (sl_mailbox_capacity l)) (sb_frame_policy b) (sb_max_connections b).

(** The configurations in the order the map yields them. *)
Fixpoint validate_all (configs : list (string * DynServerConfig)) : exec TransportError unit :=
  match configs with
  | [] => Done tt
  | (name, c) :: configs => _ ← map_err (config_error name) (ds_validate c); validate_all configs
  end.

(** What [build] fixes of the server: its state, the cap its permits stand for,
    the capacity of its sessions' mailboxes and their frame policy. *)
Record built_server := mkBuilt {
  bs_server : server;
  bs_max_connections : option Z;
  bs_mailbox : Z;
  bs_frame_policy : FramePolicy
}.

(** [max_permits]: tokio's [Semaphore::MAX_PERMITS]; [order]: the iteration order
    of the protocols. *)
Definition sb_build (max_permits : Z) (order : list (string * DynServerConfig)) (b : TransportServerBuilder)
    : exec TransportError built_server :=
  _ ← match sb_max_connections b with
      | Some max =>
          if max =? 0 then
            Throw (config_error "max_connections" "must be at least 1 (0 would reject every connection)")
          else if max_permits <? max then
            Throw (config_error "max_connections" ("exceeds the maximum supported value " +:+ pretty max_permits))
          else Done tt
      | None => Done tt
      end;
  _ ← validate_all order;
  let permits := default max_permits (sb_max_connections b) in
  Done (mkBuilt (server_new permits) (sb_max_connections b)
    (default DEFAULT_MAILBOX_CAPACITY (sb_actor_buffer_size b)) (sb_frame_policy b)).

(** ** The bindings' configuration: [msgtrans-ffi/src/config.rs] *)

Record TcpTls := mkTcpTls { tt_spki_pins : list string; tt_server_name : option string }.
Inductive WebSocketTls := WsSystemRoots | WsCustomCa (ca_cert_pem : string) | WsInsecureSkipVerification.
Inductive QuicVerification :=
  | SpkiPins (pins : list string)
  | QuicCustomCa (ca_cert_pem : string)
  | WebPkiRoots
  | InsecureSkipVerification.

Inductive FfiEndpoint :=
  | EpTcp (address : string) (tls : option TcpTls)
  | EpWebSocket (url : string) (tls : option WebSocketTls) (headers : gmap string string)
  | EpQuic (address : string) (server_name : option string) (verification : QuicVerification)
      (keep_alive_interval_ms max_idle_timeout_ms : option Z).

Record FfiClientLimits := mkFfiLimits {
  fl_write_deadline_ms : option Z;
  fl_outbound_queue_capacity : option Z;
  fl_pipe_capacity : option Z;
  fl_max_payload_size : option Z;
  fl_max_ext_header_size : option Z
}.

Record FfiClientConfig := mkFfiConfig {
  fc_endpoint : FfiEndpoint;
  fc_connect_timeout_ms : Z;
  fc_limits : option FfiClientLimits
}.

(** [MsgtransError] of [error.rs]. *)
Inductive MsgtransError :=
  | MeConfiguration (field reason : string)
  | MeConnection (reason : string) (retryable : bool)
  | MeProtocol (protocol_name reason : string)
  | MeResource (resource : string) (current limit : Z)
  | MeTimeout (operation : string) (duration_ms : Z)
  | MeInvalidState (detail : string)
  | MeOther (detail : string).

Definition MsgtransError_display (e : MsgtransError) : string :=
  match e with
  | MeConfiguration field reason => "invalid configuration (" +:+ field +:+ "): " +:+ reason
  | MeConnection reason _ => "connection error: " +:+ reason
  | MeProtocol protocol_name reason => "protocol error (" +:+ protocol_name +:+ "): " +:+ reason
  | MeResource resource current limit =>
      "resource exhausted: " +:+ resource +:+ " (" +:+ pretty current +:+ "/" +:+ pretty limit +:+ ")"
  | MeTimeout operation duration_ms => operation +:+ " timed out after " +:+ pretty duration_ms +:+ "ms"
  | MeInvalidState detail | MeOther detail => detail
  end.

Definition MsgtransError_from (e : TransportError) : MsgtransError :=
  match e with
  | Configuration field reason => MeConfiguration field reason
  | Connection reason retryable => MeConnection reason retryable
  | Protocol protocol reason => MeProtocol protocol reason
  | Resource resource current limit => MeResource resource (wrap 64 current) (wrap 64 limit)
  | Timeout operation duration => MeTimeout operation (wrap 64 duration)
  end.
Definition MsgtransError_from_config (e : ConfigError) : MsgtransError :=
  MeConfiguration "endpoint" (ConfigError_display e).

Definition require_pins (field : string) (pins : list string) : exec MsgtransError unit :=
  if forallb is_blank pins then Throw (MeConfiguration field "at least one SPKI pin is required") else Done tt.

(** [if let Some(v) = option { value = f(value) }]. *)
Definition if_some {A B} (o : option A) (f : A -> B -> B) (b : B) : B :=
  match o with Some a => f a b | None => b end.

Section Limits.
Context `{T : Target}.

Definition to_usize (field : string) (value : Z) : exec MsgtransError Z :=
  if value <? 2 ^ usize_bits then Done value else Throw (MeConfiguration field "value out of range").

Definition set_checked (field : string) (o : option Z) (f : Z -> ConnectionLimits -> ConnectionLimits)
    (l : ConnectionLimits) : exec MsgtransError ConnectionLimits :=
  match o with
  | Some v => v ← to_usize field v; Done (f v l)
  | None => Done l
  end.

Definition client_limits (l : FfiClientLimits) : exec MsgtransError ClientLimits :=
  let out := if_some (fl_write_deadline_ms l) set_write_deadline (cl_connection ClientLimits_default) in
  out ← set_checked "limits.outbound_queue_capacity" (fl_outbound_queue_capacity l) set_outbound_queue_capacity out;
  out ← set_checked "limits.pipe_capacity" (fl_pipe_capacity l) set_pipe_capacity out;
  out ← set_checked "limits.max_payload_size" (fl_max_payload_size l) set_max_payload_size out;
  out ← set_checked "limits.max_ext_header_size" (fl_max_ext_header_size l) set_max_ext_header_size out;
  Done (mkClientLimits out).

Definition ffi_tcp (address : string) (tls : option TcpTls) (connect_timeout : Z) : exec MsgtransError ClientProtocol :=
  tcp ← map_err MsgtransError_from_config (TcpClientConfig_new address);
  let tcp := TcpClientConfig_connect_timeout connect_timeout tcp in
  tcp ← match tls with
    | Some tls =>
        _ ← require_pins "endpoint.tls.spki_pins" (tt_spki_pins tls);
        Done (if_some (tt_server_name tls) TcpClientConfig_server_name (TcpClientConfig_spki_pins (tt_spki_pins tls) tcp))
    | None => Done tcp
    end;
  tcp ← map_err MsgtransError_from_config (build tcp);
  Done (TcpClient tcp).

Definition ffi_websocket (url : string) (tls : option WebSocketTls) (headers : gmap string string) (connect_timeout : Z)
    : exec MsgtransError ClientProtocol :=
  let secure := String.prefix "wss://" url in
  if negb secure && negb (String.prefix "ws://" url)
  then Throw (MeConfiguration "endpoint.url" "must start with ws:// or wss://") else
  ws ← map_err MsgtransError_from_config (WebSocketClientConfig_new url);
  let ws := WebSocketClientConfig_headers headers (WebSocketClientConfig_connect_timeout connect_timeout ws) in
  ws ← match tls, secure with
    | Some _, false => Throw (MeConfiguration "endpoint.tls" "TLS settings were given for a plaintext ws:// URL")
    | Some tls, true =>
        Done (WebSocketClientConfig_tls (match tls with
          | WsSystemRoots => SystemRoots
          | WsCustomCa ca_cert_pem => CustomCa ca_cert_pem
          | WsInsecureSkipVerification => Insecure
          end) ws)
    | None, _ => Done ws
    end;
  ws ← map_err MsgtransError_from_config (build ws);
  Done (WebSocketClient ws).

Definition ffi_quic (address : string) (server_name : option string) (verification : QuicVerification)
    (keep_alive_interval_ms max_idle_timeout_ms : option Z) (connect_timeout : Z) : exec MsgtransError ClientProtocol :=
  quic ← map_err MsgtransError_from_config (QuicClientConfig_new address);
  let quic := QuicClientConfig_connect_timeout connect_timeout quic in
  let quic := if_some server_name QuicClientConfig_server_name quic in
  quic ← match verification with
    | SpkiPins pins => _ ← require_pins "endpoint.verification.pins" pins; Done (QuicClientConfig_spki_pins pins quic)
    | QuicCustomCa ca_cert_pem => Done (QuicClientConfig_ca_cert_pem ca_cert_pem quic)
    | WebPkiRoots => Done (QuicClientConfig_verify_certificate true quic)
    | InsecureSkipVerification => Done (QuicClientConfig_danger_skip_verification quic)
    end;
  let quic := if_some keep_alive_interval_ms (fun ms => QuicClientConfig_keep_alive_interval (Some (from_millis ms))) quic in
  let quic := if_some max_idle_timeout_ms (fun ms => QuicClientConfig_max_idle_timeout (from_millis ms)) quic in
  quic ← map_err MsgtransError_from_config (build quic);
  Done (QuicClient quic).

Definition ffi_builder (config : FfiClientConfig) : exec MsgtransError TransportClientBuilder :=
  let connect_timeout := from_millis (fc_connect_timeout_ms config) in
  if connect_timeout =? 0 then Throw (MeConfiguration "connect_timeout_ms" "must be greater than zero") else
  protocol ← match fc_endpoint config with
    | EpTcp address tls => ffi_tcp address tls connect_timeout
    | EpWebSocket url tls headers => ffi_websocket url tls headers connect_timeout
    | EpQuic address server_name verification ka idle => ffi_quic address server_name verification ka idle connect_timeout
    end;
  let builder := cb_protocol protocol TransportClientBuilder_new in
  match fc_limits config with
  | Some limits => limits ← client_limits limits; Done (cb_limits limits builder)
  | None => Done builder
  end.
End Limits.

(** ** The bindings' options and events: [client.rs], [events.rs] *)

Record FfiSendOptions := mkFfiSend { fs_biz_type : option Z; fs_ext_header : option bytes }.
Definition send_options (o : FfiSendOptions) : SendOptions :=
  if_some (fs_ext_header o) so_with_ext_header (if_some (fs_biz_type o) so_with_biz_type SendOptions_new).

Record FfiRequestOptions := mkFfiRequest {
  fr_biz_type : option Z;
  fr_ext_header : option bytes;
  fr_timeout_ms : option Z
}.
Definition request_options (o : FfiRequestOptions) : RequestOptions :=
  if_some (fr_timeout_ms o) ro_with_timeout
    (if_some (fr_ext_header o) ro_with_ext_header (if_some (fr_biz_type o) ro_with_biz_type RequestOptions_new)).

(** A request handed to the foreign side; [ir_request] until it is answered. *)
Record IncomingRequest := mkIncoming {
  ir_request : option ClientRequest;
  ir_message_id : Z;
  ir_biz_type : Z;
  ir_payload : bytes;
  ir_ext_header : option bytes
}.
Definition ir_take (r : IncomingRequest) : IncomingRequest * (MsgtransError + ClientRequest) :=
  match ir_request r with
  | Some q => (mkIncoming None (ir_message_id r) (ir_biz_type r) (ir_payload r) (ir_ext_header r), inr q)
  | None => (r, inl (MeInvalidState "this request has already been answered"))
  end.

(** [respond]: takes the request, then answers it as the client does. *)
Definition ir_respond `{Codecs} (alive : bool) (payload : bytes) (r : IncomingRequest) (t : Transport)
    : IncomingRequest * Transport * (MsgtransError + respond_step) :=
  match ir_take r with
  | (r, inr q) => let '(t, s) := client_respond alive payload SendOptions_new q t in (r, t, inr s)
  | (r, inl e) => (r, t, inl e)
  end.

(** Dropped on the foreign side: what it still holds is dropped unanswered. *)
Definition ir_drop (r : IncomingRequest) (t : Transport) : Transport :=
  match ir_request r with Some q => client_request_drop q t | None => t end.

Inductive FfiCloseReason := FrNormal | FrForced | FrTimeout | FrError (detail : string).
Definition map_reason (r : CloseReason) : FfiCloseReason :=
  match r with
  | Normal => FrNormal
  | Forced => FrForced
  | CloseTimeout => FrTimeout
  | CloseError detail => FrError detail
  end.

(** The established time in milliseconds since the epoch, zero before it. *)
Record FfiConnectionInfo := mkFfiInfo {
  fi_session_id : Z;
  fi_protocol : string;
  fi_local_address : string;
  fi_peer_address : string;
  fi_established_at_ms : Z
}.
Definition map_info (i : ConnectionInfo) : FfiConnectionInfo :=
  mkFfiInfo (ci_session_id i) (ci_protocol i) (ci_local_addr i) (ci_peer_addr i)
    (if 0 <=? ci_established_at i then wrap 64 (ci_established_at i) else 0).

Record InboundMessage := mkInbound {
  im_message_id : Z;
  im_biz_type : Z;
  im_payload : bytes;
  im_ext_header : option bytes
}.

Inductive FfiClientEvent :=
  | FeConnected (info : FfiConnectionInfo)
  | FeMessage (message : InboundMessage)
  | FeRequest (request : IncomingRequest)
  | FeMessageSent (message_id : Z)
  | FeDisconnected (reason : FfiCloseReason)
  | FeError (error : MsgtransError).

Definition map_event (e : ClientEvent) : option FfiClientEvent :=
  Some (match e with
        | EvConnected info => FeConnected (map_info info)
        | EvMessage m => FeMessage (mkInbound (cm_message_id m) (cm_biz_type m) (cm_data m) (cm_ext_header m))
        | EvRequest r =>
            FeRequest (mkIncoming (Some r) (cq_message_id r) (cq_biz_type r) (cq_data r) (cq_ext_header r))
        | EvMessageSent message_id => FeMessageSent message_id
        | EvDisconnected reason => FeDisconnected (map_reason reason)
        | EvError error => FeError (MsgtransError_from error)
        end).

(** [next_event]: the first event of the queue that maps, and the rest. *)
Fixpoint next_event (queue : list ClientEvent) : option (FfiClientEvent * list ClientEvent) :=
  match queue with
  | [] => None
  | e :: queue => match map_event e with Some e => Some (e, queue) | None => next_event queue end
  end.

(** ** Properties *)

(** The stream of a connected TCP client is protected exactly when it has pins. *)
Lemma tcp_connect_stream `{TlsLibrary} net now addr c t s : TcpAdapter_connect net now addr c = (t, Done s) ->
  is_tls s = tcp_client_is_tls_enabled c.
Proof.
  unfold TcpAdapter_connect.
  set (conn := match tcc_local_bind_address c with Some _ => _ | None => _ end). generalize conn. clear conn. intros conn.
  destruct (if tcc_connect_timeout c =? 0 then _ else _) as [deadline| |]; try done.
  match goal with |- context [let '(_, _) := ?f in _] => destruct f as [t1 [[]| |]] end; try done.
  destruct (tcp_client_is_tls_enabled c).
  - destruct (client_tls_handshake net c) as [th rh] eqn:Eh.
    assert (forall x, rh = Done x -> is_tls x = true) as Hrh.
    { intros x ->. unfold client_tls_handshake in Eh.
      match type of Eh with match ?m with _ => _ end = _ => destruct m end; try done.
      destruct (tn_handshake net _ _) as [? [der| |]]; simpl in Eh; try done. by injection Eh as _ <-. }
    match goal with |- context [let '(_, _) := ?f in _] => destruct f as [t2 r2] eqn:E2 end.
    intros [= _ Hs]. exec_inv Hs. exec_inv Hs. injection Hs as <-. subst r2.
    destruct deadline as [d|]; [|by injection E2 as _ ->; apply Hrh].
    apply timeout_at_done in E2 as [[= _ ->] _]. by apply Hrh.
  - intros [= _ Hs]. exec_inv Hs. by injection Hs as <-.
Qed.

(** What the verifier of a QUIC client is, from its configuration. *)
Lemma quic_verifier_of `{TlsLibrary} c v : quic_client_verifier c = Done v ->
  (qcc_spki_pins c <> [] -> v = Pinned (mkPinned (qcc_spki_pins c))) /\
  (qcc_spki_pins c = [] -> qcc_verify_certificate c = false -> v = SkipServerVerification) /\
  (qcc_spki_pins c = [] -> qcc_verify_certificate c = true -> qcc_ca_cert_pem c = None -> v = RootCertificates TLS_SERVER_ROOTS) /\
  (forall pem, qcc_spki_pins c = [] -> qcc_verify_certificate c = true -> qcc_ca_cert_pem c = Some pem ->
   exists certs roots, pem_certs pem = Done certs /\ v = RootCertificates roots /\
     add_roots (fun e => QeConfig ("Failed to add CA certificate to store: " +:+ e)) [] certs = Done roots).
Proof.
  unfold quic_client_verifier, is_pinned. case_bool_decide as Hp; cbn [negb]; intros Hv.
  - split; [done|]. destruct (qcc_verify_certificate c).
    + exec_inv Hv. exec_inv Hv. injection Hv as <-. split_and!; try done.
      * intros _ _ Hca. rewrite Hca in Hm. by injection Hm as <-.
      * intros pem _ _ Hca. rewrite Hca in Hm. exec_inv Hm. destruct (pem_certs pem) as [certs| |]; try done.
        injection Hm1 as <-. eauto.
    + exec_inv Hv. injection Hv as <-. split_and!; done.
  - split_and!; try done. intros _. exec_inv Hv. exec_inv Hv. injection Hv as <-. f_equal.
    unfold PinnedSpkiVerification_new in Hm. rewrite decide_False in Hm by done.
    destruct (List.find _ _); [done|]. by injection Hm as <-.
Qed.

Lemma require_pins_done field ps : require_pins field ps = Done tt -> ps <> [].
Proof. unfold require_pins. by destruct ps. Qed.

Section Bindings.
Context `{T : Target} `{L : TlsLibrary}.

Definition websocket_tls_of (tls : option WebSocketTls) : ClientTls :=
  match tls with
  | Some (WsCustomCa pem) => CustomCa pem
  | Some WsInsecureSkipVerification => Insecure
  | Some WsSystemRoots | None => SystemRoots
  end.

(** The protection a foreign caller asked for, of the configuration it gets. *)
Definition protection_kept (e : FfiEndpoint) (p : ClientProtocol) : Prop :=
  match e, p with
  | EpTcp _ tls, TcpClient c =>
      tcc_spki_pins c = from_option tt_spki_pins [] tls /\
      forall net now addr t s, TcpAdapter_connect net now addr c = (t, Done s) -> is_tls s = bool_decide (is_Some tls)
  | EpWebSocket url tls headers, WebSocketClient c =>
      wcc_target_url c = url /\ wcc_headers c = headers /\ wcc_tls c = websocket_tls_of tls /\
      (is_Some tls -> String.prefix "wss://" url = true)
  | EpQuic _ _ verification _ _, QuicClient c =>
      forall v, quic_client_verifier c = Done v ->
      match verification with
      | SpkiPins pins => pins <> [] /\ v = Pinned (mkPinned pins)
      | QuicCustomCa pem => exists certs roots, pem_certs pem = Done certs /\ v = RootCertificates roots /\
          add_roots (fun e => QeConfig ("Failed to add CA certificate to store: " +:+ e)) [] certs = Done roots
      | WebPkiRoots => v = RootCertificates TLS_SERVER_ROOTS
      | InsecureSkipVerification => v = SkipServerVerification
      end
  | _, _ => False
  end.

Lemma ffi_tcp_kept address tls timeout p : ffi_tcp address tls timeout = Done p ->
  protection_kept (EpTcp address tls) p.
Proof.
  unfold ffi_tcp. intros H. exec_inv H. exec_inv H. exec_inv H. injection H as <-.
  assert (exists a, r = TcpClientConfig_target_address a TcpClientConfig_default) as (a & ->).
  { destruct (TcpClientConfig_new address) as [c| |] eqn:En; try done. injection Hm as <-.
    unfold TcpClientConfig_new in En. exec_inv En. injection En as <-. eauto. }
  clear Hm. cbn in Hm1. injection Hm1 as <-.
  assert (tcc_spki_pins r0 = from_option tt_spki_pins [] tls /\ tcp_client_is_tls_enabled r0 = bool_decide (is_Some tls)) as [Hp Ht].
  { destruct tls as [[ps name]|].
    - cbn in Hm0. exec_inv Hm0. destruct r. apply require_pins_done in Hm. injection Hm0 as <-.
      unfold tcp_client_is_tls_enabled. destruct name; cbn; rewrite bool_decide_false by done; done.
    - by injection Hm0 as <-. }
  split; [done|]. intros net now addr t s Hs. by rewrite (tcp_connect_stream _ _ _ _ _ _ Hs).
Qed.

Lemma ffi_websocket_kept url tls headers timeout p : ffi_websocket url tls headers timeout = Done p ->
  protection_kept (EpWebSocket url tls headers) p.
Proof.
  unfold ffi_websocket. case_match; [done|]. intros Hb. exec_inv Hb. exec_inv Hb. exec_inv Hb. injection Hb as <-.
  assert (r = WebSocketClientConfig_target_url url WebSocketClientConfig_default) as ->.
  { unfold WebSocketClientConfig_new in Hm. destruct (ws_url url); cbn in Hm; [by injection Hm as <-|done]. }
  assert (r1 = r0) as ->.
  { unfold build in Hm1. destruct (validate_dyn r0); cbn in Hm1; try done. by injection Hm1. }
  destruct tls as [tls|].
  - destruct (String.prefix "wss://" url) eqn:Ep; [|done]. injection Hm0 as <-. by destruct tls.
  - injection Hm0 as <-. by split_and!.
Qed.

Lemma ffi_quic_kept address name verification ka idle timeout p :
  ffi_quic address name verification ka idle timeout = Done p ->
  protection_kept (EpQuic address name verification ka idle) p.
Proof.
  unfold ffi_quic. intros H. exec_inv H. exec_inv H. exec_inv H. injection H as <-.
  assert (exists a, r = QuicClientConfig_target_address a QuicClientConfig_default) as (a & ->).
  { destruct (QuicClientConfig_new address) as [c| |] eqn:En; try done. injection Hm as <-.
    unfold QuicClientConfig_new in En. exec_inv En. injection En as <-. eauto. }
  clear Hm. unfold build in Hm1. destruct (validate_dyn _); cbn in Hm1; try done. injection Hm1 as <-.
  intros v Hv. apply quic_verifier_of in Hv.
  destruct verification as [ps|pem| |]; cbn in Hm0; [exec_inv Hm0; destruct r; apply require_pins_done in Hm|..];
    injection Hm0 as <-; destruct name, ka, idle; cbn in Hv; destruct Hv as (Hpin & Hskip & Hroots & Hca); auto.
Qed.

Definition connect_timeout_of (p : ClientProtocol) : Z :=
  match p with
  | TcpClient c => tcc_connect_timeout c
  | WebSocketClient c => wcc_connect_timeout c
  | QuicClient c => qcc_connect_timeout c
  end.

(** The endpoint's configuration keeps the connect timeout. *)
Lemma ffi_timeout_kept (config : FfiClientConfig) p timeout :
  match fc_endpoint config with
  | EpTcp address tls => ffi_tcp address tls timeout
  | EpWebSocket url tls headers => ffi_websocket url tls headers timeout
  | EpQuic address server_name verification ka idle => ffi_quic address server_name verification ka idle timeout
  end = Done p -> connect_timeout_of p = timeout.
Proof.
  destruct (fc_endpoint config) as [a tls|url tls hs|a name v ka idle].
  - unfold ffi_tcp. intros H. exec_inv H. exec_inv H. exec_inv H. injection H as <-. cbn in Hm1. injection Hm1 as <-.
    destruct tls as [[ps [n|]]|]; cbn in Hm0; [exec_inv Hm0..|]; by injection Hm0 as <-.
  - unfold ffi_websocket. case_match; [done|]. intros Hb. exec_inv Hb. exec_inv Hb. exec_inv Hb. injection Hb as <-.
    unfold build in Hm1. destruct (validate_dyn r0); cbn in Hm1; try done. injection Hm1 as <-.
    destruct tls as [t|]; [destruct (String.prefix "wss://" url); [|done]|]; by injection Hm0 as <-.
  - unfold ffi_quic. intros H. exec_inv H. exec_inv H. exec_inv H. injection H as <-.
    unfold build in Hm1. destruct (validate_dyn _); cbn in Hm1; try done. injection Hm1 as <-.
    destruct v; cbn in Hm0; [exec_inv Hm0|..]; injection Hm0 as <-; by destruct name, ka, idle.
Qed.

(** The limits a foreign caller gives are unsigned integers. *)
Definition ffi_limits_ok (l : FfiClientLimits) : Prop :=
  Forall (fun o => from_option (in_width 64) True o)
    [fl_write_deadline_ms l; fl_outbound_queue_capacity l; fl_pipe_capacity l; fl_max_payload_size l; fl_max_ext_header_size l].

Lemma set_checked_legal field o f l l' : (forall n l, 0 <= n -> legal l -> legal (f n l)) ->
  from_option (in_width 64) True o -> legal l -> set_checked field o f l = Done l' -> legal l'.
Proof.
  intros Hf Ho Hl. destruct o as [v|]; cbn; [|by intros [= <-]]. intros H. exec_inv H. injection H as <-.
  unfold to_usize in Hm. case_match; [|done]. injection Hm as <-. apply Hf; [by destruct Ho|done].
Qed.

Lemma client_limits_legal l out : ffi_limits_ok l -> client_limits l = Done out -> legal (cl_connection out).
Proof.
  unfold ffi_limits_ok. rewrite !Forall_cons. intros (H1 & H2 & H3 & H4 & H5 & _). unfold client_limits. intros H.
  exec_inv H. exec_inv H. exec_inv H. exec_inv H. injection H as <-.
  assert (legal (if_some (fl_write_deadline_ms l) set_write_deadline (cl_connection ClientLimits_default))) as H0.
  { assert (legal ConnectionLimits_default) by (repeat split; discriminate).
    destruct (fl_write_deadline_ms l) as [n|]; [|done]. apply (legal_set (Limits.WriteDeadline n)); [by destruct H1|done]. }
  eapply set_checked_legal in Hm; [|intros n k Hn; by apply (legal_set (OutboundQueueCapacity n))|done..].
  eapply set_checked_legal in Hm0; [|intros n k Hn; by apply (legal_set (PipeCapacity n))|done..].
  eapply set_checked_legal in Hm1; [|intros n k Hn; by apply (legal_set (MaxPayloadSize n))|done..].
  by eapply set_checked_legal in Hm2; [|intros n k Hn; by apply (legal_set (MaxExtHeaderSize n))|done..].
Qed.
End Bindings.

(** C40: The bindings keep the protection the foreign caller chose: the client
    they build connects over TCP under TLS exactly when TLS settings were given,
    with the given pins; over WebSocket to the given URL with the given
    verification, which is accepted for wss:// only; over QUIC with the verifier
    that was asked for and no other; the connect timeout is the given, positive
    one, and whatever limits are given the connection's limits are legal. *)
Theorem bindings_keep_the_chosen_protection `{T : Target} `{L : TlsLibrary} config b :
  0 <= fc_connect_timeout_ms config -> from_option ffi_limits_ok True (fc_limits config) ->
  ffi_builder config = Done b ->
  (exists p, cb_protocol_config b = Some p /\ protection_kept (fc_endpoint config) p /\
     connect_timeout_of p = from_millis (fc_connect_timeout_ms config) /\ 0 < connect_timeout_of p) /\
  legal (connection_limits (cb_transport_config b)).
Proof.
  intros Ht Hl. unfold ffi_builder. destruct (Z.eqb_spec (from_millis (fc_connect_timeout_ms config)) 0) as [|Hne]; [done|].
  intros H. apply exec_bind_done_inv in H as (p & Hp & H).
  pose proof (ffi_timeout_kept _ _ _ Hp) as Hc.
  assert (protection_kept (fc_endpoint config) p) as Hk.
  { destruct (fc_endpoint config); [by eapply ffi_tcp_kept|by eapply ffi_websocket_kept|by eapply ffi_quic_kept]. }
  assert (cb_protocol_config b = Some p /\ legal (connection_limits (cb_transport_config b))) as [Hb Hleg].
  { destruct (fc_limits config) as [l|].
    - exec_inv H. injection H as <-. split; [done|]. by eapply client_limits_legal.
    - injection H as <-. split; [done|]. repeat split; discriminate. }
  split; [|done]. exists p. split_and!; try done. rewrite Hc. unfold from_millis in *. lia.
Qed.

Definition sample_ffi : FfiClientConfig :=
  mkFfiConfig (EpTcp "127.0.0.1:9001" (Some (mkTcpTls sample_pin None))) 5000
    (Some (mkFfiLimits (Some 1) None (Some 0) None (Some 70000))).
Lemma bindings_witness : let _ := Target64 in
  exists b c, ffi_builder sample_ffi = Done b /\ cb_protocol_config b = Some (TcpClient c) /\
    tcc_spki_pins c = sample_pin /\ 0 < connect_timeout_of (TcpClient c) /\ legal (connection_limits (cb_transport_config b)).
Proof.
  intros Tg. destruct (ffi_builder sample_ffi) as [b| |] eqn:Eb; [|exfalso; by vm_compute in Eb..].
  destruct (bindings_keep_the_chosen_protection sample_ffi b) as ((p & Hp & Hk & _ & Hpos) & Hleg);
    [by vm_compute|repeat constructor; by vm_compute|done|].
  destruct p as [c| |]; [|destruct Hk..]. exists b, c. split; [done|]. split; [done|]. split; [apply Hk|]. by split.
Defined.

(** ** The server's builder *)

Lemma validate_all_done configs : validate_all configs = Done tt <-> Forall (fun i => ds_validate (snd i) = Done tt) configs.
Proof.
  induction configs as [|[name c] configs IH]; [by split|]. rewrite Forall_cons, <- IH. simpl.
  destruct (ds_validate c) as [[]| |]; simpl; naive_solver.
Qed.

(** A server is built exactly when its cap is one the semaphore can hold and
    every protocol is valid, in whatever order the map yields them; its permits
    are the cap. *)
Lemma server_built_exactly_when_valid max_permits order b : order ≡ₚ map_to_list (sb_protocol_configs b) ->
  (exists s, sb_build max_permits order b = Done s) <->
  from_option (fun max => max <> 0 /\ max <= max_permits) True (sb_max_connections b) /\
  map_Forall (fun _ c => ds_validate c = Done tt) (sb_protocol_configs b).
Proof.
  intros Ho. rewrite map_Forall_to_list, <- Ho.
  assert (Forall (uncurry (fun (_ : string) c => ds_validate c = Done tt)) order <-> validate_all order = Done tt) as ->.
  { rewrite validate_all_done. apply Forall_iff. by intros []. }
  unfold sb_build. destruct (sb_max_connections b) as [max|]; cbn.
  - repeat zcase; cbn; destruct (validate_all order) as [[]| |]; cbn; split; intros Hx; eauto;
      try (by destruct Hx); destruct Hx as [[? ?] ?]; lia || done.
  - destruct (validate_all order) as [[]| |]; cbn; split; eauto; try by intros [? ?].
Qed.
Lemma built_server_permits max_permits order b s : sb_build max_permits order b = Done s ->
  sr_permits (bs_server s) = default max_permits (bs_max_connections s) /\ bs_max_connections s = sb_max_connections b /\
  bs_mailbox s = default DEFAULT_MAILBOX_CAPACITY (sb_actor_buffer_size b) /\ bs_frame_policy s = sb_frame_policy b.
Proof. unfold sb_build. intros H. exec_inv H. exec_inv H. by injection H as <-. Qed.

(** ** Requests and pins across the bindings *)

(** A request is answered at most once; a second answer changes nothing. *)
Lemma incoming_request_answered_once `{Codecs} alive payload payload' r t r1 t1 a1 t' :
  ir_respond alive payload r t = (r1, t1, a1) ->
  ir_respond alive payload' r1 t' = (r1, t', inl (MeInvalidState "this request has already been answered")) /\
  ir_drop r1 t' = t'.
Proof.
  unfold ir_respond, ir_take, ir_drop. destruct (ir_request r) as [q|] eqn:Eq.
  - destruct (client_respond _ _ _ _ _). by intros [= <- _ _].
  - intros [= <- _ _]. by rewrite Eq.
Qed.

(** The bindings let a blank pin pass beside a good one; the verifier refuses the
    list, so no attempt succeeds, and the failure is reported as retryable. *)
Lemma blank_pin_passes_the_bindings `{TlsLibrary} field good debug net c :
  is_blank good = false -> tcc_spki_pins c = [good; " "] ->
  require_pins field [good; " "] = Done tt /\
  exists e e', client_tls_handshake net c = (0, Throw e) /\
    tcp_build_connection (A := MaybeTlsStream) debug (Throw e) = Throw e' /\ is_retryable e' = true.
Proof.
  intros Hg Hp. split; [unfold require_pins; cbn; by rewrite Hg|].
  unfold client_tls_handshake. rewrite Hp. unfold PinnedSpkiVerification_new. cbn. rewrite Hg. cbn.
  eexists _, _. split; [done|]. by split.
Qed.
