(* ===== verification/Bindings.v ===== *)
(** * The client object of the bindings: [crates/msgtrans-ffi/src/client.rs]

    A client behind a read-write lock and its event stream behind a mutex, both
    shared by every call the foreign side makes. The locks are an interface: a
    line in the order of arrival, whose head is served. *)

From Stdlib Require Import SpecFloat.
From S2P Require Import Prelude Packet Errors Limits Stream Events Registry Writes Transport Actor Retry Client ClientInv ClientProps Config Tls Builders.

(** ** The locks *)

(** Who may hold the lock with the ones in [held] already holding it. *)
Definition fits (held : list (nat * bool)) (who : nat * bool) : bool :=
  match held with [] => true | _ => negb (snd who) && forallb (fun h => negb (snd h)) held end.

(** The longest start of the line that fits. *)
Fixpoint let_through (held line : list (nat * bool)) : list (nat * bool) * list (nat * bool) :=
  match line with
  | [] => (held, [])
  | who :: line' => if fits held who then let_through (held ++ [who]) line' else (held, line)
  end.
Definition served (line : list (nat * bool)) : list (nat * bool) := (let_through [] line).1.

(** A fair lock: a task joins it exclusively or not, and leaves it whether it was
    served or still waits. *)
Class RwLock (L : Type) := {
  lock_new : L;
  lock_join : nat -> bool -> L -> L;
  lock_leave : nat -> L -> L;
  lock_holds : nat -> L -> bool
}.
Class RwLockLaws (L : Type) `{RwLock L} := {
  lock_ok : L -> Prop;
  lock_line : L -> list (nat * bool);
  lock_new_ok : lock_ok lock_new /\ lock_line lock_new = [];
  lock_join_ok n e l : lock_ok l -> lock_ok (lock_join n e l) /\ lock_line (lock_join n e l) = lock_line l ++ [(n, e)];
  lock_leave_ok n l : lock_ok l -> lock_ok (lock_leave n l) /\ lock_line (lock_leave n l) = filter (fun w => fst w <> n) (lock_line l);
  lock_holds_ok n l : lock_ok l -> lock_holds n l = true <-> n ∈ (served (lock_line l)).*1
}.

(** ** The object *)

Inductive method :=
  | MConnect
  | MDisconnect
  | MShutdown
  | MIsConnected
  | MSend (payload : bytes)
  | MSendDetached (payload : bytes)
  | MSendWithOptions (payload : bytes) (options : FfiSendOptions)
  | MRequest (payload : bytes)
  | MRequestWithOptions (payload : bytes) (options : FfiRequestOptions).

(** [self.client.write()] or [self.client.read()]. *)
Definition takes_exclusively (m : method) : bool := match m with MConnect | MShutdown => true | _ => false end.

(** The calls that are futures of the client with steps of their own. *)
Definition lifecycle_call (m : method) : option call_kind :=
  match m with
  | MConnect => Some ConnectCall
  | MDisconnect => Some (DisconnectCall false)
  | MShutdown => Some ShutdownCall
  | _ => None
  end.

Inductive reply := RNothing | RBool (b : bool) | RReceipt (message_id : Z) | RPayload (payload : bytes).

Definition call_returned (pc : call_pc) : option (exec TransportError unit) :=
  match pc with CtReturned r | DcReturned r | ShReturned r => Some r | _ => None end.

(** Where a call is: waiting for its guard, inside a lifecycle call of the
    client, waiting for the write or the response of a packet, or returned. *)
Inductive binding_pc :=
  | BiWaiting (m : method)
  | BiLifecycle (m : method)
  | BiTraffic (m : method) (p : Packet)
  | BiReturned (m : method) (r : exec MsgtransError reply).

Record bindings (L : Type) := mkBindings {
  bi_client : client;
  bi_lock : L;
  bi_calls : gmap nat binding_pc;
  bi_stream : L;
  bi_pollers : gmap nat (option (option FfiClientEvent));
  bi_seen : nat;
  bi_handed : list FfiClientEvent
}.
Arguments mkBindings {L}.
Arguments bi_client {L}.
Arguments bi_lock {L}.
Arguments bi_calls {L}.
Arguments bi_stream {L}.
Arguments bi_pollers {L}.
Arguments bi_seen {L}.
Arguments bi_handed {L}.

Section Bindings.
Context `{C : Codecs} `{T : Target} {L : Type} `{K : RwLock L} (powi : spec_float -> Z -> spec_float).

(** [MsgtransClient::new]: the builder, the client, its event stream. *)
Definition MsgtransClient_new (debug : ConfigError -> string) (config : FfiClientConfig) : exec MsgtransError (bindings L) :=
  builder ← ffi_builder config;
  c ← map_err MsgtransError_from (cb_build debug builder);
  let '(b, taken) := events (cl_bg c) in
  _ ← map_err MsgtransError_from taken;
  Done (mkBindings (put_bg b c) lock_new ∅ lock_new ∅ 0%nat []).

Definition set_client (c : client) (b : bindings L) : bindings L :=
  mkBindings c (bi_lock b) (bi_calls b) (bi_stream b) (bi_pollers b) (bi_seen b) (bi_handed b).
Definition set_call (n : nat) (pc : binding_pc) (b : bindings L) : bindings L :=
  mkBindings (bi_client b) (bi_lock b) (<[n := pc]> (bi_calls b)) (bi_stream b) (bi_pollers b) (bi_seen b) (bi_handed b).

(** The guard goes with the end of the call; a dropped call is forgotten. *)
Definition returns (n : nat) (m : method) (r : exec TransportError reply) (b : bindings L) : bindings L :=
  mkBindings (bi_client b) (lock_leave n (bi_lock b)) (<[n := BiReturned m (map_err MsgtransError_from r)]> (bi_calls b))
    (bi_stream b) (bi_pollers b) (bi_seen b) (bi_handed b).
Definition forget (n : nat) (b : bindings L) : bindings L :=
  mkBindings (bi_client b) (lock_leave n (bi_lock b)) (delete n (bi_calls b))
    (bi_stream b) (bi_pollers b) (bi_seen b) (bi_handed b).

(** The packet of a call that carries one, up to its first await. *)
Definition method_packet (m : method) (t : Transport) : Transport * exec TransportError Packet :=
  match m with
  | MSend payload => let '(t, r) := client_send payload t in (t, sp ← r; Done (snd sp))
  | MSendDetached payload => client_send_detached payload t
  | MSendWithOptions payload o => send_with_options payload (send_options o) t
  | MRequest payload => client_request payload t
  | MRequestWithOptions payload o =>
      let '(t, i) := allocate_request_id t in
      (t, i ← i; apply (ro_send (request_options o)) (Packet.request i payload))
  | _ => (t, Panic)
  end.

(** What the call makes of its end: the response's payload, or nothing. *)
Definition method_reply (m : method) (p : Packet) (outcome : bytes) : reply :=
  match m with
  | MSend _ | MSendDetached _ => RReceipt (message_id (header p))
  | MRequest _ | MRequestWithOptions _ _ => RPayload outcome
  | _ => RNothing
  end.

(** The steps of the client that are none of the calls below. *)
Definition is_env (l : clabel) : bool :=
  match l with Call _ _ | CallStep _ _ | Dropped _ | TakeEvents => false | _ => true end.

(** Every sender of the client's event queue is gone. *)
Definition stream_closed (c : client) : bool := negb (bg_sender (cl_bg c)) && negb (bg_forwarding (cl_bg c)).

Inductive blabel :=
  | BiCall (n : nat) (m : method)
  | BiEnter (n : nat)
  | BiStep (n : nat) (env : call_env)
  | BiOutcome (n : nat) (r : exec TransportError bytes)
  | BiDrop (n : nat)
  | BiEnv (l : clabel)
  | BiNext (n : nat)
  | BiPoll (n : nat)
  | BiNextDrop (n : nat).

(** The first poll with the guard: a lifecycle call begins, [is_connected]
    answers, the others build their packet. *)
Definition enter (n : nat) (m : method) (b : bindings L) : option (bindings L) :=
  match lifecycle_call m with
  | Some k => c ← client_step powi (Call n k) (bi_client b); Some (set_call n (BiLifecycle m) (set_client c b))
  | None =>
      match m with
      | MIsConnected => Some (returns n m (Done (RBool (is_connected (cl_tp (bi_client b))))) b)
      | _ =>
          let '(t, p) := method_packet m (cl_tp (bi_client b)) in
          let b := set_client (put_tp t (bi_client b)) b in
          match p with
          | Done p => Some (set_call n (BiTraffic m p) b)
          | Throw e => Some (returns n m (Throw e) b)
          | Panic => Some (returns n m Panic b)
          end
      end
  end.

(** A lifecycle call moves, and its guard goes with its last step. *)
Definition lifecycle_step (n : nat) (m : method) (env : call_env) (b : bindings L) : option (bindings L) :=
  c ← client_step powi (CallStep n env) (bi_client b);
  let b := set_client c b in
  Some (match cl_calls c !! n ≫= call_returned with
        | Some r => returns n m (_ ← r; Done RNothing) b
        | None => b
        end).

(** ** [next_event] *)

Definition put_poller (n : nat) (r : option (option FfiClientEvent)) (b : bindings L) : bindings L :=
  mkBindings (bi_client b) (bi_lock b) (bi_calls b) (bi_stream b) (<[n := r]> (bi_pollers b)) (bi_seen b) (bi_handed b).

(** One poll under the mutex: kinds the bindings do not know are taken and
    skipped; with the queue empty it waits, or ends when the queue is closed. *)
Definition poll (n : nat) (b : bindings L) : bindings L :=
  let queue := bg_events (cl_bg (bi_client b)) in
  match next_event (drop (bi_seen b) queue) with
  | Some (e, rest) =>
      mkBindings (bi_client b) (bi_lock b) (bi_calls b) (lock_leave n (bi_stream b)) (<[n := Some (Some e)]> (bi_pollers b))
        (length queue - length rest)%nat (bi_handed b ++ [e])
  | None =>
      if stream_closed (bi_client b) then
        mkBindings (bi_client b) (bi_lock b) (bi_calls b) (lock_leave n (bi_stream b)) (<[n := Some None]> (bi_pollers b))
          (length queue) (bi_handed b)
      else mkBindings (bi_client b) (bi_lock b) (bi_calls b) (bi_stream b) (bi_pollers b) (length queue) (bi_handed b)
  end.

(** ** The system *)

Definition binding_step (l : blabel) (b : bindings L) : option (bindings L) :=
  match l with
  | BiCall n m =>
      if decide (bi_calls b !! n = None) then
        Some (mkBindings (bi_client b) (lock_join n (takes_exclusively m) (bi_lock b)) (<[n := BiWaiting m]> (bi_calls b))
          (bi_stream b) (bi_pollers b) (bi_seen b) (bi_handed b))
      else None
  | BiEnter n =>
      match bi_calls b !! n with
      | Some (BiWaiting m) => if lock_holds n (bi_lock b) then enter n m b else None
      | _ => None
      end
  | BiStep n env =>
      match bi_calls b !! n with Some (BiLifecycle m) => lifecycle_step n m env b | _ => None end
  | BiOutcome n r =>
      match bi_calls b !! n with
      | Some (BiTraffic m p) => Some (returns n m (outcome ← r; Done (method_reply m p outcome)) b)
      | _ => None
      end
  | BiDrop n =>
      match bi_calls b !! n with
      | Some (BiLifecycle m) => c ← client_step powi (Dropped n) (bi_client b); Some (forget n (set_client c b))
      | Some (BiWaiting _) | Some (BiTraffic _ _) => Some (forget n b)
      | _ => None
      end
  | BiEnv l => if is_env l then c ← client_step powi l (bi_client b); Some (set_client c b) else None
  | BiNext n =>
      if decide (bi_pollers b !! n = None) then
        Some (mkBindings (bi_client b) (bi_lock b) (bi_calls b) (lock_join n true (bi_stream b)) (<[n := None]> (bi_pollers b))
          (bi_seen b) (bi_handed b))
      else None
  | BiPoll n =>
      match bi_pollers b !! n with
      | Some None => if lock_holds n (bi_stream b) then Some (poll n b) else None
      | _ => None
      end
  | BiNextDrop n =>
      match bi_pollers b !! n with
      | Some None =>
          Some (mkBindings (bi_client b) (bi_lock b) (bi_calls b) (lock_leave n (bi_stream b)) (delete n (bi_pollers b))
            (bi_seen b) (bi_handed b))
      | _ => None
      end
  end.

(** A step that is not enabled changes nothing. *)
Definition binding_run (ls : list blabel) (b : bindings L) : bindings L :=
  foldl (fun b l => default b (binding_step l b)) b ls.
End Bindings.
