(* ===== verification/BindingsProps.v ===== *)
(** * The client object of the bindings: its lock and its events

    The line of the lock; the object's invariant; every call gets the borrow the
    client demands of it and nobody is overtaken; the events and their end. *)

From Stdlib Require Import SpecFloat.
From S2P Require Import Prelude Packet Errors Limits Stream Events Registry Writes Transport Actor Retry Client ClientInv ClientProps Config Tls Builders Bindings.

(** ** The line *)

Definition shared (w : nat * bool) : Prop := snd w = false.

Lemma fits_cases held w : fits held w = true <-> held = [] \/ shared w /\ Forall shared held.
Proof.
  unfold fits, shared. destruct held as [|h held]; [naive_solver|].
  rewrite andb_true_iff, negb_true_iff, forallb_forall, Forall_forall.
  setoid_rewrite list_elem_of_In. setoid_rewrite negb_true_iff. naive_solver.
Qed.

Lemma through_app line : forall held, exists a, (let_through held line).1 = held ++ a /\ line = a ++ (let_through held line).2.
Proof.
  induction line as [|w line IH]; intros held; cbn; [exists []; by rewrite app_nil_r|].
  destruct (fits held w); [|exists []; by rewrite app_nil_r].
  destruct (IH (held ++ [w])) as (a & E1 & E2). exists (w :: a). rewrite E1, <- app_assoc. split; [done|]. cbn. by rewrite <- E2.
Qed.

(** One exclusive holder, or shared ones. *)
Definition compatible (held : list (nat * bool)) : Prop := (exists n, held = [(n, true)]) \/ Forall shared held.

Lemma through_compatible line : forall held, compatible held -> compatible (let_through held line).1.
Proof.
  induction line as [|w line IH]; intros held Hh; cbn; [done|]. destruct (fits held w) eqn:Hf; [|done].
  apply IH. apply fits_cases in Hf as [->|[Hw Hs]].
  - destruct w as [n []]; [left; by exists n|right; by repeat constructor].
  - right. apply Forall_app. by repeat constructor.
Qed.

Lemma through_prefix line : forall held, Forall shared line -> Forall shared held -> let_through held line = (held ++ line, []).
Proof.
  induction line as [|w line IH]; intros held Hl Hh; cbn; [by rewrite app_nil_r|]. inversion Hl; subst.
  rewrite (proj2 (fits_cases held w)) by auto. rewrite IH by (try done; apply Forall_app; by repeat constructor).
  by rewrite <- app_assoc.
Qed.

Lemma through_held_app a : forall held line, let_through held a = (held ++ a, []) -> let_through held (a ++ line) = let_through (held ++ a) line.
Proof.
  induction a as [|w a IH]; intros held line Ha; cbn in *; [by rewrite app_nil_r|].
  destruct (fits held w) eqn:Hf.
  - rewrite IH; [by rewrite <- app_assoc|]. rewrite Ha. by rewrite <- app_assoc.
  - injection Ha as Ha _. exfalso. apply (f_equal length) in Ha. rewrite length_app in Ha. cbn in Ha. lia.
Qed.

(** A compatible start of the line is served. *)
Lemma served_start held line : compatible held -> held `prefix_of` served (held ++ line).
Proof.
  intros Hh. unfold served. rewrite (through_held_app held []).
  - destruct (through_app line ([] ++ held)) as (a & -> & _). by exists a.
  - destruct Hh as [[n ->]|Hs]; [done|]. by apply through_prefix.
Qed.

Lemma served_spec line : compatible (served line) /\ exists rest, line = served line ++ rest.
Proof.
  split; [apply through_compatible; right; constructor|].
  destruct (through_app line []) as (a & E1 & E2). exists (let_through [] line).2. unfold served. by rewrite E1.
Qed.

Lemma compatible_filter P `{!forall x, Decision (P x)} held : compatible held -> compatible (filter P held).
Proof.
  intros [[n ->]|Hs]; [|right; apply Forall_forall; rewrite Forall_forall in Hs; intros x [_ Hx]%list_elem_of_filter; by apply Hs]. cbn. destruct (decide (P (n, true))); [left; by exists n|right; constructor].
Qed.

Lemma served_join line w k : k ∈ (served line).*1 -> k ∈ (served (line ++ [w])).*1.
Proof.
  destruct (served_spec line) as [Hc [rest E]]. rewrite E at 2. rewrite <- app_assoc.
  destruct (served_start (served line) (rest ++ [w]) Hc) as [x ->]. rewrite fmap_app. set_solver.
Qed.

Lemma served_leave line n k : k <> n -> k ∈ (served line).*1 -> k ∈ (served (filter (fun w => fst w <> n) line)).*1.
Proof.
  intros Hk Hs. destruct (served_spec line) as [Hc [rest E]]. rewrite E, filter_app.
  destruct (served_start (filter (fun w => fst w <> n) (served line)) (filter (fun w => fst w <> n) rest)
    (compatible_filter _ _ Hc)) as [x ->].
  rewrite fmap_app. apply elem_of_app. left. apply list_elem_of_fmap in Hs as (w & -> & Hw).
  apply list_elem_of_fmap. exists w. by rewrite list_elem_of_filter.
Qed.

(** A guard in exclusive mode is the only one. *)
Lemma served_exclusive line n w : (n, true) ∈ served line -> w ∈ served line -> w = (n, true).
Proof.
  destruct (served_spec line) as [[[m ->]|Hs] _]; [set_solver|]. rewrite Forall_forall in Hs. intros Hn _. by apply Hs in Hn.
Qed.

Lemma served_elem line w : w ∈ served line -> w ∈ line.
Proof. destruct (served_spec line) as [_ [rest E]]. rewrite E at 2. set_solver. Qed.

Lemma served_alone line n e : NoDup line.*1 -> (n, e) ∈ line -> n ∈ (served line).*1 -> (n, e) ∈ served line.
Proof.
  intros Hnd Hin Hs. apply list_elem_of_fmap in Hs as ([n' e'] & -> & Hw). cbn in *.
  assert (e' = e) as ->; [|done]. pose proof (served_elem _ _ Hw) as Hw'.
  clear -Hnd Hin Hw'. induction line as [|[x y] line IH]; [set_solver|]. cbn in Hnd. apply NoDup_cons in Hnd as [Hx Hnd].
  apply elem_of_cons in Hin, Hw'. destruct Hin as [Hin|Hin], Hw' as [Hw|Hw]; simplify_eq; try done.
  - exfalso. apply Hx, list_elem_of_fmap. eexists. by split; [|exact Hw].
  - exfalso. apply Hx, list_elem_of_fmap. eexists. by split; [|exact Hin].
  - by apply IH.
Qed.

(** ** The client's calls under the object's *)

Section ClientCalls.
Context `{T : Target} (powi : spec_float -> Z -> spec_float).

Definition call_pc_kind (pc : call_pc) : nat :=
  match pc with
  | CtGate | CtCheck | CtBuilding | CtAnnouncing _ | CtPolicy _ | CtSession _ | CtForward | CtReturned _ => 0
  | DcTake _ | DcClosing _ _ | DcReturned _ => 1
  | ShStart | ShWait | ShJoin | ShReport _ | ShReturned _ => 2
  end%nat.

Lemma env_keeps_calls l c c' : is_env l = true -> client_step powi l c = Some c' -> cl_calls c' = cl_calls c.
Proof.
  intros Hl E.
  destruct l as [m q|m env|m|graceful| |now now' s e|s| |now clock| |r receipts conns]; try done; cbn [client_step] in E.
  - unfold teardown_step in E. destruct (cf_teardown _) as [pc0|]; [cbn [mbind option_bind] in E|done].
    destruct pc0; try done; repeat case_match; by simplify_eq/=.
  - unfold teardown_panics in E. repeat case_match; by simplify_eq/=.
  - repeat case_match; by simplify_eq/=.
  - repeat case_match; by simplify_eq/=.
  - destruct (forward_one _ _); [cbn in E|done]. by injection E as <-.
  - destruct (bg_scanning _); [|done]. by injection E as <-.
  - by injection E as <-.
Qed.

Lemma call_step_moves env n c c' : call_step powi env n c = Some c' ->
  exists pc pc', cl_calls c !! n = Some pc /\ is_returned pc = false /\ cl_calls c' = <[n := pc']> (cl_calls c) /\
    call_pc_kind pc' = call_pc_kind pc.
Proof.
  intros E. unfold call_step, connect_step, disconnect_step, shutdown_step, goto in E.
  destruct (cl_calls c !! n) as [pc|]; [cbn [mbind option_bind] in E|done]. exists pc.
  destruct pc; try done; repeat case_match; simplify_eq/=; eexists; by split_and!.
Qed.

Lemma call_returned_spec pc : is_returned pc = true <-> exists r, call_returned pc = Some r.
Proof. destruct pc; naive_solver. Qed.

(** A closed event queue gets nothing more. *)
Lemma closed_queue_stays l c c' : client_step powi l c = Some c' -> stream_closed c = true ->
  stream_closed c' = true /\ bg_events (cl_bg c') = bg_events (cl_bg c).
Proof.
  intros E Hc. unfold stream_closed in *. apply andb_true_iff in Hc as [Hs Hf]. apply negb_true_iff in Hs, Hf.
  destruct l as [m q|m env|m|graceful| |now now' s e|s| |now clock| |r receipts conns]; cbn [client_step] in E.
  - destruct (_ && _); [|done]. injection E as <-. cbn. by rewrite Hs, Hf.
  - unfold call_step, connect_step, disconnect_step, shutdown_step, goto in E.
    destruct (cl_calls c !! m) as [pc|]; [cbn [mbind option_bind] in E|done].
    unfold start_event_forwarding, start_request_scanner in E.
    destruct pc; try done; repeat case_match; simplify_eq/=; by rewrite ?Hs, ?Hf.
  - destruct (cl_calls c !! m); [cbn [mbind option_bind] in E|done]. case_match; [|done]. injection E as <-. cbn. by rewrite Hs, Hf.
  - unfold teardown_step in E. destruct (cf_teardown _) as [pc0|]; [cbn [mbind option_bind] in E|done].
    destruct pc0; try done; repeat case_match; simplify_eq/=; rewrite ?Hs, ?Hf; by repeat case_match.
  - unfold teardown_panics in E. repeat case_match; simplify_eq/=; by rewrite Hs, Hf.
  - repeat case_match; simplify_eq/=; by rewrite Hs, Hf.
  - repeat case_match; simplify_eq/=; by rewrite Hs, Hf.
  - unfold forward_one in E. by rewrite Hf in E.
  - destruct (bg_scanning _); [|done]. injection E as <-. cbn. by rewrite Hs, Hf.
  - unfold events in E. destruct (bg_receiver _); injection E as <-; cbn; by rewrite Hs, Hf.
  - injection E as <-. cbn. by rewrite Hs, Hf.
Qed.

(** Events are only added. *)
Lemma events_grow l c c' : client_step powi l c = Some c' -> bg_events (cl_bg c) `prefix_of` bg_events (cl_bg c').
Proof.
  intros E.
  destruct l as [m q|m env|m|graceful| |now now' s e|s| |now clock| |r receipts conns]; cbn [client_step] in E.
  - destruct (_ && _); [|done]. by injection E as <-.
  - unfold call_step, connect_step, disconnect_step, shutdown_step, goto in E.
    destruct (cl_calls c !! m) as [pc|]; [cbn [mbind option_bind] in E|done].
    unfold start_event_forwarding, start_request_scanner in E.
    destruct pc; try done; repeat case_match; by simplify_eq/=.
  - destruct (cl_calls c !! m); [cbn [mbind option_bind] in E|done]. case_match; [|done]. by injection E as <-.
  - unfold teardown_step in E. destruct (cf_teardown _) as [pc0|]; [cbn [mbind option_bind] in E|done].
    destruct pc0; try done; repeat case_match; by simplify_eq/=.
  - unfold teardown_panics in E. repeat case_match; by simplify_eq/=.
  - repeat case_match; by simplify_eq/=.
  - repeat case_match; by simplify_eq/=.
  - unfold forward_one in E. destruct (bg_forwarding _); [|done].
    destruct (_ !! _); [cbn in E|done]. injection E as <-. cbn. by apply prefix_app_r.
  - destruct (bg_scanning _); [|done]. by injection E as <-.
  - unfold events in E. destruct (bg_receiver _); by injection E as <-.
  - by injection E as <-.
Qed.
End ClientCalls.

(** ** The invariant *)

Definition wants (pc : binding_pc) : option bool :=
  match pc with
  | BiWaiting m | BiLifecycle m | BiTraffic m _ => Some (takes_exclusively m)
  | BiReturned _ _ => None
  end.
Definition in_progress (pc : binding_pc) : bool :=
  match pc with BiLifecycle _ | BiTraffic _ _ => true | _ => false end.

(** A call of the object and the client's call under it. *)
Definition agrees (o : option binding_pc) (q : option call_pc) : Prop :=
  match o with
  | Some (BiLifecycle m) =>
      exists k pc, lifecycle_call m = Some k /\ q = Some pc /\ is_returned pc = false /\
        call_pc_kind pc = call_pc_kind (first_pc k)
  | Some (BiReturned m r) =>
      match lifecycle_call m with
      | Some k => exists pc r0, q = Some pc /\ call_pc_kind pc = call_pc_kind (first_pc k) /\ call_returned pc = Some r0 /\
          r = map_err MsgtransError_from (_ ← r0; Done RNothing)
      | None => q = None
      end
  | Some (BiTraffic m _) => lifecycle_call m = None /\ q = None
  | _ => q = None
  end.

Section Properties.
Context `{C : Codecs} `{T : Target} {L : Type} `{K : RwLock L} `{KL : !RwLockLaws L} (powi : spec_float -> Z -> spec_float).

Definition line (b : bindings L) : list (nat * bool) := lock_line (bi_lock b).

Record bi_inv (b : bindings L) : Prop := {
  bv_client : inv (bi_client b);
  bv_lock : lock_ok (bi_lock b);
  bv_nodup : NoDup (line b).*1;
  bv_line : forall n e, (n, e) ∈ line b <-> bi_calls b !! n ≫= wants = Some e;
  bv_held : forall n pc, bi_calls b !! n = Some pc -> in_progress pc = true -> n ∈ (served (line b)).*1;
  bv_calls : forall n, agrees (bi_calls b !! n) (cl_calls (bi_client b) !! n)
}.

(** A call that changes where it is but keeps its place in the line. *)
Lemma bi_inv_move n m pc c b : bi_inv b -> bi_calls b !! n ≫= wants = Some (takes_exclusively m) -> wants pc = Some (takes_exclusively m) ->
  n ∈ (served (line b)).*1 -> inv c ->
  agrees (Some pc) (cl_calls c !! n) -> (forall k, k <> n -> cl_calls c !! k = cl_calls (bi_client b) !! k) ->
  bi_inv (set_call n pc (set_client c b)).
Proof.
  intros [H1 H2 H3 H4 H5 H6] Hw Hpc Hs Hc Ha Ho. split; try done; cbn.
  - intros k e. rewrite H4. destruct (decide (k = n)) as [->|]; [|by rewrite lookup_insert_ne].
    rewrite lookup_insert_eq, Hw. cbn. by rewrite Hpc.
  - intros k pc' Hk Hp. destruct (decide (k = n)) as [->|]; [done|]. rewrite lookup_insert_ne in Hk by done. by eapply H5.
  - intros k. destruct (decide (k = n)) as [->|]; [by rewrite lookup_insert_eq|]. rewrite lookup_insert_ne, Ho by done. apply H6.
Qed.

(** A call that leaves the line. *)
Lemma bi_inv_leave n o c b : bi_inv b -> o ≫= wants = None -> inv c ->
  agrees o (cl_calls c !! n) -> (forall k, k <> n -> cl_calls c !! k = cl_calls (bi_client b) !! k) ->
  bi_inv (mkBindings c (lock_leave n (bi_lock b)) (partial_alter (fun _ => o) n (bi_calls b))
    (bi_stream b) (bi_pollers b) (bi_seen b) (bi_handed b)).
Proof.
  intros [H1 H2 H3 H4 H5 H6] Hw Hc Ha Ho. destruct (lock_leave_ok n (bi_lock b) H2) as [Hl1 Hl2].
  split; try done; unfold line in *; cbn; rewrite ?Hl2.
  - eapply sublist_NoDup; [exact H3|]. apply (fmap_sublist fst), sublist_filter.
  - intros k e. rewrite list_elem_of_filter, H4. cbn. destruct (decide (k = n)) as [->|].
    + rewrite lookup_partial_alter_eq, Hw. naive_solver.
    + rewrite lookup_partial_alter_ne by done. naive_solver.
  - intros k pc Hk Hp. destruct (decide (k = n)) as [->|Hne].
    + rewrite lookup_partial_alter_eq in Hk. subst o. cbn in Hw. by destruct pc.
    + rewrite lookup_partial_alter_ne in Hk by done. apply served_leave; [done|]. by eapply H5.
  - intros k. destruct (decide (k = n)) as [->|]; [by rewrite lookup_partial_alter_eq|].
    rewrite lookup_partial_alter_ne, Ho by done. apply H6.
Qed.

(** Whoever is first in a compatible line has the borrow the client demands. *)
Lemma borrow_granted n m k b : bi_inv b -> bi_calls b !! n = Some (BiWaiting m) -> lifecycle_call m = Some k ->
  n ∈ (served (line b)).*1 -> cl_calls (bi_client b) !! n = None /\ may_call k (bi_client b) = true.
Proof.
  intros [H1 H2 H3 H4 H5 H6] Hn Hk Hs. pose proof (H6 n) as Hagree. rewrite Hn in Hagree. split; [done|].
  assert (Hin : (n, takes_exclusively m) ∈ served (line b)).
  { apply served_alone; [done| |done]. apply H4. by rewrite Hn. }
  assert (Hother : forall j pc, cl_calls (bi_client b) !! j = Some pc -> is_returned pc = false ->
    takes_exclusively m = false /\ is_connect pc = false).
  { intros j pc Hj Hpc. specialize (H6 j). rewrite Hj in H6. destruct (bi_calls b !! j) as [[|m'|m' p|m' r]|] eqn:Hbj; try done; [|by destruct H6|].
    - destruct H6 as (k' & pc' & Hk' & [= <-] & _ & Hkind).
      assert (Hjs : (j, takes_exclusively m') ∈ served (line b)).
      { apply served_alone; [done| |by eapply H5]. apply H4. by rewrite Hbj. }
      destruct (takes_exclusively m) eqn:Em.
      { pose proof (served_exclusive _ _ _ Hin Hjs) as Heq. injection Heq as -> _. by rewrite Hn in Hbj. }
      split; [done|]. destruct (takes_exclusively m') eqn:Em'.
      { by pose proof (served_exclusive _ _ _ Hjs Hin) as Heq. }
      destruct m'; try done. injection Hk' as <-. by destruct pc.
    - cbn in H6. destruct (lifecycle_call m'); [|done]. destruct H6 as (pc' & r0 & [= <-] & _ & Hr & _).
      assert (is_returned pc = true) by (apply call_returned_spec; eauto). congruence. }
  destruct m; try done; injection Hk as <-; cbn; apply bool_decide_eq_true; intros j pc Hj; cbn;
    destruct (is_returned pc) eqn:Hr; try done; try (destruct (Hother j pc Hj Hr); done); by destruct pc.
Qed.

Lemma forget_alter n c b : forget n (set_client c b) = mkBindings c (lock_leave n (bi_lock b))
  (partial_alter (fun _ => None) n (bi_calls b)) (bi_stream b) (bi_pollers b) (bi_seen b) (bi_handed b).
Proof. done. Qed.

(** The client's call under a lifecycle call of the object. *)
Lemma lifecycle_under n m b : bi_inv b -> bi_calls b !! n = Some (BiLifecycle m) ->
  exists k pc, lifecycle_call m = Some k /\ cl_calls (bi_client b) !! n = Some pc /\ is_returned pc = false /\
    call_pc_kind pc = call_pc_kind (first_pc k).
Proof. intros Hi Hn. pose proof (bv_calls b Hi n) as Ha. by rewrite Hn in Ha. Qed.

Lemma bv_traffic n m p b : bi_inv b -> bi_calls b !! n = Some (BiTraffic m p) ->
  lifecycle_call m = None /\ cl_calls (bi_client b) !! n = None.
Proof. intros Hi Hn. pose proof (bv_calls b Hi n) as Ha. by rewrite Hn in Ha. Qed.

Lemma lifecycle_inv n m env b b' : bi_inv b -> bi_calls b !! n = Some (BiLifecycle m) ->
  lifecycle_step powi n m env b = Some b' -> bi_inv b'.
Proof.
  intros Hi Hn E. unfold lifecycle_step in E. destruct (client_step _ _ _) as [c|] eqn:Ec; [cbn [mbind option_bind] in E|done].
  destruct (call_step_moves powi env n _ c Ec) as (pc & pc' & Hpc & Hret & Hcalls & Hkind).
  destruct (lifecycle_under n m b Hi Hn) as (k & pc0 & Hk & Hpc0 & _ & Hk0). simplify_eq.
  assert (Hc : inv c) by (eapply inv_step; [apply Hi|exact Ec]).
  assert (Hother : forall j, j <> n -> cl_calls c !! j = cl_calls (bi_client b) !! j) by (intros j Hj; by rewrite Hcalls, lookup_insert_ne).
  rewrite Hcalls, lookup_insert_eq. cbn [mbind option_bind].
  destruct (call_returned pc') as [r|] eqn:Hr.
  - apply (bi_inv_leave n (Some _) c b); try done.
    rewrite Hcalls, lookup_insert_eq. cbn. rewrite Hk. exists pc', r. split_and!; try done. congruence.
  - replace (set_client c b) with (set_call n (BiLifecycle m) (set_client c b)).
    + apply (bi_inv_move n m); try done; [by rewrite Hn|by eapply (bv_held b Hi)|].
      rewrite Hcalls, lookup_insert_eq. exists k, pc'. split_and!; [done|done| |congruence].
      destruct (is_returned pc') eqn:Hp; [|done]. apply call_returned_spec in Hp as [r Hr']. congruence.
    + unfold set_call, set_client. cbn. by rewrite insert_id.
Qed.

Lemma method_packet_traffic m t : exists r, (method_packet m t).1 = set_tp_registry r t.
Proof.
  assert (Hid : exists r, t = set_tp_registry r t) by (exists (tp_registry t); by destruct t).
  destruct m; cbn [method_packet]; try done.
  - unfold client_send. destruct (current_session_id t); [|done]. destruct (next_oneway_id _). by eexists.
  - unfold client_send_detached. destruct (is_connected t); [|done]. destruct (next_oneway_id _). by eexists.
  - unfold send_with_options. destruct (next_oneway_id _). by eexists.
  - unfold client_request. destruct (is_connected t); [|done]. unfold allocate_request_id.
    destruct (next_request_id _ _) as [[i|] r]; by eexists.
  - unfold allocate_request_id. destruct (next_request_id _ _) as [[i|] r]; by eexists.
Qed.

Lemma enter_inv n m b b' : bi_inv b -> bi_calls b !! n = Some (BiWaiting m) -> n ∈ (served (line b)).*1 ->
  enter powi n m b = Some b' -> bi_inv b'.
Proof.
  intros Hi Hn Hs E. unfold enter in E. pose proof (bv_calls b Hi n) as Hnone. rewrite Hn in Hnone. cbn in Hnone.
  destruct (lifecycle_call m) as [k|] eqn:Hk.
  - destruct (client_step _ _ _) as [c|] eqn:Ec; [cbn [mbind option_bind] in E|done]. injection E as <-.
    assert (Hc : inv c) by (eapply inv_step; [apply Hi|exact Ec]).
    cbn [client_step] in Ec. destruct (_ && _); [|done]. injection Ec as <-.
    apply (bi_inv_move n m); try done; [by rewrite Hn| |].
    + cbn. rewrite lookup_insert_eq. exists k, (first_pc k). split_and!; try done. by destruct k.
    + intros j Hj. cbn. by rewrite lookup_insert_ne.
  - assert (Hleave : forall t r, subsides (cl_tp (bi_client b)) t ->
      bi_inv (returns n m r (set_client (put_tp t (bi_client b)) b))).
    { intros t r Ht. apply (bi_inv_leave n (Some _) (put_tp t (bi_client b)) b); try done; [by apply inv_tp, Hi|]. cbn. by rewrite Hk, Hnone. }
    assert (Hother : (let '(t, p) := method_packet m (cl_tp (bi_client b)) in
        let b := set_client (put_tp t (bi_client b)) b in
        match p with
        | Done p => Some (set_call n (BiTraffic m p) b)
        | Throw e => Some (returns n m (Throw e) b)
        | Panic => Some (returns n m Panic b)
        end) = Some b' -> bi_inv b').
    { destruct (method_packet_traffic m (cl_tp (bi_client b))) as [r Hr].
      destruct (method_packet _ _) as [t p]. cbn in Hr. subst t.
      destruct p as [p|e|]; intros [= <-]; try (apply Hleave, subsides_registry).
      apply (bi_inv_move n m); try done; [by rewrite Hn|apply inv_tp; [apply subsides_registry|apply Hi]]. }
    destruct m; try (by apply Hother). injection E as <-. by apply (bi_inv_leave n (Some _) (bi_client b) b); [| |apply Hi| |].
Qed.

Lemma bi_inv_step l b b' : bi_inv b -> binding_step powi l b = Some b' -> bi_inv b'.
Proof.
  intros Hi E. destruct l as [n m|n|n env|n r|n|l|n|n|n]; cbn [binding_step] in E.
  - destruct (decide _) as [Hn|]; [|done]. injection E as <-.
    destruct Hi as [H1 H2 H3 H4 H5 H6]. destruct (lock_join_ok n (takes_exclusively m) _ H2) as [Hj1 Hj2].
    assert (Hout : n ∉ (line b).*1).
    { intros ([k e] & -> & Hk%H4)%list_elem_of_fmap. cbn in Hn. by rewrite Hn in Hk. }
    split; try done; unfold line in *; cbn; rewrite ?Hj2.
    + rewrite fmap_app. apply NoDup_app. split_and!; [done| |by repeat constructor; set_solver].
      intros k Hk ->%list_elem_of_singleton. done.
    + intros k e. rewrite elem_of_app, H4, list_elem_of_singleton. destruct (decide (k = n)) as [->|].
      * rewrite lookup_insert_eq, Hn. cbn. naive_solver.
      * rewrite lookup_insert_ne by done. naive_solver.
    + intros k pc Hk Hp. apply served_join. destruct (decide (k = n)) as [->|].
      * rewrite lookup_insert_eq in Hk. by injection Hk as <-.
      * rewrite lookup_insert_ne in Hk by done. by eapply H5.
    + intros k. destruct (decide (k = n)) as [->|]; [|by rewrite lookup_insert_ne].
      rewrite lookup_insert_eq. specialize (H6 n). by rewrite Hn in H6.
  - destruct (bi_calls b !! n) as [[m| | |]|] eqn:Hn; try done. destruct (lock_holds n (bi_lock b)) eqn:Hh; [|done].
    apply lock_holds_ok in Hh; [|apply Hi]. by eapply enter_inv.
  - destruct (bi_calls b !! n) as [[|m| |]|] eqn:Hn; try done. by eapply lifecycle_inv.
  - destruct (bi_calls b !! n) as [[| |m p|]|] eqn:Hn; try done. injection E as <-.
    destruct (bv_traffic n m p b Hi Hn) as [Hm Ha].
    apply (bi_inv_leave n (Some _) (bi_client b) b); try done; [apply Hi|]. cbn. by rewrite Hm, Ha.
  - destruct (bi_calls b !! n) as [[m|m|m p|]|] eqn:Hn; try done.
    + injection E as <-. apply (bi_inv_leave n None (bi_client b) b); try done; [apply Hi|]. pose proof (bv_calls b Hi n) as Ha. by rewrite Hn in Ha.
    + destruct (client_step _ _ _) as [c|] eqn:Ec; [cbn [mbind option_bind] in E|done]. injection E as <-.
      assert (Hc : inv c) by (eapply inv_step; [apply Hi|exact Ec]). cbn [client_step] in Ec.
      destruct (cl_calls _ !! n) as [pc|]; [cbn [mbind option_bind] in Ec|done]. destruct (may_drop pc); [|done]. injection Ec as <-.
      apply (bi_inv_leave n None _ b); try done; cbn; [by rewrite lookup_delete_eq|]. intros k Hk. by rewrite lookup_delete_ne.
    + injection E as <-. apply (bi_inv_leave n None (bi_client b) b); try done; [apply Hi|]. by destruct (bv_traffic n m p b Hi Hn).
  - destruct (is_env l) eqn:Hl; [|done]. destruct (client_step _ _ _) as [c|] eqn:Ec; [cbn [mbind option_bind] in E|done].
    injection E as <-. destruct Hi as [H1 H2 H3 H4 H5 H6]. split; try done; cbn; [by eapply inv_step|].
    by rewrite (env_keeps_calls powi l _ c Hl Ec).
  - destruct (decide _); [|done]. injection E as <-. by destruct Hi.
  - destruct (bi_pollers b !! n) as [[|]|]; try done. destruct (lock_holds _ _); [|done]. injection E as <-.
    unfold poll. destruct (next_event _) as [[e rest]|]; [by destruct Hi|]. destruct (stream_closed _); by destruct Hi.
  - destruct (bi_pollers b !! n) as [[|]|]; try done. injection E as <-. by destruct Hi.
Qed.

Lemma bi_inv_run ls : forall b, bi_inv b -> bi_inv (binding_run powi ls b).
Proof.
  induction ls as [|l ls IH]; intros b Hi; [done|]. apply IH. cbn.
  destruct (binding_step powi l b) as [b'|] eqn:E; [by eapply bi_inv_step|done].
Qed.

(** ** The client's run under the object's *)

(** Every label is a step the client takes. *)
Fixpoint client_path (ls : list clabel) (c : client) : option client :=
  match ls with [] => Some c | l :: ls => c ← client_step powi l c; client_path ls c end.

Lemma client_path_app ls1 ls2 c : client_path (ls1 ++ ls2) c = (c ← client_path ls1 c; client_path ls2 c).
Proof. revert c. induction ls1 as [|l ls1 IH]; intros c; [done|]. cbn. destruct (client_step _ _ _); [apply IH|done]. Qed.

Lemma traffic_path r c : client_path [Traffic r (tp_receipts (cl_tp c)) (tp_conns (cl_tp c))] c = Some (put_tp (set_tp_registry r (cl_tp c)) c).
Proof. done. Qed.

Lemma step_path l b b' : binding_step powi l b = Some b' -> exists cls, client_path cls (bi_client b) = Some (bi_client b').
Proof.
  intros E.
  assert (Hone : forall l' c, client_step powi l' (bi_client b) = Some c -> exists cls, client_path cls (bi_client b) = Some c).
  { intros l' c Hc. exists [l']. cbn. by rewrite Hc. }
  assert (Hid : exists cls, client_path cls (bi_client b) = Some (bi_client b)) by by exists [].
  destruct l as [n m|n|n env|n r|n|l|n|n|n]; cbn [binding_step] in E.
  - destruct (decide _); [|done]. by injection E as <-.
  - destruct (bi_calls b !! n) as [[m| | |]|]; try done. destruct (lock_holds _ _); [|done]. unfold enter in E.
    destruct (lifecycle_call m) as [k|].
    + destruct (client_step _ _ _) as [c|] eqn:Ec; [cbn [mbind option_bind] in E|done]. injection E as <-. by eapply Hone.
    + destruct (method_packet_traffic m (cl_tp (bi_client b))) as [r Hr].
      destruct (method_packet _ _) as [t p]. cbn in Hr. subst t.
      assert (Htr := traffic_path r (bi_client b)).
      destruct m; try (injection E as <-; exact Hid); destruct p; injection E as <-; by eexists.
  - destruct (bi_calls b !! n) as [[|m| |]|]; try done. unfold lifecycle_step in E.
    destruct (client_step _ _ _) as [c|] eqn:Ec; [cbn [mbind option_bind] in E|done]. injection E as <-.
    destruct (cl_calls c !! n ≫= call_returned); by eapply Hone.
  - destruct (bi_calls b !! n) as [[| |m p|]|]; try done. by injection E as <-.
  - destruct (bi_calls b !! n) as [[m|m|m p|]|]; try done; [by injection E as <-| |by injection E as <-].
    destruct (client_step _ _ _) as [c|] eqn:Ec; [cbn [mbind option_bind] in E|done]. injection E as <-. by eapply Hone.
  - destruct (is_env l); [|done]. destruct (client_step _ _ _) as [c|] eqn:Ec; [cbn [mbind option_bind] in E|done].
    injection E as <-. by eapply Hone.
  - destruct (decide _); [|done]. by injection E as <-.
  - destruct (bi_pollers b !! n) as [[|]|]; try done. destruct (lock_holds _ _); [|done]. injection E as <-.
    unfold poll. destruct (next_event _) as [[e rest]|]; [done|]. by destruct (stream_closed _).
  - destruct (bi_pollers b !! n) as [[|]|]; try done. by injection E as <-.
Qed.

Lemma run_path ls : forall b, exists cls, client_path cls (bi_client b) = Some (bi_client (binding_run powi ls b)).
Proof.
  induction ls as [|l ls IH]; intros b; [by exists []|]. cbn. destruct (binding_step powi l b) as [b'|] eqn:E; [|apply IH].
  destruct (step_path l b b' E) as [cls1 H1], (IH b') as [cls2 H2]. exists (cls1 ++ cls2). by rewrite client_path_app, H1.
Qed.

(** The object as it is built. *)
Lemma new_spec debug config b : MsgtransClient_new (L := L) debug config = Done b ->
  exists builder c, ffi_builder config = Done builder /\ cb_build debug builder = Done c /\
    client_path [TakeEvents] c = Some (bi_client b) /\ inv (bi_client b) /\
    b = mkBindings (bi_client b) lock_new ∅ lock_new ∅ 0%nat [] /\
    bg_events (cl_bg (bi_client b)) = [] /\ cl_calls (bi_client b) = ∅.
Proof.
  unfold MsgtransClient_new. intros H. exec_inv H. unfold cb_build in H. cbn in H. injection H as <-.
  eexists _, _. by split_and!.
Qed.

Lemma bi_inv_new debug config b : MsgtransClient_new debug config = Done b -> bi_inv b.
Proof.
  intros (builder & c & _ & _ & _ & Hi & Hb & _ & Hcalls)%new_spec.
  rewrite Hb. destruct lock_new_ok as [Hl1 Hl2]. split; unfold line; cbn; rewrite ?Hl2; try done; [constructor|set_solver|].
  intros n. rewrite lookup_empty. by rewrite Hcalls, lookup_empty.
Qed.

(** ** Every call gets its borrow *)

(** The object only makes the client do what its signatures allow: its client
    is one the client's own run reaches, every step of it enabled, so the
    lifecycle's theorems hold of it; a call that is served starts, its exclusive
    or shared borrow being there; while [connect] or [shutdown] runs no other
    call is in progress; and what such a call returned is what the client's
    call of that kind returned, with the error translated. *)
Theorem every_call_gets_its_borrow debug config b0 ls :
  MsgtransClient_new debug config = Done b0 ->
  let b := binding_run powi ls b0 in
  (exists builder c cls, ffi_builder config = Done builder /\ cb_build debug builder = Done c /\
    client_path cls c = Some (bi_client b)) /\
  (forall n m, bi_calls b !! n = Some (BiWaiting m) -> lock_holds n (bi_lock b) = true ->
    is_Some (binding_step powi (BiEnter n) b)) /\
  (forall n m k pc, bi_calls b !! n = Some (BiLifecycle m) -> takes_exclusively m = true -> k <> n ->
    bi_calls b !! k = Some pc -> in_progress pc = false) /\
  (forall n m q r, bi_calls b !! n = Some (BiReturned m r) -> lifecycle_call m = Some q ->
    exists pc r0, cl_calls (bi_client b) !! n = Some pc /\ call_pc_kind pc = call_pc_kind (first_pc q) /\
      call_returned pc = Some r0 /\ r = map_err MsgtransError_from (_ ← r0; Done RNothing)).
Proof.
  intros Hnew b. pose proof (bi_inv_run ls b0 (bi_inv_new _ _ _ Hnew)) as Hi. split_and!.
  - destruct (new_spec _ _ _ Hnew) as (builder & c & H1 & H2 & H3 & _). destruct (run_path ls b0) as [cls Hcls].
    exists builder, c, ([TakeEvents] ++ cls). split_and!; [done|done|]. by rewrite client_path_app, H3.
  - fold b in Hi. clearbody b. intros n m Hn Hh. cbn. rewrite Hn, Hh. apply lock_holds_ok in Hh; [|apply Hi]. unfold enter.
    destruct (lifecycle_call m) as [k|] eqn:Hk.
    + destruct (borrow_granted n m k b Hi Hn Hk Hh) as [H1 H2]. cbn [client_step].
      rewrite (bool_decide_eq_true_2 _ H1), H2. by eexists.
    + destruct m; try done; destruct (method_packet _ _) as [t []]; by eexists.
  - fold b in Hi. clearbody b. intros n m k pc Hn Hm Hne Hk. destruct (in_progress pc) eqn:Hp; [|done]. exfalso. apply Hne.
    assert (Hs : (n, true) ∈ served (line b)).
    { apply served_alone; [apply Hi| |by eapply (bv_held b Hi)]. apply (bv_line b Hi). by rewrite Hn, <- Hm. }
    pose proof (bv_held b Hi k pc Hk Hp) as ([k' e] & -> & Hks)%list_elem_of_fmap.
    by injection (served_exclusive _ _ _ Hs Hks) as ->.
  - fold b in Hi. clearbody b. intros n m q r Hn Hq. pose proof (bv_calls b Hi n) as Ha. rewrite Hn in Ha. cbn in Ha.
    by rewrite Hq in Ha.
Qed.

(** ** Nobody is overtaken *)

(** What a step does to the lock and the calls. *)
Inductive step_shape (l : blabel) (b b' : bindings L) : Prop :=
  | Untouched : bi_lock b' = bi_lock b -> bi_calls b' = bi_calls b -> step_shape l b b'
  | Joined n m : bi_calls b !! n = None -> bi_lock b' = lock_join n (takes_exclusively m) (bi_lock b) ->
      bi_calls b' = <[n := BiWaiting m]> (bi_calls b) -> step_shape l b b'
  | Moved n pc : bi_lock b' = bi_lock b -> bi_calls b' = <[n := pc]> (bi_calls b) -> (forall m, pc <> BiWaiting m) -> step_shape l b b'
  | Left n o : bi_lock b' = lock_leave n (bi_lock b) -> bi_calls b' = partial_alter (fun _ => o) n (bi_calls b) ->
      o ≫= wants = None -> (o = None -> l = BiDrop n) -> step_shape l b b'.

Lemma step_shaped l b b' : binding_step powi l b = Some b' -> step_shape l b b'.
Proof.
  intros E.
  assert (Hret : forall n m r c, b' = returns n m r (set_client c b) -> step_shape l b b').
  { intros n m r c ->. by eapply (Left l b _ n (Some (BiReturned m (map_err MsgtransError_from r)))). }
  assert (Hforget : forall n c, l = BiDrop n -> b' = forget n (set_client c b) -> step_shape l b b').
  { intros n c Hl ->. by eapply (Left l b _ n None). }
  destruct l as [n m|n|n env|n r|n|l|n|n|n]; cbn [binding_step] in E.
  - destruct (decide _); [|done]. injection E as <-. by eapply Joined.
  - destruct (bi_calls b !! n) as [[m| | |]|]; try done. destruct (lock_holds _ _); [|done]. unfold enter in E.
    destruct (lifecycle_call m) as [k|].
    + destruct (client_step _ _ _) as [c|]; [cbn [mbind option_bind] in E|done]. injection E as <-. by eapply Moved.
    + destruct m; try (injection E as <-; by eapply (Hret n _ _ (bi_client b)));
        destruct (method_packet _ _) as [t []]; injection E as <-; first [by eapply Moved|by eapply Hret].
  - destruct (bi_calls b !! n) as [[|m| |]|]; try done. unfold lifecycle_step in E.
    destruct (client_step _ _ _) as [c|]; [cbn [mbind option_bind] in E|done]. injection E as <-.
    destruct (cl_calls c !! n ≫= call_returned); [by eapply Hret|by apply Untouched].
  - destruct (bi_calls b !! n) as [[| |m p|]|]; try done. injection E as <-. by eapply (Hret n m _ (bi_client b)).
  - destruct (bi_calls b !! n) as [[m|m|m p|]|]; try done.
    + injection E as <-. by eapply (Hforget n (bi_client b)).
    + destruct (client_step _ _ _) as [c|]; [cbn [mbind option_bind] in E|done]. injection E as <-. by eapply Hforget.
    + injection E as <-. by eapply (Hforget n (bi_client b)).
  - destruct (is_env l); [|done]. destruct (client_step _ _ _); [cbn [mbind option_bind] in E|done]. injection E as <-. by apply Untouched.
  - destruct (decide _); [|done]. injection E as <-. by apply Untouched.
  - destruct (bi_pollers b !! n) as [[|]|]; try done. destruct (lock_holds _ _); [|done]. injection E as <-.
    unfold poll. destruct (next_event _) as [[e rest]|]; [by apply Untouched|]. destruct (stream_closed _); by apply Untouched.
  - destruct (bi_pollers b !! n) as [[|]|]; try done. injection E as <-. by apply Untouched.
Qed.

Lemma line_step l b b' : bi_inv b -> binding_step powi l b = Some b' ->
  line b' = line b \/ (exists w, line b' = line b ++ [w]) \/
  exists k, line b' = filter (fun w => fst w <> k) (line b) /\ bi_calls b' !! k ≫= wants = None.
Proof.
  intros Hi E. pose proof (bv_lock b Hi) as Hok. unfold line.
  destruct (step_shaped l b b' E) as [-> _|n m _ -> _|n pc -> _ _|n o -> -> Ho _]; [by left| |by left|].
  - right. left. eexists. apply (lock_join_ok n _ _ Hok).
  - right. right. exists n. by rewrite lookup_partial_alter_eq, (proj2 (lock_leave_ok n _ Hok)).
Qed.

(** A call that was not dropped is still there, and waits only if it waited. *)
Lemma waited l n b b' pc : l <> BiDrop n -> binding_step powi l b = Some b' -> bi_calls b !! n = Some pc ->
  exists pc', bi_calls b' !! n = Some pc' /\ forall m, pc' = BiWaiting m -> pc = BiWaiting m.
Proof.
  intros Hl E Hn. destruct (step_shaped l b b' E) as [_ ->|k m Hk _ ->|k pc0 _ -> Hpc|k o _ -> Ho Hd].
  - by exists pc.
  - exists pc. by rewrite lookup_insert_ne by congruence.
  - destruct (decide (k = n)) as [->|]; [rewrite lookup_insert_eq; exists pc0; naive_solver|].
    exists pc. by rewrite lookup_insert_ne.
  - destruct (decide (k = n)) as [->|]; [|exists pc; by rewrite lookup_partial_alter_ne].
    rewrite lookup_partial_alter_eq. destruct o as [pc'|]; [|by destruct Hl; apply Hd]. exists pc'. by destruct pc'.
Qed.

Lemma call_kept ls n : forall b, Forall (fun l => l <> BiDrop n) ls -> is_Some (bi_calls b !! n) ->
  is_Some (bi_calls (binding_run powi ls b) !! n).
Proof.
  induction ls as [|l ls IH]; intros b Hls [pc Hpc]; [by exists pc|]. inversion Hls; subst. apply IH; [done|].
  destruct (binding_step powi l b) as [b'|] eqn:E; [|by exists pc].
  destruct (waited l n b b' pc) as (pc' & Hpc' & _); [done..|]. by exists pc'.
Qed.

Lemma binding_run_snoc ls l b : binding_run powi (ls ++ [l]) b =
  default (binding_run powi ls b) (binding_step powi l (binding_run powi ls b)).
Proof. unfold binding_run. by rewrite foldl_app. Qed.

Lemma place_kept ls n e m b ahead behind : bi_inv b -> line b = ahead ++ (n, e) :: behind ->
  Forall (fun l => l <> BiDrop n) ls -> is_Some (bi_calls b !! n) -> bi_calls (binding_run powi ls b) !! n = Some (BiWaiting m) ->
  exists ahead' behind', line (binding_run powi ls b) = ahead' ++ (n, e) :: behind' /\ ahead' `sublist_of` ahead.
Proof.
  intros Hi Hline. induction ls as [|l ls IH] using rev_ind; intros Hls Hn Hm; [by exists ahead, behind|].
  apply Forall_app in Hls as [Hls Hl]. rewrite Forall_singleton in Hl. rewrite binding_run_snoc in *.
  destruct (call_kept ls n b Hls Hn) as [pc Hpc]. pose proof (bi_inv_run ls b Hi) as Hi1.
  destruct (binding_step powi l (binding_run powi ls b)) as [b'|] eqn:E; [cbn [default from_option id] in *|by apply IH].
  destruct (waited l n _ b' pc Hl E Hpc) as (pc' & Hpc' & Hw).
  assert (pc = BiWaiting m) as -> by (apply Hw; congruence).
  destruct (IH Hls Hn Hpc) as (ahead' & behind' & Hl' & Hsub).
  destruct (line_step l _ b' Hi1 E) as [->|[[w ->]|(k & -> & Hk)]].
  - by exists ahead', behind'.
  - exists ahead', (behind' ++ [w]). rewrite Hl', <- app_assoc. by split.
  - assert (k <> n) as Hkn by (intros ->; by rewrite Hm in Hk).
    exists (filter (fun w => fst w <> k) ahead'), (filter (fun w => fst w <> k) behind').
    rewrite Hl', filter_app, filter_cons_True by (cbn; congruence). split; [done|]. etrans; [apply sublist_filter|done].
Qed.

(** Nobody is overtaken: as long as a call waits and is not dropped, the calls
    before it in the line are among those that were there when it came; it is
    served once they are gone, and a shared one once no exclusive one is left
    among them; and while it waits, one of them is served. *)
Lemma nobody_is_overtaken debug config b0 ls0 ls n m ahead behind :
  MsgtransClient_new debug config = Done b0 ->
  let b := binding_run powi ls0 b0 in let b' := binding_run powi ls b in
  line b = ahead ++ (n, takes_exclusively m) :: behind -> is_Some (bi_calls b !! n) ->
  Forall (fun l => l <> BiDrop n) ls -> bi_calls b' !! n = Some (BiWaiting m) ->
  exists ahead' behind', line b' = ahead' ++ (n, takes_exclusively m) :: behind' /\ ahead' `sublist_of` ahead /\
    (ahead' = [] \/ takes_exclusively m = false /\ Forall shared ahead' -> lock_holds n (bi_lock b') = true) /\
    (lock_holds n (bi_lock b') = false -> exists k, k ∈ ahead'.*1 /\ lock_holds k (bi_lock b') = true).
Proof.
  intros Hnew b b' Hline Hn Hls Hm. pose proof (bi_inv_run ls0 b0 (bi_inv_new _ _ _ Hnew)) as Hi. fold b in Hi.
  destruct (place_kept ls n _ m b ahead behind Hi Hline Hls Hn Hm) as (ahead' & behind' & Hl & Hsub).
  fold b' in Hl. exists ahead', behind'. pose proof (bi_inv_run ls b Hi) as Hi'. fold b' in Hi'.
  assert (Hok := bv_lock b' Hi'). split_and!; [done|done| |].
  - intros Hserve. apply lock_holds_ok; [done|]. fold (line b'). rewrite Hl.
    assert (Hc : compatible (ahead' ++ [(n, takes_exclusively m)])).
    { destruct Hserve as [->|[-> Hs]]; [|right; apply Forall_app; by repeat constructor].
      destruct (takes_exclusively m); [left; by exists n|right; by repeat constructor]. }
    destruct (served_start _ behind' Hc) as [x Hx]. rewrite <- app_assoc in Hx. cbn in Hx. rewrite Hx, fmap_app, fmap_app. set_solver.
  - intros Hno. destruct ahead' as [|[k e] ahead'].
    + assert (lock_holds n (bi_lock b') = true); [|congruence]. apply lock_holds_ok; [done|]. fold (line b'). rewrite Hl.
      assert (Hc : compatible [(n, takes_exclusively m)]) by (destruct (takes_exclusively m); [left; by exists n|right; by repeat constructor]).
      destruct (served_start _ behind' Hc) as [x Hx]. cbn in Hx. cbn. rewrite Hx. set_solver.
    + exists k. split; [set_solver|]. apply lock_holds_ok; [done|]. fold (line b'). rewrite Hl.
      assert (Hc : compatible [(k, e)]) by (destruct e; [left; by exists k|right; by repeat constructor]).
      destruct (served_start _ (ahead' ++ (n, takes_exclusively m) :: behind') Hc) as [x Hx]. cbn in Hx. cbn. rewrite Hx. set_solver.
Qed.

(** ** The events and their end *)

Lemma next_event_spec queue : match next_event queue with
  | Some (e, rest) => exists skipped, queue = skipped ++ rest /\ omap map_event skipped = [e]
  | None => omap map_event queue = []
  end.
Proof.
  induction queue as [|x queue IH]; [done|]. cbn [next_event]. destruct (map_event x) as [e|] eqn:Hx.
  - exists [x]. split; [done|]. cbn [omap list_omap]. by rewrite Hx.
  - destruct (next_event queue) as [[e rest]|]; [|cbn [omap list_omap]; by rewrite Hx].
    destruct IH as (skipped & -> & Hs). exists (x :: skipped). split; [done|]. cbn [omap list_omap]. by rewrite Hx.
Qed.

Definition queued (b : bindings L) : list ClientEvent := bg_events (cl_bg (bi_client b)).

Record ev_inv (b : bindings L) : Prop := {
  ev_seen : (bi_seen b <= length (queued b))%nat;
  ev_handed : bi_handed b = omap map_event (take (bi_seen b) (queued b));
  ev_got : forall n e, bi_pollers b !! n = Some (Some (Some e)) -> e ∈ bi_handed b;
  ev_end : forall n, bi_pollers b !! n = Some (Some None) -> stream_closed (bi_client b) = true /\ bi_seen b = length (queued b)
}.

Lemma omap_split (n : nat) (q : list ClientEvent) : omap map_event q = omap map_event (take n q) ++ omap map_event (drop n q).
Proof. by rewrite <- omap_app, take_drop. Qed.

(** What the client does meanwhile. *)
Lemma ev_client b c : queued b `prefix_of` bg_events (cl_bg c) ->
  (stream_closed (bi_client b) = true -> stream_closed c = true /\ bg_events (cl_bg c) = queued b) ->
  ev_inv b -> ev_inv (set_client c b).
Proof.
  intros [x Hx] Hend [H1 H2 H3 H4]. split; unfold queued in *; cbn; rewrite ?Hx.
  - rewrite length_app. lia.
  - by rewrite take_app_le.
  - done.
  - intros n Hn. destruct (H4 n Hn) as [Hc Hs]. destruct (Hend Hc) as [Hc' He]. split; [done|].
    rewrite Hs. congruence.
Qed.

Lemma client_path_events cls : forall c c', client_path cls c = Some c' ->
  bg_events (cl_bg c) `prefix_of` bg_events (cl_bg c') /\
  (stream_closed c = true -> stream_closed c' = true /\ bg_events (cl_bg c') = bg_events (cl_bg c)).
Proof.
  induction cls as [|l cls IH]; intros c c'; cbn; [by intros [= <-]|].
  destruct (client_step powi l c) as [c1|] eqn:E; [cbn|done]. intros [Hp Hc]%IH. split.
  - etrans; [by eapply events_grow|done].
  - intros H0. destruct (closed_queue_stays powi l c c1 E H0) as [H1 <-]. by apply Hc.
Qed.

Lemma poll_handed n b : ev_inv b -> ev_inv (poll n b) /\ queued (poll n b) = queued b /\
  (stream_closed (bi_client b) = true -> exists x, bi_pollers (poll n b) !! n = Some (Some x) /\
    (x = None <-> bi_handed b = omap map_event (queued b))).
Proof.
  intros [H1 H2 H3 H4]. pose proof (omap_split (bi_seen b) (queued b)) as Hsplit. rewrite <- H2 in Hsplit.
  unfold poll. fold (queued b). pose proof (next_event_spec (drop (bi_seen b) (queued b))) as Hspec.
  destruct (next_event _) as [[e rest]|].
  - destruct Hspec as (skipped & Hdrop & Hs).
    assert (Hq : queued b = (take (bi_seen b) (queued b) ++ skipped) ++ rest) by (by rewrite <- app_assoc, <- Hdrop, take_drop).
    assert (Hread : forall pre, queued b = pre ++ rest -> take (length (queued b) - length rest) (queued b) = pre).
    { intros pre ->. apply take_app_length'. rewrite length_app. lia. }
    apply Hread in Hq. clear Hread.
    split_and!; [|done|].
    + split; unfold queued in *; cbn.
      * lia.
      * by rewrite Hq, omap_app, <- H2, Hs.
      * intros k x Hk. destruct (decide (k = n)) as [->|]; [rewrite lookup_insert_eq in Hk; simplify_eq; set_solver|].
        rewrite lookup_insert_ne in Hk by done. apply elem_of_app. left. by eapply H3.
      * intros k Hk. destruct (decide (k = n)) as [->|]; [by rewrite lookup_insert_eq in Hk|].
        rewrite lookup_insert_ne in Hk by done. destruct (H4 k Hk) as [Hc Hseen]. exfalso.
        apply (f_equal length) in Hdrop. rewrite length_drop, length_app in Hdrop. destruct skipped; [done|]. cbn in Hdrop. lia.
    + intros _. cbn. rewrite lookup_insert_eq. eexists. split; [done|]. split; [done|]. intros Heq. exfalso.
      rewrite Hdrop, omap_app, Hs in Hsplit. rewrite Hsplit in Heq. apply (f_equal length) in Heq. rewrite length_app in Heq. cbn in Heq. lia.
  - rewrite Hspec, app_nil_r in Hsplit. destruct (stream_closed (bi_client b)) eqn:Hc.
    + split_and!; [|done|].
      * split; unfold queued in *; cbn; [done|by rewrite firstn_all| |].
        -- intros k x Hk. destruct (decide (k = n)) as [->|]; [by rewrite lookup_insert_eq in Hk|].
           rewrite lookup_insert_ne in Hk by done. by eapply H3.
        -- done.
      * intros _. cbn. rewrite lookup_insert_eq. by exists None.
    + split_and!; [|done|done]. split; unfold queued in *; cbn; [done|by rewrite firstn_all|done|].
      intros k Hk. destruct (H4 k Hk). congruence.
Qed.

Lemma ev_calls b b' : bi_pollers b' = bi_pollers b -> bi_seen b' = bi_seen b -> bi_handed b' = bi_handed b ->
  (exists cls, client_path cls (bi_client b) = Some (bi_client b')) -> ev_inv b -> ev_inv b'.
Proof.
  intros H1 H2 H3 [cls [Hg Hc]%client_path_events] Hi. pose proof (ev_client b _ Hg Hc Hi) as [I1 I2 I3 I4].
  split; unfold queued in *; rewrite ?H1, ?H2, ?H3; done.
Qed.

Lemma ev_inv_step l b b' : binding_step powi l b = Some b' -> ev_inv b -> ev_inv b'.
Proof.
  intros E Hi. pose proof (step_path l b b' E) as Hpath.
  destruct l as [n m|n|n env|n r|n|l|n|n|n]; cbn [binding_step] in E.
  - destruct (decide _); [|done]. injection E as <-. by destruct Hi.
  - destruct (bi_calls b !! n) as [[m| | |]|]; try done. destruct (lock_holds _ _); [|done]. unfold enter in E.
    destruct (lifecycle_call m) as [k|].
    + destruct (client_step _ _ _) as [c|]; [cbn [mbind option_bind] in E|done]. injection E as <-. by apply (ev_calls b).
    + destruct m; try (injection E as <-; by apply (ev_calls b)); destruct (method_packet _ _) as [t []]; injection E as <-;
        by apply (ev_calls b).
  - destruct (bi_calls b !! n) as [[|m| |]|]; try done. unfold lifecycle_step in E.
    destruct (client_step _ _ _) as [c|]; [cbn [mbind option_bind] in E|done]. injection E as <-.
    destruct (cl_calls c !! n ≫= call_returned); by apply (ev_calls b).
  - destruct (bi_calls b !! n) as [[| |m p|]|]; try done. injection E as <-. by apply (ev_calls b).
  - destruct (bi_calls b !! n) as [[m|m|m p|]|]; try done;
      [|destruct (client_step _ _ _); [cbn [mbind option_bind] in E|done]|]; injection E as <-; by apply (ev_calls b).
  - destruct (is_env l); [|done]. destruct (client_step _ _ _); [cbn [mbind option_bind] in E|done]. injection E as <-. by apply (ev_calls b).
  - destruct (decide _); [|done]. injection E as <-. destruct Hi as [H1 H2 H3 H4]. split; try done; cbn.
    + intros k x Hk. apply H3 with k. destruct (decide (k = n)) as [->|]; [by rewrite lookup_insert_eq in Hk|by rewrite lookup_insert_ne in Hk].
    + intros k Hk. apply H4 with k. destruct (decide (k = n)) as [->|]; [by rewrite lookup_insert_eq in Hk|by rewrite lookup_insert_ne in Hk].
  - destruct (bi_pollers b !! n) as [[|]|]; try done. destruct (lock_holds _ _); [|done]. injection E as <-. by apply poll_handed.
  - destruct (bi_pollers b !! n) as [[|]|]; try done. injection E as <-. destruct Hi as [H1 H2 H3 H4]. split; try done; cbn.
    + intros k x [_ Hk]%lookup_delete_Some. by eapply H3.
    + intros k [_ Hk]%lookup_delete_Some. by eapply H4.
Qed.

Lemma ev_inv_run ls : forall b, ev_inv b -> ev_inv (binding_run powi ls b).
Proof.
  induction ls as [|l ls IH]; intros b Hi; [done|]. apply IH. cbn.
  destruct (binding_step powi l b) as [b'|] eqn:E; [by eapply ev_inv_step|done].
Qed.

Lemma ev_inv_new debug config b : MsgtransClient_new debug config = Done b -> ev_inv b.
Proof.
  intros (builder & c & _ & _ & _ & _ & Hb & Hev & _)%new_spec. rewrite Hb. split; unfold queued; cbn; rewrite ?Hev; done.
Qed.

(** Nothing is handed out or queued once the end was told. *)
Lemma ended_run ls b : ev_inv b -> stream_closed (bi_client b) = true -> queued (binding_run powi ls b) = queued b.
Proof. intros _ Hc. destruct (run_path ls b) as [cls [_ H]%client_path_events]. by destruct (H Hc). Qed.

(** The client's end is the stream's, when its teardown did not panic. *)
Lemma shut_down_closes b n r : bi_inv b -> bi_calls b !! n = Some (BiReturned MShutdown r) ->
  cf_teardown (cl_life_of (bi_client b)) = Some (TdFinished false) -> stream_closed (bi_client b) = true.
Proof.
  intros Hi Hn Ht. pose proof (bv_client b Hi) as Hc. pose proof (iv_td _ Hc) as Htd. unfold td_ok in Htd. rewrite Ht in Htd.
  destruct Htd as (Hphase & _ & _ & [Hf _] & _). destruct (iv_bg _ Hc) as [Hs _]. unfold stream_closed.
  rewrite Hf, Hs by (by rewrite Hphase). done.
Qed.

(** [next_event], however many tasks call it and drop it: what they are given,
    taken together, is in order and each once what the client's queue means, up
    to where it was read; [None] is told only when the queue is closed and read
    to its end, and then nothing more ever comes; and once [shutdown] has
    returned, unless the connection's own close panicked, a call that is served
    does not wait: it gets what is left, and then [None]. *)
Theorem events_in_order_then_none debug config b0 ls :
  MsgtransClient_new debug config = Done b0 ->
  let b := binding_run powi ls b0 in
  bi_handed b = omap map_event (take (bi_seen b) (queued b)) /\
  (forall n e, bi_pollers b !! n = Some (Some (Some e)) -> e ∈ bi_handed b) /\
  (forall n, bi_pollers b !! n = Some (Some None) -> bi_handed b = omap map_event (queued b) /\
    forall ls', queued (binding_run powi ls' b) = queued b) /\
  (forall n r k, bi_calls b !! n = Some (BiReturned MShutdown r) ->
    cf_teardown (cl_life_of (bi_client b)) = Some (TdFinished false) ->
    bi_pollers b !! k = Some None -> lock_holds k (bi_stream b) = true ->
    exists b' x, binding_step powi (BiPoll k) b = Some b' /\ bi_pollers b' !! k = Some (Some x) /\
      (x = None <-> bi_handed b = omap map_event (queued b))).
Proof.
  intros Hnew b. pose proof (ev_inv_run ls b0 (ev_inv_new _ _ _ Hnew)) as He. pose proof (bi_inv_run ls b0 (bi_inv_new _ _ _ Hnew)) as Hi.
  fold b in He, Hi. clearbody b. split_and!; try apply He.
  - intros n Hn. destruct (ev_end b He n Hn) as [Hc Hs]. split; [by rewrite (ev_handed b He), Hs, firstn_all|].
    intros ls'. by apply ended_run.
  - intros n r k Hn Ht Hk Hh. cbn. rewrite Hk, Hh. destruct (poll_handed k b He) as (_ & _ & Hp).
    destruct (Hp (shut_down_closes b n r Hi Hn Ht)) as (x & Hx & Hx'). by exists (poll k b), x.
Qed.
End Properties.

(** ** A lock *)

(** Holders and waiters; whoever fits is let in, in order. *)
Record fifo := mkFifo { ff_held : list (nat * bool); ff_waiting : list (nat * bool) }.
Definition let_in (held waiting : list (nat * bool)) : fifo := let '(h, w) := let_through held waiting in mkFifo h w.
#[export] Instance fifo_lock : RwLock fifo := {
  lock_new := mkFifo [] [];
  lock_join n e l := let_in (ff_held l) (ff_waiting l ++ [(n, e)]);
  lock_leave n l := let_in (filter (fun w => fst w <> n) (ff_held l)) (filter (fun w => fst w <> n) (ff_waiting l));
  lock_holds n l := bool_decide (n ∈ (ff_held l).*1)
}.

Definition fifo_line (l : fifo) : list (nat * bool) := ff_held l ++ ff_waiting l.
Definition fifo_ok (l : fifo) : Prop := compatible (ff_held l) /\ let_through (ff_held l) (ff_waiting l) = (ff_held l, ff_waiting l).

Lemma through_idem line : forall held, let_through (let_through held line).1 (let_through held line).2 = let_through held line.
Proof.
  induction line as [|w line IH]; intros held; cbn; [done|]. destruct (fits held w) eqn:Hf; [apply IH|]. cbn. by rewrite Hf.
Qed.

Lemma let_in_ok held waiting : compatible held ->
  fifo_ok (let_in held waiting) /\ fifo_line (let_in held waiting) = held ++ waiting.
Proof.
  intros Hc. unfold let_in, fifo_ok, fifo_line. pose proof (through_compatible waiting held Hc) as H1.
  pose proof (through_idem waiting held) as H2. destruct (through_app waiting held) as (a & H3 & H4).
  destruct (let_through held waiting) as [h w]. cbn in *. split; [done|]. by rewrite H3, H4, <- app_assoc.
Qed.

Lemma fifo_served l : fifo_ok l -> served (fifo_line l) = ff_held l.
Proof.
  intros [Hc Ha]. unfold served, fifo_line. rewrite (through_held_app _ []).
  - cbn. by rewrite Ha.
  - destruct Hc as [[n ->]|Hs]; [done|]. by apply through_prefix.
Qed.

#[export, refine] Instance fifo_laws : RwLockLaws fifo := { lock_ok := fifo_ok; lock_line := fifo_line }.
Proof.
  - split; [|done]. split; [by right|done].
  - intros n e l [Hc _]. destruct (let_in_ok (ff_held l) (ff_waiting l ++ [(n, e)]) Hc) as [H1 H2]. split; [done|].
    cbn. rewrite H2. unfold fifo_line. by rewrite app_assoc.
  - intros n l [Hc _]. destruct (let_in_ok _ (filter (fun w => fst w <> n) (ff_waiting l)) (compatible_filter (fun w => fst w <> n) _ Hc)) as [H1 H2].
    split; [done|]. cbn. rewrite H2. unfold fifo_line. by rewrite filter_app.
  - intros n l Hl. cbn. by rewrite bool_decide_eq_true, (fifo_served l Hl).
Defined.

(** ** Concrete runs *)

Definition plain_ffi : FfiClientConfig := mkFfiConfig (EpTcp "127.0.0.1:9001" None) 5000 None.
Definition no_debug (e : ConfigError) : string := "".
Definition sample_bindings : bindings fifo :=
  match MsgtransClient_new (T := Target64) (L := fifo) no_debug plain_ffi with
  | Done b => b
  | _ => mkBindings sample_client lock_new ∅ lock_new ∅ 0%nat []
  end.
Lemma sample_built : MsgtransClient_new (T := Target64) (L := fifo) no_debug plain_ffi = Done sample_bindings.
Proof. vm_compute. reflexivity. Qed.

(** [connect] holds the lock while [send], [shutdown] and [is_connected] queue up
    behind it. *)
Definition queued_up : list blabel :=
  [BiCall 0 MConnect; BiEnter 0; BiCall 1 (MSend [7]); BiCall 2 MShutdown; BiCall 3 MIsConnected].
Definition connects : list blabel :=
  [BiStep 0 Proceed; BiStep 0 Proceed; BiStep 0 (Attempts (fun _ => Done sample_client_conn))] ++ replicate 4 (BiStep 0 Proceed).
Definition shuts_down : list blabel :=
  [BiEnter 2; BiStep 2 Proceed] ++ replicate 8 (BiEnv (Teardown true)) ++ replicate 3 (BiStep 2 Proceed).

#[local] Abbreviation brun := (binding_run (C := tag_codec) (T := Target64) powi_iter) (only parsing).

Lemma borrow_witness :
  let b := brun (queued_up ++ connects) sample_bindings in
  bi_calls b !! 0%nat = Some (BiReturned MConnect (Done RNothing)) /\
  is_Some (binding_step (C := tag_codec) (T := Target64) powi_iter (BiEnter 1) b) /\
  lock_holds 2 (bi_lock b) = false /\ lock_holds 3 (bi_lock b) = false.
Proof.
  destruct (every_call_gets_its_borrow (C := tag_codec) (T := Target64) (L := fifo) (KL := fifo_laws) powi_iter no_debug plain_ffi sample_bindings
    (queued_up ++ connects) sample_built) as (_ & He & _).
  split; [vm_compute; reflexivity|]. split; [apply (He 1%nat (MSend [7])); vm_compute; reflexivity|]. split; vm_compute; reflexivity.
Defined.

Lemma overtaken_witness :
  let b := brun connects (brun queued_up sample_bindings) in
  bi_calls b !! 3%nat = Some (BiWaiting MIsConnected) /\ lock_holds 3 (bi_lock b) = false /\
  exists ahead, ahead `sublist_of` [(0%nat, true); (1%nat, false); (2%nat, true)] /\
    exists k, k ∈ ahead.*1 /\ lock_holds k (bi_lock b) = true.
Proof.
  split; [vm_compute; reflexivity|]. assert (Hno : lock_holds 3 (bi_lock (brun connects (brun queued_up sample_bindings))) = false)
    by (vm_compute; reflexivity). split; [exact Hno|].
  destruct (nobody_is_overtaken (C := tag_codec) (T := Target64) (L := fifo) (KL := fifo_laws) powi_iter no_debug plain_ffi sample_bindings
    queued_up connects 3 MIsConnected [(0%nat, true); (1%nat, false); (2%nat, true)] [] sample_built
    ltac:(vm_compute; reflexivity) ltac:(vm_compute; eexists; reflexivity) ltac:(repeat constructor; discriminate)
    ltac:(vm_compute; reflexivity)) as (ahead & behind & _ & Hsub & _ & Hk).
  exists ahead. split; [exact Hsub|exact (Hk Hno)].
Defined.

(** A [next_event] that waits through the shutdown, the connection's event still
    to be read. *)
Definition watched : list blabel :=
  queued_up ++ connects ++ [BiDrop 1; BiNext 9; BiEnv Forward] ++ shuts_down.

Lemma events_witness :
  let b := brun watched sample_bindings in
  bi_handed b = [] /\
  exists b' x, binding_step (C := tag_codec) (T := Target64) powi_iter (BiPoll 9) b = Some b' /\
    bi_pollers b' !! 9%nat = Some (Some x) /\ (x = None <-> bi_handed b = omap map_event (queued b)).
Proof.
  split; [vm_compute; reflexivity|].
  destruct (events_in_order_then_none (C := tag_codec) (T := Target64) (L := fifo) (KL := fifo_laws) powi_iter no_debug plain_ffi sample_bindings
    watched sample_built) as (_ & _ & _ & Hend).
  eapply (Hend 2%nat _ 9%nat); vm_compute; reflexivity.
Defined.

(** Were the connection's own close to panic, the forwarding task would live on
    with its sender, and [next_event] would wait for ever after [shutdown] has
    returned. *)
Lemma panicked_close_leaves_the_stream_open :
  let b := brun (queued_up ++ connects ++ [BiDrop 1; BiNext 9] ++ [BiEnter 2; BiStep 2 Proceed] ++
    [BiEnv (Teardown true); BiEnv (Teardown true); BiEnv (Teardown true); BiEnv TeardownPanics; BiEnv (Teardown true)] ++
    replicate 3 (BiStep 2 Proceed) ++ [BiPoll 9]) sample_bindings in
  bi_calls b !! 2%nat = Some (BiReturned MShutdown (Throw (MsgtransError_from teardown_panicked))) /\
  bi_pollers b !! 9%nat = Some None /\ lock_holds 9 (bi_stream b) = true /\ stream_closed (bi_client b) = false.
Proof. vm_compute. by split_and!. Qed.

(** A [connect] the foreign side cancels while it announces its connection leaves
    a client that can neither connect nor disconnect. *)
Lemma cancelled_connect_wedges_the_object :
  let b := brun ([BiCall 0 MConnect; BiEnter 0; BiStep 0 Proceed; BiStep 0 Proceed; BiStep 0 (Attempts (fun _ => Done sample_client_conn)); BiDrop 0] ++
    [BiCall 1 MConnect; BiEnter 1; BiStep 1 Proceed; BiStep 1 Proceed; BiCall 2 MDisconnect; BiEnter 2; BiStep 2 Proceed]) sample_bindings in
  bi_calls b !! 0%nat = None /\
  bi_calls b !! 1%nat = Some (BiReturned MConnect (Throw (MsgtransError_from (already_connected 1)))) /\
  bi_calls b !! 2%nat = Some (BiReturned MDisconnect (Throw (MsgtransError_from not_connected))).
Proof. vm_compute. by split_and!. Qed.
